(* ===== verification/_CoqProject ===== *)
-Q . S2P
Prelude.v
Decimal.v
Streams.v
EventType.v
BinaryFile.v
RadishEvent.v
LogReader.v
RadishStore.v
Clock.v
CompactStrategy.v
LogWriter.v
Compaction.v
LiveView.v
PersistenceLog.v
RadishDB.v
TimedRestart.v
Lifetime.v
Concurrency.v
ThreadProgress.v
RespCodec.v
TcpServer.v
Listener.v
Service.v
IdealService.v
Liveness.v
Main.v
Program.v
BenchmarkStatistics.v
RadishBench.v
DoubleText.v
BenchReport.v
BenchRun.v
BenchMain.v
UnitTests.v
