(* ===== verification/Prelude.v ===== *)
(** * Radish: a verification development

    Radish is a key-value store with string keys, an optional time to live, an
    append-only log and a server that speaks the RESP protocol. This library
    models its C++ code and proves what each part promises and what the parts
    promise together. Every function of the model carries the name of the C++
    function it translates; where C++ overloads or reuses a name the file tells
    them apart ([RadishStore.Create], [RadishDB.Create], ...).

    ** The parts and the files that model them

    - [Prelude]: bytes, machine integers, outcomes ([result]: a value, an
      exception, undefined behaviour) and the tactics and hints of the library.
    - [Decimal], [Streams]: the parts of the C++ standard library the code
      relies on: decimal conversions; streams and files. A disk is a map from
      file names to contents; an [IoEnv] says how the device behaves during one
      call (which operation fails, after how many bytes, when it shows).
    - [EventType] (enums/EventType.h), [BinaryFile] (persistence/BinaryFile.h
      and helpers/Concepts.h): the concepts are the classes [Element] and
      [BinaryValue]; their laws are [ElementLaws] and [BinaryValueLaws], which
      strings, vectors and arithmetic types discharge, and against which all
      other files are proved.
    - [RadishEvent] (RadishEvent.h), [LogReader], [LogWriter],
      [CompactStrategy], [PersistenceLog] (persistence/): the log. [Compaction]
      and [LiveView] hold the theory of compaction.
    - [RadishStore] (RadishStore.h): the store, and [RadishStore.Spec], the map
      with expiries it implements. [Clock] (helpers/SystemClock.h): where the
      readings of the clock come from.
    - [RadishDB] (RadishDB.h): the database: store, log and disk, a call being
      one step. [TimedRestart]: renames and restarts of a database with a time to
      live. [Lifetime] runs it beside the map of the contract, through calls,
      compactions and restarts. [Concurrency]: the same calls line by line under
      the two mutexes, by any number of threads; [ThreadProgress]: their calls
      return.
    - [RespCodec] (network/RespCodec): requests and replies, and [Grammar], a
      recursive-descent parser without positions that it agrees with.
    - [TcpServer] (network/TcpServer): the commands, a connection, and
      [Protocol], the contract of the commands. [Listener]: the listening socket.
      [Service] composes connections and database: many clients, any invariant of
      the database the commands keep, and the fate of the replies. [IdealService]
      is the abstract service that it refines. [Liveness] follows the service
      through infinite runs.
    - [Main] (main.cpp): the options of the server program, and its database from
      the command line to the compaction at shutdown. [Program] puts a run of
      [Service] into it and follows the data file from run to run.
    - [RadishBench] (benchmarks/RadishBench.cpp): the client: options, commands
      of the workloads and the reader of replies. [BenchRun]: loading the keys,
      the loop of a worker, and the figures. [BenchmarkStatistics]
      (benchmark/BenchmarkStatistics.h): the figures of a run, in binary64.
      [BenchReport]: the result files and a reader of them; [DoubleText]: how a
      double is printed. [BenchMain]: the program, from its options through the
      threads of its workers to its exit status.
    - [UnitTests] (tests/): the test cases of the repository, computed on the
      definitions of the other files.

    ** The two abstract specifications

    [Lifetime.lifetime t ideal st] relates a database and its disk to the map
    [ideal] that the successful mutations alone make of the empty one; creation,
    compaction and restart do not change it, whatever the device did to them.
    [Lifetime.answers_as] says that a database answers from that map.
    [IdealService.ideal_step] is a service of clients with an inbox and a stream
    of replies, where a request is one step on one shared map, decided by
    [RespCodec.Grammar] and [TcpServer.Protocol]; [service_view] maps the states
    of the server to it, and sending replies is invisible there.

    ** How state and operations correspond

    A method that changes its object takes the record and returns the new one.
    Each reading of the clock is an argument of the call that makes it, so the
    theorems hold for every clock; a loop that reads the clock several times
    takes a function from the iteration (or the key) to the reading. An
    [unordered_map] is a [gmap], and where the code iterates over one the order
    is an argument, any permutation of its entries. Exceptions are [Throw] with
    the message of the code. [*optional] of an empty optional and a character
    read past the end of a string are [Undefined].

    A connection is the record [Session]: the members of the class and the
    asynchronous operations under way, of which the code may start several. The handlers are functions, and [step]
    is everything that can happen to a connection. Asio runs one handler at a
    time on one thread, so a handler is one step; the connections that share the
    database are a map of sessions ([Service.service_step]).

    A thread that calls the database is at a [Concurrency.Stage]; what the
    threads share, the two mutexes included, is [Concurrency.Shared], with a
    ghost history of the calls whose replies are settled.

    ** What the theorems show

    - The store refines its contract in every sequence of calls, keeps its
      representation invariant, lists exactly its live keys, and expires a value
      when its time has come (and what happens when that time overflows).
    - What is written is read back: values, events, logs, requests, replies. The
      log reader returns exactly the events of a well-formed log; a log cut
      anywhere opens with a prefix of its events; a device error is never taken
      for the end of the log.
    - Compaction is atomic whatever fails, leaves exactly the event each key's
      value comes from, and keeps the store a replay gives (no time to live, no
      key renamed to itself); with a time to live, and without renames, it keeps
      every value that can still be seen.
    - A mutation of a database whose earlier appends met no fault is atomic and
      durable whatever the disk does during it, meets the store's contract when
      the disk works, and a database opened again is the one that was closed (no
      time to live, or no renames). Over its whole life, compactions and
      restarts included, the database refines the map of the contract, when no
      key is renamed to itself and, with a time to live, none is renamed. With a
      time to live and any renames a restart after a crash keeps every value
      that can be seen and brings back no key that was removed.
    - Six theorems mark where that ends: an append after a torn one, a file whose
      creation failed, a rename replayed after the expiry of the key, a time to
      live given to a log without one, a key renamed to itself, in the store and
      in the compaction.
    - The request parser reads no character outside its input, agrees with the
      grammar, and decides a request only when it is whole, and then for good.
    - The server answers every command as the protocol contract says, requests
      sent together in their order, however the stream is cut into reads; its
      handlers return on every input; its replies are sent in order, each once,
      before the connection closes, and while no write fails none is stuck.
      With any number of clients it refines the abstract service, in which no
      request is left waiting. Without a time to live the server can stop after
      any handler and find its data again, whatever they send; so can the
      program, from its start, which may fail, to its shutdown, also with a time
      to live, when no key is renamed to itself and, with one, none is renamed.
    - Measured on the clock of the system an expiry is never late and at most a
      millisecond early.
    - Threads: every interleaving under the mutexes is one in which each call is
      a single step, the one the rest of the library describes; a writer is
      alone; there is no deadlock, and when no new calls are made every call
      returns, whatever order the scheduler and the mutexes choose.
    - In an infinite run of the server whose writes come to an end, every reply
      is sent, or its connection fails.
    - The client of the benchmark reads exactly one response for each request,
      its requests are ones the server answers, the keys it loads are found, its
      figures account for every response and its percentiles are exact. The
      line it prints and, when the inserted texts are plain, the result files are
      read back as the figures of the run, to the six digits that are printed.
      The program exits with the status that says what happened, and it ends
      when no server leaves it waiting.

    ** Bounds and fuel

    Loops over the records of a log and over the characters of a string recurse
    on a decreasing length ([read_records] by well-founded recursion). The
    loop with fuel is [TcpServer.process]; [process_unfold] shows that the
    length of the input is enough. [dec_digits] takes a round for each binary
    digit, more than there are decimal ones. [read_response] recurses on the
    nesting levels the code allows, [requests] on the length of the text
    ([requests_done]). A worker of the benchmark recurses on the readings of its
    clock; [run_worker_ends] says when they are enough. The reader of the JSON
    file has the length of the text as fuel.

    ** What is not modelled

    - Memory exhaustion and what a container throws for a size beyond its limit,
      and [std::filesystem::exists] failing.
    - Floating-point instances of the templates; the values are strings, vectors
      and integers.
    - What a write that fails has sent of its reply; a completed one sent all.
    - Signed overflow of [now + ttl] is undefined in C++; the model wraps.
    - Integers are written in the memory order of a little-endian machine.
    - Sockets and signals, which are Asio's, and what the host makes of addresses
      and ports, which is the record [Host]; what the server program prints.
    - The random generator of the benchmark (its draws are arguments), and what
      [uname] reports; the machinery of the test framework and the build files.
    - The fairness of the mutexes: while new calls keep coming, one that waits
      may wait for ever. *)

From stdpp Require Export base option list gmap strings fin_maps.
From Stdlib Require Export ZArith Lia Ascii.
From Stdlib Require String.
Export String.StringSyntax.

#[global] Set Default Goal Selector "!".

Declare Scope radish_scope.
Delimit Scope radish_scope with radish.
#[global] Open Scope Z_scope.
#[global] Open Scope radish_scope.

(** ** Bytes

    A [char], an [unsigned char] or a [std::byte] is an [ascii]; a
    [std::string], a [std::string_view] and the contents of a file are lists
    of them, so every string is binary safe as in the code. *)

Abbreviation bytes := (list ascii).

(** String literals of the source. *)
Definition str (s : String.string) : bytes := String.list_ascii_of_string s.
Arguments str s%_string.

Definition CR : ascii := "013".
Definition LF : ascii := "010".

(** The terminator "\r\n" of the wire protocol. *)
Definition crlf : bytes := [CR; LF].

(** [size()] of a string or a container, as an integer. *)
Definition zlen {A} (l : list A) : Z := Z.of_nat (length l).

(** [input.substr(pos)] and [input.substr(pos, n)] for [pos <= size()]. *)
Definition zdrop {A} (pos : Z) (l : list A) : list A := drop (Z.to_nat pos) l.
Definition ztake {A} (n : Z) (l : list A) : list A := take (Z.to_nat n) l.

(** ** Machine integers *)

(** include/helpers/Types.h: [long long] and [uint32_t]. *)
Abbreviation Timestamp := Z.
Abbreviation BinarySize := Z.

Definition LLONG_MAX : Z := 9223372036854775807.
Definition LLONG_MIN : Z := -9223372036854775808.
Definition UINT32_MAX : Z := 4294967295.

(** The two's complement value of [z] in a signed integer of [n] bytes. *)
Definition wrap_signed (n : nat) (z : Z) : Z :=
  let m := 2 ^ (8 * Z.of_nat n) in
  let h := 2 ^ (8 * Z.of_nat n - 1) in
  (z + h) mod m - h.

(** Addition of two [long long]. Signed overflow is undefined in C++; the
    model takes the two's complement result every supported compiler gives,
    and the theorems state the range where no overflow happens. *)
Definition add_ll (a b : Z) : Z := wrap_signed 8 (a + b).

Definition in_ll (z : Z) : Prop := LLONG_MIN <= z <= LLONG_MAX.

(** ** The memory representation of integers, little endian *)

Definition byte_val (c : ascii) : Z := Z.of_N (N_of_ascii c).
Definition byte_of (z : Z) : ascii := ascii_of_N (Z.to_N (z mod 256)).

Fixpoint le_bytes (n : nat) (z : Z) : bytes :=
  match n with
  | O => []
  | S n' => byte_of z :: le_bytes n' (z / 256)
  end.

Fixpoint le_value (bs : bytes) : Z :=
  match bs with
  | [] => 0
  | c :: bs' => byte_val c + 256 * le_value bs'
  end.

(** ** Outcomes

    The exception classes the code throws, with the message. *)

Inductive Exn :=
  | runtime_error (what : bytes)
  | length_error (what : bytes)
  | invalid_argument (what : bytes)
  | out_of_range (what : bytes)
  | ios_failure (what : bytes)
  | bad_optional_access
  | filesystem_error (what : bytes)
  | system_error (what : bytes).

(** A computation returns a value, throws, or has undefined behaviour (it
    dereferences an empty [optional], or reads past the end of a string). *)
Inductive result (A : Type) :=
  | Ok (a : A)
  | Throw (e : Exn)
  | Undefined.
Arguments Ok {A} a.
Arguments Throw {A} e.
Arguments Undefined {A}.

Definition rbind {A B} (m : result A) (k : A -> result B) : result B :=
  match m with
  | Ok a => k a
  | Throw e => Throw e
  | Undefined => Undefined
  end.

(** [*o] and [o.value()] on an [optional]. *)
Definition deref {A} (o : option A) : result A :=
  match o with Some a => Ok a | None => Undefined end.
Definition value_of {A} (o : option A) : result A :=
  match o with Some a => Ok a | None => Throw bad_optional_access end.

(** A value with the equation that names it, for matches under a measure. *)
Definition inspect {A} (a : A) : { b : A | a = b } := exist _ a eq_refl.

(** [if (c) throw e;] *)
Definition throw_if (c : bool) (e : Exn) : result unit :=
  if c then Throw e else Ok tt.

Notation "'let!' x := m 'in' k" := (rbind m (fun x => k))
  (at level 10, x pattern, m at level 100, k at level 200) : radish_scope.
Notation "'throw!' e 'when' c 'in' k" := (rbind (throw_if c e) (fun _ => k))
  (at level 10, e at level 99, c at level 99, k at level 200) : radish_scope.

#[global] Instance ascii_eq_decision : EqDecision ascii := ascii_dec.
#[global] Instance Exn_eq_decision : EqDecision Exn.
Proof. solve_decision. Defined.
#[global] Instance result_eq_decision {A} `{EqDecision A} : EqDecision (result A).
Proof. solve_decision. Defined.


(** ** Generic lemmas *)

Lemma zlen_nonneg {A} (l : list A) : 0 <= zlen l.
Proof. unfold zlen. lia. Qed.

Lemma zlen_nil {A} : zlen ([] : list A) = 0.
Proof. done. Qed.

Lemma zlen_cons {A} (x : A) l : zlen (x :: l) = 1 + zlen l.
Proof. unfold zlen. simpl. lia. Qed.

Lemma zlen_app {A} (l k : list A) : zlen (l ++ k) = zlen l + zlen k.
Proof. unfold zlen. rewrite length_app. lia. Qed.

Lemma zlen_zdrop {A} n (l : list A) :
  0 <= n <= zlen l -> zlen (zdrop n l) = zlen l - n.
Proof. unfold zlen, zdrop. rewrite length_drop. lia. Qed.

Lemma zlen_ztake {A} n (l : list A) :
  0 <= n <= zlen l -> zlen (ztake n l) = n.
Proof. unfold zlen, ztake. rewrite length_take. lia. Qed.

Lemma zdrop_app {A} (l k : list A) : zdrop (zlen l) (l ++ k) = k.
Proof.
  unfold zdrop, zlen. rewrite Nat2Z.id. apply drop_app_length.
Qed.

Lemma ztake_app {A} (l k : list A) : ztake (zlen l) (l ++ k) = l.
Proof.
  unfold ztake, zlen. rewrite Nat2Z.id. apply take_app_length.
Qed.

Lemma zdrop_app_add {A} n (l k : list A) :
  0 <= n -> zdrop (zlen l + n) (l ++ k) = zdrop n k.
Proof.
  intros. unfold zdrop, zlen.
  rewrite Z2Nat.inj_add, Nat2Z.id by lia.
  by rewrite <- drop_drop, drop_app_length.
Qed.

Lemma zdrop_0 {A} (l : list A) : zdrop 0 l = l.
Proof. done. Qed.

Lemma zdrop_app_le {A} n (l k : list A) :
  0 <= n <= zlen l -> zdrop n (l ++ k) = zdrop n l ++ k.
Proof. unfold zdrop, zlen. intros. rewrite drop_app_le; [done | lia]. Qed.

Lemma ztake_app_le {A} n (l k : list A) :
  0 <= n <= zlen l -> ztake n (l ++ k) = ztake n l.
Proof. unfold ztake, zlen. intros. rewrite take_app_le; [done | lia]. Qed.

Lemma ztake_zdrop {A} n (l : list A) : ztake n l ++ zdrop n l = l.
Proof. apply take_drop. Qed.

(** [injection] without the normalisation it does. *)
Lemma Ok_inj {A} (a b : A) : Ok a = Ok b -> a = b.
Proof. congruence. Qed.

Lemma rbind_ok {A B} (m : result A) (k : A -> result B) b :
  rbind m k = Ok b -> exists a, m = Ok a /\ k a = Ok b.
Proof. destruct m; simpl; [eauto | done | done]. Qed.

Lemma throw_ok {A} (c : bool) e (k : unit -> result A) a :
  rbind (throw_if c e) k = Ok a -> c = false /\ k tt = Ok a.
Proof. by destruct c. Qed.

(** What a closed call returns, from its result alone. *)
Lemma result_pair {S A} (r : S * A) a : r.2 = a -> r = (r.1, a).
Proof. by destruct r; simpl; intros ->. Qed.

Lemma ok_pair {S A} (P : A -> bool) (r : S * result A) :
  (match r.2 with Ok a => P a | _ => false end) = true -> exists a, r = (r.1, Ok a) /\ P a = true.
Proof. destruct r as [s [a| |]]; simpl; [by exists a|done|done]. Qed.

Lemma throw_pair {S A} (r : S * result A) :
  (match r.2 with Throw _ => true | _ => false end) = true -> exists e, r = (r.1, Throw e).
Proof. destruct r as [s [a|e|]]; simpl; [done|by exists e|done]. Qed.

(** *** Bytes and integers *)

Lemma byte_val_range c : 0 <= byte_val c < 256.
Proof. unfold byte_val. pose proof (N_ascii_bounded c). lia. Qed.

Lemma byte_val_of z : byte_val (byte_of z) = z mod 256.
Proof.
  unfold byte_val, byte_of.
  pose proof (Z.mod_pos_bound z 256 ltac:(lia)).
  rewrite N_ascii_embedding by lia. lia.
Qed.

Lemma byte_of_val c : byte_of (byte_val c) = c.
Proof.
  unfold byte_of. rewrite Z.mod_small by apply byte_val_range.
  unfold byte_val. rewrite N2Z.id. apply ascii_N_embedding.
Qed.

Lemma byte_of_mod z : byte_of (z mod 256) = byte_of z.
Proof. unfold byte_of. by rewrite Z.mod_mod by lia. Qed.

Lemma length_le_bytes n z : length (le_bytes n z) = n.
Proof. revert z. induction n; intros; simpl; [done | by rewrite IHn]. Qed.

Lemma zlen_le_bytes n z : zlen (le_bytes n z) = Z.of_nat n.
Proof. unfold zlen. by rewrite length_le_bytes. Qed.

Lemma le_value_range bs : 0 <= le_value bs < 256 ^ zlen bs.
Proof.
  induction bs as [|c bs IH]; [by vm_compute|].
  rewrite zlen_cons, Z.pow_add_r by (pose proof (zlen_nonneg bs); lia).
  simpl le_value. pose proof (byte_val_range c). nia.
Qed.

Lemma le_value_le_bytes n z : le_value (le_bytes n z) = z mod 256 ^ Z.of_nat n.
Proof.
  revert z. induction n as [|n IH]; intros z.
  - simpl. by rewrite Z.mod_1_r.
  - rewrite Nat2Z.inj_succ, Z.pow_succ_r by lia.
    cbn [le_bytes le_value]. rewrite IH, byte_val_of.
    rewrite Z.rem_mul_r by lia. done.
Qed.

Lemma le_bytes_le_value bs : le_bytes (length bs) (le_value bs) = bs.
Proof.
  induction bs as [|c bs IH]; [done|]. cbn [length le_bytes le_value].
  pose proof (byte_val_range c).
  replace ((byte_val c + 256 * le_value bs) / 256) with (le_value bs).
  - rewrite IH. f_equal. rewrite <- byte_of_mod, (Z.mul_comm 256), Z.mod_add by lia.
    by rewrite byte_of_mod, byte_of_val.
  - rewrite (Z.mul_comm 256), Z.div_add, Z.div_small by lia. lia.
Qed.

(** *** Two's complement *)

Lemma wrap_signed_range n z :
  (0 < n)%nat ->
  - 2 ^ (8 * Z.of_nat n - 1) <= wrap_signed n z < 2 ^ (8 * Z.of_nat n - 1).
Proof.
  intros Hn. unfold wrap_signed.
  assert (E : 2 ^ (8 * Z.of_nat n) = 2 * 2 ^ (8 * Z.of_nat n - 1)).
  { rewrite <- Z.pow_succ_r by lia. f_equal. lia. }
  rewrite E. set (h := 2 ^ (8 * Z.of_nat n - 1)).
  assert (0 < h) by (apply Z.pow_pos_nonneg; lia).
  pose proof (Z.mod_pos_bound (z + h) (2 * h)). lia.
Qed.

Lemma wrap_signed_id n z :
  (0 < n)%nat ->
  - 2 ^ (8 * Z.of_nat n - 1) <= z < 2 ^ (8 * Z.of_nat n - 1) ->
  wrap_signed n z = z.
Proof.
  intros Hn Hz. unfold wrap_signed.
  assert (E : 2 ^ (8 * Z.of_nat n) = 2 * 2 ^ (8 * Z.of_nat n - 1)).
  { rewrite <- Z.pow_succ_r by lia. f_equal. lia. }
  rewrite Z.mod_small; lia.
Qed.

Lemma wrap_signed_mod n z :
  wrap_signed n (z mod 2 ^ (8 * Z.of_nat n)) = wrap_signed n z.
Proof.
  unfold wrap_signed. by rewrite Zplus_mod_idemp_l.
Qed.

Lemma add_ll_exact a b : in_ll (a + b) -> add_ll a b = a + b.
Proof.
  unfold in_ll, LLONG_MIN, LLONG_MAX, add_ll. intros.
  apply wrap_signed_id; [lia|].
  change (2 ^ (8 * Z.of_nat 8 - 1)) with 9223372036854775808. lia.
Qed.

(** Two values that fit and whose sum is too large: the sum wraps once. *)
Lemma add_ll_wraps a b :
  LLONG_MAX < a + b <= 2 * LLONG_MAX ->
  add_ll a b = a + b - 18446744073709551616.
Proof.
  unfold add_ll, wrap_signed, LLONG_MAX. intros.
  change (2 ^ (8 * Z.of_nat 8)) with 18446744073709551616.
  change (2 ^ (8 * Z.of_nat 8 - 1)) with 9223372036854775808.
  rewrite <- (Z.mod_unique (a + b + 9223372036854775808) 18446744073709551616 1
    (a + b - 9223372036854775808)) by lia. lia.
Qed.

Lemma pow_256 n : 256 ^ Z.of_nat n = 2 ^ (8 * Z.of_nat n).
Proof. change 256 with (2 ^ 8). by rewrite <- Z.pow_mul_r by lia. Qed.

(** A [long long] read back from the eight bytes it was written to. *)
Lemma wrap_signed_le_bytes n z :
  wrap_signed n (le_value (le_bytes n z)) = wrap_signed n z.
Proof. rewrite le_value_le_bytes, pow_256. apply wrap_signed_mod. Qed.

#[global] Opaque le_bytes.
#[global] Arguments le_value : simpl never.
#[global] Arguments wrap_signed : simpl never.
#[global] Arguments zlen : simpl never.

(** ** Automation *)

Create HintDb radish.
Create Rewrite HintDb zlen.
#[export] Hint Resolve zlen_nonneg byte_val_range : radish.
#[export] Hint Rewrite @zlen_nil @zlen_cons @zlen_app zlen_le_bytes : zlen.

(** Decide an arithmetic goal about sizes of strings. *)
Ltac zlen_solve :=
  autorewrite with zlen in *;
  repeat match goal with
  | |- context [zlen ?l] =>
      lazymatch goal with
      | H : 0 <= zlen l |- _ => fail
      | _ => pose proof (zlen_nonneg l)
      end
  end; lia.

(** Turn boolean comparisons in the context into propositions. *)
Ltac zify_bool :=
  repeat match goal with
  | H : (_ && _)%bool = true |- _ => apply andb_prop in H; destruct H
  | H : (_ || _)%bool = false |- _ => apply orb_false_elim in H; destruct H
  | H : negb _ = true |- _ => apply negb_true_iff in H
  | H : negb _ = false |- _ => apply negb_false_iff in H
  | H : (_ =? _) = true |- _ => apply Z.eqb_eq in H
  | H : (_ =? _) = false |- _ => apply Z.eqb_neq in H
  | H : (_ <=? _) = true |- _ => apply Z.leb_le in H
  | H : (_ <=? _) = false |- _ => apply Z.leb_gt in H
  | H : (_ <? _) = true |- _ => apply Z.ltb_lt in H
  | H : (_ <? _) = false |- _ => apply Z.ltb_ge in H
  | H : (_ >? _) = true |- _ => rewrite Z.gtb_ltb in H
  | H : (_ >? _) = false |- _ => rewrite Z.gtb_ltb in H
  | H : (_ >=? _) = true |- _ => rewrite Z.geb_leb in H
  | H : (_ >=? _) = false |- _ => rewrite Z.geb_leb in H
  end.

(** Split a chain of [let!] that ended in [Ok]. *)
Ltac inv_result :=
  repeat match goal with
  | H : Ok _ = Ok _ |- _ => apply Ok_inj in H; subst
  | H : Throw _ = Ok _ |- _ => discriminate H
  | H : Ok _ = Throw _ |- _ => discriminate H
  | H : Undefined = Ok _ |- _ => discriminate H
  | H : rbind (throw_if _ _) _ = Ok _ |- _ =>
      let E := fresh "E" in apply throw_ok in H; destruct H as [E H]
  | H : rbind _ _ = Ok _ |- _ =>
      let x := fresh "r" in let E := fresh "E" in
      apply rbind_ok in H; destruct H as (x & E & H)
  | H : throw_if ?c _ = Ok _ |- _ =>
      let E := fresh "E" in
      unfold throw_if in H; destruct c eqn:E; [discriminate H | clear H]
  end.
