(* ===== verification/Decimal.v ===== *)
(** Decimal numbers as the C++ standard library reads and prints them:
    [std::to_string], [std::from_chars] (the RESP codec) and [std::stoul],
    [std::stoll], [std::stoull] (the command lines). They are library code, defined here from
    their documented behaviour, with the round trips the codec relies on. *)

From S2P Require Import Prelude.

(** ** Digits *)

Definition is_digit (c : ascii) : bool := (48 <=? byte_val c) && (byte_val c <=? 57).

Definition digit_of (d : Z) : ascii := byte_of (48 + d).
Definition digit_val (c : ascii) : Z := byte_val c - 48.

(** The longest prefix of digits, and what follows it. *)
Fixpoint span_digits (bs : bytes) : bytes * bytes :=
  match bs with
  | [] => ([], [])
  | c :: bs' =>
      if is_digit c
      then let '(ds, rest) := span_digits bs' in (c :: ds, rest)
      else ([], bs)
  end.

Definition dec_value (ds : bytes) : Z :=
  fold_left (fun acc c => 10 * acc + digit_val c) ds 0.

(** ** [std::to_string] *)

Fixpoint dec_digits (fuel : nat) (n : Z) (acc : bytes) : bytes :=
  match fuel with
  | O => acc
  | S fuel' =>
      let acc' := digit_of (n mod 10) :: acc in
      if n / 10 =? 0 then acc' else dec_digits fuel' (n / 10) acc'
  end.

(** One digit uses at least one bit, so [log2 n + 1] rounds are enough. *)
Definition unsigned_to_string (n : Z) : bytes :=
  dec_digits (S (Z.to_nat (Z.log2 n))) n [].

Definition to_string (n : Z) : bytes :=
  if n <? 0 then "-"%char :: unsigned_to_string (- n) else unsigned_to_string n.

(** ** [std::from_chars] for [long long], base 10 *)

Inductive errc := errc_ok | errc_invalid_argument | errc_result_out_of_range.

#[global] Instance errc_eq_decision : EqDecision errc.
Proof. solve_decision. Defined.

(** The error code, the value stored on success, and the characters from the
    returned pointer on. *)
Definition from_chars (bs : bytes) : errc * Z * bytes :=
  let '(neg, body) :=
    match bs with
    | c :: bs' => if decide (c = "-"%char) then (true, bs') else (false, bs)
    | [] => (false, [])
    end in
  let '(ds, rest) := span_digits body in
  match ds with
  | [] => (errc_invalid_argument, 0, bs)
  | _ =>
      let v := if (neg : bool) then - dec_value ds else dec_value ds in
      if (v <? LLONG_MIN) || (LLONG_MAX <? v)
      then (errc_result_out_of_range, 0, rest)
      else (errc_ok, v, rest)
  end.

(** ** [std::stoll], [std::stoul], [std::stoull] *)

(** [std::isspace] in the "C" locale. *)
Definition is_space (c : ascii) : bool :=
  let v := byte_val c in (v =? 32) || ((9 <=? v) && (v <=? 13)).

Fixpoint skip_space (bs : bytes) : bytes :=
  match bs with
  | c :: bs' => if is_space c then skip_space bs' else bs
  | [] => []
  end.

(** White space, an optional sign and the digits that follow; what comes
    after the digits is ignored. *)
Definition strto (bs : bytes) : option (bool * Z) :=
  let '(neg, body) :=
    match skip_space bs with
    | c :: bs' =>
        if decide (c = "-"%char) then (true, bs')
        else if decide (c = "+"%char) then (false, bs')
        else (false, c :: bs')
    | [] => (false, [])
    end in
  let '(ds, _) := span_digits body in
  match ds with [] => None | _ => Some (neg, dec_value ds) end.

Definition stoll (bs : bytes) : result Z :=
  match strto bs with
  | None => Throw (invalid_argument (str "stoll"))
  | Some (neg, v) =>
      let v := if (neg : bool) then - v else v in
      if (v <? LLONG_MIN) || (LLONG_MAX <? v)
      then Throw (out_of_range (str "stoll"))
      else Ok v
  end.

(** An unsigned conversion of width [w]: the magnitude must fit, and a minus
    sign negates it modulo [2 ^ w]. *)
Definition sto_unsigned (name : bytes) (w : Z) (bs : bytes) : result Z :=
  match strto bs with
  | None => Throw (invalid_argument name)
  | Some (neg, v) =>
      if 2 ^ w - 1 <? v then Throw (out_of_range name)
      else Ok (if (neg : bool) then (- v) mod 2 ^ w else v)
  end.

(** ** Lemmas *)

Lemma digit_val_of d : 0 <= d < 10 -> digit_val (digit_of d) = d.
Proof.
  intros. unfold digit_val, digit_of. rewrite byte_val_of, Z.mod_small; lia.
Qed.

Lemma is_digit_of d : 0 <= d < 10 -> is_digit (digit_of d) = true.
Proof.
  intros. unfold is_digit, digit_of. rewrite byte_val_of, Z.mod_small by lia.
  apply andb_true_intro. split; apply Z.leb_le; lia.
Qed.

Lemma digit_val_range c : is_digit c = true -> 0 <= digit_val c < 10.
Proof. unfold is_digit, digit_val. intros. zify_bool. lia. Qed.

Lemma span_digits_app ds rest :
  Forall (fun c => is_digit c = true) ds ->
  span_digits (ds ++ rest) = (ds ++ (span_digits rest).1, (span_digits rest).2).
Proof.
  induction 1 as [|c ds Hc _ IH]; simpl; [by destruct (span_digits rest)|].
  rewrite Hc. rewrite IH. done.
Qed.

Lemma span_digits_all ds :
  Forall (fun c => is_digit c = true) ds -> span_digits ds = (ds, []).
Proof. intros H. rewrite <- (app_nil_r ds) at 1. by rewrite span_digits_app, app_nil_r. Qed.

Lemma span_digits_split bs : (span_digits bs).1 ++ (span_digits bs).2 = bs.
Proof.
  induction bs as [|c bs IH]; [done|]. simpl. destruct (is_digit c); [|done].
  destruct (span_digits bs). simpl in *. by rewrite IH.
Qed.

Lemma span_digits_digits bs : Forall (fun c => is_digit c = true) (span_digits bs).1.
Proof.
  induction bs as [|c bs IH]; [constructor|]. simpl. destruct (is_digit c) eqn:E; [|constructor].
  destruct (span_digits bs). by constructor.
Qed.

Lemma dec_value_snoc ds c : dec_value (ds ++ [c]) = 10 * dec_value ds + digit_val c.
Proof. unfold dec_value. by rewrite fold_left_app. Qed.

Lemma dec_value_nonneg ds : Forall (fun c => is_digit c = true) ds -> 0 <= dec_value ds.
Proof.
  induction ds as [|c ds IH] using rev_ind; [done|]. intros [Hds Hc]%Forall_app.
  rewrite dec_value_snoc. apply Forall_singleton, digit_val_range in Hc. specialize (IH Hds). lia.
Qed.

(** The digits printed are exactly a decimal representation of [n]. *)
Lemma dec_digits_spec fuel n acc :
  0 <= n < 10 ^ Z.of_nat fuel -> (0 < fuel)%nat ->
  exists ds, dec_digits fuel n acc = ds ++ acc
    /\ Forall (fun c => is_digit c = true) ds
    /\ dec_value ds = n /\ ds <> [].
Proof.
  revert n acc. induction fuel as [|fuel IH]; intros n acc Hn Hf; [lia|].
  pose proof (Z.mod_pos_bound n 10 ltac:(lia)) as Hm.
  pose proof (Z.div_mod n 10 ltac:(lia)) as Hd.
  rewrite Nat2Z.inj_succ, Z.pow_succ_r in Hn by lia.
  cbn [dec_digits]. destruct (n / 10 =? 0) eqn:E; zify_bool.
  - exists [digit_of (n mod 10)]. split_and!; [done| |  |done].
    + constructor; [by apply is_digit_of | done].
    + unfold dec_value. simpl. rewrite digit_val_of by lia. lia.
  - assert (0 < n / 10) by (pose proof (Z.div_pos n 10); lia).
    assert (n / 10 < 10 ^ Z.of_nat fuel) by (apply Z.div_lt_upper_bound; lia).
    destruct fuel as [|fuel]; [simpl in *; lia|].
    destruct (IH (n / 10) (digit_of (n mod 10) :: acc)) as (ds & -> & Hds & Hv & Hne);
      [lia | lia |].
    exists (ds ++ [digit_of (n mod 10)]). split_and!.
    + by rewrite <- app_assoc.
    + apply Forall_app. split; [done|]. constructor; [by apply is_digit_of | done].
    + rewrite dec_value_snoc, digit_val_of, Hv; lia.
    + by destruct ds.
Qed.

Lemma unsigned_to_string_spec n :
  0 <= n ->
  Forall (fun c => is_digit c = true) (unsigned_to_string n)
  /\ dec_value (unsigned_to_string n) = n /\ unsigned_to_string n <> [].
Proof.
  intros Hn. unfold unsigned_to_string.
  destruct (dec_digits_spec (S (Z.to_nat (Z.log2 n))) n []) as (ds & -> & ?); [|lia|].
  - pose proof (Z.log2_nonneg n). rewrite Nat2Z.inj_succ, Z2Nat.id by lia.
    split; [lia|]. destruct (decide (n = 0)) as [->|]; [done|].
    pose proof (Z.log2_spec n ltac:(lia)) as [_ Hlt].
    eapply Z.lt_le_trans; [exact Hlt|]. apply Z.pow_le_mono_l. lia.
  - by rewrite app_nil_r.
Qed.

Lemma to_string_digits n :
  0 <= n ->
  Forall (fun c => is_digit c = true) (to_string n)
  /\ dec_value (to_string n) = n /\ to_string n <> [].
Proof.
  intros Hn. unfold to_string. rewrite (proj2 (Z.ltb_ge n 0)) by lia.
  by apply unsigned_to_string_spec.
Qed.

Lemma is_digit_not c d : is_digit c = true -> is_digit d = false -> c <> d.
Proof. congruence. Qed.

Lemma from_chars_digits ds :
  Forall (fun c => is_digit c = true) ds -> ds <> [] ->
  0 <= dec_value ds <= LLONG_MAX ->
  from_chars ds = (errc_ok, dec_value ds, []).
Proof.
  intros Hds Hne Hv. unfold from_chars. destruct ds as [|c ds']; [done|].
  inversion Hds as [|? ? Hc Hds']; subst.
  rewrite decide_False by (eapply is_digit_not; [exact Hc | done]).
  rewrite span_digits_all by done.
  rewrite (proj2 (orb_false_iff _ _)); [done|].
  unfold LLONG_MIN in *. split; apply Z.ltb_ge; lia.
Qed.

(** [from_chars] reads back what [to_string] printed. *)
Lemma from_chars_to_string n :
  0 <= n <= LLONG_MAX -> from_chars (to_string n) = (errc_ok, n, []).
Proof.
  intros Hn. destruct (to_string_digits n) as (H1 & H2 & H3); [lia|].
  rewrite <- H2 at 2. apply from_chars_digits; [done | done | by rewrite H2].
Qed.

Lemma from_chars_nil : from_chars [] = (errc_invalid_argument, 0, []).
Proof. done. Qed.

Lemma from_chars_range bs v rest :
  from_chars bs = (errc_ok, v, rest) -> in_ll v.
Proof.
  unfold from_chars.
  destruct (match bs with [] => _ | _ => _ end) as [neg body].
  destruct (span_digits body) as [[|d ds] r]; [done|].
  set (u := if neg then _ else _).
  destruct (_ || _)%bool eqn:E; [done|]. intros [= <- <-].
  zify_bool. unfold in_ll. lia.
Qed.

Lemma strto_digits ds rest :
  Forall (fun c => is_digit c = true) ds -> ds <> [] ->
  strto (ds ++ rest) = Some (false, dec_value (ds ++ (span_digits rest).1)).
Proof.
  intros Hds Hne. unfold strto. destruct ds as [|c ds']; [done|].
  inversion Hds as [|? ? Hc Hds']; subst. cbn [app skip_space].
  assert (Hs : is_space c = false).
  { unfold is_space, is_digit in *. zify_bool.
    repeat (apply orb_false_iff; split); try (apply andb_false_iff; right);
    first [apply Z.eqb_neq | apply Z.leb_gt]; lia. }
  rewrite Hs.
  rewrite !decide_False by (eapply is_digit_not; [exact Hc | done]).
  change (c :: ds' ++ rest) with ((c :: ds') ++ rest).
  rewrite span_digits_app by done. done.
Qed.

Lemma is_digit_not_cr c : is_digit c = true -> c <> CR.
Proof. intros H. by eapply is_digit_not. Qed.

Lemma is_digit_not_lf c : is_digit c = true -> c <> LF.
Proof. intros H. by eapply is_digit_not. Qed.

(** A printed number contains neither CR nor LF. *)
Lemma to_string_no_cr n : Forall (fun c => c <> CR /\ c <> LF) (to_string n).
Proof.
  unfold to_string. destruct (n <? 0) eqn:E; zify_bool.
  - constructor; [done|].
    eapply Forall_impl; [apply (unsigned_to_string_spec (- n)); lia|].
    intros; split; [by apply is_digit_not_cr | by apply is_digit_not_lf].
  - eapply Forall_impl; [apply (unsigned_to_string_spec n); lia|].
    intros; split; [by apply is_digit_not_cr | by apply is_digit_not_lf].
Qed.

Lemma strto_to_string n : 0 <= n -> strto (to_string n) = Some (false, n).
Proof.
  intros Hn. destruct (to_string_digits n Hn) as (H1 & H2 & H3).
  pose proof (strto_digits (to_string n) [] H1 H3) as H. rewrite app_nil_r in H.
  simpl in H. by rewrite app_nil_r, H2 in H.
Qed.

Lemma stoll_to_string n : 0 <= n <= LLONG_MAX -> stoll (to_string n) = Ok n.
Proof.
  intros Hn. unfold stoll. rewrite strto_to_string by lia.
  rewrite (proj2 (orb_false_iff _ _)); [done|]. unfold LLONG_MIN in *.
  split; apply Z.ltb_ge; lia.
Qed.

Lemma strto_nonneg bs neg v : strto bs = Some (neg, v) -> 0 <= v.
Proof.
  unfold strto. destruct (match skip_space bs with [] => _ | _ => _ end) as [n body].
  destruct (span_digits body) as [ds r] eqn:E. destruct ds as [|d ds]; [done|]. intros [= <- <-].
  assert (Hf : Forall (fun c => is_digit c = true) (span_digits body).1) by apply span_digits_digits.
  rewrite E in Hf. apply (dec_value_nonneg (d :: ds) Hf).
Qed.

(** A number below [10 ^ d] has at most [d] digits. *)
Lemma dec_digits_size fuel n acc d :
  0 <= n < 10 ^ d -> 0 < d -> zlen (dec_digits fuel n acc) <= zlen acc + d.
Proof.
  revert n acc d. induction fuel as [|fuel IH]; intros n acc d Hn Hd; [simpl; lia|].
  cbn [dec_digits]. destruct (n / 10 =? 0) eqn:E; [rewrite zlen_cons; lia|]. zify_bool.
  assert (Hq : 0 <= n / 10 < 10 ^ (d - 1)).
  { split; [apply Z.div_pos; lia|]. apply Z.div_lt_upper_bound; [lia|].
    rewrite <- Z.pow_succ_r by lia. replace (Z.succ (d - 1)) with d by lia. lia. }
  assert (Hd' : 0 < d - 1).
  { destruct (decide (d = 1)) as [->|]; [|lia]. change (10 ^ (1 - 1)) with 1 in Hq. lia. }
  specialize (IH _ (digit_of (n mod 10) :: acc) _ Hq Hd'). rewrite zlen_cons in IH. lia.
Qed.

Lemma to_string_size n d : 0 <= n < 10 ^ d -> 0 < d -> zlen (to_string n) <= d.
Proof.
  intros Hn Hd. unfold to_string. rewrite (proj2 (Z.ltb_ge n 0)) by lia.
  pose proof (dec_digits_size (S (Z.to_nat (Z.log2 n))) n [] d Hn Hd) as H. exact H.
Qed.

(** Digits followed by something else are told apart by their value. *)
Lemma to_string_app_inj i j u v :
  0 <= i -> 0 <= j -> (span_digits u).1 = [] -> (span_digits v).1 = [] ->
  to_string i ++ u = to_string j ++ v -> i = j.
Proof.
  intros Hi Hj Hu Hv E. destruct (to_string_digits i Hi) as (H1 & H2 & _).
  destruct (to_string_digits j Hj) as (H3 & H4 & _).
  pose proof (span_digits_app _ u H1) as E1. pose proof (span_digits_app _ v H3) as E2.
  rewrite E, E2, Hu, Hv in E1. injection E1 as E1. rewrite !app_nil_r in E1.
  rewrite <- H2, <- H4. by rewrite E1.
Qed.
