(* ===== verification/Streams.v ===== *)
(** The standard library streams and file system the persistence layer uses.

    An output stream keeps the bytes that reached its destination. The
    destination may take only [os_room] more bytes; the shortage is noticed at
    the write that overruns it or, when the stream is buffering ([os_late]),
    only at the next flush. An input stream may fail after [is_limit] bytes.
    A string stream has no limit. The file system maps paths to contents.

    [IoEnv] is the behaviour of the environment during one operation; every
    theorem about the persistence layer quantifies over it, or names
    [io_ok], the environment where nothing fails. *)

From S2P Require Import Prelude.

(** ** Output *)

Record ostream := MkOstream {
  os_data : bytes;
  os_room : option nat;
  os_late : bool;
  os_lost : bool;
  os_flush_ok : bool;
  os_good : bool;
}.

(** [file.write(data, n)] *)
Definition os_write (s : ostream) (bs : bytes) : ostream :=
  if os_good s then
    match os_room s with
    | None => MkOstream (os_data s ++ bs) None (os_late s) (os_lost s) (os_flush_ok s) true
    | Some r =>
        if (length bs <=? r)%nat
        then MkOstream (os_data s ++ bs) (Some (r - length bs)%nat) (os_late s) (os_lost s)
               (os_flush_ok s) true
        else MkOstream (os_data s ++ take r bs) (Some O) (os_late s) true (os_flush_ok s) (os_late s)
    end
  else s.

(** [file.flush()] *)
Definition os_flush (s : ostream) : ostream :=
  MkOstream (os_data s) (os_room s) (os_late s) (os_lost s) (os_flush_ok s)
    (os_good s && negb (os_lost s) && os_flush_ok s).

(** [std::ostringstream] *)
Definition ostringstream : ostream := MkOstream [] None false false true true.

(** ** Input *)

Record istream := MkIstream {
  is_data : bytes;
  is_limit : option nat;
}.

Inductive read_result :=
  | ReadOk (bs : bytes) (s : istream)   (* all [n] bytes were read *)
  | ReadEof                              (* fail and eof bits *)
  | ReadBad.                             (* bad bit, no eof *)

(** [file.read(out, n)] on a good stream. A read of zero bytes succeeds at the
    end of the data. *)
Definition is_read (n : Z) (s : istream) : read_result :=
  let m := Z.min n (zlen (is_data s)) in
  let bad := match is_limit s with Some l => Z.of_nat l <? m | None => false end in
  if bad then ReadBad
  else if n <=? zlen (is_data s)
  then ReadOk (ztake n (is_data s))
         (MkIstream (zdrop n (is_data s)) (option_map (fun l => l - Z.to_nat n)%nat (is_limit s)))
  else ReadEof.

(** [std::istringstream] *)
Definition istringstream (bs : bytes) : istream := MkIstream bs None.

(** [stream.peek() != EOF] *)
Definition has_more (s : istream) : bool :=
  match is_data s with [] => false | _ => true end.

(** ** The file system *)

Abbreviation Disk := (gmap bytes bytes).

Record IoEnv := MkIoEnv {
  io_open_read : bool;         (* [is_open()] of an [ifstream] *)
  io_read_limit : option nat;  (* bytes read before the device fails *)
  io_open_write : bool;        (* [is_open()] of an [ofstream] *)
  io_room : option nat;        (* bytes the device takes *)
  io_late : bool;              (* a shortage shows only at the flush *)
  io_flush_ok : bool;
  io_close_ok : bool;
  io_rename_ok : bool;
}.

Definition io_ok : IoEnv := MkIoEnv true None true None false true true true.

Definition ifstream (io : IoEnv) (content : bytes) : istream :=
  MkIstream content (io_read_limit io).

Definition ofstream (io : IoEnv) : ostream :=
  MkOstream [] (io_room io) (io_late io) false (io_flush_ok io) true.

(** [(std::filesystem::path(path) / filename).string()] on POSIX. *)
Definition path_join (path filename : bytes) : bytes :=
  match filename with
  | c :: _ =>
      if decide (c = "/"%char) then filename
      else
        match last path with
        | None => filename
        | Some d => if decide (d = "/"%char) then path ++ filename
                    else path ++ "/"%char :: filename
        end
  | [] =>
      match last path with
      | None => []
      | Some d => if decide (d = "/"%char) then path else path ++ ["/"%char]
      end
  end.

(** ** Lemmas *)

(** A stream that takes everything, as a string stream does. *)
Definition os_unlimited (s : ostream) : Prop := os_good s = true /\ os_room s = None.

Definition os_append (s : ostream) (bs : bytes) : ostream :=
  MkOstream (os_data s ++ bs) (os_room s) (os_late s) (os_lost s) (os_flush_ok s) (os_good s).

Lemma os_write_unlimited s bs : os_unlimited s -> os_write s bs = os_append s bs.
Proof. destruct s. intros [? ?]. simpl in *. by subst. Qed.

Lemma os_append_unlimited s bs : os_unlimited s -> os_unlimited (os_append s bs).
Proof. by destruct s. Qed.

Lemma os_append_good s bs : os_good (os_append s bs) = os_good s.
Proof. done. Qed.

Lemma os_append_app s a b : os_append (os_append s a) b = os_append s (a ++ b).
Proof. unfold os_append. simpl. by rewrite app_assoc. Qed.

Lemma ostringstream_unlimited : os_unlimited ostringstream.
Proof. done. Qed.

(** What a sequence of writes leaves on the device is a prefix of what was
    written, and all of it when nothing was lost. *)
Definition os_prefix_of (s : ostream) (written : bytes) : Prop :=
  os_data s `prefix_of` written
  /\ (os_lost s = false -> os_data s = written /\ os_good s = true)
  /\ (os_lost s = true -> os_room s = Some O).

(** A stream on which nothing fails. *)
Definition os_fine (s : ostream) : Prop :=
  os_good s = true /\ os_room s = None /\ os_lost s = false /\ os_flush_ok s = true.

Lemma os_prefix_of_ofstream io : os_prefix_of (ofstream io) [].
Proof. by split_and!. Qed.

Lemma os_fine_ofstream : os_fine (ofstream io_ok).
Proof. done. Qed.

Lemma os_write_prefix s written bs :
  os_prefix_of s written -> os_prefix_of (os_write s bs) (written ++ bs).
Proof.
  destruct s as [d room late lost fok good]. unfold os_prefix_of, os_write. simpl.
  intros (Hp & Hd & Hl). destruct lost; simpl in *.
  - rewrite (Hl eq_refl). destruct good; [|by split_and!; [apply prefix_app_r | |]].
    destruct bs as [|c bs]; simpl; rewrite !app_nil_r; split_and!; try done.
    by apply prefix_app_r.
  - destruct (Hd eq_refl) as [-> ->].
    destruct room as [r|]; simpl; [|by split_and!].
    destruct (length bs <=? r)%nat eqn:E; simpl; split_and!; try done.
    apply prefix_app. exists (drop r bs). by rewrite take_drop.
Qed.

Lemma os_write_fine s bs : os_fine s -> os_fine (os_write s bs).
Proof. destruct s. unfold os_fine, os_write. simpl. intros (-> & -> & -> & ->). done. Qed.

Lemma is_read_string n bs :
  0 <= n <= zlen bs ->
  is_read n (istringstream bs) = ReadOk (ztake n bs) (istringstream (zdrop n bs)).
Proof.
  intros. unfold is_read. simpl. by rewrite (proj2 (Z.leb_le _ _)) by lia.
Qed.

Lemma is_read_string_app a b :
  is_read (zlen a) (istringstream (a ++ b)) = ReadOk a (istringstream b).
Proof.
  rewrite is_read_string by (rewrite zlen_app; zlen_solve).
  by rewrite ztake_app, zdrop_app.
Qed.

Lemma is_read_string_short n bs :
  zlen bs < n -> is_read n (istringstream bs) = ReadEof.
Proof.
  intros. unfold is_read. simpl. by rewrite (proj2 (Z.leb_gt _ _)) by lia.
Qed.

Lemma is_read_string_inv n bs out s :
  0 <= n -> is_read n (istringstream bs) = ReadOk out s ->
  exists rest, bs = out ++ rest /\ zlen out = n /\ s = istringstream rest.
Proof.
  intros Hn. unfold is_read. simpl. destruct (n <=? zlen bs) eqn:E; [|done].
  intros [= <- <-]. zify_bool. exists (zdrop n bs).
  split_and!; [by rewrite ztake_zdrop | apply zlen_ztake; lia | done].
Qed.

Lemma is_read_string_not_bad n bs : is_read n (istringstream bs) <> ReadBad.
Proof. unfold is_read. simpl. by destruct (n <=? zlen bs). Qed.

Lemma ifstream_ok content : ifstream io_ok content = istringstream content.
Proof. done. Qed.

(** A read consumes exactly the bytes it returns. *)
Lemma is_read_shorter n s bs s' :
  0 < n -> is_read n s = ReadOk bs s' -> (length (is_data s') < length (is_data s))%nat.
Proof.
  intros Hn. unfold is_read. destruct (match is_limit s with Some l => _ | None => _ end); [done|].
  destruct (n <=? zlen (is_data s)) eqn:E; [|done]. intros [= <- <-].
  zify_bool. unfold zlen in E. simpl. unfold zdrop. rewrite length_drop. lia.
Qed.

#[export] Hint Resolve ostringstream_unlimited os_append_unlimited : radish.
