(* ===== verification/EventType.v ===== *)
(** include/enums/EventType.h: the operation tags of the log.

    [EventType] is an enumeration over [uint8_t], so any byte is a value of
    it; the four enumerators are the values the log accepts. *)

From S2P Require Import Prelude.

Abbreviation EventType := Z.

Definition CREATE : EventType := 0.
Definition RENAME : EventType := 1.
Definition DELETE : EventType := 2.
Definition CLEAR : EventType := 3.

Definition TryGetEventTypeByName (name : bytes) : option EventType :=
  if decide (name = str "CREATE") then Some CREATE
  else if decide (name = str "RENAME") then Some RENAME
  else if decide (name = str "DELETE") then Some DELETE
  else if decide (name = str "CLEAR") then Some CLEAR
  else None.

Definition TryGetNameByEventType (type : EventType) : option bytes :=
  if type =? CREATE then Some (str "CREATE")
  else if type =? RENAME then Some (str "RENAME")
  else if type =? DELETE then Some (str "DELETE")
  else if type =? CLEAR then Some (str "CLEAR")
  else None.

(** The condition of [RadishEvent::ValidateType]. *)
Definition known_type (t : EventType) : bool :=
  (t =? CREATE) || (t =? RENAME) || (t =? DELETE) || (t =? CLEAR).

Lemma known_type_cases t :
  known_type t = true -> t = CREATE \/ t = RENAME \/ t = DELETE \/ t = CLEAR.
Proof.
  unfold known_type. rewrite !orb_true_iff, !Z.eqb_eq. tauto.
Qed.
