(* ===== verification/BinaryFile.v ===== *)
(** include/persistence/BinaryFile.h and include/helpers/Concepts.h: the
    checked binary reads and writes.

    The code dispatches at compile time on the concept the value type
    satisfies. Here the class [BinaryValue] is the pair of overloads, with one
    instance per branch: [HeapAllocated] types are lists of trivially copyable
    elements ([Element]), arithmetic and enumeration types are integers of a
    fixed width. [BinaryValueLaws] is what the event and log layers rely on. *)

From S2P Require Import Prelude Streams.

(** ** Element types *)

(** [sizeof(E)] and the object representation of a trivially copyable type. *)
Class Element (E : Type) := {
  esize : nat;
  eto : E -> bytes;
  eof : bytes -> E;
}.

Class ElementLaws (E : Type) `{Element E} := {
  esize_pos : (0 < esize)%nat;
  eto_length x : length (eto x) = esize;
  eof_eto x : eof (eto x) = x;
  eto_eof bs : length bs = esize -> eto (eof bs) = bs;
}.

(** [char], [unsigned char], [std::byte]. *)
#[export] Instance char_element : Element ascii := {|
  esize := 1;
  eto c := [c];
  eof bs := default "000"%char (head bs);
|}.

(** The bytes [value.data()] points at. *)
Definition object_bytes {E} `{Element E} (l : list E) : bytes := concat (map eto l).

(** The elements those bytes are, once [count] of them have been read. *)
Fixpoint objects_of {E} `{Element E} (count : nat) (bs : bytes) : list E :=
  match count with
  | O => []
  | S n => eof (take esize bs) :: objects_of n (drop esize bs)
  end.

(** ** The overloads *)

Class BinaryValue (T : Type) := {
  Write : ostream -> T -> result ostream;
  Read : istream -> result (T * istream);
}.

(** [Write] for [std::optional<TValue>]. *)
Definition WriteOptional {T} `{BinaryValue T} (file : ostream) (value : option T) : result ostream :=
  match value with
  | None => Throw (invalid_argument (str "Cannot serialize a missing required field"))
  | Some v => Write file v
  end.

(** [Read] into a [std::optional<TValue>]. *)
Definition ReadOptional {T} `{BinaryValue T} (file : istream) : result (option T * istream) :=
  let! (v, file) := Read file in
  Ok (Some v, file).

Definition sizeof_BinarySize : nat := 4.

(** The [HeapAllocated] branches. *)
Definition write_heap {E} `{Element E} (file : ostream) (value : list E) : result ostream :=
  throw! length_error (str "Binary value is too large to serialize")
    when UINT32_MAX / Z.of_nat esize <? zlen value in
  let bytes := zlen value * Z.of_nat esize in
  let file := os_write file (le_bytes sizeof_BinarySize bytes) in
  let file := os_write file (object_bytes value) in
  throw! ios_failure (str "Failed to write binary value") when negb (os_good file) in
  Ok file.

Definition read_heap {E} `{Element E} (file : istream) : result (list E * istream) :=
  match is_read (Z.of_nat sizeof_BinarySize) file with
  | ReadOk size file =>
      let bytes := le_value size in
      throw! runtime_error (str "Invalid binary value length")
        when negb (bytes mod Z.of_nat esize =? 0) in
      match is_read bytes file with
      | ReadOk data file => Ok (objects_of (Z.to_nat (bytes / Z.of_nat esize)) data, file)
      | ReadEof | ReadBad => Throw (runtime_error (str "Unexpected end of binary value"))
      end
  | ReadEof | ReadBad => Throw (runtime_error (str "Invalid binary value length"))
  end.

(** The arithmetic and enumeration branches, for a type of [size] bytes. *)
Definition write_arithmetic (size : nat) (file : ostream) (value : Z) : result ostream :=
  let file := os_write file (le_bytes size value) in
  throw! ios_failure (str "Failed to write binary value") when negb (os_good file) in
  Ok file.

Definition read_arithmetic (size : nat) (signed : bool) (file : istream) : result (Z * istream) :=
  match is_read (Z.of_nat size) file with
  | ReadOk bs file =>
      Ok (if signed then wrap_signed size (le_value bs) else le_value bs, file)
  | ReadEof | ReadBad => Throw (runtime_error (str "Unexpected end of binary value"))
  end.

#[export] Instance heap_value {E} `{Element E} : BinaryValue (list E) := {|
  Write := write_heap;
  Read := read_heap;
|}.

(** An integer type of [size] bytes as a value type, such as [int]. *)
Record arithmetic (size : nat) (signed : bool) := Arithmetic { arith_value : Z }.
Arguments Arithmetic {size signed}.
Arguments arith_value {size signed}.

#[export] Instance arithmetic_value {size signed} : BinaryValue (arithmetic size signed) := {|
  Write file v := write_arithmetic size file (arith_value v);
  Read file :=
    let! (z, file) := read_arithmetic size signed file in
    Ok (Arithmetic z, file);
|}.

Definition arith_range (size : nat) (signed : bool) (z : Z) : Prop :=
  if signed
  then - 2 ^ (8 * Z.of_nat size - 1) <= z < 2 ^ (8 * Z.of_nat size - 1)
  else 0 <= z < 2 ^ (8 * Z.of_nat size).

(** ** What the other components rely on

    [image v] is the outcome of writing [v]: its bytes, or an exception that
    leaves the record unwritten. On a stream that takes everything [Write]
    appends the image; [Read] inverts it and accepts nothing else. *)

Class BinaryValueLaws (T : Type) `{BinaryValue T} := {
  image : T -> result bytes;
  valid : T -> Prop;
  write_image s v :
    os_unlimited s -> Write s v = rbind (image v) (fun bs => Ok (os_append s bs));
  read_image v bs rest :
    valid v -> image v = Ok bs -> Read (istringstream (bs ++ rest)) = Ok (v, istringstream rest);
  read_sound data v s :
    Read (istringstream data) = Ok (v, s) ->
    valid v /\ exists bs rest, image v = Ok bs /\ data = bs ++ rest /\ s = istringstream rest;
  read_defined data : Read (istringstream data) <> Undefined;
  image_defined v : image v <> Undefined;
}.

(** ** Lemmas *)

#[export] Instance char_element_laws : ElementLaws ascii.
Proof.
  split; [simpl; lia | done | done |].
  intros [|c [|]]; done.
Qed.

Section heap.
Context {E : Type} `{ElementLaws E}.

Lemma length_object_bytes (l : list E) : length (object_bytes l) = (length l * esize)%nat.
Proof.
  unfold object_bytes. induction l as [|x l IH]; [done|]. simpl.
  rewrite length_app, eto_length, IH. lia.
Qed.

Lemma zlen_object_bytes (l : list E) : zlen (object_bytes l) = zlen l * Z.of_nat esize.
Proof. unfold zlen. rewrite length_object_bytes. lia. Qed.

Lemma objects_of_bytes (l : list E) : objects_of (length l) (object_bytes l) = l.
Proof.
  unfold object_bytes. induction l as [|x l IH]; [done|]. simpl.
  rewrite <- (eto_length x), take_app_length, drop_app_length, eof_eto. by rewrite IH.
Qed.

Lemma bytes_objects_of n bs :
  length bs = (n * esize)%nat -> object_bytes (objects_of (E := E) n bs) = bs.
Proof.
  unfold object_bytes. revert bs. induction n as [|n IH]; intros bs Hl; simpl.
  { by destruct bs. }
  rewrite eto_eof by (rewrite length_take; lia).
  rewrite IH by (rewrite length_drop; lia). apply take_drop.
Qed.

Lemma length_objects_of n bs : length (objects_of (E := E) n bs) = n.
Proof. revert bs. induction n; intros; simpl; [done | by rewrite IHn]. Qed.

(** The bytes written for a container. *)
Definition heap_image (value : list E) : result bytes :=
  if UINT32_MAX / Z.of_nat esize <? zlen value
  then Throw (length_error (str "Binary value is too large to serialize"))
  else Ok (le_bytes 4 (zlen value * Z.of_nat esize) ++ object_bytes value).

Lemma heap_size_fits (value : list E) :
  zlen value <= UINT32_MAX / Z.of_nat esize ->
  0 <= zlen value * Z.of_nat esize < 256 ^ Z.of_nat 4.
Proof.
  intros Hl. assert (0 < esize)%nat by apply esize_pos.
  pose proof (zlen_nonneg value).
  assert (zlen value * Z.of_nat esize <= UINT32_MAX).
  { etrans; [apply Z.mul_le_mono_nonneg_r; [lia | exact Hl]|].
    rewrite Z.mul_comm. apply Z.mul_div_le. lia. }
  unfold UINT32_MAX in *. change (256 ^ Z.of_nat 4) with 4294967296. lia.
Qed.

Lemma write_heap_image s (v : list E) :
  os_unlimited s -> write_heap s v = rbind (heap_image v) (fun bs => Ok (os_append s bs)).
Proof.
  intros Hs. unfold write_heap, heap_image, throw_if.
  destruct (_ <? _); simpl; [done|]. change sizeof_BinarySize with 4%nat.
  rewrite (os_write_unlimited s) by done.
  rewrite os_write_unlimited by auto with radish.
  rewrite os_append_app, os_append_good. destruct Hs as [-> _]. done.
Qed.

Lemma read_heap_image v bs rest :
  heap_image v = Ok bs -> read_heap (istringstream (bs ++ rest)) = Ok (v, istringstream rest).
Proof.
  unfold heap_image. destruct (_ <? _) eqn:El; [done|]. intros <-%Ok_inj. zify_bool.
  pose proof (heap_size_fits v El) as Hfit. assert (0 < esize)%nat by apply esize_pos.
  unfold read_heap. rewrite <- app_assoc.
  change (Z.of_nat sizeof_BinarySize) with (Z.of_nat 4).
  rewrite <- (zlen_le_bytes 4 (zlen v * Z.of_nat esize)) at 1.
  rewrite is_read_string_app, le_value_le_bytes.
  rewrite (Z.mod_small _ (256 ^ _)) by exact Hfit. rewrite Z.mod_mul by lia. simpl.
  rewrite <- zlen_object_bytes at 1. rewrite is_read_string_app.
  rewrite Z.div_mul by lia. unfold zlen. rewrite Nat2Z.id. by rewrite objects_of_bytes.
Qed.

Lemma read_heap_sound data v s :
  read_heap (istringstream data) = Ok (v, s) ->
  exists bs rest, heap_image v = Ok bs /\ data = bs ++ rest /\ s = istringstream rest.
Proof.
  assert (0 < esize)%nat by apply esize_pos.
  unfold read_heap. destruct (is_read _ _) as [size s1| |] eqn:E1; [|done|done].
  apply is_read_string_inv in E1 as (data' & -> & Hsz & ->); [|done].
  unfold throw_if. destruct (_ =? 0) eqn:Em; simpl; [|done]. zify_bool.
  destruct (is_read _ _) as [obj s2| |] eqn:E2; [|done|done].
  pose proof (le_value_range size) as Hr.
  apply is_read_string_inv in E2 as (rest & -> & Hob & ->); [|lia].
  intros [= <- <-].
  assert (Hn : length obj = (Z.to_nat (le_value size / Z.of_nat esize) * esize)%nat).
  { apply Nat2Z.inj. rewrite Nat2Z.inj_mul, Z2Nat.id by (apply Z.div_pos; lia).
    rewrite Z.mul_comm, <- Z_div_exact_full_2 by lia. exact Hob. }
  exists (size ++ obj), rest. split_and!; [|by rewrite app_assoc|done].
  unfold heap_image. rewrite Hsz in Hr. change (256 ^ Z.of_nat sizeof_BinarySize) with 4294967296 in Hr.
  rewrite (proj2 (Z.ltb_ge _ _)).
  - rewrite bytes_objects_of by done. do 2 f_equal.
    rewrite <- zlen_object_bytes, bytes_objects_of, Hob by done.
    assert (Hs4 : length size = 4%nat) by (unfold zlen in Hsz; change sizeof_BinarySize with 4%nat in Hsz; lia).
    rewrite <- Hs4. apply le_bytes_le_value.
  - unfold zlen. rewrite length_objects_of, Z2Nat.id by (apply Z.div_pos; lia).
    apply Z.div_le_mono; unfold UINT32_MAX; lia.
Qed.

#[export] Instance heap_value_laws : BinaryValueLaws (list E).
Proof.
  refine {| image := heap_image; valid := fun _ => True |}.
  - apply write_heap_image.
  - intros v bs rest _. apply read_heap_image.
  - intros data v s Hr. split; [done|]. by apply read_heap_sound.
  - intros data. simpl. unfold read_heap, throw_if.
    repeat (case_match; simpl); done.
  - intros v. unfold heap_image. by case_match.
Defined.

End heap.

(** *** Fixed-width integers *)

Lemma write_arithmetic_image size s z :
  os_unlimited s -> write_arithmetic size s z = Ok (os_append s (le_bytes size z)).
Proof.
  intros Hs. unfold write_arithmetic. rewrite os_write_unlimited by done.
  rewrite os_append_good. destruct Hs as [-> _]. done.
Qed.

Lemma read_arithmetic_image size signed z rest :
  (0 < size)%nat -> arith_range size signed z ->
  read_arithmetic size signed (istringstream (le_bytes size z ++ rest))
  = Ok (z, istringstream rest).
Proof.
  intros Hs Hz. unfold read_arithmetic.
  rewrite <- (zlen_le_bytes size z) at 1. rewrite is_read_string_app.
  do 2 f_equal. unfold arith_range in Hz. destruct signed.
  - rewrite wrap_signed_le_bytes. by rewrite wrap_signed_id.
  - rewrite le_value_le_bytes, pow_256. by rewrite Z.mod_small.
Qed.

(** The eight bytes of a value determine it, and it them. *)
Lemma le_bytes_wrap_signed bs :
  le_bytes (length bs) (wrap_signed (length bs) (le_value bs)) = bs.
Proof.
  rewrite <- (le_bytes_le_value bs) at 4.
  assert (Hm : forall n z z', z mod 256 ^ Z.of_nat n = z' mod 256 ^ Z.of_nat n ->
    le_bytes n z = le_bytes n z').
  { intros n z z' E. rewrite <- !le_value_le_bytes in E.
    rewrite <- (le_bytes_le_value (le_bytes n z)), <- (le_bytes_le_value (le_bytes n z')).
    by rewrite !length_le_bytes, E. }
  apply Hm. rewrite pow_256. unfold wrap_signed.
  rewrite Zminus_mod_idemp_l. f_equal. lia.
Qed.

Lemma read_arithmetic_sound size signed data z s :
  (0 < size)%nat ->
  read_arithmetic size signed (istringstream data) = Ok (z, s) ->
  arith_range size signed z
  /\ exists rest, data = le_bytes size z ++ rest /\ s = istringstream rest.
Proof.
  intros Hs. unfold read_arithmetic.
  destruct (is_read _ _) as [bs s1| |] eqn:E1; [|done|done].
  apply is_read_string_inv in E1 as (rest & -> & Hsz & ->); [|lia]. intros [= <- <-].
  assert (Hl : length bs = size) by (unfold zlen in Hsz; lia). subst size.
  unfold arith_range. pose proof (le_value_range bs) as Hr.
  unfold zlen in Hr. rewrite pow_256 in Hr. destruct signed.
  - split; [by apply wrap_signed_range|]. exists rest. by rewrite le_bytes_wrap_signed.
  - split; [done|]. exists rest. by rewrite le_bytes_le_value.
Qed.

Lemma read_arithmetic_defined size signed data :
  read_arithmetic size signed (istringstream data) <> Undefined.
Proof. unfold read_arithmetic. by case_match. Qed.

#[export] Instance arithmetic_value_laws size signed :
  TCEq (0 <? size)%nat true -> BinaryValueLaws (arithmetic size signed).
Proof.
  intros Hs. apply TCEq_eq, Nat.ltb_lt in Hs.
  refine {| image := fun v => Ok (le_bytes size (arith_value v));
            valid := fun v => arith_range size signed (arith_value v) |}.
  - intros s v. apply write_arithmetic_image.
  - intros [z] bs rest Hv <-%Ok_inj. simpl in *. by rewrite read_arithmetic_image.
  - intros data [z] s. simpl. intros Hr. inv_result. destruct r as [z' s'].
    apply read_arithmetic_sound in E as [? (rest & -> & ->)]; [|done].
    injection Hr as <- <-. split; [done|]. by exists (le_bytes size z'), rest.
  - intros data. simpl. pose proof (read_arithmetic_defined size signed data).
    by destruct (read_arithmetic _ _ _) as [[]| |].
  - done.
Defined.

(** ** Properties *)

(** The container overload of [Read] accepts exactly the bytes [Write]
    produces, gives back the value written, and leaves what follows unread. *)
Theorem heap_read_inverts_write {E} `{ElementLaws E} (data rest : bytes) (v : list E) :
  read_heap (istringstream data) = Ok (v, istringstream rest)
  <-> exists out, write_heap ostringstream v = Ok out /\ data = os_data out ++ rest.
Proof.
  rewrite write_heap_image by auto with radish. split.
  - intros (bs & rest' & Hi & -> & Er)%read_heap_sound. injection Er as <-.
    exists (os_append ostringstream bs). by rewrite Hi.
  - intros (out & Ho & ->). destruct (heap_image v) as [bs| |] eqn:Hi; try done.
    apply Ok_inj in Ho as <-. by apply read_heap_image.
Qed.

(** A container of more than [UINT32_MAX / sizeof(element)] elements is
    refused with [length_error]; any other is written as a four-byte length,
    which never wraps, followed by that many bytes. *)
Theorem heap_write_bounds {E} `{ElementLaws E} (v : list E) :
  if UINT32_MAX / Z.of_nat esize <? zlen v
  then write_heap ostringstream v
       = Throw (length_error (str "Binary value is too large to serialize"))
  else exists out, write_heap ostringstream v = Ok out
       /\ zlen (os_data out) = 4 + zlen v * Z.of_nat esize
       /\ le_value (take 4 (os_data out)) = zlen v * Z.of_nat esize.
Proof.
  rewrite write_heap_image by auto with radish. unfold heap_image.
  destruct (_ <? _) eqn:E1; [done|]. zify_bool.
  eexists. split; [reflexivity|]. cbn [os_data os_append ostringstream app].
  rewrite zlen_app, zlen_object_bytes, zlen_le_bytes. split; [done|].
  rewrite <- (length_le_bytes 4 (zlen v * Z.of_nat esize)) at 1.
  rewrite take_app_length, le_value_le_bytes. apply Z.mod_small. by apply heap_size_fits.
Qed.

(** ** Witnesses *)

Lemma heap_read_inverts_write_witness :
  read_heap (istringstream (le_bytes 4 2 ++ str "ab" ++ str "rest"))
  = Ok (str "ab", istringstream (str "rest")).
Proof.
  apply (heap_read_inverts_write (le_bytes 4 2 ++ str "ab" ++ str "rest") (str "rest") (str "ab")).
  eexists. split; [reflexivity|]. vm_compute. reflexivity.
Defined.

Lemma heap_write_bounds_witness :
  exists out, write_heap ostringstream (str "ab") = Ok out /\ zlen (os_data out) = 6.
Proof.
  destruct (heap_write_bounds (str "ab")) as (out & H1 & H2 & _).
  exists out. split; [exact H1 | exact H2].
Defined.
