(* ===== verification/RadishEvent.v ===== *)
(** include/RadishEvent.h: the unit of persistence and its binary form. *)

From S2P Require Import Prelude Streams BinaryFile EventType.

Record RadishEvent (V : Type) := MkEvent {
  m_type : EventType;
  m_timestamp : Timestamp;
  m_key : option bytes;
  m_renameKey : option bytes;
  m_payload : option V;
}.
Arguments MkEvent {V}.
Arguments m_type {V}.
Arguments m_timestamp {V}.
Arguments m_key {V}.
Arguments m_renameKey {V}.
Arguments m_payload {V}.

Section event.
Context {V : Type} `{BinaryValue V}.
Implicit Types e : RadishEvent V.

(** The default constructor. *)
Definition default_event : RadishEvent V := MkEvent 0 0 None None None.

Definition GetEventType e := m_type e.
Definition GetTimestamp e := m_timestamp e.
Definition GetKey e := m_key e.
Definition GetRenameKey e := m_renameKey e.
Definition GetPayload e := m_payload e.

Definition SetKey e (key : bytes) : RadishEvent V :=
  MkEvent (m_type e) (m_timestamp e) (Some key) (m_renameKey e) (m_payload e).

Definition ValidateType e : result unit :=
  throw_if
    (negb (m_type e =? CREATE) && negb (m_type e =? RENAME)
     && negb (m_type e =? DELETE) && negb (m_type e =? CLEAR))
    (runtime_error (str "Invalid event type in persistence log")).

Definition Serialize e (file : ostream) : result ostream :=
  let! _ := ValidateType e in
  let! file := write_arithmetic 1 file (m_type e) in
  let! file := write_arithmetic 8 file (m_timestamp e) in
  if m_type e =? CLEAR then Ok file
  else
    let! file := WriteOptional file (m_key e) in
    let! file :=
      if m_type e =? RENAME then WriteOptional file (m_renameKey e) else Ok file in
    if (m_type e =? DELETE) || (m_type e =? RENAME) then Ok file
    else WriteOptional file (m_payload e).

Definition Deserialize (file : istream) : result (RadishEvent V * istream) :=
  let! (type, file) := read_arithmetic 1 false file in
  let! _ := ValidateType (MkEvent type 0 None None None) in
  let! (timestamp, file) := read_arithmetic 8 true file in
  if type =? CLEAR then Ok (MkEvent type timestamp None None None, file)
  else
    let! (key, file) := ReadOptional file in
    let! (renameKey, file) :=
      if type =? RENAME then ReadOptional file else Ok (None, file) in
    if (type =? DELETE) || (type =? RENAME)
    then Ok (MkEvent type timestamp key renameKey None, file)
    else
      let! (payload, file) := ReadOptional file in
      Ok (MkEvent type timestamp key renameKey payload, file).

End event.

(** The events the database makes: what each operation passes to the
    constructor. *)
Definition create_event {V} (expiry : Timestamp) (key : bytes) (value : V) : RadishEvent V :=
  MkEvent CREATE expiry (Some key) None (Some value).
Definition rename_event {V} (oldKey newKey : bytes) : RadishEvent V :=
  MkEvent RENAME (-1) (Some oldKey) (Some newKey) None.
Definition delete_event {V} (key : bytes) : RadishEvent V :=
  MkEvent DELETE (-1) (Some key) None None.
Definition clear_event {V} : RadishEvent V :=
  MkEvent CLEAR (-1) None None None.

(** ** Well-formed events

    Exactly the fields the operation needs, each in the range of its type. *)

Definition event_wf {V} `{BinaryValueLaws V} (e : RadishEvent V) : Prop :=
  in_ll (m_timestamp e)
  /\ ((m_type e = CREATE /\ is_Some (m_key e) /\ m_renameKey e = None
       /\ exists v, m_payload e = Some v /\ valid v)
      \/ (m_type e = RENAME /\ is_Some (m_key e) /\ is_Some (m_renameKey e) /\ m_payload e = None)
      \/ (m_type e = DELETE /\ is_Some (m_key e) /\ m_renameKey e = None /\ m_payload e = None)
      \/ (m_type e = CLEAR /\ m_key e = None /\ m_renameKey e = None /\ m_payload e = None)).

Section lemmas.
Context {V : Type} `{BinaryValueLaws V}.
Implicit Types e : RadishEvent V.

(** The bytes of an event, or the exception that stops its serialisation. *)
Definition key_image (k : option bytes) : result bytes :=
  match k with
  | None => Throw (invalid_argument (str "Cannot serialize a missing required field"))
  | Some k => heap_image k
  end.

Definition payload_image (p : option V) : result bytes :=
  match p with
  | None => Throw (invalid_argument (str "Cannot serialize a missing required field"))
  | Some v => image v
  end.

Definition event_image e : result bytes :=
  let! _ := ValidateType e in
  let head := le_bytes 1 (m_type e) ++ le_bytes 8 (m_timestamp e) in
  if m_type e =? CLEAR then Ok head
  else
    let! key := key_image (m_key e) in
    let! renameKey := if m_type e =? RENAME then key_image (m_renameKey e) else Ok [] in
    if (m_type e =? DELETE) || (m_type e =? RENAME) then Ok (head ++ key ++ renameKey)
    else
      let! payload := payload_image (m_payload e) in
      Ok (head ++ key ++ renameKey ++ payload).

Lemma write_key_image s k :
  os_unlimited s ->
  WriteOptional (T := bytes) s k = rbind (key_image k) (fun bs => Ok (os_append s bs)).
Proof. intros Hs. destruct k; [|done]. by apply write_heap_image. Qed.

Lemma write_payload_image s p :
  os_unlimited s ->
  WriteOptional (T := V) s p = rbind (payload_image p) (fun bs => Ok (os_append s bs)).
Proof. intros Hs. destruct p; [|done]. by apply write_image. Qed.

Lemma serialize_image e s :
  os_unlimited s -> Serialize e s = rbind (event_image e) (fun bs => Ok (os_append s bs)).
Proof.
  intros Hs. unfold Serialize, event_image.
  destruct (ValidateType e); simpl; [|done|done].
  rewrite (write_arithmetic_image 1 s) by done. simpl.
  rewrite write_arithmetic_image by auto with radish. simpl. rewrite os_append_app.
  set (s1 := os_append s _).
  assert (Hs1 : os_unlimited s1) by by apply os_append_unlimited.
  destruct (m_type e =? CLEAR); [done|].
  rewrite write_key_image by done. destruct (key_image (m_key e)) as [kb| |]; simpl; [|done|done].
  destruct (m_type e =? RENAME).
  - rewrite write_key_image by auto with radish.
    destruct (key_image (m_renameKey e)) as [rb| |]; simpl; [|done|done].
    rewrite orb_true_r. subst s1. simpl. by rewrite !os_append_app, !app_assoc.
  - simpl. rewrite orb_false_r. destruct (m_type e =? DELETE); simpl.
    + subst s1. by rewrite os_append_app, app_nil_r.
    + rewrite write_payload_image by auto with radish.
      destruct (payload_image (m_payload e)) as [pb| |]; simpl; [|done|done].
      subst s1. by rewrite !os_append_app, !app_assoc.
Qed.

Lemma read_type_image t rest :
  known_type t = true ->
  read_arithmetic 1 false (istringstream (le_bytes 1 t ++ rest)) = Ok (t, istringstream rest).
Proof.
  intros Ht. apply read_arithmetic_image; [lia|].
  destruct (known_type_cases t Ht) as [->|[->|[->| ->]]]; by vm_compute.
Qed.

Lemma read_timestamp_image t rest :
  in_ll t ->
  read_arithmetic 8 true (istringstream (le_bytes 8 t ++ rest)) = Ok (t, istringstream rest).
Proof.
  unfold in_ll, LLONG_MIN, LLONG_MAX. intros Ht. apply read_arithmetic_image; [lia|].
  unfold arith_range. change (2 ^ (8 * Z.of_nat 8 - 1)) with 9223372036854775808. lia.
Qed.

Lemma read_key_image k bs rest :
  heap_image k = Ok bs ->
  ReadOptional (T := bytes) (istringstream (bs ++ rest)) = Ok (Some k, istringstream rest).
Proof. intros Hk. unfold ReadOptional. simpl. by rewrite (read_heap_image k bs rest). Qed.

Lemma read_payload_image v bs rest :
  valid v -> image v = Ok bs ->
  ReadOptional (T := V) (istringstream (bs ++ rest)) = Ok (Some v, istringstream rest).
Proof. intros Hv Hi. unfold ReadOptional. by rewrite (read_image v bs rest). Qed.

Lemma event_wf_known e : event_wf e -> known_type (m_type e) = true.
Proof. intros [_ [[-> _]|[[-> _]|[[-> _]|[-> _]]]]]; done. Qed.

Lemma validate_known e :
  ValidateType e
  = throw_if (negb (known_type (m_type e)))
      (runtime_error (str "Invalid event type in persistence log")).
Proof. unfold ValidateType, known_type. by rewrite !negb_orb. Qed.

(** [Deserialize] reads back a well-formed event. *)
Lemma deserialize_image e bs rest :
  event_wf e -> event_image e = Ok bs ->
  Deserialize (istringstream (bs ++ rest)) = Ok (e, istringstream rest).
Proof.
  intros Hwf Hi. pose proof (event_wf_known e Hwf) as Hk.
  unfold event_image in Hi. rewrite validate_known, Hk in Hi. simpl in Hi.
  unfold Deserialize. destruct Hwf as [Ht Hcase].
  destruct e as [t ts k r p]. simpl in *.
  destruct Hcase as [(-> & [k' ->] & -> & v & -> & Hv)|[(-> & [k' ->] & [r' ->] & ->)|
    [(-> & [k' ->] & -> & ->)|(-> & -> & -> & ->)]]]; simpl in *; inv_result;
    rewrite <- ?app_assoc, read_type_image by done; simpl;
    rewrite read_timestamp_image by done; simpl; try done;
    erewrite read_key_image by done; simpl.
  - by rewrite (read_payload_image v).
  - by erewrite read_key_image by done.
  - done.
Qed.

Lemma read_key_sound data k s :
  ReadOptional (T := bytes) (istringstream data) = Ok (k, s) ->
  exists k' bs rest, k = Some k' /\ heap_image k' = Ok bs
    /\ data = bs ++ rest /\ s = istringstream rest.
Proof.
  unfold ReadOptional. intros Hr. inv_result. destruct r as [k' s'].
  injection Hr as <- <-. apply read_heap_sound in E as (bs & rest & ? & ? & ?). eauto 10.
Qed.

Lemma read_payload_sound data p s :
  ReadOptional (T := V) (istringstream data) = Ok (p, s) ->
  exists v bs rest, p = Some v /\ valid v /\ image v = Ok bs
    /\ data = bs ++ rest /\ s = istringstream rest.
Proof.
  unfold ReadOptional. intros Hr. inv_result. destruct r as [v s'].
  injection Hr as <- <-. apply read_sound in E as (? & bs & rest & ? & ? & ?). eauto 10.
Qed.

Lemma read_timestamp_sound data t s :
  read_arithmetic 8 true (istringstream data) = Ok (t, s) ->
  in_ll t /\ exists rest, data = le_bytes 8 t ++ rest /\ s = istringstream rest.
Proof.
  intros [Hr ?]%read_arithmetic_sound; [|lia]. split; [|done].
  unfold arith_range in Hr. change (2 ^ (8 * Z.of_nat 8 - 1)) with 9223372036854775808 in Hr.
  unfold in_ll, LLONG_MIN, LLONG_MAX. lia.
Qed.

(** What [Deserialize] accepts is the image of a well-formed event. *)
Lemma deserialize_sound data e s :
  Deserialize (istringstream data) = Ok (e, s) ->
  event_wf e /\ exists bs rest, event_image e = Ok bs
    /\ data = bs ++ rest /\ s = istringstream rest.
Proof.
  unfold Deserialize.
  intros ([t s0] & [_ (d0 & -> & ->)]%read_arithmetic_sound & Hd)%rbind_ok; [|lia].
  apply rbind_ok in Hd as (u & Hu & Hd). rewrite validate_known in Hu. simpl in Hu.
  apply rbind_ok in Hd as ([ts s1] & [Hts (d1 & -> & ->)]%read_timestamp_sound & Hd).
  inv_result. rename E into E1. apply negb_false_iff in E1.
  unfold event_wf, event_image. rewrite validate_known.
  destruct (known_type_cases t E1) as [->|[->|[->| ->]]]; simpl in Hd.
  4: { injection Hd as <- <-. simpl. split; [by eauto 10|].
       eexists _, d1. split_and!; [done|by rewrite app_assoc|done]. }
  all: apply rbind_ok in Hd as ([k s2] & (k' & kb & d2 & -> & Hk & -> & ->)%read_key_sound & Hd);
    simpl in Hd.
  - apply rbind_ok in Hd as ([p s3] & (v & pb & d3 & -> & Hv & Hp & -> & ->)%read_payload_sound & Hd).
    injection Hd as <- <-. simpl. split; [by eauto 10|].
    rewrite Hk. simpl. rewrite Hp. eexists _, d3.
    split_and!; [done| by rewrite <- !app_assoc|done].
  - apply rbind_ok in Hd as ([r s3] & (r' & rb & d3 & -> & Hr & -> & ->)%read_key_sound & Hd).
    injection Hd as <- <-. simpl. split; [by eauto 10|].
    rewrite Hk. simpl. rewrite Hr. eexists _, d3.
    split_and!; [done| by rewrite <- !app_assoc|done].
  - injection Hd as <- <-. simpl. split; [by eauto 10|].
    rewrite Hk. eexists _, d2. split_and!; [done| by rewrite app_nil_r, <- !app_assoc|done].
Qed.

Lemma read_key_defined data : ReadOptional (T := bytes) (istringstream data) <> Undefined.
Proof.
  unfold ReadOptional. pose proof (read_defined (T := bytes) data).
  by destruct (Read (istringstream data)) as [[]| |].
Qed.

Lemma event_image_nonempty e bs : event_image e = Ok bs -> 9 <= zlen bs.
Proof.
  unfold event_image. intros Hi. inv_result. destruct (m_type e =? CLEAR); inv_result.
  { rewrite zlen_app, !zlen_le_bytes. lia. }
  destruct (_ || _); inv_result; rewrite !zlen_app, !zlen_le_bytes; zlen_solve.
Qed.

End lemmas.

(** ** Properties *)

(** C22: [Deserialize] accepts exactly the bytes [Serialize] writes for a
    well-formed event (the fields of its type and no others), restores that
    event, and leaves what follows unread. *)
Theorem event_roundtrip {V} `{BinaryValueLaws V} (e : RadishEvent V) (data rest : bytes) :
  Deserialize (istringstream data) = Ok (e, istringstream rest)
  <-> event_wf e /\ exists out, Serialize e ostringstream = Ok out /\ data = os_data out ++ rest.
Proof.
  rewrite serialize_image by auto with radish. split.
  - intros (Hwf & bs & rest' & Hi & -> & Er)%deserialize_sound. injection Er as <-.
    split; [done|]. exists (os_append ostringstream bs). by rewrite Hi.
  - intros (Hwf & out & Ho & ->). destruct (event_image e) as [bs| |] eqn:Hi; try done.
    apply Ok_inj in Ho as <-. by apply deserialize_image.
Qed.

(** An event whose tag is none of the four operations is refused when it
    is written and when it is read, whatever its other fields. *)
Theorem unknown_event_type_rejected {V} `{BinaryValue V} (e : RadishEvent V) (file : ostream)
    (tag : ascii) (rest : bytes) :
  known_type (m_type e) = false -> byte_val tag = m_type e ->
  Serialize e file = Throw (runtime_error (str "Invalid event type in persistence log"))
  /\ Deserialize (V := V) (istringstream (tag :: rest))
     = Throw (runtime_error (str "Invalid event type in persistence log")).
Proof.
  intros Hk Ht. split.
  - unfold Serialize. by rewrite validate_known, Hk.
  - unfold Deserialize, read_arithmetic.
    change (tag :: rest) with ([tag] ++ rest). change (Z.of_nat 1) with (zlen [tag]).
    rewrite is_read_string_app. simpl. rewrite validate_known. simpl.
    unfold le_value. replace (byte_val tag + 256 * 0) with (m_type e) by lia. by rewrite Hk.
Qed.

(** The size of each kind of record, field by field: 9 bytes for CLEAR,
    13 and the key for DELETE, 17 and both keys for RENAME, and 13, the key and
    the payload for CREATE. *)
Theorem serialized_sizes {V} `{BinaryValueLaws V} (e : RadishEvent V) (out : ostream) :
  event_wf e -> Serialize e ostringstream = Ok out ->
  let klen := zlen (default [] (m_key e)) in
  zlen (os_data out)
  = if m_type e =? CLEAR then 9
    else if m_type e =? DELETE then 13 + klen
    else if m_type e =? RENAME then 17 + klen + zlen (default [] (m_renameKey e))
    else 13 + klen + match payload_image (m_payload e) with Ok pb => zlen pb | _ => 0 end.
Proof.
  intros Hwf. rewrite serialize_image by auto with radish. intros Ho. inv_result.
  cbn [os_data os_append ostringstream app].
  assert (Hkey : forall k bs, heap_image k = Ok bs -> zlen bs = 4 + zlen k).
  { intros k bs. unfold heap_image. destruct (_ <? _); [done|]. intros <-%Ok_inj.
    rewrite zlen_app, zlen_object_bytes, zlen_le_bytes. simpl (Z.of_nat esize). lia. }
  unfold event_image in E. rewrite validate_known, (event_wf_known e Hwf) in E. simpl in E.
  destruct Hwf as [_ Hc]. destruct e as [t ts k r0 p]. simpl in *.
  destruct Hc as [(-> & [k' ->] & -> & v & -> & Hv)|[(-> & [k' ->] & [r' ->] & ->)|
    [(-> & [k' ->] & -> & ->)|(-> & -> & -> & ->)]]]; simpl in *; inv_result;
    rewrite ?zlen_app, !zlen_le_bytes;
    repeat match goal with Hi : heap_image _ = Ok _ |- _ => apply Hkey in Hi end.
  - rewrite E1. zlen_solve.
  - zlen_solve.
  - zlen_solve.
  - zlen_solve.
Qed.

(** ** Witnesses *)

Lemma unknown_event_type_rejected_witness :
  Serialize (MkEvent 255 (-1) None None (None : option bytes)) ostringstream
  = Throw (runtime_error (str "Invalid event type in persistence log"))
  /\ Deserialize (V := bytes) (istringstream ["255"%char])
     = Throw (runtime_error (str "Invalid event type in persistence log")).
Proof.
  apply (unknown_event_type_rejected (MkEvent 255 (-1) None None (None : option bytes))
    ostringstream "255"%char []); reflexivity.
Defined.

Lemma event_example_wf : event_wf (create_event 123 (str "k") (str "hello")).
Proof.
  split; [unfold in_ll, LLONG_MIN, LLONG_MAX; simpl; lia|].
  left. split_and!; eauto. exists (str "hello"). done.
Qed.

Lemma serialized_sizes_witness :
  exists out, Serialize (create_event 123 (str "k") (str "hello")) ostringstream = Ok out
    /\ zlen (os_data out) = 23.
Proof.
  eexists. split; [vm_compute; reflexivity|].
  refine (serialized_sizes (create_event 123 (str "k") (str "hello")) _ event_example_wf _).
  vm_compute. reflexivity.
Defined.

Lemma event_roundtrip_witness :
  exists data, Deserialize (istringstream (data ++ str "rest"))
    = Ok (create_event 123 (str "k") (str "hello"), istringstream (str "rest")).
Proof.
  destruct (Serialize (create_event 123 (str "k") (str "hello")) ostringstream) as [out| |] eqn:E;
    [|vm_compute in E; discriminate E..].
  exists (os_data out).
  apply (event_roundtrip (V := bytes) (create_event 123 (str "k") (str "hello"))).
  split; [exact event_example_wf|]. exists out. split; [exact E | reflexivity].
Defined.
