(* ===== verification/LogReader.v ===== *)
(** include/persistence/LogReader.h: reading the append-only log.

    [read_record] is the body of the loop in [GetEvents], [read_records] the
    loop, which ends because each record takes bytes from the file. [frame] and
    [log_image] are the format: the header, then each event's bytes preceded
    by their number. *)

From S2P Require Import Prelude Streams BinaryFile EventType RadishEvent.
From Equations Require Import Equations.

Definition kHeader : bytes := str "RADISH" ++ ["000"%char; "001"%char].

Lemma zlen_kHeader : zlen kHeader = 8.
Proof. done. Qed.

#[global] Opaque kHeader.

Definition kMaxRecordSize : Z := 64 * 1024 * 1024.

Section reader.
Context {V : Type} `{BinaryValue V}.

Abbreviation Event := (RadishEvent V).
Abbreviation Events := (list (RadishEvent V)).

(** [ReadExact]: the bytes stored in [output]. *)
Definition ReadExact (file : istream) (size : Z) : result (bytes * istream) :=
  match is_read size file with
  | ReadOk output file => Ok (output, file)
  | ReadEof | ReadBad => Throw (runtime_error (str "Truncated persistence log"))
  end.

Definition ReadHeader (file : istream) : result istream :=
  let! (header, file) := ReadExact file (zlen kHeader) in
  throw! runtime_error (str "Unsupported or corrupt persistence log header")
    when negb (bool_decide (header = kHeader)) in
  Ok file.

(** One round of the loop: [None] for [break], otherwise the event and the
    file after it. *)
Definition read_record (file : istream) : result (option (Event * istream)) :=
  match is_read 4 file with
  | ReadEof => Ok None
  | ReadBad => Throw (runtime_error (str "Failed to read persistence record length"))
  | ReadOk size file =>
      let recordSize := le_value size in
      throw! runtime_error (str "Invalid persistence record length")
        when (recordSize =? 0) || (kMaxRecordSize <? recordSize) in
      match is_read recordSize file with
      | ReadEof => Ok None
      | ReadBad => Throw (runtime_error (str "Failed to read persistence record"))
      | ReadOk record file =>
          let! (event, recordStream) := Deserialize (istringstream record) in
          throw! runtime_error (str "Persistence record contains trailing bytes")
            when has_more recordStream in
          Ok (Some (event, file))
      end
  end.

Lemma read_record_shorter file e file' :
  read_record file = Ok (Some (e, file')) ->
  (length (is_data file') < length (is_data file))%nat.
Proof.
  unfold read_record. destruct (is_read 4 file) as [sz f1| |] eqn:E1; [|done|done].
  apply is_read_shorter in E1; [|lia].
  intros Hr. inv_result. apply orb_false_iff in E as [E2 E3]. zify_bool.
  destruct (is_read (le_value sz) f1) as [rec f2| |] eqn:E4; [|done|done].
  pose proof (le_value_range sz). apply is_read_shorter in E4; [|lia].
  apply rbind_ok in Hr as ([ev rs] & _ & Hr). inv_result. injection Hr as <- <-. lia.
Qed.

(** The loop, with the events pushed so far. *)
Equations? read_records (file : istream) (events : Events) : result Events
  by wf (length (is_data file)) lt :=
  read_records file events with inspect (read_record file) => {
    | exist _ (Ok None) _ => Ok events ;
    | exist _ (Ok (Some (event, file'))) E => read_records file' (events ++ [event]) ;
    | exist _ (Throw e) _ => Throw e ;
    | exist _ Undefined _ => Undefined }.
Proof. by eapply read_record_shorter. Qed.

(** [GetEvents] of a reader of [filename]. *)
Definition GetEvents (io : IoEnv) (filename : bytes) (disk : Disk) : result Events :=
  match disk !! filename with
  | None => Ok []
  | Some content =>
      throw! runtime_error (str "Failed to open file for reading: " ++ filename)
        when negb (io_open_read io) in
      let file := ifstream io content in
      let! file := ReadHeader file in
      read_records file []
  end.

(** The defining equation of the loop. *)
Lemma read_records_eq file events :
  read_records file events =
  match read_record file with
  | Ok None => Ok events
  | Ok (Some (event, file')) => read_records file' (events ++ [event])
  | Throw e => Throw e
  | Undefined => Undefined
  end.
Proof.
  simp read_records. destruct (inspect (read_record file)) as [r E].
  destruct r as [[[e f]|]| |]; cbn [read_records_unfold_clause_1]; by rewrite E.
Qed.
End reader.

(** ** The format *)

Section format.
Context {V : Type} `{BinaryValueLaws V}.
Implicit Types (e : RadishEvent V) (es : list (RadishEvent V)) (bs tail data : bytes).

(** The length prefix and the bytes of one record. *)
Definition frame (bs : bytes) : bytes := le_bytes 4 (zlen bs) ++ bs.

(** [recs] is the sequence of complete records of the events [es]. *)
Inductive log_records : list (RadishEvent V) -> bytes -> Prop :=
  | log_records_nil : log_records [] []
  | log_records_cons e bs es recs :
      event_wf e -> event_image e = Ok bs -> zlen bs <= kMaxRecordSize ->
      log_records es recs -> log_records (e :: es) (frame bs ++ recs).

(** The file ends inside a length or inside a record of admissible length: what
    a write that was cut short leaves. *)
Definition incomplete (tail : bytes) : Prop :=
  zlen tail < 4
  \/ (0 < le_value (take 4 tail) <= kMaxRecordSize
      /\ zlen tail < 4 + le_value (take 4 tail)).

(** A log file: the header, complete records, and possibly a torn one. *)
Definition log_file (es : list (RadishEvent V)) (tail content : bytes) : Prop :=
  exists recs, content = kHeader ++ recs ++ tail /\ log_records es recs.

Lemma zlen_frame bs : zlen (frame bs) = 4 + zlen bs.
Proof. unfold frame. by rewrite zlen_app, zlen_le_bytes. Qed.

Lemma take_frame bs : take 4 (frame bs) = le_bytes 4 (zlen bs).
Proof. unfold frame. by rewrite take_app_le, take_ge by by rewrite length_le_bytes. Qed.

Lemma drop_frame bs : drop 4 (frame bs) = bs.
Proof. unfold frame. by rewrite drop_app_ge, length_le_bytes by by rewrite length_le_bytes. Qed.

Lemma frame_size bs :
  zlen bs <= kMaxRecordSize -> le_value (le_bytes 4 (zlen bs)) = zlen bs.
Proof.
  intros Hb. rewrite le_value_le_bytes. apply Z.mod_small.
  pose proof (zlen_nonneg bs). unfold kMaxRecordSize in Hb.
  change (256 ^ Z.of_nat 4) with 4294967296. lia.
Qed.

Lemma log_records_app es1 es2 r1 r2 :
  log_records es1 r1 -> log_records es2 r2 -> log_records (es1 ++ es2) (r1 ++ r2).
Proof.
  induction 1 as [|e bs es recs Hw Hi Hb Hr IH]; [done|]. intros H2.
  simpl. rewrite <- app_assoc. by apply log_records_cons; auto.
Qed.

Lemma log_records_one e bs :
  event_wf e -> event_image e = Ok bs -> zlen bs <= kMaxRecordSize ->
  log_records [e] (frame bs).
Proof.
  intros. rewrite <- (app_nil_r (frame bs)).
  apply log_records_cons; [done | done | done | apply log_records_nil].
Qed.

Lemma incomplete_nil : incomplete [].
Proof. left. by vm_compute. Qed.

(** A strict prefix of a record is incomplete. *)
Lemma incomplete_prefix bs tail :
  0 < zlen bs <= kMaxRecordSize -> tail `prefix_of` frame bs -> zlen tail < zlen (frame bs) ->
  incomplete tail.
Proof.
  intros Hb [k Hk] Hlt. rewrite zlen_frame in Hlt.
  destruct (decide (zlen tail < 4)) as [|H4]; [by left | right].
  assert (Ht : take 4 tail = le_bytes 4 (zlen bs)).
  { assert (H4' : (4 <= length tail)%nat) by (unfold zlen in H4; lia).
    rewrite <- (take_app_le tail k 4) by done. rewrite <- Hk. unfold frame.
    rewrite <- (length_le_bytes 4 (zlen bs)) at 1. by rewrite take_app_length. }
  rewrite Ht, frame_size by lia. lia.
Qed.

(** *** One record *)

Lemma read_record_frame e bs rest :
  event_wf e -> event_image e = Ok bs -> zlen bs <= kMaxRecordSize ->
  read_record (istringstream (frame bs ++ rest)) = Ok (Some (e, istringstream rest)).
Proof.
  intros Hw Hi Hb. pose proof (event_image_nonempty e bs Hi) as Hn.
  unfold read_record, frame. rewrite <- app_assoc.
  change 4 with (Z.of_nat 4) at 1. rewrite <- (zlen_le_bytes 4 (zlen bs)) at 1.
  rewrite is_read_string_app, frame_size by done.
  rewrite (proj2 (Z.eqb_neq _ _)), (proj2 (Z.ltb_ge _ _)) by lia. simpl.
  rewrite is_read_string_app.
  rewrite <- (app_nil_r bs), (deserialize_image e bs []) by done. done.
Qed.

Lemma read_record_incomplete tail :
  incomplete tail -> read_record (istringstream tail) = Ok None.
Proof.
  intros Hi. unfold read_record.
  destruct (decide (zlen tail < 4)) as [H4|H4].
  { by rewrite is_read_string_short. }
  destruct Hi as [?|[Hs Hl]]; [lia|].
  rewrite is_read_string by lia. change (ztake 4 tail) with (take 4 tail).
  rewrite (proj2 (Z.eqb_neq _ _)), (proj2 (Z.ltb_ge _ _)) by lia. simpl.
  rewrite is_read_string_short; [done|]. rewrite zlen_zdrop; lia.
Qed.

Lemma read_record_sound data e s :
  read_record (istringstream data) = Ok (Some (e, s)) ->
  exists bs rest, event_wf e /\ event_image e = Ok bs /\ zlen bs <= kMaxRecordSize
    /\ data = frame bs ++ rest /\ s = istringstream rest.
Proof.
  unfold read_record. destruct (is_read 4 _) as [sz s1| |] eqn:E1; [|done|done].
  apply is_read_string_inv in E1 as (d1 & -> & Hz & ->); [|lia].
  intros Hr. inv_result. apply orb_false_iff in E as [E2 E3]. zify_bool.
  pose proof (le_value_range sz).
  destruct (is_read (le_value sz) _) as [rec s2| |] eqn:E4; [|done|done].
  apply is_read_string_inv in E4 as (d2 & -> & Hrec & ->); [|lia].
  apply rbind_ok in Hr as ([ev rs] & (Hw & bs & rest & Hi & -> & ->)%deserialize_sound & Hr).
  inv_result. injection Hr as <- <-. destruct rest; [|done].
  rewrite app_nil_r in *. exists bs, d2. split_and!; [done|done|lia| |done].
  unfold frame. rewrite Hrec, app_assoc. f_equal. f_equal.
  assert (Hl : length sz = 4%nat) by (unfold zlen in Hz; lia).
  by rewrite <- Hl, le_bytes_le_value.
Qed.

Lemma read_record_none data :
  read_record (istringstream data) = Ok None -> incomplete data.
Proof.
  unfold read_record. destruct (decide (zlen data < 4)) as [|H4]; [by left|].
  rewrite is_read_string by lia. change (ztake 4 data) with (take 4 data).
  intros Hr. inv_result. apply orb_false_iff in E as [E2 E3]. zify_bool.
  pose proof (le_value_range (take 4 data)). right. split; [lia|].
  destruct (decide (zlen data < 4 + le_value (take 4 data))) as [|Hn]; [done|].
  rewrite is_read_string in Hr by (rewrite zlen_zdrop; lia).
  apply rbind_ok in Hr as ([ev rs] & _ & Hr). by inv_result.
Qed.

(** *** The whole log *)

Lemma read_records_image es recs tail acc :
  log_records es recs -> incomplete tail ->
  read_records (istringstream (recs ++ tail)) acc = Ok (acc ++ es).
Proof.
  intros Hr Ht. revert acc. induction Hr as [|e bs es recs Hw Hi Hb Hr IH]; intros acc.
  - rewrite read_records_eq. simpl. rewrite read_record_incomplete by done.
    by rewrite app_nil_r.
  - rewrite read_records_eq. rewrite <- app_assoc.
    rewrite (read_record_frame e) by done. rewrite IH. by rewrite <- app_assoc.
Qed.

Lemma read_records_sound data acc es :
  read_records (istringstream data) acc = Ok es ->
  exists es' recs tail, es = acc ++ es' /\ data = recs ++ tail
    /\ log_records es' recs /\ incomplete tail.
Proof.
  remember (length data) as n eqn:Hn.
  revert data Hn acc. induction n as [n IH] using lt_wf_ind; intros data -> acc.
  rewrite read_records_eq.
  destruct (read_record (istringstream data)) as [[[e s]|]| |] eqn:E; [| |done|done].
  - pose proof (read_record_shorter _ _ _ E) as Hs.
    apply read_record_sound in E as (bs & rest & Hw & Hi & Hb & -> & ->).
    intros (es' & recs & tail & -> & -> & Hr & Ht)%(IH _ Hs rest eq_refl).
    exists (e :: es'), (frame bs ++ recs), tail. rewrite <- !app_assoc. split_and!; try done.
    by constructor.
  - intros <-%Ok_inj. exists [], [], data. rewrite app_nil_r.
    split_and!; [done|done|constructor|]. by apply read_record_none.
Qed.

Lemma read_header_ok rest : ReadHeader (istringstream (kHeader ++ rest)) = Ok (istringstream rest).
Proof.
  unfold ReadHeader, ReadExact. rewrite is_read_string_app. cbn [rbind].
  by rewrite bool_decide_eq_true_2.
Qed.

Lemma read_header_sound data s :
  ReadHeader (istringstream data) = Ok s ->
  exists rest, data = kHeader ++ rest /\ s = istringstream rest.
Proof.
  unfold ReadHeader, ReadExact. intros ([h s1] & Hh & Hr)%rbind_ok.
  destruct (is_read _ _) as [out s2| |] eqn:E1; [|done|done].
  apply is_read_string_inv in E1 as (rest & -> & _ & ->); [|done].
  injection Hh as <- <-. inv_result. zify_bool. apply bool_decide_eq_true in E as ->. eauto.
Qed.

(** The events of a well-formed log file, a torn last record ignored. *)
Lemma get_events_image filename disk content es tail :
  disk !! filename = Some content -> log_file es tail content -> incomplete tail ->
  GetEvents io_ok filename disk = Ok es.
Proof.
  intros Hd (recs & -> & Hr) Ht. unfold GetEvents. rewrite Hd. simpl.
  rewrite ifstream_ok.
  rewrite read_header_ok. simpl. by rewrite (read_records_image es) by done.
Qed.

Lemma get_events_sound filename disk content es :
  disk !! filename = Some content -> GetEvents io_ok filename disk = Ok es ->
  exists tail, log_file es tail content /\ incomplete tail.
Proof.
  intros Hd. unfold GetEvents. rewrite Hd. simpl.
  rewrite ifstream_ok.
  intros (s & (rest & -> & ->)%read_header_sound & Hr)%rbind_ok.
  apply read_records_sound in Hr as (es' & recs & tail & -> & -> & Hr & Ht).
  exists tail. split; [|done]. by exists recs.
Qed.

(** *** A log cut after [n] bytes *)

Lemma log_records_take es recs n :
  log_records es recs ->
  exists es1 recs1 tail, es1 `prefix_of` es /\ take n recs = recs1 ++ tail
    /\ log_records es1 recs1 /\ incomplete tail
    /\ forall es0 recs0, es0 `prefix_of` es -> log_records es0 recs0 ->
         (length recs0 <= n)%nat -> es0 `prefix_of` es1.
Proof.
  intros Hr. revert n. induction Hr as [|e bs es recs Hw Hi Hb Hr IH]; intros n.
  { exists [], [], []. split_and!; [done|by rewrite take_nil|constructor|apply incomplete_nil|done]. }
  destruct (decide (length (frame bs) <= n)%nat) as [Hn|Hn].
  - destruct (IH (n - length (frame bs))%nat) as (es1 & recs1 & tail & Hp & Ht & Hr1 & Hinc & Hmax).
    exists (e :: es1), (frame bs ++ recs1), tail. split_and!; [by apply prefix_cons| | |done|].
    + rewrite take_app, take_ge, Ht by done. by rewrite app_assoc.
    + by constructor.
    + intros es0 recs0 Hp0 Hr0 Hl. inversion Hr0 as [|e0 bs0 es0' recs0' _ Hi0 _ Hr0']; subst.
      { apply prefix_nil. }
      apply prefix_cons_inv_1 in Hp0 as He; subst e0.
      apply prefix_cons_inv_2 in Hp0.
      assert (bs0 = bs) by congruence. subst bs0.
      apply prefix_cons. eapply Hmax; [done|done|]. rewrite length_app in Hl. lia.
  - exists [], [], (take n (frame bs)).
    split_and!; [apply prefix_nil| by rewrite take_app_le by lia | constructor | |].
    + pose proof (event_image_nonempty e bs Hi).
      apply (incomplete_prefix bs); [lia | |unfold zlen; rewrite length_take; lia].
      exists (drop n (frame bs)). by rewrite take_drop.
    + intros es0 recs0 Hp0 Hr0 Hl. inversion Hr0 as [|e0 bs0 es0' recs0' _ Hi0 _ Hr0']; subst.
      { apply prefix_nil. }
      apply prefix_cons_inv_1 in Hp0 as He; subst e0.
      assert (bs0 = bs) by congruence. subst bs0. rewrite length_app in Hl. lia.
Qed.

(** *** A device that fails while it is read *)

Lemma is_read_limit n d lim out s :
  is_read n (MkIstream d lim) = ReadOk out s ->
  is_read n (istringstream d) = ReadOk out (istringstream (is_data s)).
Proof.
  unfold is_read. cbn [is_data is_limit istringstream option_map].
  destruct (match lim with Some _ => _ | None => _ end); [done|].
  destruct (n <=? zlen d); [|done]. by intros [= <- <-].
Qed.

Lemma is_read_limit_eof n d lim :
  is_read n (MkIstream d lim) = ReadEof -> is_read n (istringstream d) = ReadEof.
Proof.
  unfold is_read. cbn [is_data is_limit istringstream option_map].
  destruct (match lim with Some _ => _ | None => _ end); [done|].
  by destruct (n <=? zlen d).
Qed.

Lemma read_record_limit d lim r :
  read_record (MkIstream d lim) = Ok r ->
  read_record (istringstream d)
  = Ok (match r with Some (e, s) => Some (e, istringstream (is_data s)) | None => None end).
Proof.
  unfold read_record. destruct (is_read 4 (MkIstream d lim)) as [sz [d1 l1]| |] eqn:E1; [| |done].
  - apply is_read_limit in E1. rewrite E1. cbn [is_data] in *.
    intros Hr. inv_result. rewrite E. cbn [throw_if rbind].
    destruct (is_read _ (MkIstream d1 l1)) as [rec [d2 l2]| |] eqn:E2; [| |done].
    + apply is_read_limit in E2. rewrite E2.
      destruct (Deserialize (istringstream rec)) as [[ev rs]| |]; [|done|done].
      simpl in *. inv_result. by rewrite E0.
    + apply is_read_limit_eof in E2. rewrite E2. by inv_result.
  - apply is_read_limit_eof in E1. rewrite E1. intros Hr. by inv_result.
Qed.

Lemma read_records_limit d lim acc es :
  read_records (MkIstream d lim) acc = Ok es -> read_records (istringstream d) acc = Ok es.
Proof.
  remember (length d) as n eqn:Hn.
  revert d Hn lim acc. induction n as [n IH] using lt_wf_ind; intros d -> lim acc.
  rewrite !read_records_eq.
  destruct (read_record (MkIstream d lim)) as [[[e [d1 l1]]|]| |] eqn:E; [| |done|done].
  - pose proof (read_record_shorter _ _ _ E) as Hs. apply read_record_limit in E. rewrite E.
    cbn [is_data]. intros Hr. by eapply (IH _ Hs d1 eq_refl l1).
  - apply read_record_limit in E. by rewrite E.
Qed.

Lemma read_header_limit d lim s :
  ReadHeader (MkIstream d lim) = Ok s ->
  ReadHeader (istringstream d) = Ok (istringstream (is_data s)).
Proof.
  unfold ReadHeader, ReadExact. intros ([h s1] & Hh & Hr)%rbind_ok.
  destruct (is_read _ (MkIstream d lim)) as [out s2| |] eqn:E1; [|done|done].
  apply is_read_limit in E1. rewrite E1. apply Ok_inj in Hh. injection Hh as <- <-.
  cbn [rbind]. inv_result. by rewrite E.
Qed.

(** A read that returns despite the device is a read of the whole file. *)
Lemma get_events_limit io filename disk es :
  GetEvents io filename disk = Ok es -> GetEvents io_ok filename disk = Ok es.
Proof.
  unfold GetEvents. destruct (disk !! filename) as [d|]; [|done]. intros Hr. inv_result.
  cbn [negb io_ok io_open_read throw_if rbind]. rewrite ifstream_ok.
  unfold ifstream in E0. destruct r as [d1 l1]. apply read_header_limit in E0.
  rewrite E0. by eapply read_records_limit.
Qed.

End format.

(** ** Properties *)

Section properties.
Context {V : Type} `{BinaryValueLaws V}.

(** C15: reading an existing log succeeds exactly when the file is the header,
    a sequence of complete records each holding one well-formed event, and
    possibly one torn record at the end; the result is those events in order. *)
Theorem get_events_iff (filename content : bytes) (disk : Disk) (es : list (RadishEvent V)) :
  disk !! filename = Some content ->
  GetEvents io_ok filename disk = Ok es
  <-> exists tail, log_file es tail content /\ incomplete tail.
Proof.
  intros Hd. split.
  - by apply get_events_sound.
  - intros (tail & Hl & Ht). by eapply get_events_image.
Qed.

(** C24: a well-formed log cut anywhere after the header, as a crash may leave
    it, is still read; no event is made up, and every event whose record lies
    wholly in the remaining bytes is recovered. *)
Theorem truncated_log_recovers (filename content : bytes) (n : Z) (es : list (RadishEvent V)) :
  log_file es [] content -> zlen kHeader <= n ->
  exists es', GetEvents io_ok filename {[ filename := ztake n content ]} = Ok es'
    /\ es' `prefix_of` es
    /\ forall es0 recs0, es0 `prefix_of` es -> log_records es0 recs0 ->
         zlen kHeader + zlen recs0 <= n -> es0 `prefix_of` es'.
Proof.
  intros (recs & -> & Hr) Hn. rewrite app_nil_r.
  destruct (log_records_take es recs (Z.to_nat n - length kHeader) Hr)
    as (es1 & recs1 & tail & Hp & Ht & Hr1 & Hinc & Hmax).
  exists es1. split_and!; [|done|].
  - eapply get_events_image; [by rewrite lookup_singleton_eq | | exact Hinc].
    exists recs1. split; [|done]. unfold ztake, zlen in *.
    rewrite take_app, take_ge by lia. by rewrite Ht.
  - intros es0 recs0 Hp0 Hr0 Hle. eapply Hmax; [done|done|]. unfold zlen in *. lia.
Qed.

(** C40: a device error while the log is read never shortens the result: the
    read either throws or returns what it returns without the error. *)
Theorem read_error_never_loses_events (io : IoEnv) (filename : bytes) (disk : Disk)
    (es : list (RadishEvent V)) :
  GetEvents io filename disk = Ok es -> GetEvents io_ok filename disk = Ok es.
Proof. apply get_events_limit. Qed.

(** A record length of zero or above 64 MiB after any number of good
    records is rejected, whatever follows it. *)
Theorem invalid_record_length_rejected (filename recs rest : bytes) (size : Z)
    (es : list (RadishEvent V)) :
  log_records es recs -> size = 0 \/ kMaxRecordSize < size <= UINT32_MAX ->
  GetEvents (V := V) io_ok filename {[ filename := kHeader ++ recs ++ le_bytes 4 size ++ rest ]}
  = Throw (runtime_error (str "Invalid persistence record length")).
Proof.
  intros Hr Hs. unfold GetEvents. rewrite lookup_singleton_eq.
  cbn [negb io_ok io_open_read throw_if rbind]. rewrite ifstream_ok, read_header_ok.
  cbn [rbind]. generalize (@nil (RadishEvent V)).
  induction Hr as [|e bs es recs Hw Hi Hb Hr IH]; intros acc; rewrite read_records_eq.
  - cbn [app]. unfold read_record. change 4 with (Z.of_nat 4) at 1.
    rewrite <- (zlen_le_bytes 4 size) at 1. rewrite is_read_string_app, le_value_le_bytes.
    change (256 ^ Z.of_nat 4) with (UINT32_MAX + 1).
    rewrite Z.mod_small by (unfold kMaxRecordSize, UINT32_MAX in *; lia).
    replace ((size =? 0) || (kMaxRecordSize <? size))%bool with true; [done|].
    symmetry. apply orb_true_iff. rewrite Z.eqb_eq, Z.ltb_lt. lia.
  - rewrite <- app_assoc. rewrite (read_record_frame e) by done. apply IH.
Qed.

End properties.

(** ** Witnesses *)

Definition log_example : bytes := kHeader ++ le_bytes 4 9 ++ le_bytes 1 CLEAR ++ le_bytes 8 (-1).

Lemma log_example_file : log_file [clear_event (V := bytes)] [] log_example.
Proof.
  exists (frame (le_bytes 1 CLEAR ++ le_bytes 8 (-1))). split; [by vm_compute|].
  apply log_records_one.
  - split; [by vm_compute|]. right. right. right. done.
  - by vm_compute.
  - by vm_compute.
Qed.

Lemma get_events_iff_witness :
  GetEvents io_ok (str "f") {[ str "f" := log_example ]} = Ok [clear_event (V := bytes)].
Proof.
  apply (get_events_iff (str "f") log_example); [reflexivity|].
  exists []. split; [exact log_example_file | exact incomplete_nil].
Defined.

Lemma truncated_log_recovers_witness :
  exists es', GetEvents (V := bytes) io_ok (str "f") {[ str "f" := ztake 20 log_example ]} = Ok es'
    /\ es' `prefix_of` [clear_event].
Proof.
  destruct (truncated_log_recovers (str "f") log_example 20 [clear_event] log_example_file)
    as (es' & H1 & H2 & _); [vm_compute; discriminate|].
  exists es'. split; [exact H1 | exact H2].
Defined.

Lemma read_error_never_loses_events_witness :
  GetEvents (V := bytes) io_ok (str "f") {[ str "f" := log_example ]} = Ok [clear_event].
Proof.
  apply (read_error_never_loses_events (MkIoEnv true (Some 22%nat) true None false true true true)).
  vm_compute. reflexivity.
Defined.

Lemma invalid_record_length_rejected_witness :
  GetEvents (V := bytes) io_ok (str "f") {[ str "f" := kHeader ++ [] ++ le_bytes 4 0 ++ [] ]}
  = Throw (runtime_error (str "Invalid persistence record length")).
Proof.
  apply (invalid_record_length_rejected (str "f") [] [] 0 []).
  - apply log_records_nil.
  - left. reflexivity.
Defined.
