(* ===== verification/RadishStore.v ===== *)
(** include/RadishStore.h: the in-memory key-value store with expiry.

    The state is the record [RadishStore]; [m_clock] keeps no state, so each
    operation takes the readings [SystemClock::Now()] gives during the call:
    one reading [now] where the clock is read at most once, a function from
    keys where it is read once per entry. The iteration order of an
    [unordered_map] is not specified: [Scan] and [Size] take the sequence
    [entries] from [begin()] to [end()], any permutation of the map.

    [Spec] is the contract: a map from keys to values with an optional
    expiry, and [abs] the view of a store as such a map. *)

From S2P Require Import Prelude.

Record RadishStore (V : Type) := MkStore {
  m_ttl : Timestamp;
  m_data : gmap bytes V;
  m_ttlData : gmap bytes Timestamp;
}.
Arguments MkStore {V}.
Arguments m_ttl {V}.
Arguments m_data {V}.
Arguments m_ttlData {V}.

(** [entries] is the content of [m] in some bucket order. *)
Definition bucket_order {V} (m : gmap bytes V) (entries : list (bytes * V)) : Prop :=
  entries ≡ₚ map_to_list m.

Section operations.
Context {V : Type}.
Implicit Types s : RadishStore V.

(** The constructor. *)
Definition NewStore (ttl : Timestamp) : RadishStore V := MkStore ttl ∅ ∅.

Definition HasTimeToLive s : bool := negb (m_ttl s =? -1).

Definition GetTTL s : Timestamp := m_ttl s.

Definition NewExpiryTimestamp (now : Timestamp) s : Timestamp :=
  if HasTimeToLive s then add_ll now (m_ttl s) else -1.

Definition IsExpired (now : Timestamp) s (key : bytes) : bool :=
  if HasTimeToLive s then
    match m_ttlData s !! key with
    | Some expiry => now >=? expiry
    | None => false
    end
  else false.

Definition Get (now : Timestamp) s (key : bytes) : option V :=
  match m_data s !! key with
  | Some value => if negb (IsExpired now s key) then Some value else None
  | None => None
  end.

Definition InsertTimestampForKey (now : Timestamp) s (key : bytes)
    (timestamp : option Timestamp) : Timestamp * RadishStore V :=
  let value :=
    match timestamp with
    | Some t => t
    | None => add_ll now (m_ttl s)
    end in
  (value, MkStore (m_ttl s) (m_data s) (<[key := value]> (m_ttlData s))).

Definition Create (now : Timestamp) s (key : bytes) (value : V)
    (timestamp : option Timestamp) : Timestamp * RadishStore V :=
  let s := MkStore (m_ttl s) (<[key := value]> (m_data s)) (m_ttlData s) in
  if HasTimeToLive s
  then InsertTimestampForKey now s key timestamp
  else (-1, s).

Definition Rename (now : Timestamp) s (oldKey newKey : bytes) : bool * RadishStore V :=
  match m_data s !! oldKey with
  | None => (false, s)
  | Some value =>
      if IsExpired now s oldKey then (false, s)
      else
        let data := delete oldKey (<[newKey := value]> (m_data s)) in
        let ttlData :=
          match m_ttlData s !! oldKey with
          | Some expiry => delete oldKey (<[newKey := expiry]> (m_ttlData s))
          | None => delete newKey (m_ttlData s)
          end in
        (true, MkStore (m_ttl s) data ttlData)
  end.

Definition Delete s (key : bytes) : bool * RadishStore V :=
  (bool_decide (is_Some (m_data s !! key)),
   MkStore (m_ttl s) (delete key (m_data s)) (delete key (m_ttlData s))).

Definition Clear s : bool * RadishStore V :=
  if decide (m_data s = ∅) then (false, s)
  else (true, MkStore (m_ttl s) ∅ ∅).

(** The range-for loop over [m_data], pushing the live keys. *)
Definition Scan (now : bytes -> Timestamp) (entries : list (bytes * V)) s : list bytes :=
  fold_left
    (fun keys '(key, _) =>
       if IsExpired (now key) s key then keys else keys ++ [key])
    entries [].

(** [std::count_if] over [m_data]. *)
Definition Size (now : bytes -> Timestamp) (entries : list (bytes * V)) s : Z :=
  fold_left
    (fun n '(key, _) => if negb (IsExpired (now key) s key) then n + 1 else n)
    entries 0.

Definition Exists (now : Timestamp) s (key : bytes) : bool :=
  if IsExpired now s key then false
  else bool_decide (is_Some (m_data s !! key)).

(** [a.Swap(b)]: the new contents of [a] and of [b]. *)
Definition Swap (a b : RadishStore V) : RadishStore V * RadishStore V :=
  (MkStore (m_ttl b) (m_data b) (m_ttlData b),
   MkStore (m_ttl a) (m_data a) (m_ttlData a)).

(** The representation invariant: expiries are kept for exactly the stored
    keys in a store with a time to live, and for none otherwise. *)
Definition store_wf s : Prop :=
  if HasTimeToLive s
  then dom (m_ttlData s) = dom (m_data s)
  else m_ttlData s = ∅.

End operations.

(** ** The contract *)

Module Spec.
Section spec.
Context {V : Type}.

(** A value and the instant it expires at, if any. *)
Definition entry : Type := V * option Timestamp.
Implicit Types m : gmap bytes entry.

Definition alive (now : Timestamp) (e : entry) : bool :=
  match e.2 with Some t => now <? t | None => true end.

Definition lookup_alive (now : Timestamp) m (k : bytes) : option V :=
  match m !! k with
  | Some e => if alive now e then Some e.1 else None
  | None => None
  end.

Definition insert_entry (k : bytes) (v : V) (t : option Timestamp) m : gmap bytes entry :=
  <[k := (v, t)]> m.

(** Move a live value, with its expiry, to another name. *)
Definition move (now : Timestamp) (k k' : bytes) m : bool * gmap bytes entry :=
  match m !! k with
  | Some e => if alive now e then (true, <[k' := e]> (delete k m)) else (false, m)
  | None => (false, m)
  end.

Definition remove (k : bytes) m : bool * gmap bytes entry :=
  (bool_decide (is_Some (m !! k)), delete k m).

Definition remove_all m : bool * gmap bytes entry :=
  (negb (bool_decide (m = ∅)), ∅).
End spec.
End Spec.

(** What a store means. *)
Definition abs {V} (s : RadishStore V) : gmap bytes (@Spec.entry V) :=
  map_imap
    (fun k v => Some (v, if HasTimeToLive s then m_ttlData s !! k else None))
    (m_data s).

(** ** Sequences of calls

    One call on the public interface, its reply, and the same call on the
    contract: what [store_refines_spec] compares. *)

Inductive StoreCall (V : Type) :=
  | CallGet (key : bytes)
  | CallExists (key : bytes)
  | CallCreate (key : bytes) (value : V) (timestamp : option Timestamp)
  | CallRename (oldKey newKey : bytes)
  | CallDelete (key : bytes)
  | CallClear.
Arguments CallGet {V}.
Arguments CallExists {V}.
Arguments CallCreate {V}.
Arguments CallRename {V}.
Arguments CallDelete {V}.
Arguments CallClear {V}.

Inductive StoreReply (V : Type) :=
  | ReplyValue (value : option V)
  | ReplyBool (b : bool)
  | ReplyTime (t : Timestamp).
Arguments ReplyValue {V}.
Arguments ReplyBool {V}.
Arguments ReplyTime {V}.

Definition store_call {V} (now : Timestamp) (c : StoreCall V) (s : RadishStore V) :
    StoreReply V * RadishStore V :=
  match c with
  | CallGet k => (ReplyValue (Get now s k), s)
  | CallExists k => (ReplyBool (Exists now s k), s)
  | CallCreate k v t => let '(r, s') := Create now s k v t in (ReplyTime r, s')
  | CallRename k k' => let '(r, s') := Rename now s k k' in (ReplyBool r, s')
  | CallDelete k => let '(r, s') := Delete s k in (ReplyBool r, s')
  | CallClear => let '(r, s') := Clear s in (ReplyBool r, s')
  end.

(** The contract of the same calls, for a store with time to live [ttl]. *)
Definition spec_call {V} (ttl now : Timestamp) (c : StoreCall V)
    (m : gmap bytes (@Spec.entry V)) : StoreReply V * gmap bytes (@Spec.entry V) :=
  match c with
  | CallGet k => (ReplyValue (Spec.lookup_alive now m k), m)
  | CallExists k => (ReplyBool (bool_decide (is_Some (Spec.lookup_alive now m k))), m)
  | CallCreate k v t =>
      if ttl =? -1 then (ReplyTime (-1), Spec.insert_entry k v None m)
      else
        let expiry := default (add_ll now ttl) t in
        (ReplyTime expiry, Spec.insert_entry k v (Some expiry) m)
  | CallRename k k' => let '(r, m') := Spec.move now k k' m in (ReplyBool r, m')
  | CallDelete k => let '(r, m') := Spec.remove k m in (ReplyBool r, m')
  | CallClear => let '(r, m') := Spec.remove_all m in (ReplyBool r, m')
  end.

(** A sequence of calls, each with the clock reading it sees. *)
Fixpoint run_calls {S R C} (step : Timestamp -> C -> S -> R * S)
    (cs : list (Timestamp * C)) (s : S) : list R * S :=
  match cs with
  | [] => ([], s)
  | (now, c) :: cs' =>
      let '(r, s1) := step now c s in
      let '(rs, s2) := run_calls step cs' s1 in
      (r :: rs, s2)
  end.

(** A rename of a key to itself, the one call outside the contract. *)
Definition self_rename {V} (c : StoreCall V) : bool :=
  match c with CallRename k k' => bool_decide (k = k') | _ => false end.

(** ** Lemmas *)

Section lemmas.
Context {V : Type}.
Implicit Types (s : RadishStore V) (k : bytes) (v : V).

Lemma lookup_abs s k :
  abs s !! k =
  (fun v => (v, if HasTimeToLive s then m_ttlData s !! k else None)) <$> m_data s !! k.
Proof. unfold abs. rewrite map_lookup_imap. by destruct (m_data s !! k). Qed.

Lemma abs_ext s m :
  (forall k, abs s !! k = m !! k) -> abs s = m.
Proof. apply map_eq. Qed.

(** Expiry as the contract sees it. *)
Lemma alive_abs now s k v :
  m_data s !! k = Some v ->
  Spec.alive now (v, if HasTimeToLive s then m_ttlData s !! k else None)
  = negb (IsExpired now s k).
Proof.
  intros _. unfold Spec.alive, IsExpired. simpl. destruct (HasTimeToLive s); [|done].
  destruct (m_ttlData s !! k); [|done]. rewrite Z.geb_leb, Z.leb_antisym. by rewrite negb_involutive.
Qed.

Lemma get_abs now s k : Get now s k = Spec.lookup_alive now (abs s) k.
Proof.
  unfold Get, Spec.lookup_alive. rewrite lookup_abs.
  destruct (m_data s !! k) as [v|] eqn:E; simpl; [|done].
  by rewrite (alive_abs now s k v).
Qed.

Lemma exists_get now s k : Exists now s k = bool_decide (is_Some (Get now s k)).
Proof.
  unfold Exists, Get. destruct (IsExpired now s k); simpl.
  - by destruct (m_data s !! k).
  - by destruct (m_data s !! k).
Qed.

Lemma create_abs now s k v t :
  abs (Create now s k v t).2
  = Spec.insert_entry k v
      (if HasTimeToLive s then Some (default (add_ll now (m_ttl s)) t) else None) (abs s).
Proof.
  apply map_eq. intros k'. unfold Spec.insert_entry. rewrite lookup_abs.
  unfold Create. change (HasTimeToLive (MkStore _ _ _)) with (HasTimeToLive s).
  destruct (HasTimeToLive s) eqn:HT; simpl;
    change (HasTimeToLive (MkStore _ _ _)) with (HasTimeToLive s); rewrite HT;
    destruct (decide (k = k')) as [<-|Hne].
  - rewrite !lookup_insert_eq. simpl. by destruct t.
  - by rewrite !lookup_insert_ne, lookup_abs, HT by done.
  - by rewrite !lookup_insert_eq.
  - by rewrite !lookup_insert_ne, lookup_abs, HT by done.
Qed.

Lemma delete_abs s k :
  (Delete s k).1 = (Spec.remove k (abs s)).1
  /\ abs (Delete s k).2 = (Spec.remove k (abs s)).2.
Proof.
  split; simpl.
  - rewrite lookup_abs. by destruct (m_data s !! k).
  - apply map_eq. intros k'. rewrite lookup_abs. simpl.
    change (HasTimeToLive (MkStore _ _ _)) with (HasTimeToLive s).
    destruct (decide (k = k')) as [<-|Hne]; [by rewrite !lookup_delete_eq|].
    by rewrite !lookup_delete_ne, lookup_abs by done.
Qed.

Lemma abs_empty s : abs s = ∅ <-> m_data s = ∅.
Proof.
  split; intros E; apply map_eq; intros k.
  - assert (H : abs s !! k = None) by by rewrite E.
    rewrite lookup_abs in H. by destruct (m_data s !! k).
  - rewrite lookup_abs, E. done.
Qed.

Lemma clear_abs s :
  (Clear s).1 = (Spec.remove_all (abs s)).1
  /\ abs (Clear s).2 = (Spec.remove_all (abs s)).2.
Proof.
  unfold Clear, Spec.remove_all. case_decide as E; simpl.
  - rewrite bool_decide_eq_true_2 by by apply abs_empty. split; [done|]. by apply abs_empty.
  - rewrite bool_decide_eq_false_2 by by rewrite abs_empty. split; [done|]. by apply abs_empty.
Qed.

Lemma rename_abs now s k k' :
  k <> k' ->
  (Rename now s k k').1 = (Spec.move now k k' (abs s)).1
  /\ abs (Rename now s k k').2 = (Spec.move now k k' (abs s)).2.
Proof.
  intros Hne. unfold Rename, Spec.move. rewrite lookup_abs.
  destruct (m_data s !! k) as [v|] eqn:E; simpl; [|done].
  rewrite (alive_abs now s k v) by done.
  destruct (IsExpired now s k); simpl; [done|]. split; [done|].
  apply map_eq. intros j. rewrite lookup_abs. simpl.
  change (HasTimeToLive (MkStore _ _ _)) with (HasTimeToLive s).
  destruct (decide (j = k)) as [->|Hk].
  { by rewrite lookup_delete_eq, lookup_insert_ne, lookup_delete_eq by done. }
  rewrite lookup_delete_ne by done.
  destruct (decide (j = k')) as [->|Hk'].
  - rewrite !lookup_insert_eq. simpl. destruct (HasTimeToLive s); [|done].
    destruct (m_ttlData s !! k) eqn:Et.
    + by rewrite lookup_delete_ne, lookup_insert_eq.
    + by rewrite lookup_delete_eq.
  - rewrite !lookup_insert_ne, lookup_delete_ne, lookup_abs by done.
    destruct (m_ttlData s !! k); by rewrite lookup_delete_ne, ?lookup_insert_ne by done.
Qed.

(** The rename outside the contract: of a live key to itself, which deletes it. *)
Lemma rename_self_abs now s k :
  (Rename now s k k).1 = bool_decide (is_Some (Spec.lookup_alive now (abs s) k))
  /\ abs (Rename now s k k).2
     = if (Rename now s k k).1 then delete k (abs s) else abs s.
Proof.
  rewrite <- get_abs. unfold Rename, Get.
  destruct (m_data s !! k) as [v|] eqn:E; [|done].
  destruct (IsExpired now s k); [done|]. split; [done|]. cbn [fst snd negb].
  apply map_eq. intros j. rewrite lookup_abs. simpl.
  change (HasTimeToLive (MkStore _ _ _)) with (HasTimeToLive s).
  destruct (decide (j = k)) as [->|Hj]; [by rewrite !lookup_delete_eq|].
  rewrite !lookup_delete_ne, lookup_insert_ne, lookup_abs by done.
  by destruct (m_ttlData s !! k); rewrite lookup_delete_ne, ?lookup_insert_ne by done.
Qed.

(** *** The representation invariant *)

Lemma store_wf_new ttl : store_wf (NewStore (V := V) ttl).
Proof.
  unfold store_wf. destruct (HasTimeToLive _); [|done]. simpl. by rewrite !dom_empty_L.
Qed.

Lemma create_ttl now s k v t : m_ttl (Create now s k v t).2 = m_ttl s.
Proof. unfold Create. destruct (HasTimeToLive _); done. Qed.

Lemma rename_ttl now s k k' : m_ttl (Rename now s k k').2 = m_ttl s.
Proof. unfold Rename. destruct (m_data s !! k); [|done]. by destruct (IsExpired _ _ _). Qed.

Lemma clear_ttl s : m_ttl (Clear s).2 = m_ttl s.
Proof. unfold Clear. by case_decide. Qed.

Lemma store_wf_create now s k v t : store_wf s -> store_wf (Create now s k v t).2.
Proof.
  unfold store_wf, Create. change (HasTimeToLive (MkStore _ _ _)) with (HasTimeToLive s).
  destruct (HasTimeToLive s) eqn:HT; simpl;
    change (HasTimeToLive (MkStore _ _ _)) with (HasTimeToLive s); rewrite HT; simpl.
  - intros E. by rewrite !dom_insert_L, E.
  - done.
Qed.

Lemma store_wf_delete s k : store_wf s -> store_wf (Delete s k).2.
Proof.
  unfold store_wf. change (HasTimeToLive (Delete s k).2) with (HasTimeToLive s). simpl.
  destruct (HasTimeToLive s).
  - intros E. by rewrite !dom_delete_L, E.
  - intros ->. by rewrite delete_empty.
Qed.

Lemma store_wf_clear s : store_wf s -> store_wf (Clear s).2.
Proof.
  unfold Clear. case_decide; simpl; [done|]. intros _.
  unfold store_wf. destruct (HasTimeToLive _); [|done]. simpl. by rewrite !dom_empty_L.
Qed.

Lemma store_wf_rename now s k k' : store_wf s -> store_wf (Rename now s k k').2.
Proof.
  unfold Rename. destruct (m_data s !! k) as [v|] eqn:E; [|done].
  destruct (IsExpired now s k); [done|]. unfold store_wf. simpl.
  change (HasTimeToLive (MkStore _ _ _)) with (HasTimeToLive s).
  destruct (HasTimeToLive s).
  - intros Hd. assert (Hk : k ∈ dom (m_ttlData s)).
    { rewrite Hd. apply elem_of_dom. eauto. }
    apply elem_of_dom in Hk as [t ->].
    by rewrite !dom_delete_L, !dom_insert_L, Hd.
  - intros ->. rewrite lookup_empty. by rewrite delete_empty.
Qed.

(** *** Iteration *)

Lemma scan_filter (now : bytes -> Timestamp) (entries : list (bytes * V)) s acc :
  fold_left
    (fun keys '(key, _) =>
       if IsExpired (now key) s key then keys else keys ++ [key]) entries acc
  = acc ++ base.filter (fun k => IsExpired (now k) s k = false) entries.*1.
Proof.
  revert acc. induction entries as [|[k v] l IH]; intros acc; simpl.
  { by rewrite app_nil_r. }
  rewrite IH. destruct (IsExpired (now k) s k) eqn:E.
  - by rewrite filter_cons_False by congruence.
  - rewrite filter_cons_True by done. by rewrite <- app_assoc.
Qed.

Lemma scan_eq (now : bytes -> Timestamp) (entries : list (bytes * V)) s :
  Scan now entries s = base.filter (fun k => IsExpired (now k) s k = false) entries.*1.
Proof. unfold Scan. by rewrite scan_filter. Qed.

Lemma size_scan now (entries : list (bytes * V)) s :
  Size now entries s = zlen (Scan now entries s).
Proof.
  rewrite scan_eq. unfold Size.
  enough (H : forall n, fold_left
    (fun n '(key, _) => if negb (IsExpired (now key) s key) then n + 1 else n) entries n
    = n + zlen (base.filter (fun k => IsExpired (now k) s k = false) entries.*1)) by apply H.
  induction entries as [|[k v] l IH]; intros n.
  { unfold zlen. simpl. lia. }
  rewrite fmap_cons. cbn [fold_left fst]. rewrite IH.
  destruct (IsExpired (now k) s k) eqn:E; cbn [negb].
  - by rewrite filter_cons_False by congruence.
  - rewrite filter_cons_True by done. rewrite zlen_cons. lia.
Qed.

Lemma bucket_order_fst (m : gmap bytes V) entries k :
  bucket_order m entries -> k ∈ entries.*1 <-> is_Some (m !! k).
Proof.
  intros Hp. unfold bucket_order in Hp. rewrite Hp.
  rewrite list_elem_of_fmap. split.
  - intros ([k' v] & -> & Hin). apply elem_of_map_to_list in Hin. simpl. eauto.
  - intros [v Hv]. exists (k, v). split; [done|]. by apply elem_of_map_to_list.
Qed.

Lemma bucket_order_NoDup (m : gmap bytes V) entries :
  bucket_order m entries -> NoDup entries.*1.
Proof. intros Hp. rewrite Hp. apply NoDup_fst_map_to_list. Qed.

Lemma elem_of_scan now entries s k :
  bucket_order (m_data s) entries ->
  k ∈ Scan now entries s <-> is_Some (Get (now k) s k).
Proof.
  intros Hp. rewrite scan_eq, list_elem_of_filter, bucket_order_fst by done.
  unfold Get. destruct (IsExpired (now k) s k), (m_data s !! k); simpl; split;
    intros; destruct_and?; try done; match goal with H : is_Some None |- _ => by destruct H end.
Qed.

(** *** Expiry and time *)

Lemma expired_mono now now' s k :
  now <= now' -> IsExpired now s k = true -> IsExpired now' s k = true.
Proof.
  unfold IsExpired. destruct (HasTimeToLive s), (m_ttlData s !! k); intros; zify_bool; try done.
  rewrite Z.geb_leb. apply Z.leb_le. lia.
Qed.

Lemma no_ttl_never_expired now s k : HasTimeToLive s = false -> IsExpired now s k = false.
Proof. unfold IsExpired. by intros ->. Qed.

Lemma store_call_ttl now (c : StoreCall V) s : m_ttl (store_call now c s).2 = m_ttl s.
Proof.
  destruct c as [| |k v t|k k'|k|]; simpl; try done.
  - pose proof (create_ttl now s k v t). by destruct (Create _ _ _ _ _).
  - pose proof (rename_ttl now s k k'). by destruct (Rename _ _ _ _).
  - pose proof (clear_ttl s). by destruct (Clear s).
Qed.

Lemma store_call_wf now (c : StoreCall V) s : store_wf s -> store_wf (store_call now c s).2.
Proof.
  intros Hs. destruct c as [| |k v t|k k'|k|]; simpl; try done.
  - pose proof (store_wf_create now s k v t Hs). by destruct (Create _ _ _ _ _).
  - pose proof (store_wf_rename now s k k' Hs). by destruct (Rename _ _ _ _).
  - by apply store_wf_delete.
  - pose proof (store_wf_clear s Hs). by destruct (Clear s).
Qed.

Lemma create_reply now s k v t :
  (Create now s k v t).1
  = if HasTimeToLive s then default (add_ll now (m_ttl s)) t else -1.
Proof.
  unfold Create. change (HasTimeToLive (MkStore _ _ _)) with (HasTimeToLive s).
  destruct (HasTimeToLive s); [|done]. simpl. by destruct t.
Qed.

Lemma store_call_spec now (c : StoreCall V) s :
  self_rename c = false ->
  spec_call (m_ttl s) now c (abs s)
  = ((store_call now c s).1, abs (store_call now c s).2).
Proof.
  intros Hc. destruct c as [k|k|k v t|k k'|k|]; simpl.
  - by rewrite get_abs.
  - by rewrite exists_get, get_abs.
  - pose proof (create_abs now s k v t) as Ha. pose proof (create_reply now s k v t) as Hr.
    unfold HasTimeToLive in Ha, Hr.
    destruct (Create now s k v t) as [r s']. simpl in *. subst r.
    destruct (m_ttl s =? -1); simpl in *; by rewrite Ha.
  - apply bool_decide_eq_false in Hc.
    destruct (rename_abs now s k k' Hc) as [H1 H2].
    destruct (Rename now s k k'), (Spec.move now k k' (abs s)). simpl in *. congruence.
  - pose proof (delete_abs s k) as [H1 H2]. simpl in *. by rewrite H1, H2.
  - pose proof (clear_abs s) as [H1 H2].
    destruct (Clear s). simpl in *. by rewrite H1, H2.
Qed.

Lemma run_calls_spec cs s :
  Forall (fun '(_, c) => self_rename c = false) cs ->
  run_calls (spec_call (m_ttl s)) cs (abs s)
  = ((run_calls store_call cs s).1, abs (run_calls store_call cs s).2).
Proof.
  intros H. revert s. induction H as [|[now c] cs Hc _ IH]; intros s; [done|]. simpl.
  rewrite store_call_spec by done. rewrite <- (store_call_ttl now c s), IH.
  destruct (store_call now c s) as [r s']. simpl.
  by destruct (run_calls store_call cs s').
Qed.

End lemmas.

#[export] Hint Resolve store_wf_new store_wf_create store_wf_delete store_wf_clear
  store_wf_rename : radish.

(** ** Properties *)

Section properties.
Context {V : Type}.

(** C5: in any sequence of calls with no rename of a key to itself, the store
    gives exactly the replies of the contract [Spec] (a map from keys to
    values with an optional expiry) and ends in a store that represents the
    contract's map, whatever the clock reads at each call. *)
Theorem store_refines_spec (s : RadishStore V) (cs : list (Timestamp * StoreCall V)) :
  Forall (fun '(_, c) => self_rename c = false) cs ->
  let '(replies, s') := run_calls store_call cs s in
  run_calls (spec_call (m_ttl s)) cs (abs s) = (replies, abs s').
Proof.
  intros H. rewrite run_calls_spec by done. by destruct (run_calls store_call cs s).
Qed.

(** C35: the representation invariant of the store holds initially and is kept
    by every sequence of calls: with a time to live exactly the stored keys
    have an expiry, without one no key has. *)
Theorem store_invariant (ttl : Timestamp) (cs : list (Timestamp * StoreCall V)) :
  store_wf (run_calls store_call cs (NewStore ttl)).2.
Proof.
  assert (H : store_wf (NewStore (V := V) ttl)) by auto with radish.
  revert H. generalize (NewStore (V := V) ttl).
  induction cs as [|[now c] cs IH]; intros s Hs; [done|]. simpl.
  pose proof (store_call_wf now c s Hs) as Hw.
  destruct (store_call now c s) as [r s']. specialize (IH s' Hw).
  by destruct (run_calls store_call cs s').
Qed.

(** C36: in whatever order the hash map is iterated and whatever the clock
    reads at each key, [Scan] lists without repetition exactly the keys that
    [Get] finds at that reading, and [Size] is their number. *)
Theorem scan_lists_live_keys (s : RadishStore V) (now : bytes -> Timestamp)
    (entries : list (bytes * V)) :
  bucket_order (m_data s) entries ->
  NoDup (Scan now entries s)
  /\ (forall k, k ∈ Scan now entries s <-> is_Some (Get (now k) s k))
  /\ Size now entries s = zlen (Scan now entries s).
Proof.
  intros Hp. split_and!.
  - rewrite scan_eq. apply NoDup_filter. by eapply bucket_order_NoDup.
  - intros k. by apply elem_of_scan.
  - apply size_scan.
Qed.

(** A value created in a store with a time to live is found until, and
    not from, the instant [now + ttl], provided that sum fits a [long long]. *)
Theorem created_value_lives_for_ttl (s : RadishStore V) (now now' : Timestamp) k v :
  HasTimeToLive s = true -> in_ll (now + m_ttl s) ->
  Get now' (Create now s k v (Some (NewExpiryTimestamp now s))).2 k
  = if now' <? now + m_ttl s then Some v else None.
Proof.
  intros HT Hr. rewrite get_abs, create_abs, HT. unfold NewExpiryTimestamp. rewrite HT.
  rewrite add_ll_exact by done. unfold Spec.lookup_alive, Spec.insert_entry.
  by rewrite lookup_insert_eq.
Qed.

(** When [now + ttl] exceeds [LLONG_MAX] the stored expiry is in the past
    and the value just created is not found, now or at any later time. *)
Theorem created_value_lost_on_overflow (s : RadishStore V) (now now' : Timestamp) k v :
  HasTimeToLive s = true -> 0 <= now <= LLONG_MAX -> m_ttl s <= LLONG_MAX ->
  LLONG_MAX < now + m_ttl s -> now <= now' ->
  Get now' (Create now s k v (Some (NewExpiryTimestamp now s))).2 k = None.
Proof.
  unfold LLONG_MAX. intros HT Hnow Httl Hover Hle. rewrite get_abs, create_abs, HT.
  unfold NewExpiryTimestamp. rewrite HT.
  unfold Spec.lookup_alive, Spec.insert_entry. rewrite lookup_insert_eq. simpl.
  unfold Spec.alive. simpl. rewrite (proj2 (Z.ltb_ge _ _)); [done|].
  rewrite add_ll_wraps by (unfold LLONG_MAX; lia). lia.
Qed.

(** Renaming a live key to itself reports success and deletes the key
    with its value. *)
Theorem rename_to_itself_deletes (s : RadishStore V) (now now' : Timestamp) k v :
  Get now s k = Some v ->
  (Rename now s k k).1 = true /\ Get now' (Rename now s k k).2 k = None.
Proof.
  intros Hg. destruct (rename_self_abs now s k) as [H1 H2]. rewrite get_abs in Hg.
  rewrite bool_decide_eq_true_2 in H1 by eauto. split; [done|].
  rewrite get_abs, H2, H1. unfold Spec.lookup_alive. by rewrite lookup_delete_eq.
Qed.

End properties.

(** ** Witnesses *)

Definition store_example : RadishStore bytes :=
  (Create 100 (NewStore 50) (str "k") (str "v") (Some 150)).2.

Lemma store_refines_spec_witness :
  run_calls (spec_call 50)
    [(100, CallRename (str "k") (str "j")); (149, CallGet (str "j"));
     (150, CallGet (str "j"))] (abs store_example)
  = ([ReplyBool true; ReplyValue (Some (str "v")); ReplyValue None],
     abs (Rename 100 store_example (str "k") (str "j")).2).
Proof.
  refine (store_refines_spec store_example
    [(100, CallRename (str "k") (str "j")); (149, CallGet (str "j"));
     (150, CallGet (str "j"))] _).
  repeat constructor.
Defined.

Lemma scan_lists_live_keys_witness :
  Size (fun _ => 149) (map_to_list (m_data store_example)) store_example = 1
  /\ NoDup (Scan (fun _ => 149) (map_to_list (m_data store_example)) store_example).
Proof.
  split; [vm_compute; reflexivity|].
  apply (scan_lists_live_keys store_example (fun _ => 149)
    (map_to_list (m_data store_example))).
  unfold bucket_order. reflexivity.
Defined.

Lemma created_value_lives_for_ttl_witness :
  Get 149 (Create 100 store_example (str "x") (str "y")
    (Some (NewExpiryTimestamp 100 store_example))).2 (str "x") = Some (str "y").
Proof.
  apply (created_value_lives_for_ttl store_example 100 149 (str "x") (str "y")).
  - reflexivity.
  - unfold in_ll, LLONG_MIN, LLONG_MAX. simpl. lia.
Defined.

Lemma created_value_lost_on_overflow_witness :
  let s := NewStore LLONG_MAX in
  Get 5 (Create 5 s (str "x") (str "y") (Some (NewExpiryTimestamp 5 s))).2 (str "x") = None.
Proof.
  apply (created_value_lost_on_overflow (NewStore LLONG_MAX) 5 5 (str "x") (str "y"));
    unfold LLONG_MAX; simpl; first [reflexivity | lia].
Defined.

Lemma rename_to_itself_deletes_witness :
  Get 100 store_example (str "k") = Some (str "v")
  /\ Get 100 (Rename 100 store_example (str "k") (str "k")).2 (str "k") = None.
Proof.
  split; [reflexivity|].
  apply (rename_to_itself_deletes store_example 100 100 (str "k") (str "v")). reflexivity.
Defined.
