(* ===== verification/Clock.v ===== *)
(** include/helpers/SystemClock.h: the clock of the store.

    [std::chrono::system_clock] is the standard library's: a reading is a number
    of its ticks since the epoch, and how many ticks a millisecond has is a
    parameter. [std::chrono::duration_cast] to a coarser unit divides and cuts
    towards zero. The rest of the development takes the readings of the clock as
    arguments; here is what they are. *)

From S2P Require Import Prelude RadishStore.

(** The interface, as a class of the things that can be read as a clock. *)
Class IClock (clock : Type) := Now : clock -> Timestamp.

(** What [system_clock::now] returned. *)
Record SystemClock := MkSystemClock { time_since_epoch : Z }.

Section clock.
Context (ticks_per_millisecond : Z) (Hticks : 0 < ticks_per_millisecond).

Definition duration_cast_milliseconds (ticks : Z) : Z := Z.quot ticks ticks_per_millisecond.

Definition SystemClock_Now : IClock SystemClock := fun clock =>
  duration_cast_milliseconds (time_since_epoch clock).
#[local] Existing Instance SystemClock_Now.

(** ** Lemmas *)

Lemma now_mono (a b : SystemClock) : time_since_epoch a <= time_since_epoch b -> Now a <= Now b.
Proof. intros Hle. by apply Z.quot_le_mono. Qed.

(** A reading is the time cut to the millisecond. *)
Lemma now_bounds (a : SystemClock) :
  0 <= time_since_epoch a ->
  Now a * ticks_per_millisecond <= time_since_epoch a < (Now a + 1) * ticks_per_millisecond.
Proof.
  intros Ha. unfold Now, SystemClock_Now, duration_cast_milliseconds.
  rewrite Z.quot_div_nonneg by lia.
  pose proof (Z.mul_div_le (time_since_epoch a) ticks_per_millisecond Hticks).
  pose proof (Z.mul_succ_div_gt (time_since_epoch a) ticks_per_millisecond Hticks). lia.
Qed.

(** A whole number of milliseconds is added exactly. *)
Lemma now_after (a b : SystemClock) (ms : Z) :
  0 <= time_since_epoch a -> 0 <= ms ->
  (time_since_epoch a + ms * ticks_per_millisecond <= time_since_epoch b -> Now a + ms <= Now b)
  /\ (0 <= time_since_epoch b <= time_since_epoch a + ms * ticks_per_millisecond -> Now b <= Now a + ms).
Proof.
  intros Ha Hms. assert (E : Now a + ms = Now (MkSystemClock (time_since_epoch a + ms * ticks_per_millisecond))).
  { unfold Now, SystemClock_Now, duration_cast_milliseconds. simpl.
    rewrite !Z.quot_div_nonneg by nia. by rewrite Z.div_add by lia. }
  rewrite E. split; intros Hle; apply now_mono; simpl; lia.
Qed.

End clock.

(** ** Properties *)

Section properties.
Context {V : Type}.

(** C37: measured on the clock of the system, a value created in a store with a
    time to live of [ttl] milliseconds is found until [ttl - 1] milliseconds have
    passed and not once [ttl] have: an expiry is never late and at most a
    millisecond early, provided the sum fits a [long long]. *)
Theorem value_lives_for_real_time (tpm : Z) (s : RadishStore V) (created read : SystemClock) k v :
  0 < tpm -> 0 < m_ttl s -> 0 <= time_since_epoch created <= time_since_epoch read ->
  let now := SystemClock_Now tpm created in
  in_ll (now + m_ttl s) ->
  let s' := (Create now s k v (Some (NewExpiryTimestamp now s))).2 in
  let elapsed := time_since_epoch read - time_since_epoch created in
  (elapsed <= (m_ttl s - 1) * tpm -> Get (SystemClock_Now tpm read) s' k = Some v)
  /\ (m_ttl s * tpm <= elapsed -> Get (SystemClock_Now tpm read) s' k = None).
Proof.
  intros Hp Httl Hle now Hin s' elapsed.
  assert (HT : HasTimeToLive s = true) by (unfold HasTimeToLive; by rewrite (proj2 (Z.eqb_neq _ _)) by lia).
  assert (Hg : Get (SystemClock_Now tpm read) s' k
    = if SystemClock_Now tpm read <? now + m_ttl s then Some v else None).
  { unfold s'. rewrite get_abs, create_abs, HT. unfold NewExpiryTimestamp. rewrite HT.
    rewrite add_ll_exact by done. unfold Spec.lookup_alive, Spec.insert_entry.
    by rewrite lookup_insert_eq. }
  rewrite Hg. unfold elapsed. split; intros He.
  - pose proof (proj2 (now_after tpm Hp created read (m_ttl s - 1) ltac:(lia) ltac:(lia)) ltac:(lia)) as Hn.
    unfold Now in Hn. fold now in Hn. by rewrite (proj2 (Z.ltb_lt _ _)) by lia.
  - pose proof (proj1 (now_after tpm Hp created read (m_ttl s) ltac:(lia) ltac:(lia)) ltac:(lia)) as Hn.
    unfold Now in Hn. fold now in Hn. by rewrite (proj2 (Z.ltb_ge _ _)) by lia.
Qed.

End properties.

(** ** Witnesses *)

Lemma value_lives_for_real_time_witness :
  let read t := SystemClock_Now 1000000 (MkSystemClock t) in
  let s := (Create (read 1999999) (NewStore (V := bytes) 5) (str "k") (str "v")
    (Some (NewExpiryTimestamp (read 1999999) (NewStore (V := bytes) 5)))).2 in
  Get (read 5999999) s (str "k") = Some (str "v") /\ Get (read 6999999) s (str "k") = None.
Proof.
  split.
  - apply (value_lives_for_real_time 1000000 (NewStore (V := bytes) 5) (MkSystemClock 1999999)
      (MkSystemClock 5999999) (str "k") (str "v"));
      [reflexivity|reflexivity|split; discriminate|split; discriminate|discriminate].
  - apply (value_lives_for_real_time 1000000 (NewStore (V := bytes) 5) (MkSystemClock 1999999)
      (MkSystemClock 6999999) (str "k") (str "v"));
      [reflexivity|reflexivity|split; discriminate|split; discriminate|discriminate].
Defined.
