(* ===== verification/CompactStrategy.v ===== *)
(** include/persistence/CompactStrategy.h: how each operation of the log acts
    on the map of surviving CREATE events.

    A strategy object is a record with its [Execute] method, which may throw
    ([value()] of an empty [optional]) or be undefined ([*] of one). *)

From S2P Require Import Prelude EventType RadishEvent.

Section strategies.
Context {V : Type}.

Abbreviation EventsMap := (gmap bytes (RadishEvent V)).

Record CompactStrategy := MkCompactStrategy {
  Execute : EventsMap -> RadishEvent V -> result EventsMap;
}.

Definition CreateCompactStrategy : CompactStrategy := {|
  Execute events event :=
    let! key := deref (GetKey event) in
    Ok (<[key := event]> events);
|}.

Definition RenameCompactStrategy : CompactStrategy := {|
  Execute events event :=
    let! key := value_of (GetKey event) in
    match events !! key with
    | Some entry =>
        let events := delete key events in
        let! renameKey := value_of (GetRenameKey event) in
        let renamedEntry := SetKey entry renameKey in
        Ok (<[renameKey := renamedEntry]> events)
    | None => Ok events
    end;
|}.

Definition DeleteCompactStrategy : CompactStrategy := {|
  Execute events event :=
    let! key := value_of (GetKey event) in
    Ok (delete key events);
|}.

Definition ClearCompactStrategy : CompactStrategy := {|
  Execute _ _ := Ok ∅;
|}.

End strategies.
