(* ===== verification/LogWriter.v ===== *)
(** include/persistence/LogWriter.h:
    appending to the log, replaying it into a store, and compacting it.

    Operations on the disk return the disk with their result, because what
    was written stays when they throw. The bodies that write to an
    [std::ofstream] are [writer]s: they return the stream even when they
    throw. The clock readings of a loop are a function of the position in the
    log, or of the key where the loop runs over a map; the iteration order of
    the map is an argument. *)

From S2P Require Import Prelude Streams BinaryFile EventType RadishEvent LogReader.
From S2P Require Import CompactStrategy RadishStore.

(** ** Writers *)

Definition writer : Type := ostream -> ostream * result unit.

Definition wdone : writer := fun file => (file, Ok tt).

Definition wseq (m k : writer) : writer := fun file =>
  match m file with
  | (file, Ok _) => k file
  | (file, Throw e) => (file, Throw e)
  | (file, Undefined) => (file, Undefined)
  end.

Notation "m ';!' k" := (wseq m k) (at level 60, right associativity) : radish_scope.

(** [if (!file) throw e;] *)
Definition wcheck (e : Exn) : writer := fun file => (file, throw_if (negb (os_good file)) e).

Definition wput (bs : bytes) : writer := fun file => (os_write file bs, Ok tt).
Definition wflush : writer := fun file => (os_flush file, Ok tt).

(** [file.close()], after which [file.fail()] tells whether it worked. *)
Definition wclose (io : IoEnv) : writer := fun file =>
  (MkOstream (os_data file) (os_room file) (os_late file) (os_lost file) (os_flush_ok file)
     (os_good file && io_close_ok io), Ok tt).

Section log_writer.
Context {V : Type} `{BinaryValue V}.

Abbreviation Event := (RadishEvent V).
Abbreviation EventsMap := (gmap bytes (RadishEvent V)).

Record LogWriter := MkLogWriter {
  m_filename : bytes;
  m_reader : bytes;    (* the [m_filename] of its reader *)
  m_compactStrategies : gmap EventType (CompactStrategy (V := V));
}.

Definition WriteHeader : writer :=
  wput kHeader ;!
  wcheck (ios_failure (str "Failed to write persistence log header")).

Definition WriteRecord (event : Event) : writer := fun file =>
  match Serialize event ostringstream with
  | Ok record =>
      let bytes := os_data record in
      if bool_decide (bytes = []) || (64 * 1024 * 1024 <? zlen bytes)
      then (file, Throw (length_error (str "Persistence record has invalid size")))
      else
        (wput (le_bytes sizeof_BinarySize (zlen bytes)) ;!
         wput bytes ;!
         wcheck (ios_failure (str "Failed to write persistence record"))) file
  | Throw e => (file, Throw e)
  | Undefined => (file, Undefined)
  end.

Definition InitializeCompactStrategies : gmap EventType (CompactStrategy (V := V)) :=
  <[CLEAR := ClearCompactStrategy]>
  (<[DELETE := DeleteCompactStrategy]>
  (<[RENAME := RenameCompactStrategy]>
  (<[CREATE := CreateCompactStrategy]> ∅))).

Definition EnsureInitialized (io : IoEnv) (filename : bytes) (disk : Disk) : Disk * result unit :=
  match disk !! filename with
  | Some content =>
      if negb (io_open_read io)
      then (disk, Throw (runtime_error (str "Failed to open persistence log: " ++ filename)))
      else
        let error := runtime_error (str "Unsupported or corrupt persistence log header") in
        match is_read 8 (ifstream io content) with
        | ReadOk header _ => (disk, throw_if (negb (bool_decide (header = kHeader))) error)
        | ReadEof | ReadBad => (disk, Throw error)
        end
  | None =>
      if negb (io_open_write io)
      then (disk, Throw (runtime_error (str "Failed to create persistence log: " ++ filename)))
      else
        let '(file, r) :=
          (WriteHeader ;! wflush ;!
           wcheck (ios_failure (str "Failed to initialize persistence log: " ++ filename)))
          (ofstream io) in
        (<[filename := os_data file]> disk, r)
  end.

(** The constructor. *)
Definition NewLogWriter (io : IoEnv) (filename path : bytes) (disk : Disk) :
    Disk * result LogWriter :=
  let filename := path_join path filename in
  match EnsureInitialized io filename disk with
  | (disk, Ok _) => (disk, Ok (MkLogWriter filename filename InitializeCompactStrategies))
  | (disk, Throw e) => (disk, Throw e)
  | (disk, Undefined) => (disk, Undefined)
  end.

(** The file is opened in append mode: created when it does not exist, and
    extended by whatever reaches the device. *)
Definition Append (io : IoEnv) (w : LogWriter) (row : Event) (disk : Disk) : Disk * result unit :=
  if negb (io_open_write io)
  then (disk, Throw (runtime_error (str "Failed to open file for writing: " ++ m_filename w)))
  else
    let '(file, r) :=
      (WriteRecord row ;! wflush ;!
       wcheck (ios_failure (str "Failed to flush persistence log: " ++ m_filename w)))
      (ofstream io) in
    (<[m_filename w := default [] (disk !! m_filename w) ++ os_data file]> disk, r).

Definition ApplyEvent (now : Timestamp) (store : RadishStore V) (event : Event) :
    result (bool * RadishStore V) :=
  if GetEventType event =? CREATE then
    let! key := deref (GetKey event) in
    let! payload := deref (GetPayload event) in
    Ok (true, (Create now store key payload (Some (GetTimestamp event))).2)
  else if GetEventType event =? RENAME then
    let! oldKey := deref (GetKey event) in
    let! newKey := deref (GetRenameKey event) in
    Ok (Rename now store oldKey newKey)
  else if GetEventType event =? DELETE then
    let! key := deref (GetKey event) in
    Ok (Delete store key)
  else if GetEventType event =? CLEAR then
    Ok (Clear store)
  else Throw (runtime_error (str "Unknown persistence event type")).

(** The loop of [Replay]; [now i] is the reading at the [i]-th event. *)
Fixpoint replay_events (now : nat -> Timestamp) (events : list Event) (store : RadishStore V) :
    result (RadishStore V) :=
  match events with
  | [] => Ok store
  | event :: events =>
      let! (_, store) := ApplyEvent (now O) store event in
      replay_events (fun i => now (S i)) events store
  end.

Definition Replay (io : IoEnv) (now : nat -> Timestamp) (w : LogWriter) (store : RadishStore V)
    (disk : Disk) : result (RadishStore V) :=
  let! events := GetEvents io (m_reader w) disk in
  replay_events now events store.

(** The loop of [Compact]. *)
Fixpoint compact_events (now : nat -> Timestamp)
    (strategies : gmap EventType (CompactStrategy (V := V)))
    (log : list Event) (events : EventsMap) : result EventsMap :=
  match log with
  | [] => Ok events
  | event :: log =>
      let! events :=
        if (GetEventType event =? CREATE) && negb (GetTimestamp event =? -1)
           && (GetTimestamp event <? now O)
        then Ok events
        else
          match strategies !! GetEventType event with
          | Some strategy => Execute strategy events event
          | None => Ok events
          end in
      compact_events (fun i => now (S i)) strategies log events
  end.

(** The loop of [RewriteHistory]; [now key] is the reading at the entry. *)
Fixpoint write_history (now : bytes -> Timestamp) (entries : list (bytes * Event)) : writer :=
  match entries with
  | [] => wdone
  | (key, event) :: entries =>
      (if negb (GetTimestamp event =? -1) && (GetTimestamp event <? now key)
       then wdone
       else WriteRecord event) ;!
      write_history now entries
  end.

Definition RewriteHistory (io : IoEnv) (now : bytes -> Timestamp) (w : LogWriter)
    (entries : list (bytes * Event)) (disk : Disk) : Disk * result unit :=
  let temporaryFilename := m_filename w ++ str ".tmp" in
  if negb (io_open_write io)
  then (disk, Throw (runtime_error
    (str "Failed to open temporary persistence log: " ++ temporaryFilename)))
  else
    let '(file, r) :=
      (WriteHeader ;!
       write_history now entries ;!
       wflush ;!
       wcheck (ios_failure (str "Failed to flush compacted persistence log")) ;!
       wclose io ;!
       wcheck (ios_failure (str "Failed to close compacted persistence log")))
      (ofstream io) in
    let disk := <[temporaryFilename := os_data file]> disk in
    match r with
    | Ok _ =>
        if io_rename_ok io
        then (<[m_filename w := os_data file]> (delete temporaryFilename disk), Ok tt)
        else (disk, Throw (filesystem_error (str "rename")))
    | Throw e => (disk, Throw e)
    | Undefined => (disk, Undefined)
    end.

(** [order] is the iteration order of the map when it is rewritten. *)
Definition Compact (io : IoEnv) (now : nat -> Timestamp) (now' : bytes -> Timestamp)
    (order : EventsMap -> list (bytes * Event)) (w : LogWriter) (disk : Disk) :
    Disk * result unit :=
  match
    (let! log := GetEvents io (m_reader w) disk in
     compact_events now (m_compactStrategies w) log ∅)
  with
  | Ok events => RewriteHistory io now' w (order events) disk
  | Throw e => (disk, Throw e)
  | Undefined => (disk, Undefined)
  end.

End log_writer.

Arguments LogWriter V : clear implicits.

(** ** Writers: what reaches the device

    [wspec m bs]: whatever the device does, [m] leaves on it a prefix of what
    was written before followed by [bs], and when [m] returns it has written
    all of [bs] (though a buffering stream may not have noticed a loss yet).
    [wok m]: with a device that takes everything, [m] returns. *)

Definition wspec (m : writer) (bs : bytes) : Prop :=
  forall s written s' r, os_prefix_of s written -> m s = (s', r) ->
    os_data s' `prefix_of` written ++ bs
    /\ (r = Ok tt -> os_prefix_of s' (written ++ bs)).

Definition wok (m : writer) : Prop :=
  forall s, os_fine s -> exists s', m s = (s', Ok tt) /\ os_fine s'.

Lemma wspec_done : wspec wdone [].
Proof.
  intros s w s' r Hs [= <- <-]. rewrite app_nil_r. split; [apply Hs | done].
Qed.

Lemma wspec_put bs : wspec (wput bs) bs.
Proof.
  intros s w s' r Hs [= <- <-]. pose proof (os_write_prefix s w bs Hs) as Hp.
  split; [apply Hp | done].
Qed.

Lemma wspec_check e : wspec (wcheck e) [].
Proof.
  intros s w s' r Hs [= <- <-]. rewrite app_nil_r. split; [apply Hs | done].
Qed.

Lemma wspec_seq m k a b : wspec m a -> wspec k b -> wspec (m ;! k) (a ++ b).
Proof.
  intros Hm Hk s w s' r Hs. unfold wseq.
  destruct (m s) as [s1 r1] eqn:E. destruct (Hm s w s1 r1 Hs E) as [Hp Hr].
  destruct r1 as [[]| |].
  - rewrite app_assoc. intros E2. by eapply Hk, E2; apply Hr.
  - intros [= <- <-]. split; [rewrite app_assoc; by apply prefix_app_r | done].
  - intros [= <- <-]. split; [rewrite app_assoc; by apply prefix_app_r | done].
Qed.

(** After a successful flush nothing is lost. *)
Lemma flush_check_spec e s w s' r :
  os_prefix_of s w -> (wflush ;! wcheck e) s = (s', r) ->
  os_data s' = os_data s /\ (r = Ok tt -> os_data s' = w /\ os_good s' = true).
Proof.
  intros (Hp & Hd & Hl) [= <- <-]. split; [done|]. unfold throw_if. simpl.
  destruct (os_good s && negb (os_lost s) && os_flush_ok s) eqn:E; [|done]. intros _.
  apply andb_prop in E as [[_ E]%andb_prop _]. apply negb_true_iff in E.
  split; [by apply Hd | done].
Qed.

Lemma wseq_assoc m k l : forall s, ((m ;! k) ;! l) s = (m ;! (k ;! l)) s.
Proof. intros s. unfold wseq. by destruct (m s) as [? [[]| |]]. Qed.

Lemma wok_done : wok wdone.
Proof. intros s Hs. by exists s. Qed.

Lemma wok_put bs : wok (wput bs).
Proof. intros s Hs. exists (os_write s bs). split; [done|]. by apply os_write_fine. Qed.

Lemma wok_check e : wok (wcheck e).
Proof. intros s Hs. exists s. unfold wcheck. destruct Hs as (Hg & ?). by rewrite Hg. Qed.

Lemma wok_flush : wok wflush.
Proof.
  intros s Hs. exists (os_flush s). split; [done|].
  destruct Hs as (Hg & Hr & Hl & Hf). by unfold os_fine, os_flush; simpl; rewrite Hg, Hl, Hf.
Qed.

Lemma wok_close : wok (wclose io_ok).
Proof.
  intros s Hs. eexists. split; [done|]. destruct Hs as (Hg & Hr & Hl & Hf).
  unfold os_fine. simpl. by rewrite Hg.
Qed.

Lemma wok_seq m k : wok m -> wok k -> wok (m ;! k).
Proof.
  intros Hm Hk s Hs. unfold wseq. destruct (Hm s Hs) as (s1 & -> & Hs1). by apply Hk.
Qed.

#[export] Hint Resolve wspec_done wspec_put wspec_check wok_done wok_put wok_check wok_flush
  wok_close wok_seq : radish.

Section lemmas.
Context {V : Type} `{BinaryValueLaws V}.
Implicit Types (e : RadishEvent V) (es : list (RadishEvent V)) (s : RadishStore V)
  (w : LogWriter V).

(** An event that fits in a record of the log. *)
Definition storable e : Prop :=
  event_wf e /\ exists bs, event_image e = Ok bs /\ zlen bs <= kMaxRecordSize.

(** The record [WriteRecord] writes, if it writes one. *)
Definition record_of e : result bytes :=
  let! bs := event_image e in
  if kMaxRecordSize <? zlen bs
  then Throw (length_error (str "Persistence record has invalid size"))
  else Ok (frame bs).

Lemma write_record_eq e file :
  WriteRecord e file =
  match record_of e with
  | Ok rec =>
      (wput (take 4 rec) ;! wput (drop 4 rec) ;!
       wcheck (ios_failure (str "Failed to write persistence record"))) file
  | Throw ex => (file, Throw ex)
  | Undefined => (file, Undefined)
  end.
Proof.
  unfold WriteRecord, record_of. rewrite serialize_image by auto with radish.
  destruct (event_image e) as [bs| |] eqn:Hi; cbn [rbind]; [|done|done].
  cbn [os_data os_append ostringstream app].
  pose proof (event_image_nonempty e bs Hi) as Hn.
  rewrite bool_decide_eq_false_2 by (intros ->; rewrite zlen_nil in Hn; lia).
  change (64 * 1024 * 1024) with kMaxRecordSize. simpl.
  destruct (kMaxRecordSize <? zlen bs); [done|].
  by rewrite take_frame, drop_frame.
Qed.

Lemma wspec_record e :
  wspec (WriteRecord e) (match record_of e with Ok rec => rec | _ => [] end).
Proof.
  intros st written st' r Hs. rewrite write_record_eq.
  destruct (record_of e) as [rec| |].
  - intros Hr. rewrite <- (take_drop 4 rec), <- (app_nil_r (drop 4 rec)).
    eapply (wspec_seq _ _ _ _ (wspec_put _) (wspec_seq _ _ _ _ (wspec_put _) (wspec_check _)));
      eauto.
  - intros [= <- <-]. rewrite app_nil_r. split; [apply Hs | done].
  - intros [= <- <-]. rewrite app_nil_r. split; [apply Hs | done].
Qed.

Lemma write_record_returns e st st' :
  WriteRecord e st = (st', Ok tt) -> exists rec, record_of e = Ok rec.
Proof. rewrite write_record_eq. destruct (record_of e); [eauto | done | done]. Qed.

Lemma wok_record e : storable e -> wok (WriteRecord e).
Proof.
  intros (_ & bs & Hi & Hb) st Hs. rewrite write_record_eq. unfold record_of. rewrite Hi.
  cbn [rbind]. rewrite (proj2 (Z.ltb_ge _ _)) by done.
  apply (wok_seq _ _ (wok_put _) (wok_seq _ _ (wok_put _) (wok_check _))). done.
Qed.

Lemma record_of_log e rec :
  event_wf e -> record_of e = Ok rec -> log_records [e] rec.
Proof.
  intros Hw. unfold record_of. intros Hr. inv_result.
  destruct (kMaxRecordSize <? zlen r) eqn:El; inv_result. zify_bool.
  by apply log_records_one.
Qed.

(** A torn record of [e] is an incomplete tail. *)
Lemma record_prefix_incomplete e rec tail :
  record_of e = Ok rec -> tail `prefix_of` rec -> tail <> rec -> incomplete tail.
Proof.
  unfold record_of. intros Hr Hp Hne. inv_result.
  destruct (kMaxRecordSize <? zlen r) eqn:El; inv_result. zify_bool.
  pose proof (event_image_nonempty e r E).
  apply (incomplete_prefix r); [lia|done|].
  destruct Hp as [k Hk]. rewrite Hk, zlen_app. destruct k as [|c k].
  - by rewrite app_nil_r in Hk.
  - rewrite zlen_cons. pose proof (zlen_nonneg k). lia.
Qed.

Lemma storable_record e : storable e -> exists rec, record_of e = Ok rec.
Proof.
  intros (_ & bs & Hi & Hb). exists (frame bs). unfold record_of. rewrite Hi. simpl.
  by rewrite (proj2 (Z.ltb_ge _ _)) by done.
Qed.

(** *** [Append] *)

(** Whatever the environment does, [Append] extends the file by a prefix of
    the record, touches no other file, and returns only with the whole record
    written. *)
Lemma append_spec io w e disk disk' r :
  Append io w e disk = (disk', r) ->
  exists out,
    (disk' = disk /\ out = []
     \/ disk' = <[m_filename w := default [] (disk !! m_filename w) ++ out]> disk)
    /\ out `prefix_of` (match record_of e with Ok rec => rec | _ => [] end)
    /\ (r = Ok tt -> record_of e = Ok out
        /\ disk' = <[m_filename w := default [] (disk !! m_filename w) ++ out]> disk).
Proof.
  unfold Append. destruct (io_open_write io); simpl.
  2: { intros [= <- <-]. exists []. split_and!; [by left | apply prefix_nil | done]. }
  destruct ((WriteRecord e ;! _) (ofstream io)) as [file r1] eqn:E. intros [= <- <-].
  exists (os_data file). split; [by right|]. unfold wseq at 1 in E.
  destruct (WriteRecord e (ofstream io)) as [s1 r2] eqn:E1.
  pose proof (wspec_record e _ _ _ _ (os_prefix_of_ofstream io) E1) as [Hp Hok].
  destruct r2 as [[]| |]; [|by injection E as <- <-|by injection E as <- <-].
  destruct (flush_check_spec _ _ _ _ _ (Hok eq_refl) E) as [Ed Hr].
  rewrite Ed. split; [done|]. rewrite <- Ed. intros ->. destruct (Hr eq_refl) as [-> _].
  split; [|done]. by destruct (write_record_returns _ _ _ E1) as [rec ->].
Qed.

Lemma record_of_defined e : record_of e <> Undefined.
Proof.
  unfold record_of, event_image. unfold ValidateType, throw_if.
  destruct (negb _ && _ && _ && _); simpl; [done|].
  assert (Hk : forall o, key_image o <> Undefined).
  { intros [k|]; [|done]. simpl. unfold heap_image. by case_match. }
  assert (Hp : payload_image (m_payload e) <> Undefined).
  { destruct (m_payload e); [apply image_defined | done]. }
  destruct (m_type e =? CLEAR); simpl; [by case_match|].
  specialize (Hk (m_key e)) as Hk1. destruct (key_image (m_key e)); simpl; [|done|done].
  specialize (Hk (m_renameKey e)) as Hk2.
  destruct (m_type e =? RENAME); [destruct (key_image (m_renameKey e))|]; simpl; try done;
    destruct (_ || _); simpl; try (by case_match);
    destruct (payload_image (m_payload e)); simpl; try done; by case_match.
Qed.

Lemma append_defined io w e disk disk' r : Append io w e disk = (disk', r) -> r <> Undefined.
Proof.
  unfold Append. destruct (io_open_write io); simpl; [|by intros [= _ <-]].
  unfold wseq at 1. rewrite write_record_eq. pose proof (record_of_defined e) as Hd.
  destruct (record_of e) as [rec| |]; [|by intros [= _ <-]|done].
  unfold wseq, wput, wcheck, wflush, throw_if.
  repeat (case_match; simpl); intros; simplify_eq; done.
Qed.

Lemma append_ok w e disk : storable e -> exists disk', Append io_ok w e disk = (disk', Ok tt).
Proof.
  intros He. unfold Append. cbn [negb io_ok io_open_write].
  destruct (wok_seq _ _ (wok_record e He) (wok_seq _ _ wok_flush (wok_check
    (ios_failure (str "Failed to flush persistence log: " ++ m_filename w)))) _ os_fine_ofstream)
    as (s' & -> & _). by eexists.
Qed.

(** The effect of one append on a well-formed log: the event is added, or the
    log is left with a torn tail, or unchanged; a return means it was added. *)
Lemma append_log io w e es content disk disk' r :
  disk !! m_filename w = Some content -> log_file es [] content -> event_wf e ->
  Append io w e disk = (disk', r) ->
  exists content',
    disk' = <[m_filename w := content']> disk
    /\ (log_file (es ++ [e]) [] content'
        \/ exists tail, log_file es tail content' /\ incomplete tail)
    /\ (r = Ok tt -> log_file (es ++ [e]) [] content').
Proof.
  intros Hd (recs & -> & Hr) Hw Ha. rewrite app_nil_r in *.
  destruct (append_spec _ _ _ _ _ _ Ha) as (out & Hdisk & Hp & Hok). rewrite Hd in *. simpl in *.
  exists ((kHeader ++ recs) ++ out). split.
  { destruct Hdisk as [[-> ->]| ->]; [|done]. rewrite app_nil_r. symmetry. by apply insert_id. }
  assert (Hfull : record_of e = Ok out -> log_file (es ++ [e]) [] ((kHeader ++ recs) ++ out)).
  { intros Ho. exists (recs ++ out). rewrite !app_nil_r, app_assoc. split; [done|].
    apply log_records_app; [done|]. by apply record_of_log. }
  split; [|intros Hk; apply Hfull; by apply Hok].
  destruct (record_of e) as [rec| |] eqn:Er.
  - destruct (decide (out = rec)) as [->|Hne]; [by left; apply Hfull|]. right.
    exists out. split; [exists recs; by rewrite app_assoc|]. by eapply record_prefix_incomplete.
  - apply prefix_nil_inv in Hp as ->. right. exists []. split; [|apply incomplete_nil].
    exists recs. by rewrite !app_nil_r.
  - apply prefix_nil_inv in Hp as ->. right. exists []. split; [|apply incomplete_nil].
    exists recs. by rewrite !app_nil_r.
Qed.

(** *** Events as calls on the store

    Applying a well-formed event is one call on the store; replaying a log is
    the sequence of its calls. *)

Definition call_of e : StoreCall V :=
  if m_type e =? CREATE then
    match m_key e, m_payload e with
    | Some k, Some v => CallCreate k v (Some (m_timestamp e))
    | _, _ => CallClear
    end
  else if m_type e =? RENAME then
    match m_key e, m_renameKey e with
    | Some k, Some k' => CallRename k k'
    | _, _ => CallClear
    end
  else if m_type e =? DELETE then
    match m_key e with Some k => CallDelete k | None => CallClear end
  else CallClear.

(** Whether the call changed the store. *)
Definition call_applied (r : StoreReply V) : bool :=
  match r with ReplyBool b => b | _ => true end.

Fixpoint replayed (now : nat -> Timestamp) es s : RadishStore V :=
  match es with
  | [] => s
  | e :: es => replayed (fun i => now (S i)) es (store_call (now O) (call_of e) s).2
  end.

Lemma apply_event_call now s e :
  event_wf e ->
  ApplyEvent now s e
  = Ok (call_applied (store_call now (call_of e) s).1, (store_call now (call_of e) s).2).
Proof.
  intros [_ Hc]. destruct e as [t ts k r p]. simpl in *.
  destruct Hc as [(-> & [k' ->] & -> & v & -> & Hv)|[(-> & [k' ->] & [r' ->] & ->)|
    [(-> & [k' ->] & -> & ->)|(-> & -> & -> & ->)]]]; unfold ApplyEvent, call_of; simpl.
  - by destruct (Create _ _ _ _ _).
  - by destruct (Rename _ _ _ _).
  - done.
  - by destruct (Clear s).
Qed.

Lemma replay_events_calls now es s :
  Forall event_wf es -> replay_events now es s = Ok (replayed now es s).
Proof.
  intros Hw. revert now s. induction Hw as [|e es He _ IH]; intros now s; [done|].
  cbn [replay_events replayed]. rewrite apply_event_call by done. simpl. apply IH.
Qed.

Lemma replayed_app now es e s :
  replayed now (es ++ [e]) s
  = (store_call (now (length es)) (call_of e) (replayed now es s)).2.
Proof.
  revert now s. induction es as [|e' es IH]; intros now s; [done|].
  cbn [app replayed length]. by rewrite IH.
Qed.

Lemma replayed_ext now now' es s :
  (forall i, (i < length es)%nat -> now i = now' i) -> replayed now es s = replayed now' es s.
Proof.
  revert now now' s. induction es as [|e es IH]; intros now now' s Hn; [done|].
  cbn [replayed]. rewrite (Hn O) by (simpl; lia). apply IH. intros i Hi. apply Hn. simpl. lia.
Qed.

Lemma replayed_ttl now es s : m_ttl (replayed now es s) = m_ttl s.
Proof.
  revert now s. induction es as [|e es IH]; intros now s; [done|]. simpl.
  by rewrite IH, store_call_ttl.
Qed.

Lemma replayed_wf now es s : store_wf s -> store_wf (replayed now es s).
Proof.
  revert now s. induction es as [|e es IH]; intros now s Hs; [done|]. simpl.
  apply IH. by apply store_call_wf.
Qed.

(** The clock matters only to a rename in a store with a time to live. *)
Lemma call_of_clock now now' s e :
  HasTimeToLive s = false \/ m_type e <> RENAME ->
  store_call now (call_of e) s = store_call now' (call_of e) s.
Proof.
  intros Hc. unfold call_of.
  destruct (m_type e =? CREATE).
  { by destruct (m_key e), (m_payload e). }
  destruct (m_type e =? RENAME) eqn:Er; zify_bool.
  - destruct Hc as [Hc|]; [|done]. destruct (m_key e), (m_renameKey e); try done. simpl.
    unfold Rename. by rewrite !no_ttl_never_expired.
  - destruct (m_type e =? DELETE); [|done]. by destruct (m_key e).
Qed.

Lemma replayed_clock now now' es s :
  HasTimeToLive s = false \/ Forall (fun e => m_type e <> RENAME) es ->
  replayed now es s = replayed now' es s.
Proof.
  revert now now' s. induction es as [|e es IH]; intros now now' s Hc; [done|]. simpl.
  rewrite (call_of_clock (now O) (now' O)).
  - apply IH. destruct Hc as [Hc|Hc]; [left | right; by inversion Hc].
    unfold HasTimeToLive in *. by rewrite store_call_ttl.
  - destruct Hc as [Hc|Hc]; [by left | right; by inversion Hc].
Qed.

Lemma log_records_wf es recs : log_records es recs -> Forall event_wf es.
Proof. induction 1; by constructor. Qed.

Lemma log_file_wf es tail content : log_file es tail content -> Forall event_wf es.
Proof. intros (recs & _ & Hr). by eapply log_records_wf. Qed.

(** Opening and replaying a log that may have a torn tail. *)
Lemma replay_log now w s es tail content disk :
  disk !! m_reader w = Some content -> log_file es tail content -> incomplete tail ->
  Replay io_ok now w s disk = Ok (replayed now es s).
Proof.
  intros Hd Hl Ht. unfold Replay. rewrite (get_events_image _ _ _ _ _ Hd Hl Ht). simpl.
  apply replay_events_calls. by eapply log_file_wf.
Qed.

(** *** Opening a log *)

(** The writer of a log file, as the constructor makes it. *)
Definition writer_of (filename : bytes) : LogWriter V :=
  MkLogWriter filename filename InitializeCompactStrategies.

Lemma ensure_existing filename disk es tail content :
  disk !! filename = Some content -> log_file es tail content ->
  EnsureInitialized io_ok filename disk = (disk, Ok tt).
Proof.
  intros Hd (recs & -> & _). unfold EnsureInitialized. rewrite Hd.
  cbn [negb io_ok io_open_read]. rewrite ifstream_ok, <- zlen_kHeader, is_read_string_app.
  by rewrite bool_decide_eq_true_2.
Qed.

Lemma ensure_fresh filename disk :
  disk !! filename = None ->
  EnsureInitialized io_ok filename disk = (<[filename := kHeader]> disk, Ok tt).
Proof. intros Hd. unfold EnsureInitialized. rewrite Hd. done. Qed.

Lemma ensure_fresh_returns io filename disk disk' :
  disk !! filename = None -> EnsureInitialized io filename disk = (disk', Ok tt) ->
  disk' = <[filename := kHeader]> disk.
Proof.
  intros Hd. unfold EnsureInitialized. rewrite Hd. destruct (io_open_write io); [|done]. cbn [negb].
  destruct ((WriteHeader ;! _) (ofstream io)) as [file r] eqn:E. intros [= <- ->].
  unfold wseq at 1 in E.
  destruct (WriteHeader (ofstream io)) as [s1 r1] eqn:E1. destruct r1 as [[]| |]; [|done|done].
  pose proof (wspec_seq _ _ _ _ (wspec_put kHeader) (wspec_check _) _ _ _ _
    (os_prefix_of_ofstream io) E1) as [_ Hok].
  rewrite app_nil_r in Hok. destruct (flush_check_spec _ _ _ _ _ (Hok eq_refl) E) as [_ Hf].
  by destruct (Hf eq_refl) as [-> _].
Qed.

Lemma log_file_header : log_file [] [] kHeader.
Proof. exists []. rewrite !app_nil_r. split; [done|constructor]. Qed.

End lemmas.

(** ** String databases

    The events of the server's database fit their records when keys and values
    are at most 4 MiB, which the protocol guarantees. *)

Lemma heap_image_small (k : bytes) :
  zlen k <= kMaxRecordSize -> heap_image k = Ok (le_bytes 4 (zlen k) ++ object_bytes k).
Proof.
  intros Hk. unfold heap_image. rewrite (proj2 (Z.ltb_ge _ _)).
  - do 3 f_equal. simpl. lia.
  - unfold kMaxRecordSize, UINT32_MAX in *. change (Z.of_nat esize) with 1. rewrite Z.div_1_r. lia.
Qed.

Lemma storable_string_create t (k v : bytes) :
  in_ll t -> zlen k + zlen v <= kMaxRecordSize - 17 -> storable (create_event t k v).
Proof.
  intros Ht Hl. pose proof (zlen_nonneg k). pose proof (zlen_nonneg v). split.
  - split; [done|]. left. split_and!; try done. by exists v.
  - unfold event_image. simpl.
    rewrite !heap_image_small by lia. eexists. split; [reflexivity|].
    rewrite !zlen_app, !zlen_object_bytes, !zlen_le_bytes. simpl. lia.
Qed.

Lemma storable_rename {V} `{BinaryValueLaws V} (k k' : bytes) :
  zlen k + zlen k' <= kMaxRecordSize - 17 -> storable (rename_event (V := V) k k').
Proof.
  intros Hl. pose proof (zlen_nonneg k). pose proof (zlen_nonneg k'). split.
  - split; [by vm_compute|]. right. left. by split_and!.
  - unfold event_image. simpl. rewrite !heap_image_small by lia. eexists.
    split; [reflexivity|]. rewrite !zlen_app, !zlen_object_bytes, !zlen_le_bytes. simpl. lia.
Qed.

Lemma storable_delete {V} `{BinaryValueLaws V} (k : bytes) :
  zlen k <= kMaxRecordSize - 17 -> storable (delete_event (V := V) k).
Proof.
  intros Hl. pose proof (zlen_nonneg k). split.
  - split; [by vm_compute|]. right. right. left. by split_and!.
  - unfold event_image. simpl. rewrite !heap_image_small by lia. eexists.
    split; [reflexivity|]. rewrite !zlen_app, !zlen_object_bytes, !zlen_le_bytes.
    change (zlen []) with 0. simpl. lia.
Qed.

Lemma storable_clear {V} `{BinaryValueLaws V} : storable (clear_event (V := V)).
Proof.
  split.
  - split; [by vm_compute|]. right. right. right. done.
  - unfold event_image. simpl. eexists. split; [reflexivity|].
    rewrite zlen_app, !zlen_le_bytes. by vm_compute.
Qed.

(** The log of a list of events. *)
Definition log_bytes {V} `{BinaryValueLaws V} (es : list (RadishEvent V)) : bytes :=
  kHeader ++ concat (map (fun e => match record_of e with Ok rec => rec | _ => [] end) es).

Lemma log_bytes_file {V} `{BinaryValueLaws V} (es : list (RadishEvent V)) :
  Forall storable es -> log_file es [] (log_bytes es).
Proof.
  intros Hs. eexists. rewrite app_nil_r. split; [reflexivity|].
  induction Hs as [|e es He _ IH]; [constructor|]. simpl.
  destruct (storable_record e He) as [rec Hr]. rewrite Hr.
  apply (log_records_app [e]); [|exact IH]. apply record_of_log; [apply He | done].
Qed.
