(* ===== verification/Compaction.v ===== *)
(** Compaction of the log: what [LogWriter::Compact] and [RewriteHistory]
    leave on the disk, and why replaying it gives the same store.

    No code is modelled here; the definitions describe the surviving entries
    the theorems speak of. *)

From S2P Require Import Prelude Streams BinaryFile EventType RadishEvent LogReader.
From S2P Require Import CompactStrategy RadishStore LogWriter.

Section compaction.
Context {V : Type} `{BinaryValueLaws V}.
Implicit Types (e : RadishEvent V) (es : list (RadishEvent V)) (s : RadishStore V)
  (w : LogWriter V) (events : gmap bytes (RadishEvent V)) (entries : list (bytes * RadishEvent V)).

(** An entry [RewriteHistory] does not skip. *)
Definition kept (now : bytes -> Timestamp) (entry : bytes * RadishEvent V) : bool :=
  negb (negb (m_timestamp entry.2 =? -1) && (m_timestamp entry.2 <? now entry.1)).

Definition surviving (now : bytes -> Timestamp) entries : list (RadishEvent V) :=
  (base.filter (fun x => kept now x = true) entries).*2.

Fixpoint history_bytes (now : bytes -> Timestamp) entries : bytes :=
  match entries with
  | [] => []
  | x :: entries =>
      (if kept now x then match record_of x.2 with Ok rec => rec | _ => [] end else [])
      ++ history_bytes now entries
  end.

(** Every entry is a well-formed CREATE event under its own key. *)
Definition create_map events : Prop :=
  forall k e, events !! k = Some e -> event_wf e /\ m_type e = CREATE /\ m_key e = Some k.

(** ** Writing the surviving entries *)

Lemma write_history_cons now x entries st :
  write_history now (x :: entries) st
  = ((if kept now x then WriteRecord x.2 else wdone) ;! write_history now entries) st.
Proof. destruct x as [k e]. unfold kept. simpl. by destruct (_ && _). Qed.

Lemma wspec_history now entries : wspec (write_history now entries) (history_bytes now entries).
Proof.
  induction entries as [|x entries IH]; [apply wspec_done|].
  intros st written st' r Hs. rewrite write_history_cons. cbn [history_bytes].
  eapply wspec_seq; [|exact IH|done]. destruct (kept now x); [apply wspec_record|apply wspec_done].
Qed.

Lemma write_history_returns now entries st st' :
  write_history now entries st = (st', Ok tt) ->
  Forall (fun e => exists rec, record_of e = Ok rec) (surviving now entries).
Proof.
  revert st. induction entries as [|x entries IH]; intros st; [constructor|].
  rewrite write_history_cons. unfold wseq, surviving.
  destruct (kept now x) eqn:Ek.
  - rewrite filter_cons_True by done. rewrite fmap_cons.
    destruct (WriteRecord x.2 st) as [s1 [[]| |]] eqn:E1; [|done|done].
    intros Hr. constructor; [by eapply write_record_returns | by eapply IH].
  - rewrite filter_cons_False by congruence. simpl. apply IH.
Qed.

Lemma history_log now entries :
  Forall event_wf (surviving now entries) ->
  Forall (fun e => exists rec, record_of e = Ok rec) (surviving now entries) ->
  log_records (surviving now entries) (history_bytes now entries).
Proof.
  unfold surviving. induction entries as [|x entries IH]; [constructor|].
  cbn [history_bytes]. destruct (kept now x) eqn:Ek.
  - rewrite filter_cons_True by done. rewrite fmap_cons.
    intros Hw Hr. inversion Hw; inversion Hr as [|? ? [rec Hrec]]; subst. rewrite Hrec.
    apply (log_records_app [x.2]); [by apply record_of_log | by apply IH].
  - rewrite filter_cons_False by congruence. apply IH.
Qed.

Lemma wok_history now entries :
  Forall storable (surviving now entries) -> wok (write_history now entries).
Proof.
  unfold surviving. induction entries as [|x entries IH]; [intros _; apply wok_done|].
  intros Hf st Hs. rewrite write_history_cons. revert st Hs. apply wok_seq.
  - destruct (kept now x) eqn:Ek; [|apply wok_done].
    rewrite filter_cons_True in Hf by done. apply wok_record. by inversion Hf.
  - apply IH. destruct (kept now x) eqn:Ek.
    + rewrite filter_cons_True in Hf by done. by inversion Hf.
    + by rewrite filter_cons_False in Hf by congruence.
Qed.

(** ** [RewriteHistory] *)

Definition tmp_name w : bytes := m_filename w ++ str ".tmp".

Lemma tmp_name_ne w : tmp_name w <> m_filename w.
Proof.
  unfold tmp_name. intros E. apply (f_equal length) in E. rewrite length_app in E.
  simpl in E. lia.
Qed.

(** The outcomes of rewriting: the log is untouched unless the call returns,
    and then it is the complete new history; only the temporary file is
    touched otherwise. *)
Lemma rewrite_history_spec io now w entries disk disk' r :
  RewriteHistory io now w entries disk = (disk', r) ->
  (r <> Ok tt -> disk' !! m_filename w = disk !! m_filename w)
  /\ (r = Ok tt ->
      disk' !! m_filename w = Some (kHeader ++ history_bytes now entries)
      /\ disk' !! tmp_name w = None
      /\ Forall (fun e => exists rec, record_of e = Ok rec) (surviving now entries))
  /\ (forall f, f <> m_filename w -> f <> tmp_name w -> disk' !! f = disk !! f).
Proof.
  pose proof (tmp_name_ne w) as Hne. unfold RewriteHistory. fold (tmp_name w).
  destruct (io_open_write io); simpl; [|by intros [= <- <-]].
  destruct ((WriteHeader ;! _) (ofstream io)) as [file r1] eqn:E.
  assert (Hdata : r1 = Ok tt -> os_data file = kHeader ++ history_bytes now entries
    /\ Forall (fun e => exists rec, record_of e = Ok rec) (surviving now entries)).
  { intros ->. rewrite <- wseq_assoc in E. unfold wseq at 1 in E.
    destruct ((WriteHeader ;! _) (ofstream io)) as [s1 r2] eqn:E1.
    destruct r2 as [[]| |]; [|done|done].
    pose proof (wspec_seq _ _ _ _ (wspec_seq _ _ _ _ (wspec_put kHeader) (wspec_check _))
      (wspec_history now entries) _ _ _ _ (os_prefix_of_ofstream io) E1) as [_ Hok].
    rewrite app_nil_r in Hok. specialize (Hok eq_refl). simpl in Hok.
    rewrite <- wseq_assoc in E. unfold wseq at 1 in E.
    destruct ((wflush ;! wcheck _) s1) as [s2 r3] eqn:E2.
    destruct r3 as [[]| |]; [|done|done].
    destruct (flush_check_spec _ _ _ _ _ Hok E2) as [_ Hf]. destruct (Hf eq_refl) as [Hd _].
    injection E as <- _. split; [exact Hd|].
    unfold wseq at 1 in E1. destruct (WriteHeader (ofstream io)) as [s3 [[]| |]]; [|done|done].
    by eapply write_history_returns. }
  destruct r1 as [[]| |].
  - destruct (io_rename_ok io); intros [= <- <-]; (split_and!; [| |intros f H1 H2]);
      try done; intros.
    + destruct (Hdata eq_refl) as [-> ?]. rewrite lookup_insert_eq.
      split_and!; [done| |done]. by rewrite lookup_insert_ne, lookup_delete_eq.
    + by rewrite lookup_insert_ne, lookup_delete_ne, lookup_insert_ne.
    + by rewrite lookup_insert_ne.
    + by rewrite lookup_insert_ne.
  - intros [= <- <-]. split_and!; [|done|intros f H1 H2]; intros; by rewrite lookup_insert_ne.
  - intros [= <- <-]. split_and!; [|done|intros f H1 H2]; intros; by rewrite lookup_insert_ne.
Qed.

Lemma rewrite_history_ok now w entries disk :
  Forall storable (surviving now entries) ->
  exists disk', RewriteHistory io_ok now w entries disk = (disk', Ok tt).
Proof.
  intros Hf. unfold RewriteHistory. cbn [negb io_ok io_open_write io_rename_ok].
  pose proof (wok_seq _ _ (wok_seq _ _ (wok_put kHeader)
    (wok_check (ios_failure (str "Failed to write persistence log header"))))
    (wok_seq _ _ (wok_history now entries Hf) (wok_seq _ _ wok_flush (wok_seq _ _
      (wok_check (ios_failure (str "Failed to flush compacted persistence log")))
      (wok_seq _ _ wok_close
        (wok_check (ios_failure (str "Failed to close compacted persistence log")))))))) as Hok.
  destruct (Hok _ os_fine_ofstream) as (s' & Hs' & _). fold WriteHeader in Hs'.
  rewrite Hs'. by eexists.
Qed.

(** ** The loop of [Compact] *)

(** One event on the map, without the machinery of strategies. *)
Definition compact_step (now : Timestamp) events e : gmap bytes (RadishEvent V) :=
  if (m_type e =? CREATE) && negb (m_timestamp e =? -1) && (m_timestamp e <? now) then events
  else match call_of e with
  | CallCreate k _ _ => <[k := e]> events
  | CallRename k k' =>
      match events !! k with
      | Some entry => <[k' := SetKey entry k']> (delete k events)
      | None => events
      end
  | CallDelete k => delete k events
  | _ => ∅
  end.

Fixpoint compacted (now : nat -> Timestamp) es events : gmap bytes (RadishEvent V) :=
  match es with
  | [] => events
  | e :: es => compacted (fun i => now (S i)) es (compact_step (now O) events e)
  end.

Lemma strategies_lookup :
  InitializeCompactStrategies (V := V) !! CREATE = Some CreateCompactStrategy
  /\ InitializeCompactStrategies (V := V) !! RENAME = Some RenameCompactStrategy
  /\ InitializeCompactStrategies (V := V) !! DELETE = Some DeleteCompactStrategy
  /\ InitializeCompactStrategies (V := V) !! CLEAR = Some ClearCompactStrategy.
Proof. done. Qed.

Lemma compact_events_step now es events :
  Forall event_wf es ->
  compact_events now InitializeCompactStrategies es events = Ok (compacted now es events).
Proof.
  destruct strategies_lookup as (SC & SR & SD & SL).
  intros Hw. revert now events.
  induction Hw as [|e es [_ Hc] _ IH]; intros now events; [done|].
  cbn [compact_events compacted]. unfold compact_step, GetEventType, GetTimestamp.
  destruct e as [t ts k r p]. cbn [m_type m_timestamp m_key m_renameKey m_payload] in *.
  destruct ((t =? CREATE) && _ && _); [apply IH|].
  destruct Hc as [(-> & [k' ->] & -> & v & -> & Hv)|[(-> & [k' ->] & [r' ->] & ->)|
    [(-> & [k' ->] & -> & ->)|(-> & -> & -> & ->)]]];
    rewrite ?SC, ?SR, ?SD, ?SL; unfold call_of; simpl.
  - apply IH.
  - destruct (events !! k'); simpl; apply IH.
  - apply IH.
  - apply IH.
Qed.

Lemma create_map_empty : create_map ∅.
Proof. intros k e He. by rewrite lookup_empty in He. Qed.

Lemma set_key_create e k :
  event_wf e -> m_type e = CREATE -> event_wf (SetKey e k) /\ m_type (SetKey e k) = CREATE.
Proof.
  intros [Ht Hc] E. split; [|done]. split; [done|]. left. simpl.
  destruct Hc as [(_ & _ & ? & ?)|[(E' & _)|[(E' & _)|(E' & _)]]];
    [by eauto 10| | |]; rewrite E in E'; discriminate.
Qed.

Lemma compact_step_map now events e :
  event_wf e -> create_map events -> create_map (compact_step now events e).
Proof.
  intros Hw Hm. unfold compact_step. destruct (_ && _ && _)%bool; [done|].
  destruct Hw as [Ht Hc]. pose proof (conj Ht Hc) as Hw. fold (event_wf e) in Hw.
  destruct Hc as [(E & [k Ek] & Er & v & Ep & _)|[(E & [k Ek] & [k' Er] & _)|
    [(E & [k Ek] & _ & _)|(E & Ek & _ & _)]]]; unfold call_of; rewrite E, Ek, ?Er, ?Ep; simpl.
  - intros j x. rewrite lookup_insert. case_decide; [intros [= <-]; by subst | apply Hm].
  - destruct (events !! k) as [entry|] eqn:El; [|done].
    destruct (Hm k entry El) as (Hwe & Hte & _). intros j x. rewrite lookup_insert.
    case_decide as Hj; [intros [= <-]; subst j|].
    + destruct (set_key_create entry k' Hwe Hte). by split_and!.
    + intros [_ Hx]%lookup_delete_Some. by apply Hm.
  - intros j x [_ Hx]%lookup_delete_Some. by apply Hm.
  - apply create_map_empty.
Qed.

Lemma compacted_map now es events :
  Forall event_wf es -> create_map events -> create_map (compacted now es events).
Proof.
  intros Hw. revert now events. induction Hw as [|e es He _ IH]; intros now events Hm; [done|].
  apply IH. by apply compact_step_map.
Qed.

Lemma surviving_wf now events entries :
  create_map events -> entries ≡ₚ map_to_list events -> Forall event_wf (surviving now entries).
Proof.
  intros Hm Hp. unfold surviving. apply Forall_fmap, Forall_forall.
  intros [k e] [_ Hin]%list_elem_of_filter. rewrite Hp in Hin.
  apply elem_of_map_to_list in Hin. by apply (Hm k e).
Qed.

(** The surviving events are CREATE events of different keys. *)
Lemma surviving_creates now events entries :
  create_map events -> entries ≡ₚ map_to_list events ->
  Forall (fun e => m_type e = CREATE) (surviving now entries).
Proof.
  intros Hm Hp. apply Forall_forall. intros e He. unfold surviving in He.
  apply list_elem_of_fmap in He as ([k x] & -> & [_ Hin]%list_elem_of_filter).
  rewrite Hp in Hin. apply elem_of_map_to_list in Hin. simpl. by apply (Hm k x).
Qed.

Lemma surviving_keys now events entries :
  create_map events -> entries ≡ₚ map_to_list events ->
  NoDup (m_key <$> surviving now entries).
Proof.
  intros Hm Hp.
  assert (Hk : m_key <$> surviving now entries
    = Some <$> (base.filter (fun x => kept now x = true) entries).*1).
  { unfold surviving. rewrite <- !list_fmap_compose. apply list_fmap_ext.
    intros i [k x] Hi. apply list_elem_of_lookup_2, list_elem_of_filter in Hi as [_ Hin].
    rewrite Hp in Hin. apply elem_of_map_to_list in Hin. simpl. by apply (Hm k x). }
  rewrite Hk. apply NoDup_fmap_2; [by intros ? ? [= ->]|].
  apply (sublist_NoDup _ entries.*1); [|apply fmap_sublist, sublist_filter].
  rewrite Hp. apply NoDup_fst_map_to_list.
Qed.

(** What [Compact] leaves on the disk, for any behaviour of the environment. *)
Lemma compact_spec io now now' order w disk disk' r es tail content :
  m_reader w = m_filename w -> m_compactStrategies w = InitializeCompactStrategies ->
  disk !! m_filename w = Some content -> log_file es tail content -> incomplete tail ->
  (forall events, order events ≡ₚ map_to_list events) ->
  Compact io now now' order w disk = (disk', r) ->
  (r <> Ok tt -> disk' !! m_filename w = disk !! m_filename w)
  /\ (r = Ok tt ->
      disk' !! tmp_name w = None /\
      exists content', disk' !! m_filename w = Some content'
        /\ log_file (surviving now' (order (compacted now es ∅))) [] content')
  /\ (forall f, f <> m_filename w -> f <> tmp_name w -> disk' !! f = disk !! f).
Proof.
  intros Hr Hs Hd Hl Ht Hord. unfold Compact. rewrite Hr, Hs.
  pose proof (log_file_wf _ _ _ Hl) as Hwf.
  pose proof (get_events_image _ _ _ _ _ Hd Hl Ht) as Hget.
  destruct (GetEvents io (m_filename w) disk) as [es'| |] eqn:Eg; simpl;
    [|by intros [= <- <-]|by intros [= <- <-]].
  assert (es' = es) as ->.
  { pose proof (get_events_limit io (m_filename w) disk es' Eg). congruence. }
  rewrite compact_events_step by done. intros Hw.
  destruct (rewrite_history_spec _ _ _ _ _ _ _ Hw) as (H1 & H2 & H3).
  split_and!; [done| |done]. intros Hok. destruct (H2 Hok) as (Hc & Htmp & Hrec).
  split; [done|]. eexists. split; [exact Hc|]. exists (history_bytes now' (order (compacted now es ∅))).
  rewrite app_nil_r. split; [done|]. apply history_log; [|done].
  eapply surviving_wf; [|apply Hord]. apply compacted_map; [done|]. apply create_map_empty.
Qed.

(** ** Stores without a time to live

    The events such a database writes, and the relation between the surviving
    entries and the store: the same keys with the same values. *)

Definition persistent_event e : Prop := m_type e = CREATE -> m_timestamp e = -1.
Definition no_self_rename e : Prop := m_type e = RENAME -> m_key e <> m_renameKey e.

Definition same_values events s : Prop :=
  HasTimeToLive s = false /\ forall k, m_data s !! k = events !! k ≫= m_payload.

Lemma create_payload events k e :
  create_map events -> events !! k = Some e -> exists v, m_payload e = Some v.
Proof.
  intros Hm Hk. destruct (Hm k e Hk) as ([_ Hc] & E & _).
  destruct Hc as [(_ & _ & _ & v & ? & _)|[(E' & _)|[(E' & _)|(E' & _)]]];
    [by eauto| | |]; rewrite E in E'; discriminate.
Qed.

Lemma same_values_step now now' events s e :
  event_wf e -> persistent_event e -> no_self_rename e -> create_map events ->
  same_values events s -> same_values (compact_step now events e) (store_call now' (call_of e) s).2.
Proof.
  intros [Ht Hc] Hp Hn Hm [HT Hd]. split.
  { unfold HasTimeToLive in *. by rewrite store_call_ttl. }
  unfold persistent_event, no_self_rename, compact_step in *.
  destruct Hc as [(E & [k Ek] & Er & v & Ep & _)|[(E & [k Ek] & [k' Er] & _)|
    [(E & [k Ek] & _ & _)|(E & Ek & _ & _)]]]; unfold call_of; rewrite E, Ek, ?Er, ?Ep in *; simpl.
  - rewrite (Hp eq_refl). simpl. unfold Create.
    change (HasTimeToLive (MkStore _ _ _)) with (HasTimeToLive s). rewrite HT. simpl. intros j.
    rewrite !lookup_insert. case_decide; [by rewrite <- Ep | apply Hd].
  - assert (Hne : k <> k') by (intros ->; by apply (Hn eq_refl)). intros j.
    unfold Rename. rewrite (Hd k). destruct (events !! k) as [entry|] eqn:El; simpl; [|apply Hd].
    destruct (create_payload events k entry Hm El) as [v Epl]. rewrite Epl. simpl.
    rewrite no_ttl_never_expired by done. simpl.
    destruct (decide (j = k)) as [->|Hj].
    { by rewrite lookup_delete_eq, lookup_insert_ne, lookup_delete_eq by done. }
    rewrite lookup_delete_ne, !lookup_insert by done.
    case_decide; [by rewrite <- Epl | by rewrite lookup_delete_ne, Hd].
  - intros j. rewrite !lookup_delete. case_decide; [done | apply Hd].
  - intros j. rewrite lookup_empty. simpl. unfold Clear. case_decide as Hem; simpl; [|done].
    by rewrite Hem.
Qed.

Lemma same_values_compacted now now' es events s :
  Forall event_wf es -> Forall persistent_event es -> Forall no_self_rename es ->
  create_map events -> same_values events s ->
  same_values (compacted now es events) (replayed now' es s).
Proof.
  revert now now' events s. induction es as [|e es IH]; intros now now' events s Hw Hp Hn Hm Hs;
    [done|].
  inversion Hw; inversion Hp; inversion Hn; subst. simpl.
  apply IH; [done|done|done|by apply compact_step_map | by apply same_values_step].
Qed.

(** Every entry carries a timestamp of [P]. *)
Definition stamped (P : Timestamp -> Prop) events : Prop :=
  forall k e, events !! k = Some e -> P (m_timestamp e).

Abbreviation persistent_map := (stamped (fun t => t = -1)).

Lemma stamped_empty P : stamped P ∅.
Proof. intros k e He. by rewrite lookup_empty in He. Qed.

Lemma compact_step_stamped P now events e :
  event_wf e -> (m_type e = CREATE -> P (m_timestamp e)) -> stamped P events ->
  stamped P (compact_step now events e).
Proof.
  intros [Ht Hc] Hp Hm. unfold compact_step. destruct (_ && _ && _)%bool; [done|].
  destruct Hc as [(E & [k Ek] & Er & v & Ep & _)|[(E & [k Ek] & [k' Er] & _)|
    [(E & [k Ek] & _ & _)|(E & Ek & _ & _)]]]; unfold call_of; rewrite E, Ek, ?Er, ?Ep; simpl.
  - intros j x. rewrite lookup_insert. case_decide; [intros [= <-]; by apply Hp | apply Hm].
  - destruct (events !! k) as [entry|] eqn:El; [|done]. intros j x. rewrite lookup_insert.
    case_decide as Hj; [intros [= <-]; exact (Hm k entry El) |].
    intros [_ Hx]%lookup_delete_Some. by apply (Hm j).
  - intros j x [_ Hx]%lookup_delete_Some. by apply (Hm j).
  - intros j x Hx. by rewrite lookup_empty in Hx.
Qed.

Lemma compacted_stamped P now es events :
  Forall event_wf es -> Forall (fun e => m_type e = CREATE -> P (m_timestamp e)) es ->
  stamped P events -> stamped P (compacted now es events).
Proof.
  revert now events. induction es as [|e es IH]; intros now events Hw Hp Hm; [done|].
  inversion Hw; inversion Hp; subst. apply IH; [done|done|]. by apply compact_step_stamped.
Qed.

(** Entries without an expiry all survive. *)
Lemma surviving_all now events entries :
  persistent_map events -> entries ≡ₚ map_to_list events -> surviving now entries = entries.*2.
Proof.
  intros Hm Hp. unfold surviving. f_equal.
  assert (Hk : Forall (fun x => kept now x = true) entries).
  { apply Forall_forall. intros [k e] Hin. rewrite Hp in Hin.
    apply elem_of_map_to_list in Hin. unfold kept. simpl. by rewrite (Hm k e Hin). }
  clear Hp. induction Hk as [|x l Hx _ IH]; [done|]. by rewrite filter_cons_True, IH by done.
Qed.

(** Replaying the surviving entries, in whatever order they were written. *)
Lemma replayed_creates now events entries s :
  create_map events -> entries ≡ₚ map_to_list events -> HasTimeToLive s = false ->
  forall k, m_data (replayed now entries.*2 s) !! k
            = match events !! k with Some e => m_payload e | None => m_data s !! k end.
Proof.
  intros Hm Hp HT.
  assert (Hnd : NoDup entries.*1) by (rewrite Hp; apply NoDup_fst_map_to_list).
  assert (Hl : (list_to_map entries : gmap bytes (RadishEvent V)) = events).
  { rewrite (list_to_map_proper entries (map_to_list events)) by done.
    apply list_to_map_to_list. }
  assert (Hwf : Forall (fun '(k, e) => event_wf e /\ m_type e = CREATE /\ m_key e = Some k) entries).
  { apply Forall_forall. intros [k e] Hin. rewrite Hp in Hin.
    apply elem_of_map_to_list in Hin. by apply Hm. }
  rewrite <- Hl. clear Hl Hp Hm events. revert now s HT Hnd.
  induction Hwf as [|[k e] entries ([_ Hc] & E & Ek) _ IH]; intros now s HT Hnd j; [done|].
  rewrite fmap_cons in *. cbn [replayed fst snd list_to_map foldr] in *.
  apply NoDup_cons in Hnd as [Hk Hnd]. rewrite E in Hc.
  destruct Hc as [(_ & _ & _ & v & Ev & _)|[(E' & _)|[(E' & _)|(E' & _)]]]; try discriminate.
  rewrite IH; [ | |done].
  2: { unfold HasTimeToLive in *. by rewrite store_call_ttl. }
  unfold call_of. rewrite E, Ek, Ev. simpl. unfold Create.
  change (HasTimeToLive (MkStore _ _ _)) with (HasTimeToLive s). rewrite HT. simpl.
  rewrite !lookup_insert. case_decide as Hj; [subst j|done].
  by rewrite not_elem_of_list_to_map_1, Ev by done.
Qed.

(** A store without a time to live is its values. *)
Lemma same_values_eq events s s' :
  store_wf s -> store_wf s' -> m_ttl s = m_ttl s' ->
  same_values events s -> same_values events s' -> s = s'.
Proof.
  intros Hw Hw' Ht [HT Hd] [HT' Hd']. unfold store_wf in *. rewrite HT in Hw. rewrite HT' in Hw'.
  destruct s as [t d x], s' as [t' d' x']. simpl in *. subst.
  f_equal. apply map_eq. intros k. by rewrite Hd, Hd'.
Qed.

Lemma same_values_new : same_values ∅ (NewStore (-1)).
Proof. split; [done|]. intros k. simpl. by rewrite !lookup_empty. Qed.

(** The surviving entries replay to the same store as the whole log. *)
Lemma replay_surviving now now' now1 now2 es entries :
  Forall event_wf es -> Forall persistent_event es -> Forall no_self_rename es ->
  entries ≡ₚ map_to_list (compacted now es ∅) ->
  replayed now1 (surviving now' entries) (NewStore (-1)) = replayed now2 es (NewStore (-1)).
Proof.
  intros Hw Hp Hn Hord.
  pose proof (compacted_map now es ∅ Hw create_map_empty) as Hm.
  assert (Hpm : persistent_map (compacted now es ∅)).
  { apply compacted_stamped; [done|done|apply stamped_empty]. }
  rewrite (surviving_all _ _ _ Hpm Hord).
  apply (same_values_eq (compacted now es ∅)).
  - apply replayed_wf, store_wf_new.
  - apply replayed_wf, store_wf_new.
  - by rewrite !replayed_ttl.
  - split; [unfold HasTimeToLive; by rewrite replayed_ttl|].
    intros k. rewrite (replayed_creates now1 (compacted now es ∅)) by done.
    simpl. rewrite lookup_empty. by destruct (compacted now es ∅ !! k).
  - by apply same_values_compacted.
Qed.

(** ** What a log says of a key

    The CREATE event that the value of the key comes from, traced back through
    the renames; the list has the last event first. *)
Fixpoint origin (past : list (RadishEvent V)) (k : bytes) : option (RadishEvent V) :=
  match past with
  | [] => None
  | e :: past =>
      match call_of e with
      | CallCreate j _ _ => if decide (j = k) then Some e else origin past k
      | CallRename j j' =>
          match origin past j with
          | Some e0 => if decide (j' = k) then Some e0 else if decide (j = k) then None else origin past k
          | None => origin past k
          end
      | CallDelete j => if decide (j = k) then None else origin past k
      | _ => None
      end
  end.

(** No reading of the compaction's clock is past an expiry of the log. *)
Definition unexpired (now : nat -> Timestamp) (now' : bytes -> Timestamp) es : Prop :=
  Forall (fun e => m_type e = CREATE ->
    m_timestamp e = -1 \/ (forall i, now i <= m_timestamp e) /\ (forall k, now' k <= m_timestamp e)) es.

Lemma compacted_app now es e events :
  compacted now (es ++ [e]) events = compact_step (now (length es)) (compacted now es events) e.
Proof.
  revert now events. induction es as [|e' es IH]; intros now events; [done|]. cbn [app compacted length].
  by rewrite IH.
Qed.

Lemma set_key_own e k : m_key e = Some k -> SetKey e k = e.
Proof. destruct e. simpl. by intros ->. Qed.

Lemma compacted_origin now now' es :
  Forall event_wf es -> unexpired now now' es ->
  forall k, compacted now es ∅ !! k = (fun e => SetKey e k) <$> origin (rev es) k.
Proof.
  induction es as [|e es IH] using rev_ind; [done|].
  intros [Hw [_ Hc]%Forall_singleton]%Forall_app [Hu Hue%Forall_inv]%Forall_app k.
  rewrite compacted_app, rev_app_distr. cbn [rev app origin]. specialize (IH Hw Hu).
  unfold compact_step.
  assert ((m_type e =? CREATE) && negb (m_timestamp e =? -1) && (m_timestamp e <? now (length es)) = false) as ->.
  { destruct (m_type e =? CREATE) eqn:Et; [|done]. destruct (Hue (proj1 (Z.eqb_eq _ _) Et)) as [->|[Hn _]]; [done|].
    rewrite (proj2 (Z.ltb_ge _ _)) by apply Hn. apply andb_false_r. }
  clear Hue. destruct Hc as [(E & [j Ek] & Er & v & Ep & _)|[(E & [j Ek] & [j' Er] & _)|
    [(E & [j Ek] & _ & _)|(E & Ek & _ & _)]]]; unfold call_of; rewrite E, Ek, ?Er, ?Ep; simpl.
  - rewrite lookup_insert. case_decide as Hj; [subst j; simpl; by rewrite set_key_own|apply IH].
  - rewrite (IH j). destruct (origin (rev es) j) as [e0|] eqn:Eo; simpl; [|apply IH].
    rewrite lookup_insert, lookup_delete. repeat case_decide; subst; simpl; [|done|apply IH].
    by destruct e0.
  - rewrite lookup_delete. case_decide; [done|apply IH].
  - by rewrite lookup_empty.
Qed.

(** Nothing expired: every entry survives. *)
Lemma surviving_unexpired now now' es entries :
  Forall event_wf es -> unexpired now now' es -> entries ≡ₚ map_to_list (compacted now es ∅) ->
  surviving now' entries = entries.*2.
Proof.
  intros Hw Hu Hp. unfold surviving. f_equal.
  assert (Hs : stamped (fun t => t = -1 \/ forall k, now' k <= t) (compacted now es ∅)).
  { apply compacted_stamped; [done| |apply stamped_empty].
    eapply Forall_impl; [exact Hu|]. intros e He Ht. destruct (He Ht) as [->|[_ ?]]; [by left|by right]. }
  assert (Hk : Forall (fun x => kept now' x = true) entries).
  { apply Forall_forall. intros [k e] Hin. rewrite Hp in Hin. apply elem_of_map_to_list in Hin.
    unfold kept. simpl. destruct (Hs k e Hin) as [->|Hn]; [done|]. specialize (Hn k).
    rewrite (proj2 (Z.ltb_ge _ _)) by lia. by rewrite andb_false_r. }
  clear Hp. induction Hk as [|x l Hx _ IH]; [done|]. by rewrite filter_cons_True, IH by done.
Qed.

Lemma surviving_origin now now' es entries e k :
  Forall event_wf es -> unexpired now now' es -> entries ≡ₚ map_to_list (compacted now es ∅) ->
  (e ∈ surviving now' entries /\ m_key e = Some k)
  <-> exists e0, origin (rev es) k = Some e0 /\ e = SetKey e0 k.
Proof.
  intros Hw Hu Hp. rewrite (surviving_unexpired now now' es) by done.
  pose proof (compacted_map now es ∅ Hw create_map_empty) as Hm.
  trans (compacted now es ∅ !! k = Some e).
  - rewrite list_elem_of_fmap. split.
    + intros [([j x] & -> & Hin) Hk]. rewrite Hp in Hin. apply elem_of_map_to_list in Hin. simpl in *.
      destruct (Hm j x Hin) as (_ & _ & Hj). rewrite Hk in Hj. injection Hj as ->. done.
    + intros He. split; [exists (k, e); split; [done|]; rewrite Hp; by apply elem_of_map_to_list|].
      by apply (Hm k e).
  - rewrite (compacted_origin now now' es Hw Hu k), fmap_Some. done.
Qed.

End compaction.

(** ** Properties *)

Section properties.
Context {V : Type} `{BinaryValueLaws V}.
Implicit Types (w : LogWriter V) (es : list (RadishEvent V)).

(** C12: whatever fails while the log is compacted (opening, reading, any
    write, the flush, the close or the rename), the log file afterwards is
    either exactly the old one or a complete new log of the surviving events
    with no temporary file left, and the call returns in the second case only;
    no other file is touched. *)
Theorem compact_is_atomic (io : IoEnv) now now' order filename disk disk' r es tail content :
  disk !! filename = Some content -> log_file es tail content -> incomplete tail ->
  (forall events, order events ≡ₚ map_to_list events) ->
  Compact io now now' order (writer_of filename) disk = (disk', r) ->
  (disk' !! filename = Some content \/
   r = Ok tt /\ disk' !! (filename ++ str ".tmp") = None /\
   exists content', disk' !! filename = Some content'
     /\ log_file (surviving now' (order (compacted now es ∅))) [] content')
  /\ (forall f, f <> filename -> f <> filename ++ str ".tmp" -> disk' !! f = disk !! f).
Proof.
  intros Hd Hl Ht Hord Hc.
  destruct (compact_spec _ _ _ _ (writer_of filename) _ _ _ _ _ _ eq_refl eq_refl Hd Hl Ht Hord Hc)
    as (H1 & H2 & H3).
  split; [|exact H3]. destruct (decide (r = Ok tt)) as [->|Hr].
  - right. destruct (H2 eq_refl) as [Htmp Hlog]. by split_and!.
  - left. rewrite <- Hd. by apply H1.
Qed.

(** C13: for a log written without a time to live in which no key is renamed
    to itself, a compaction that returns leaves a log that replays to exactly
    the same store, in whatever order the surviving entries were written. *)
Theorem compact_preserves_replay (io : IoEnv) now now' order filename disk disk' now1 now2
    es tail content :
  disk !! filename = Some content -> log_file es tail content -> incomplete tail ->
  Forall persistent_event es -> Forall no_self_rename es ->
  (forall events, order events ≡ₚ map_to_list events) ->
  Compact io now now' order (writer_of filename) disk = (disk', Ok tt) ->
  exists s, Replay io_ok now1 (writer_of filename) (NewStore (-1)) disk = Ok s
    /\ Replay io_ok now2 (writer_of filename) (NewStore (-1)) disk' = Ok s.
Proof.
  intros Hd Hl Ht Hp Hn Hord Hc.
  destruct (compact_spec _ _ _ _ (writer_of filename) _ _ _ _ _ _ eq_refl eq_refl Hd Hl Ht Hord Hc)
    as (_ & H2 & _).
  destruct (H2 eq_refl) as (_ & content' & Hd' & Hl').
  exists (replayed now1 es (NewStore (-1))). split.
  - by eapply replay_log.
  - rewrite (replay_log _ (writer_of filename) _ _ _ _ _ Hd' Hl' incomplete_nil). f_equal.
    apply (replay_surviving now); [by eapply log_file_wf|done|done|apply Hord].
Qed.


End properties.

(** ** Witnesses *)

Definition compaction_example : list (RadishEvent bytes) :=
  [create_event (-1) (str "a") (str "1"); create_event (-1) (str "b") (str "2");
   rename_event (str "a") (str "c"); delete_event (str "b")].

Definition compaction_disk : Disk := {[ str "f" := log_bytes compaction_example ]}.

Definition map_order (m : gmap bytes (RadishEvent bytes)) := map_to_list m.

Lemma compaction_example_file : log_file compaction_example [] (log_bytes compaction_example).
Proof.
  apply log_bytes_file. repeat apply Forall_cons_2; [| | | |apply Forall_nil_2].
  - apply storable_string_create; by vm_compute.
  - apply storable_string_create; by vm_compute.
  - apply storable_rename. by vm_compute.
  - apply storable_delete. by vm_compute.
Qed.

Lemma compact_is_atomic_witness :
  let io := MkIoEnv true None true (Some 12%nat) false true true true in
  (Compact io (fun _ => 0) (fun _ => 0) map_order (writer_of (str "f")) compaction_disk).1
    !! str "f" = Some (log_bytes compaction_example).
Proof.
  intros io.
  destruct (throw_pair (Compact io (fun _ => 0) (fun _ => 0) map_order (writer_of (str "f"))
    compaction_disk)) as [e E]; [vm_compute; reflexivity|].
  destruct (compact_is_atomic (V := bytes) io _ _ map_order (str "f") compaction_disk _ (Throw e)
    compaction_example [] (log_bytes compaction_example) eq_refl compaction_example_file
    incomplete_nil (fun _ => reflexivity _) E) as [[H|[H _]] _]; [exact H|discriminate H].
Defined.

Lemma compact_preserves_replay_witness :
  let disk' := (Compact io_ok (fun _ => 0) (fun _ => 0) map_order (writer_of (str "f"))
    compaction_disk).1 in
  exists s, Replay io_ok (fun _ => 0) (writer_of (str "f")) (NewStore (V := bytes) (-1)) compaction_disk = Ok s
    /\ Replay io_ok (fun _ => 0) (writer_of (str "f")) (NewStore (V := bytes) (-1)) disk' = Ok s.
Proof.
  intros disk'.
  apply (compact_preserves_replay (V := bytes) io_ok (fun _ => 0) (fun _ => 0) map_order (str "f")
    compaction_disk disk' (fun _ => 0) (fun _ => 0) compaction_example []
    (log_bytes compaction_example)).
  - reflexivity.
  - exact compaction_example_file.
  - exact incomplete_nil.
  - repeat apply Forall_cons_2; try apply Forall_nil_2; unfold persistent_event; simpl; done.
  - repeat apply Forall_cons_2; try apply Forall_nil_2; unfold no_self_rename; simpl; done.
  - intros events. reflexivity.
  - vm_compute. reflexivity.
Defined.

