(* ===== verification/LiveView.v ===== *)
(** Stores that answer alike from some instant on, and the compaction of a log
    with expiries: it drops what has expired, which no later call can see.

    No code is modelled here; the definitions compare stores of
    include/RadishStore.h. *)

From stdpp Require Import sorting.
From S2P Require Import Prelude Streams BinaryFile EventType RadishEvent LogReader.
From S2P Require Import CompactStrategy RadishStore LogWriter Compaction.

Section live.
Context {V : Type}.
Implicit Types (s : RadishStore V).

(** The two stores have the same time to live and, from [t] on, every key has
    the same value in both. *)
Definition same_from (t : Timestamp) s s' : Prop :=
  m_ttl s = m_ttl s' /\ forall now k, t <= now -> Get now s k = Get now s' k.

#[export] Instance same_from_equivalence t : Equivalence (same_from t).
Proof.
  split.
  - by intros s.
  - intros s s' [Ht Hg]. split; [done|]. intros. by rewrite Hg.
  - intros s1 s2 s3 [Ht1 Hg1] [Ht2 Hg2]. split; [congruence|]. intros. by rewrite Hg1, Hg2.
Qed.

Lemma same_from_later t t' s s' : t <= t' -> same_from t s s' -> same_from t' s s'.
Proof. intros Hle [Ht Hg]. split; [done|]. intros. apply Hg. lia. Qed.

(** ** What [Get] sees after each call *)

Lemma get_create now now' s k v t j :
  Get now' (Create now s k v t).2 j
  = if decide (k = j) then
      if HasTimeToLive s then if now' <? default (add_ll now (m_ttl s)) t then Some v else None
      else Some v
    else Get now' s j.
Proof.
  rewrite !get_abs, create_abs. unfold Spec.lookup_alive, Spec.insert_entry.
  rewrite lookup_insert. case_decide; [|done]. unfold Spec.alive. simpl.
  by destruct (HasTimeToLive s).
Qed.

Lemma get_delete now s k j :
  Get now (Delete s k).2 j = if decide (k = j) then None else Get now s j.
Proof.
  rewrite !get_abs. rewrite (proj2 (delete_abs s k)). unfold Spec.lookup_alive. simpl.
  rewrite lookup_delete. by case_decide.
Qed.

Lemma get_clear now s j : Get now (Clear s).2 j = None.
Proof.
  rewrite get_abs, (proj2 (clear_abs s)). unfold Spec.lookup_alive. simpl. by rewrite lookup_empty.
Qed.

(** A key that is found was there before: values only expire. *)
Lemma get_earlier now now' s k v : now <= now' -> Get now' s k = Some v -> Get now s k = Some v.
Proof.
  unfold Get. intros Hle. destruct (m_data s !! k) as [u|]; [|done].
  destruct (IsExpired now s k) eqn:E; [|by destruct (IsExpired now' s k)].
  by rewrite (expired_mono now now' s k Hle E).
Qed.

Lemma get_rename now now' s k k' j :
  now <= now' ->
  Get now' (Rename now s k k').2 j
  = match Get now s k with
    | None => Get now' s j
    | Some _ =>
        if decide (k = j) then None else if decide (k' = j) then Get now' s k else Get now' s j
    end.
Proof.
  intros Hle. destruct (decide (k = k')) as [<-|Hne].
  - unfold Rename, Get at 2. destruct (m_data s !! k) as [v|] eqn:Ed; [|done].
    destruct (IsExpired now s k); [done|]. cbn [negb snd].
    unfold Get, IsExpired. change (HasTimeToLive (MkStore _ _ _)) with (HasTimeToLive s). simpl.
    rewrite lookup_delete. case_decide; [done|]. rewrite lookup_insert_ne by done.
    destruct (m_ttlData s !! k); [|by rewrite lookup_delete_ne].
    by rewrite lookup_delete_ne, lookup_insert_ne.
  - rewrite !get_abs, (proj2 (rename_abs now s k k' Hne)). unfold Spec.move, Spec.lookup_alive.
    destruct (abs s !! k) as [e|] eqn:E; [|done].
    destruct (Spec.alive now e); [|done]. cbn [snd].
    destruct (decide (k = j)) as [<-|Hk].
    { by rewrite lookup_insert_ne, lookup_delete_eq by done. }
    destruct (decide (k' = j)) as [<-|Hk']; [by rewrite lookup_insert_eq|].
    by rewrite lookup_insert_ne, lookup_delete_ne by done.
Qed.

(** ** Calls keep the agreement *)

Lemma same_from_call t now (c : StoreCall V) s s' :
  t <= now -> same_from t s s' -> same_from now (store_call now c s).2 (store_call now c s').2.
Proof.
  intros Hle [Ht Hg]. split; [by rewrite !store_call_ttl|]. intros now' j Hn.
  assert (HT : HasTimeToLive s = HasTimeToLive s') by (unfold HasTimeToLive; by rewrite Ht).
  destruct c as [k|k|k v u|k k'|k|]; simpl.
  - apply Hg. lia.
  - apply Hg. lia.
  - pose proof (get_create now now' s k v u j) as H1. pose proof (get_create now now' s' k v u j) as H2.
    destruct (Create now s k v u), (Create now s' k v u). simpl in *.
    rewrite H1, H2, HT, Ht. case_decide; [done|]. apply Hg. lia.
  - pose proof (get_rename now now' s k k' j Hn) as H1.
    pose proof (get_rename now now' s' k k' j Hn) as H2.
    destruct (Rename now s k k'), (Rename now s' k k'). simpl in *.
    rewrite H1, H2, !Hg by lia. done.
  - pose proof (get_delete now' s k j) as H1. pose proof (get_delete now' s' k j) as H2.
    simpl in *. rewrite H1, H2. case_decide; [done|]. apply Hg. lia.
  - pose proof (get_clear now' s j) as H1. pose proof (get_clear now' s' j) as H2.
    destruct (Clear s), (Clear s'). simpl in *. by rewrite H1, H2.
Qed.

#[export] Instance store_call_proper now (c : StoreCall V) :
  Proper (same_from now ==> same_from now) (fun s => (store_call now c s).2).
Proof. intros s s' Hs. apply (same_from_call now); [lia|done]. Qed.

(** Calls in the order of time, none before [t], and the time of the last. *)
Fixpoint in_order (t : Timestamp) (cs : list (Timestamp * StoreCall V)) : Prop :=
  match cs with [] => True | (now, _) :: cs => t <= now /\ in_order now cs end.

Fixpoint last_time (t : Timestamp) (cs : list (Timestamp * StoreCall V)) : Timestamp :=
  match cs with [] => t | (now, _) :: cs => last_time now cs end.

Lemma same_from_calls t cs s s' :
  in_order t cs -> same_from t s s' ->
  same_from (last_time t cs) (run_calls store_call cs s).2 (run_calls store_call cs s').2.
Proof.
  revert t s s'. induction cs as [|[now c] cs IH]; intros t s s'; [done|].
  simpl. intros [Hle Ho] Hs. pose proof (same_from_call t now c s s' Hle Hs) as Hc.
  destruct (store_call now c s) as [r s1], (store_call now c s') as [r' s1'].
  pose proof (IH now s1 s1' Ho Hc).
  by destruct (run_calls store_call cs s1), (run_calls store_call cs s1').
Qed.

End live.

(** ** Compaction of a log with expiries *)

Section expiry.
Context {V : Type} `{BinaryValueLaws V}.
Implicit Types (e : RadishEvent V) (es : list (RadishEvent V)) (s : RadishStore V)
  (events : gmap bytes (RadishEvent V)) (entries : list (bytes * RadishEvent V)).

(** The expiries written for one key never decrease: so they are written when
    the clock of a database with a time to live does not go back, and a
    compaction, which keeps one event per key in no particular order, leaves
    them so. *)
Definition expires_no_earlier e e' : Prop :=
  m_type e = CREATE -> m_type e' = CREATE -> m_key e = m_key e' -> m_timestamp e <= m_timestamp e'.

Definition expiries_ordered es : Prop := StronglySorted expires_no_earlier es.

(** The value an entry shows at an instant. *)
Definition shown (now : Timestamp) (o : option (RadishEvent V)) : option V :=
  match o with
  | Some e => if now <? m_timestamp e then m_payload e else None
  | None => None
  end.

(** From [t] on the entries show what the store gives, and none expires after
    a value that the events to come, [es], give its key. *)
Record shows (t : Timestamp) events es s : Prop := {
  shows_ttl : HasTimeToLive s = true;
  shows_values : forall now k, t <= now -> Get now s k = shown now (events !! k);
  shows_bound : forall k e, events !! k = Some e -> Forall (expires_no_earlier e) es;
}.

Lemma shows_step t now now' events s e es :
  Forall event_wf (e :: es) -> m_type e <> RENAME -> now <= t -> create_map events ->
  Forall (expires_no_earlier e) es -> shows t events (e :: es) s ->
  shows t (compact_step now events e) es (store_call now' (call_of e) s).2.
Proof.
  intros Hwf Hnr Hnow Hm Hx [HT Hv Hb]. apply Forall_cons in Hwf as [[_ Hc] Hwf]. split.
  { unfold HasTimeToLive in *. by rewrite store_call_ttl. }
  - intros t' j Ht. unfold compact_step.
    destruct Hc as [(E & [k Ek] & Er & v & Ep & _)|[(E & _)|
      [(E & [k Ek] & _ & _)|(E & Ek & _ & _)]]]; [|done| |]; unfold call_of; rewrite E, ?Ek, ?Ep; simpl.
    + pose proof (get_create now' t' s k v (Some (m_timestamp e)) j) as Hg.
      destruct (Create now' s k v _) as [r s']. simpl in *. rewrite Hg, HT.
      destruct (negb (m_timestamp e =? -1) && (m_timestamp e <? now))%bool eqn:Es; zify_bool.
      * case_decide as Hj; [subst j|by apply Hv]. rewrite (proj2 (Z.ltb_ge _ _)) by lia.
        unfold shown. destruct (events !! k) as [x|] eqn:Ex; [|done].
        destruct (Hm k x Ex) as (_ & Etx & Ekx).
        pose proof (Forall_inv (Hb k x Ex) Etx E ltac:(congruence)).
        by rewrite (proj2 (Z.ltb_ge _ _)) by lia.
      * rewrite lookup_insert. case_decide; [by simpl; rewrite Ep|by apply Hv].
    + pose proof (get_delete t' s k j) as Hg. simpl in *. rewrite Hg, lookup_delete.
      case_decide; [done|by apply Hv].
    + pose proof (get_clear t' s j) as Hg. destruct (Clear s). simpl in *. by rewrite Hg, lookup_empty.
  - assert (Hold : forall j x, events !! j = Some x -> Forall (expires_no_earlier x) es)
      by (intros j x Hj; exact (Forall_inv_tail (Hb j x Hj))).
    intros j x. unfold compact_step. destruct (_ && _ && _)%bool; [apply Hold|].
    destruct Hc as [(E & [k Ek] & Er & v & Ep & _)|[(E & _)|
      [(E & [k Ek] & _ & _)|(E & Ek & _ & _)]]]; [|done| |]; unfold call_of; rewrite E, ?Ek, ?Ep; simpl.
    + rewrite lookup_insert. case_decide; [by intros [= <-]|apply Hold].
    + intros [_ Hj]%lookup_delete_Some. by eapply Hold.
    + by rewrite lookup_empty.
Qed.

Lemma shows_new t ttl es : ttl <> -1 -> shows t ∅ es (NewStore ttl).
Proof. intros Ht. split; [unfold HasTimeToLive; simpl; by apply Z.eqb_neq in Ht as ->|done|done]. Qed.

Lemma shows_compacted t now now' es events s :
  Forall event_wf es -> Forall (fun e => m_type e <> RENAME) es -> expiries_ordered es ->
  (forall i, now i <= t) -> create_map events -> shows t events es s ->
  shows t (compacted now es events) [] (replayed now' es s).
Proof.
  revert now now' events s.
  induction es as [|e es IH]; intros now now' events s Hw Hr Hx Hn Hm Hs; [done|].
  apply StronglySorted_cons in Hx as [Hx Hxs]. pose proof Hw as Hw'.
  apply Forall_cons in Hw as [He Hw]. apply Forall_cons in Hr as [Hre Hr]. simpl.
  apply IH; [done|done|done|done|by apply compact_step_map|by apply shows_step].
Qed.

(** A store filled with the surviving entries shows what they show. *)
Lemma get_replayed_creates now t' entries s :
  Forall (fun '(k, e) => event_wf e /\ m_type e = CREATE /\ m_key e = Some k) entries ->
  NoDup entries.*1 -> HasTimeToLive s = true ->
  forall j, Get t' (replayed now entries.*2 s) j
    = match (list_to_map entries : gmap bytes (RadishEvent V)) !! j with
      | Some e => shown t' (Some e)
      | None => Get t' s j
      end.
Proof.
  intros Hf. revert now s. induction Hf as [|[k e] entries ([_ Hc] & E & Ek) _ IH];
    intros now s Hnd HT j; [done|].
  rewrite fmap_cons in *. cbn [replayed fst snd list_to_map foldr] in *.
  apply NoDup_cons in Hnd as [Hk Hnd]. rewrite E in Hc.
  destruct Hc as [(_ & _ & _ & v & Ev & _)|[(E' & _)|[(E' & _)|(E' & _)]]]; try discriminate.
  rewrite IH; [ |done|unfold HasTimeToLive in *; by rewrite store_call_ttl].
  unfold call_of. rewrite E, Ek, Ev. simpl.
  pose proof (get_create (now O) t' s k v (Some (m_timestamp e)) j) as Hg.
  destruct (Create (now O) s k v _) as [r s']. simpl in *. rewrite Hg, HT, lookup_insert.
  case_decide as Hj; [subst j|done].
  rewrite not_elem_of_list_to_map_1 by done. by rewrite Ev.
Qed.

Lemma list_to_map_kept now events entries j :
  entries ≡ₚ map_to_list events ->
  (list_to_map (base.filter (fun x => kept now x = true) entries) : gmap bytes (RadishEvent V)) !! j
  = match events !! j with
    | Some e => if kept now (j, e) then Some e else None
    | None => None
    end.
Proof.
  intros Hp.
  assert (Hnd : NoDup (base.filter (fun x => kept now x = true) entries).*1).
  { apply (sublist_NoDup _ entries.*1); [rewrite Hp; apply NoDup_fst_map_to_list|].
    apply fmap_sublist, sublist_filter. }
  apply option_eq. intros e. rewrite <- elem_of_list_to_map by done.
  rewrite list_elem_of_filter, Hp, elem_of_map_to_list.
  split; [intros [Hk ->]; by rewrite Hk|].
  destruct (events !! j) as [x|]; [|done]. destruct (kept now (j, x)) eqn:Ek; [|done].
  by intros [= ->].
Qed.

(** What is dropped when the entries are written is not shown any more. *)
Lemma get_surviving now now' t events entries s ttl t' j :
  create_map events -> entries ≡ₚ map_to_list events -> (forall k, now' k <= t) ->
  ttl <> -1 -> t <= t' -> s = NewStore ttl ->
  Get t' (replayed now (surviving now' entries) s) j = shown t' (events !! j).
Proof.
  intros Hm Hp Hn Httl Ht ->.
  assert (HT : HasTimeToLive (NewStore (V := V) ttl) = true)
    by (unfold HasTimeToLive; simpl; by apply Z.eqb_neq in Httl as ->).
  assert (Hf : Forall (fun '(k, e) => event_wf e /\ m_type e = CREATE /\ m_key e = Some k)
    (base.filter (fun x => kept now' x = true) entries)).
  { apply Forall_forall. intros [k e] [_ Hin]%list_elem_of_filter. rewrite Hp in Hin.
    apply elem_of_map_to_list in Hin. by apply Hm. }
  unfold surviving. rewrite get_replayed_creates; [|exact Hf| |exact HT].
  - rewrite (list_to_map_kept now' events) by done.
    destruct (events !! j) as [e|] eqn:Ee; [|done].
    destruct (kept now' (j, e)) eqn:Ek; [done|]. unfold kept in Ek. simpl in *.
    apply negb_false_iff, andb_prop in Ek as [_ Ek]. zify_bool. specialize (Hn j).
    by rewrite (proj2 (Z.ltb_ge _ _)) by lia.
  - apply (sublist_NoDup _ entries.*1); [rewrite Hp; apply NoDup_fst_map_to_list|].
    apply fmap_sublist, sublist_filter.
Qed.

End expiry.

(** ** Properties *)

Section properties.
Context {V : Type} `{BinaryValueLaws V}.
Implicit Types (es : list (RadishEvent V)).

(** C14: compacting the log of a database with a time to live, in which no key
    was renamed and no later value of a key expires before an earlier one, keeps
    every value that can still be seen: a database opened on the compacted log answers every [Get], from
    the end of the compaction on and after any further calls, like one opened on
    the old log. *)
Theorem compaction_keeps_live_values (io : IoEnv) now now' order filename disk disk' ttl t
    es tail content now1 now2 :
  disk !! filename = Some content -> log_file es tail content -> incomplete tail ->
  ttl <> -1 -> Forall (fun e => m_type e <> RENAME) es -> expiries_ordered es ->
  (forall i, now i <= t) -> (forall k, now' k <= t) ->
  (forall events, order events ≡ₚ map_to_list events) ->
  Compact io now now' order (writer_of filename) disk = (disk', Ok tt) ->
  exists s s', Replay io_ok now1 (writer_of filename) (NewStore ttl) disk = Ok s
    /\ Replay io_ok now2 (writer_of filename) (NewStore ttl) disk' = Ok s'
    /\ forall cs, in_order t cs ->
         same_from (last_time t cs) (run_calls store_call cs s).2 (run_calls store_call cs s').2.
Proof.
  intros Hd Hl Ht Httl Hr Hx Hn Hn' Hord Hc. pose proof (log_file_wf _ _ _ Hl) as Hw.
  destruct (compact_spec _ _ _ _ (writer_of filename) _ _ _ _ _ _ eq_refl eq_refl Hd Hl Ht Hord Hc)
    as (_ & H2 & _).
  destruct (H2 eq_refl) as (_ & content' & Hd' & Hl').
  eexists _, _. split; [by eapply replay_log|].
  split; [eapply (replay_log _ (writer_of filename)); [exact Hd'|exact Hl'|apply incomplete_nil]|].
  intros cs Hcs. apply same_from_calls; [done|]. split; [by rewrite !replayed_ttl|].
  destruct (shows_compacted t now now1 es ∅ _ Hw Hr Hx Hn create_map_empty
    (shows_new t ttl es Httl)) as [_ Hv _].
  intros t' k Hle. rewrite Hv by done. symmetry.
  by eapply get_surviving; [apply (compacted_map now es ∅ Hw create_map_empty)|apply Hord|..].
Qed.

End properties.

(** ** Witnesses *)

Definition expiry_example : list (RadishEvent bytes) :=
  [create_event 10 (str "a") (str "1"); create_event 20 (str "a") (str "2");
   create_event 90 (str "b") (str "3"); delete_event (str "c")].

Definition expiry_disk : Disk := {[ str "f" := log_bytes expiry_example ]}.

Lemma expiry_example_file : log_file expiry_example [] (log_bytes expiry_example).
Proof.
  apply log_bytes_file. repeat apply Forall_cons_2; [| | | |apply Forall_nil_2].
  - apply storable_string_create; by vm_compute.
  - apply storable_string_create; by vm_compute.
  - apply storable_string_create; by vm_compute.
  - apply storable_delete. by vm_compute.
Qed.

Lemma compaction_keeps_live_values_witness :
  let disk' := (Compact io_ok (fun _ => 15) (fun _ => 50) map_order (writer_of (str "f")) expiry_disk).1 in
  exists s s', Replay io_ok (fun _ => 50) (writer_of (str "f")) (NewStore (V := bytes) 10) expiry_disk = Ok s
    /\ Replay io_ok (fun _ => 50) (writer_of (str "f")) (NewStore (V := bytes) 10) disk' = Ok s'
    /\ Get 60 s (str "b") = Get 60 s' (str "b").
Proof.
  intros disk'.
  destruct (compaction_keeps_live_values (V := bytes) io_ok (fun _ => 15) (fun _ => 50) map_order
    (str "f") expiry_disk disk' 10 50 expiry_example [] (log_bytes expiry_example)
    (fun _ => 50) (fun _ => 50)) as (s & s' & H1 & H2 & H3).
  - reflexivity.
  - exact expiry_example_file.
  - exact incomplete_nil.
  - discriminate.
  - repeat apply Forall_cons_2; try apply Forall_nil_2; discriminate.
  - repeat constructor; unfold expires_no_earlier; vm_compute; discriminate.
  - intros _. discriminate.
  - intros _. discriminate.
  - intros events. reflexivity.
  - vm_compute. reflexivity.
  - exists s, s'. split; [exact H1|]. split; [exact H2|].
    apply (H3 [] I). discriminate.
Defined.
