(* ===== verification/PersistenceLog.v ===== *)
(** include/persistence/PersistenceLog.h: the facade over the log writer.

    Each method forwards to the writer while it holds the mutex of the log;
    one call is one step of the model. *)

From S2P Require Import Prelude Streams BinaryFile RadishEvent RadishStore LogWriter.

Record PersistenceLog (V : Type) := MkPersistenceLog { m_writer : LogWriter V }.
Arguments MkPersistenceLog {V}.
Arguments m_writer {V}.

Section facade.
Context {V : Type} `{BinaryValue V}.

Definition NewPersistenceLog (io : IoEnv) (filename path : bytes) (disk : Disk) :
    Disk * result (PersistenceLog V) :=
  match NewLogWriter io filename path disk with
  | (disk, Ok w) => (disk, Ok (MkPersistenceLog w))
  | (disk, Throw e) => (disk, Throw e)
  | (disk, Undefined) => (disk, Undefined)
  end.

Definition Append (io : IoEnv) (p : PersistenceLog V) (row : RadishEvent V) (disk : Disk) :
    Disk * result unit :=
  LogWriter.Append io (m_writer p) row disk.

Definition Replay (io : IoEnv) (now : nat -> Timestamp) (p : PersistenceLog V)
    (store : RadishStore V) (disk : Disk) : result (RadishStore V) :=
  LogWriter.Replay io now (m_writer p) store disk.

Definition Apply (now : Timestamp) (p : PersistenceLog V) (store : RadishStore V)
    (event : RadishEvent V) : result (bool * RadishStore V) :=
  LogWriter.ApplyEvent now store event.

Definition Compact (io : IoEnv) (now : nat -> Timestamp) (now' : bytes -> Timestamp)
    (order : gmap bytes (RadishEvent V) -> list (bytes * RadishEvent V))
    (p : PersistenceLog V) (disk : Disk) : Disk * result unit :=
  LogWriter.Compact io now now' order (m_writer p) disk.

End facade.
