(* ===== verification/RadishDB.v ===== *)
(** include/RadishDB.h: the public facade, a store with an optional log.

    Each public method holds the database's [shared_mutex] (exclusively when
    it writes), so one call is one step of the model; [Concurrency] shows that
    threads cannot tell the difference. A call takes the
    database and the disk and returns both, changed or not, with its result. *)

From S2P Require Import Prelude Streams BinaryFile EventType RadishEvent LogReader.
From S2P Require Import CompactStrategy RadishStore LogWriter Compaction.
From S2P Require Import PersistenceLog.

Inductive PersistenceMode := Flush | Disabled.

Record RadishDB (V : Type) := MkRadishDB {
  m_store : RadishStore V;
  m_persistence : option (PersistenceLog V);
}.
Arguments MkRadishDB {V}.
Arguments m_store {V}.
Arguments m_persistence {V}.

Section database.
Context {V : Type} `{BinaryValue V}.

(** The database and the disk. *)
Abbreviation State := (RadishDB V * Disk)%type.

(** The static [ApplyEvent], used when there is no log. *)
Definition ApplyEvent (now : Timestamp) (store : RadishStore V) (event : RadishEvent V) :
    result (bool * RadishStore V) :=
  if GetEventType event =? CREATE then
    let! key := deref (GetKey event) in
    let! payload := deref (GetPayload event) in
    Ok (true, (RadishStore.Create now store key payload (Some (GetTimestamp event))).2)
  else if GetEventType event =? RENAME then
    let! oldKey := deref (GetKey event) in
    let! newKey := deref (GetRenameKey event) in
    Ok (RadishStore.Rename now store oldKey newKey)
  else if GetEventType event =? DELETE then
    let! key := deref (GetKey event) in
    Ok (RadishStore.Delete store key)
  else if GetEventType event =? CLEAR then
    Ok (RadishStore.Clear store)
  else Throw (runtime_error (str "Unknown persistence event type")).

Definition Commit (io : IoEnv) (now : Timestamp) (event : RadishEvent V) (st : State) :
    State * result bool :=
  let '(db, disk) := st in
  let stagedStore := m_store db in
  let outcome :=
    match m_persistence db with
    | Some log => PersistenceLog.Apply now log stagedStore event
    | None => ApplyEvent now stagedStore event
    end in
  match outcome with
  | Ok (applied, stagedStore) =>
      if negb applied then (st, Ok false)
      else
        let '(disk, appended) :=
          match m_persistence db with
          | Some log => PersistenceLog.Append io log event disk
          | None => (disk, Ok tt)
          end in
        match appended with
        | Ok _ =>
            let '(store, _) := Swap (m_store db) stagedStore in
            ((MkRadishDB store (m_persistence db), disk), Ok true)
        | Throw e => ((db, disk), Throw e)
        | Undefined => ((db, disk), Undefined)
        end
  | Throw e => (st, Throw e)
  | Undefined => (st, Undefined)
  end.

Definition InitializePersistence (io : IoEnv) (now : nat -> Timestamp) (filename : bytes)
    (mode : PersistenceMode) (store : RadishStore V) (disk : Disk) : Disk * result (RadishDB V) :=
  match mode with
  | Disabled => (disk, Ok (MkRadishDB store None))
  | Flush =>
      match NewPersistenceLog io (filename ++ str ".radish") (str "./") disk with
      | (disk, Ok log) =>
          (disk,
           let! store := PersistenceLog.Replay io now log store disk in
           Ok (MkRadishDB store (Some log)))
      | (disk, Throw e) => (disk, Throw e)
      | (disk, Undefined) => (disk, Undefined)
      end
  end.

(** The constructors, without and with a time to live. *)
Definition NewRadishDB (io : IoEnv) (now : nat -> Timestamp) (filename : bytes)
    (mode : PersistenceMode) (disk : Disk) : Disk * result (RadishDB V) :=
  InitializePersistence io now filename mode (NewStore (-1)) disk.

Definition NewRadishDB_ttl (io : IoEnv) (now : nat -> Timestamp) (filename : bytes)
    (ttl : Timestamp) (mode : PersistenceMode) (disk : Disk) : Disk * result (RadishDB V) :=
  InitializePersistence io now filename mode (NewStore ttl) disk.

(** [Create] discards the result of [Commit]. [now] is read for the expiry. *)
Definition Create (io : IoEnv) (now : Timestamp) (key : bytes) (value : V) (st : State) :
    State * result unit :=
  let event := MkEvent CREATE (NewExpiryTimestamp now (m_store st.1)) (Some key) None (Some value) in
  let '(st, r) := Commit io now event st in
  (st, let! _ := r in Ok tt).

Definition Rename (io : IoEnv) (now : Timestamp) (oldKey newKey : bytes) (st : State) :
    State * result bool :=
  Commit io now (MkEvent RENAME (-1) (Some oldKey) (Some newKey) None) st.

Definition Delete (io : IoEnv) (now : Timestamp) (key : bytes) (st : State) :
    State * result bool :=
  Commit io now (MkEvent DELETE (-1) (Some key) None None) st.

Definition Clear (io : IoEnv) (now : Timestamp) (st : State) : State * result bool :=
  Commit io now (MkEvent CLEAR (-1) None None None) st.

Definition Compact (io : IoEnv) (now : nat -> Timestamp) (now' : bytes -> Timestamp)
    (order : gmap bytes (RadishEvent V) -> list (bytes * RadishEvent V)) (st : State) :
    State * result unit :=
  let '(db, disk) := st in
  match m_persistence db with
  | Some log =>
      let '(disk, r) := PersistenceLog.Compact io now now' order log disk in
      ((db, disk), r)
  | None => (st, Ok tt)
  end.

Definition Get (now : Timestamp) (key : bytes) (db : RadishDB V) : option V :=
  RadishStore.Get now (m_store db) key.

Definition Scan (now : bytes -> Timestamp) (entries : list (bytes * V)) (db : RadishDB V) :
    list bytes :=
  RadishStore.Scan now entries (m_store db).

Definition Size (now : bytes -> Timestamp) (entries : list (bytes * V)) (db : RadishDB V) : Z :=
  RadishStore.Size now entries (m_store db).

Definition Exists (now : Timestamp) (key : bytes) (db : RadishDB V) : bool :=
  RadishStore.Exists now (m_store db) key.

Definition IsExpired (now : Timestamp) (key : bytes) (db : RadishDB V) : bool :=
  RadishStore.IsExpired now (m_store db) key.

End database.

(** ** Mutations

    One call on the mutating interface; [Create] always reports success. *)

Inductive Mutation (V : Type) :=
  | MutCreate (key : bytes) (value : V)
  | MutRename (oldKey newKey : bytes)
  | MutDelete (key : bytes)
  | MutClear.
Arguments MutCreate {V}.
Arguments MutRename {V}.
Arguments MutDelete {V}.
Arguments MutClear {V}.

Section invariant.
Context {V : Type} `{BinaryValueLaws V}.
Implicit Types (e : RadishEvent V) (es : list (RadishEvent V)) (m : Mutation V)
  (st : RadishDB V * Disk).

Definition mutate (io : IoEnv) (now : Timestamp) m st : (RadishDB V * Disk) * result bool :=
  match m with
  | MutCreate k v => let '(st, r) := Create io now k v st in (st, let! _ := r in Ok true)
  | MutRename k k' => Rename io now k k' st
  | MutDelete k => Delete io now k st
  | MutClear => Clear io now st
  end.

(** The event the call commits. *)
Definition event_of (now : Timestamp) (store : RadishStore V) m : RadishEvent V :=
  match m with
  | MutCreate k v => create_event (NewExpiryTimestamp now store) k v
  | MutRename k k' => rename_event k k'
  | MutDelete k => delete_event k
  | MutClear => clear_event
  end.

(** The contract's version of the call (include/RadishStore.h). *)
Definition mutation_call (now : Timestamp) (store : RadishStore V) m : StoreCall V :=
  match m with
  | MutCreate k v => CallCreate k v (Some (NewExpiryTimestamp now store))
  | MutRename k k' => CallRename k k'
  | MutDelete k => CallDelete k
  | MutClear => CallClear
  end.

Definition valid_mutation m : Prop :=
  match m with MutCreate _ v => valid v | _ => True end.

Definition db_file (filename : bytes) : bytes := path_join (str "./") (filename ++ str ".radish").

(** The database is open on its log: the log holds the events [es], and the
    store is what they make of an empty one, read at the instants [now]. *)
Definition db_inv (filename : bytes) (ttl : Timestamp) (now : nat -> Timestamp) es st : Prop :=
  m_persistence st.1 = Some (MkPersistenceLog (writer_of (db_file filename)))
  /\ (exists content, st.2 !! db_file filename = Some content /\ log_file es [] content)
  /\ m_store st.1 = replayed now es (NewStore ttl).

(** ** Lemmas *)

Lemma new_expiry_in_ll now (s : RadishStore V) : in_ll (NewExpiryTimestamp now s).
Proof.
  unfold NewExpiryTimestamp. destruct (HasTimeToLive s); [|by vm_compute].
  pose proof (wrap_signed_range 8 (now + m_ttl s) ltac:(lia)) as Hr.
  change (2 ^ (8 * Z.of_nat 8 - 1)) with 9223372036854775808 in Hr.
  unfold in_ll, add_ll, LLONG_MIN, LLONG_MAX. lia.
Qed.

Lemma event_of_wf now s m : valid_mutation m -> event_wf (event_of now s m).
Proof.
  intros Hv. assert (H1 : in_ll (-1)) by by vm_compute.
  destruct m as [k v|k k'|k|]; simpl.
  - split; [apply new_expiry_in_ll|]. left. split_and!; eauto.
  - split; [done|]. right. left. split_and!; eauto.
  - split; [done|]. right. right. left. split_and!; eauto.
  - split; [done|]. right. right. right. done.
Qed.

Lemma call_of_event_of now s m : call_of (event_of now s m) = mutation_call now s m.
Proof. by destruct m. Qed.

(** The two copies of [ApplyEvent] agree. *)
Lemma apply_event_static now (s : RadishStore V) e :
  ApplyEvent now s e = LogWriter.ApplyEvent now s e.
Proof. done. Qed.

Lemma commit_eq io now e st :
  event_wf e ->
  let s' := store_call now (call_of e) (m_store st.1) in
  Commit io now e st =
  if call_applied s'.1 then
    let '(disk, r) := match m_persistence st.1 with
                      | Some log => PersistenceLog.Append io log e st.2
                      | None => (st.2, Ok tt)
                      end in
    match r with
    | Ok _ => ((MkRadishDB s'.2 (m_persistence st.1), disk), Ok true)
    | Throw ex => ((st.1, disk), Throw ex)
    | Undefined => ((st.1, disk), Undefined)
    end
  else (st, Ok false).
Proof.
  intros Hw. destruct st as [db disk]. cbn [fst snd]. unfold Commit.
  assert (Ha : match m_persistence db with
    | Some log => PersistenceLog.Apply now log (m_store db) e
    | None => ApplyEvent now (m_store db) e
    end = Ok (call_applied (store_call now (call_of e) (m_store db)).1,
              (store_call now (call_of e) (m_store db)).2)).
  { rewrite <- (apply_event_call now (m_store db) e Hw).
    destruct (m_persistence db); [done | apply apply_event_static]. }
  rewrite Ha. destruct (call_applied _); cbn [negb]; [|done].
  match goal with |- (let '(_, _) := ?x in _) = _ => destruct x as [d [[]| |]] end;
    [|done|done].
  unfold Swap. by destruct ((store_call now (call_of e) (m_store db)).2).
Qed.

Lemma mutate_commit io now m st :
  valid_mutation m -> mutate io now m st = Commit io now (event_of now (m_store st.1) m) st.
Proof.
  intros Hv. destruct m as [k v|k k'|k|]; try done. cbn [mutate event_of].
  unfold Create. fold (create_event (NewExpiryTimestamp now (m_store st.1)) k v).
  rewrite commit_eq by exact (event_of_wf now (m_store st.1) (MutCreate k v) Hv).
  unfold call_of. simpl. destruct (RadishStore.Create _ _ _ _ _) as [t s']. simpl.
  match goal with |- context [let '(_, _) := ?x in match _ with _ => _ end] =>
    destruct x as [d [[]| |]] end; done.
Qed.

(** A call that reports no change makes none. *)
Lemma not_applied_abs now (c : StoreCall V) (s : RadishStore V) :
  call_applied (store_call now c s).1 = false -> abs (store_call now c s).2 = abs s.
Proof.
  destruct c as [k|k|k v t|k k'|k|]; simpl; try done.
  - by destruct (RadishStore.Create _ _ _ _ _).
  - unfold RadishStore.Rename. destruct (RadishStore.m_data s !! k); [|done].
    by destruct (RadishStore.IsExpired now s k).
  - intros Hf%bool_decide_eq_false. destruct (delete_abs s k) as [_ Hd]. simpl in Hd.
    rewrite Hd. apply delete_id. etrans; [apply lookup_abs|].
    by destruct (RadishStore.m_data s !! k); [destruct Hf; eauto|].
  - unfold RadishStore.Clear. by case_decide.
Qed.

(** One commit on an open database, whatever the environment does. *)
Lemma commit_inv io now e st st' r filename ttl nw es :
  db_inv filename ttl nw es st -> event_wf e -> Commit io now e st = (st', r) ->
  match r with
  | Ok true =>
      m_store st'.1 = (store_call now (call_of e) (m_store st.1)).2
      /\ db_inv filename ttl (fun i => if decide (i = length es) then now else nw i) (es ++ [e]) st'
  | Ok false => st' = st
  | Throw _ =>
      st'.1 = st.1
      /\ (m_store st.1 = m_store st'.1)
      /\ exists content', st'.2 !! db_file filename = Some content'
         /\ (log_file (es ++ [e]) [] content'
             \/ exists tail, log_file es tail content' /\ incomplete tail)
  | Undefined => False
  end.
Proof.
  intros (Hp & (content & Hd & Hl) & Hs) Hw. rewrite commit_eq by done.
  destruct (call_applied _) eqn:Ea; [|by intros [= <- <-]].
  rewrite Hp. unfold PersistenceLog.Append. cbn [m_writer].
  destruct (LogWriter.Append io (writer_of (db_file filename)) e st.2) as [disk' ra] eqn:E.
  destruct (append_log io (writer_of (db_file filename)) e es content st.2 disk' ra Hd Hl Hw E)
    as (content' & Hdisk & Hlog & Hok).
  pose proof (append_defined _ _ _ _ _ _ E) as Hdef.
  cbn [writer_of m_filename] in Hdisk.
  assert (Hd' : disk' !! db_file filename = Some content')
    by (rewrite Hdisk; apply lookup_insert_eq).
  destruct ra as [[]|ex|]; [| |done]; intros [= <- <-]; simpl.
  - split; [done|]. split_and!; [done| by eauto |]. simpl. rewrite Hs, replayed_app.
    rewrite decide_True by done. do 2 f_equal. apply replayed_ext.
    intros i Hi. by rewrite decide_False by lia.
  - split_and!; [done|done|by eauto].
Qed.

(** Opening a database on an existing log. *)
Lemma open_existing now filename ttl disk content es tail :
  disk !! db_file filename = Some content -> log_file es tail content -> incomplete tail ->
  NewRadishDB_ttl io_ok now filename ttl Flush disk
  = (disk, Ok (MkRadishDB (replayed now es (NewStore ttl))
                 (Some (MkPersistenceLog (writer_of (db_file filename)))))).
Proof.
  intros Hd Hl Ht. unfold NewRadishDB_ttl, InitializePersistence, NewPersistenceLog, NewLogWriter.
  fold (db_file filename). rewrite (ensure_existing _ _ es tail content) by done.
  fold (writer_of (V := V) (db_file filename)). unfold PersistenceLog.Replay. cbn [m_writer].
  by rewrite (replay_log now (writer_of (db_file filename)) (NewStore ttl) es tail content).
Qed.

Lemma open_fresh now filename ttl disk :
  disk !! db_file filename = None ->
  NewRadishDB_ttl (V := V) io_ok now filename ttl Flush disk
  = (<[db_file filename := kHeader]> disk,
     Ok (MkRadishDB (NewStore ttl) (Some (MkPersistenceLog (writer_of (db_file filename)))))).
Proof.
  intros Hd. unfold NewRadishDB_ttl, InitializePersistence, NewPersistenceLog, NewLogWriter.
  fold (db_file filename). rewrite ensure_fresh by done.
  fold (writer_of (V := V) (db_file filename)). unfold PersistenceLog.Replay. cbn [m_writer].
  by rewrite (replay_log now (writer_of (db_file filename)) (NewStore ttl) [] [] kHeader
    _ (lookup_insert_eq _ _ _) log_file_header incomplete_nil).
Qed.

End invariant.

(** ** Reachable databases

    Opened on a fresh file, changed by calls on a disk that does not fail,
    compacted whatever the disk does, closed and opened again. [allowed]
    restricts the calls a theorem covers; a compaction is covered in a database
    without a time to live where no key is renamed to itself, because only
    there it keeps the store. *)

Section reachable.
Context {V : Type} `{BinaryValueLaws V}.
Implicit Types (e : RadishEvent V) (es : list (RadishEvent V)) (m : Mutation V)
  (st : RadishDB V * Disk).

Definition is_rename m : bool := match m with MutRename _ _ => true | _ => false end.
Definition is_self_rename m : bool :=
  match m with MutRename k k' => bool_decide (k = k') | _ => false end.

Definition no_renames (allowed : Mutation V -> Prop) : Prop :=
  forall m, allowed m -> is_rename m = false.
Definition no_self_renames (allowed : Mutation V -> Prop) : Prop :=
  forall m, allowed m -> is_self_rename m = false.

(** The order in which the compaction's hash map is iterated. *)
Definition map_iteration (order : gmap bytes (RadishEvent V) -> list (bytes * RadishEvent V)) :
    Prop :=
  forall events, order events ≡ₚ map_to_list events.

Inductive reachable (filename : bytes) (ttl : Timestamp) (allowed : Mutation V -> Prop) :
    RadishDB V * Disk -> Prop :=
  | reach_open now disk disk' db :
      disk !! db_file filename = None ->
      NewRadishDB_ttl io_ok now filename ttl Flush disk = (disk', Ok db) ->
      reachable filename ttl allowed (db, disk')
  | reach_mutate now m st st' r :
      reachable filename ttl allowed st -> valid_mutation m -> allowed m ->
      mutate io_ok now m st = (st', r) ->
      reachable filename ttl allowed st'
  | reach_compact io now now' order st st' r :
      reachable filename ttl allowed st ->
      ttl = -1 -> no_self_renames allowed -> map_iteration order ->
      Compact io now now' order st = (st', r) ->
      reachable filename ttl allowed st'
  | reach_restart now st disk' db :
      reachable filename ttl allowed st ->
      NewRadishDB_ttl io_ok now filename ttl Flush st.2 = (disk', Ok db) ->
      reachable filename ttl allowed (db, disk').

(** What every logged event satisfies. *)
Definition event_allowed (ttl : Timestamp) (allowed : Mutation V -> Prop) e : Prop :=
  (ttl = -1 -> persistent_event e)
  /\ (no_renames allowed -> m_type e <> RENAME)
  /\ (no_self_renames allowed -> no_self_rename e).

Lemma event_of_allowed ttl allowed now (s : RadishStore V) m :
  m_ttl s = ttl -> allowed m -> event_allowed ttl allowed (event_of now s m).
Proof.
  intros Ht Ha. split_and!.
  - intros ->. unfold persistent_event. destruct m; try done. intros _. simpl.
    unfold NewExpiryTimestamp, HasTimeToLive. by rewrite Ht.
  - intros Hr. specialize (Hr m Ha). by destruct m.
  - intros Hr. specialize (Hr m Ha). unfold no_self_rename. destruct m; try done.
    intros _. simpl in *. apply bool_decide_eq_false in Hr. congruence.
Qed.

(** On a disk that does not fail, a commit logs its event or changes nothing. *)
Lemma commit_io_ok now e st st' r filename es content :
  m_persistence st.1 = Some (MkPersistenceLog (writer_of (db_file filename))) ->
  st.2 !! db_file filename = Some content -> log_file es [] content ->
  event_wf e -> Commit io_ok now e st = (st', r) ->
  let s' := store_call now (call_of e) (m_store st.1) in
  if call_applied s'.1 then
    (r = Ok true /\ st'.1 = MkRadishDB s'.2 (m_persistence st.1)
     /\ exists content', st'.2 !! db_file filename = Some content'
        /\ log_file (es ++ [e]) [] content')
    \/ (exists x, r = Throw x) /\ st' = st
  else r = Ok false /\ st' = st.
Proof.
  intros Hp Hd Hl Hw Hc. cbn zeta. rewrite commit_eq in Hc by done.
  destruct (call_applied _); [|by injection Hc as <- <-].
  rewrite Hp in Hc |- *. unfold PersistenceLog.Append in Hc. cbn [m_writer] in Hc.
  destruct (LogWriter.Append io_ok (writer_of (db_file filename)) e st.2) as [disk' ra] eqn:E.
  destruct (append_log io_ok (writer_of (db_file filename)) e es content st.2 disk' ra Hd Hl Hw E)
    as (content' & Hdisk' & _ & Hok').
  pose proof (append_defined _ _ _ _ _ _ E) as Hdef. cbn [writer_of m_filename] in Hdisk'.
  destruct ra as [[]|ex|]; [| |done]; injection Hc as <- <-.
  - left. split_and!; [done|done|]. exists content'. split; [|by apply Hok'].
    simpl. rewrite Hdisk'. apply lookup_insert_eq.
  - right. split; [by eexists|]. destruct st as [db disk]. simpl in *. f_equal.
    destruct (record_of e) as [rec|ex'|] eqn:Er; [| |by destruct (record_of_defined e)].
    + assert (He : storable e).
      { split; [done|]. unfold record_of in Er. inv_result. exists r.
        destruct (kMaxRecordSize <? zlen r) eqn:El; [done|]. zify_bool. done. }
      destruct (append_ok (writer_of (db_file filename)) e disk He) as [d Hok].
      by rewrite Hok in E.
    + destruct (append_spec _ _ _ _ _ _ E) as (out & Hdisk & Hpre & _). rewrite Er in Hpre.
      apply prefix_nil_inv in Hpre as ->. cbn [writer_of m_filename] in Hdisk.
      destruct Hdisk as [[-> _]|Hdisk]; [done|]. rewrite Hd in Hdisk. simpl in Hdisk.
      by rewrite app_nil_r, insert_id in Hdisk.
Qed.

Lemma commit_ok_inv now e st st' r filename ttl nw es :
  db_inv filename ttl nw es st -> event_wf e -> Commit io_ok now e st = (st', r) ->
  db_inv filename ttl nw es st'
  \/ db_inv filename ttl (fun i => if decide (i = length es) then now else nw i) (es ++ [e]) st'.
Proof.
  intros Hinv Hw Hc. pose proof (commit_inv _ _ _ _ _ _ _ _ _ _ Hinv Hw Hc) as Hr.
  pose proof Hinv as (Hp & (content & Hd & Hl) & _).
  pose proof (commit_io_ok _ _ _ _ _ _ _ _ Hp Hd Hl Hw Hc) as Hio. cbn zeta in Hio.
  destruct (call_applied _); [destruct Hio as [(-> & _)|[_ ->]]|destruct Hio as [_ ->]];
    [by right; apply Hr|by left|by left].
Qed.

Lemma open_fresh_inv now filename ttl disk disk' db :
  disk !! db_file filename = None ->
  NewRadishDB_ttl (V := V) io_ok now filename ttl Flush disk = (disk', Ok db) ->
  db_inv filename ttl now [] (db, disk').
Proof.
  intros Hd. rewrite open_fresh by done. intros [= <- <-].
  split_and!; [done| |done]. exists kHeader. split; [apply lookup_insert_eq|apply log_file_header].
Qed.

Lemma open_inv now filename ttl nw es st disk' db :
  db_inv filename ttl nw es st ->
  NewRadishDB_ttl (V := V) io_ok now filename ttl Flush st.2 = (disk', Ok db) ->
  db_inv filename ttl now es (db, disk').
Proof.
  intros (_ & (content & Hd & Hl) & _). rewrite (open_existing now filename ttl st.2 content es [])
    by (done || apply incomplete_nil).
  intros [= <- <-]. split_and!; [done|by eauto|done].
Qed.

Lemma db_inv_ttl filename ttl nw es st :
  db_inv filename ttl nw es st -> m_ttl (m_store st.1) = ttl.
Proof. intros (_ & _ & ->). by rewrite replayed_ttl. Qed.

(** What a compaction leaves is allowed in the log as well. *)
Lemma surviving_allowed ttl allowed now now' order es :
  Forall event_wf es -> Forall (event_allowed ttl allowed) es -> map_iteration order ->
  Forall (event_allowed ttl allowed) (surviving now' (order (compacted now es ∅))).
Proof.
  intros Hw Hp Hord. apply Forall_forall. intros e He.
  apply list_elem_of_fmap in He as ([k x] & -> & [_ Hin]%list_elem_of_filter).
  rewrite (Hord _) in Hin. apply elem_of_map_to_list in Hin. simpl.
  destruct (compacted_map now es ∅ Hw create_map_empty k x Hin) as (_ & E & _).
  split_and!.
  - intros Ht _. revert Hin.
    apply (compacted_stamped (fun t => t = -1) now es ∅); [done| |apply stamped_empty].
    eapply Forall_impl; [exact Hp|]. intros y (Hy & _). by apply Hy.
  - intros _. by rewrite E.
  - intros _. unfold no_self_rename. by rewrite E.
Qed.

Lemma compact_inv io now now' order filename nw es allowed st st' r :
  db_inv filename (-1) nw es st -> Forall (event_allowed (-1) allowed) es ->
  no_self_renames allowed -> map_iteration order ->
  Compact io now now' order st = (st', r) ->
  st'.1 = st.1
  /\ exists es', db_inv filename (-1) nw es' st' /\ Forall (event_allowed (-1) allowed) es'.
Proof.
  intros (Hp & (content & Hd & Hl) & Hs) Hes Hr Hord Hc. destruct st as [db disk].
  simpl in *. rewrite Hp in Hc. unfold PersistenceLog.Compact in Hc. simpl in Hc.
  destruct (LogWriter.Compact _ _ _ _ _ _) as [disk' rc] eqn:E. injection Hc as <- <-.
  split; [done|].
  destruct (compact_spec _ _ _ _ (writer_of (db_file filename)) _ _ _ _ _ _ eq_refl eq_refl Hd Hl
    incomplete_nil Hord E) as (H1 & H2 & _).
  assert (Hpe : Forall persistent_event es)
    by (eapply Forall_impl; [exact Hes|]; intros e (He & _); by apply He).
  pose proof (log_file_wf _ _ _ Hl) as Hw.
  destruct (decide (rc = Ok tt)) as [->|Hn].
  - destruct (H2 eq_refl) as (_ & content' & Hd' & Hl').
    exists (surviving now' (order (compacted now es ∅))). split; [|by apply surviving_allowed].
    split_and!; [done|by eauto|]. simpl. rewrite Hs. symmetry. apply replay_surviving with now.
    + done.
    + done.
    + eapply Forall_impl; [exact Hes|]. by intros e (_ & _ & He); apply He.
    + apply Hord.
  - exists es. split; [|done]. split_and!; [done| |done]. exists content. split; [|done].
    change (disk' !! m_filename (writer_of (V := V) (db_file filename)) = Some content).
    by rewrite (H1 Hn).
Qed.

(** Every reachable database is open on a well-formed log of its history. *)
Lemma reachable_inv filename ttl allowed st :
  reachable filename ttl allowed st ->
  exists nw es, db_inv filename ttl nw es st /\ Forall (event_allowed ttl allowed) es.
Proof.
  induction 1 as [now disk disk' db Hd Ho|now m st st' r _ (nw & es & Hinv & Hes) Hv Ha Hm
    |io now now' order st st' r _ (nw & es & Hinv & Hes) -> Hr Hord Hc
    |now st disk' db _ (nw & es & Hinv & Hes) Ho].
  - exists now, []. split; [by eapply open_fresh_inv | constructor].
  - rewrite mutate_commit in Hm by done.
    pose proof (event_of_wf now (m_store st.1) m Hv) as Hw.
    destruct (commit_ok_inv _ _ _ _ _ _ _ _ _ Hinv Hw Hm) as [Hi|Hi]; [by eauto|].
    eexists _, _. split; [exact Hi|]. apply Forall_app. split; [done|].
    apply Forall_singleton. apply event_of_allowed; [by eapply db_inv_ttl|done].
  - exists nw. by eapply compact_inv.
  - exists now, es. split; [by eapply open_inv | done].
Qed.

Lemma allowed_clock ttl (allowed : Mutation V -> Prop) es :
  ttl = -1 \/ no_renames allowed ->
  Forall (event_allowed ttl allowed) es ->
  HasTimeToLive (NewStore (V := V) ttl) = false \/ Forall (fun e => m_type e <> RENAME) es.
Proof.
  intros [->|Hr] Hes; [by left|]. right. eapply Forall_impl; [exact Hes|].
  intros e (_ & He & _). by apply He.
Qed.

(** An open database is what its log replays to. *)
Lemma reopen now filename ttl nw es st :
  db_inv filename ttl nw es st ->
  HasTimeToLive (NewStore (V := V) ttl) = false \/ Forall (fun e => m_type e <> RENAME) es ->
  NewRadishDB_ttl io_ok now filename ttl Flush st.2 = (st.2, Ok st.1).
Proof.
  intros (Hp & (content & Hd & Hl) & Hs) Hc.
  rewrite (open_existing now filename ttl st.2 content es [] Hd Hl incomplete_nil).
  do 2 f_equal. destruct st as [[store log] disk]. simpl in *. subst. f_equal.
  by apply replayed_clock.
Qed.

(** The database with a mutation applied to its store. *)
Definition committed (now : Timestamp) m (db : RadishDB V) : RadishDB V :=
  MkRadishDB (store_call now (mutation_call now (m_store db) m) (m_store db)).2
    (m_persistence db).

Lemma commit_committed io now m st st' :
  event_wf (event_of now (m_store st.1) m) ->
  Commit io now (event_of now (m_store st.1) m) st = (st', Ok true) ->
  st'.1 = committed now m st.1.
Proof.
  intros Hw. rewrite commit_eq by done. unfold committed. rewrite <- call_of_event_of.
  destruct (call_applied _); [|done].
  match goal with |- (let '(_, _) := ?x in _) = _ -> _ => destruct x as [d [[]| |]] end; [|done|done].
  by intros [= <-].
Qed.

(** The log after a failed append, complete or with a torn tail. *)
Lemma reopen_after_failure now now' filename ttl allowed nw es m st disk content :
  db_inv filename ttl nw es st ->
  Forall (event_allowed ttl allowed) (es ++ [event_of now (m_store st.1) m]) ->
  ttl = -1 \/ no_renames allowed ->
  disk !! db_file filename = Some content ->
  log_file (es ++ [event_of now (m_store st.1) m]) [] content
  \/ (exists tail, log_file es tail content /\ incomplete tail) ->
  exists db, NewRadishDB_ttl io_ok now' filename ttl Flush disk = (disk, Ok db)
    /\ (db = st.1 \/ db = committed now m st.1).
Proof.
  intros Hinv Hes Ht Hd Hl. set (e := event_of now (m_store st.1) m) in *.
  pose proof Hinv as (Hp & _ & Hs). destruct st as [[store log] disk0]. simpl in *. subst log.
  destruct Hl as [Hl|(tail & Hl & Hi)];
    (eexists; split; [eapply open_existing; [exact Hd|exact Hl|done || apply incomplete_nil]|]).
  - right. unfold committed. simpl. f_equal.
    rewrite (replayed_clock now' (fun i => if decide (i = length es) then now else nw i))
      by (by eapply allowed_clock).
    rewrite replayed_app, decide_True by done. unfold e at 1. rewrite call_of_event_of.
    rewrite (replayed_ext _ nw), <- Hs; [done|]. intros i Hlt. by rewrite decide_False by lia.
  - left. f_equal. rewrite Hs. apply replayed_clock. eapply allowed_clock; [exact Ht|].
    by apply Forall_app in Hes as [Hes _].
Qed.

(** A commit that cannot fail: no log, or a disk that takes the record. *)
Lemma commit_succeeds io now e st :
  event_wf e ->
  m_persistence st.1 = None \/ io = io_ok /\ storable e ->
  let s' := store_call now (call_of e) (m_store st.1) in
  exists disk, Commit io now e st =
    (if call_applied s'.1 then (MkRadishDB s'.2 (m_persistence st.1), disk) else st,
     Ok (call_applied s'.1))
    /\ (m_persistence st.1 = None -> disk = st.2).
Proof.
  intros Hw Hc. cbn zeta. rewrite commit_eq by done.
  destruct (call_applied _); [|by exists st.2].
  destruct (m_persistence st.1) as [log|] eqn:Hp; [|by exists st.2].
  destruct Hc as [|[-> Hs]]; [done|]. unfold PersistenceLog.Append.
  destruct (append_ok (m_writer log) e st.2 Hs) as [d ->]. by exists d.
Qed.

Lemma mutate_succeeds io now m st :
  valid_mutation m -> is_self_rename m = false ->
  m_persistence st.1 = None \/ io = io_ok /\ storable (event_of now (m_store st.1) m) ->
  exists db disk b, mutate io now m st = ((db, disk), Ok b)
    /\ m_persistence db = m_persistence st.1
    /\ (m_persistence st.1 = None -> disk = st.2)
    /\ m_ttl (m_store db) = m_ttl (m_store st.1)
    /\ exists reply,
         spec_call (m_ttl (m_store st.1)) now (mutation_call now (m_store st.1) m)
           (abs (m_store st.1)) = (reply, abs (m_store db))
         /\ b = call_applied reply.
Proof.
  intros Hv Hr Hc. rewrite mutate_commit by done.
  destruct (commit_succeeds io now _ st (event_of_wf now (m_store st.1) m Hv) Hc)
    as (disk & -> & Hd). rewrite call_of_event_of.
  assert (Hsr : self_rename (mutation_call now (m_store st.1) m) = false) by by destruct m.
  pose proof (store_call_spec now (mutation_call now (m_store st.1) m) (m_store st.1) Hsr) as Hspec.
  destruct (call_applied _) eqn:Ea.
  - eexists _, disk, true. split_and!; [done|done|done|apply store_call_ttl|].
    eexists. split; [exact Hspec|done].
  - destruct st as [db disk0]. eexists db, disk0, false. split_and!; [done|done|done|done|].
    eexists. split; [rewrite Hspec; f_equal; by apply not_applied_abs|done].
Qed.

(** *** Opening a log without expiries in a database with a time to live *)

Definition all_expired (s : RadishStore V) : Prop :=
  HasTimeToLive s = true /\ forall k, is_Some (RadishStore.m_data s !! k) -> m_ttlData s !! k = Some (-1).

Lemma all_expired_get now s k : -1 <= now -> all_expired s -> RadishStore.Get now s k = None.
Proof.
  intros Hn [HT Ha]. unfold RadishStore.Get, RadishStore.IsExpired. rewrite HT.
  destruct (RadishStore.m_data s !! k) as [v|] eqn:E; [|done].
  rewrite (Ha k) by eauto. by rewrite Z.geb_leb, (proj2 (Z.leb_le _ _)).
Qed.

Lemma all_expired_call now e s :
  -1 <= now -> event_wf e -> persistent_event e -> all_expired s ->
  all_expired (store_call now (call_of e) s).2.
Proof.
  intros Hn [Ht Hc] Hp Hs. pose proof Hs as [HT Ha].
  assert (HT' : HasTimeToLive (store_call now (call_of e) s).2 = true)
    by (unfold HasTimeToLive in *; by rewrite store_call_ttl).
  split; [done|]. clear HT'. unfold persistent_event in Hp.
  destruct Hc as [(E & [k Ek] & Er & v & Ep & _)|[(E & [k Ek] & [k' Er] & _)|
    [(E & [k Ek] & _ & _)|(E & Ek & _ & _)]]]; unfold call_of; rewrite E, Ek, ?Er, ?Ep in *; simpl.
  - rewrite (Hp eq_refl). unfold RadishStore.Create.
    change (HasTimeToLive (MkStore _ _ _)) with (HasTimeToLive s). rewrite HT. simpl.
    intros j. rewrite !lookup_insert. case_decide; [done|apply Ha].
  - unfold RadishStore.Rename. destruct (RadishStore.m_data s !! k) as [v|] eqn:El; [|done].
    pose proof (all_expired_get now s k Hn Hs) as Hg. unfold RadishStore.Get in Hg.
    rewrite El in Hg. by destruct (RadishStore.IsExpired now s k).
  - intros j. rewrite !lookup_delete. case_decide; [by intros []|apply Ha].
  - intros j. unfold RadishStore.Clear. case_decide as Hem; simpl; [|by intros []].
    rewrite Hem. by intros [].
Qed.

Lemma all_expired_replayed now es s :
  (forall i, -1 <= now i) -> Forall event_wf es -> Forall persistent_event es -> all_expired s ->
  all_expired (replayed now es s).
Proof.
  intros Hn Hw. revert now s Hn. induction Hw as [|e es He _ IH]; intros now s Hn Hp Hs; [done|].
  inversion Hp; subst. simpl. apply IH; [done|done|]. by apply all_expired_call.
Qed.

End reachable.

(** ** Properties *)

Section properties.
Context {V : Type} `{BinaryValueLaws V}.
Implicit Types (m : Mutation V) (st : RadishDB V * Disk).

(** Closing a reachable database and opening it again, at any time, gives
    the same database and leaves the disk as it was. A time to live is covered
    when no key was renamed. *)
Theorem restart_restores_state filename ttl allowed st now :
  reachable filename ttl allowed st -> ttl = -1 \/ no_renames allowed ->
  NewRadishDB_ttl io_ok now filename ttl Flush st.2 = (st.2, Ok st.1).
Proof.
  intros Hr Ht. destruct (reachable_inv _ _ _ _ Hr) as (nw & es & Hinv & Hes).
  eapply reopen; [exact Hinv|]. by eapply allowed_clock.
Qed.

(** C1: one mutation, whatever the disk does during it, is atomic and durable in
    a database whose earlier appends met no fault, and which has no time to live
    or no renames. When it returns, reopening the file gives the database in
    memory, which is the one before the call with the mutation applied if it
    reported a change. When it throws, the database in memory is unchanged and
    reopening the file gives the one before the call or the one after it. (Not
    covered: what follows a failed append, [acknowledged_write_lost_after_torn_append],
    and renames with a time to live, [restart_revives_overwritten_value].) *)
Theorem mutation_is_atomic_and_durable filename ttl allowed st io now m st' r now' :
  reachable filename ttl allowed st -> valid_mutation m -> allowed m ->
  ttl = -1 \/ no_renames allowed ->
  mutate io now m st = (st', r) ->
  match r with
  | Ok b =>
      st'.1 = (if b then committed now m st.1 else st.1)
      /\ NewRadishDB_ttl io_ok now' filename ttl Flush st'.2 = (st'.2, Ok st'.1)
  | Throw _ =>
      st'.1 = st.1
      /\ exists db, NewRadishDB_ttl io_ok now' filename ttl Flush st'.2 = (st'.2, Ok db)
        /\ (db = st.1 \/ db = committed now m st.1)
  | Undefined => False
  end.
Proof.
  intros Hr Hv Ha Ht Hm. destruct (reachable_inv _ _ _ _ Hr) as (nw & es & Hinv & Hes).
  rewrite mutate_commit in Hm by done.
  pose proof (event_of_wf now (m_store st.1) m Hv) as Hw.
  pose proof (event_of_allowed ttl allowed now (m_store st.1) m (db_inv_ttl _ _ _ _ _ Hinv) Ha) as Hae.
  assert (Hes' : Forall (event_allowed ttl allowed) (es ++ [event_of now (m_store st.1) m]))
    by (apply Forall_app; split; [done | by apply Forall_singleton]).
  pose proof (commit_inv _ _ _ _ _ _ _ _ _ _ Hinv Hw Hm) as Hc.
  destruct r as [[|]|ex|]; [| | |done].
  - destruct Hc as [Hs Hi]. split; [|eapply reopen; [exact Hi | by eapply allowed_clock]].
    by eapply commit_committed.
  - subst st'. split; [done|]. eapply reopen; [exact Hinv | by eapply allowed_clock].
  - destruct Hc as (Hdb & _ & content & Hd & Hl). split; [done|].
    by eapply reopen_after_failure.
Qed.

(** On a disk that does not fail, and when its event fits a record, a
    mutation other than renaming a key to itself returns the reply of the
    store's contract and leaves the map of that contract; without a log it does
    so whatever the disk does, which it leaves alone. *)
Theorem mutation_meets_contract io now m st :
  valid_mutation m -> is_self_rename m = false ->
  m_persistence st.1 = None \/ io = io_ok /\ storable (event_of now (m_store st.1) m) ->
  exists db disk b reply, mutate io now m st = ((db, disk), Ok b)
    /\ (m_persistence st.1 = None -> disk = st.2)
    /\ spec_call (m_ttl (m_store st.1)) now (mutation_call now (m_store st.1) m)
         (abs (m_store st.1)) = (reply, abs (m_store db))
    /\ b = call_applied reply.
Proof.
  intros Hv Hr Hc. destruct (mutate_succeeds io now m st Hv Hr Hc)
    as (db & disk & b & H1 & _ & H2 & _ & reply & H3 & H4).
  by exists db, disk, b, reply.
Qed.

(** Compacting a reachable database in which no key is renamed to itself,
    whatever the disk does and whether or not the call returns, leaves the
    database in memory as it was, and reopening the file gives the same one. *)
Theorem compaction_keeps_database filename allowed st io now now' order st' r now2 :
  reachable filename (-1) allowed st -> no_self_renames allowed -> map_iteration order ->
  Compact io now now' order st = (st', r) ->
  st'.1 = st.1 /\ NewRadishDB_ttl io_ok now2 filename (-1) Flush st'.2 = (st'.2, Ok st.1).
Proof.
  intros Hr Hn Hord Hc. destruct (reachable_inv _ _ _ _ Hr) as (nw & es & Hinv & Hes).
  destruct (compact_inv _ _ _ _ _ _ _ _ _ _ _ Hinv Hes Hn Hord Hc) as (Hdb & es' & Hinv' & Hes').
  split; [done|]. rewrite <- Hdb. eapply reopen; [exact Hinv'|]. apply (allowed_clock (-1) allowed); [by left | exact Hes'].
Qed.

(** Opening the file of a database without a time to live in one that has
    a time to live expires every key at once: no key is found, now or later. *)
Theorem reopening_with_ttl_expires_all filename allowed st ttl now db disk :
  reachable filename (-1) allowed st -> ttl <> -1 -> (forall i, -1 <= now i) ->
  NewRadishDB_ttl io_ok now filename ttl Flush st.2 = (disk, Ok db) ->
  forall now' k, -1 <= now' -> Get now' k db = None.
Proof.
  intros Hr Ht Hn Ho now' k Hn'. destruct (reachable_inv _ _ _ _ Hr) as (nw & es & Hinv & Hes).
  destruct Hinv as (_ & (content & Hd & Hl) & _).
  rewrite (open_existing now filename ttl st.2 content es [] Hd Hl incomplete_nil) in Ho.
  injection Ho as _ <-. unfold Get. simpl. apply all_expired_get; [done|].
  apply all_expired_replayed; [done| by eapply log_file_wf | |].
  - eapply Forall_impl; [exact Hes|]. intros e (He & _). by apply He.
  - split; [|by intros j []]. unfold HasTimeToLive. simpl. by apply Z.eqb_neq in Ht as ->.
Qed.

End properties.

(** ** Limits of the persistence

    Two histories of a string database in which the file does not keep what the
    database in memory answered. *)

Definition fresh_db (ttl : Timestamp) : RadishDB bytes * Disk :=
  match NewRadishDB_ttl io_ok (fun _ => 0) (str "d") ttl Flush ∅ with
  | (disk, Ok db) => (db, disk)
  | (disk, _) => (MkRadishDB (NewStore ttl) None, disk)
  end.

(** A device that takes [n] bytes of the next write. *)
Definition io_short (n : nat) : IoEnv := MkIoEnv true None true (Some n) false true true true.

Definition example_create (k v : string) : Mutation bytes := MutCreate (str k) (str v).

Definition torn_history (n : nat) : RadishDB bytes * Disk :=
  let st := (mutate io_ok 0 (example_create "a" "1") (fresh_db (-1))).1 in
  let st := (mutate (io_short n) 0 (example_create "b" "2") st).1 in
  (mutate io_ok 0 (example_create "c" "3") st).1.

Definition renamed_history : RadishDB bytes * Disk :=
  let st := (mutate io_ok 0 (example_create "a" "new") (fresh_db 10)).1 in
  let st := (mutate io_ok 5 (example_create "b" "old") st).1 in
  (mutate io_ok 6 (MutRename (str "a") (str "b")) st).1.

Definition example_db : RadishDB bytes * Disk :=
  (mutate io_ok 0 (example_create "a" "1") (fresh_db (-1))).1.

Lemma fresh_db_reachable ttl allowed :
  reachable (V := bytes) (str "d") ttl allowed (fresh_db ttl).
Proof.
  unfold fresh_db. destruct (NewRadishDB_ttl (V := bytes) io_ok (fun _ => 0) (str "d") ttl Flush ∅)
    as [disk r] eqn:E.
  pose proof E as E'. rewrite open_fresh in E' by done. destruct r as [db| |]; [|done|done].
  eapply (reach_open _ _ _ _ ∅); [done | exact E].
Qed.

Lemma example_db_reachable :
  reachable (V := bytes) (str "d") (-1) (fun m => is_self_rename m = false) example_db.
Proof.
  eapply reach_mutate; [apply fresh_db_reachable| | |apply surjective_pairing]; done.
Qed.

Lemma example_db_allowed : reachable (V := bytes) (str "d") (-1) (fun _ => True) example_db.
Proof.
  eapply reach_mutate; [apply fresh_db_reachable| | |apply surjective_pairing]; done.
Qed.

(** An append that fails leaves its torn record in the log, and the next
    one is written after it. A write acknowledged after such a failure can be
    gone after a restart, and the whole file can be impossible to open. *)
Theorem acknowledged_write_lost_after_torn_append :
  (exists st e st' st'', reachable (V := bytes) (str "d") (-1) (fun _ => True) st
    /\ mutate (io_short 2) 0 (example_create "b" "2") st = (st', Throw e)
    /\ mutate io_ok 0 (example_create "c" "3") st' = (st'', Ok true)
    /\ Get 0 (str "c") st''.1 = Some (str "3")
    /\ exists db disk, NewRadishDB_ttl (V := bytes) io_ok (fun _ => 0) (str "d") (-1) Flush st''.2 = (disk, Ok db)
      /\ Get 0 (str "c") db = None)
  /\ exists disk e,
       NewRadishDB_ttl (V := bytes) io_ok (fun _ => 0) (str "d") (-1) Flush (torn_history 20).2
       = (disk, Throw e).
Proof.
  split.
  - exists example_db.
    destruct (throw_pair (mutate (io_short 2) 0 (example_create "b" "2") example_db)) as [e He];
      [vm_compute; reflexivity|].
    exists e, (mutate (io_short 2) 0 (example_create "b" "2") example_db).1, (torn_history 2).
    split_and!; [exact example_db_allowed|exact He| | |].
    + apply (result_pair (mutate io_ok 0 (example_create "c" "3")
        (mutate (io_short 2) 0 (example_create "b" "2") example_db).1)). vm_compute. reflexivity.
    + vm_compute. reflexivity.
    + destruct (ok_pair (fun db => bool_decide (Get 0 (str "c") db = None))
        (NewRadishDB_ttl (V := bytes) io_ok (fun _ => 0) (str "d") (-1) Flush (torn_history 2).2))
        as (db & Hdb & Hg%bool_decide_eq_true); [vm_compute; reflexivity|].
      eexists db, _. split; [exact Hdb|exact Hg].
  - destruct (throw_pair (NewRadishDB_ttl (V := bytes) io_ok (fun _ => 0) (str "d") (-1) Flush
      (torn_history 20).2)) as [e He]; [vm_compute; reflexivity|].
    eexists _, e. exact He.
Qed.

(** The file of a new database is written in place: when that fails, a part of
    the header is left, and the file can not be opened any more. *)
Theorem failed_creation_blocks_file :
  exists disk e e', NewRadishDB_ttl (V := bytes) (io_short 4) (fun _ => 0) (str "d") (-1) Flush ∅ = (disk, Throw e)
    /\ NewRadishDB_ttl (V := bytes) io_ok (fun _ => 0) (str "d") (-1) Flush disk = (disk, Throw e').
Proof.
  set (r := NewRadishDB_ttl (V := bytes) (io_short 4) (fun _ => 0) (str "d") (-1) Flush ∅).
  destruct (throw_pair r) as [e He]; [vm_compute; reflexivity|].
  destruct (throw_pair (NewRadishDB_ttl (V := bytes) io_ok (fun _ => 0) (str "d") (-1) Flush r.1))
    as [e' He']; [vm_compute; reflexivity|].
  exists r.1, e, e'. split; [exact He|]. rewrite He'. f_equal.
Qed.

(** With a time to live, a restart can bring back a value that a rename
    had overwritten: the rename is skipped when the log is read, because the
    renamed key has expired by then, and the overwritten value has not. *)
Theorem restart_revives_overwritten_value :
  reachable (V := bytes) (str "d") 10 (fun _ => True) renamed_history
  /\ Get 6 (str "b") renamed_history.1 = Some (str "new")
  /\ Get 12 (str "b") renamed_history.1 = None
  /\ exists db disk,
       NewRadishDB_ttl (V := bytes) io_ok (fun _ => 12) (str "d") 10 Flush renamed_history.2 = (disk, Ok db)
       /\ Get 12 (str "b") db = Some (str "old").
Proof.
  split_and!.
  - unfold renamed_history. cbn zeta.
    do 3 (eapply reach_mutate; [| | |apply surjective_pairing]; try done).
    apply fresh_db_reachable.
  - vm_compute. reflexivity.
  - vm_compute. reflexivity.
  - destruct (ok_pair (fun db => bool_decide (Get 12 (str "b") db = Some (str "old")))
      (NewRadishDB_ttl (V := bytes) io_ok (fun _ => 12) (str "d") 10 Flush renamed_history.2))
      as (db & Hdb & Hg%bool_decide_eq_true); [vm_compute; reflexivity|].
    eexists db, _. split; [exact Hdb|exact Hg].
Qed.

(** ** Witnesses *)

Lemma restart_restores_state_witness :
  Get 7 (str "a") example_db.1 = Some (str "1")
  /\ NewRadishDB_ttl (V := bytes) io_ok (fun _ => 5) (str "d") (-1) Flush example_db.2
     = (example_db.2, Ok example_db.1).
Proof.
  split; [vm_compute; reflexivity|].
  apply (restart_restores_state (V := bytes) (str "d") (-1) _ example_db (fun _ => 5)
    example_db_reachable). by left.
Defined.

Lemma mutation_is_atomic_and_durable_witness :
  let st' := (mutate io_ok 3 (example_create "b" "2") example_db).1 in
  NewRadishDB_ttl (V := bytes) io_ok (fun _ => 5) (str "d") (-1) Flush st'.2
  = (st'.2, Ok (committed 3 (example_create "b" "2") example_db.1)).
Proof.
  intros st'.
  destruct (mutation_is_atomic_and_durable (V := bytes) (str "d") (-1) _ example_db io_ok 3
    (example_create "b" "2") st' (Ok true) (fun _ => 5) example_db_reachable) as [H1 H2].
  - vm_compute. reflexivity.
  - reflexivity.
  - by left.
  - apply result_pair. vm_compute. reflexivity.
  - rewrite H2, H1. reflexivity.
Defined.

Lemma mutation_meets_contract_witness :
  exists db disk b,
    mutate io_ok 3 (MutRename (str "a") (str "b")) example_db = ((db, disk), Ok b).
Proof.
  destruct (mutation_meets_contract (V := bytes) io_ok 3 (MutRename (str "a") (str "b")) example_db)
    as (db & disk & b & reply & Hm & _).
  - exact I.
  - reflexivity.
  - right. split; [reflexivity|]. apply storable_rename. vm_compute. discriminate.
  - exists db, disk, b. exact Hm.
Defined.

Lemma compaction_keeps_database_witness :
  let st' := (Compact io_ok (fun _ => 0) (fun _ => 0) map_order example_db).1 in
  NewRadishDB_ttl (V := bytes) io_ok (fun _ => 5) (str "d") (-1) Flush st'.2
  = (st'.2, Ok example_db.1).
Proof.
  intros st'.
  apply (compaction_keeps_database (V := bytes) (str "d") _ example_db io_ok (fun _ => 0)
    (fun _ => 0) map_order st' (Ok tt) (fun _ => 5) example_db_reachable).
  - intros m Hm. exact Hm.
  - intros events. reflexivity.
  - apply result_pair. vm_compute. reflexivity.
Defined.

Lemma reopening_with_ttl_expires_all_witness :
  exists db disk,
    NewRadishDB_ttl (V := bytes) io_ok (fun _ => 5) (str "d") 1000 Flush example_db.2 = (disk, Ok db)
    /\ Get 6 (str "a") db = None.
Proof.
  destruct (ok_pair (fun _ => true)
    (NewRadishDB_ttl (V := bytes) io_ok (fun _ => 5) (str "d") 1000 Flush example_db.2))
    as (db & E & _); [vm_compute; reflexivity|].
  eexists db, _. split; [exact E|].
  eapply (reopening_with_ttl_expires_all (V := bytes) (str "d") _ example_db 1000 (fun _ => 5)
    db _ example_db_reachable); [discriminate|intros _; discriminate|exact E|discriminate].
Defined.
