(* ===== verification/TimedRestart.v ===== *)
(** A database with a time to live whose keys are renamed, opened again later.

    A log does not say when an event happened: a rename is replayed at the time
    of the restart, and skipped when the value has expired by then. So what a
    restart gives depends on its time, and it is not always what was in memory
    ([restart_revives_overwritten_value]). This file says what holds anyway.

    No code is modelled here: the calls are those of include/RadishDB.h, made at
    times that do not decrease, on a disk that works, without compactions: these
    restarts follow a crash, not a shutdown. A restart reads one time
    from the clock for the whole log: it takes less than the millisecond the
    clock counts, or nothing expires meanwhile. *)

From S2P Require Import Prelude Streams BinaryFile EventType RadishEvent LogReader RadishStore LogWriter PersistenceLog.
From S2P Require Import RadishDB.
Open Scope Z_scope.

(** ** Stores that saw the same events at different times *)

Section later.
Context {V : Type}.
Implicit Types (m o r : gmap bytes (@Spec.entry V)) (s : RadishStore V) (t u : Timestamp).

(** What a rename makes of the map of a store, to itself included. *)
Definition moved (k k' : bytes) (x : Spec.entry) o r : Prop :=
  forall j, r !! j = if decide (k = j) then None else if decide (k' = j) then Some x else o !! j.

Lemma rename_cases t s k k' :
  (exists x, abs s !! k = Some x /\ Spec.alive t x = true
     /\ moved k k' x (abs s) (abs (RadishStore.Rename t s k k').2))
  \/ (forall x, abs s !! k = Some x -> Spec.alive t x = false)
     /\ abs (RadishStore.Rename t s k k').2 = abs s.
Proof.
  destruct (decide (k = k')) as [<-|Hne].
  - destruct (rename_self_abs t s k) as [H1 H2]. rewrite H1 in H2. unfold Spec.lookup_alive in H2.
    destruct (abs s !! k) as [x|]; [destruct (Spec.alive t x) eqn:Ex|]; simpl in H2; rewrite H2.
    + left. exists x. split_and!; [done..|]. intros j. rewrite lookup_delete. by case_decide.
    + right. by split; [intros ? [= <-]|].
    + by right.
  - destruct (rename_abs t s k k' Hne) as [_ ->]. unfold Spec.move.
    destruct (abs s !! k) as [x|]; [destruct (Spec.alive t x) eqn:Ex|]; simpl.
    + left. exists x. split_and!; [done..|]. intros j. rewrite lookup_insert, lookup_delete.
      by repeat case_decide; subst.
    + right. by split; [intros ? [= <-]|].
    + by right.
Qed.

Lemma rename_applied t s k k' :
  (RadishStore.Rename t s k k').1 = bool_decide (is_Some (Spec.lookup_alive t (abs s) k)).
Proof.
  destruct (decide (k = k')) as [<-|Hne]; [apply rename_self_abs|].
  destruct (rename_abs t s k k' Hne) as [-> _]. unfold Spec.move, Spec.lookup_alive.
  destruct (abs s !! k) as [x|]; [|done]. by destruct (Spec.alive t x).
Qed.

Lemma alive_before t u (x : @Spec.entry V) : t <= u -> Spec.alive u x = true -> Spec.alive t x = true.
Proof. unfold Spec.alive. destruct (x.2); [|done]. intros ? ?. zify_bool. lia. Qed.

(** [r] is what [o] becomes when its events are applied at [u]: it keeps what
    is alive at [u], and what is alive in it has a key of [o] that was alive
    at [t]. *)
Definition later t u o r : Prop :=
  (forall k x, o !! k = Some x -> Spec.alive u x = true -> r !! k = Some x)
  /\ (forall k x, r !! k = Some x -> Spec.alive u x = true ->
        exists y, o !! k = Some y /\ Spec.alive t y = true).

(** The calls that are logged. *)
Definition logged (c : StoreCall V) : Prop :=
  match c with
  | CallGet _ | CallExists _ | CallCreate _ _ None => False
  | _ => True
  end.

(** The two sides of a rename: what is alive at [u] has moved on both; on the
    left a value may have moved that has expired by then. *)
Lemma later_moved t u o r k k' x o' r' :
  later t u o r -> r !! k = Some x -> moved k k' x r r' ->
  (exists y, o !! k = Some y /\ Spec.alive t y = true /\ moved k k' y o o') -> later t u o' r'.
Proof.
  intros [Hkeep Hback] Hx Hr (y & Hy & Ht & Ho). split; intros j z; rewrite Hr, Ho.
  - intros Hz Hu. repeat case_decide; [done| |by apply Hkeep].
    injection Hz as ->. by rewrite (Hkeep k z Hy Hu) in Hx.
  - intros Hz Hu. repeat case_decide; [done|by eauto|by eapply Hback].
Qed.

Lemma later_skipped t u o r k k' y o' :
  later t u o r -> (forall x, r !! k = Some x -> Spec.alive u x = false) ->
  o !! k = Some y -> Spec.alive t y = true -> moved k k' y o o' -> later t u o' r.
Proof.
  intros [Hkeep Hback] Hr Hy Ht Ho. split; intros j z; rewrite Ho; intros Hz Hu.
  - repeat case_decide; [done| |by apply Hkeep]. injection Hz as ->.
    pose proof (Hr z (Hkeep k z Hy Hu)). congruence.
  - repeat case_decide; [|by eauto|by eapply Hback]. subst. pose proof (Hr z Hz). congruence.
Qed.

Lemma later_rename t now u k k' s s' :
  t <= now <= u -> later t u (abs s) (abs s') ->
  (RadishStore.Rename now s k k').1 = true \/ now = t ->
  later t u (abs (RadishStore.Rename now s k k').2) (abs (RadishStore.Rename u s' k k').2).
Proof.
  intros Hn Hl Ha. rewrite rename_applied in Ha. unfold Spec.lookup_alive in Ha.
  destruct (rename_cases now s k k') as [(y & Hy & Hnow & Ho)|[Hdead ->]],
    (rename_cases u s' k k') as [(x & Hx & Hu & Hr)|[Hr ->]]; [| | |done].
  - eapply later_moved; [done..|]. exists y. split_and!; [done| |done]. by apply (alive_before t now); [lia|].
  - eapply later_skipped; [done..| |done]. by apply (alive_before t now); [lia|].
  - destruct (proj2 Hl k x Hx Hu) as (y & Hy & Ht). pose proof (Hdead y Hy) as Hy'.
    destruct Ha as [Ha| ->]; [|congruence]. rewrite Hy, Hy' in Ha.
    by apply bool_decide_eq_true, is_Some_None in Ha.
Qed.

(** The same call on both sides, at [now] and at [u]. *)
Lemma later_call t now u c s s' :
  m_ttl s = m_ttl s' -> t <= now <= u -> later t u (abs s) (abs s') -> logged c ->
  call_applied (store_call now c s).1 = true \/ now = t ->
  later t u (abs (store_call now c s).2) (abs (store_call u c s').2).
Proof.
  intros Htt Hn Hl Hc Ha. destruct c as [k|k|k v [e|]|k k'|k|]; try done; simpl in *.
  - pose proof (create_abs now s k v (Some e)) as H1. pose proof (create_abs u s' k v (Some e)) as H2.
    destruct (RadishStore.Create now s k v (Some e)), (RadishStore.Create u s' k v (Some e)).
    simpl in *. rewrite H1, H2. unfold HasTimeToLive, Spec.insert_entry. rewrite <- Htt.
    clear H1 H2. destruct Hl as [Hkeep Hback].
    split; intros j x; rewrite !lookup_insert; case_decide; [done|by apply Hkeep| |by apply Hback].
    intros [= <-] Hu. eexists. split; [done|]. by apply (alive_before t u); [lia|].
  - pose proof (later_rename t now u k k' s s' Hn Hl) as Hr.
    destruct (RadishStore.Rename now s k k'), (RadishStore.Rename u s' k k'). by apply Hr.
  - destruct (delete_abs s k) as [_ H1], (delete_abs s' k) as [_ H2]. simpl in H1, H2. rewrite H1, H2.
    destruct Hl as [Hkeep Hback]. split; intros j x; rewrite !lookup_delete; case_decide;
      [done|by apply Hkeep|done|by apply Hback].
  - destruct (clear_abs s) as [_ H1], (clear_abs s') as [_ H2].
    destruct (RadishStore.Clear s), (RadishStore.Clear s'). simpl in *. rewrite H1, H2. by split; intros j x.
Qed.

End later.

(** ** Databases *)

Section timed.
Context {V : Type} `{BinaryValueLaws V}.
Implicit Types (e : RadishEvent V) (es : list (RadishEvent V)) (st : RadishDB V * Disk)
  (t u opened now : Timestamp).

Lemma logged_event e : logged (call_of e).
Proof.
  unfold call_of. destruct (m_type e =? CREATE); [by destruct (m_key e), (m_payload e)|].
  destruct (m_type e =? RENAME); [by destruct (m_key e), (m_renameKey e)|].
  destruct (m_type e =? DELETE); [by destruct (m_key e)|done].
Qed.

(** What a restart at [t] makes of the log [es]. *)
Definition replay_at t ttl es : RadishStore V := replayed (fun _ => t) es (NewStore ttl).

Lemma replay_at_app t ttl es e :
  replay_at t ttl (es ++ [e]) = (store_call t (call_of e) (replay_at t ttl es)).2.
Proof. apply (replayed_app (fun _ => t)). Qed.

Lemma replay_at_ttl t ttl es : m_ttl (replay_at t ttl es) = ttl.
Proof. apply replayed_ttl. Qed.

(** A restart and a later one. *)
Lemma replay_later t u ttl es : t <= u -> later t u (abs (replay_at t ttl es)) (abs (replay_at u ttl es)).
Proof.
  intros Hu. induction es as [|e es IH] using rev_ind.
  - split; intros k x Hx Ha; [done|]. exists x. by split; [|apply (alive_before t u)].
  - rewrite !replay_at_app. apply later_call; [by rewrite !replay_at_ttl|lia|done|apply logged_event|by right].
Qed.

(** A database last opened at [opened] and last changed before [now]. *)
Inductive timed (filename : bytes) (ttl : Timestamp) : Timestamp -> Timestamp -> RadishDB V * Disk -> Prop :=
  | timed_open now disk disk' db :
      disk !! db_file filename = None ->
      NewRadishDB_ttl io_ok (fun _ => now) filename ttl Flush disk = (disk', Ok db) ->
      timed filename ttl now now (db, disk')
  | timed_mutate opened before now (m : Mutation V) st st' r :
      timed filename ttl opened before st -> before <= now -> valid_mutation m ->
      mutate io_ok now m st = (st', r) ->
      timed filename ttl opened now st'
  | timed_restart opened before now st disk' db :
      timed filename ttl opened before st -> before <= now ->
      NewRadishDB_ttl io_ok (fun _ => now) filename ttl Flush st.2 = (disk', Ok db) ->
      timed filename ttl now now (db, disk').

(** The log of such a database, and what a later restart makes of it. *)
Definition timed_inv (filename : bytes) (ttl opened now : Timestamp) es st : Prop :=
  m_persistence st.1 = Some (MkPersistenceLog (writer_of (db_file filename)))
  /\ (exists content, st.2 !! db_file filename = Some content /\ log_file es [] content)
  /\ m_ttl (m_store st.1) = ttl
  /\ opened <= now
  /\ forall u, now <= u -> later opened u (abs (m_store st.1)) (abs (replay_at u ttl es)).

Lemma timed_inv_opened filename ttl now disk content es :
  disk !! db_file filename = Some content -> log_file es [] content ->
  timed_inv filename ttl now now es
    (MkRadishDB (replay_at now ttl es) (Some (MkPersistenceLog (writer_of (db_file filename)))), disk).
Proof.
  intros Hd Hl. split_and!; [done|by eauto|apply replay_at_ttl|lia|]. intros u Hu. by apply replay_later.
Qed.

Lemma timed_inv_mutate filename ttl opened before now es (m : Mutation V) st st' r :
  timed_inv filename ttl opened before es st -> before <= now -> valid_mutation m ->
  mutate io_ok now m st = (st', r) -> exists es', timed_inv filename ttl opened now es' st'.
Proof.
  intros (Hp & (content & Hd & Hl) & Ht & Ho & Hlater) Hb Hm. rewrite mutate_commit by done.
  set (e := event_of now (m_store st.1) m). intros Hc.
  pose proof (event_of_wf now (m_store st.1) m Hm) as Hw. fold e in Hw.
  assert (Hsame : timed_inv filename ttl opened now es st)
    by (split_and!; [done|by eauto|done|lia|intros u Hu; apply Hlater; lia]).
  pose proof (commit_io_ok _ _ _ _ _ _ _ _ Hp Hd Hl Hw Hc) as Hio. cbn zeta in Hio.
  destruct (call_applied _) eqn:Ea; [destruct Hio as [(_ & H1 & H2)|[_ ->]]|destruct Hio as [_ ->]];
    [|by eauto|by eauto].
  exists (es ++ [e]). unfold timed_inv. rewrite H1. cbn [m_persistence m_store].
  split_and!; [done|done|by rewrite store_call_ttl|lia|]. intros u Hu. rewrite replay_at_app.
  apply later_call; [by rewrite replay_at_ttl|lia|apply Hlater; lia|apply logged_event|by left].
Qed.

Lemma timed_has_log filename ttl opened now st :
  timed filename ttl opened now st -> exists es, timed_inv filename ttl opened now es st.
Proof.
  induction 1 as [now disk disk' db Hd Ho|opened before now m st st' r _ [es IH] Hb Hm Hc
    |opened before now st disk' db _ [es IH] Hb Ho].
  - rewrite open_fresh in Ho by done. injection Ho as <- <-. exists [].
    eapply (timed_inv_opened filename ttl now _ kHeader []); [apply lookup_insert_eq|apply log_file_header].
  - by eapply timed_inv_mutate.
  - destruct IH as (_ & (content & Hd & Hl) & _). exists es.
    rewrite (open_existing _ filename ttl st.2 content es [] Hd Hl incomplete_nil) in Ho.
    injection Ho as <- <-. by eapply timed_inv_opened.
Qed.

End timed.

(** ** Properties *)

Section properties.
Context {V : Type} `{BinaryValueLaws V}.
Implicit Types (st : RadishDB V * Disk) (db : RadishDB V).

(** C9: a database with a time to live is opened, changed (by renames too, also
    of a key to itself) and opened again any number of times, as time passes, on
    a disk that works, and it is never compacted in between: the restarts are
    those after a crash. (A compaction can bring back a key that was renamed to
    itself, [Lifetime.compaction_revives_self_renamed_key].)
    Opening it once more at a later time [u] succeeds and leaves the disk as it
    is. Every value that can still be seen is there, and a key that is found
    there was not deleted, renamed away or cleared before: it is in memory too,
    with a value that lived when the database was last opened. *)
Theorem renames_survive_restart filename ttl opened now st u :
  timed filename ttl opened now st -> now <= u ->
  exists db, NewRadishDB_ttl io_ok (fun _ => u) filename ttl Flush st.2 = (st.2, Ok db)
    /\ (forall t k v, u <= t -> Get t k st.1 = Some v -> Get t k db = Some v)
    /\ (forall t k v, u <= t -> Get t k db = Some v -> is_Some (Get opened k st.1)).
Proof.
  intros Ht Hu. destruct (timed_has_log _ _ _ _ _ Ht) as (es & _ & (content & Hd & Hl) & _ & _ & Hlater).
  eexists. split; [by apply (open_existing _ filename ttl st.2 content es [] Hd Hl incomplete_nil)|].
  fold (replay_at u ttl es). destruct (Hlater u Hu) as [Hkeep Hback].
  unfold Get. simpl. setoid_rewrite get_abs. unfold Spec.lookup_alive.
  split; intros t k v Hle Hv.
  - destruct (abs (m_store st.1) !! k) as [x|] eqn:E; [|done]. destruct (Spec.alive t x) eqn:Ea; [|done].
    by rewrite (Hkeep k x E), Ea by (apply (alive_before u t); done).
  - destruct (abs (replay_at u ttl es) !! k) as [x|] eqn:E; [|done]. destruct (Spec.alive t x) eqn:Ea; [|done].
    destruct (Hback k x E) as (y & -> & ->); [by apply (alive_before u t)|by eexists].
Qed.

End properties.

(** ** Witness *)

Lemma fresh_db_timed ttl : timed (V := bytes) (str "d") ttl 0 0 (fresh_db ttl).
Proof.
  unfold fresh_db. destruct (NewRadishDB_ttl (V := bytes) io_ok (fun _ => 0) (str "d") ttl Flush ∅)
    as [disk r] eqn:E.
  pose proof E as E'. rewrite open_fresh in E' by done. destruct r as [db| |]; [|done|done].
  by apply (timed_open _ _ 0 ∅).
Qed.

Lemma renamed_history_timed : timed (V := bytes) (str "d") 10 0 6 renamed_history.
Proof.
  unfold renamed_history. cbn zeta.
  eapply (timed_mutate _ _ 0 5); [|lia| |apply surjective_pairing]; [|done].
  eapply (timed_mutate _ _ 0 0); [|lia| |apply surjective_pairing]; [|done].
  eapply (timed_mutate _ _ 0 0); [apply fresh_db_timed|lia| |apply surjective_pairing]. done.
Qed.

(** The renamed value is found at 8, and the old name stays gone. *)
Lemma renames_survive_restart_witness :
  exists db, NewRadishDB_ttl (V := bytes) io_ok (fun _ => 8) (str "d") 10 Flush renamed_history.2
             = (renamed_history.2, Ok db)
    /\ Get 8 (str "b") db = Some (str "new") /\ Get 8 (str "a") db = None.
Proof.
  destruct (renames_survive_restart (V := bytes) (str "d") 10 0 6 renamed_history 8
    renamed_history_timed ltac:(lia)) as (db & Ho & Hkeep & Hback).
  exists db. split_and!; [exact Ho| |].
  - apply Hkeep; [lia|]. vm_compute. reflexivity.
  - destruct (Get 8 (str "a") db) as [v|] eqn:E; [|reflexivity].
    destruct (Hback 8 (str "a") v ltac:(lia) E) as [y Hy]. vm_compute in Hy. discriminate Hy.
Defined.
