(* ===== verification/Lifetime.v ===== *)
(** The whole life of a database file against the contract's map: opened,
    changed, compacted while it is in use, closed and opened again, in any order
    and any number of times.

    No code is modelled here. The calls are those of include/RadishDB.h, and the
    contract is the map [Spec] of include/RadishStore.h, which knows nothing of
    files, logs or compaction: [lifetime] runs the two side by side. *)

From stdpp Require Import sorting.
From S2P Require Import Prelude Streams BinaryFile EventType RadishEvent LogReader.
From S2P Require Import CompactStrategy RadishStore LogWriter Compaction LiveView.
From S2P Require Import PersistenceLog RadishDB.
Open Scope Z_scope.

(** ** Maps that answer alike from some instant on *)

Section agreement.
Context {V : Type}.
Implicit Types (ideal : gmap bytes (@Spec.entry V)) (c : StoreCall V) (s : RadishStore V).

Definition agree (t : Timestamp) ideal ideal' : Prop :=
  forall now k, t <= now -> Spec.lookup_alive now ideal k = Spec.lookup_alive now ideal' k.

#[export] Instance agree_equivalence t : Equivalence (agree t).
Proof.
  split.
  - by intros m.
  - intros m m' Hm now k Hle. by rewrite Hm.
  - intros m1 m2 m3 H1 H2 now k Hle. by rewrite H1, H2.
Qed.

Lemma agree_later t t' ideal ideal' : t <= t' -> agree t ideal ideal' -> agree t' ideal ideal'.
Proof. intros Hle Hm now k Hn. apply Hm. lia. Qed.

Lemma agree_stores t s s' : same_from t s s' -> agree t (abs s) (abs s').
Proof. intros [_ Hg] now k Hle. by rewrite <- !get_abs, Hg. Qed.

Lemma alive_insert now ideal k (e : Spec.entry) j :
  Spec.lookup_alive now (<[k := e]> ideal) j
  = if decide (k = j) then (if Spec.alive now e then Some e.1 else None)
    else Spec.lookup_alive now ideal j.
Proof. unfold Spec.lookup_alive. rewrite lookup_insert. by case_decide. Qed.

Lemma alive_delete now ideal k j :
  Spec.lookup_alive now (delete k ideal) j
  = if decide (k = j) then None else Spec.lookup_alive now ideal j.
Proof. unfold Spec.lookup_alive. rewrite lookup_delete. by case_decide. Qed.

Lemma alive_earlier now now' ideal k v :
  now <= now' -> Spec.lookup_alive now' ideal k = Some v -> Spec.lookup_alive now ideal k = Some v.
Proof.
  unfold Spec.lookup_alive, Spec.alive. intros Hle. destruct (ideal !! k) as [[u [t|]]|]; simpl; try done.
  destruct (now' <? t) eqn:E; [|done]. zify_bool. by rewrite (proj2 (Z.ltb_lt _ _)) by lia.
Qed.

(** Moving a live value under another name, as seen from then on. *)
Lemma alive_move now now' k k' ideal j :
  now <= now' ->
  Spec.lookup_alive now' (Spec.move now k k' ideal).2 j
  = match Spec.lookup_alive now ideal k with
    | None => Spec.lookup_alive now' ideal j
    | Some _ =>
        if decide (k' = j) then Spec.lookup_alive now' ideal k
        else if decide (k = j) then None else Spec.lookup_alive now' ideal j
    end.
Proof.
  intros Hle. unfold Spec.move. unfold Spec.lookup_alive at 2.
  destruct (ideal !! k) as [e|] eqn:E; [|done].
  destruct (Spec.alive now e); [|done]. cbn [snd]. rewrite alive_insert.
  case_decide; [unfold Spec.lookup_alive; by rewrite E|apply alive_delete].
Qed.

(** The calls of the contract respect it. *)
Lemma agree_call t now ttl c ideal ideal' :
  t <= now -> agree t ideal ideal' ->
  agree now (spec_call ttl now c ideal).2 (spec_call ttl now c ideal').2.
Proof.
  intros Hle Hm now' j Hn. destruct c as [k|k|k v u|k k'|k|]; simpl.
  - apply Hm. lia.
  - apply Hm. lia.
  - destruct (ttl =? -1); simpl; unfold Spec.insert_entry; rewrite !alive_insert;
      (case_decide; [done|apply Hm; lia]).
  - pose proof (alive_move now now' k k' ideal j Hn) as H1.
    pose proof (alive_move now now' k k' ideal' j Hn) as H2.
    destruct (Spec.move now k k' ideal), (Spec.move now k k' ideal'). simpl in *.
    by rewrite H1, H2, !(Hm now'), (Hm now) by lia.
  - rewrite !alive_delete. case_decide; [done|apply Hm; lia].
  - done.
Qed.

(** The maps of databases without a time to live are equal when they agree. *)
Definition unexpiring ideal : Prop := forall k e, ideal !! k = Some e -> e.2 = None.

Lemma agree_unexpiring t ideal ideal' :
  unexpiring ideal -> unexpiring ideal' -> agree t ideal ideal' -> ideal = ideal'.
Proof.
  intros Hu Hu' Hm. apply map_eq. intros k. pose proof (Hm t k ltac:(lia)) as Hk.
  unfold Spec.lookup_alive, Spec.alive in Hk.
  destruct (ideal !! k) as [[v o]|] eqn:E, (ideal' !! k) as [[v' o']|] eqn:E';
    try (apply Hu in E); try (apply Hu' in E'); simpl in *; subst; by inversion Hk.
Qed.

Lemma unexpiring_abs s : m_ttl s = -1 -> unexpiring (abs s).
Proof.
  intros Ht k e. rewrite lookup_abs. unfold HasTimeToLive. rewrite Ht. simpl.
  destruct (RadishStore.m_data s !! k); [|done]. by intros [= <-].
Qed.

Lemma unexpiring_call now c ideal : unexpiring ideal -> unexpiring (spec_call (-1) now c ideal).2.
Proof.
  intros Hu. destruct c as [k|k|k v u|k k'|k|]; simpl; try done.
  - intros j e. unfold Spec.insert_entry. rewrite lookup_insert.
    case_decide; [by intros [= <-]|apply Hu].
  - unfold Spec.move. destruct (ideal !! k) as [e|] eqn:E; [|done].
    destruct (Spec.alive now e); [|done]. intros j x. simpl. rewrite lookup_insert.
    case_decide; [intros [= <-]; by eapply Hu|]. intros [_ Hx]%lookup_delete_Some. by eapply Hu.
  - intros j e [_ He]%lookup_delete_Some. by eapply Hu.
Qed.

(** Every key of one map is one of the other. *)
Definition within ideal ideal' : Prop := forall k, is_Some (ideal !! k) -> is_Some (ideal' !! k).

Lemma within_call now ttl c ideal ideal' :
  (forall k k', c <> CallRename k k') -> within ideal ideal' ->
  within (spec_call ttl now c ideal).2 (spec_call ttl now c ideal').2.
Proof.
  intros Hc Hm j. destruct c as [k|k|k v u|k k'|k|]; simpl; [apply Hm|apply Hm| | | |done].
  - destruct (ttl =? -1); simpl; unfold Spec.insert_entry; rewrite !lookup_insert; case_decide; eauto.
  - by destruct (Hc k k').
  - rewrite !lookup_delete. case_decide; [done|apply Hm].
Qed.

End agreement.

(** ** A database beside its ideal *)

Section lifetime.
Context {V : Type} `{BinaryValueLaws V}.
Implicit Types (e : RadishEvent V) (es : list (RadishEvent V)) (m : Mutation V)
  (st : RadishDB V * Disk) (ideal : gmap bytes (@Spec.entry V)).

(** A mutation of the contract's map: its reply and the map after it. *)
Definition ideal_call (ttl now : Timestamp) m ideal : StoreReply V * gmap bytes (@Spec.entry V) :=
  spec_call ttl now (mutation_call now (NewStore ttl) m) ideal.

(** The expiry of a value created now fits a [long long]. *)
Definition expiry_fits (ttl now : Timestamp) : Prop := ttl = -1 \/ in_ll (now + ttl).

(** What the theorems cover: without a time to live, no rename of a key to
    itself; with one, no rename. *)
Definition covered (ttl : Timestamp) (allowed : Mutation V -> Prop) : Prop :=
  ttl = -1 /\ no_self_renames allowed \/ ttl <> -1 /\ no_renames allowed.

(** [lifetime t ideal st]: by the time [t], the database [st] has gone through
    a life in which its successful mutations take the empty map to [ideal].
    Calls come in the order of time and append to the log on a device that does
    not fail, while the creation of the file, a compaction and a restart meet
    any environment; a call that throws, a compaction and a restart leave the ideal
    alone. *)
Inductive lifetime (filename : bytes) (ttl : Timestamp) (allowed : Mutation V -> Prop) :
    Timestamp -> gmap bytes (@Spec.entry V) -> RadishDB V * Disk -> Prop :=
  | life_open t io now disk disk' db :
      disk !! db_file filename = None ->
      NewRadishDB_ttl io now filename ttl Flush disk = (disk', Ok db) ->
      lifetime filename ttl allowed t ∅ (db, disk')
  | life_wait t t' ideal st :
      lifetime filename ttl allowed t ideal st -> t <= t' -> lifetime filename ttl allowed t' ideal st
  | life_mutate t now ideal m st st' b :
      lifetime filename ttl allowed t ideal st -> t <= now -> expiry_fits ttl now ->
      valid_mutation m -> allowed m -> mutate io_ok now m st = (st', Ok b) ->
      lifetime filename ttl allowed now (ideal_call ttl now m ideal).2 st'
  | life_throw t now ideal m st st' x :
      lifetime filename ttl allowed t ideal st -> t <= now -> expiry_fits ttl now ->
      valid_mutation m -> allowed m -> mutate io_ok now m st = (st', Throw x) ->
      lifetime filename ttl allowed now ideal st'
  | life_compact t t' ideal io now now' order st st' r :
      lifetime filename ttl allowed t ideal st -> t <= t' ->
      (forall i, now i <= t') -> (forall k, now' k <= t') -> map_iteration order ->
      Compact io now now' order st = (st', r) ->
      lifetime filename ttl allowed t' ideal st'
  | life_restart t ideal io now st disk' db :
      lifetime filename ttl allowed t ideal st ->
      NewRadishDB_ttl io now filename ttl Flush st.2 = (disk', Ok db) ->
      lifetime filename ttl allowed t ideal (db, disk').

(** The invariant: the file is a log whose replay, at any readings of the
    clock, agrees with the ideal, and so does the store in memory. *)
Record life_inv (filename : bytes) (ttl : Timestamp) (allowed : Mutation V -> Prop)
    (t : Timestamp) ideal es st : Prop := {
  life_open_log : m_persistence st.1 = Some (MkPersistenceLog (writer_of (db_file filename)));
  life_log : exists content, st.2 !! db_file filename = Some content /\ log_file es [] content;
  life_allowed : Forall (event_allowed ttl allowed) es;
  life_ordered : ttl <> -1 -> expiries_ordered es;
  life_expiries : ttl <> -1 -> Forall (fun e => m_type e = CREATE -> m_timestamp e <= t + ttl) es;
  life_ttl : m_ttl (m_store st.1) = ttl;
  life_memory : agree t (abs (m_store st.1)) ideal;
  life_replay : agree t (abs (replayed (fun _ => t) es (NewStore ttl))) ideal;
  life_unexpiring : ttl = -1 -> unexpiring ideal;
  life_stored : ttl <> -1 ->
    within (abs (m_store st.1)) ideal
    /\ within (abs (replayed (fun _ => t) es (NewStore ttl))) (abs (m_store st.1));
}.

(** ** Opening a log, whatever the device does *)

Lemma open_any_io io now filename ttl disk content disk' r :
  disk !! db_file filename = Some content ->
  NewRadishDB_ttl (V := V) io now filename ttl Flush disk = (disk', r) ->
  disk' = disk
  /\ forall db, r = Ok db -> NewRadishDB_ttl io_ok now filename ttl Flush disk = (disk, Ok db).
Proof.
  unfold NewRadishDB_ttl, InitializePersistence, NewPersistenceLog, NewLogWriter.
  fold (db_file filename). intros Hd. unfold EnsureInitialized. rewrite Hd.
  destruct (io_open_read io); cbn [negb io_ok io_open_read]; [|by intros [= <- <-]].
  destruct (is_read 8 (ifstream io content)) as [header rest| |] eqn:Er;
    [|by intros [= <- <-]|by intros [= <- <-]].
  unfold ifstream in Er. apply is_read_limit in Er. rewrite ifstream_ok, Er.
  destruct (throw_if _ _) as [[]| |]; [|by intros [= <- <-]|by intros [= <- <-]].
  unfold PersistenceLog.Replay, LogWriter.Replay. cbn [m_writer m_reader]. intros [= <- <-].
  split; [done|]. intros db (s & (es & Hg & Hs)%rbind_ok & Hr)%rbind_ok.
  apply get_events_limit in Hg. rewrite Hg. cbn [rbind]. rewrite Hs. by injection Hr as <-.
Qed.

Lemma open_fresh_any_io io now filename ttl disk disk' db :
  disk !! db_file filename = None ->
  NewRadishDB_ttl (V := V) io now filename ttl Flush disk = (disk', Ok db) ->
  NewRadishDB_ttl io_ok now filename ttl Flush disk = (disk', Ok db).
Proof.
  intros Hd. rewrite open_fresh by done.
  unfold NewRadishDB_ttl, InitializePersistence, NewPersistenceLog, NewLogWriter.
  fold (db_file filename). destruct (EnsureInitialized io (db_file filename) disk) as [d r] eqn:E.
  destruct r as [[]| |]; [|done|done]. apply ensure_fresh_returns in E as ->; [|done].
  unfold PersistenceLog.Replay, LogWriter.Replay. cbn [m_writer m_reader]. intros Ho.
  injection Ho as <- Ho. apply rbind_ok in Ho as (s & (es & Hg & Hs)%rbind_ok & Hr).
  apply get_events_limit in Hg.
  rewrite (get_events_image _ _ kHeader [] [] (lookup_insert_eq _ _ _) log_file_header
    incomplete_nil) in Hg.
  apply Ok_inj in Hg as <-. apply Ok_inj in Hs as <-. by apply Ok_inj in Hr as <-.
Qed.

(** ** The invariant is kept *)

Lemma covered_clock ttl allowed es :
  covered ttl allowed -> Forall (event_allowed ttl allowed) es ->
  HasTimeToLive (NewStore (V := V) ttl) = false \/ Forall (fun e => m_type e <> RENAME) es.
Proof.
  intros Hc. apply allowed_clock. destruct Hc as [[-> _]|[_ Hc]]; [by left|by right].
Qed.

Lemma covered_no_self_rename ttl allowed m :
  covered ttl allowed -> allowed m -> is_self_rename m = false.
Proof.
  intros [[_ Hc]|[_ Hc]] Ha; [by apply Hc|]. specialize (Hc m Ha). by destruct m.
Qed.

Lemma ideal_call_eq ttl now (s : RadishStore V) m ideal :
  m_ttl s = ttl -> spec_call ttl now (mutation_call now s m) ideal = ideal_call ttl now m ideal.
Proof. intros <-. by destruct m. Qed.

(** What an open database makes of its log is not affected by the clock. *)
Lemma replay_at t now ttl allowed es :
  covered ttl allowed -> Forall (event_allowed ttl allowed) es ->
  replayed now es (NewStore ttl) = replayed (fun _ => t) es (NewStore ttl).
Proof. intros Hc Ha. apply replayed_clock. by eapply covered_clock. Qed.

(** What a call makes of the map of a store. *)
Lemma abs_mutation now ttl (s : RadishStore V) m :
  m_ttl s = ttl -> is_self_rename m = false ->
  abs (store_call now (mutation_call now s m) s).2 = (ideal_call ttl now m (abs s)).2.
Proof.
  intros Ht Hr. assert (Hsr : self_rename (mutation_call now s m) = false) by by destruct m.
  pose proof (store_call_spec now (mutation_call now s m) s Hsr) as Hs. rewrite Ht in Hs.
  by rewrite <- (ideal_call_eq ttl now s m (abs s) Ht), Hs.
Qed.

Lemma within_mutation now ttl m ideal ideal' :
  is_rename m = false -> within ideal ideal' ->
  within (ideal_call ttl now m ideal).2 (ideal_call ttl now m ideal').2.
Proof. intros Hm. apply within_call. by destruct m. Qed.

(** The store's call and the ideal's keep the agreement. *)
Lemma agree_mutation t now ttl (s : RadishStore V) m ideal :
  t <= now -> m_ttl s = ttl -> is_self_rename m = false -> agree t (abs s) ideal ->
  agree now (abs (store_call now (mutation_call now s m) s).2) (ideal_call ttl now m ideal).2.
Proof.
  intros Hle Ht Hr Ha.
  rewrite (abs_mutation now ttl) by done. by eapply agree_call.
Qed.

Lemma life_inv_later filename ttl allowed t t' ideal es st :
  covered ttl allowed -> t <= t' ->
  life_inv filename ttl allowed t ideal es st -> life_inv filename ttl allowed t' ideal es st.
Proof.
  intros Hc Hle [H1 H2 H3 H4 H5 H6 H7 H8 H9 H10]. split; [done|done|done|done| |done| | |done|].
  - intros Ht. eapply Forall_impl; [by apply H5|]. intros e He E. specialize (He E). simpl in He. lia.
  - by eapply agree_later.
  - rewrite (replay_at t _ ttl allowed) by done. by eapply agree_later.
  - by rewrite (replay_at t _ ttl allowed).
Qed.

Lemma event_of_expiry now (s : RadishStore V) m :
  m_ttl s <> -1 -> in_ll (now + m_ttl s) -> m_type (event_of now s m) = CREATE ->
  m_timestamp (event_of now s m) = now + m_ttl s.
Proof.
  intros Ht Hin. destruct m; try done. intros _. simpl. unfold NewExpiryTimestamp, HasTimeToLive.
  apply Z.eqb_neq in Ht as ->. by rewrite add_ll_exact.
Qed.

(** One more event in the log. *)
Lemma ordered_logged t now ttl (s : RadishStore V) m es :
  ttl <> -1 -> m_ttl s = ttl -> t <= now -> expiry_fits ttl now ->
  expiries_ordered es -> Forall (fun e => m_type e = CREATE -> m_timestamp e <= t + ttl) es ->
  expiries_ordered (es ++ [event_of now s m])
  /\ Forall (fun e => m_type e = CREATE -> m_timestamp e <= now + ttl) (es ++ [event_of now s m]).
Proof.
  intros Ht <- Hle [Hf|Hf] Ho Hb; [done|]. pose proof (event_of_expiry now s m Ht Hf) as He.
  split.
  - unfold expiries_ordered. apply StronglySorted_app. split_and!; [|done|by repeat constructor].
    intros x1 x2 H1 ->%list_elem_of_singleton E1 E2 _. rewrite He by done.
    rewrite Forall_forall in Hb. specialize (Hb x1 H1 E1). simpl in Hb. lia.
  - apply Forall_app. split; [|apply Forall_singleton; intros E; rewrite He by done; lia].
    eapply Forall_impl; [exact Hb|]. intros x Hx E. specialize (Hx E). simpl in Hx. lia.
Qed.

Lemma life_inv_logged filename ttl allowed t now m ideal es st st' content :
  covered ttl allowed -> t <= now -> expiry_fits ttl now -> allowed m ->
  life_inv filename ttl allowed t ideal es st ->
  let e := event_of now (m_store st.1) m in
  st'.1 = MkRadishDB (store_call now (call_of e) (m_store st.1)).2 (m_persistence st.1) ->
  st'.2 !! db_file filename = Some content -> log_file (es ++ [e]) [] content ->
  life_inv filename ttl allowed now (ideal_call ttl now m ideal).2 (es ++ [e]) st'.
Proof.
  intros Hc Hle Hf Ha Hi e Hst Hd Hl. pose proof Hi as [H1 _ H3 H4 H5 H6 H7 H8 H9 H10].
  pose proof (covered_no_self_rename _ _ _ Hc Ha) as Hr.
  assert (Hrep : abs (replayed (fun _ => now) (es ++ [e]) (NewStore ttl))
    = (ideal_call ttl now m (abs (replayed (fun _ => t) es (NewStore ttl)))).2).
  { rewrite replayed_app, (replay_at t _ ttl allowed) by done. unfold e. rewrite call_of_event_of.
    replace (mutation_call now (m_store st.1) m)
      with (mutation_call now (replayed (fun _ => t) es (NewStore ttl)) m).
    - apply abs_mutation; [by rewrite replayed_ttl|done].
    - destruct m; try done. simpl. unfold NewExpiryTimestamp, HasTimeToLive.
      by rewrite replayed_ttl, H6. }
  split; rewrite ?Hst.
  - done.
  - by eexists.
  - apply Forall_app. split; [done|]. apply Forall_singleton. by apply event_of_allowed.
  - intros Ht. by eapply ordered_logged; eauto.
  - intros Ht. by eapply ordered_logged; eauto.
  - simpl. by rewrite store_call_ttl.
  - simpl. unfold e. rewrite call_of_event_of. by eapply agree_mutation.
  - rewrite Hrep. by eapply agree_call.
  - intros ->. by apply unexpiring_call, H9.
  - intros Ht. destruct (H10 Ht) as [Hs1 Hs2]. assert (Hnr : is_rename m = false).
    { destruct Hc as [[-> _]|[_ Hc]]; [done|by apply Hc]. }
    rewrite Hrep. simpl. unfold e. rewrite call_of_event_of, (abs_mutation now ttl) by done.
    split; by apply within_mutation.
Qed.

(** A call that reports no change makes none in the ideal either. *)
Lemma life_inv_unchanged filename ttl allowed t now m ideal es st :
  covered ttl allowed -> t <= now -> allowed m ->
  life_inv filename ttl allowed t ideal es st ->
  call_applied (store_call now (mutation_call now (m_store st.1) m) (m_store st.1)).1 = false ->
  life_inv filename ttl allowed now (ideal_call ttl now m ideal).2 es st.
Proof.
  intros Hc Hle Ha Hi Hn. pose proof (covered_no_self_rename _ _ _ Hc Ha) as Hr.
  apply (life_inv_later _ _ _ t now) in Hi; [|done|done].
  pose proof Hi as [H1 H2 H3 H4 H5 H6 H7 H8 H9 H10].
  assert (Hm : agree now (abs (m_store st.1)) (ideal_call ttl now m ideal).2).
  { rewrite <- (not_applied_abs now (mutation_call now (m_store st.1) m)) by done.
    eapply agree_mutation; [|done|done|done]. lia. }
  split; [done|done|done|done|done|done|done| | |].
  - etrans; [exact H8|]. etrans; [symmetry; exact H7|done].
  - intros ->. by apply unexpiring_call, H9.
  - intros Ht. destruct (H10 Ht) as [Hs1 Hs2]. split; [|done].
    rewrite <- (not_applied_abs now (mutation_call now (m_store st.1) m)), (abs_mutation now ttl) by done.
    apply within_mutation; [|done]. destruct Hc as [[-> _]|[_ Hc]]; [done|by apply Hc].
Qed.

Lemma life_inv_mutate filename ttl allowed t now m ideal es st st' r :
  covered ttl allowed -> t <= now -> expiry_fits ttl now -> valid_mutation m -> allowed m ->
  life_inv filename ttl allowed t ideal es st -> mutate io_ok now m st = (st', r) ->
  match r with
  | Ok _ => exists es', life_inv filename ttl allowed now (ideal_call ttl now m ideal).2 es' st'
  | Throw _ => life_inv filename ttl allowed now ideal es st'
  | Undefined => False
  end.
Proof.
  intros Hc Hle Hf Hv Ha Hi Hm. rewrite mutate_commit in Hm by done.
  pose proof (event_of_wf now (m_store st.1) m Hv) as Hw.
  destruct (life_log _ _ _ _ _ _ _ Hi) as (content & Hd & Hl).
  pose proof (commit_io_ok _ _ _ _ _ _ _ _ (life_open_log _ _ _ _ _ _ _ Hi) Hd Hl Hw Hm) as Hio.
  cbn zeta in Hio. destruct (call_applied _) eqn:Ea.
  - destruct Hio as [(-> & Hst & content' & Hd' & Hl')|[[x ->] ->]].
    + eexists. by eapply life_inv_logged.
    + by eapply life_inv_later.
  - destruct Hio as [-> ->]. rewrite call_of_event_of in Ea. eexists. by eapply life_inv_unchanged.
Qed.

Lemma expiries_ordered_keys es : NoDup (m_key <$> es) -> expiries_ordered es.
Proof.
  induction es as [|e es IH]; [constructor|]. rewrite fmap_cons, NoDup_cons. intros [Hk Hnd].
  constructor; [by apply IH|]. apply Forall_forall. intros e' He' _ _ E.
  destruct Hk. rewrite E. by apply list_elem_of_fmap_2.
Qed.

(** Compacting keeps no key that a replay does not have. *)
Lemma store_keys now (s : RadishStore V) e k :
  m_type e <> RENAME -> event_wf e ->
  is_Some (abs (store_call now (call_of e) s).2 !! k)
  -> is_Some (abs s !! k) \/ m_type e = CREATE /\ m_key e = Some k.
Proof.
  intros Hr [_ Hw]. destruct Hw as [(E & [j Ek] & Er & v & Ep & _)|[(E & _)|
    [(E & [j Ek] & _ & _)|(E & Ek & _ & _)]]]; [|done| |]; unfold call_of; rewrite E, Ek, ?Ep; simpl.
  - pose proof (create_abs now s j v (Some (m_timestamp e))) as Ha.
    destruct (RadishStore.Create _ _ _ _ _) as [u s']. simpl in *. rewrite Ha. unfold Spec.insert_entry.
    rewrite lookup_insert. case_decide; [subst; by right|by left].
  - destruct (delete_abs s j) as [_ Ha]. simpl in Ha. rewrite Ha, lookup_delete.
    case_decide; [by intros []|by left].
  - destruct (clear_abs s) as [_ Ha]. destruct (RadishStore.Clear s) as [b s']. simpl in *. rewrite Ha. by intros [].
Qed.

Lemma replayed_keys now es (s : RadishStore V) k :
  Forall (fun e => m_type e <> RENAME) es -> Forall event_wf es ->
  is_Some (abs (replayed now es s) !! k) -> is_Some (abs s !! k) \/ Some k ∈ m_key <$> es.
Proof.
  intros Hr Hw. revert now s. induction Hr as [|e es He _ IH]; intros now s; [by left|].
  apply Forall_cons in Hw as [Hwe Hw]. rewrite fmap_cons, elem_of_cons. cbn [replayed].
  intros [Hk|?]%(IH Hw); [|by auto]. apply store_keys in Hk as [?|[_ <-]]; auto.
Qed.

Lemma compacted_within now nw es events (s : RadishStore V) :
  Forall event_wf es -> Forall (fun e => m_type e <> RENAME) es ->
  (forall k, is_Some (events !! k) -> is_Some (abs s !! k)) ->
  forall k, is_Some (compacted now es events !! k) -> is_Some (abs (replayed nw es s) !! k).
Proof.
  revert now nw events s. induction es as [|e es IH]; intros now nw events s Hw Hr Hm k; [apply Hm|].
  apply Forall_cons in Hw as [[_ He] Hw]. apply Forall_cons in Hr as [Hre Hr]. cbn [compacted replayed].
  apply IH; [done|done|]. clear IH k. intros k. unfold compact_step.
  destruct He as [(E & [j Ek] & Er & v & Ep & _)|[(E & _)|
    [(E & [j Ek] & _ & _)|(E & Ek & _ & _)]]]; [|done| |]; unfold call_of; rewrite E, Ek, ?Ep; simpl.
  - pose proof (create_abs (nw O) s j v (Some (m_timestamp e))) as Ha.
    destruct (RadishStore.Create _ _ _ _ _) as [u s']. simpl in *. rewrite Ha. unfold Spec.insert_entry.
    destruct (_ && _); rewrite !lookup_insert; case_decide; eauto.
  - destruct (delete_abs s j) as [_ Ha]. simpl in Ha. rewrite Ha, !lookup_delete. case_decide; [done|apply Hm].
  - rewrite lookup_empty. by intros [].
Qed.

Lemma surviving_within ttl now now' order es nw k :
  Forall event_wf es -> Forall (fun e => m_type e <> RENAME) es -> map_iteration order ->
  is_Some (abs (replayed nw (surviving now' (order (compacted now es ∅))) (NewStore ttl)) !! k) ->
  is_Some (abs (replayed nw es (NewStore ttl)) !! k).
Proof.
  intros Hw Hr Hord. pose proof (compacted_map now es ∅ Hw create_map_empty) as Hm.
  intros [[? Hk]|Hk]%replayed_keys.
  - done.
  - apply (compacted_within now nw es ∅); [done|done|by intros ? []|].
    apply list_elem_of_fmap in Hk as (e & Ek & He). apply list_elem_of_fmap in He as ([j x] & -> & [_ Hin]%list_elem_of_filter).
    rewrite (Hord _) in Hin. apply elem_of_map_to_list in Hin. simpl in Ek.
    destruct (Hm j x Hin) as (_ & _ & Hj). rewrite Hj in Ek. injection Ek as ->. by exists x.
  - eapply Forall_impl; [by eapply surviving_creates; [exact Hm|apply Hord]|]. by intros e ->.
  - by eapply surviving_wf; [exact Hm|apply Hord].
Qed.

(** What the compacted log replays to. *)
Lemma agree_surviving ttl allowed t now now' order es :
  covered ttl allowed -> Forall event_wf es -> Forall (event_allowed ttl allowed) es ->
  (ttl <> -1 -> expiries_ordered es) -> (forall i, now i <= t) -> (forall k, now' k <= t) ->
  map_iteration order ->
  agree t (abs (replayed (fun _ => t) (surviving now' (order (compacted now es ∅))) (NewStore ttl)))
          (abs (replayed (fun _ => t) es (NewStore ttl))).
Proof.
  intros [[-> Hc]|[Ht Hc]] Hw Ha Ho Hn Hn' Hord.
  - rewrite (replay_surviving now now' _ (fun _ => t) es); [done|done| | |apply Hord].
    + eapply Forall_impl; [exact Ha|]. intros e (He & _). by apply He.
    + eapply Forall_impl; [exact Ha|]. intros e (_ & _ & He). by apply He.
  - apply agree_stores. split; [by rewrite !replayed_ttl|]. intros now1 k Hle.
    assert (Hr : Forall (fun e => m_type e <> RENAME) es).
    { eapply Forall_impl; [exact Ha|]. intros e (_ & He & _). by apply He. }
    destruct (shows_compacted t now (fun _ => t) es ∅ _ Hw Hr (Ho Ht) Hn create_map_empty
      (shows_new t ttl es Ht)) as [_ Hv _].
    rewrite Hv by done.
    by eapply get_surviving; [apply (compacted_map now es ∅ Hw create_map_empty)|apply Hord|..].
Qed.

Lemma life_inv_compact filename ttl allowed t t' ideal io now now' order es st st' r :
  covered ttl allowed -> t <= t' -> (forall i, now i <= t') -> (forall k, now' k <= t') ->
  map_iteration order -> life_inv filename ttl allowed t ideal es st ->
  Compact io now now' order st = (st', r) ->
  st'.1 = st.1 /\ exists es', life_inv filename ttl allowed t' ideal es' st'.
Proof.
  intros Hc Hle Hn Hn' Hord Hi Hcm. apply (life_inv_later _ _ _ t t') in Hi; [|done|done].
  pose proof Hi as [H1 (content & Hd & Hl) H3 H4 H5 H6 H7 H8 H9 H10].
  destruct st as [db disk]. simpl in *. rewrite H1 in Hcm.
  unfold PersistenceLog.Compact in Hcm. cbn [m_writer] in Hcm.
  destruct (LogWriter.Compact _ _ _ _ _ _) as [disk' rc] eqn:E. injection Hcm as <- <-.
  split; [done|].
  destruct (compact_spec _ _ _ _ (writer_of (db_file filename)) _ _ _ _ _ _ eq_refl eq_refl Hd Hl
    incomplete_nil Hord E) as (Hbad & Hgood & _).
  pose proof (log_file_wf _ _ _ Hl) as Hw. pose proof (compacted_map now es ∅ Hw create_map_empty) as Hm.
  destruct (decide (rc = Ok tt)) as [->|Hne].
  - destruct (Hgood eq_refl) as (_ & content' & Hd' & Hl').
    exists (surviving now' (order (compacted now es ∅))).
    split; [done|by eexists|by apply surviving_allowed| | |done|done| |done|].
    + intros _. eapply expiries_ordered_keys, surviving_keys; [exact Hm|apply Hord].
    + intros Ht. apply Forall_forall. intros e He _.
      apply list_elem_of_fmap in He as ([k x] & -> & [_ Hin]%list_elem_of_filter).
      rewrite (Hord _) in Hin. apply elem_of_map_to_list in Hin. revert Hin.
      apply (compacted_stamped (fun u => u <= t' + ttl) now es ∅ Hw (H5 Ht)), stamped_empty.
    + etrans; [|exact H8]. by eapply agree_surviving.
    + intros Ht. destruct (H10 Ht) as [Hs1 Hs2]. split; [done|]. intros k Hk. apply Hs2.
      destruct Hc as [[-> _]|[_ Hc]]; [done|].
      apply (surviving_within ttl now now' order es (fun _ => t')); [done| |done|done].
      eapply Forall_impl; [exact H3|]. intros e (_ & He & _). by apply He.
  - exists es. split; [done| |done|done|done|done|done|done|done|done]. exists content. split; [|done].
    change (disk' !! m_filename (writer_of (V := V) (db_file filename)) = Some content).
    by rewrite (Hbad Hne).
Qed.

Lemma life_inv_restart filename ttl allowed t ideal es io now st disk' db :
  covered ttl allowed -> life_inv filename ttl allowed t ideal es st ->
  NewRadishDB_ttl io now filename ttl Flush st.2 = (disk', Ok db) ->
  disk' = st.2 /\ life_inv filename ttl allowed t ideal es (db, disk').
Proof.
  intros Hc [H1 (content & Hd & Hl) H3 H4 H5 H6 H7 H8 H9 H10] Ho.
  destruct (open_any_io _ _ _ _ _ _ _ _ Hd Ho) as [-> Hok]. split; [done|].
  specialize (Hok db eq_refl).
  rewrite (open_existing now filename ttl st.2 content es [] Hd Hl incomplete_nil) in Hok.
  injection Hok as <-. rewrite (replay_at t now ttl allowed) by done.
  split; [done|by eexists|done|done|done| |done|done|done|].
  - simpl. by rewrite replayed_ttl.
  - intros Ht. destruct (H10 Ht) as [Hs1 Hs2]. split; [|by intros k]. intros k Hk. by apply Hs1, Hs2.
Qed.

Lemma agree_new t ttl : agree t (abs (NewStore (V := V) ttl)) ∅.
Proof.
  intros now k _. by rewrite <- get_abs.
Qed.

Lemma lifetime_inv filename ttl allowed t ideal st :
  covered ttl allowed -> lifetime filename ttl allowed t ideal st ->
  exists es, life_inv filename ttl allowed t ideal es st.
Proof.
  intros Hc. induction 1 as [t io now disk disk' db Hd Ho|t t' ideal st _ [es Hi] Hle
    |t now ideal m st st' b _ [es Hi] Hle Hf Hv Ha Hm|t now ideal m st st' x _ [es Hi] Hle Hf Hv Ha Hm
    |t t' ideal io now now' order st st' r _ [es Hi] Hle Hn Hn' Hord Hm
    |t ideal io now st disk' db _ [es Hi] Ho].
  - apply open_fresh_any_io in Ho; [|done]. rewrite open_fresh in Ho by done.
    injection Ho as <- <-. exists [].
    split; [done| |constructor|constructor|constructor|done|apply agree_new|apply agree_new|done|by intros _; split; intros k []].
    exists kHeader. split; [apply lookup_insert_eq|apply log_file_header].
  - exists es. by eapply life_inv_later.
  - by apply (life_inv_mutate _ _ _ _ _ _ _ _ _ _ _ Hc Hle Hf Hv Ha Hi Hm).
  - exists es. by apply (life_inv_mutate _ _ _ _ _ _ _ _ _ _ _ Hc Hle Hf Hv Ha Hi Hm).
  - by eapply life_inv_compact.
  - exists es. by eapply life_inv_restart.
Qed.

(** ** Answers *)

(** From [t] on, at whatever readings of the clock and in whatever order its
    hash map is iterated, the database answers its queries as the ideal. *)
Definition answers_as (t : Timestamp) ideal (db : RadishDB V) : Prop :=
  forall clock entries, (forall k, t <= clock k) ->
    bucket_order (RadishStore.m_data (m_store db)) entries ->
    (forall k, Get (clock k) k db = Spec.lookup_alive (clock k) ideal k
      /\ Exists (clock k) k db = bool_decide (is_Some (Spec.lookup_alive (clock k) ideal k))
      /\ (k ∈ Scan clock entries db <-> is_Some (Spec.lookup_alive (clock k) ideal k)))
    /\ NoDup (Scan clock entries db) /\ Size clock entries db = zlen (Scan clock entries db).

Lemma agree_answers t ideal (db : RadishDB V) :
  agree t (abs (m_store db)) ideal -> answers_as t ideal db.
Proof.
  intros Ha clock entries Hc Hb.
  assert (Hg : forall k, Get (clock k) k db = Spec.lookup_alive (clock k) ideal k)
    by (intros k; unfold Get; rewrite get_abs; by apply Ha).
  split_and!.
  - intros k. split_and!; [done| |].
    + unfold Exists. by rewrite exists_get, <- Hg.
    + unfold Scan. rewrite elem_of_scan by done. by rewrite <- Hg.
  - unfold Scan. rewrite scan_eq. apply NoDup_filter. by eapply bucket_order_NoDup.
  - apply size_scan.
Qed.

(** The reply of a mutation. Deleting a key or clearing a database with a time
    to live reports a change when there is a value that can be seen, and only
    when the map has one, which may have expired. *)
Definition replies_as (ttl now : Timestamp) ideal m (b : bool) : Prop :=
  match m with
  | MutCreate _ _ => b = true
  | MutRename k _ => b = bool_decide (is_Some (Spec.lookup_alive now ideal k))
  | MutDelete k =>
      (is_Some (Spec.lookup_alive now ideal k) -> b = true)
      /\ (b = true -> is_Some (ideal !! k))
      /\ (ttl = -1 -> b = bool_decide (is_Some (ideal !! k)))
  | MutClear =>
      ((exists k, is_Some (Spec.lookup_alive now ideal k)) -> b = true)
      /\ (b = true -> ideal <> ∅)
      /\ (ttl = -1 -> b = negb (bool_decide (ideal = ∅)))
  end.

Lemma alive_present now ideal k : is_Some (Spec.lookup_alive now ideal k) -> is_Some (ideal !! k).
Proof. unfold Spec.lookup_alive. destruct (ideal !! k); [by eexists|by intros []]. Qed.

(** A store that agrees with the ideal gives the reply of the ideal. *)
Lemma store_replies t now ttl (s : RadishStore V) m ideal :
  t <= now -> m_ttl s = ttl -> is_self_rename m = false ->
  (ttl = -1 -> unexpiring ideal) -> agree t (abs s) ideal -> (ttl <> -1 -> within (abs s) ideal) ->
  replies_as ttl now ideal m (call_applied (store_call now (mutation_call now s m) s).1).
Proof.
  intros Hle Ht Hr Hu Ha Hin.
  assert (Hsr : self_rename (mutation_call now s m) = false) by by destruct m.
  pose proof (store_call_spec now (mutation_call now s m) s Hsr) as Hs.
  assert (Heq : ttl = -1 -> abs s = ideal).
  { intros Hm. apply (agree_unexpiring t); [apply unexpiring_abs; congruence|by apply Hu|done]. }
  assert (Hin' : within (abs s) ideal).
  { destruct (decide (ttl = -1)) as [Hm|Hm]; [rewrite Heq by done; by intros k|by apply Hin]. }
  replace (store_call now (mutation_call now s m) s).1
    with (spec_call (m_ttl s) now (mutation_call now s m) (abs s)).1 by (by rewrite Hs).
  clear Hs. destruct m as [k v|k k'|k|]; cbn [replies_as mutation_call spec_call].
  - by destruct (m_ttl s =? -1).
  - rewrite <- (Ha now k) by lia. unfold Spec.move, Spec.lookup_alive.
    destruct (abs s !! k) as [e|]; [|done]. by destruct (Spec.alive now e).
  - simpl. split_and!; [|intros Hb%bool_decide_eq_true; by apply Hin'|by intros ->%Heq].
    rewrite <- (Ha now k) by lia. intros Hal%alive_present. by apply bool_decide_eq_true.
  - simpl. split_and!; [| |by intros ->%Heq].
    2: { intros Hb%negb_true_iff%bool_decide_eq_false ->. apply Hb, map_eq. intros k. rewrite lookup_empty.
      apply eq_None_not_Some. intros [? Hk]%Hin'. by rewrite lookup_empty in Hk. }
    intros [k Hk]. rewrite <- (Ha now k) in Hk by lia. apply alive_present in Hk as [e Hk].
    apply negb_true_iff, bool_decide_eq_false. intros E. by rewrite E, lookup_empty in Hk.
Qed.

Lemma mutate_replies filename ttl allowed t now m ideal es st st' b :
  covered ttl allowed -> t <= now -> valid_mutation m -> allowed m ->
  life_inv filename ttl allowed t ideal es st -> mutate io_ok now m st = (st', Ok b) ->
  replies_as ttl now ideal m b.
Proof.
  intros Hc Hle Hv Ha Hi Hm. rewrite mutate_commit in Hm by done.
  pose proof (event_of_wf now (m_store st.1) m Hv) as Hw.
  destruct Hi as [H1 (content & Hd & Hl) H3 H4 H5 H6 H7 H8 H9 H10].
  pose proof (commit_io_ok _ _ _ _ _ _ _ _ H1 Hd Hl Hw Hm) as Hio.
  cbn zeta in Hio. rewrite call_of_event_of in Hio.
  pose proof (store_replies t now ttl (m_store st.1) m ideal Hle H6
    (covered_no_self_rename _ _ _ Hc Ha) H9 H7 (fun Ht => proj1 (H10 Ht))) as Hrep.
  destruct (call_applied _).
  - by destruct Hio as [([= ->] & _)|[[x Hx] _]].
  - by destruct Hio as [[= ->] _].
Qed.

End lifetime.

(** ** Properties *)

Section properties.
Context {V : Type} `{BinaryValueLaws V}.
Implicit Types (m : Mutation V) (st : RadishDB V * Disk) (ideal : gmap bytes (@Spec.entry V)).

(** C2: the database with its file is the contract's map, when no key is renamed
    to itself and, with a time to live, none is renamed at all ([covered]; see
    [compaction_revives_self_renamed_key] and [restart_revives_overwritten_value]).
    After any such life of calls on a device that works, compactions and
    restarts, with whatever faults of the device the compactions and the
    restarts met, it answers every query as the map on
    which only the successful mutations were done; and its file can be opened at
    any time and gives a database that answers so too. *)
Theorem database_refines_map filename ttl allowed t ideal st now :
  covered ttl allowed -> lifetime filename ttl allowed t ideal st ->
  answers_as t ideal st.1
  /\ exists db, NewRadishDB_ttl io_ok now filename ttl Flush st.2 = (st.2, Ok db)
     /\ answers_as t ideal db.
Proof.
  intros Hc Hl. destruct (lifetime_inv _ _ _ _ _ _ Hc Hl) as [es Hi].
  split; [apply agree_answers, Hi|].
  destruct (life_log _ _ _ _ _ _ _ Hi) as (content & Hd & Hlog).
  eexists. split; [exact (open_existing now filename ttl st.2 content es [] Hd Hlog incomplete_nil)|].
  apply agree_answers. simpl. rewrite (replay_at t now ttl allowed) by (done || apply Hi). apply Hi.
Qed.

(** C8: at any point of such a life a mutation on a disk that does not fail
    either throws, leaving the database and its file as they were, or replies as
    the contract's map. Without a time to live the reply is exactly that of the
    map. With one (and then without renames) CREATE replies as the map too; DEL
    and CLEAR report a change when there is a value that can be seen, and only
    when the map has a value of the key (or any value), which may have expired. *)
Theorem replies_refine_map filename ttl allowed t ideal st now m st' r :
  covered ttl allowed -> lifetime filename ttl allowed t ideal st ->
  t <= now -> valid_mutation m -> allowed m -> mutate io_ok now m st = (st', r) ->
  match r with
  | Ok b => replies_as ttl now ideal m b
  | Throw _ => st' = st
  | Undefined => False
  end.
Proof.
  intros Hc Hl Hle Hv Ha Hm. destruct (lifetime_inv _ _ _ _ _ _ Hc Hl) as [es Hi].
  assert (Hrep : forall b, r = Ok b -> replies_as ttl now ideal m b)
    by (intros b ->; by eapply mutate_replies).
  rewrite mutate_commit in Hm by done.
  destruct (life_log _ _ _ _ _ _ _ Hi) as (content & Hd & Hlog).
  pose proof (commit_io_ok _ _ _ _ _ _ _ _ (life_open_log _ _ _ _ _ _ _ Hi) Hd Hlog
    (event_of_wf now (m_store st.1) m Hv) Hm) as Hio. cbn zeta in Hio.
  destruct (call_applied _); [destruct Hio as [(-> & _)|[[x ->] ->]]|destruct Hio as [-> _]];
    [by apply Hrep|done|by apply Hrep].
Qed.

End properties.

(** ** Limits

    Why the histories without a time to live leave out renames of a key to
    itself. *)

Definition self_renamed : RadishDB bytes * Disk :=
  (mutate io_ok 0 (MutRename (str "a") (str "a")) example_db).1.

(** Renaming a key to itself deletes it, and the log keeps it deleted
    across a restart; but the compaction keeps its value, so that after a
    compaction a restart brings the deleted key back. *)
Theorem compaction_revives_self_renamed_key :
  let st := self_renamed in
  let st' := (Compact io_ok (fun _ => 0) (fun _ => 0) map_order st).1 in
  reachable (V := bytes) (str "d") (-1) (fun _ => True) st
  /\ (mutate io_ok 0 (MutRename (str "a") (str "a")) example_db).2 = Ok true
  /\ Get 0 (str "a") st.1 = None
  /\ NewRadishDB_ttl (V := bytes) io_ok (fun _ => 0) (str "d") (-1) Flush st.2 = (st.2, Ok st.1)
  /\ st'.1 = st.1
  /\ exists db, NewRadishDB_ttl (V := bytes) io_ok (fun _ => 0) (str "d") (-1) Flush st'.2 = (st'.2, Ok db)
     /\ Get 0 (str "a") db = Some (str "1").
Proof.
  intros st st'.
  assert (Hr : reachable (V := bytes) (str "d") (-1) (fun _ => True) st).
  { eapply reach_mutate; [exact example_db_allowed| | |apply surjective_pairing]; done. }
  destruct (reachable_inv _ _ _ _ Hr) as (nw & es & Hinv & Hes).
  split_and!; [exact Hr|vm_compute; reflexivity|vm_compute; reflexivity| |vm_compute; reflexivity|].
  - eapply reopen; [exact Hinv|]. by left.
  - destruct (ok_pair (fun db => bool_decide (Get 0 (str "a") db = Some (str "1")))
      (NewRadishDB_ttl (V := bytes) io_ok (fun _ => 0) (str "d") (-1) Flush st'.2))
      as (db & Hdb & Hg%bool_decide_eq_true); [vm_compute; reflexivity|].
    exists db. split; [|exact Hg]. by rewrite Hdb.
Qed.

(** ** Witnesses *)

(** A database with a time to live of 10: a value that has expired when the
    file is compacted, and one written afterwards. *)
Definition life_example : RadishDB bytes * Disk :=
  let st := (mutate io_ok 0 (example_create "a" "1") (fresh_db 10)).1 in
  let st := (Compact io_ok (fun _ => 20) (fun _ => 20) map_order st).1 in
  (mutate io_ok 25 (example_create "b" "2") st).1.

Definition life_ideal : gmap bytes (@Spec.entry bytes) :=
  (ideal_call 10 25 (example_create "b" "2") (ideal_call 10 0 (example_create "a" "1") ∅).2).2.

Definition only_creates (m : Mutation bytes) : Prop := is_rename m = false.

Lemma life_example_covered : covered 10 only_creates.
Proof. right. split; [discriminate|]. intros m Hm. exact Hm. Qed.

Lemma life_example_lifetime : lifetime (V := bytes) (str "d") 10 only_creates 25 life_ideal life_example.
Proof.
  unfold life_example, life_ideal. cbn zeta.
  eapply (life_mutate _ _ _ 20); [|lia|right; by vm_compute|done|done|
    apply result_pair; vm_compute; reflexivity].
  eapply (life_compact _ _ _ 0); [|lia| | | |apply surjective_pairing];
    [|by intros i|by intros k|intros events; reflexivity].
  eapply (life_mutate _ _ _ 0); [|lia|right; by vm_compute|done|done|
    apply result_pair; vm_compute; reflexivity].
  unfold fresh_db.
  destruct (NewRadishDB_ttl (V := bytes) io_ok (fun _ => 0) (str "d") 10 Flush ∅) as [disk r] eqn:E.
  pose proof E as E'. rewrite open_fresh in E' by done. destruct r as [db| |]; [|done|done].
  eapply (life_open _ _ _ _ io_ok _ ∅); [done|exact E].
Qed.

Lemma database_refines_map_witness :
  exists db, NewRadishDB_ttl (V := bytes) io_ok (fun _ => 30) (str "d") 10 Flush life_example.2
      = (life_example.2, Ok db)
    /\ Get 30 (str "b") db = Some (str "2") /\ Get 30 (str "a") db = None.
Proof.
  destruct (database_refines_map (V := bytes) (str "d") 10 only_creates 25 life_ideal life_example
    (fun _ => 30) life_example_covered life_example_lifetime) as (_ & db & Ho & Ha).
  exists db. split; [exact Ho|].
  destruct (Ha (fun _ => 30) _ (fun _ => ltac:(discriminate)) (reflexivity _)) as [Hk _].
  split; [destruct (Hk (str "b")) as [-> _]|destruct (Hk (str "a")) as [-> _]]; reflexivity.
Defined.

Lemma replies_refine_map_witness :
  exists st', mutate io_ok 30 (MutDelete (str "b")) life_example = (st', Ok true)
    /\ replies_as 10 30 life_ideal (MutDelete (V := bytes) (str "b")) true.
Proof.
  exists (mutate io_ok 30 (MutDelete (str "b")) life_example).1.
  assert (E : mutate io_ok 30 (MutDelete (str "b")) life_example
    = ((mutate io_ok 30 (MutDelete (str "b")) life_example).1, Ok true)).
  { apply result_pair. vm_compute. reflexivity. }
  split; [exact E|].
  apply (replies_refine_map (V := bytes) (str "d") 10 only_creates 25 life_ideal life_example 30
    (MutDelete (str "b")) (mutate io_ok 30 (MutDelete (str "b")) life_example).1 (Ok true)
    life_example_covered life_example_lifetime);
    [discriminate|exact I|reflexivity|exact E].
Defined.
