(* ===== verification/Concurrency.v ===== *)
(** The two mutexes: include/RadishDB.h and include/persistence/PersistenceLog.h
    used by many threads.

    [RadishDB] describes a call as one step. Here a call is what the code does:
    it waits for the [shared_mutex] of the database, works in several steps on
    the database and the disk the threads share, taking the mutex of the
    persistence log around each use of the log, and releases what it holds. The
    steps of the threads interleave in any way the mutexes allow. The theorems
    show that this makes no difference: every execution is one in which each
    call is a single step, taken between its invocation and its return. *)

From S2P Require Import Prelude Streams BinaryFile EventType RadishEvent RadishStore.
From S2P Require Import LogWriter PersistenceLog RadishDB.
From stdpp Require Import functions gmap.
Open Scope Z_scope.

(** One call on the database: those that read it and those that may write. *)
Inductive Query :=
  | QueryGet (key : bytes)
  | QueryScan
  | QuerySize
  | QueryExists (key : bytes)
  | QueryIsExpired (key : bytes).

Inductive Request (V : Type) :=
  | ReqMutate (m : Mutation V)
  | ReqCompact
  | ReqRead (q : Query).
Arguments ReqMutate {V}.
Arguments ReqCompact {V}.
Arguments ReqRead {V}.

Inductive Reply (V : Type) :=
  | RepMutate (r : result bool)
  | RepCompact (r : result unit)
  | RepValue (value : option V)
  | RepKeys (keys : list bytes)
  | RepSize (size : Z)
  | RepBool (b : bool).
Arguments RepMutate {V}.
Arguments RepCompact {V}.
Arguments RepValue {V}.
Arguments RepKeys {V}.
Arguments RepSize {V}.
Arguments RepBool {V}.

(** What a call meets: the device, its readings of the clock, and the orders of
    the hash maps it iterates over. *)
Record Around (V : Type) := MkAround {
  io : IoEnv;
  now : Timestamp;
  loop_now : nat -> Timestamp;
  key_now : bytes -> Timestamp;
  data_order : gmap bytes V -> list (bytes * V);
  event_order : gmap bytes (RadishEvent V) -> list (bytes * RadishEvent V);
}.
Arguments MkAround {V}.
Arguments io {V}.
Arguments now {V}.
Arguments loop_now {V}.
Arguments key_now {V}.
Arguments data_order {V}.
Arguments event_order {V}.

Section concurrency.
Context {V : Type} `{BinaryValue V}.
Implicit Types (a : Around V) (m : Mutation V) (e : RadishEvent V).

Abbreviation State := (RadishDB V * Disk)%type.

(** The calls that take a [shared_lock]. *)
Definition is_read (r : Request V) : bool := match r with ReqRead _ => true | _ => false end.

Definition read_reply a (q : Query) (db : RadishDB V) : Reply V :=
  let entries := data_order a (RadishStore.m_data (m_store db)) in
  match q with
  | QueryGet key => RepValue (RadishDB.Get (now a) key db)
  | QueryScan => RepKeys (RadishDB.Scan (key_now a) entries db)
  | QuerySize => RepSize (RadishDB.Size (key_now a) entries db)
  | QueryExists key => RepBool (RadishDB.Exists (now a) key db)
  | QueryIsExpired key => RepBool (RadishDB.IsExpired (now a) key db)
  end.

(** A whole call as one step, which is how [RadishDB] defines it. *)
Definition perform a (r : Request V) (st : State) : State * Reply V :=
  match r with
  | ReqMutate m => let '(st, b) := mutate (io a) (now a) m st in (st, RepMutate b)
  | ReqCompact =>
      let '(st, u) :=
        RadishDB.Compact (io a) (loop_now a) (key_now a) (event_order a) st in
      (st, RepCompact u)
  | ReqRead q => (st, read_reply a q st.1)
  end.

(** ** The steps of a thread *)

(** Where a thread is. *)
Inductive Stage :=
  | Idle
  | Waiting (r : Request V)                          (* for the [shared_mutex] *)
  | Reading (q : Query)                              (* holds it shared *)
  | Locked (r : Request V)                           (* holds it exclusively, and from here on *)
  | Built a m e                                      (* the event is constructed *)
  | Copied a m e (staged : RadishStore V)            (* [auto stagedStore = m_store] *)
  | Applying a m e (staged : RadishStore V)          (* holds the log's mutex *)
  | Applied a m e (outcome : result (bool * RadishStore V))
  | Appending a m e (staged : RadishStore V)         (* holds the log's mutex *)
  | Appended a m (staged : RadishStore V)
  | Compacting a                                     (* holds the log's mutex *)
  | Finishing a (r : Request V) (reply : Reply V)    (* about to release the [shared_mutex] *)
  | Returned a (r : Request V) (reply : Reply V).

(** One call that has taken effect. *)
Record Entry := MkEntry {
  entry_thread : nat;
  entry_around : Around V;
  entry_request : Request V;
  entry_reply : Reply V;
}.

(** What the threads share. [history] is not part of the program: it lists the
    calls in the order in which their replies were settled, the latest first. *)
Record Shared := MkShared {
  state : State;
  exclusive : option nat;          (* who holds [RadishDB::m_mutex] exclusively *)
  sharing : gset nat;              (* who holds it shared *)
  log_mutex : option nat;          (* who holds [PersistenceLog::m_mutex] *)
  history : list Entry;
}.

Definition set_state (st : State) (s : Shared) : Shared :=
  MkShared st (exclusive s) (sharing s) (log_mutex s) (history s).
Definition set_exclusive (t : option nat) (s : Shared) : Shared :=
  MkShared (state s) t (sharing s) (log_mutex s) (history s).
Definition set_sharing (ts : gset nat) (s : Shared) : Shared :=
  MkShared (state s) (exclusive s) ts (log_mutex s) (history s).
Definition set_log_mutex (t : option nat) (s : Shared) : Shared :=
  MkShared (state s) (exclusive s) (sharing s) t (history s).
Definition settle (t : nat) a (r : Request V) (reply : Reply V) (s : Shared) : Shared :=
  MkShared (state s) (exclusive s) (sharing s) (log_mutex s) (MkEntry t a r reply :: history s).

(** [Create] discards the result of [Commit] and always reports success. *)
Definition committed_reply m (r : result bool) : Reply V :=
  RepMutate (match m with MutCreate _ _ => let! _ := r in Ok true | _ => r end).

(** The end of a mutation whose [Commit] returned or threw [r]. *)
Definition end_mutation (t : nat) a m (r : result bool) (s : Shared) : Shared * Stage :=
  (settle t a (ReqMutate m) (committed_reply m r) s,
   Finishing a (ReqMutate m) (committed_reply m r)).

Definition end_compact (t : nat) a (r : result unit) (s : Shared) : Shared * Stage :=
  (settle t a ReqCompact (RepCompact r) s, Finishing a ReqCompact (RepCompact r)).

Definition persistence (s : Shared) : option (PersistenceLog V) := m_persistence (state s).1.
(** The lines of [Commit], with the mutex [PersistenceLog] takes in [Apply] and
    in [Append]. *)
Inductive commit_step (t : nat) : Shared * Stage -> Shared * Stage -> Prop :=
  | commit_copy a m e s : commit_step t (s, Built a m e) (s, Copied a m e (m_store (state s).1))
  | commit_lock_apply a m e staged log s :
      persistence s = Some log -> log_mutex s = None ->
      commit_step t (s, Copied a m e staged) (set_log_mutex (Some t) s, Applying a m e staged)
  | commit_apply a m e staged log s :
      persistence s = Some log ->
      commit_step t (s, Applying a m e staged)
        (set_log_mutex None s, Applied a m e (PersistenceLog.Apply (now a) log staged e))
  | commit_apply_memory a m e staged s :
      persistence s = None ->
      commit_step t (s, Copied a m e staged)
        (s, Applied a m e (RadishDB.ApplyEvent (now a) staged e))
  | commit_not_applied a m e staged s :
      commit_step t (s, Applied a m e (Ok (false, staged))) (end_mutation t a m (Ok false) s)
  | commit_apply_throws a m e x s :
      commit_step t (s, Applied a m e (Throw x)) (end_mutation t a m (Throw x) s)
  | commit_apply_undefined a m e s :
      commit_step t (s, Applied a m e Undefined) (end_mutation t a m Undefined s)
  | commit_lock_append a m e staged log s :
      persistence s = Some log -> log_mutex s = None ->
      commit_step t (s, Applied a m e (Ok (true, staged)))
        (set_log_mutex (Some t) s, Appending a m e staged)
  | commit_append a m e staged log s disk :
      persistence s = Some log ->
      PersistenceLog.Append (io a) log e (state s).2 = (disk, Ok tt) ->
      commit_step t (s, Appending a m e staged)
        (set_log_mutex None (set_state ((state s).1, disk) s), Appended a m staged)
  | commit_append_throws a m e staged log s disk x :
      persistence s = Some log ->
      PersistenceLog.Append (io a) log e (state s).2 = (disk, Throw x) ->
      commit_step t (s, Appending a m e staged)
        (end_mutation t a m (Throw x) (set_log_mutex None (set_state ((state s).1, disk) s)))
  | commit_append_undefined a m e staged log s disk :
      persistence s = Some log ->
      PersistenceLog.Append (io a) log e (state s).2 = (disk, Undefined) ->
      commit_step t (s, Appending a m e staged)
        (end_mutation t a m Undefined (set_log_mutex None (set_state ((state s).1, disk) s)))
  | commit_memory a m e staged s :
      persistence s = None ->
      commit_step t (s, Applied a m e (Ok (true, staged))) (s, Appended a m staged)
  | commit_swap a m staged s :
      commit_step t (s, Appended a m staged)
        (end_mutation t a m (Ok true)
           (set_state (MkRadishDB (Swap (m_store (state s).1) staged).1 (persistence s),
              (state s).2) s)).

(** [Compact] under the [shared_mutex]. *)
Inductive compact_step (t : nat) : Shared * Stage -> Shared * Stage -> Prop :=
  | compact_lock log s :
      persistence s = Some log -> log_mutex s = None -> forall a,
      compact_step t (s, Locked ReqCompact) (set_log_mutex (Some t) s, Compacting a)
  | compact_log a log s disk r :
      persistence s = Some log ->
      PersistenceLog.Compact (io a) (loop_now a) (key_now a) (event_order a) log (state s).2
        = (disk, r) ->
      compact_step t (s, Compacting a)
        (end_compact t a r (set_log_mutex None (set_state ((state s).1, disk) s)))
  | compact_memory a s :
      persistence s = None ->
      compact_step t (s, Locked ReqCompact) (end_compact t a (Ok tt) s).

(** One step of a call: taking the [shared_mutex], the work, giving it back. *)
Inductive call_step (t : nat) : Shared * Stage -> Shared * Stage -> Prop :=
  | call_lock_shared q s :
      exclusive s = None ->
      call_step t (s, Waiting (ReqRead q)) (set_sharing ({[t]} ∪ sharing s) s, Reading q)
  | call_lock r s :
      is_read r = false -> exclusive s = None -> sharing s = ∅ ->
      call_step t (s, Waiting r) (set_exclusive (Some t) s, Locked r)
  | call_read a q s :
      let reply := read_reply a q (state s).1 in
      call_step t (s, Reading q)
        (settle t a (ReqRead q) reply s, Finishing a (ReqRead q) reply)
  | call_event a m s :
      call_step t (s, Locked (ReqMutate m))
        (s, Built a m (event_of (now a) (m_store (state s).1) m))
  | call_commit x y : commit_step t x y -> call_step t x y
  | call_compact x y : compact_step t x y -> call_step t x y
  | call_unlock_shared a q reply s :
      call_step t (s, Finishing a (ReqRead q) reply)
        (set_sharing (sharing s ∖ {[t]}) s, Returned a (ReqRead q) reply)
  | call_unlock a r reply s :
      is_read r = false ->
      call_step t (s, Finishing a r reply) (set_exclusive None s, Returned a r reply).

(** All the threads, and one step of one of them. *)
Record Config := MkConfig { shared : Shared; stages : nat -> Stage }.

Inductive config_step : Config -> Config -> Prop :=
  | config_invoke t r s ss :
      ss t = Idle -> config_step (MkConfig s ss) (MkConfig s (<[t := Waiting r]> ss))
  | config_call t s ss s' x :
      call_step t (s, ss t) (s', x) -> config_step (MkConfig s ss) (MkConfig s' (<[t := x]> ss))
  | config_return t a r reply s ss :
      ss t = Returned a r reply -> config_step (MkConfig s ss) (MkConfig s (<[t := Idle]> ss)).

Definition start (st : State) : Config := MkConfig (MkShared st None ∅ None []) (fun _ => Idle).

Inductive reachable_config (st : State) : Config -> Prop :=
  | config_start : reachable_config st (start st)
  | config_next c c' : reachable_config st c -> config_step c c' -> reachable_config st c'.

(** ** The specification: the calls of the history, each one step *)

Inductive sequential (st : State) : list Entry -> State -> Prop :=
  | sequential_start : sequential st [] st
  | sequential_call h st1 t a r reply st2 :
      sequential st h st1 -> perform a r st1 = (st2, reply) ->
      sequential st (MkEntry t a r reply :: h) st2.

(** The latest entry of a thread. *)
Fixpoint latest (t : nat) (h : list Entry) : option Entry :=
  match h with
  | [] => None
  | entry :: h => if decide (entry_thread entry = t) then Some entry else latest t h
  end.

(** ** The invariant *)

Definition holds_exclusive (x : Stage) : bool :=
  match x with
  | Idle | Waiting _ | Reading _ | Returned _ _ _ => false
  | Finishing _ r _ => negb (is_read r)
  | _ => true
  end.

Definition holds_shared (x : Stage) : bool :=
  match x with Reading _ => true | Finishing _ r _ => is_read r | _ => false end.

Definition holds_log (x : Stage) : bool :=
  match x with Applying _ _ _ _ | Appending _ _ _ _ | Compacting _ => true | _ => false end.

(** The mutexes say of the thread what its stage says. *)
Definition locks_of (t : nat) (s : Shared) (x : Stage) : Prop :=
  (exclusive s = Some t <-> holds_exclusive x = true)
  /\ (t ∈ sharing s <-> holds_shared x = true)
  /\ (log_mutex s = Some t <-> holds_log x = true).

(** The two parts of [Commit]. *)
Definition outcome_of a e (st : State) : result (bool * RadishStore V) :=
  match m_persistence st.1 with
  | Some log => PersistenceLog.Apply (now a) log (m_store st.1) e
  | None => RadishDB.ApplyEvent (now a) (m_store st.1) e
  end.

Definition append_of a e (st : State) : Disk * result unit :=
  match m_persistence st.1 with
  | Some log => PersistenceLog.Append (io a) log e st.2
  | None => (st.2, Ok tt)
  end.

(** How far a thread in the stage [x] has taken the state from [st0], the state
    in which it took the [shared_mutex], to [st]. *)
Definition stage_ok (st0 st : State) (x : Stage) : Prop :=
  let event a m := event_of (now a) (m_store st0.1) m in
  match x with
  | Built a m e => st = st0 /\ e = event a m
  | Copied a m e staged => st = st0 /\ e = event a m /\ staged = m_store st0.1
  | Applying a m e staged =>
      st = st0 /\ e = event a m /\ staged = m_store st0.1 /\ m_persistence st0.1 <> None
  | Applied a m e outcome => st = st0 /\ e = event a m /\ outcome = outcome_of a e st0
  | Appending a m e staged =>
      st = st0 /\ e = event a m /\ outcome_of a e st0 = Ok (true, staged)
      /\ m_persistence st0.1 <> None
  | Appended a m staged =>
      st.1 = st0.1 /\ outcome_of a (event a m) st0 = Ok (true, staged)
      /\ append_of a (event a m) st0 = (st.2, Ok tt)
  | Locked r => st = st0 /\ is_read r = false
  | Compacting _ => st = st0 /\ m_persistence st0.1 <> None
  | Finishing _ r _ => is_read r = false -> st = st0
  | Idle | Waiting _ | Reading _ | Returned _ _ _ => True
  end.

Definition settled (t : nat) (h : list Entry) (x : Stage) : Prop :=
  match x with
  | Finishing a r reply | Returned a r reply => latest t h = Some (MkEntry t a r reply)
  | _ => True
  end.

Record config_inv (st : State) (c : Config) : Prop := {
  inv_locks : forall t, locks_of t (shared c) (stages c t);
  inv_excludes : exclusive (shared c) = None \/ sharing (shared c) = ∅;
  inv_settled : forall t, settled t (history (shared c)) (stages c t);
  inv_linear : exists st0, sequential st (history (shared c)) st0
    /\ (exclusive (shared c) = None -> state (shared c) = st0)
    /\ forall t, stage_ok st0 (state (shared c)) (stages c t);
}.

(** ** Lemmas *)

Lemma commit_parts a e st :
  Commit (io a) (now a) e st =
  match outcome_of a e st with
  | Ok (true, staged) =>
      match append_of a e st with
      | (disk, Ok _) =>
          ((MkRadishDB (Swap (m_store st.1) staged).1 (m_persistence st.1), disk), Ok true)
      | (disk, Throw x) => ((st.1, disk), Throw x)
      | (disk, Undefined) => ((st.1, disk), Undefined)
      end
  | Ok (false, _) => (st, Ok false)
  | Throw x => (st, Throw x)
  | Undefined => (st, Undefined)
  end.
Proof.
  destruct st as [[store [log|]] disk]; unfold Commit, outcome_of, append_of; simpl.
  - destruct (PersistenceLog.Apply _ _ _ _) as [[[] staged]| |]; [|done..].
    by destruct (PersistenceLog.Append _ _ _ _) as [d [[]| |]].
  - by destruct (RadishDB.ApplyEvent _ _ _) as [[[] staged]| |].
Qed.

Lemma perform_mutate a m st :
  perform a (ReqMutate m) st =
  let '(st', r) := Commit (io a) (now a) (event_of (now a) (m_store st.1) m) st in
  (st', committed_reply m r).
Proof.
  destruct m as [k v|k k'|k|]; unfold perform; cbn [mutate event_of].
  - unfold RadishDB.Create. fold (create_event (NewExpiryTimestamp (now a) (m_store st.1)) k v).
    destruct (Commit _ _ _ _) as [st' [b| |]]; done.
  - unfold RadishDB.Rename. by destruct (Commit _ _ _ _).
  - unfold RadishDB.Delete. by destruct (Commit _ _ _ _).
  - unfold RadishDB.Clear. by destruct (Commit _ _ _ _).
Qed.

(** Another thread's view of a mutex that a thread takes or gives back. *)
Lemma taken_by_other (o : option nat) t u (P : Prop) :
  o = None \/ o = Some t -> u <> t -> (o = Some u <-> P) -> (Some t = Some u <-> P).
Proof. intros [-> | ->] Hu <-; split; congruence. Qed.

Lemma freed_by_other (o : option nat) t u (P : Prop) :
  o = Some t -> u <> t -> (o = Some u <-> P) -> (None = Some u <-> P).
Proof. intros -> Hu <-. split; congruence. Qed.

Lemma free_after (t : nat) (P : Prop) : ~ P -> (None = Some t <-> P).
Proof. by split. Qed.

Lemma taken_after (t : nat) : Some t = Some t <-> true = true.
Proof. done. Qed.

Lemma call_step_locks t s x s' x' :
  call_step t (s, x) (s', x') -> locks_of t s x -> exclusive s = None \/ sharing s = ∅ ->
  locks_of t s' x' /\ (forall u y, u <> t -> locks_of u s y -> locks_of u s' y)
  /\ (exclusive s' = None \/ sharing s' = ∅).
Proof.
  unfold locks_of. intros Hc.
  inversion Hc as [| | | |? ? Hm|? ? Hm| |]; subst; try (inversion Hm; subst); simpl;
    intros (Hex & Hsh & Hlog) Hor.
  all: split; [split_and!|split; [intros u y Hu (Hex' & Hsh' & Hlog'); split_and!|]].
  all: try match goal with E : is_read _ = false |- _ => rewrite E in * end.
  all: rewrite ?elem_of_union, ?elem_of_difference, ?elem_of_singleton.
  all: first [done | by left | by right | by apply free_after | tauto
    | eapply taken_by_other; [|done|eassumption]; auto; fail
    | eapply freed_by_other; [|done|eassumption]; tauto
    | by split; [intros [_ []]|]
    | destruct Hor as [?|Hor]; [by left|]; rewrite Hor in Hsh;
      by destruct (not_elem_of_empty (C := gset nat) t); apply Hsh ].
Qed.

(** A step of a call that started in [st0] leaves it at the next stage, or
    settles its reply as the specification does. *)
Definition progress (t : nat) (st0 : State) (s s' : Shared) (x' : Stage) : Prop :=
  (history s' = history s /\ stage_ok st0 (state s') x'
   /\ (exclusive s' = None -> state s' = st0) /\ settled t (history s) x')
  \/ exists a r reply, x' = Finishing a r reply
     /\ history s' = MkEntry t a r reply :: history s
     /\ perform a r st0 = (state s', reply).

Lemma end_mutation_progress t st0 a m r s s' x' :
  end_mutation t a m r s = (s', x') -> 
  Commit (io a) (now a) (event_of (now a) (m_store st0.1) m) st0 = (state s, r) ->
  progress t st0 s s' x'.
Proof.
  intros [= <- <-] Hc. right. exists a, (ReqMutate m), (committed_reply m r).
  split_and!; [done|done|]. by rewrite perform_mutate, Hc.
Qed.

Lemma outcome_with_log a e st log :
  m_persistence st.1 = Some log ->
  outcome_of a e st = PersistenceLog.Apply (now a) log (m_store st.1) e.
Proof. unfold outcome_of. by intros ->. Qed.

Lemma outcome_in_memory a e st :
  m_persistence st.1 = None -> outcome_of a e st = RadishDB.ApplyEvent (now a) (m_store st.1) e.
Proof. unfold outcome_of. by intros ->. Qed.

Lemma append_with_log a e st log :
  m_persistence st.1 = Some log -> append_of a e st = PersistenceLog.Append (io a) log e st.2.
Proof. unfold append_of. by intros ->. Qed.

Lemma append_in_memory a e st : m_persistence st.1 = None -> append_of a e st = (st.2, Ok tt).
Proof. unfold append_of. by intros ->. Qed.

Ltac rewrite_append :=
  match goal with E : PersistenceLog.Append _ _ _ _ = _ |- _ => rewrite E end.

(** A step inside the exclusive section that settles nothing. *)
Lemma progress_inside t st0 s s' x' :
  exclusive s' <> None -> history s' = history s -> (forall h, settled t h x') ->
  stage_ok st0 (state s') x' -> progress t st0 s s' x'.
Proof. intros He Hh Hs Hok. left. by split_and!. Qed.

Lemma commit_step_progress t st0 s x s' x' :
  commit_step t (s, x) (s', x') -> exclusive s' <> None -> stage_ok st0 (state s) x ->
  progress t st0 s s' x'.
Proof.
  intros Hc. inversion Hc; subst; intros He Hok; simpl in Hok; unfold persistence in *.
  all: try (apply progress_inside; [exact He|done|done|]).
  - destruct Hok as [Hst ->]. simpl. by rewrite Hst.
  - destruct Hok as (<- & -> & ->). split_and!; [done..|]. congruence.
  - destruct Hok as (<- & -> & -> & _). split_and!; [done..|]. by erewrite outcome_with_log.
  - destruct Hok as (<- & -> & ->). split_and!; [done..|]. by erewrite outcome_in_memory.
  - destruct Hok as (<- & -> & Ho). eapply end_mutation_progress; [done|].
    by rewrite commit_parts, <- Ho.
  - destruct Hok as (<- & -> & Ho). eapply end_mutation_progress; [done|].
    by rewrite commit_parts, <- Ho.
  - destruct Hok as (<- & -> & Ho). eapply end_mutation_progress; [done|].
    by rewrite commit_parts, <- Ho.
  - destruct Hok as (<- & -> & Ho). split_and!; [done..|congruence].
  - destruct Hok as (<- & -> & Ho & _). split_and!; [done..|]. by erewrite append_with_log.
  - destruct Hok as (<- & -> & Ho & _).
    eapply (end_mutation_progress _ _ _ _ _ (set_log_mutex None (set_state ((state s).1, disk) s)));
      [done|]. rewrite commit_parts, Ho. erewrite append_with_log by eassumption. by rewrite_append.
  - destruct Hok as (<- & -> & Ho & _).
    eapply (end_mutation_progress _ _ _ _ _ (set_log_mutex None (set_state ((state s).1, disk) s)));
      [done|]. rewrite commit_parts, Ho. erewrite append_with_log by eassumption. by rewrite_append.
  - destruct Hok as (<- & -> & Ho). split_and!; [done..|]. by rewrite append_in_memory.
  - destruct Hok as (Hdb & Ho & Ha).
    eapply (end_mutation_progress _ _ _ _ _ (set_state (MkRadishDB (Swap (m_store (state s).1) staged).1
      (m_persistence (state s).1), (state s).2) s)); [done|].
    by rewrite commit_parts, Ho, Ha, Hdb.
Qed.

Lemma compact_step_progress t st0 s x s' x' :
  compact_step t (s, x) (s', x') -> exclusive s' <> None -> stage_ok st0 (state s) x ->
  progress t st0 s s' x'.
Proof.
  intros Hc. inversion Hc; subst; intros He Hok; simpl in Hok; unfold persistence in *.
  - apply progress_inside; [done..|]. destruct Hok as [<- _]. split; [done|congruence].
  - right. eexists a, ReqCompact, _. split_and!; [done|done|]. destruct Hok as [<- _].
    unfold perform, RadishDB.Compact. destruct (state s) as [db d]. simpl in *.
    match goal with E : m_persistence db = _ |- _ => rewrite E end.
    by match goal with E : PersistenceLog.Compact _ _ _ _ _ _ = _ |- _ => rewrite E end.
  - right. eexists a, ReqCompact, _. split_and!; [done|done|]. destruct Hok as [<- _].
    unfold perform, RadishDB.Compact. simpl. destruct (state s) as [db d]. simpl in *.
    by match goal with E : m_persistence db = _ |- _ => rewrite E end.
Qed.

Lemma commit_step_exclusive t s x s' x' :
  commit_step t (s, x) (s', x') -> holds_exclusive x = true /\ exclusive s' = exclusive s.
Proof. intros Hc. by inversion Hc; subst. Qed.

Lemma compact_step_exclusive t s x s' x' :
  compact_step t (s, x) (s', x') -> holds_exclusive x = true /\ exclusive s' = exclusive s.
Proof. intros Hc. by inversion Hc; subst. Qed.

Lemma call_step_progress t st0 s x s' x' :
  call_step t (s, x) (s', x') -> locks_of t s x -> exclusive s = None \/ sharing s = ∅ ->
  (exclusive s = None -> state s = st0) -> stage_ok st0 (state s) x ->
  settled t (history s) x -> progress t st0 s s' x'.
Proof.
  intros Hc (Hex & Hsh & _) Hor Hst Hok Hset.
  assert (Hshared : holds_shared x = true -> state s = st0).
  { intros Hx%Hsh. apply Hst. destruct Hor as [|E]; [done|]. rewrite E in Hx.
    by apply not_elem_of_empty in Hx. }
  inversion Hc as [| | | |? ? Hm|? ? Hm| |]; subst; simpl in *.
  - by left.
  - left. split_and!; [done| |done|done]. split; [by apply Hst|done].
  - right. eexists _, _, _. split_and!; [done..|]. by rewrite <- (Hshared eq_refl).
  - left. split_and!; [done| |done|done]. destruct Hok as [-> _]. done.
  - destruct (commit_step_exclusive _ _ _ _ _ Hm) as [Hx He].
    eapply commit_step_progress; [done| |done]. by rewrite He, (proj2 Hex Hx).
  - destruct (compact_step_exclusive _ _ _ _ _ Hm) as [Hx He].
    eapply compact_step_progress; [done| |done]. by rewrite He, (proj2 Hex Hx).
  - left. split_and!; [done..| |done]. intros _. by apply Hshared.
  - left. split_and!; [done..| |done]. intros _. by apply Hok.
Qed.

(** Only the holder of the [shared_mutex] moves while it is held exclusively. *)
Lemma call_step_alone t s x s' x' :
  call_step t (s, x) (s', x') -> locks_of t s x -> exclusive s = None \/ sharing s = ∅ ->
  exclusive s = None \/ exclusive s = Some t.
Proof.
  intros Hc (Hex & Hsh & _) Hor.
  assert (Hshared : holds_shared x = true -> exclusive s = None).
  { intros Hx%Hsh. destruct Hor as [|E]; [done|]. rewrite E in Hx.
    by apply not_elem_of_empty in Hx. }
  inversion Hc as [| | | |? ? Hm|? ? Hm| |]; subst; simpl in *; try (by left; auto); right; apply Hex;
    try done.
  - by apply commit_step_exclusive in Hm as [? _].
  - by apply compact_step_exclusive in Hm as [? _].
  - by match goal with E : is_read _ = false |- _ => rewrite E end.
Qed.

Lemma latest_settle t a r reply h :
  latest t (MkEntry t a r reply :: h) = Some (MkEntry t a r reply).
Proof. simpl. by rewrite decide_True. Qed.

Lemma latest_other t u a r reply h : u <> t -> latest u (MkEntry t a r reply :: h) = latest u h.
Proof. intros Hu. simpl. by rewrite decide_False. Qed.

Lemma settled_other t u a r reply h x :
  u <> t -> settled u h x -> settled u (MkEntry t a r reply :: h) x.
Proof. intros Hu. destruct x; unfold settled; by rewrite ?latest_other. Qed.

(** A thread that does not hold the [shared_mutex] exclusively has no part in
    the state. *)
Lemma stage_ok_outside st0 st st1 st2 x :
  holds_exclusive x = false -> stage_ok st0 st x -> stage_ok st1 st2 x.
Proof. destruct x as [| | | | | | | | | | |a r reply|]; simpl; try done. by destruct (is_read r). Qed.

Lemma config_inv_start st : config_inv st (start st).
Proof. split; simpl; [by intros t|by left|by intros t|]. exists st. by split_and!; [constructor|..]. Qed.

Lemma config_inv_call st t s ss s' x :
  config_inv st (MkConfig s ss) -> call_step t (s, ss t) (s', x) ->
  config_inv st (MkConfig s' (<[t := x]> ss)).
Proof.
  intros [Hl Hor Hset (st0 & Hseq & Hst & Hok)] Hc. simpl in *.
  destruct (call_step_locks _ _ _ _ _ Hc (Hl t) Hor) as (Hl1 & Hl2 & Hor').
  pose proof (call_step_alone _ _ _ _ _ Hc (Hl t) Hor) as Halone.
  assert (Hout : forall u, u <> t -> holds_exclusive (ss u) = false).
  { intros u Hu. destruct (holds_exclusive (ss u)) eqn:E; [|done].
    destruct (Hl u) as [Hx _]. apply Hx in E. destruct Halone; congruence. }
  assert (Hlocks : forall u, locks_of u s' (<[t := x]> ss u)).
  { intros u. destruct (decide (u = t)) as [->|Hu]; [by rewrite fn_lookup_insert|].
    rewrite fn_lookup_insert_ne by done. by apply Hl2. }
  destruct (call_step_progress t st0 _ _ _ _ Hc (Hl t) Hor Hst (Hok t) (Hset t))
    as [(Hh & Hok' & Hst' & Hs')|(a & r & reply & -> & Hh & Hp)].
  - split; simpl; [done|done| |].
    + intros u. rewrite Hh. destruct (decide (u = t)) as [->|Hu]; [by rewrite fn_lookup_insert|].
      by rewrite fn_lookup_insert_ne.
    + exists st0. rewrite Hh. split_and!; [done|done|]. intros u.
      destruct (decide (u = t)) as [->|Hu]; [by rewrite fn_lookup_insert|].
      rewrite fn_lookup_insert_ne by done. eapply stage_ok_outside; [by apply Hout|apply Hok].
  - split; simpl; [done|done| |].
    + intros u. rewrite Hh. destruct (decide (u = t)) as [->|Hu].
      * rewrite fn_lookup_insert. apply latest_settle.
      * rewrite fn_lookup_insert_ne by done. by apply settled_other.
    + exists (state s'). rewrite Hh. split_and!; [by eapply sequential_call|done|]. intros u.
      destruct (decide (u = t)) as [->|Hu]; [by rewrite fn_lookup_insert|].
      rewrite fn_lookup_insert_ne by done. eapply stage_ok_outside; [by apply Hout|apply Hok].
Qed.

(** A thread that holds nothing moves between stages that hold nothing. *)
Lemma config_inv_outside st t s ss x :
  config_inv st (MkConfig s ss) ->
  holds_exclusive (ss t) = holds_exclusive x -> holds_shared (ss t) = holds_shared x ->
  holds_log (ss t) = holds_log x ->
  (forall h, settled t h x) -> (forall st0 st1, stage_ok st0 st1 x) ->
  config_inv st (MkConfig s (<[t := x]> ss)).
Proof.
  intros [Hl Hor Hset (st0 & Hseq & Hst & Hok)] H1 H2 H3 Hx Hx'. simpl in *.
  split; simpl; [|done| |].
  - intros u. destruct (decide (u = t)) as [->|Hu]; [|by rewrite fn_lookup_insert_ne].
    rewrite fn_lookup_insert. unfold locks_of. rewrite <- H1, <- H2, <- H3. apply Hl.
  - intros u. destruct (decide (u = t)) as [->|Hu]; [by rewrite fn_lookup_insert|].
    by rewrite fn_lookup_insert_ne.
  - exists st0. split_and!; [done..|]. intros u.
    destruct (decide (u = t)) as [->|Hu]; [by rewrite fn_lookup_insert|].
    by rewrite fn_lookup_insert_ne.
Qed.

Lemma reachable_config_inv st c : reachable_config st c -> config_inv st c.
Proof.
  induction 1 as [|c c' _ IH Hstep]; [apply config_inv_start|].
  destruct Hstep as [t r s ss Ht|t s ss s' x Hc|t a r reply s ss Ht].
  - by apply config_inv_outside; try rewrite Ht.
  - by eapply config_inv_call.
  - by apply config_inv_outside; try rewrite Ht.
Qed.

(** *** Progress *)

(** The call a thread is in. *)
Definition request_of (x : Stage) : option (Request V) :=
  match x with
  | Idle => None
  | Waiting r | Locked r | Finishing _ r _ | Returned _ r _ => Some r
  | Reading q => Some (ReqRead q)
  | Built _ m _ | Copied _ m _ _ | Applying _ m _ _ | Applied _ m _ _ | Appending _ m _ _
  | Appended _ m _ => Some (ReqMutate m)
  | Compacting _ => Some ReqCompact
  end.

(** More than the steps a call has before it returns. *)
Definition remaining (x : Stage) : nat :=
  match x with
  | Idle | Returned _ _ _ => 0
  | Waiting _ => 10
  | Locked _ => 9
  | Built _ _ _ => 8
  | Copied _ _ _ _ => 7
  | Applying _ _ _ _ => 6
  | Applied _ _ _ _ => 5
  | Appending _ _ _ _ => 4
  | Appended _ _ _ | Compacting _ | Reading _ => 3
  | Finishing _ _ _ => 1
  end.

Lemma call_step_remaining t s x s' x' :
  call_step t (s, x) (s', x') ->
  (remaining x' < remaining x)%nat /\ request_of x' = request_of x.
Proof.
  intros Hc. inversion Hc as [| | | |? ? Hm|? ? Hm| |]; subst; try (inversion Hm; subst);
    simpl; split; try done; lia.
Qed.

(** The thread that holds the [shared_mutex] exclusively is never blocked. *)
Lemma holder_moves t st0 s x :
  holds_exclusive x = true -> (holds_log x = false -> log_mutex s = None) ->
  stage_ok st0 (state s) x -> exists s' x', call_step t (s, x) (s', x').
Proof.
  intros Hx Hlog Hok. pose (a0 := MkAround (V := V) io_ok 0 (fun _ => 0) (fun _ => 0)
    (fun data => map_to_list data) (fun events => map_to_list events)).
  assert (Hno : m_persistence st0.1 <> None -> state s = st0 -> persistence s <> None)
    by (unfold persistence; congruence).
  destruct x as [| | |[m| |q]|a m e|a m e st|a m e st|a m e [[[] st]|z|]|a m e st|a m st|a|a r reply|];
    try done; simpl in Hlog, Hok.
  - eexists _, _. apply (call_event t a0).
  - destruct (persistence s) as [log|] eqn:Ep; eexists _, _; apply call_compact.
    + by apply (compact_lock t log s Ep (Hlog eq_refl) a0).
    + by apply (compact_memory t a0 s).
  - by destruct Hok.
  - eexists _, _. apply call_commit, commit_copy.
  - destruct (persistence s) as [log|] eqn:Ep; eexists _, _; apply call_commit.
    + by apply (commit_lock_apply t a m e st log s Ep), Hlog.
    + by apply commit_apply_memory.
  - destruct Hok as (Hst & _ & _ & Hp). destruct (persistence s) as [log|] eqn:Ep; [|by destruct (Hno Hp Hst)].
    eexists _, _. by eapply call_commit, commit_apply.
  - destruct (persistence s) as [log|] eqn:Ep; eexists _, _; apply call_commit.
    + by apply (commit_lock_append t a m e st log s Ep), Hlog.
    + by apply commit_memory.
  - eexists _, _. apply call_commit, commit_not_applied.
  - eexists _, _. apply call_commit, commit_apply_throws.
  - eexists _, _. apply call_commit, commit_apply_undefined.
  - destruct Hok as (Hst & _ & _ & Hp). destruct (persistence s) as [log|] eqn:Ep; [|by destruct (Hno Hp Hst)].
    destruct (PersistenceLog.Append (io a) log e (state s).2) as [disk [[]|z|]] eqn:Ea;
      eexists _, _; apply call_commit;
      [by eapply commit_append|by eapply commit_append_throws|by eapply commit_append_undefined].
  - eexists _, _. apply call_commit, commit_swap.
  - destruct Hok as (Hst & Hp). destruct (persistence s) as [log|] eqn:Ep; [|by destruct (Hno Hp Hst)].
    eexists _, _. apply call_compact. by eapply compact_log; [|apply surjective_pairing].
  - eexists _, _. apply call_unlock. simpl in Hx. by destruct (is_read r).
Qed.

Lemma sharer_moves t s x :
  holds_shared x = true -> exists s' x', call_step t (s, x) (s', x').
Proof.
  intros Hx. pose (a0 := MkAround (V := V) io_ok 0 (fun _ => 0) (fun _ => 0)
    (fun data => map_to_list data) (fun events => map_to_list events)).
  destruct x as [| |q| | | | | | | | |a [| |q] reply|]; try done.
  - eexists _, _. by apply (call_read t a0).
  - eexists _, _. apply call_unlock_shared.
Qed.

(** As long as a call has not returned, the step of some call is possible. *)
Lemma some_call_moves st s ss t r :
  config_inv st (MkConfig s ss) -> request_of (ss t) = Some r ->
  (forall a reply, ss t <> Returned a r reply) ->
  exists u s' x, call_step u (s, ss u) (s', x).
Proof.
  intros [Hl Hor _ (st0 & _ & _ & Hok)] Hr Hret. simpl in *.
  destruct (exclusive s) as [u|] eqn:Ex.
  - exists u. destruct (Hl u) as ([Hx _] & _ & Hlog). apply (holder_moves u st0); [by apply Hx| |apply Hok].
    intros Hn. destruct (log_mutex s) as [v|] eqn:Ev; [|done]. exfalso.
    destruct (Hl v) as ([_ Hv] & _ & [Hlv _]). specialize (Hlv Ev).
    assert (holds_exclusive (ss v) = true) as Hv'%Hv by by destruct (ss v).
    rewrite Ex in Hv'. injection Hv' as <-. congruence.
  - destruct (decide (sharing s = ∅)) as [He|(u & Hu)%set_choose_L].
    + exists t. destruct (Hl t) as ([_ Hx] & [_ Hsh] & _). rewrite Ex in Hx. rewrite He in Hsh.
      destruct (ss t) as [|[m| |q]|q| | | | | | | | |a r' reply|a r' reply]; try done; simpl in *;
        try (by discriminate (Hx eq_refl)).
      * eexists _, _. by apply call_lock.
      * eexists _, _. by apply call_lock.
      * eexists _, _. by apply call_lock_shared.
      * by destruct (not_elem_of_empty (C := gset nat) t); apply Hsh.
      * destruct (is_read r'); [|by discriminate (Hx eq_refl)].
        by destruct (not_elem_of_empty (C := gset nat) t); apply Hsh.
      * injection Hr as ->. by destruct (Hret a reply).
    + exists u. apply sharer_moves. by apply (Hl u).
Qed.

(** ** Properties *)

(** C6: many threads may call the database at once. The calls take effect one
    at a time: in every reachable state the replies settled so far, in their
    order, are those of calls made one after the other on the database, whose
    result is the database and the disk unless a call is writing; a call that
    has returned got the last reply settled for its thread; and a reply is
    settled by a step of its own call, between the invocation and the return. *)
Theorem calls_are_atomic st c :
  reachable_config st c ->
  (exists st', sequential st (history (shared c)) st'
    /\ (exclusive (shared c) = None -> state (shared c) = st'))
  /\ (forall t a r reply, stages c t = Returned a r reply ->
        latest t (history (shared c)) = Some (MkEntry t a r reply))
  /\ forall c', config_step c c' ->
       history (shared c') = history (shared c)
       \/ exists t a r reply, history (shared c') = MkEntry t a r reply :: history (shared c)
          /\ request_of (stages c t) = Some r /\ (remaining (stages c t) > 1)%nat
          /\ stages c' t = Finishing a r reply.
Proof.
  intros Hr%reachable_config_inv. pose proof Hr as [Hl Hor Hset (st0 & Hseq & Hst & Hok)].
  split_and!; [by exists st0| |].
  - intros t a r reply E. specialize (Hset t). by rewrite E in Hset.
  - intros c' Hstep. destruct Hstep as [t r s ss Ht|t s ss s' x Hc|t a r reply s ss Ht]; [by left| |by left].
    simpl in *. destruct (call_step_progress t st0 _ _ _ _ Hc (Hl t) Hor Hst (Hok t) (Hset t))
      as [(Hh & _)|(a & r & reply & -> & Hh & _)]; [by left|right].
    destruct (call_step_remaining _ _ _ _ _ Hc) as [Hrem Hreq]. simpl in Hrem, Hreq.
    exists t, a, r, reply. split_and!; [done|by symmetry|lia|apply fn_lookup_insert].
Qed.

(** C31: a thread that writes is alone: while it holds the database's mutex no
    other thread is between taking and releasing it, reading or writing; and
    the mutex of the log is only ever taken by the thread that writes, which
    never waits for it. *)
Theorem writer_is_alone st c t :
  reachable_config st c -> holds_exclusive (stages c t) = true ->
  (forall u, u <> t -> holds_exclusive (stages c u) = false)
  /\ (forall u, holds_shared (stages c u) = false)
  /\ (forall u, holds_log (stages c u) = true -> u = t)
  /\ (log_mutex (shared c) = None \/ holds_log (stages c t) = true).
Proof.
  intros [Hl Hor _ _]%reachable_config_inv Ht.
  destruct (Hl t) as ([_ Hx] & _ & _). specialize (Hx Ht).
  assert (Hother : forall u, holds_exclusive (stages c u) = true -> u = t).
  { intros u Hu. destruct (Hl u) as ([_ Hxu] & _). specialize (Hxu Hu). congruence. }
  assert (Hlog : forall u, holds_log (stages c u) = true -> u = t).
  { intros u Hu. apply Hother. by destruct (stages c u). }
  split_and!; [| |done|].
  - intros u Hu. destruct (holds_exclusive (stages c u)) eqn:E; [|done]. by destruct Hu; apply Hother.
  - intros u. destruct (holds_shared (stages c u)) eqn:E; [|done]. destruct (Hl u) as (_ & [_ Hs] & _).
    destruct Hor as [Hn|He]; [congruence|]. specialize (Hs E). rewrite He in Hs.
    by apply not_elem_of_empty in Hs.
  - destruct (log_mutex (shared c)) as [v|] eqn:E; [right|by left].
    destruct (Hl v) as (_ & _ & [Hv _]). specialize (Hv E). by rewrite <- (Hlog v Hv).
Qed.

(** There is no deadlock: as long as some call has not returned, a call
    can make a step; and each step brings its call, which stays the same, closer
    to its return. *)
Theorem calls_complete st c t r :
  reachable_config st c -> request_of (stages c t) = Some r ->
  (forall a reply, stages c t <> Returned a r reply) ->
  exists u s x, call_step u (shared c, stages c u) (s, x)
    /\ config_step c (MkConfig s (<[u := x]> (stages c)))
    /\ request_of x = request_of (stages c u)
    /\ (remaining x < remaining (stages c u))%nat.
Proof.
  intros Hc%reachable_config_inv Hr Hret. destruct c as [s ss].
  destruct (some_call_moves st s ss t r Hc Hr Hret) as (u & s' & x & Hstep).
  destruct (call_step_remaining _ _ _ _ _ Hstep) as [H1 H2].
  exists u, s', x. split_and!; [done|by apply config_call|done|done].
Qed.

End concurrency.

Section durability.
Context {V : Type} `{BinaryValueLaws V}.

(** A call on a working device, of a mutation that is [allowed]. *)
Definition durable_call (allowed : Mutation V -> Prop) (entry : Entry (V := V)) : Prop :=
  match entry_request entry with
  | ReqMutate m => valid_mutation m /\ allowed m /\ io (entry_around entry) = io_ok
  | ReqCompact => map_iteration (event_order (entry_around entry))
  | ReqRead _ => True
  end.

Lemma sequential_reachable filename allowed st h st' :
  reachable filename (-1) allowed st -> no_self_renames allowed ->
  Forall (durable_call allowed) h -> sequential st h st' -> reachable filename (-1) allowed st'.
Proof.
  intros Hr Hn Hh Hs. revert Hh.
  induction Hs as [|h st1 t a r reply st2 _ IH Hp]; [done|].
  intros [Hd Hh]%Forall_cons. specialize (IH Hh). unfold durable_call in Hd. simpl in Hd.
  destruct r as [m| |q]; unfold perform in Hp.
  - destruct Hd as (Hv & Ha & Hio). rewrite Hio in Hp.
    destruct (mutate io_ok (now a) m st1) as [st3 b] eqn:E. injection Hp as -> _.
    by eapply reach_mutate.
  - destruct (RadishDB.Compact _ _ _ _ st1) as [st3 u] eqn:E. injection Hp as -> _.
    by eapply reach_compact.
  - by injection Hp as -> _.
Qed.

(** Whatever the threads did, whenever none of them is writing the file of
    the database restores the database in memory (no time to live, no key
    renamed to itself, the disk works for the mutations; compactions may
    fail). *)
Theorem threads_leave_durable_database filename allowed st c now' :
  reachable filename (-1) allowed st -> no_self_renames allowed ->
  reachable_config st c -> exclusive (shared c) = None ->
  Forall (durable_call allowed) (history (shared c)) ->
  NewRadishDB_ttl io_ok now' filename (-1) Flush (state (shared c)).2
    = ((state (shared c)).2, Ok (state (shared c)).1).
Proof.
  intros Hr Hn [_ _ _ (st' & Hseq & Hst & _)]%reachable_config_inv He Hh.
  rewrite (Hst He).
  pose proof (sequential_reachable _ _ _ _ _ Hr Hn Hh Hseq) as Hr'.
  destruct (reachable_inv _ _ _ _ Hr') as (nw & es & Hinv & Hes).
  eapply reopen; [exact Hinv|].
  apply (allowed_clock (-1) allowed); [by left|exact Hes].
Qed.

End durability.

(** ** Witnesses

    A database without a log, which one thread writes while another waits to
    read. *)

Definition around_example : Around bytes :=
  MkAround io_ok 5 (fun _ => 5) (fun _ => 5) (fun m => map_to_list m) (fun m => map_to_list m).

Definition memory_db : RadishDB bytes * Disk := (MkRadishDB (NewStore (-1)) None, ∅).

Definition create_a : Request bytes := ReqMutate (MutCreate (str "a") (str "1")).
Definition get_a : Request bytes := ReqRead (QueryGet (str "a")).

Definition waiting_stages : nat -> Stage (V := bytes) :=
  <[1%nat := Waiting get_a]> (<[0%nat := Waiting create_a]> (fun _ => Idle)).

Definition waiting_config : Config (V := bytes) :=
  MkConfig (MkShared memory_db None ∅ None []) waiting_stages.

Lemma waiting_reachable : reachable_config memory_db waiting_config.
Proof.
  apply (config_next memory_db (MkConfig (MkShared memory_db None ∅ None [])
    (<[0%nat := Waiting create_a]> (fun _ => Idle)))); [|by apply config_invoke].
  apply (config_next memory_db (start memory_db)); [apply config_start|by apply config_invoke].
Qed.

Definition locked_config : Config (V := bytes) :=
  MkConfig (set_exclusive (Some 0%nat) (shared waiting_config))
    (<[0%nat := Locked create_a]> waiting_stages).

Lemma locked_reachable : reachable_config memory_db locked_config.
Proof.
  eapply config_next; [exact waiting_reachable|]. apply config_call.
  by apply (call_lock 0 create_a (shared waiting_config)).
Qed.

(** From here on only the first thread moves. *)
Lemma example_moves s ss x s' x' :
  reachable_config memory_db (MkConfig s (<[0%nat := x]> ss)) -> call_step 0 (s, x) (s', x') ->
  reachable_config memory_db (MkConfig s' (<[0%nat := x']> (<[0%nat := x]> ss))).
Proof. intros Hr Hc. eapply config_next; [exact Hr|]. by apply config_call. Qed.

Definition example_reply : Reply bytes := RepMutate (Ok true).

Lemma example_returns :
  exists s ss, reachable_config memory_db
    (MkConfig s (<[0%nat := Returned around_example create_a example_reply]> ss))
    /\ exclusive s = None.
Proof.
  pose proof (example_moves _ _ _ _ _ locked_reachable (call_event 0 around_example _ _)) as Hr.
  eapply example_moves in Hr; [|by eapply call_commit, commit_copy].
  eapply example_moves in Hr; [|by eapply call_commit, commit_apply_memory].
  eapply example_moves in Hr; [|by eapply call_commit, commit_memory].
  eapply example_moves in Hr; [|by eapply call_commit, commit_swap].
  eapply example_moves in Hr; [|by eapply call_unlock].
  eexists _, _. split; [exact Hr|reflexivity].
Qed.

Lemma calls_are_atomic_witness :
  exists c, reachable_config memory_db c
    /\ latest 0 (history (shared c)) = Some (MkEntry 0 around_example create_a example_reply).
Proof.
  destruct example_returns as (s & ss & Hr & _).
  eexists. split; [exact Hr|].
  apply (calls_are_atomic memory_db _ Hr). apply fn_lookup_insert.
Defined.

Lemma writer_is_alone_witness : holds_exclusive (stages locked_config 1) = false.
Proof. apply (writer_is_alone memory_db locked_config 0 locked_reachable eq_refl). discriminate. Defined.

Lemma calls_complete_witness :
  exists u s x, call_step u (shared waiting_config, stages waiting_config u) (s, x).
Proof.
  destruct (calls_complete memory_db waiting_config 1 get_a waiting_reachable eq_refl)
    as (u & s & x & H & _); [discriminate|].
  exists u, s, x. exact H.
Defined.

Definition read_config : Config (V := bytes) :=
  MkConfig (settle 0 around_example get_a (RepValue (Some (str "1")))
      (set_sharing ({[0%nat]} ∪ ∅) (MkShared example_db None ∅ None [])))
    (<[0%nat := Finishing around_example get_a (RepValue (Some (str "1")))]>
      (<[0%nat := Reading (QueryGet (str "a"))]>
        (<[0%nat := Waiting get_a]> (fun _ => Idle)))).

Lemma read_reachable : reachable_config example_db read_config.
Proof.
  eapply config_next; [eapply config_next; [eapply config_next; [apply config_start|]|]|].
  - by apply (config_invoke 0 get_a).
  - apply (config_call 0). by apply (call_lock_shared 0 (QueryGet (str "a"))).
  - apply (config_call 0). apply (call_read 0 around_example (QueryGet (str "a"))).
Qed.

Lemma threads_leave_durable_database_witness :
  NewRadishDB_ttl io_ok (fun _ => 0) (str "d") (-1) Flush example_db.2
  = (example_db.2, Ok example_db.1).
Proof.
  apply (threads_leave_durable_database (str "d") (fun m => is_self_rename m = false) example_db
    read_config (fun _ => 0) example_db_reachable).
  - intros m Hm. exact Hm.
  - exact read_reachable.
  - reflexivity.
  - apply Forall_cons. split; [exact I|apply Forall_nil; exact I].
Defined.
