(* ===== verification/ThreadProgress.v ===== *)
(** The threads of [Concurrency] when no new call is made: every call returns.

    [calls_complete] gives a step towards the return of some call. Here the
    steps are put together: whatever order the scheduler and the mutexes choose,
    there are only so many of them, and they can not stop before every thread
    is done. *)

From S2P Require Import Prelude Streams BinaryFile RadishEvent RadishStore LogWriter PersistenceLog RadishDB.
From S2P Require Import Concurrency.
From stdpp Require Import functions gmap relations.
Open Scope Z_scope.

Section progress.
Context {V : Type} `{BinaryValue V}.
Implicit Types (c : Config (V := V)) (x : Stage (V := V)).

(** A step of a call, or the return to the caller. *)
Inductive work_step : Config (V := V) -> Config (V := V) -> Prop :=
  | work_call t s ss s' x :
      call_step t (s, ss t) (s', x) -> work_step (MkConfig s ss) (MkConfig s' (<[t := x]> ss))
  | work_return t a r reply s ss :
      ss t = Returned a r reply -> work_step (MkConfig s ss) (MkConfig s (<[t := Idle]> ss)).

Lemma work_step_config c c' : work_step c c' -> config_step c c'.
Proof. destruct 1; [by apply config_call|by eapply config_return]. Qed.

Lemma work_steps_reachable st c c' : reachable_config st c -> rtc work_step c c' -> reachable_config st c'.
Proof.
  intros Hc. induction 1 as [c|c c1 c' Hs _ IH] in Hc |- *; [done|]. apply IH.
  eapply config_next; [exact Hc|]. by apply work_step_config.
Qed.

(** More than the steps a thread has before it is idle again. *)
Definition weight x : nat := match x with Idle => 0 | _ => S (remaining x) end.

Definition total (ts : list nat) c : nat := sum_list (map (fun t => weight (stages c t)) ts).

(** The threads not listed are idle. *)
Definition only (ts : list nat) c : Prop := forall t, t ∉ ts -> stages c t = Idle.

Lemma call_step_weight t s x s' x' :
  call_step t (s, x) (s', x') -> (weight x' < weight x)%nat /\ x <> Idle.
Proof.
  intros Hc. destruct (call_step_remaining _ _ _ _ _ Hc) as [Hr Hq].
  assert (x <> Idle) by (intros ->; simpl in Hr; lia). split; [|done].
  destruct x; [done|..]; destruct x'; simpl in *; lia.
Qed.

Lemma total_update ts t x (ss : nat -> Stage (V := V)) s s' :
  NoDup ts -> t ∈ ts -> (weight x < weight (ss t))%nat ->
  (total ts (MkConfig s' (<[t := x]> ss)) < total ts (MkConfig s ss))%nat.
Proof.
  unfold total. simpl. intros Hnd Ht Hx. induction Hnd as [|u ts Hu Hnd IH]; [by apply not_elem_of_nil in Ht|].
  cbn [map sum_list]. destruct (decide (u = t)) as [->|Hne].
  - rewrite fn_lookup_insert.
    assert (Hrest : map (fun t0 => weight (<[t:=x]> ss t0)) ts = map (fun t0 => weight (ss t0)) ts).
    { apply map_ext_in. intros v Hv%list_elem_of_In. rewrite fn_lookup_insert_ne; [done|by intros ->]. }
    rewrite Hrest. simpl. lia.
  - rewrite fn_lookup_insert_ne by done. apply elem_of_cons in Ht as [->|Ht]; [done|].
    specialize (IH Ht). simpl. lia.
Qed.

Lemma work_step_total ts c c' :
  NoDup ts -> only ts c -> work_step c c' -> only ts c' /\ (total ts c' < total ts c)%nat.
Proof.
  intros Hnd Ho Hs.
  assert (Hgen : forall t x s s' ss, only ts (MkConfig s ss) -> ss t <> Idle -> (weight x < weight (ss t))%nat ->
    only ts (MkConfig s' (<[t := x]> ss))
    /\ (total ts (MkConfig s' (<[t := x]> ss)) < total ts (MkConfig s ss))%nat).
  { clear -Hnd. intros t x s s' ss Ho Ht Hx.
    assert (Hin : t ∈ ts) by (destruct (decide (t ∈ ts)) as [|Hn]; [done|]; destruct (Ht (Ho t Hn))).
    split; [|by apply total_update]. intros u Hu. simpl.
    rewrite fn_lookup_insert_ne; [exact (Ho u Hu)|]. by intros ->. }
  destruct Hs as [t s ss s' x Hc|t a r reply s ss Ht].
  - destruct (call_step_weight _ _ _ _ _ Hc). by apply Hgen.
  - apply Hgen; [done|by rewrite Ht|rewrite Ht; simpl; lia].
Qed.

Lemma work_steps_bounded ts n c c' :
  NoDup ts -> only ts c -> nsteps work_step n c c' -> only ts c' /\ (n + total ts c' <= total ts c)%nat.
Proof.
  intros Hnd Ho Hn. induction Hn as [c|n c c1 c' Hs _ IH]; [by split|].
  destruct (work_step_total ts c c1 Hnd Ho Hs) as [Ho1 Hlt]. destruct (IH Ho1). split; [done|lia].
Qed.

(** ** Property *)

(** C20: every call returns. From any reachable state, when no new call is
    made, the threads make only a bounded number of steps, in whatever order
    they are scheduled and given the mutexes, and they never stop before all of
    them are idle: a run that has not ended can go on, and one that can not go
    on has returned every reply. *)
Theorem every_call_returns st c ts :
  reachable_config st c -> NoDup ts -> (forall t, t ∉ ts -> stages c t = Idle) ->
  (forall n c', nsteps work_step n c c' -> (n <= total ts c)%nat)
  /\ (forall c', rtc work_step c c' ->
        (exists c'', work_step c' c'') \/ forall t, stages c' t = Idle)
  /\ exists c', rtc work_step c c' /\ forall t, stages c' t = Idle.
Proof.
  intros Hc Hnd Ho.
  assert (Hprog : forall c', reachable_config st c' -> only ts c' ->
    (exists c'', work_step c' c'') \/ forall t, stages c' t = Idle).
  { intros c' Hc' Ho'. destruct (decide (Forall (fun t => weight (stages c' t) = 0%nat) ts)) as [Hz|Hz].
    - right. intros t. destruct (decide (t ∈ ts)) as [Ht|Ht]; [|by apply Ho'].
      apply (proj1 (Forall_forall _ _) Hz) in Ht. cbv beta in Ht.
      by destruct (stages c' t).
    - left. apply not_Forall_Exists, Exists_exists in Hz as (t & _ & Ht); [|tc_solve].
      unfold compose in Ht.
      destruct (request_of (stages c' t)) as [r|] eqn:Er; [|destruct (stages c' t); [by destruct Ht|done..]].
      destruct c' as [s ss]. simpl in *.
      destruct (ss t) as [| | | | | | | | | | | |a r' reply] eqn:Es; try done.
      all: try (by eexists; eapply work_return; exact Es).
      all: destruct (some_call_moves st s ss t r (reachable_config_inv _ _ Hc')) as (u & s' & x & Hstep);
        [by rewrite Es|by rewrite Es|]; eexists; by apply work_call. }
  split_and!.
  - intros n c' Hn. destruct (work_steps_bounded ts n c c' Hnd Ho Hn). lia.
  - intros c' Hs. apply Hprog; [by eapply work_steps_reachable|].
    apply rtc_nsteps in Hs as [n Hs]. by destruct (work_steps_bounded ts n c c' Hnd Ho Hs).
  - remember (total ts c) as k eqn:Ek. revert c Hc Ho Ek. induction (lt_wf k) as [k _ IH]. intros c Hc Ho Ek.
    destruct (Hprog c Hc Ho) as [[c1 Hs]|Hidle]; [|by exists c].
    destruct (work_step_total ts c c1 Hnd Ho Hs) as [Ho1 Hlt].
    destruct (IH (total ts c1) ltac:(lia) c1) as (c2 & H2 & Hi); [|done|done|].
    + eapply config_next; [exact Hc|]. by apply work_step_config.
    + exists c2. split; [by eapply rtc_l|done].
Qed.

End progress.

(** ** Witness *)

Lemma every_call_returns_witness :
  exists c, rtc work_step waiting_config c /\ forall t, stages c t = Idle.
Proof.
  apply (every_call_returns memory_db waiting_config [0%nat; 1%nat] waiting_reachable).
  - apply (bool_decide_unpack _). vm_compute. exact I.
  - intros t Ht. apply not_elem_of_cons in Ht as [H0 Ht]. apply not_elem_of_cons in Ht as [H1 _].
    destruct t as [|[|t]]; [destruct (H0 eq_refl)|destruct (H1 eq_refl)|reflexivity].
Defined.
