(* ===== verification/RespCodec.v ===== *)
(** include/network/RespCodec.h and src/network/RespCodec.cpp: requests and
    replies of the RESP protocol.

    Positions in the input are integers as in the code; reading a character
    outside the input is undefined behaviour, and [parse_command_total] shows
    that it does not happen. [Grammar] states, on the text that remains, what
    a request is, without positions. *)

From S2P Require Import Prelude Decimal.

Inductive RespVersion := Resp2 | Resp3.

#[global] Instance RespVersion_eq_decision : EqDecision RespVersion.
Proof. solve_decision. Defined.

(** [RespCommand] is its vector of arguments. *)
Record RespCommand := MkCommand { arguments : list bytes }.

Inductive Status := Complete | Incomplete | Error_.

#[global] Instance Status_eq_decision : EqDecision Status.
Proof. solve_decision. Defined.

Record RespParseResult := MkParseResult {
  status : Status;
  command : RespCommand;
  consumed : Z;
  error : bytes;
}.

Definition kMaxArguments : Z := 1024.
Definition kMaxBulkLength : Z := 4 * 1024 * 1024.
Definition kMaxBufferedInput : Z := 8 * 1024 * 1024.

(** ** [std::string_view] *)

(** [input[pos]]; past the end it is undefined behaviour. *)
Definition char_at (input : bytes) (pos : Z) : result ascii := deref (input !! Z.to_nat pos).

Definition substr (input : bytes) (pos n : Z) : result bytes :=
  throw! out_of_range (str "basic_string_view::substr") when zlen input <? pos in
  Ok (ztake n (zdrop pos input)).

(** The first occurrence of [pat], and [input.find(pat, offset)]. *)
Fixpoint find_in (pat bs : bytes) : option Z :=
  if bool_decide (pat `prefix_of` bs) then Some 0
  else match bs with [] => None | _ :: bs' => Z.succ <$> find_in pat bs' end.

Definition find (input pat : bytes) (offset : Z) : option Z :=
  Z.add offset <$> find_in pat (zdrop offset input).

(** ** Reading requests *)

(** [NumberStatus], with the values the code returns through [value] and
    [next] when the status is [Complete]. *)
Inductive NumberStatus :=
  | NumberComplete (value next : Z)
  | NumberIncomplete
  | NumberError.

Definition ParseNumber (input : bytes) (offset : Z) : result NumberStatus :=
  match find input crlf offset with
  | None => Ok NumberIncomplete
  | Some terminator =>
      if terminator =? offset then Ok NumberError
      else
        let! number := substr input offset (terminator - offset) in
        let '(error, value, stop) := from_chars number in
        if negb (bool_decide (error = errc_ok)) || negb (zlen stop =? 0) then Ok NumberError
        else Ok (NumberComplete value (terminator + 2))
  end.

(** [return {};] and a protocol error. *)
Definition incomplete_result : RespParseResult := MkParseResult Incomplete (MkCommand []) 0 [].
Definition error_result (message : bytes) : RespParseResult :=
  MkParseResult Error_ (MkCommand []) 0 message.

(** One round of the loop: it returns from the function, or goes on with one
    more argument and the next offset. *)
Inductive round :=
  | Return (r : RespParseResult)
  | Continue (argument : bytes) (offset : Z).

Definition parse_argument (input : bytes) (offset : Z) : result round :=
  if offset =? zlen input then Ok (Return incomplete_result)
  else
    let! c := char_at input offset in
    if bool_decide (c <> "$"%char) then
      Ok (Return (error_result (str "Protocol error: expected a bulk string")))
    else
      let! lengthStatus := ParseNumber input (offset + 1) in
      let bad := Ok (Return (error_result (str "Protocol error: invalid bulk string length"))) in
      match lengthStatus with
      | NumberIncomplete => Ok (Return incomplete_result)
      | NumberError => bad
      | NumberComplete length dataOffset =>
          if (length <? 0) || (kMaxBulkLength <? length) then bad
          else if (zlen input <? dataOffset) || (zlen input - dataOffset <? length) then
            Ok (Return incomplete_result)
          else if zlen input - dataOffset - length <? 2 then
            Ok (Return incomplete_result)
          else
            let! c1 := char_at input (dataOffset + length) in
            let! c2 := char_at input (dataOffset + length + 1) in
            if bool_decide (c1 <> CR) || bool_decide (c2 <> LF) then
              Ok (Return (error_result (str "Protocol error: invalid bulk string terminator")))
            else
              let! argument := substr input dataOffset length in
              Ok (Continue argument (dataOffset + length + 2))
      end.

(** The loop, with [n] arguments left to read. *)
Fixpoint parse_arguments (n : nat) (input : bytes) (offset : Z) (args : list bytes) :
    result RespParseResult :=
  match n with
  | O => Ok (MkParseResult Complete (MkCommand args) offset [])
  | S n =>
      let! r := parse_argument input offset in
      match r with
      | Return r => Ok r
      | Continue argument offset => parse_arguments n input offset (args ++ [argument])
      end
  end.

Definition ParseCommand (input : bytes) : result RespParseResult :=
  match input with
  | [] => Ok incomplete_result
  | c :: _ =>
      if bool_decide (c <> "*"%char) then
        Ok (error_result (str "Protocol error: expected an array request"))
      else
        let! countStatus := ParseNumber input 1 in
        let bad := Ok (error_result (str "Protocol error: invalid argument count")) in
        match countStatus with
        | NumberIncomplete => Ok incomplete_result
        | NumberError => bad
        | NumberComplete count offset =>
            if (count <=? 0) || (kMaxArguments <? count) then bad
            else parse_arguments (Z.to_nat count) input offset []
        end
  end.

(** ** Writing requests and replies *)

Definition EncodeCommand (arguments : list bytes) : bytes :=
  fold_left
    (fun result argument =>
       result ++ str "$" ++ to_string (zlen argument) ++ crlf ++ argument ++ crlf)
    arguments (str "*" ++ to_string (zlen arguments) ++ crlf).

Definition SanitizeSimpleValue (value : bytes) : bytes :=
  fold_left
    (fun result character =>
       result ++ [if bool_decide (character = CR) || bool_decide (character = LF)
                  then " "%char else character])
    value [].

Definition SimpleString (value : bytes) : bytes := str "+" ++ SanitizeSimpleValue value ++ crlf.

Definition Error (message : bytes) : bytes := str "-ERR " ++ SanitizeSimpleValue message ++ crlf.

Definition Integer (value : Z) : bytes := str ":" ++ to_string value ++ crlf.

Definition BulkString (value : option bytes) (version : RespVersion) : bytes :=
  match value with
  | None => match version with Resp3 => str "_" ++ crlf | Resp2 => str "$-1" ++ crlf end
  | Some value => str "$" ++ to_string (zlen value) ++ crlf ++ value ++ crlf
  end.

Definition Array (values : list bytes) (version : RespVersion) : bytes :=
  fold_left (fun result value => result ++ BulkString (Some value) Resp2)
    values (str "*" ++ to_string (zlen values) ++ crlf).

(** The values of [Hello]; the last two, "modules" and the empty string, are
    left out of the RESP3 loop, which takes the others two at a time. *)
Definition hello_values (version : RespVersion) : list bytes :=
  [str "server"; str "radish"; str "version"; str "0.1";
   str "proto"; match version with Resp3 => str "3" | Resp2 => str "2" end;
   str "mode"; str "standalone"; str "role"; str "master"; str "modules"; []].

Fixpoint hello_pairs (n : nat) (values : list bytes) (version : RespVersion) : bytes :=
  match n, values with
  | S n, k :: v :: values =>
      BulkString (Some k) version ++ BulkString (Some v) version ++ hello_pairs n values version
  | _, _ => []
  end.

Definition Hello (version : RespVersion) : bytes :=
  let values := hello_values version in
  match version with
  | Resp2 => Array values version
  | Resp3 =>
      str "%6" ++ crlf
      ++ hello_pairs (Z.to_nat ((zlen values - 2) / 2)) values version
      ++ BulkString (Some (str "modules")) version
      ++ str "*0" ++ crlf
  end.

(** ** The grammar of requests

    A parser of the remaining text: it ends with a value and what follows it,
    asks for more text, or rejects the text. *)

Module Grammar.

Inductive parsed (A : Type) :=
  | Done (a : A) (rest : bytes)
  | More
  | Bad (message : bytes).
Arguments Done {A}.
Arguments More {A}.
Arguments Bad {A}.

Definition bind {A B} (m : parsed A) (k : A -> bytes -> parsed B) : parsed B :=
  match m with Done a rest => k a rest | More => More | Bad message => Bad message end.

(** Decimal digits, with an optional minus, up to a CRLF. *)
Definition number (message : string) (lo hi : Z) (bs : bytes) : parsed Z :=
  match find_in crlf bs with
  | None => More
  | Some t =>
      match from_chars (ztake t bs) with
      | (errc_ok, v, []) =>
          if (v <? lo) || (hi <? v) then Bad (str message) else Done v (zdrop (t + 2) bs)
      | _ => Bad (str message)
      end
  end.

Definition argument (bs : bytes) : parsed bytes :=
  match bs with
  | [] => More
  | c :: bs =>
      if decide (c = "$"%char) then
        bind (number "Protocol error: invalid bulk string length" 0 kMaxBulkLength bs)
          (fun length data =>
             if zlen data <? length + 2 then More
             else if decide (ztake 2 (zdrop length data) = crlf)
             then Done (ztake length data) (zdrop (length + 2) data)
             else Bad (str "Protocol error: invalid bulk string terminator"))
      else Bad (str "Protocol error: expected a bulk string")
  end.

Fixpoint arguments (n : nat) (bs : bytes) : parsed (list bytes) :=
  match n with
  | O => Done [] bs
  | S n => bind (argument bs) (fun a bs => bind (arguments n bs) (fun l rest => Done (a :: l) rest))
  end.

Definition request (bs : bytes) : parsed (list bytes) :=
  match bs with
  | [] => More
  | c :: bs =>
      if decide (c = "*"%char) then
        bind (number "Protocol error: invalid argument count" 1 kMaxArguments bs)
          (fun count bs => arguments (Z.to_nat count) bs)
      else Bad (str "Protocol error: expected an array request")
  end.

(** The text a parser has read, followed by [more]. *)
Definition extend {A} (p : parsed A) (more : bytes) : parsed A :=
  match p with Done a rest => Done a (rest ++ more) | More => More | Bad m => Bad m end.

End Grammar.

(** The result record that says what the grammar says. *)
Definition request_result (input : bytes) (p : Grammar.parsed (list bytes)) : RespParseResult :=
  match p with
  | Grammar.Done args rest => MkParseResult Complete (MkCommand args) (zlen input - zlen rest) []
  | Grammar.More => incomplete_result
  | Grammar.Bad message => error_result message
  end.

(** The requests the server accepts. *)
Definition valid_command (args : list bytes) : Prop :=
  1 <= zlen args <= kMaxArguments /\ Forall (fun a => zlen a <= kMaxBulkLength) args.

(** ** Lemmas *)

(** *** Searching *)

Lemma find_in_spec pat bs i :
  find_in pat bs = Some i ->
  exists a b, bs = a ++ pat ++ b /\ zlen a = i.
Proof.
  revert i. induction bs as [|c bs IH]; intros i; cbn [find_in].
  - destruct (bool_decide _) eqn:E; [|done]. apply bool_decide_eq_true in E as [b Hb].
    intros [= <-]. by exists [], b.
  - destruct (bool_decide _) eqn:E.
    + apply bool_decide_eq_true in E as [b Hb]. intros [= <-]. by exists [], b.
    + destruct (find_in pat bs) as [j|]; [|done]. intros [= <-].
      destruct (IH j eq_refl) as (a & b & -> & Ha). exists (c :: a), b. split; [done|].
      rewrite zlen_cons. lia.
Qed.

Lemma find_in_nonneg pat bs i : find_in pat bs = Some i -> 0 <= i /\ i + zlen pat <= zlen bs.
Proof. intros (a & b & -> & <-)%find_in_spec. zlen_solve. Qed.

Lemma find_in_more pat bs more i : find_in pat bs = Some i -> find_in pat (bs ++ more) = Some i.
Proof.
  revert i. induction bs as [|c bs IH]; intros i; cbn [find_in app].
  - destruct (bool_decide _) eqn:E; [|done]. apply bool_decide_eq_true, prefix_nil_inv in E as ->.
    intros [= <-]. destruct more; cbn [find_in];
      by rewrite bool_decide_eq_true_2 by apply prefix_nil.
  - destruct (bool_decide _) eqn:E.
    + apply bool_decide_eq_true in E. intros [= <-].
      rewrite bool_decide_eq_true_2; [done|]. change (c :: bs ++ more) with ((c :: bs) ++ more).
      by apply prefix_app_r.
    + destruct (find_in pat bs) as [j|] eqn:Ej; [|done]. intros [= <-].
      rewrite (IH j eq_refl). rewrite bool_decide_eq_false_2; [done|].
      apply bool_decide_eq_false in E. intros Hp. apply E.
      destruct (find_in_nonneg _ _ _ Ej) as [? Hl].
      destruct (prefix_weak_total pat (c :: bs) (c :: bs ++ more) Hp) as [?|Hle%prefix_length];
        [by exists more|done|]. unfold zlen in *. simpl in *. lia.
Qed.

Lemma find_in_crlf ds rest :
  Forall (fun c => c <> CR) ds -> find_in crlf (ds ++ crlf ++ rest) = Some (zlen ds).
Proof.
  induction 1 as [|c ds Hc _ IH]; [done|]. cbn [find_in app]. rewrite IH, zlen_cons.
  rewrite bool_decide_eq_false_2; [simpl; f_equal; lia|].
  intros Hp%prefix_cons_inv_1. by apply Hc.
Qed.

(** *** The offsets of the code and the rest of the text *)

Lemma char_at_drop input offset c bs :
  0 <= offset -> zdrop offset input = c :: bs -> char_at input offset = Ok c.
Proof.
  intros Ho Hd. unfold char_at, zdrop in *.
  assert (E : input !! Z.to_nat offset = Some c).
  { rewrite <- (Nat.add_0_r (Z.to_nat offset)), <- lookup_drop, Hd. done. }
  by rewrite E.
Qed.

Lemma zdrop_zdrop {A} a b (l : list A) : 0 <= a -> 0 <= b -> zdrop b (zdrop a l) = zdrop (a + b) l.
Proof. intros. unfold zdrop. rewrite drop_drop. f_equal. lia. Qed.

(** The bounds on a number, where the callers of [ParseNumber] test them. *)
Definition number_in (lo hi : Z) (r : NumberStatus) : NumberStatus :=
  match r with
  | NumberComplete v next => if (v <? lo) || (hi <? v) then NumberError else r
  | _ => r
  end.

Lemma parse_number_grammar input offset message lo hi :
  0 <= offset <= zlen input ->
  exists r, ParseNumber input offset = Ok r
    /\ match Grammar.number message lo hi (zdrop offset input) with
       | Grammar.Done v rest =>
           exists next, number_in lo hi r = NumberComplete v next /\ r = NumberComplete v next
             /\ lo <= v <= hi /\ offset + 2 <= next <= zlen input /\ rest = zdrop next input
       | Grammar.More => r = NumberIncomplete
       | Grammar.Bad m => m = str message /\ number_in lo hi r = NumberError
       end.
Proof.
  intros Ho. unfold ParseNumber, find, Grammar.number.
  destruct (find_in crlf (zdrop offset input)) as [t|] eqn:Et; cbn [fmap option_fmap option_map];
    [|by exists NumberIncomplete].
  destruct (find_in_nonneg _ _ _ Et) as [Ht0 Ht].
  rewrite zlen_zdrop in Ht by lia. change (zlen crlf) with 2 in Ht.
  destruct (offset + t =? offset) eqn:E0; zify_bool.
  { exists NumberError. split; [done|]. replace t with 0 by lia. done. }
  unfold substr, throw_if. rewrite (proj2 (Z.ltb_ge _ _)) by lia. cbn [rbind].
  replace (offset + t - offset) with t by lia.
  destruct (from_chars (ztake t (zdrop offset input))) as [[e v] stop] eqn:Ef.
  destruct e; [|by exists NumberError|by exists NumberError].
  destruct stop as [|c stop].
  2: { exists NumberError. split; [|done].
    by rewrite (proj2 (Z.eqb_neq (zlen (c :: stop)) 0)) by zlen_solve. }
  exists (NumberComplete v (offset + t + 2)). split; [done|].
  destruct ((v <? lo) || (hi <? v)) eqn:Eb; [by simpl; rewrite Eb|].
  exists (offset + t + 2). zify_bool. rewrite zdrop_zdrop by lia.
  split_and!; [|done|lia|lia|lia|lia|f_equal; lia].
  simpl. by rewrite (proj2 (Z.ltb_ge v lo)), (proj2 (Z.ltb_ge hi v)) by lia.
Qed.

(** The offset at which a suffix starts. *)
Lemma suffix_offset {A} (input : list A) k :
  0 <= k <= zlen input -> zlen input - zlen (zdrop k input) = k.
Proof. intros. rewrite zlen_zdrop by lia. lia. Qed.

Lemma terminator_chars input pos :
  0 <= pos -> pos + 2 <= zlen input ->
  exists c1 c2, char_at input pos = Ok c1 /\ char_at input (pos + 1) = Ok c2
    /\ ztake 2 (zdrop pos input) = [c1; c2].
Proof.
  intros Hp Hl. pose proof (zlen_zdrop pos input ltac:(lia)) as Hd.
  destruct (zdrop pos input) as [|c1 [|c2 l]] eqn:E; [zlen_solve..|].
  exists c1, c2. split_and!; [by eapply char_at_drop| |done].
  apply (char_at_drop _ _ _ l); [lia|]. rewrite <- zdrop_zdrop, E by lia. done.
Qed.

(** What the round does with the result of the grammar. *)
Definition round_of (input : bytes) (p : Grammar.parsed bytes) : round :=
  match p with
  | Grammar.Done a rest => Continue a (zlen input - zlen rest)
  | Grammar.More => Return incomplete_result
  | Grammar.Bad message => Return (error_result message)
  end.

Lemma parse_argument_grammar input offset :
  0 <= offset <= zlen input ->
  parse_argument input offset = Ok (round_of input (Grammar.argument (zdrop offset input))).
Proof.
  intros Ho. unfold parse_argument, Grammar.argument.
  pose proof (zlen_zdrop offset input Ho) as Hl.
  destruct (zdrop offset input) as [|c bs] eqn:E.
  { rewrite zlen_nil in Hl. by rewrite (proj2 (Z.eqb_eq _ _)) by lia. }
  rewrite zlen_cons in Hl. pose proof (zlen_nonneg bs).
  rewrite (proj2 (Z.eqb_neq _ _)) by lia. rewrite (char_at_drop _ _ c bs) by (done || lia).
  cbn [rbind]. destruct (decide (c = "$"%char)) as [->|Hc].
  2: { by rewrite bool_decide_eq_true_2. }
  rewrite bool_decide_eq_false_2 by (intros Hn; by apply Hn).
  assert (Ebs : bs = zdrop (offset + 1) input) by (rewrite <- zdrop_zdrop, E by lia; done).
  destruct (parse_number_grammar input (offset + 1)
    "Protocol error: invalid bulk string length" 0 kMaxBulkLength) as (r & -> & Hr); [lia|].
  rewrite <- Ebs in Hr. cbn [rbind].
  destruct (Grammar.number _ _ _ bs) as [len data| |m]; simpl.
  - destruct Hr as (next & Hb & -> & Hlen & Hnext & ->). rewrite zlen_zdrop by lia.
    cbn [number_in] in Hb. destruct (_ || _); [done|]. clear Hb.
    rewrite (proj2 (Z.ltb_ge (zlen input) next)) by lia. cbn [orb].
    destruct (zlen input - next <? len + 2) eqn:Es; zify_bool.
    { destruct (zlen input - next <? len) eqn:E1; [done|]. zify_bool.
      by rewrite (proj2 (Z.ltb_lt _ _)) by lia. }
    rewrite !(proj2 (Z.ltb_ge _ _)) by lia. rewrite zdrop_zdrop by lia.
    destruct (terminator_chars input (next + len)) as (c1 & c2 & -> & -> & ->); [lia..|].
    cbn [rbind]. case_decide as Ht.
    + injection Ht as -> ->. rewrite !bool_decide_eq_false_2 by (intros Hn; by apply Hn).
      unfold substr, throw_if. rewrite (proj2 (Z.ltb_ge _ _)) by lia. simpl.
      rewrite zdrop_zdrop, suffix_offset by lia. do 2 f_equal. lia.
    + destruct (bool_decide (c1 <> CR)) eqn:E1, (bool_decide (c2 <> LF)) eqn:E2; try done.
      apply bool_decide_eq_false in E1, E2. destruct Ht. f_equal; [|f_equal];
        by apply dec_stable.
  - by rewrite Hr.
  - destruct Hr as [-> Hr]. destruct r as [len next| |]; simpl in Hr; [|done|done].
    destruct (_ || _); done.
Qed.

(** *** What the grammar reads *)

Lemma number_done message lo hi bs v rest :
  Grammar.number message lo hi bs = Grammar.Done v rest ->
  lo <= v <= hi /\ exists frame, bs = frame ++ rest /\ 2 <= zlen frame.
Proof.
  unfold Grammar.number. destruct (find_in crlf bs) as [t|] eqn:Et; [|done].
  destruct (from_chars _) as [[[] u] [|]]; try done.
  destruct (_ || _) eqn:Eb; [done|]. intros [= <- <-]. zify_bool.
  destruct (find_in_nonneg _ _ _ Et) as [? Hl]. change (zlen crlf) with 2 in Hl.
  split; [lia|]. exists (ztake (t + 2) bs). split; [by rewrite ztake_zdrop|].
  rewrite zlen_ztake; lia.
Qed.

Lemma argument_done bs a rest :
  Grammar.argument bs = Grammar.Done a rest ->
  zlen a <= kMaxBulkLength /\ exists frame, bs = frame ++ rest /\ 2 <= zlen frame.
Proof.
  unfold Grammar.argument. destruct bs as [|c bs]; [done|]. case_decide; [|done].
  destruct (Grammar.number _ _ _ bs) as [len data| |] eqn:En; simpl; [|done|done].
  destruct (number_done _ _ _ _ _ _ En) as [Hlen (f & -> & Hf)].
  destruct (zlen data <? len + 2) eqn:Es; [done|]. zify_bool. case_decide; [|done].
  intros [= <- <-]. rewrite zlen_ztake by lia. split; [lia|].
  exists (c :: f ++ ztake (len + 2) data). simpl. rewrite <- app_assoc, ztake_zdrop.
  split; [done|]. rewrite zlen_cons. zlen_solve.
Qed.

Lemma arguments_done n bs args rest :
  Grammar.arguments n bs = Grammar.Done args rest ->
  zlen args = Z.of_nat n /\ Forall (fun a => zlen a <= kMaxBulkLength) args
  /\ exists frame, bs = frame ++ rest.
Proof.
  revert bs args. induction n as [|n IH]; intros bs args; simpl.
  { intros [= <- <-]. split_and!; [done|done|by exists []]. }
  destruct (Grammar.argument bs) as [a bs'| |] eqn:Ea; simpl; [|done|done].
  destruct (Grammar.arguments n bs') as [l r| |] eqn:El; simpl; [|done|done].
  intros [= <- <-]. destruct (IH _ _ El) as (Hl & Hf & f2 & ->).
  destruct (argument_done _ _ _ Ea) as (Ha & f1 & -> & _).
  split_and!; [rewrite zlen_cons; lia|by constructor|]. exists (f1 ++ f2). by rewrite app_assoc.
Qed.

Lemma request_done bs args rest :
  Grammar.request bs = Grammar.Done args rest ->
  valid_command args /\ exists frame, bs = frame ++ rest /\ 3 <= zlen frame.
Proof.
  unfold Grammar.request. destruct bs as [|c bs]; [done|]. case_decide; [|done].
  destruct (Grammar.number _ _ _ bs) as [count data| |] eqn:En; simpl; [|done|done]. intros Ha.
  destruct (number_done _ _ _ _ _ _ En) as [Hc (f & -> & Hf)].
  destruct (arguments_done _ _ _ _ Ha) as (Hl & Hv & f2 & ->).
  split; [split; [lia|done]|]. exists (c :: f ++ f2). simpl. rewrite <- app_assoc.
  split; [done|]. rewrite zlen_cons. zlen_solve.
Qed.

(** *** The parser and the grammar *)

Lemma parse_arguments_grammar n input offset acc :
  0 <= offset <= zlen input ->
  parse_arguments n input offset acc
  = Ok match Grammar.arguments n (zdrop offset input) with
       | Grammar.Done args rest =>
           MkParseResult Complete (MkCommand (acc ++ args)) (zlen input - zlen rest) []
       | Grammar.More => incomplete_result
       | Grammar.Bad message => error_result message
       end.
Proof.
  revert offset acc. induction n as [|n IH]; intros offset acc Ho; cbn [parse_arguments Grammar.arguments].
  { by rewrite suffix_offset, app_nil_r. }
  rewrite parse_argument_grammar by done. cbn [rbind].
  destruct (Grammar.argument (zdrop offset input)) as [a rest| |] eqn:Ea; simpl; [|done|done].
  destruct (argument_done _ _ _ Ea) as (_ & f & Hf & _).
  pose proof (zlen_zdrop offset input Ho) as Hl. rewrite Hf in Hl.
  pose proof (zlen_nonneg f). pose proof (zlen_nonneg rest). rewrite zlen_app in Hl.
  rewrite IH by lia.
  assert (Er : zdrop (zlen input - zlen rest) input = rest).
  { replace (zlen input - zlen rest) with (offset + zlen f) by lia.
    rewrite <- zdrop_zdrop, Hf by lia. apply zdrop_app. }
  rewrite Er. destruct (Grammar.arguments n rest); simpl; [|done|done].
  by rewrite <- app_assoc.
Qed.

Lemma parse_command_eq input :
  ParseCommand input = Ok (request_result input (Grammar.request input)).
Proof.
  unfold ParseCommand, Grammar.request. destruct input as [|c bs]; [done|].
  destruct (decide (c = "*"%char)) as [->|Hc]; [|by rewrite bool_decide_eq_true_2].
  rewrite bool_decide_eq_false_2 by (intros Hn; by apply Hn).
  set (input := "*"%char :: bs). assert (Hl : 1 <= zlen input) by (unfold input; zlen_solve).
  destruct (parse_number_grammar input 1 "Protocol error: invalid argument count" 1 kMaxArguments)
    as (r & -> & Hr); [lia|]. change (zdrop 1 input) with bs in Hr. cbn [rbind].
  destruct (Grammar.number _ _ _ bs) as [count data| |m]; simpl.
  - destruct Hr as (next & Hb & -> & Hc & Hn & ->).
    rewrite (proj2 (Z.leb_gt count 0)), (proj2 (Z.ltb_ge kMaxArguments count)) by lia.
    cbn [orb]. rewrite parse_arguments_grammar by lia.
    by destruct (Grammar.arguments _ _).
  - by rewrite Hr.
  - destruct Hr as [-> Hr]. destruct r as [count next| |]; simpl in Hr; [|done|done].
    destruct ((count <? 1) || (kMaxArguments <? count)) eqn:Eb; [|done].
    replace (count <=? 0) with (count <? 1); [by rewrite Eb|].
    destruct (Z.ltb_spec count 1), (Z.leb_spec count 0); lia || done.
Qed.

(** *** More text *)

Lemma number_more message lo hi bs more :
  Grammar.number message lo hi bs <> Grammar.More ->
  Grammar.number message lo hi (bs ++ more) = Grammar.extend (Grammar.number message lo hi bs) more.
Proof.
  unfold Grammar.number. destruct (find_in crlf bs) as [t|] eqn:Et; [|done].
  rewrite (find_in_more _ _ _ _ Et). destruct (find_in_nonneg _ _ _ Et) as [? Hl].
  change (zlen crlf) with 2 in Hl. intros _. rewrite ztake_app_le by lia.
  destruct (from_chars _) as [[[] u] [|]]; try done. rewrite zdrop_app_le by lia.
  by destruct (_ || _).
Qed.

Lemma argument_more bs more :
  Grammar.argument bs <> Grammar.More ->
  Grammar.argument (bs ++ more) = Grammar.extend (Grammar.argument bs) more.
Proof.
  unfold Grammar.argument. destruct bs as [|c bs]; [done|]. simpl. case_decide; [|done].
  intros Hn. rewrite number_more by (intros E; rewrite E in Hn; done).
  destruct (Grammar.number _ _ _ bs) as [len data| |] eqn:En; simpl in *; [|done|done].
  destruct (number_done _ _ _ _ _ _ En) as [Hlen _].
  destruct (zlen data <? len + 2) eqn:Es; [done|]. zify_bool.
  rewrite (proj2 (Z.ltb_ge _ _)) by zlen_solve.
  rewrite (zdrop_app_le len), ztake_app_le by (rewrite ?zlen_zdrop; lia).
  rewrite ztake_app_le, zdrop_app_le by lia. by case_decide.
Qed.

Lemma arguments_more n bs more :
  Grammar.arguments n bs <> Grammar.More ->
  Grammar.arguments n (bs ++ more) = Grammar.extend (Grammar.arguments n bs) more.
Proof.
  revert bs. induction n as [|n IH]; intros bs; [done|]. cbn [Grammar.arguments]. intros Hn.
  rewrite argument_more by (intros E; rewrite E in Hn; done).
  destruct (Grammar.argument bs) as [a rest| |]; simpl in *; [|done|done].
  rewrite IH by (intros E; rewrite E in Hn; done).
  by destruct (Grammar.arguments n rest).
Qed.

Lemma request_more bs more :
  Grammar.request bs <> Grammar.More ->
  Grammar.request (bs ++ more) = Grammar.extend (Grammar.request bs) more.
Proof.
  unfold Grammar.request. destruct bs as [|c bs]; [done|]. simpl. case_decide; [|done].
  intros Hn. rewrite number_more by (intros E; rewrite E in Hn; done).
  destruct (Grammar.number _ _ _ bs) as [count data| |]; simpl in *; [|done|done].
  by apply arguments_more.
Qed.

Lemma parse_more input more r :
  ParseCommand input = Ok r -> status r <> Incomplete -> ParseCommand (input ++ more) = Ok r.
Proof.
  rewrite !parse_command_eq. intros [= <-] Hs.
  assert (Hm : Grammar.request input <> Grammar.More) by (intros E; rewrite E in Hs; done).
  rewrite request_more by done.
  destruct (Grammar.request input); simpl; [|done|done]. do 2 f_equal. rewrite !zlen_app. lia.
Qed.

Lemma parse_consumed input r :
  ParseCommand input = Ok r -> status r = Complete -> 0 < consumed r <= zlen input.
Proof.
  rewrite parse_command_eq. intros [= <-].
  destruct (Grammar.request input) as [args rest| |] eqn:E; [|done|done]. intros _. simpl.
  destruct (request_done _ _ _ E) as (_ & f & -> & Hf). zlen_solve.
Qed.

(** The whole requests a text starts with, one after the other. *)
Fixpoint requests_within (fuel : nat) (bs : bytes) : list (list bytes) :=
  match fuel with
  | O => []
  | S fuel =>
      match Grammar.request bs with
      | Grammar.Done args rest => args :: requests_within fuel rest
      | Grammar.More | Grammar.Bad _ => []
      end
  end.

Definition requests (bs : bytes) : list (list bytes) := requests_within (length bs) bs.

Lemma requests_fuel n m bs :
  (length bs <= n)%nat -> (length bs <= m)%nat -> requests_within n bs = requests_within m bs.
Proof.
  revert m bs. induction n as [|n IH]; intros m bs Hn Hm.
  - destruct bs; [|simpl in Hn; lia]. by destruct m.
  - destruct m as [|m]; [destruct bs; [done|simpl in Hm; lia]|]. simpl.
    destruct (Grammar.request bs) as [args rest| |] eqn:E; [|done|done]. f_equal.
    destruct (request_done _ _ _ E) as (_ & f & -> & Hf). unfold zlen in Hf.
    rewrite length_app in Hn, Hm. apply IH; lia.
Qed.

Lemma requests_done bs args rest :
  Grammar.request bs = Grammar.Done args rest -> requests bs = args :: requests rest.
Proof.
  intros E. unfold requests. destruct (request_done _ _ _ E) as (_ & f & Ebs & Hf). unfold zlen in Hf.
  assert (Hl : (length rest < length bs)%nat) by (rewrite Ebs, length_app; lia).
  destruct (length bs) as [|n] eqn:En; [lia|]. simpl. rewrite E. f_equal. apply requests_fuel; lia.
Qed.

(** *** Encoding *)

Lemma fold_append {A} (g : A -> bytes) l init :
  fold_left (fun r a => r ++ g a) l init = init ++ concat (map g l).
Proof.
  revert init. induction l as [|a l IH]; intros init; simpl; [by rewrite app_nil_r|].
  by rewrite IH, <- app_assoc.
Qed.

Definition encode_bulk (a : bytes) : bytes := str "$" ++ to_string (zlen a) ++ crlf ++ a ++ crlf.

Lemma encode_command_eq args :
  EncodeCommand args
  = "*"%char :: to_string (zlen args) ++ crlf ++ concat (map encode_bulk args).
Proof. unfold EncodeCommand. rewrite (fold_append encode_bulk). by rewrite <- !app_assoc. Qed.

Lemma number_to_string message lo hi n rest :
  0 <= n <= LLONG_MAX ->
  Grammar.number message lo hi (to_string n ++ crlf ++ rest)
  = if (n <? lo) || (hi <? n) then Grammar.Bad (str message) else Grammar.Done n rest.
Proof.
  intros Hn. unfold Grammar.number. rewrite find_in_crlf.
  2: { eapply Forall_impl; [apply to_string_no_cr|]. by intros c []. }
  rewrite ztake_app, from_chars_to_string by done.
  rewrite zdrop_app_add by lia. done.
Qed.

Lemma encode_bulk_app a rest :
  encode_bulk a ++ rest = "$"%char :: to_string (zlen a) ++ crlf ++ a ++ crlf ++ rest.
Proof. unfold encode_bulk. by rewrite <- !app_assoc. Qed.

Lemma argument_encode_bulk a rest :
  zlen a <= kMaxBulkLength -> Grammar.argument (encode_bulk a ++ rest) = Grammar.Done a rest.
Proof.
  intros Ha. rewrite encode_bulk_app. cbn [Grammar.argument]. rewrite decide_True by done.
  pose proof (zlen_nonneg a). unfold kMaxBulkLength in *.
  rewrite number_to_string by (unfold LLONG_MAX; lia).
  rewrite (proj2 (Z.ltb_ge _ 0)), (proj2 (Z.ltb_ge _ (zlen a))) by lia. cbn [orb Grammar.bind].
  rewrite (proj2 (Z.ltb_ge _ _)) by (rewrite !zlen_app; change (zlen crlf) with 2; zlen_solve).
  rewrite zdrop_app, ztake_app, zdrop_app_add by lia. done.
Qed.

Lemma arguments_encode args rest :
  Forall (fun a => zlen a <= kMaxBulkLength) args ->
  Grammar.arguments (length args) (concat (map encode_bulk args) ++ rest) = Grammar.Done args rest.
Proof.
  induction 1 as [|a args Ha _ IH]; [done|]. cbn [length map concat Grammar.arguments].
  rewrite <- app_assoc, argument_encode_bulk by done. cbn [Grammar.bind]. by rewrite IH.
Qed.

Lemma request_encode args rest :
  valid_command args -> Grammar.request (EncodeCommand args ++ rest) = Grammar.Done args rest.
Proof.
  intros [Hl Hv]. rewrite encode_command_eq. cbn [app Grammar.request].
  rewrite decide_True by done. rewrite <- !app_assoc. unfold kMaxArguments in *.
  rewrite number_to_string by (unfold LLONG_MAX; lia).
  rewrite (proj2 (Z.ltb_ge _ 1)), (proj2 (Z.ltb_ge _ (zlen args))) by lia.
  cbn [orb Grammar.bind]. unfold zlen. rewrite Nat2Z.id. by apply arguments_encode.
Qed.

Lemma parse_encode args rest :
  valid_command args ->
  ParseCommand (EncodeCommand args ++ rest)
  = Ok (MkParseResult Complete (MkCommand args) (zlen (EncodeCommand args)) []).
Proof.
  intros Hv. rewrite parse_command_eq, request_encode by done. simpl. do 2 f_equal.
  rewrite zlen_app. lia.
Qed.

Lemma array_encode values version : Array values version = EncodeCommand values.
Proof. done. Qed.

Lemma sanitize_eq value :
  SanitizeSimpleValue value
  = map (fun c => if bool_decide (c = CR) || bool_decide (c = LF) then " "%char else c) value.
Proof.
  unfold SanitizeSimpleValue.
  rewrite (fold_append (fun c => [if bool_decide (c = CR) || bool_decide (c = LF)
                                  then " "%char else c])). simpl.
  induction value as [|c value IH]; [done|]. simpl. by rewrite IH.
Qed.

Lemma sanitize_clean value : Forall (fun c => c <> CR /\ c <> LF) (SanitizeSimpleValue value).
Proof.
  rewrite sanitize_eq. induction value as [|c value IH]; [constructor|]. simpl.
  constructor; [|done]. destruct (bool_decide (c = CR)) eqn:E1; [done|].
  destruct (bool_decide (c = LF)) eqn:E2; [done|].
  by apply bool_decide_eq_false in E1, E2.
Qed.

Lemma sanitize_id value :
  Forall (fun c => c <> CR /\ c <> LF) value -> SanitizeSimpleValue value = value.
Proof.
  rewrite sanitize_eq. induction 1 as [|c value [H1 H2] _ IH]; [done|]. simpl.
  by rewrite !bool_decide_eq_false_2, IH by done.
Qed.

(** The argument the grammar finds at the start of a bulk reply. *)
Lemma argument_bulk_reply value version rest :
  (forall v, value = Some v -> zlen v <= kMaxBulkLength) ->
  match value with
  | Some v => Grammar.argument (BulkString (Some v) version ++ rest) = Grammar.Done v rest
  | None => exists m, Grammar.argument (BulkString None version ++ rest) = Grammar.Bad m
  end.
Proof.
  intros Hv. destruct value as [v|].
  - apply (argument_encode_bulk v rest). by apply Hv.
  - destruct version; [|by eexists].
    change (BulkString None Resp2 ++ rest) with ("$"%char :: str "-1" ++ crlf ++ rest).
    cbn [Grammar.argument]. rewrite decide_True by done. unfold Grammar.number.
    rewrite find_in_crlf by (repeat constructor; done). rewrite ztake_app. by eexists.
Qed.

(** ** Properties *)

(** C11: [ParseCommand] never reads outside its input and never throws, and its
    result is the one of the recursive-descent parser [Grammar.request]: the
    same arguments, the number of characters read, the same error. *)
Theorem parse_command_meets_grammar input :
  ParseCommand input = Ok (request_result input (Grammar.request input)).
Proof. apply parse_command_eq. Qed.

(** C21: what [EncodeCommand] writes, [ParseCommand] reads back, with the same
    binary-safe arguments and the whole text consumed, whatever follows it,
    for every command within the protocol's limits. *)
Theorem parse_inverts_encode args rest :
  valid_command args ->
  ParseCommand (EncodeCommand args ++ rest)
  = Ok (MkParseResult Complete (MkCommand args) (zlen (EncodeCommand args)) []).
Proof. apply parse_encode. Qed.

(** The decision on a text does not change when more text arrives: a
    complete request or an error is final. *)
Theorem parse_is_incremental input more r :
  ParseCommand input = Ok r -> status r <> Incomplete -> ParseCommand (input ++ more) = Ok r.
Proof. apply parse_more. Qed.

(** C33: a complete request has between 1 and 1024 arguments of at most 4 MiB,
    consumes at least one character and no more than there are, and no shorter
    part of it was complete or an error: it is asked for until it is whole. *)
Theorem complete_request_is_minimal_and_bounded input r :
  ParseCommand input = Ok r -> status r = Complete ->
  valid_command (arguments (command r)) /\ 0 < consumed r <= zlen input
  /\ forall k, 0 <= k < consumed r -> ParseCommand (ztake k input) = Ok incomplete_result.
Proof.
  rewrite parse_command_eq. intros [= <-].
  destruct (Grammar.request input) as [args rest| |] eqn:E; [|done|done]. intros _. simpl.
  destruct (request_done _ _ _ E) as (Hv & f & -> & Hf). split; [done|].
  pose proof (zlen_nonneg rest). rewrite zlen_app. split; [lia|]. intros k Hk.
  rewrite parse_command_eq. f_equal.
  pose proof (request_more (ztake k (f ++ rest)) (zdrop k (f ++ rest))) as Hm.
  rewrite ztake_zdrop, E in Hm.
  destruct (Grammar.request (ztake k (f ++ rest))) as [a' r'| |] eqn:E'; [|done|by specialize (Hm ltac:(done))].
  specialize (Hm ltac:(done)). injection Hm as _ Er. apply (f_equal zlen) in Er.
  pose proof (zlen_nonneg r'). rewrite zlen_app, zlen_zdrop, zlen_app in Er; [lia|].
  rewrite zlen_app. lia.
Qed.

(** A simple reply is one line: its text holds no CR and no LF before the
    final CRLF whatever the server puts in it, and a text without them is
    sent as it is. *)
Theorem simple_replies_are_one_line value :
  (exists body, SimpleString value = str "+" ++ body ++ crlf
    /\ Forall (fun c => c <> CR /\ c <> LF) body /\ zlen body = zlen value
    /\ (Forall (fun c => c <> CR /\ c <> LF) value -> body = value))
  /\ (exists body, Error value = str "-ERR " ++ body ++ crlf
    /\ Forall (fun c => c <> CR /\ c <> LF) body /\ zlen body = zlen value).
Proof.
  assert (Hl : zlen (SanitizeSimpleValue value) = zlen value).
  { rewrite sanitize_eq. unfold zlen. by rewrite length_map. }
  split; exists (SanitizeSimpleValue value); split_and!; try done;
    [apply sanitize_clean|apply sanitize_id|apply sanitize_clean].
Qed.

(** Bulk replies are prefix free and tell a missing value from every
    value: two streams that start with bulk replies are equal only when the
    replies are, and then so is the rest. *)
Theorem bulk_replies_are_prefix_free a b version x y :
  (forall v, a = Some v -> zlen v <= kMaxBulkLength) ->
  (forall v, b = Some v -> zlen v <= kMaxBulkLength) ->
  BulkString a version ++ x = BulkString b version ++ y -> a = b /\ x = y.
Proof.
  intros Ha Hb E.
  pose proof (argument_bulk_reply a version x Ha) as H1.
  pose proof (argument_bulk_reply b version y Hb) as H2.
  destruct a as [a|], b as [b|].
  - rewrite E, H2 in H1. by injection H1 as -> ->.
  - destruct H2 as [m H2]. rewrite E, H2 in H1. done.
  - destruct H1 as [m H1]. rewrite E, H2 in H1. done.
  - split; [done|]. by apply app_inv_head in E.
Qed.

(** An array reply is written exactly like a request of the same strings,
    so the parser reads the reply of SCAN and of HELLO 2 back. *)
Theorem array_replies_read_back values version rest :
  valid_command values ->
  ParseCommand (Array values version ++ rest)
  = Ok (MkParseResult Complete (MkCommand values) (zlen (Array values version)) [])
  /\ ParseCommand (Hello Resp2)
     = Ok (MkParseResult Complete (MkCommand (hello_values Resp2)) (zlen (Hello Resp2)) []).
Proof.
  intros Hv. split; [|by vm_compute].
  rewrite array_encode, parse_command_eq, request_encode by done. simpl. do 2 f_equal.
  rewrite zlen_app. lia.
Qed.

(** ** Witnesses *)

Definition ping : list bytes := [str "PING"; []].

Lemma ping_valid : valid_command ping.
Proof.
  split; [split; vm_compute; discriminate|].
  apply Forall_forall. intros a Ha. repeat (apply elem_of_cons in Ha as [->|Ha]);
    [vm_compute; discriminate..|]. by apply not_elem_of_nil in Ha.
Qed.

Lemma parse_inverts_encode_witness :
  ParseCommand (EncodeCommand ping ++ str "*1")
  = Ok (MkParseResult Complete (MkCommand ping) 20 []).
Proof. apply (parse_inverts_encode ping (str "*1") ping_valid). Defined.

Lemma parse_is_incremental_witness :
  ParseCommand (str "*x" ++ crlf ++ str "rest")
  = Ok (error_result (str "Protocol error: invalid argument count")).
Proof.
  apply (parse_is_incremental (str "*x" ++ crlf) (str "rest")); [reflexivity | discriminate].
Defined.

Lemma complete_request_is_minimal_and_bounded_witness :
  ParseCommand (ztake 19 (EncodeCommand ping)) = Ok incomplete_result.
Proof.
  apply (complete_request_is_minimal_and_bounded (EncodeCommand ping)
    (MkParseResult Complete (MkCommand ping) 20 [])).
  - vm_compute. reflexivity.
  - reflexivity.
  - split; [discriminate | reflexivity].
Defined.

Lemma bulk_replies_are_prefix_free_witness :
  Some (str "a") = Some (str "a") /\ str "x" = str "x".
Proof.
  apply (bulk_replies_are_prefix_free (Some (str "a")) (Some (str "a")) Resp3 (str "x") (str "x")).
  - intros v [= <-]. vm_compute. discriminate.
  - intros v [= <-]. vm_compute. discriminate.
  - reflexivity.
Defined.

Lemma array_replies_read_back_witness :
  ParseCommand (Array ping Resp3)
  = Ok (MkParseResult Complete (MkCommand ping) (zlen (Array ping Resp3)) []).
Proof.
  destruct (array_replies_read_back ping Resp3 [] ping_valid) as [H _].
  rewrite app_nil_r in H. exact H.
Defined.
