(* ===== verification/TcpServer.v ===== *)
(** src/network/TcpServer.cpp: the commands and the life of a connection, the
    class [TcpServer::Session].

    Asio is a library; what the code relies on is in the model: an operation
    that was started completes once, with an error or with its result, and its
    handler then runs alone ([io_context::run] is called by one thread). The
    session record therefore holds, besides the members of the class, which
    operations are under way and what the socket has sent. *)

From S2P Require Import Prelude Decimal Streams BinaryFile EventType RadishEvent.
From S2P Require Import LogReader RadishStore LogWriter PersistenceLog RadishDB.
From S2P Require Import RespCodec.

(** [std::toupper] in the "C" locale. *)
Definition toupper (c : ascii) : ascii :=
  if (97 <=? byte_val c) && (byte_val c <=? 122) then byte_of (byte_val c - 32) else c.

Definition Uppercase (value : bytes) : bytes := map toupper value.

Record Session := MkSession {
  m_input : bytes;
  m_output : list bytes;        (* the deque, front first *)
  m_version : RespVersion;
  m_closeAfterWrite : bool;
  reading : bool;               (* an [async_read_some] is under way *)
  writing : list bytes;         (* the buffers of the [async_write]s under way, oldest first *)
  sent : bytes;                 (* what the completed writes have sent *)
  is_open : bool;
}.

(** What one command sees of its surroundings: the files and the clock at each
    call it makes to the database, the clock at each key of an iteration over
    the store, and the order of that iteration. *)
Record Env := MkEnv {
  env_io : nat -> IoEnv;
  env_now : nat -> Timestamp;
  env_scan : bytes -> Timestamp;
  env_order : gmap bytes bytes -> list (bytes * bytes);
}.

(** The database with its disk, and the surroundings of the commands to come. *)
Record World := MkWorld {
  database : RadishDB bytes * Disk;
  surroundings : nat -> Env;
}.

Definition set_input (input : bytes) (s : Session) : Session :=
  MkSession input (m_output s) (m_version s) (m_closeAfterWrite s) (reading s) (writing s)
    (sent s) (is_open s).
Definition set_version (version : RespVersion) (s : Session) : Session :=
  MkSession (m_input s) (m_output s) version (m_closeAfterWrite s) (reading s) (writing s)
    (sent s) (is_open s).
Definition set_output (output : list bytes) (close : bool) (s : Session) : Session :=
  MkSession (m_input s) output (m_version s) close (reading s) (writing s) (sent s) (is_open s).
Definition set_reading (b : bool) (s : Session) : Session :=
  MkSession (m_input s) (m_output s) (m_version s) (m_closeAfterWrite s) b (writing s)
    (sent s) (is_open s).
Definition set_writing (w : list bytes) (more : bytes) (s : Session) : Session :=
  MkSession (m_input s) (m_output s) (m_version s) (m_closeAfterWrite s) (reading s) w
    (sent s ++ more) (is_open s).
Definition set_closed (s : Session) : Session :=
  MkSession (m_input s) (m_output s) (m_version s) (m_closeAfterWrite s) (reading s) (writing s)
    (sent s) false.

(** ** The commands

    A handler gives the session, the database and the disk it leaves, and its
    result: the reply and whether to close the connection after it, or the
    exception the database threw. *)

Definition CommandResult : Type := bytes * bool.
Definition Outcome : Type := Session * (RadishDB bytes * Disk) * result CommandResult.

Section commands.
Variable env : Env.
Implicit Types (command : RespCommand) (name : bytes) (s : Session) (st : RadishDB bytes * Disk).

Definition WrongArity name : CommandResult :=
  (Error (str "wrong number of arguments for '" ++ name ++ str "' command"), false).

(** [command.arguments.size()], and [command.arguments[i]]. *)
Definition arity command : Z := zlen (arguments command).
Definition argument command (i : nat) : result bytes := deref (arguments command !! i).

(** A result computed from the arguments, with no effect. *)
Definition pure s st (r : result CommandResult) : Outcome := (s, st, r).

Definition HandleHello command name s st : Outcome :=
  if (arity command =? 1) || (2 <? arity command) then pure s st (Ok (WrongArity name))
  else
    match argument command 1 with
    | Ok a =>
        if bool_decide (a = str "2") then
          pure (set_version Resp2 s) st (Ok (Hello Resp2, false))
        else if bool_decide (a = str "3") then
          pure (set_version Resp3 s) st (Ok (Hello Resp3, false))
        else pure s st (Ok (Error (str "NOPROTO unsupported protocol version"), false))
    | Throw e => pure s st (Throw e)
    | Undefined => pure s st Undefined
    end.

Definition HandlePing command name s st : Outcome :=
  pure s st
    (if arity command =? 1 then Ok (SimpleString (str "PONG"), false)
     else if arity command =? 2 then
       let! a := argument command 1 in Ok (BulkString (Some a) (m_version s), false)
     else Ok (WrongArity name)).

Definition HandleGet command name s st : Outcome :=
  pure s st
    (if negb (arity command =? 2) then Ok (WrongArity name)
     else
       let! key := argument command 1 in
       Ok (BulkString (RadishDB.Get (env_now env 0) key st.1) (m_version s), false)).

Definition HandleSet command name s st : Outcome :=
  if negb (arity command =? 3) then pure s st (Ok (WrongArity name))
  else
    match argument command 1, argument command 2 with
    | Ok key, Ok value =>
        let '(st, r) := RadishDB.Create (env_io env 0) (env_now env 0) key value st in
        (s, st, let! _ := r in Ok (SimpleString (str "OK"), false))
    | _, _ => pure s st Undefined
    end.

(** The loop over the arguments from the second on; [i] counts the calls. *)
Fixpoint delete_keys (i : nat) (keys : list bytes) (deleted : Z) st :
    (RadishDB bytes * Disk) * result Z :=
  match keys with
  | [] => (st, Ok deleted)
  | key :: keys =>
      match RadishDB.Delete (env_io env i) (env_now env i) key st with
      | (st, Ok b) => delete_keys (S i) keys (deleted + (if b : bool then 1 else 0)) st
      | (st, Throw e) => (st, Throw e)
      | (st, Undefined) => (st, Undefined)
      end
  end.

Definition HandleDelete command name s st : Outcome :=
  if arity command <? 2 then pure s st (Ok (WrongArity name))
  else
    let '(st, r) := delete_keys 0 (tail (arguments command)) 0 st in
    (s, st, let! deleted := r in Ok (Integer deleted, false)).

Definition HandleRename command name s st : Outcome :=
  if negb (arity command =? 3) then pure s st (Ok (WrongArity name))
  else
    match argument command 1, argument command 2 with
    | Ok oldKey, Ok newKey =>
        let '(st, r) := RadishDB.Rename (env_io env 0) (env_now env 0) oldKey newKey st in
        (s, st,
         let! renamed := r in
         Ok (if renamed then SimpleString (str "OK") else Error (str "no such key"), false))
    | _, _ => pure s st Undefined
    end.

Fixpoint count_existing (i : nat) (keys : list bytes) (exists_ : Z) (db : RadishDB bytes) : Z :=
  match keys with
  | [] => exists_
  | key :: keys =>
      count_existing (S i) keys
        (exists_ + (if RadishDB.Exists (env_now env i) key db then 1 else 0)) db
  end.

Definition HandleExists command name s st : Outcome :=
  pure s st
    (if arity command <? 2 then Ok (WrongArity name)
     else Ok (Integer (count_existing 0 (tail (arguments command)) 0 st.1), false)).

(** The entries of the store in the order of the iteration. *)
Definition iteration st : list (bytes * bytes) :=
  env_order env (RadishStore.m_data (m_store st.1)).

Definition HandleKeys command name s st : Outcome :=
  pure s st
    (if negb (arity command =? 2) then Ok (WrongArity name)
     else
       let! pattern := argument command 1 in
       if bool_decide (pattern <> str "*") then
         Ok (Error (str "only KEYS * is supported"), false)
       else Ok (Array (RadishDB.Scan (env_scan env) (iteration st) st.1) (m_version s), false)).

Definition HandleDatabaseSize command name s st : Outcome :=
  pure s st
    (if negb (arity command =? 1) then Ok (WrongArity name)
     else Ok (Integer (RadishDB.Size (env_scan env) (iteration st) st.1), false)).

Definition HandleFlushDatabase command name s st : Outcome :=
  if negb (arity command =? 1) then pure s st (Ok (WrongArity name))
  else
    let '(st, r) := RadishDB.Clear (env_io env 0) (env_now env 0) st in
    (s, st, let! _ := r in Ok (SimpleString (str "OK"), false)).

Definition HandleQuit command name s st : Outcome :=
  pure s st
    (if negb (arity command =? 1) then Ok (WrongArity name)
     else Ok (SimpleString (str "OK"), true)).

Definition CommandHandler : Type :=
  RespCommand -> bytes -> Session -> RadishDB bytes * Disk -> Outcome.

Definition CommandHandlers : gmap bytes CommandHandler :=
  list_to_map [
    (str "HELLO", HandleHello);
    (str "PING", HandlePing);
    (str "GET", HandleGet);
    (str "SET", HandleSet);
    (str "DEL", HandleDelete);
    (str "RENAME", HandleRename);
    (str "EXISTS", HandleExists);
    (str "KEYS", HandleKeys);
    (str "DBSIZE", HandleDatabaseSize);
    (str "FLUSHDB", HandleFlushDatabase);
    (str "QUIT", HandleQuit)].

Definition Dispatch command s st : Outcome :=
  match arguments command with
  | [] => pure s st Undefined
  | front :: _ =>
      let name := Uppercase front in
      match CommandHandlers !! name with
      | None => pure s st (Ok (Error (str "unknown command '" ++ name ++ str "'"), false))
      | Some handler => handler command name s st
      end
  end.

End commands.

(** ** The connection *)

(** [m_output.front()] of an empty deque is undefined behaviour. *)
Definition Write (s : Session) : result Session :=
  let! response := deref (head (m_output s)) in Ok (set_writing (writing s ++ [response]) [] s).

Definition Queue (response : bytes) (closeAfterWrite : bool) (s : Session) : result Session :=
  let writing := negb (bool_decide (m_output s = [])) in
  let s := set_output (m_output s ++ [response]) (m_closeAfterWrite s || closeAfterWrite) s in
  if negb writing then Write s else Ok s.

(** [Dispatch], which takes the surroundings of one command. *)
Definition serve (command : RespCommand) (s : Session) (w : World) :
    Session * World * result CommandResult :=
  let '(s, st, r) := Dispatch (surroundings w 0) command s (database w) in
  (s, MkWorld st (fun i => surroundings w (S i)), r).

(** The loop of [Process]. Each round that goes on takes at least one character
    of the input, so as many rounds as the input has characters, and the one
    that finds it empty, are enough ([process_unfold]). *)
Fixpoint process (fuel : nat) (s : Session) (w : World) : Session * World * result unit :=
  match fuel with
  | O => (s, w, Ok tt)
  | S fuel =>
      if bool_decide (m_input s = []) || m_closeAfterWrite s then (s, w, Ok tt)
      else
        match ParseCommand (m_input s) with
        | Ok r =>
            match status r with
            | Incomplete => (s, w, Ok tt)
            | Error_ =>
                match Queue (Error (error r)) true s with
                | Ok s => (s, w, Ok tt)
                | Throw e => (s, w, Throw e)
                | Undefined => (s, w, Undefined)
                end
            | Complete =>
                match serve (command r) (set_input (zdrop (consumed r) (m_input s)) s) w with
                | (s, w, Ok (response, close)) =>
                    match Queue response close s with
                    | Ok s => process fuel s w
                    | Throw e => (s, w, Throw e)
                    | Undefined => (s, w, Undefined)
                    end
                | (s, w, Throw e) => (s, w, Throw e)
                | (s, w, Undefined) => (s, w, Undefined)
                end
            end
        | Throw e => (s, w, Throw e)
        | Undefined => (s, w, Undefined)
        end
  end.

Definition Process (s : Session) (w : World) : Session * World * result unit :=
  process (S (length (m_input s))) s w.

Definition Read (s : Session) : Session := set_reading true s.

(** A connection just accepted, and [Start]. *)
Definition NewSession : Session := MkSession [] [] Resp2 false false [] [] true.
Definition StartSession (s : Session) : Session := Read s.

(** The handler of a read that brought [data]; an error ends the reading. *)
Definition on_read (data : bytes) (s : Session) (w : World) : Session * World * result unit :=
  let s := set_reading false s in
  let s := set_input (m_input s ++ data) s in
  if kMaxBufferedInput <? zlen (m_input s) then
    match Queue (Error (str "Protocol error: input buffer limit exceeded")) true s with
    | Ok s => (s, w, Ok tt)
    | Throw e => (s, w, Throw e)
    | Undefined => (s, w, Undefined)
    end
  else
    match Process s w with
    | (s, w, Ok _) => ((if negb (m_closeAfterWrite s) then Read s else s), w, Ok tt)
    | r => r
    end.

Definition on_read_error (s : Session) : Session := set_reading false s.

(** The writes under way without the one of [response] that ended. *)
Fixpoint ended (response : bytes) (ws : list bytes) : list bytes :=
  match ws with
  | [] => []
  | w :: ws => if decide (w = response) then ws else w :: ended response ws
  end.

(** The handler of a write of [response]; with an error it only returns. *)
Definition on_write (response : bytes) (s : Session) : result Session :=
  let s := set_writing (ended response (writing s)) response s in
  let s := set_output (tail (m_output s)) (m_closeAfterWrite s) s in
  if negb (bool_decide (m_output s = [])) then Write s
  else if m_closeAfterWrite s then Ok (set_closed s)
  else Ok s.

Definition on_write_error (response : bytes) (s : Session) : Session :=
  set_writing (ended response (writing s)) [] s.

(** The size of [m_readBuffer]. *)
Definition kReadBuffer : Z := 8192.

(** Everything that can happen to a connection whose handlers do not throw. The
    other connections share the database, so it may change between two steps. *)
Inductive step : Session * World -> Session * World -> Prop :=
  | step_read data s w s' w' :
      reading s = true -> 0 < zlen data <= kReadBuffer ->
      on_read data s w = (s', w', Ok tt) ->
      step (s, w) (s', w')
  | step_read_error s w : reading s = true -> step (s, w) (on_read_error s, w)
  | step_write response s w s' :
      response ∈ writing s -> on_write response s = Ok s' -> step (s, w) (s', w)
  | step_write_error response s w : response ∈ writing s ->
      step (s, w) (on_write_error response s, w)
  | step_others s w w' : step (s, w) (s, w').

Inductive reachable_session : Session * World -> Prop :=
  | session_start w : reachable_session (StartSession NewSession, w)
  | session_step x y : reachable_session x -> step x y -> reachable_session y.

(** ** Lemmas *)

(** Everything queued and sent so far, in order. *)
Definition transcript (s : Session) : bytes := sent s ++ concat (m_output s).

Lemma set_version_id s : set_version (m_version s) s = s.
Proof. by destruct s. Qed.

Lemma queue_eq response close s :
  Queue response close s
  = Ok (MkSession (m_input s) (m_output s ++ [response]) (m_version s)
          (m_closeAfterWrite s || close) (reading s)
          (if decide (m_output s = []) then writing s ++ [response] else writing s) (sent s) (is_open s)).
Proof.
  unfold Queue. case_decide as E.
  - rewrite bool_decide_eq_true_2 by done. unfold Write. simpl. rewrite E. simpl.
    unfold set_writing. simpl. by rewrite app_nil_r.
  - by rewrite bool_decide_eq_false_2.
Qed.

(** A command only touches the protocol version of the session, and sees
    nothing else of it. *)
Definition framed (f : Session -> RadishDB bytes * Disk -> Outcome) : Prop :=
  forall version st, exists version' st' r, forall s, m_version s = version ->
    f s st = (set_version version' s, st', r).

Ltac solve_framed :=
  intros version st; unfold pure;
  repeat case_match;
  eexists _, _, _; intros s Hs; rewrite ?Hs;
  first [reflexivity | rewrite <- (set_version_id s) at 1; rewrite Hs; reflexivity].

Lemma handler_framed env name handler command n :
  CommandHandlers env !! name = Some handler -> framed (handler command n).
Proof.
  intros E%elem_of_list_to_map_2.
  repeat (apply elem_of_cons in E as [[= -> ->]|E]); [..|by apply not_elem_of_nil in E].
  - unfold HandleHello. solve_framed.
  - unfold HandlePing. solve_framed.
  - unfold HandleGet. solve_framed.
  - unfold HandleSet. solve_framed.
  - unfold HandleDelete. solve_framed.
  - unfold HandleRename. solve_framed.
  - unfold HandleExists. solve_framed.
  - unfold HandleKeys. solve_framed.
  - unfold HandleDatabaseSize. solve_framed.
  - unfold HandleFlushDatabase. solve_framed.
  - unfold HandleQuit. solve_framed.
Qed.

Lemma dispatch_framed env command : framed (Dispatch env command).
Proof.
  unfold Dispatch. destruct (arguments command) as [|front args]; [solve_framed|].
  destruct (CommandHandlers env !! Uppercase front) as [h|] eqn:E; [|solve_framed].
  by eapply handler_framed.
Qed.

Lemma serve_framed command version w :
  exists version' w' r, forall s, m_version s = version ->
    serve command s w = (set_version version' s, w', r).
Proof.
  destruct (dispatch_framed (surroundings w 0) command version (database w)) as (v & st & r & H).
  eexists v, _, r. intros s Hs. unfold serve. by rewrite (H s Hs).
Qed.

(** *** The loop *)

Lemma erase_shorter input r :
  ParseCommand input = Ok r -> status r = Complete ->
  (length (zdrop (consumed r) input) < length input)%nat.
Proof.
  intros Hp Hs. pose proof (parse_consumed _ _ Hp Hs). unfold zdrop, zlen in *.
  rewrite length_drop. lia.
Qed.

(** The fuel does not matter once it exceeds the input. *)
Lemma process_fuel n m s w :
  (length (m_input s) < n)%nat -> (length (m_input s) < m)%nat -> process n s w = process m s w.
Proof.
  revert m s w. induction n as [|n IH]; intros m s w Hn Hm; [lia|].
  destruct m as [|m]; [lia|]. cbn [process]. destruct (_ || _); [done|].
  destruct (ParseCommand (m_input s)) as [r| |] eqn:Ep; [|done|done].
  destruct (status r) eqn:Er; [|done|done].
  pose proof (erase_shorter _ _ Ep Er) as Hl.
  destruct (serve_framed (command r) (m_version s) w) as (v & w' & res & Hs).
  rewrite Hs by done. destruct res as [[response close]| |]; [|done|done].
  rewrite queue_eq. apply IH; simpl; lia.
Qed.

(** One round of the loop, without fuel. *)
Lemma process_unfold s w :
  Process s w =
  if bool_decide (m_input s = []) || m_closeAfterWrite s then (s, w, Ok tt)
  else
    match ParseCommand (m_input s) with
    | Ok r =>
        match status r with
        | Incomplete => (s, w, Ok tt)
        | Error_ =>
            match Queue (Error (error r)) true s with
            | Ok s => (s, w, Ok tt)
            | Throw e => (s, w, Throw e)
            | Undefined => (s, w, Undefined)
            end
        | Complete =>
            match serve (command r) (set_input (zdrop (consumed r) (m_input s)) s) w with
            | (s, w, Ok (response, close)) =>
                match Queue response close s with
                | Ok s => Process s w
                | Throw e => (s, w, Throw e)
                | Undefined => (s, w, Undefined)
                end
            | (s, w, Throw e) => (s, w, Throw e)
            | (s, w, Undefined) => (s, w, Undefined)
            end
        end
    | Throw e => (s, w, Throw e)
    | Undefined => (s, w, Undefined)
    end.
Proof.
  unfold Process at 1. cbn [process]. destruct (_ || _); [done|].
  destruct (ParseCommand (m_input s)) as [r| |] eqn:Ep; [|done|done].
  destruct (status r) eqn:Er; [|done|done].
  pose proof (erase_shorter _ _ Ep Er) as Hl.
  destruct (serve_framed (command r) (m_version s) w) as (v & w' & res & Hs).
  rewrite Hs by done. destruct res as [[response close]| |]; [|done|done].
  rewrite queue_eq. apply process_fuel; simpl; lia.
Qed.

(** A property of sessions the loop keeps, whatever the commands do. *)
Lemma process_inv (P : Session -> Prop) s w s' w' r :
  (forall s v input, P s -> zlen input <= zlen (m_input s) -> P (set_version v (set_input input s))) ->
  (forall s s' response close, P s -> Queue response close s = Ok s' -> P s') ->
  P s -> Process s w = (s', w', r) -> P s'.
Proof.
  intros Hv Hq. remember (length (m_input s)) as n eqn:En. revert s w En.
  induction (lt_wf n) as [n _ IH]. intros s w En Hs. rewrite process_unfold.
  destruct (_ || _); [by intros [= <- <- <-]|].
  destruct (ParseCommand (m_input s)) as [pr| |] eqn:Ep; [|by intros [= <- <- <-]..].
  destruct (status pr) eqn:Er; [|by intros [= <- <- <-]|].
  - pose proof (erase_shorter _ _ Ep Er) as Hl. pose proof (parse_consumed _ _ Ep Er).
    destruct (serve_framed (command pr) (m_version s) w) as (v & w1 & res & Hserve).
    rewrite Hserve by done.
    assert (H1 : P (set_version v (set_input (zdrop (consumed pr) (m_input s)) s)))
      by (apply Hv; [done | rewrite zlen_zdrop; lia]).
    destruct res as [[response close]| |]; [|by intros [= <- <- <-]..].
    rewrite queue_eq. eapply IH; [|reflexivity|]; [simpl; lia|].
    eapply Hq; [exact H1 | by rewrite queue_eq].
  - rewrite queue_eq. intros [= <- <- <-]. eapply Hq; [exact Hs | by rewrite queue_eq].
Qed.

Lemma process_chunk s w s1 w1 d :
  Process s w = (s1, w1, Ok tt) -> m_closeAfterWrite s1 = false ->
  Process (set_input (m_input s1 ++ d) s1) w1 = Process (set_input (m_input s ++ d) s) w.
Proof.
  remember (length (m_input s)) as n eqn:En. revert s w En.
  induction (lt_wf n) as [n _ IH]. intros s w En. rewrite (process_unfold s w).
  destruct (_ || _) eqn:E0; [by intros [= <- <-]|]. apply orb_false_elim in E0 as [Ei Ec].
  apply bool_decide_eq_false in Ei.
  destruct (ParseCommand (m_input s)) as [pr| |] eqn:Ep; [|done|done].
  destruct (status pr) eqn:Er; [|by intros [= <- <-]|].
  2: { rewrite queue_eq. intros [= <- <-]. simpl. by rewrite orb_true_r. }
  pose proof (erase_shorter _ _ Ep Er) as Hl. pose proof (parse_consumed _ _ Ep Er).
  destruct (serve_framed (command pr) (m_version s) w) as (v & w2 & res & Hserve).
  rewrite Hserve by done. destruct res as [[response close]| |]; [|done|done].
  intros Hp Hc. rewrite queue_eq in Hp.
  rewrite (process_unfold (set_input (m_input s ++ d) s)). cbn [m_input set_input m_closeAfterWrite].
  rewrite bool_decide_eq_false_2, Ec by (by intros [??]%app_eq_nil). cbn [orb].
  rewrite (parse_more _ d _ Ep), Er by (by rewrite Er).
  rewrite Hserve by done. rewrite queue_eq, zdrop_app_le by lia.
  refine (IH _ _ _ _ eq_refl Hp Hc). simpl. lia.
Qed.

Lemma process_reading s w s' w' r : Process s w = (s', w', r) -> reading s' = reading s.
Proof.
  apply (process_inv (fun s' => reading s' = reading s)); [done| |done].
  intros s1 s2 response close H. rewrite queue_eq. by intros [= <-].
Qed.

(** *** The state of a connection *)

Record session_inv (s : Session) : Prop := {
  inv_writing : writing s = [] \/ writing s = take 1 (m_output s);
  inv_reading : reading s = true ->
    m_closeAfterWrite s = false /\ zlen (m_input s) <= kMaxBufferedInput;
  inv_input : zlen (m_input s) <= kMaxBufferedInput + kReadBuffer;
  inv_closed : is_open s = false ->
    m_output s = [] /\ m_closeAfterWrite s = true /\ reading s = false;
}.

(** What the handler of a read keeps while it runs. *)
Record handling (s0 s : Session) : Prop := {
  handling_writing : writing s = [] \/ writing s = take 1 (m_output s);
  handling_reading : reading s = false;
  handling_open : is_open s = true;
  handling_sent : sent s = sent s0;
  handling_output : exists new, m_output s = m_output s0 ++ new;
  handling_input : zlen (m_input s) <= zlen (m_input s0);
}.

Lemma handling_queue s0 s s' response close :
  handling s0 s -> Queue response close s = Ok s' -> handling s0 s'.
Proof.
  intros [H1 H2 H3 H4 (new & H5) H6]. rewrite queue_eq. intros [= <-].
  split; simpl; try done.
  - case_decide as E; [right; rewrite E in *; by destruct H1 as [->| ->]|].
    destruct H1 as [H1|H1]; [left|right]; rewrite H1; by destruct (m_output s).
  - rewrite H5. exists (new ++ [response]). by rewrite app_assoc.
Qed.

Lemma handling_refl s :
  writing s = [] \/ writing s = take 1 (m_output s) -> reading s = false -> is_open s = true ->
  handling s s.
Proof. intros. split; try done. exists []. by rewrite app_nil_r. Qed.

Lemma handling_process s0 s w s' w' r :
  handling s0 s -> Process s w = (s', w', r) -> handling s0 s'.
Proof.
  intros H. apply process_inv; [| |done].
  - intros s1 v input [H1 H2 H3 H4 H5 H6] Hl. split; try done. simpl. lia.
  - intros s1 s2 response close. apply handling_queue.
Qed.

(** The two ways the handler of a read ends. *)
Lemma on_read_handling data s w s' w' r :
  session_inv s -> reading s = true -> on_read data s w = (s', w', r) ->
  let s0 := set_input (m_input s ++ data) (set_reading false s) in
  exists s1, handling s0 s1 /\
    (s' = s1 /\ (zlen (m_input s0) <= kMaxBufferedInput -> r = Ok tt -> m_closeAfterWrite s1 = true)
     \/ s' = Read s1 /\ m_closeAfterWrite s1 = false /\ zlen (m_input s0) <= kMaxBufferedInput).
Proof.
  intros [Hw Hr Hi Hc] Hread He s0. unfold on_read in He.
  change (set_input _ _) with s0 in He.
  assert (H0 : handling s0 s0).
  { apply handling_refl; [done|done|]. simpl. destruct (is_open s) eqn:Eo; [done|].
    destruct (Hc eq_refl) as (_ & _ & Hf). congruence. }
  destruct (kMaxBufferedInput <? zlen (m_input s0)) eqn:El; zify_bool.
  - rewrite queue_eq in He. injection He as <- <- <-. eexists. split.
    + eapply handling_queue; [exact H0 | apply queue_eq].
    + left. split; [done|]. intros. lia.
  - destruct (Process s0 w) as [[s1 w1] r1] eqn:Ep.
    pose proof (handling_process _ _ _ _ _ _ H0 Ep) as H1. exists s1. split; [done|].
    destruct r1 as [[]| |]; [|injection He as <- <- <-; left; by split..].
    injection He as <- <- <-. destruct (m_closeAfterWrite s1) eqn:Ec; simpl.
    + left. by split.
    + right. by split_and!.
Qed.

Lemma session_inv_start : session_inv (StartSession NewSession).
Proof. split; [by left|by intros _|by vm_compute|done]. Qed.

Lemma session_inv_on_read data s w s' w' r :
  session_inv s -> reading s = true -> zlen data <= kReadBuffer ->
  on_read data s w = (s', w', r) -> session_inv s'.
Proof.
  intros Hs Hr Hd He. pose proof (inv_reading _ Hs Hr) as [_ Hi].
  destruct (on_read_handling _ _ _ _ _ _ Hs Hr He) as (s1 & [H1 H2 H3 H4 _ H6] & H).
  simpl in *. rewrite zlen_app in *. destruct H as [[-> _]|(-> & Hc & Hl)].
  - split; [done|congruence|lia|congruence].
  - split; simpl; [done|intros _; split; [done|lia]|lia|congruence].
Qed.

(** A write under way is the only one, of the front of the queue. *)
Lemma writing_front response s :
  session_inv s -> response ∈ writing s ->
  writing s = [response] /\ exists rest, m_output s = response :: rest.
Proof.
  intros [Hw _ _ _] E. destruct Hw as [Hw|Hw]; rewrite Hw in E |- *; [by apply not_elem_of_nil in E|].
  destruct (m_output s) as [|front rest]; simpl in *; [by apply not_elem_of_nil in E|].
  apply list_elem_of_singleton in E as ->. by eauto.
Qed.

Lemma ended_only response : ended response [response] = [].
Proof. simpl. by rewrite decide_True. Qed.

(** The handler of a write sends the front of the queue. *)
Lemma session_inv_on_write response s s' :
  session_inv s -> response ∈ writing s -> on_write response s = Ok s' ->
  session_inv s' /\ transcript s' = transcript s /\ sent s' = sent s ++ response.
Proof.
  intros Hs E. destruct (writing_front response s Hs E) as [Hw [rest Hout]].
  destruct Hs as [_ Hr Hi Hc]. unfold on_write, transcript. rewrite Hw, ended_only.
  destruct s as [input output version close rd wr snt op]. simpl in *. subst output.
  destruct op; [|by destruct (Hc eq_refl)]. simpl.
  destruct rest as [|next rest]; simpl.
  - destruct close; intros [= <-]; simpl; rewrite !app_nil_r; (split; [|done]);
      split; simpl; try done; try by left.
    intros _. split_and!; [done|done|]. destruct rd; [|done]. by destruct (Hr eq_refl).
  - unfold Write. simpl. intros [= <-]. simpl. rewrite !app_nil_r, <- app_assoc.
    split; [|done]. split; simpl; try done; by right.
Qed.

Lemma session_inv_step s w s' w' :
  session_inv s -> step (s, w) (s', w') -> session_inv s'.
Proof.
  intros Hs Hstep. inversion Hstep; subst.
  - eapply session_inv_on_read; [exact Hs|done| |done]. lia.
  - destruct Hs as [Hw Hr Hi Hc]. split; simpl; try done. intros Ho.
    by destruct (Hc Ho) as (? & ? & _).
  - by eapply session_inv_on_write.
  - pose proof Hs as [_ Hr Hi Hc]. split; simpl; try done. left.
    match goal with H : _ ∈ writing _ |- _ => destruct (writing_front _ _ Hs H) as [-> _] end.
    apply ended_only.
  - done.
Qed.

Lemma reachable_session_inv s w : reachable_session (s, w) -> session_inv s.
Proof.
  intros H. remember (s, w) as x eqn:E. revert s w E.
  induction H as [w0|[s0 w0] y _ IH Hstep]; intros s w E.
  - injection E as <- _. apply session_inv_start.
  - subst y. eapply session_inv_step; [by eapply IH | exact Hstep].
Qed.

(** ** The contract of the commands

    What each command answers and does, on the map the store represents
    ([RadishStore.abs]). Command names are compared without their case. *)

Module Protocol.

Section protocol.
Abbreviation Map := (gmap bytes (@Spec.entry bytes)).
Implicit Types (m : Map) (args keys : list bytes).

Definition is_command (c : bytes) (name : string) : Prop := Uppercase c = str name.

(** How many of the keys were there, and the map without them. *)
Fixpoint delete_all keys m : Z * Map :=
  match keys with
  | [] => (0, m)
  | k :: keys =>
      let '(b, m) := Spec.remove k m in
      let '(n, m) := delete_all keys m in
      ((if b : bool then 1 else 0) + n, m)
  end.

(** How many of the keys are found, each at its own reading of the clock. *)
Fixpoint count_alive (now : nat -> Timestamp) (i : nat) keys m : Z :=
  match keys with
  | [] => 0
  | k :: keys =>
      (if bool_decide (is_Some (Spec.lookup_alive (now i) m k)) then 1 else 0)
      + count_alive now (S i) keys m
  end.

(** The keys that are found, in some order. *)
Definition live_keys (now : bytes -> Timestamp) m keys : Prop :=
  NoDup keys /\ forall k, k ∈ keys <-> is_Some (Spec.lookup_alive (now k) m k).

Definition OK : bytes := SimpleString (str "OK").

(** The numbers of arguments a command takes, its name included. *)
Inductive takes : string -> Z -> Prop :=
  | takes_hello : takes "HELLO" 2
  | takes_ping : takes "PING" 1
  | takes_echo : takes "PING" 2
  | takes_get : takes "GET" 2
  | takes_set : takes "SET" 3
  | takes_del n : 2 <= n -> takes "DEL" n
  | takes_rename : takes "RENAME" 3
  | takes_exists n : 2 <= n -> takes "EXISTS" n
  | takes_keys : takes "KEYS" 2
  | takes_dbsize : takes "DBSIZE" 1
  | takes_flushdb : takes "FLUSHDB" 1
  | takes_quit : takes "QUIT" 1.

Definition commands : list string :=
  ["HELLO"; "PING"; "GET"; "SET"; "DEL"; "RENAME"; "EXISTS"; "KEYS"; "DBSIZE"; "FLUSHDB"; "QUIT"]%string.

(** [answer env ttl version m args reply close version' m']: in a database with
    time to live [ttl] that represents [m], on a connection that speaks
    [version], the command [args] is answered [reply], the connection is closed
    after it when [close], and leaves [version'] and [m']. Renaming a key to
    itself is answered as a success and deletes the key. *)
Inductive answer (env : Env) (ttl : Timestamp) (version : RespVersion) m :
    list bytes -> bytes -> bool -> RespVersion -> Map -> Prop :=
  | answer_hello c v :
      is_command c "HELLO" ->
      answer env ttl version m [c; match v with Resp2 => str "2" | Resp3 => str "3" end]
        (Hello v) false v m
  | answer_hello_unsupported c a :
      is_command c "HELLO" -> a <> str "2" -> a <> str "3" ->
      answer env ttl version m [c; a]
        (Error (str "NOPROTO unsupported protocol version")) false version m
  | answer_ping c :
      is_command c "PING" ->
      answer env ttl version m [c] (SimpleString (str "PONG")) false version m
  | answer_echo c a :
      is_command c "PING" ->
      answer env ttl version m [c; a] (BulkString (Some a) version) false version m
  | answer_get c k :
      is_command c "GET" ->
      answer env ttl version m [c; k]
        (BulkString (Spec.lookup_alive (env_now env 0) m k) version) false version m
  | answer_set c k v :
      is_command c "SET" ->
      answer env ttl version m [c; k; v] OK false version
        (spec_call ttl (env_now env 0) (CallCreate k v None) m).2
  | answer_del c keys :
      is_command c "DEL" -> keys <> [] ->
      answer env ttl version m (c :: keys) (Integer (delete_all keys m).1) false version
        (delete_all keys m).2
  | answer_rename c k k' m' :
      is_command c "RENAME" -> k <> k' -> Spec.move (env_now env 0) k k' m = (true, m') ->
      answer env ttl version m [c; k; k'] OK false version m'
  | answer_rename_self c k :
      is_command c "RENAME" -> is_Some (Spec.lookup_alive (env_now env 0) m k) ->
      answer env ttl version m [c; k; k] OK false version (delete k m)
  | answer_rename_missing c k k' m' :
      is_command c "RENAME" -> Spec.move (env_now env 0) k k' m = (false, m') ->
      answer env ttl version m [c; k; k'] (Error (str "no such key")) false version m'
  | answer_exists c keys :
      is_command c "EXISTS" -> keys <> [] ->
      answer env ttl version m (c :: keys) (Integer (count_alive (env_now env) 0 keys m)) false
        version m
  | answer_keys c keys :
      is_command c "KEYS" -> live_keys (env_scan env) m keys ->
      answer env ttl version m [c; str "*"] (Array keys version) false version m
  | answer_keys_pattern c a :
      is_command c "KEYS" -> a <> str "*" ->
      answer env ttl version m [c; a] (Error (str "only KEYS * is supported")) false version m
  | answer_dbsize c keys :
      is_command c "DBSIZE" -> live_keys (env_scan env) m keys ->
      answer env ttl version m [c] (Integer (zlen keys)) false version m
  | answer_flushdb c :
      is_command c "FLUSHDB" -> answer env ttl version m [c] OK false version ∅
  | answer_quit c :
      is_command c "QUIT" -> answer env ttl version m [c] OK true version m
  | answer_arity c args name :
      is_command c name -> name ∈ commands -> ~ takes name (zlen (c :: args)) ->
      answer env ttl version m (c :: args)
        (Error (str "wrong number of arguments for '" ++ Uppercase c ++ str "' command")) false
        version m
  | answer_unknown c args :
      (forall name, name ∈ commands -> ~ is_command c name) ->
      answer env ttl version m (c :: args)
        (Error (str "unknown command '" ++ Uppercase c ++ str "'")) false version m.

(** Requests answered one after the other, none of which closes the
    connection, each in its own surroundings. *)
Inductive conversation (ttl : Timestamp) : (nat -> Env) -> RespVersion -> Map ->
    list (list bytes) -> list bytes -> RespVersion -> Map -> Prop :=
  | conversation_nil envs version m : conversation ttl envs version m [] [] version m
  | conversation_cons envs version m args requests reply replies version1 m1 version2 m2 :
      answer (envs O) ttl version m args reply false version1 m1 ->
      conversation ttl (fun i => envs (S i)) version1 m1 requests replies version2 m2 ->
      conversation ttl envs version m (args :: requests) (reply :: replies) version2 m2.

(** A request that ends the connection. *)
Definition quitting args : Prop := exists c, args = [c] /\ is_command c "QUIT".

End protocol.
End Protocol.

Section contract.
Variable env : Env.
Implicit Types (c : bytes) (args : list bytes) (s : Session) (st : RadishDB bytes * Disk).

(** The disk takes every write of the command, or there is no log. *)
Definition ready st : Prop :=
  m_persistence st.1 = None \/ forall i, env_io env i = io_ok.

(** The outcome of a command that returns what the contract says. *)
Definition answers s st args (o : Outcome) : Prop :=
  exists st' reply close version',
    o = (set_version version' s, st', Ok (reply, close))
    /\ Protocol.answer env (m_ttl (m_store st.1)) (m_version s) (abs (m_store st.1)) args
         reply close version' (abs (m_store st'.1))
    /\ m_persistence st'.1 = m_persistence st.1
    /\ m_ttl (m_store st'.1) = m_ttl (m_store st.1).

Lemma answers_pure s st args reply close version' :
  Protocol.answer env (m_ttl (m_store st.1)) (m_version s) (abs (m_store st.1)) args
    reply close version' (abs (m_store st.1)) ->
  answers s st args (pure (set_version version' s) st (Ok (reply, close))).
Proof. intros. by exists st, reply, close, version'. Qed.

(** The same for a command that leaves the protocol version. *)
Lemma answers_same s st args reply close :
  Protocol.answer env (m_ttl (m_store st.1)) (m_version s) (abs (m_store st.1)) args
    reply close (m_version s) (abs (m_store st.1)) ->
  answers s st args (pure s st (Ok (reply, close))).
Proof. intros Ha. rewrite <- (set_version_id s) at 2. by apply answers_pure. Qed.

Lemma answers_arity name s st c args :
  Protocol.is_command c name -> name ∈ Protocol.commands ->
  ~ Protocol.takes name (zlen (c :: args)) ->
  answers s st (c :: args) (pure s st (Ok (WrongArity (Uppercase c)))).
Proof. intros. apply answers_same. by eapply Protocol.answer_arity. Qed.

Lemma zlen_zero {A} (l : list A) : zlen l = 0 -> l = [].
Proof. destruct l; [done|]. zlen_solve. Qed.

Lemma zlen_succ {A} (l : list A) n : zlen l = n + 1 -> 0 <= n -> exists a l', l = a :: l' /\ zlen l' = n.
Proof.
  destruct l as [|a l']; [zlen_solve|]. rewrite zlen_cons. intros. exists a, l'. split; [done|lia].
Qed.

(** A mutation within the limits of the protocol, on a disk that works. *)
Definition small_mutation (m : Mutation bytes) : Prop :=
  match m with
  | MutCreate k v => zlen k <= kMaxBulkLength /\ zlen v <= kMaxBulkLength
  | MutRename k k' => zlen k <= kMaxBulkLength /\ zlen k' <= kMaxBulkLength
  | MutDelete k => zlen k <= kMaxBulkLength
  | MutClear => True
  end.

Lemma small_mutation_storable now (store : RadishStore bytes) m :
  small_mutation m -> storable (event_of now store m).
Proof.
  unfold small_mutation, kMaxBulkLength. intros Hm. destruct m as [k v|k k'|k|]; simpl.
  - apply storable_string_create; [apply new_expiry_in_ll|]. unfold kMaxRecordSize. lia.
  - apply storable_rename. unfold kMaxRecordSize. lia.
  - apply storable_delete. unfold kMaxRecordSize. lia.
  - apply storable_clear.
Qed.

Lemma mutate_ready i now m st :
  ready st -> small_mutation m -> is_self_rename m = false ->
  exists st' b reply, mutate (env_io env i) now m st = (st', Ok b)
    /\ m_persistence st'.1 = m_persistence st.1
    /\ m_ttl (m_store st'.1) = m_ttl (m_store st.1)
    /\ spec_call (m_ttl (m_store st.1)) now (mutation_call now (m_store st.1) m)
         (abs (m_store st.1)) = (reply, abs (m_store st'.1))
    /\ b = call_applied reply.
Proof.
  intros Hr Hm Hsr.
  destruct (mutate_succeeds (env_io env i) now m st) as (db & disk & b & H1 & H2 & _ & H3 & reply & H4 & H5).
  - by destruct m.
  - done.
  - destruct Hr as [Hr|Hr]; [by left|right]. split; [done|]. by apply small_mutation_storable.
  - by exists (db, disk), b, reply.
Qed.

(** [SET] stores the expiry the contract computes. *)
Lemma create_call_now now k v (store : RadishStore bytes) :
  spec_call (m_ttl store) now (mutation_call now store (MutCreate k v)) (abs store)
  = spec_call (m_ttl store) now (CallCreate k v None) (abs store).
Proof.
  simpl. unfold NewExpiryTimestamp, HasTimeToLive. by destruct (m_ttl store =? -1).
Qed.

Lemma delete_keys_all i keys n st :
  ready st -> Forall (fun k => zlen k <= kMaxBulkLength) keys ->
  exists st', delete_keys env i keys n st
    = (st', Ok (n + (Protocol.delete_all keys (abs (m_store st.1))).1))
    /\ abs (m_store st'.1) = (Protocol.delete_all keys (abs (m_store st.1))).2
    /\ m_persistence st'.1 = m_persistence st.1
    /\ m_ttl (m_store st'.1) = m_ttl (m_store st.1).
Proof.
  revert i n st. induction keys as [|k keys IH]; intros i n st Hr Hk; simpl.
  { exists st. by rewrite Z.add_0_r. }
  inversion Hk as [|? ? Hk1 Hk2]; subst.
  destruct (mutate_ready i (env_now env i) (MutDelete k) st Hr Hk1 eq_refl)
    as (st1 & b & reply & H1 & H2 & H3 & H4 & H5).
  simpl in H1, H4. rewrite H1. injection H4 as <- Habs. simpl in H5. subst b.
  destruct (IH (S i) (n + (if bool_decide (is_Some (abs (m_store st.1) !! k)) then 1 else 0)) st1)
    as (st2 & -> & H6 & H7 & H8); [unfold ready in *; by rewrite H2|done|].
  rewrite <- Habs in *. exists st2.
  destruct (Protocol.delete_all keys (delete k (abs (m_store st.1)))) as [d m'].
  simpl in *. rewrite H7, H8. split_and!; try done. do 2 f_equal. lia.
Qed.

Lemma count_existing_alive i keys n (db : RadishDB bytes) :
  count_existing env i keys n db
  = n + Protocol.count_alive (env_now env) i keys (abs (m_store db)).
Proof.
  revert i n. induction keys as [|k keys IH]; intros i n; simpl; [lia|].
  rewrite IH. unfold RadishDB.Exists. rewrite exists_get, get_abs. lia.
Qed.

(** Only a live key is moved. *)
Lemma dead_not_moved (now : Timestamp) (k k' : bytes) (m : gmap bytes (@Spec.entry bytes)) :
  ~ is_Some (Spec.lookup_alive now m k) -> Spec.move now k k' m = (false, m).
Proof.
  unfold Spec.lookup_alive, Spec.move. destruct (m !! k) as [e|]; [|done].
  destruct (Spec.alive now e); [|done]. intros []. by eexists.
Qed.

Lemma not_moved_dead (now : Timestamp) (k k' : bytes) (m m' : gmap bytes (@Spec.entry bytes)) :
  Spec.move now k k' m = (false, m') -> ~ is_Some (Spec.lookup_alive now m k).
Proof.
  unfold Spec.lookup_alive, Spec.move. destruct (m !! k) as [e|]; [|by intros _ []].
  by destruct (Spec.alive now e); [|intros _ []].
Qed.

(** *** Each handler *)

Context (s : Session) (st : RadishDB bytes * Disk) (c : bytes) (args : list bytes).
Context (Hready : ready st).
Context (Hsmall : Forall (fun a => zlen a <= kMaxBulkLength) args).
Context (Hiter : forall m, env_order env m ≡ₚ map_to_list m).

Abbreviation command := (MkCommand (c :: args)).
Abbreviation name := (Uppercase c).

(** The number of arguments: wrong, or the arguments themselves. *)
Ltac check_arity cmd :=
  match goal with |- context [if ?b then _ else _] => destruct b eqn:?E end;
  unfold arity in *; cbn [arguments] in *; zify_bool;
  try (apply (answers_arity cmd); [done | apply (bool_decide_unpack _); vm_compute; exact I
    | intros Ht; revert Ht; generalize dependent (zlen (c :: args)); intros n ? Ht;
      match goal with Ht : Protocol.takes _ _ |- False => inversion Ht; subst; lia end]).

Lemma length_args n : zlen (c :: args) = n + 1 -> zlen args = n.
Proof. rewrite zlen_cons. lia. Qed.

Lemma argument_1 x y l : argument (MkCommand (x :: y :: l)) 1 = Ok y.
Proof. done. Qed.

Lemma argument_2 x y z l : argument (MkCommand (x :: y :: z :: l)) 2 = Ok z.
Proof. done. Qed.

Lemma handle_get : Protocol.is_command c "GET" -> answers s st (c :: args) (HandleGet env command name s st).
Proof.
  intros Hc. unfold HandleGet. check_arity "GET"%string.
  apply (length_args 1), (zlen_succ _ 0) in E as (k & l & -> & ->%zlen_zero); [|lia].
  apply answers_same. unfold RadishDB.Get. rewrite get_abs. by apply Protocol.answer_get.
Qed.

Lemma handle_ping : Protocol.is_command c "PING" -> answers s st (c :: args) (HandlePing command name s st).
Proof.
  intros Hc. unfold HandlePing.
  destruct (arity command =? 1) eqn:E1.
  { unfold arity in E1. cbn [arguments] in E1. zify_bool.
    apply (length_args 0), zlen_zero in E1 as ->. apply answers_same. by apply Protocol.answer_ping. }
  destruct (arity command =? 2) eqn:E2; unfold arity in *; cbn [arguments] in *; zify_bool.
  - apply (length_args 1), (zlen_succ _ 0) in E2 as (k & l & -> & ->%zlen_zero); [|lia].
    apply answers_same. by apply Protocol.answer_echo.
  - apply (answers_arity "PING"); [done|apply (bool_decide_unpack _); vm_compute; exact I|].
    revert E1 E2. generalize (zlen (c :: args)). intros n E1 E2 Ht. by inversion Ht; subst.
Qed.

Lemma handle_hello : Protocol.is_command c "HELLO" -> answers s st (c :: args) (HandleHello command name s st).
Proof.
  intros Hc. unfold HandleHello.
  destruct ((arity command =? 1) || (2 <? arity command)) eqn:E; unfold arity in *; cbn [arguments] in *.
  - apply (answers_arity "HELLO"); [done|apply (bool_decide_unpack _); vm_compute; exact I|].
    revert E. generalize (zlen (c :: args)). intros n E Ht. by inversion Ht; subst.
  - zify_bool. destruct args as [|a [|b l]]; [done| |exfalso; pose proof (zlen_nonneg l); zlen_solve].
    rewrite argument_1. destruct (bool_decide (a = str "2")) eqn:E2; [|destruct (bool_decide (a = str "3")) eqn:E3].
    + apply bool_decide_eq_true in E2 as ->. apply answers_pure. by apply (Protocol.answer_hello _ _ _ _ _ Resp2).
    + apply bool_decide_eq_true in E3 as ->. apply answers_pure. by apply (Protocol.answer_hello _ _ _ _ _ Resp3).
    + apply bool_decide_eq_false in E2, E3. apply answers_same. by apply Protocol.answer_hello_unsupported.
Qed.

Lemma handle_set : Protocol.is_command c "SET" -> answers s st (c :: args) (HandleSet env command name s st).
Proof.
  intros Hc. unfold HandleSet. check_arity "SET"%string.
  apply (length_args 2), (zlen_succ _ 1) in E as (k & l & -> & E); [|lia].
  apply (zlen_succ _ 0) in E as (v & l' & -> & ->%zlen_zero); [|lia].
  inversion Hsmall as [|? ? Hk Hl]; subst. inversion Hl as [|? ? Hv _]; subst.
  destruct (mutate_ready 0 (env_now env 0) (MutCreate k v) st Hready (conj Hk Hv) eq_refl)
    as (st' & b & reply & H1 & H2 & H3 & H4 & H5).
  rewrite argument_1, argument_2. cbn [mutate] in H1.
  destruct (RadishDB.Create _ _ _ _ _) as [st1 r].
  injection H1 as -> Hr. destruct r; [|done|done].
  rewrite create_call_now in H4. exists st', (SimpleString (str "OK")), false, (m_version s).
  rewrite set_version_id. split_and!; [done| |done|done].
  apply (f_equal snd) in H4. simpl in H4. rewrite <- H4. by apply Protocol.answer_set.
Qed.

Lemma handle_delete : Protocol.is_command c "DEL" -> answers s st (c :: args) (HandleDelete env command name s st).
Proof.
  intros Hc. unfold HandleDelete. check_arity "DEL"%string. cbn [tail arguments].
  destruct (delete_keys_all 0 args 0 st Hready Hsmall) as (st' & -> & H1 & H2 & H3).
  exists st', (Integer (Protocol.delete_all args (abs (m_store st.1))).1), false, (m_version s).
  rewrite set_version_id. split_and!; [done| |done|done]. rewrite H1.
  apply Protocol.answer_del; [done|]. intros ->. done.
Qed.

(** A rename, of a key to itself or to another, on a disk that works. *)
Lemma rename_ready now k k' :
  zlen k <= kMaxBulkLength -> zlen k' <= kMaxBulkLength ->
  let s' := RadishStore.Rename now (m_store st.1) k k' in
  exists disk, RadishDB.Rename (env_io env 0) now k k' st =
    (if s'.1 then (MkRadishDB s'.2 (m_persistence st.1), disk) else st, Ok s'.1).
Proof.
  intros Hk Hk'. cbn zeta.
  destruct (commit_succeeds (env_io env 0) now (rename_event k k') st) as (disk & Hd & _).
  - apply (event_of_wf now (m_store st.1) (MutRename k k')). exact I.
  - destruct Hready as [Hr|Hr]; [by left|right]. split; [apply Hr|].
    by apply (small_mutation_storable now (m_store st.1) (MutRename k k')).
  - exists disk. change (call_of (rename_event k k')) with (@CallRename bytes k k') in Hd.
    cbn [store_call] in Hd. destruct (RadishStore.Rename now (m_store st.1) k k') as [b s'].
    exact Hd.
Qed.

Lemma handle_rename :
  Protocol.is_command c "RENAME" -> answers s st (c :: args) (HandleRename env command name s st).
Proof.
  intros Hc. unfold HandleRename. check_arity "RENAME"%string.
  apply (length_args 2), (zlen_succ _ 1) in E as (k & l & -> & E); [|lia].
  apply (zlen_succ _ 0) in E as (k' & l' & -> & ->%zlen_zero); [|lia].
  inversion Hsmall as [|? ? Hk Hl]; subst. inversion Hl as [|? ? Hk' _]; subst.
  rewrite argument_1, argument_2.
  destruct (rename_ready (env_now env 0) k k' Hk Hk') as [disk ->].
  pose proof (rename_ttl (env_now env 0) (m_store st.1) k k') as Ht.
  eexists _, _, false, (m_version s). rewrite set_version_id. split; [reflexivity|].
  destruct (decide (k = k')) as [<-|Hne].
  - destruct (rename_self_abs (env_now env 0) (m_store st.1) k) as [H1 H2].
    destruct (RadishStore.Rename _ _ _ _) as [b s']. simpl in H1, H2, Ht.
    destruct b; split_and!; try done.
    + simpl. rewrite H2. apply Protocol.answer_rename_self; [done|].
      by apply eq_sym, bool_decide_eq_true_1 in H1.
    + apply Protocol.answer_rename_missing; [done|].
      apply eq_sym, bool_decide_eq_false_1 in H1. by apply dead_not_moved.
  - destruct (rename_abs (env_now env 0) (m_store st.1) k k' Hne) as [H1 H2].
    destruct (RadishStore.Rename _ _ _ _) as [b s']. simpl in H1, H2, Ht.
    destruct (Spec.move (env_now env 0) k k' (abs (m_store st.1))) as [b' m'] eqn:Em.
    simpl in H1, H2. subst b' m'. destruct b; split_and!; try done.
    + by apply (Protocol.answer_rename _ _ _ _ c k k').
    + apply Protocol.answer_rename_missing; [done|]. apply dead_not_moved.
      by eapply not_moved_dead.
Qed.

Lemma handle_exists : Protocol.is_command c "EXISTS" -> answers s st (c :: args) (HandleExists env command name s st).
Proof.
  intros Hc. unfold HandleExists. check_arity "EXISTS"%string. cbn [tail arguments].
  rewrite count_existing_alive. apply answers_same. apply Protocol.answer_exists; [done|].
  intros ->. done.
Qed.

Lemma scan_live :
  Protocol.live_keys (env_scan env) (abs (m_store st.1))
    (RadishDB.Scan (env_scan env) (iteration env st) st.1).
Proof.
  unfold RadishDB.Scan, iteration. split.
  - rewrite scan_eq. apply NoDup_filter. eapply bucket_order_NoDup. apply Hiter.
  - intros k. rewrite elem_of_scan by apply Hiter. by rewrite get_abs.
Qed.

Lemma handle_keys : Protocol.is_command c "KEYS" -> answers s st (c :: args) (HandleKeys env command name s st).
Proof.
  intros Hc. unfold HandleKeys. check_arity "KEYS"%string.
  apply (length_args 1), (zlen_succ _ 0) in E as (k & l & -> & ->%zlen_zero); [|lia].
  rewrite argument_1. cbn [rbind]. destruct (bool_decide _) eqn:Ek; apply answers_same.
  - apply bool_decide_eq_true in Ek. by apply Protocol.answer_keys_pattern.
  - apply bool_decide_eq_false, dec_stable in Ek as ->. apply Protocol.answer_keys; [done|].
    apply scan_live.
Qed.

Lemma handle_dbsize :
  Protocol.is_command c "DBSIZE" -> answers s st (c :: args) (HandleDatabaseSize env command name s st).
Proof.
  intros Hc. unfold HandleDatabaseSize. check_arity "DBSIZE"%string.
  apply (length_args 0), zlen_zero in E as ->. apply answers_same.
  unfold RadishDB.Size. rewrite size_scan. apply Protocol.answer_dbsize; [done|]. apply scan_live.
Qed.

Lemma handle_flushdb :
  Protocol.is_command c "FLUSHDB" -> answers s st (c :: args) (HandleFlushDatabase env command name s st).
Proof.
  intros Hc. unfold HandleFlushDatabase. check_arity "FLUSHDB"%string.
  apply (length_args 0), zlen_zero in E as ->.
  destruct (mutate_ready 0 (env_now env 0) MutClear st Hready I eq_refl)
    as (st' & b & reply & H1 & H2 & H3 & H4 & H5).
  cbn [mutate] in H1. cbn [spec_call mutation_call] in H4. rewrite H1. injection H4 as <- Habs.
  exists st', (SimpleString (str "OK")), false, (m_version s). rewrite set_version_id.
  split_and!; [done| |done|done]. rewrite <- Habs. by apply Protocol.answer_flushdb.
Qed.

Lemma handle_quit : Protocol.is_command c "QUIT" -> answers s st (c :: args) (HandleQuit command name s st).
Proof.
  intros Hc. unfold HandleQuit. check_arity "QUIT"%string.
  apply (length_args 0), zlen_zero in E as ->. apply answers_same. by apply Protocol.answer_quit.
Qed.

End contract.

Lemma dispatch_answers env c args s st :
  ready env st -> Forall (fun a => zlen a <= kMaxBulkLength) args ->
  (forall m, env_order env m ≡ₚ map_to_list m) ->
  answers env s st (c :: args) (Dispatch env (MkCommand (c :: args)) s st).
Proof.
  intros Hr Hs Hi. unfold Dispatch. cbn [arguments].
  destruct (CommandHandlers env !! Uppercase c) as [h|] eqn:E.
  - apply elem_of_list_to_map_2 in E.
    repeat (apply elem_of_cons in E as [[= Hc ->]|E]); [..|by apply not_elem_of_nil in E].
    + by apply handle_hello.
    + by apply handle_ping.
    + by apply handle_get.
    + by apply handle_set.
    + by apply handle_delete.
    + by apply handle_rename.
    + by apply handle_exists.
    + by apply handle_keys.
    + by apply handle_dbsize.
    + by apply handle_flushdb.
    + by apply handle_quit.
  - apply answers_same. apply Protocol.answer_unknown. intros name Hn Hc.
    unfold Protocol.is_command in Hc. rewrite Hc in E.
    apply not_elem_of_list_to_map_2 in E. apply E.
    exact (list_elem_of_fmap_2 str Protocol.commands name Hn).
Qed.

(** *** Many requests *)

(** What is left of the input once a request is taken from it. *)
Lemma request_rest input args rest :
  Grammar.request input = Grammar.Done args rest -> zdrop (zlen input - zlen rest) input = rest.
Proof.
  intros Eg. destruct (request_done _ _ _ Eg) as (_ & f & -> & _). rewrite zlen_app.
  replace (zlen f + zlen rest - zlen rest) with (zlen f) by lia. apply zdrop_app.
Qed.

Definition world_ready (w : World) : Prop :=
  (m_persistence (database w).1 = None \/ forall i j, env_io (surroundings w i) j = io_ok)
  /\ forall i m, env_order (surroundings w i) m ≡ₚ map_to_list m.

Lemma world_ready_next w st' :
  world_ready w -> m_persistence st'.1 = m_persistence (database w).1 ->
  world_ready (MkWorld st' (fun i => surroundings w (S i))).
Proof.
  intros [Hr Hi] Hp. split; simpl; [|intros; apply Hi].
  destruct Hr as [Hr|Hr]; [left; by rewrite Hp | right; intros; apply Hr].
Qed.

Lemma world_ready_env w : world_ready w -> ready (surroundings w 0) (database w).
Proof. intros [[Hr|Hr] _]; [by left | right; intros; apply Hr]. Qed.

(** A request the server answers without closing the connection. *)
Definition plain_request (args : list bytes) : Prop :=
  valid_command args /\ ~ Protocol.quitting args.

Lemma valid_command_cons args :
  valid_command args ->
  exists c l, args = c :: l /\ Forall (fun a => zlen a <= kMaxBulkLength) l.
Proof.
  intros [Hl Hf]. destruct args as [|c l]; [zlen_solve|]. exists c, l. by inversion Hf.
Qed.

Lemma answer_open env ttl version m args reply close version' m' :
  Protocol.answer env ttl version m args reply close version' m' ->
  ~ Protocol.quitting args -> close = false.
Proof. intros H Hq. destruct H; try done. destruct Hq. by exists c. Qed.

Lemma serve_answers w s args :
  world_ready w -> valid_command args ->
  exists w' reply close version',
    serve (MkCommand args) s w = (set_version version' s, w', Ok (reply, close))
    /\ Protocol.answer (surroundings w 0) (m_ttl (m_store (database w).1)) (m_version s)
         (abs (m_store (database w).1)) args reply close version' (abs (m_store (database w').1))
    /\ surroundings w' = (fun i => surroundings w (S i))
    /\ m_ttl (m_store (database w').1) = m_ttl (m_store (database w).1)
    /\ world_ready w'.
Proof.
  intros Hw Hv. destruct (valid_command_cons _ Hv) as (c & l & -> & Hl).
  destruct (dispatch_answers (surroundings w 0) c l s (database w) (world_ready_env w Hw) Hl
    (proj2 Hw O)) as (st' & reply & close & v & Hd & Ha & Hp & Ht).
  unfold serve. rewrite Hd. eexists _, reply, close, v. split; [reflexivity|]. split_and!; try done.
  by apply world_ready_next.
Qed.

Lemma serve_plain w s args :
  world_ready w -> plain_request args ->
  exists w' reply version',
    serve (MkCommand args) s w = (set_version version' s, w', Ok (reply, false))
    /\ Protocol.answer (surroundings w 0) (m_ttl (m_store (database w).1)) (m_version s)
         (abs (m_store (database w).1)) args reply false version' (abs (m_store (database w').1))
    /\ surroundings w' = (fun i => surroundings w (S i))
    /\ m_ttl (m_store (database w').1) = m_ttl (m_store (database w).1)
    /\ world_ready w'.
Proof.
  intros Hw (Hv & Hq).
  destruct (serve_answers w s args Hw Hv) as (w' & reply & close & v & H1 & H2 & H3).
  pose proof (answer_open _ _ _ _ _ _ _ _ _ H2 Hq) as ->. by exists w', reply, v.
Qed.

Lemma process_requests requests rest s w :
  Forall plain_request requests -> ParseCommand rest = Ok incomplete_result ->
  m_input s = concat (map EncodeCommand requests) ++ rest -> m_closeAfterWrite s = false ->
  world_ready w ->
  exists s' w' replies,
    Process s w = (s', w', Ok tt)
    /\ m_input s' = rest /\ m_closeAfterWrite s' = false
    /\ m_output s' = m_output s ++ replies /\ sent s' = sent s
    /\ Protocol.conversation (m_ttl (m_store (database w).1)) (surroundings w) (m_version s)
         (abs (m_store (database w).1)) requests replies (m_version s')
         (abs (m_store (database w').1))
    /\ world_ready w' /\ m_ttl (m_store (database w').1) = m_ttl (m_store (database w).1).
Proof.
  intros Hr Hrest. revert s w. induction Hr as [|args requests Ha _ IH]; intros s w Hin Hc Hw.
  - exists s, w, []. split_and!; try done; [|by rewrite app_nil_r|constructor].
    rewrite process_unfold, Hin. simpl. rewrite Hrest. by destruct (_ || _).
  - simpl in Hin. rewrite <- app_assoc in Hin.
    set (s0 := set_input (concat (map EncodeCommand requests) ++ rest) s).
    destruct (serve_plain w s0 args Hw Ha) as (w1 & reply & v & Hserve & Hans & Henv & Ht & Hw1).
    destruct (IH (MkSession (concat (map EncodeCommand requests) ++ rest) (m_output s ++ [reply]) v
      (m_closeAfterWrite s || false) (reading s)
      (if decide (m_output s = []) then writing s ++ [reply] else writing s) (sent s) (is_open s)) w1
      eq_refl) as (s' & w' & replies & Hp & H1 & H2 & H3 & H4 & H5 & H6 & H7);
      [by rewrite Hc|done|].
    exists s', w', (reply :: replies). split_and!; [|done|done| |done| |done|congruence].
    + rewrite process_unfold, Hin, Hc.
      rewrite bool_decide_eq_false_2.
      2: { rewrite encode_command_eq. by intros. }
      cbn [orb]. rewrite parse_encode by apply Ha. cbn [status command consumed].
      rewrite zdrop_app. fold s0. rewrite Hserve, queue_eq. exact Hp.
    + rewrite H3. simpl. by rewrite <- app_assoc.
    + econstructor; [exact Hans|]. rewrite Ht, Henv in H5. exact H5.
Qed.

Lemma on_read_requests requests rest s w :
  Forall plain_request requests -> ParseCommand rest = Ok incomplete_result ->
  zlen (concat (map EncodeCommand requests) ++ rest) <= kMaxBufferedInput ->
  m_input s = [] -> m_closeAfterWrite s = false -> world_ready w ->
  exists s' w' replies,
    on_read (concat (map EncodeCommand requests) ++ rest) s w = (s', w', Ok tt)
    /\ Protocol.conversation (m_ttl (m_store (database w).1)) (surroundings w) (m_version s)
         (abs (m_store (database w).1)) requests replies (m_version s')
         (abs (m_store (database w').1))
    /\ transcript s' = transcript s ++ concat replies
    /\ m_input s' = rest /\ reading s' = true
    /\ m_closeAfterWrite s' = false /\ world_ready w'
    /\ m_ttl (m_store (database w').1) = m_ttl (m_store (database w).1).
Proof.
  intros Hr Hrest Hl Hin Hc Hw. set (data := concat (map EncodeCommand requests) ++ rest) in *.
  destruct (process_requests requests rest (set_input data (set_reading false s)) w Hr Hrest
    eq_refl Hc Hw) as (s' & w' & replies & Hp & H1 & H2 & H3 & H4 & H5 & H6 & H7).
  exists (Read s'), w', replies. unfold on_read. cbn [set_reading m_input]. rewrite Hin. cbn [app].
  cbn [set_input m_input]. rewrite (proj2 (Z.ltb_ge _ _)) by done.
  fold (set_input data (set_reading false s)). rewrite Hp, H2. cbn [negb].
  split_and!; [done|exact H5| |exact H1|done|exact H2|exact H6|exact H7].
  unfold transcript. cbn [Read set_reading sent m_output] in *.
  rewrite H3, H4. cbn [set_input set_reading sent m_output]. by rewrite concat_app, app_assoc.
Qed.

(** The loop never fails in a world that is ready, and stops only when the
    connection is closing or no whole request is left. *)
Lemma process_total s w :
  world_ready w ->
  exists s' w', Process s w = (s', w', Ok tt)
    /\ (m_closeAfterWrite s' = true \/ ParseCommand (m_input s') = Ok incomplete_result).
Proof.
  remember (length (m_input s)) as n eqn:En. revert s w En.
  induction (lt_wf n) as [n _ IH]. intros s w En Hw. rewrite process_unfold.
  destruct (bool_decide (m_input s = [])) eqn:Ei.
  { apply bool_decide_eq_true in Ei. exists s, w. split; [done|right]. by rewrite Ei. }
  destruct (m_closeAfterWrite s) eqn:Ec; cbn [orb]; [by exists s, w; auto|].
  rewrite parse_command_eq.
  destruct (Grammar.request (m_input s)) as [args rest| |msg] eqn:Eg; cbn [request_result status].
  - destruct (request_done _ _ _ Eg) as (Hv & f & Ef & Hf).
    destruct (serve_answers w (set_input (zdrop (zlen (m_input s) - zlen rest) (m_input s)) s) args
      Hw Hv) as (w1 & response & close & v & Hd & _ & _ & _ & Hw1).
    cbn [command consumed]. rewrite Hd, queue_eq. eapply (IH _); [|reflexivity|done].
    rewrite request_rest with (args := args) by done. subst n. rewrite Ef.
    unfold zlen in Hf. simpl. rewrite length_app. lia.
  - exists s, w. split; [done|right]. by rewrite parse_command_eq, Eg.
  - rewrite queue_eq. eexists _, w. split; [reflexivity|]. left. simpl. by rewrite orb_true_r.
Qed.

(** ** Properties *)


(** C16: requests sent together are executed one after the other, in their
    order, and answered in that order: the handler of the read queues exactly
    their replies, keeps what follows them for the next read, and reads on. *)
Theorem pipelined_requests_answered_in_order requests rest s w :
  Forall plain_request requests -> ParseCommand rest = Ok incomplete_result ->
  zlen (concat (map EncodeCommand requests) ++ rest) <= kMaxBufferedInput ->
  m_input s = [] -> m_closeAfterWrite s = false -> world_ready w ->
  exists s' w' replies,
    on_read (concat (map EncodeCommand requests) ++ rest) s w = (s', w', Ok tt)
    /\ Protocol.conversation (m_ttl (m_store (database w).1)) (surroundings w) (m_version s)
         (abs (m_store (database w).1)) requests replies (m_version s')
         (abs (m_store (database w').1))
    /\ transcript s' = transcript s ++ concat replies
    /\ m_input s' = rest /\ reading s' = true.
Proof.
  intros Hr Hrest Hl Hin Hc Hw.
  destruct (on_read_requests requests rest s w Hr Hrest Hl Hin Hc Hw)
    as (s' & w' & replies & H1 & H2 & H3 & H4 & H5 & _). by exists s', w', replies.
Qed.

(** C18: how the stream of requests is cut into reads does not matter: after
    two reads the connection and the database are exactly as after one read of
    both parts, as long as the parts together fit the input buffer. *)
Theorem chunking_is_irrelevant s w d1 d2 s1 w1 :
  reading s = true -> session_inv s ->
  on_read d1 s w = (s1, w1, Ok tt) -> reading s1 = true ->
  zlen (m_input s ++ d1 ++ d2) <= kMaxBufferedInput ->
  on_read d2 s1 w1 = on_read (d1 ++ d2) s w.
Proof.
  intros Hr Hs H1 Hr1 Hl. rewrite !zlen_app in Hl.
  pose proof (zlen_nonneg d2). pose proof (zlen_nonneg d1).
  destruct (on_read_handling _ _ _ _ _ _ Hs Hr H1) as (s2 & Hh & [[-> _]|(-> & Hc & Hl1)]).
  { destruct Hh. congruence. }
  pose proof (handling_input _ _ Hh) as Hi. cbn [set_input set_reading m_input] in Hi, Hl1.
  rewrite zlen_app in Hi. pose proof (handling_reading _ _ Hh) as Hr2.
  unfold on_read in H1. cbn [set_input set_reading m_input] in H1.
  rewrite (proj2 (Z.ltb_ge _ _)) in H1 by done.
  destruct (Process _ w) as [[s3 w3] [[]| |]] eqn:Ep; [|done|done].
  assert (s3 = s2 /\ w3 = w1) as [-> ->].
  { injection H1 as Hs3 ->. split; [|done]. pose proof (process_reading _ _ _ _ _ Ep) as Hr3.
    destruct s2, s3. unfold Read, set_reading in *. simpl in *.
    destruct (negb _); simpl in *; congruence. }
  pose proof (process_chunk _ _ _ _ d2 Ep Hc) as Hp.
  assert (E : set_reading false (Read s2) = s2) by (destruct s2; simpl in *; by subst).
  unfold on_read. rewrite E. cbn [set_input set_reading m_input] in Hp |- *.
  rewrite !(proj2 (Z.ltb_ge kMaxBufferedInput _)) by (rewrite !zlen_app; lia).
  rewrite (app_assoc (m_input s)). by rewrite Hp.
Qed.

(** C30: in every reachable state of a connection no write is under way, or
    exactly one, of the reply at the front of the queue; the input never exceeds the
    limit by more than one read and is within it while the server reads;
    nothing is read once the connection is closing; and when the socket has
    been closed every reply queued before had been sent. *)
Theorem connection_invariant s w :
  reachable_session (s, w) ->
  (writing s = [] \/ exists response, writing s = [response] /\ head (m_output s) = Some response)
  /\ zlen (m_input s) <= kMaxBufferedInput + kReadBuffer
  /\ (reading s = true -> m_closeAfterWrite s = false /\ zlen (m_input s) <= kMaxBufferedInput)
  /\ (is_open s = false -> sent s = transcript s /\ m_closeAfterWrite s = true /\ reading s = false).
Proof.
  intros [Hw Hr Hi Hc]%reachable_session_inv. split_and!; try done.
  - destruct Hw as [Hw|Hw]; [by left|]. destruct (m_output s) as [|front rest]; [by left|].
    right. by exists front.
  - intros Ho. destruct (Hc Ho) as (Hout & ? & ?). split_and!; try done.
    unfold transcript. by rewrite Hout, app_nil_r.
Qed.

(** Replies are sent in the order they were queued, without loss or
    change: every step of a connection leaves what was sent and queued so far
    in place and can only add to its end, and only a completed write sends,
    exactly the reply it was started with. *)
Theorem replies_sent_in_order s w s' w' :
  reachable_session (s, w) -> step (s, w) (s', w') ->
  transcript s `prefix_of` transcript s'
  /\ (sent s' = sent s
      \/ exists response, response ∈ writing s /\ sent s' = sent s ++ response
         /\ transcript s' = transcript s).
Proof.
  intros Hs%reachable_session_inv Hstep. inversion Hstep; subst.
  - match goal with H : on_read _ _ _ = _ |- _ =>
      destruct (on_read_handling _ _ _ _ _ _ Hs ltac:(done) H) as (s1 & Hh & Hd) end.
    destruct Hh as [_ _ _ Hsent (new & Ho) _].
    assert (transcript s' = transcript s1 /\ sent s' = sent s1) as [-> ->]
      by (destruct Hd as [[-> _]|[-> _]]; done).
    split; [|by left]. unfold transcript. rewrite Hsent, Ho, concat_app, app_assoc.
    by apply prefix_app_r.
  - split; [done|by left].
  - match goal with H : on_write _ _ = _ |- _ =>
      destruct (session_inv_on_write _ _ _ Hs ltac:(done) H) as (_ & Ht & Hsent) end.
    rewrite Ht. split; [done|]. right. eexists. by split_and!.
  - unfold transcript. simpl. rewrite app_nil_r. split; [done|by left].
  - split; [done|by left].
Qed.

(** C32: whatever a client sends, on a disk that works (or without a log) the
    handler of the read returns, throws nothing and leaves no whole request
    unanswered: afterwards the connection is closing, or what is left of the
    input is not yet a request. *)
Theorem read_handler_is_total data s w :
  world_ready w ->
  exists s' w', on_read data s w = (s', w', Ok tt)
    /\ (m_closeAfterWrite s' = true
        \/ ParseCommand (m_input s') = Ok incomplete_result /\ reading s' = true).
Proof.
  intros Hw. unfold on_read. destruct (_ <? _).
  - rewrite queue_eq. eexists _, w. split; [reflexivity|]. left. simpl. by rewrite orb_true_r.
  - destruct (process_total (set_input (m_input (set_reading false s) ++ data) (set_reading false s)) w Hw)
      as (s' & w' & -> & H).
    eexists _, w'. split; [reflexivity|].
    destruct (m_closeAfterWrite s') eqn:Ec; cbn [negb]; [by left|].
    right. destruct H as [|H]; [done|]. by split.
Qed.

(** ** Witnesses *)

Definition env_example : Env :=
  MkEnv (fun _ => io_ok) (fun _ => 5) (fun _ => 5) (fun m => map_to_list m).

Definition world_example : World := MkWorld example_db (fun _ => env_example).

Definition get_a : list bytes := [str "get"; str "a"].

Lemma world_example_ready : world_ready world_example.
Proof. split; [right; intros; reflexivity | intros; reflexivity]. Qed.

Lemma get_a_plain : plain_request get_a.
Proof.
  split.
  - split; [split; vm_compute; discriminate|].
    repeat (apply Forall_cons; split; [vm_compute; discriminate|]). by apply Forall_nil.
  - intros (c & E & _). discriminate E.
Qed.


Lemma pipelined_requests_answered_in_order_witness :
  exists s' w' replies,
    on_read (EncodeCommand get_a ++ EncodeCommand get_a ++ str "*1") (StartSession NewSession)
      world_example = (s', w', Ok tt)
    /\ transcript s' = concat replies /\ m_input s' = str "*1".
Proof.
  destruct (pipelined_requests_answered_in_order [get_a; get_a] (str "*1")
    (StartSession NewSession) world_example) as (s' & w' & replies & H1 & _ & H2 & H3 & _).
  - repeat (apply Forall_cons; split; [exact get_a_plain|]). by apply Forall_nil.
  - reflexivity.
  - vm_compute. discriminate.
  - reflexivity.
  - reflexivity.
  - exact world_example_ready.
  - exists s', w', replies. split; [exact H1|]. split; [exact H2|exact H3].
Defined.

Lemma chunking_is_irrelevant_witness :
  let r := on_read (str "*2") (StartSession NewSession) world_example in
  on_read (zdrop 2 (EncodeCommand get_a)) r.1.1 r.1.2
  = on_read (str "*2" ++ zdrop 2 (EncodeCommand get_a)) (StartSession NewSession) world_example.
Proof.
  intros r.
  apply (chunking_is_irrelevant (StartSession NewSession) world_example (str "*2")
    (zdrop 2 (EncodeCommand get_a)) r.1.1 r.1.2).
  - reflexivity.
  - apply session_inv_start.
  - reflexivity.
  - reflexivity.
  - vm_compute. discriminate.
Defined.

Definition session_example : Session :=
  (on_read (EncodeCommand get_a) (StartSession NewSession) world_example).1.1.

Lemma session_example_step :
  step (StartSession NewSession, world_example)
    (session_example, (on_read (EncodeCommand get_a) (StartSession NewSession) world_example).1.2).
Proof.
  apply (step_read (EncodeCommand get_a)); [reflexivity|split; [reflexivity|discriminate]|].
  vm_compute. reflexivity.
Qed.

Lemma connection_invariant_witness :
  writing session_example = [BulkString (Some (str "1")) Resp2]
  /\ (writing session_example = [] \/ exists response, writing session_example = [response]
        /\ head (m_output session_example) = Some response).
Proof.
  split; [vm_compute; reflexivity|].
  apply (connection_invariant session_example _
    (session_step _ _ (session_start world_example) session_example_step)).
Defined.

Lemma replies_sent_in_order_witness :
  transcript (StartSession NewSession) `prefix_of` transcript session_example.
Proof.
  apply (replies_sent_in_order _ _ _ _ (session_start world_example) session_example_step).
Defined.

Lemma read_handler_is_total_witness :
  exists s' w', on_read (str "hello") (StartSession NewSession) world_example = (s', w', Ok tt).
Proof.
  destruct (read_handler_is_total (str "hello") (StartSession NewSession) world_example
    world_example_ready) as (s' & w' & H & _).
  exists s', w'. exact H.
Defined.
