(* ===== verification/Listener.v ===== *)
(** include/network/TcpServer.h and the class [TcpServer] of
    src/network/TcpServer.cpp: the listening socket, from the constructor to
    [Stop].

    Asio's acceptor is a library; the operating system behind it is the record
    [Host]: what it makes of an address, whether each call on the socket
    succeeds, and the port it binds. Without an [error_code] argument a call
    that fails throws [system_error]. *)

From S2P Require Import Prelude TcpServer.

Record Endpoint := MkEndpoint { address : bytes; endpoint_port : Z }.

Record Host := MkHost {
  make_address : bytes -> option bytes;     (* the address a text means *)
  host_open : bool;
  host_reuse_address : bool;
  host_bind : Endpoint -> option Z;         (* the port, chosen by the host for port 0 *)
  host_listen : bool;
}.

(** The members of [TcpServer]: the acceptor is open at [m_acceptor], when it
    is, and [accepting] tells whether an [async_accept] is under way;
    [sessions] counts the connections it has started. *)
Record Server := MkServer {
  m_acceptor : option Endpoint;
  m_stopped : bool;
  accepting : bool;
  sessions : Z;
}.

Definition NewTcpServer (host : Host) (bindAddress : bytes) (port : Z) : result Server :=
  match make_address host bindAddress with
  | None => Throw (system_error (str "make_address"))
  | Some address =>
      let endpoint := MkEndpoint address port in
      throw! system_error (str "open") when negb (host_open host) in
      throw! system_error (str "set_option") when negb (host_reuse_address host) in
      match host_bind host endpoint with
      | None => Throw (system_error (str "bind"))
      | Some port =>
          throw! system_error (str "listen") when negb (host_listen host) in
          Ok (MkServer (Some (MkEndpoint address port)) false false 0)
      end
  end.

Definition Accept (s : Server) : Server :=
  if m_stopped s then s else MkServer (m_acceptor s) (m_stopped s) true (sessions s).

Definition Start (s : Server) : Server := Accept s.

(** How an accept ended: with an error, or with a connection, whose option
    [no_delay] is set when [no_delay] holds. *)
Inductive Accepted :=
  | accept_error
  | accept_socket (no_delay : bool).

(** [Session::Start] on the connection of an accept throws when the option can
    not be set; the exception leaves the handler. *)
Definition start_session (socket : Accepted) : result Z :=
  match socket with
  | accept_error => Ok 0
  | accept_socket no_delay =>
      throw! system_error (str "set_option") when negb no_delay in Ok 1
  end.

(** The handler of an accept that ended. *)
Definition on_accept (socket : Accepted) (s : Server) : Server * result unit :=
  let s := MkServer (m_acceptor s) (m_stopped s) false (sessions s) in
  match start_session socket with
  | Ok started =>
      let s := MkServer (m_acceptor s) (m_stopped s) (accepting s) (sessions s + started) in
      (if negb (m_stopped s) then Accept s else s, Ok tt)
  | Throw e => (s, Throw e)
  | Undefined => (s, Undefined)
  end.

(** Cancelling lets the accept under way end with an error; the errors of
    cancelling and closing are ignored. *)
Definition Stop (s : Server) : Server :=
  if m_stopped s then s else MkServer None true (accepting s) (sessions s).

(** The destructor. *)
Definition destroy (s : Server) : Server := Stop s.

(** [local_endpoint] of an acceptor that is closed throws. *)
Definition Port (s : Server) : result Z :=
  match m_acceptor s with
  | Some endpoint => Ok (endpoint_port endpoint)
  | None => Throw (system_error (str "local_endpoint"))
  end.

(** What can happen to the server until an exception leaves a handler. *)
Inductive server_step : Server -> Server -> Prop :=
  | step_accept socket s s' :
      accepting s = true -> on_accept socket s = (s', Ok tt) -> server_step s s'
  | step_stop s : server_step s (Stop s).

Inductive reachable_server (s0 : Server) : Server -> Prop :=
  | server_start : reachable_server s0 (Start s0)
  | server_next s s' : reachable_server s0 s -> server_step s s' -> reachable_server s0 s'.

(** ** Lemmas *)

Lemma new_server_inv host bind port s :
  NewTcpServer host bind port = Ok s ->
  exists a bound, make_address host bind = Some a /\ host_bind host (MkEndpoint a port) = Some bound
    /\ s = MkServer (Some (MkEndpoint a bound)) false false 0.
Proof.
  unfold NewTcpServer. destruct (make_address host bind) as [a|]; [|done]. intros Hs.
  apply throw_ok in Hs as [_ Hs]. apply throw_ok in Hs as [_ Hs].
  destruct (host_bind host _) as [bound|] eqn:Eb; [|done].
  apply throw_ok in Hs as [_ <-%Ok_inj]. by exists a, bound.
Qed.

(** The server accepts exactly while it is not stopped, on the endpoint it was
    made with. *)
Definition server_inv (e : Endpoint) (s : Server) : Prop :=
  0 <= sessions s
  /\ if m_stopped s then m_acceptor s = None else m_acceptor s = Some e /\ accepting s = true.

Lemma on_accept_inv e s socket s' r :
  server_inv e s -> accepting s = true -> on_accept socket s = (s', r) ->
  match r with
  | Ok _ => server_inv e s' /\ sessions s <= sessions s' <= sessions s + 1
            /\ m_stopped s' = m_stopped s /\ accepting s' = negb (m_stopped s)
  | Throw _ => socket = accept_socket false /\ accepting s' = false /\ sessions s' = sessions s
  | Undefined => False
  end.
Proof.
  destruct s as [a [] c n]; unfold server_inv, on_accept, Accept; simpl; intros [Hn Hs] -> Ha;
    destruct socket as [|[]]; simpl in Ha; injection Ha as <- <-; simpl; split_and!; tauto || lia.
Qed.

Lemma reachable_server_inv host bind port s0 s :
  NewTcpServer host bind port = Ok s0 -> reachable_server s0 s ->
  exists a bound, make_address host bind = Some a /\ host_bind host (MkEndpoint a port) = Some bound
    /\ server_inv (MkEndpoint a bound) s.
Proof.
  intros (a & bound & Ha & Hb & ->)%new_server_inv Hr. exists a, bound. split_and!; [done|done|].
  induction Hr as [|s s' _ IH Hs]; [done|]. destruct Hs as [socket s s' Hacc Ho|s].
  - by apply (on_accept_inv _ _ _ _ _ IH Hacc Ho).
  - destruct s as [e [] c n]; unfold server_inv, Stop in *; simpl in *; tauto.
Qed.

(** ** Properties *)

(** C26: a server that could be constructed listens on the address it was given,
    and on the port too unless the host chooses it, and has an accept under way
    whenever it is not stopped. Once it is stopped its port can not be asked
    any more, stopping or destroying it again changes nothing, no accept is
    started, and only the one that was under way can still bring a connection. *)
Theorem server_listens_until_stopped host bind port s0 s :
  NewTcpServer host bind port = Ok s0 -> reachable_server s0 s ->
  (m_stopped s = false ->
     accepting s = true
     /\ exists a bound, make_address host bind = Some a
        /\ host_bind host (MkEndpoint a port) = Some bound
        /\ m_acceptor s = Some (MkEndpoint a bound) /\ Port s = Ok bound)
  /\ (m_stopped s = true ->
        Port s = Throw (system_error (str "local_endpoint")) /\ Stop s = s /\ destroy s = s
        /\ forall s', server_step s s' ->
             m_stopped s' = true /\ (accepting s' = true -> s' = s)
             /\ sessions s <= sessions s' <= sessions s + (if accepting s then 1 else 0)).
Proof.
  intros Hn Hr. destruct (reachable_server_inv _ _ _ _ _ Hn Hr) as (a & bound & Ha & Hb & Hi).
  pose proof Hi as [H0 Hs]. split; intros E; rewrite E in Hs.
  - destruct Hs as [He Hacc]. split; [done|]. exists a, bound. unfold Port. by rewrite He.
  - unfold Port, destroy, Stop. rewrite Hs, E. split_and!; [done..|]. intros s' Hstep.
    destruct Hstep as [socket s s' Hacc Ho|s].
    + destruct (on_accept_inv _ _ _ _ _ Hi Hacc Ho) as (_ & Hle & Hst & Hac).
      rewrite Hacc, Hst, Hac, E. split_and!; [done|done|lia|lia].
    + unfold Stop. rewrite E. split_and!; [done|done|lia|destruct (accepting s); lia].
Qed.

(** A connection whose option can not be set stops the server: the exception
    leaves the event loop, and no accept is under way after it. *)
Theorem refused_option_ends_accepting s :
  exists s', on_accept (accept_socket false) s = (s', Throw (system_error (str "set_option")))
    /\ accepting s' = false /\ m_stopped s' = m_stopped s.
Proof. by eexists. Qed.

(** ** Witnesses *)

(** A host that binds every port and chooses 40000 for port 0. *)
Definition host_example : Host :=
  MkHost (fun text => Some text) true true
    (fun e => Some (if endpoint_port e =? 0 then 40000 else endpoint_port e)) true.

Lemma server_listens_until_stopped_witness :
  exists s, NewTcpServer host_example (str "127.0.0.1") 0 = Ok s
    /\ Port (Start s) = Ok 40000
    /\ Port (Stop (Start s)) = Throw (system_error (str "local_endpoint")).
Proof.
  eexists. split; [reflexivity|]. split.
  - destruct (server_listens_until_stopped host_example (str "127.0.0.1") 0 _ _ eq_refl
      (server_start _)) as [H _].
    destruct (H eq_refl) as (_ & a & bound & Ha & Hb & _ & ->). injection Hb as <-. reflexivity.
  - apply (server_listens_until_stopped host_example (str "127.0.0.1") 0 _ _ eq_refl
      (server_next _ _ _ (server_start _) (step_stop _))). reflexivity.
Defined.
