(* ===== verification/Service.v ===== *)
(** The server and its database together: what clients do keeps the database
    one that a restart restores, and every reply that is queued gets sent.

    No code is modelled here; the theorems compose the handlers of [TcpServer]
    with the histories of [RadishDB]. *)

From S2P Require Import Prelude Decimal Streams BinaryFile EventType RadishEvent LogReader.
From S2P Require Import RadishStore LogWriter PersistenceLog RadishDB RespCodec TcpServer.

(** ** Many clients

    The connections the server has accepted share the database. One step is one
    handler of one of them. The clients send what they like, except for the
    requests that are not [permitted], which a theorem may leave out. *)

Section clients.
Variable permitted : list bytes -> Prop.

Inductive client_step : Session * World -> Session * World -> Prop :=
  | client_read data s w s' w' :
      reading s = true -> 0 < zlen data <= kReadBuffer ->
      Forall permitted (requests (m_input s ++ data)) ->
      on_read data s w = (s', w', Ok tt) -> client_step (s, w) (s', w')
  | client_read_error s w : reading s = true -> client_step (s, w) (on_read_error s, w)
  | client_write response s w s' :
      response ∈ writing s -> on_write response s = Ok s' -> client_step (s, w) (s', w)
  | client_write_error response s w :
      response ∈ writing s -> client_step (s, w) (on_write_error response s, w).

Inductive service_step : gmap nat Session * World -> gmap nat Session * World -> Prop :=
  | service_accept i clients w :
      clients !! i = None ->
      service_step (clients, w) (<[i := StartSession NewSession]> clients, w)
  | service_client i s s' clients w w' :
      clients !! i = Some s -> client_step (s, w) (s', w') ->
      service_step (clients, w) (<[i := s']> clients, w').

(** The states of the server since it was started in the world [w0]. *)
Inductive reachable_service (w0 : World) : gmap nat Session * World -> Prop :=
  | service_start : reachable_service w0 (∅, w0)
  | service_next x y : reachable_service w0 x -> service_step x y -> reachable_service w0 y.

Lemma client_step_step x y : client_step x y -> step x y.
Proof.
  destruct 1; [by eapply step_read|by apply step_read_error|by eapply step_write
    |by eapply step_write_error].
Qed.

(** Each client runs as a connection of [TcpServer] does, for which the others
    are [step_others]. *)
Lemma service_clients w0 x :
  reachable_service w0 x -> forall i s, x.1 !! i = Some s -> reachable_session (s, x.2).
Proof.
  induction 1 as [|x y Hx IH Hstep]; [done|]. intros i s.
  inversion Hstep as [j clients w Hj|j t t' clients w w' Hj Ht]; subst; simpl in *.
  - rewrite lookup_insert_Some. intros [[_ <-]|[_ Hi]]; [apply session_start|by eapply IH].
  - rewrite lookup_insert_Some. intros [[_ <-]|[_ Hi]].
    + eapply session_step; [by eapply IH|by apply client_step_step].
    + eapply session_step; [by eapply IH|]. apply step_others.
Qed.

End clients.

(** ** The database under the commands

    An invariant of the database and of what the commands to come meet. It is
    kept by every command when it is kept by each mutation a permitted command
    makes, the [j]th call of a command, and by the end of a command. *)

Section database.
Context (permitted : list bytes -> Prop) (allowed : Mutation bytes -> Prop).
Context (Inv : (nat -> Env) -> nat -> RadishDB bytes * Disk -> Prop).
Implicit Types (st : RadishDB bytes * Disk) (s : Session) (w : World) (envs : nat -> Env).

Record kept_by_calls : Prop := {
  kept_call : forall envs j m st, Inv envs j st -> allowed m ->
    Inv envs (S j) (mutate (env_io (envs O) j) (env_now (envs O) j) m st).1;
  kept_next : forall envs j st, Inv envs j st -> Inv (fun i => envs (S i)) O st;
  kept_plain : forall m, is_rename m = false -> allowed m;
  kept_rename : forall c k k', permitted [c; k; k'] -> Protocol.is_command c "RENAME" ->
    allowed (MutRename k k');
}.
Context (Hkept : kept_by_calls).

(** After some number of its calls, the command leaves the invariant. *)
Abbreviation called envs st := (exists j, Inv envs j st).

Lemma called_create envs j k v st :
  Inv envs j st ->
  called envs (RadishDB.Create (V := bytes) (env_io (envs O) j) (env_now (envs O) j) k v st).1.
Proof.
  intros Hs. exists (S j).
  pose proof (kept_call Hkept envs j (MutCreate k v) st Hs (kept_plain Hkept (MutCreate k v) eq_refl)) as H.
  cbn [mutate] in H. by destruct (RadishDB.Create (V := bytes) _ _ k v st).
Qed.

Lemma called_delete_keys envs i keys n st :
  Inv envs i st -> called envs (delete_keys (envs O) i keys n st).1.
Proof.
  revert i n st. induction keys as [|k keys IH]; intros i n st Hs; [by exists i|].
  cbn [delete_keys].
  pose proof (kept_call Hkept envs i (MutDelete k) st Hs (kept_plain Hkept (MutDelete k) eq_refl)) as H.
  cbn [mutate] in H.
  destruct (RadishDB.Delete (V := bytes) _ _ k st) as [st' [b| |]]; [by apply IH|by eexists..].
Qed.

Lemma called_handler envs name handler c args n s st :
  Inv envs O st -> permitted (c :: args) -> name = Uppercase c ->
  CommandHandlers (envs O) !! name = Some handler ->
  called envs (handler (MkCommand (c :: args)) n s st).1.2.
Proof.
  intros Hs Hp Hn E%elem_of_list_to_map_2.
  assert (H0 : called envs st) by by exists O.
  repeat (apply elem_of_cons in E as [[= -> ->]|E]); [..|by apply not_elem_of_nil in E].
  - unfold HandleHello, pure. by repeat case_match.
  - done.
  - done.
  - unfold HandleSet, pure. destruct (negb _); [done|].
    destruct (TcpServer.argument _ 1) as [k| |]; [|done|done].
    destruct (TcpServer.argument _ 2) as [v| |]; [|done|done].
    pose proof (called_create envs O k v st Hs). by destruct (RadishDB.Create (V := bytes) _ _ _ _ _).
  - unfold HandleDelete, pure. destruct (_ <? 2); [done|].
    pose proof (called_delete_keys envs 0 (tail (c :: args)) 0 st Hs).
    cbn [arguments]. by destruct (delete_keys _ _ _ _ _).
  - unfold HandleRename, pure. destruct (negb _) eqn:Ea; [done|].
    unfold arity in Ea. cbn [arguments] in Ea. zify_bool.
    rewrite zlen_cons in Ea.
    destruct (zlen_succ args 1) as (k & l & -> & El); [lia|lia|].
    apply (zlen_succ _ 0) in El as (k' & l' & -> & ->%zlen_zero); [|lia].
    rewrite argument_1, argument_2.
    pose proof (kept_call Hkept envs O (MutRename k k') st Hs (kept_rename Hkept c k k' Hp (eq_sym Hn))) as H.
    cbn [mutate] in H. destruct (RadishDB.Rename (V := bytes) _ _ _ _ _). by eexists.
  - done.
  - done.
  - done.
  - unfold HandleFlushDatabase, pure. destruct (negb _); [done|].
    pose proof (kept_call Hkept envs O MutClear st Hs (kept_plain Hkept MutClear eq_refl)) as H.
    cbn [mutate] in H. destruct (RadishDB.Clear (V := bytes) _ _ _). by eexists.
  - done.
Qed.

Lemma called_dispatch envs command s st :
  Inv envs O st -> permitted (arguments command) ->
  called envs (Dispatch (envs O) command s st).1.2.
Proof.
  intros Hs Hp. destruct command as [[|front args]]; [by exists O|]. unfold Dispatch. cbn [arguments].
  destruct (CommandHandlers (envs O) !! Uppercase front) as [h|] eqn:E; [|by exists O].
  by eapply called_handler.
Qed.

(** The invariant between two commands. *)
Definition served w : Prop := Inv (surroundings w) O (database w).

Lemma served_process s w s' w' r :
  served w -> Forall permitted (requests (m_input s)) ->
  Process s w = (s', w', r) -> served w'.
Proof.
  remember (length (m_input s)) as n eqn:En. revert s w En.
  induction (lt_wf n) as [n _ IH]. intros s w En Hw Hp. rewrite process_unfold.
  destruct (_ || _); [by intros [= <- <- <-]|]. rewrite parse_command_eq.
  destruct (Grammar.request (m_input s)) as [args rest| |msg] eqn:Eg; cbn [request_result status incomplete_result error_result];
    [|by intros [= <- <- <-]|rewrite queue_eq; by intros [= <- <- <-]].
  pose proof (requests_done _ _ _ Eg) as Er. rewrite Er in Hp. apply Forall_cons in Hp as [Ha Hp].
  assert (Hpc : ParseCommand (m_input s) = Ok (request_result (m_input s) (Grammar.request (m_input s))))
    by apply parse_command_eq.
  rewrite Eg in Hpc. pose proof (erase_shorter _ _ Hpc eq_refl) as Hl. cbn [consumed request_result] in Hl.
  unfold serve. cbn [command consumed]. rewrite (request_rest _ _ _ Eg) in *.
  destruct (called_dispatch (surroundings w) (MkCommand args) (set_input rest s) (database w) Hw Ha)
    as [j Hj].
  destruct (dispatch_framed (surroundings w 0) (MkCommand args) (m_version s) (database w))
    as (v & st1 & res & Hf).
  rewrite Hf in Hj |- * by done. apply (kept_next Hkept) in Hj.
  destruct res as [[response close]| |]; [|by intros [= <- <- <-]..].
  rewrite queue_eq. eapply (IH _); [|reflexivity|exact Hj|exact Hp]. simpl. lia.
Qed.

Lemma served_read data s w s' w' r :
  served w -> Forall permitted (requests (m_input s ++ data)) ->
  on_read data s w = (s', w', r) -> served w'.
Proof.
  intros Hs Hp. unfold on_read. destruct (_ <? _).
  { rewrite queue_eq. by intros [= <- <- <-]. }
  destruct (Process _ w) as [[s1 w1] r1] eqn:Ep. apply served_process in Ep; [|done|done].
  destruct r1; by intros [= <- <- <-].
Qed.

Lemma served_service w0 x : served w0 -> reachable_service permitted w0 x -> served x.2.
Proof.
  intros Hw. induction 1 as [|x y _ IH Hstep]; [done|].
  destruct Hstep as [|i s s' clients w w' _ Hc]; [exact IH|].
  inversion Hc; subst; [by eapply served_read|done..].
Qed.

End database.

(** The disk takes what every command to come writes. *)
Definition disk_works (w : World) : Prop := forall i j, env_io (surroundings w i) j = io_ok.

(** *** Any requests: the database is one that a restart restores *)

Lemma reachable_kept filename ttl :
  kept_by_calls (fun _ => True) (fun _ => True)
    (fun envs _ st => (forall i j, env_io (envs i) j = io_ok)
       /\ reachable (V := bytes) filename ttl (fun _ => True) st).
Proof.
  split; [|by intros envs j st [Hd Hs]|done|done]. intros envs j m st [Hd Hs] _. split; [done|].
  rewrite Hd. eapply reach_mutate; [exact Hs| |done|apply surjective_pairing]. by destruct m.
Qed.

(** ** The replies *)

Lemma on_write_next response s :
  session_inv s -> response ∈ writing s ->
  exists s', on_write response s = Ok s' /\ m_output s' = tail (m_output s)
    /\ writing s' = take 1 (tail (m_output s)) /\ m_closeAfterWrite s' = m_closeAfterWrite s
    /\ (is_open s' = false \/ (tail (m_output s) = [] -> m_closeAfterWrite s = false)).
Proof.
  intros Hs E. destruct (writing_front response s Hs E) as [Hw [rest Hout]].
  unfold on_write. rewrite Hw, ended_only.
  destruct s as [input output version close rd wr snt op]. simpl in *. subst output. simpl.
  destruct rest as [|next rest]; simpl.
  - destruct close; (eexists; split; [reflexivity|]); simpl; split_and!; try done; [by left|by right].
  - unfold Write. simpl. eexists. split; [reflexivity|]. split_and!; try done. by right.
Qed.

(** The steps of a connection of which no write fails, with the number of
    writes that completed. *)
Inductive run : nat -> Session * World -> Session * World -> Prop :=
  | run_refl x : run 0 x x
  | run_read data s w x n y :
      reading s = true -> 0 < zlen data <= kReadBuffer ->
      on_read data s w = (x, Ok tt) -> run n x y -> run n (s, w) y
  | run_read_error s w n y :
      reading s = true -> run n (on_read_error s, w) y -> run n (s, w) y
  | run_write response s w s' n y :
      response ∈ writing s -> on_write response s = Ok s' ->
      run n (s', w) y -> run (S n) (s, w) y
  | run_others s w w' n y : run n (s, w') y -> run n (s, w) y.

Lemma complete_writes_drain s w :
  session_inv s -> writing s = take 1 (m_output s) ->
  exists s', run (length (m_output s)) (s, w) (s', w) /\ m_output s' = [] /\ sent s' = transcript s
    /\ (m_output s <> [] -> m_closeAfterWrite s = true -> is_open s' = false).
Proof.
  remember (m_output s) as output eqn:E. revert s E.
  induction output as [|front rest IH]; intros s E Hs Hw.
  - exists s. split_and!; [constructor|done| |done]. unfold transcript. by rewrite <- E, app_nil_r.
  - assert (Hf : front ∈ writing s) by (rewrite Hw; apply list_elem_of_here).
    destruct (on_write_next front s Hs Hf) as (s1 & Ho & H1 & H2 & H3 & H4).
    destruct (session_inv_on_write front s s1 Hs Hf Ho) as (Hs1 & Ht & _).
    rewrite <- E in H1, H2, H4. simpl in H1, H2, H4.
    destruct rest as [|next rest].
    + exists s1. split_and!; [by eapply run_write; [..|constructor]|done| |].
      * rewrite <- Ht. unfold transcript. by rewrite H1, app_nil_r.
      * intros _ Hc. destruct H4 as [H4|H4]; [done|]. by rewrite H4 in Hc by done.
    + destruct (IH s1) as (s2 & Hr & Ho2 & Hsent & Hclose); [done|done|done|].
      exists s2. split_and!; [|done|by rewrite Hsent, Ht|].
      { eapply run_write; [exact Hf|exact Ho|exact Hr]. }
      intros _ Hc. apply Hclose; [done|by rewrite H3].
Qed.

(** A connection none of whose writes failed. *)
Definition sending (s : Session) : Prop := session_inv s /\ writing s = take 1 (m_output s).

Lemma queue_sending response close s s' :
  writing s = take 1 (m_output s) -> Queue response close s = Ok s' ->
  writing s' = take 1 (m_output s').
Proof.
  intros Hw. rewrite queue_eq. intros [= <-]. simpl. rewrite Hw. case_decide as E; [by rewrite E|]. by destruct (m_output s).
Qed.

Lemma on_read_sending data s w s' w' r :
  sending s -> reading s = true -> zlen data <= kReadBuffer ->
  on_read data s w = (s', w', r) ->
  sending s' /\ sent s' = sent s /\ exists new, m_output s' = m_output s ++ new.
Proof.
  intros [Hs Hw] Hr Hd He.
  assert (Hw' : writing s' = take 1 (m_output s')).
  { unfold on_read in He. destruct (_ <? zlen _).
    - destruct (Queue _ _ _) as [s1| |] eqn:Eq; [|by rewrite queue_eq in Eq..].
      injection He as <- <- <-. by eapply queue_sending; [|exact Eq].
    - destruct (Process _ w) as [[s1 w1] r1] eqn:Ep.
      assert (H1 : writing s1 = take 1 (m_output s1)).
        { refine (process_inv (fun s => writing s = take 1 (m_output s)) _ _ _ _ _ _ _ _ Ep); [done| |done].
        intros s2 s3 response close. apply queue_sending. }
      destruct r1 as [[]| |]; injection He as <- <- <-; [|done|done].
      by destruct (m_closeAfterWrite s1). }
  destruct (on_read_handling _ _ _ _ _ _ Hs Hr He) as (s1 & Hh & Hd1).
  pose proof (session_inv_on_read _ _ _ _ _ _ Hs Hr Hd He) as Hs'.
  destruct Hh as [_ _ _ Hsent (new & Ho) _]. simpl in Ho, Hsent.
  split; [by split|]. destruct Hd1 as [[-> _]|[-> _]]; simpl; (split; [done|by exists new]).
Qed.

Lemma start_sending : sending (StartSession NewSession).
Proof. split; [apply session_inv_start|done]. Qed.

Lemma read_error_sending s : sending s -> sending (on_read_error s).
Proof.
  intros [[Hw Hr Hi Hc] Hn]. split; [|done]. split; simpl; try done. intros Ho.
  by destruct (Hc Ho) as (? & ? & _).
Qed.

Lemma on_write_sending response s s' :
  sending s -> response ∈ writing s -> on_write response s = Ok s' ->
  sending s' /\ sent s' = sent s ++ response /\ m_output s = response :: m_output s'.
Proof.
  intros [Hs Hw] E Ho. destruct (session_inv_on_write response s s' Hs E Ho) as (Hs' & _ & Hsent).
  destruct (on_write_next response s Hs E) as (s1 & Ho1 & H1 & H2 & _).
  rewrite Ho in Ho1. injection Ho1 as <-. split_and!; [split; [done|]|done|].
  - by rewrite H1.
  - rewrite H1. by destruct (writing_front response s Hs E) as [_ [rest ->]].
Qed.

(** While no write fails, the first [n] replies of the queue are sent by the
    next [n] writes that complete. *)
Lemma run_sends n x y :
  run n x y -> sending x.1 ->
  sending y.1
  /\ forall q rest, m_output x.1 = q ++ rest -> (length q <= n)%nat ->
     sent x.1 ++ concat q `prefix_of` sent y.1.
Proof.
  induction 1 as [x|data s w [s1 w1] n y Hr Hd He _ IH|s w n y Hr _ IH
    |response s w s1 n y Hw Ho _ IH|s w w' n y _ IH]; intros Hx; simpl in *.
  - split; [done|]. intros [|] rest _ Hq; [by rewrite app_nil_r|simpl in Hq; lia].
  - destruct (on_read_sending _ _ _ _ _ _ Hx Hr (proj2 Hd) He) as (H1 & Hsent & new & Hout).
    destruct (IH H1) as [Hy Hq]. split; [done|]. intros q rest E Hl. rewrite <- Hsent.
    apply (Hq q (rest ++ new)); [|done]. by rewrite Hout, E, app_assoc.
  - destruct (IH ltac:(by apply read_error_sending)) as [Hy Hq]. split; [done|]. exact Hq.
  - destruct (on_write_sending _ _ _ Hx Hw Ho) as (H1 & Hsent & Hout).
    destruct (IH H1) as [Hy Hq]. split; [done|]. intros q rest E Hl. rewrite Hout in E.
    destruct q as [|front q]; simpl in E.
    + rewrite app_nil_r. transitivity (sent s1); [rewrite Hsent; by apply prefix_app_r|].
      specialize (Hq [] _ eq_refl ltac:(simpl; lia)). by rewrite app_nil_r in Hq.
    + injection E as <- E. simpl. rewrite app_assoc, <- Hsent.
      apply (Hq q rest E). simpl in Hl. lia.
  - by apply IH.
Qed.

(** ** Properties *)

(** C10: the database has no time to live and the disk works. However many
    clients are connected and however their requests interleave, the server can
    stop after any handler and start again: the file of its database restores
    the database in memory; and each client has a connection with the guarantees of a
    single one, whose theorems allow for the others. *)
Theorem service_survives_restart filename w0 clients w now :
  reachable filename (-1) (fun _ => True) (database w0) -> disk_works w0 ->
  reachable_service (fun _ => True) w0 (clients, w) ->
  NewRadishDB_ttl io_ok now filename (-1) Flush (database w).2
    = ((database w).2, Ok (database w).1)
  /\ forall i s, clients !! i = Some s -> reachable_session (s, w).
Proof.
  intros Hdb Hd Hr. split; [|exact (service_clients _ _ _ Hr)].
  destruct (served_service _ _ _ (reachable_kept filename (-1)) w0 _ (conj Hd Hdb) Hr) as [_ Hs].
  destruct (reachable_inv _ _ _ _ Hs) as (nw & es & Hinv & Hes).
  eapply reopen; [exact Hinv|]. apply (allowed_clock (-1) (fun _ => True)); [by left|exact Hes].
Qed.

(** As long as no write fails, no reply is stuck: while one is queued a
    write is under way that can complete, after as many completed writes as
    replies were queued all of them have been sent, whatever else the
    connection did meanwhile, and when nothing else happens the queue is then
    empty and a connection that was to close with its replies is closed. *)
Theorem queued_replies_get_sent n0 w0 s w :
  run n0 (StartSession NewSession, w0) (s, w) ->
  (m_output s <> [] -> exists response s', response ∈ writing s /\ on_write response s = Ok s')
  /\ (forall n s' w', run n (s, w) (s', w') -> (length (m_output s) <= n)%nat ->
        transcript s `prefix_of` sent s')
  /\ exists s', run (length (m_output s)) (s, w) (s', w) /\ m_output s' = []
       /\ sent s' = transcript s
       /\ (m_output s <> [] -> m_closeAfterWrite s = true -> is_open s' = false).
Proof.
  intros H. destruct (run_sends _ _ _ H start_sending) as [Hs _]. simpl in Hs.
  split_and!.
  - intros Ho. destruct Hs as [Hi Hw]. destruct (m_output s) as [|front rest]; [done|].
    assert (Hf : front ∈ writing s) by (rewrite Hw; apply list_elem_of_here).
    destruct (on_write_next front s Hi Hf) as (s' & He & _). by exists front, s'.
  - intros n s' w' Hrun Hn. apply (proj2 (run_sends _ _ _ Hrun Hs) (m_output s) []); [|done].
    by rewrite app_nil_r.
  - by apply complete_writes_drain; destruct Hs.
Qed.

(** ** Witnesses *)

Definition after_read : World :=
  (on_read (EncodeCommand get_a) (StartSession NewSession) world_example).1.2.

Lemma session_example_read :
  on_read (EncodeCommand get_a) (StartSession NewSession) world_example
  = ((session_example, after_read), Ok tt).
Proof. vm_compute. reflexivity. Qed.

Lemma get_a_size : 0 < zlen (EncodeCommand get_a) <= kReadBuffer.
Proof. split; [reflexivity|discriminate]. Qed.

Lemma service_survives_restart_witness :
  NewRadishDB_ttl io_ok (fun _ => 0) (str "d") (-1) Flush (database after_read).2
    = ((database after_read).2, Ok (database after_read).1)
  /\ reachable_session (session_example, after_read).
Proof.
  assert (Hr : reachable_service (fun _ => True) world_example
    (<[0%nat := session_example]> (<[0%nat := StartSession NewSession]> ∅), after_read)).
  { eapply service_next; [eapply service_next; [apply service_start|]|].
    - apply service_accept. reflexivity.
    - apply (service_client _ 0 (StartSession NewSession)); [reflexivity|].
      exact (client_read _ _ (StartSession NewSession) _ _ _ eq_refl get_a_size
        (Forall_true _ _ (fun _ => I)) session_example_read). }
  destruct (service_survives_restart (str "d") world_example _ after_read (fun _ => 0)
    example_db_allowed (fun _ _ => eq_refl) Hr) as [H1 H2].
  split; [exact H1|]. apply (H2 0%nat). reflexivity.
Defined.

Lemma queued_replies_get_sent_witness :
  exists s', run 1 (session_example, after_read) (s', after_read)
    /\ sent s' = BulkString (Some (str "1")) Resp2.
Proof.
  assert (Hr : run 0 (StartSession NewSession, world_example) (session_example, after_read))
    by exact (run_read _ (StartSession NewSession) _ _ _ _ eq_refl get_a_size session_example_read (run_refl _)).
  destruct (queued_replies_get_sent 0 world_example session_example after_read Hr)
    as (_ & _ & s' & H1 & _ & H3 & _).
  exists s'. split; [exact H1|]. rewrite H3. vm_compute. reflexivity.
Defined.
