(* ===== verification/IdealService.v ===== *)
(** What the server promises to its clients together: an abstract service, in
    which each client has a stream of characters not yet read and a stream of
    replies, and every request is one atomic step on one shared map. The
    running server refines it.

    No code is modelled here. *)

From stdpp Require Import relations.
From S2P Require Import Prelude Decimal Streams BinaryFile EventType RadishEvent LogReader.
From S2P Require Import RadishStore LogWriter PersistenceLog RadishDB RespCodec TcpServer Service.
Open Scope Z_scope.

(** ** The abstract service *)

Record Client := MkClient {
  inbox : bytes;              (* received and not yet taken by a request *)
  spoken : RespVersion;
  replied : bytes;            (* every reply so far, in order *)
  closing : bool;             (* no request of this client is taken any more *)
}.

Definition new_client : Client := MkClient [] Resp2 [] false.

Record Ideal := MkIdeal {
  clients_of : gmap nat Client;
  map_of : gmap bytes (@Spec.entry bytes);
  moments : nat -> Env;       (* the surroundings of the requests to come *)
}.

Section ideal.
Variable ttl : Timestamp.

(** Why a client is turned away: what it sent can not become a request, or it
    sent too much at once. *)
Inductive turned_away (input : bytes) : bytes -> Prop :=
  | malformed message :
      Grammar.request input = Grammar.Bad message -> turned_away input message
  | flooded :
      kMaxBufferedInput < zlen input ->
      turned_away input (str "Protocol error: input buffer limit exceeded").

Inductive ideal_step : Ideal -> Ideal -> Prop :=
  | ideal_accept i clients m envs :
      clients !! i = None ->
      ideal_step (MkIdeal clients m envs) (MkIdeal (<[i := new_client]> clients) m envs)
  | ideal_receive i data input v out clients m envs :
      clients !! i = Some (MkClient input v out false) -> 0 < zlen data <= kReadBuffer ->
      ideal_step (MkIdeal clients m envs)
        (MkIdeal (<[i := MkClient (input ++ data) v out false]> clients) m envs)
  | ideal_request i args rest input v out reply close v' m' clients m envs :
      clients !! i = Some (MkClient input v out false) ->
      Grammar.request input = Grammar.Done args rest ->
      Protocol.answer (envs O) ttl v m args reply close v' m' ->
      ideal_step (MkIdeal clients m envs)
        (MkIdeal (<[i := MkClient rest v' (out ++ reply) close]> clients) m'
          (fun i => envs (S i)))
  | ideal_refuse i message input v out clients m envs :
      clients !! i = Some (MkClient input v out false) -> turned_away input message ->
      ideal_step (MkIdeal clients m envs)
        (MkIdeal (<[i := MkClient input v (out ++ Error message) true]> clients) m envs).

Abbreviation ideal_run := (rtc ideal_step).

(** ** The running server seen as the abstract one *)

Definition client_view (s : Session) : Client :=
  MkClient (m_input s) (m_version s) (transcript s) (m_closeAfterWrite s).

Definition service_view (x : gmap nat Session * World) : Ideal :=
  MkIdeal (client_view <$> x.1) (abs (m_store (database x.2).1)) (surroundings x.2).

Definition timed (w : World) : Prop := m_ttl (m_store (database w).1) = ttl.

(** Queueing a reply is replying. *)
Lemma queue_view response close s s' :
  Queue response close s = Ok s' ->
  client_view s' = MkClient (m_input s) (m_version s) (transcript s ++ response)
    (m_closeAfterWrite s || close).
Proof.
  rewrite queue_eq. intros [= <-]. unfold client_view, transcript. simpl.
  by rewrite concat_app, app_assoc; simpl; rewrite app_nil_r.
Qed.

(** The loop of [Process] is a run of requests of one client. *)
Lemma process_run i s w (clients : gmap nat Client) :
  world_ready w -> timed w -> clients !! i = Some (client_view s) ->
  exists s' w',
    Process s w = (s', w', Ok tt) /\ world_ready w' /\ timed w'
    /\ ideal_run (MkIdeal clients (abs (m_store (database w).1)) (surroundings w))
         (MkIdeal (<[i := client_view s']> clients) (abs (m_store (database w').1)) (surroundings w'))
    /\ (m_closeAfterWrite s' = true \/ Grammar.request (m_input s') = Grammar.More).
Proof.
  remember (length (m_input s)) as n eqn:En. revert s w clients En.
  induction (lt_wf n) as [n _ IH]. intros s w clients En Hw Ht Hi. rewrite process_unfold.
  assert (Hstay : ideal_run (MkIdeal clients (abs (m_store (database w).1)) (surroundings w))
    (MkIdeal (<[i := client_view s]> clients) (abs (m_store (database w).1)) (surroundings w)))
    by by rewrite insert_id.
  destruct (bool_decide (m_input s = [])) eqn:Ei.
  { apply bool_decide_eq_true in Ei. exists s, w. split_and!; [done..|right]. by rewrite Ei. }
  destruct (m_closeAfterWrite s) eqn:Ec; cbn [orb]; [by exists s, w; split_and!; auto|].
  assert (Hview : client_view s = MkClient (m_input s) (m_version s) (transcript s) false)
    by (unfold client_view; by rewrite Ec).
  rewrite Hview in Hi. rewrite parse_command_eq.
  destruct (Grammar.request (m_input s)) as [args rest| |msg] eqn:Eg; cbn [request_result status].
  - destruct (request_done _ _ _ Eg) as (Hv & f & Ef & Hf).
    cbn [command consumed]. rewrite (request_rest _ _ _ Eg).
    destruct (serve_answers w (set_input rest s) args Hw Hv)
      as (w1 & reply & close & v & Hserve & Hans & Henv & Ht1 & Hw1). rewrite Hserve.
    destruct (Queue reply close _) as [s2| |] eqn:Eq; [|by rewrite queue_eq in Eq..].
    pose proof (queue_view _ _ _ _ Eq) as Hv2. rewrite queue_eq in Eq.
    destruct (IH (length (m_input s2))) with (s := s2) (w := w1)
      (clients := <[i := client_view s2]> clients) as (s' & w' & Hp & Hw' & Ht' & Hrun & Hend).
    + injection Eq as <-. subst n. rewrite Ef. unfold zlen in Hf. simpl. rewrite length_app. lia.
    + done.
    + done.
    + unfold timed in *. congruence.
    + by rewrite lookup_insert_eq.
    + exists s', w'. split_and!; [done..| |done]. rewrite insert_insert_eq in Hrun.
      eapply rtc_l; [|exact Hrun]. rewrite Hv2, Henv. unfold timed in Ht. rewrite Ht in Hans.
      simpl. rewrite Ec. simpl.
      eapply ideal_request; [exact Hi|exact Eg|exact Hans].
  - exists s, w. by split_and!; auto.
  - cbn [error_result error].
    destruct (Queue _ true s) as [s2| |] eqn:Eq; [|by rewrite queue_eq in Eq..].
    exists s2, w. split_and!; [done..| |].
    + apply rtc_once. rewrite (queue_view _ _ _ _ Eq), orb_true_r.
      apply ideal_refuse; [done|]. by apply malformed.
    + left. rewrite queue_eq in Eq. injection Eq as <-. simpl. by rewrite orb_true_r.
Qed.

(** The handler of a read: a client's characters arrive and its whole requests
    are answered, or it is turned away. *)
Lemma on_read_run i data s w (clients : gmap nat Client) s' w' :
  world_ready w -> timed w -> clients !! i = Some (client_view s) ->
  m_closeAfterWrite s = false -> 0 < zlen data <= kReadBuffer ->
  on_read data s w = (s', w', Ok tt) ->
  world_ready w' /\ timed w'
  /\ ideal_run (MkIdeal clients (abs (m_store (database w).1)) (surroundings w))
       (MkIdeal (<[i := client_view s']> clients) (abs (m_store (database w').1)) (surroundings w'))
  /\ (m_closeAfterWrite s' = true \/ Grammar.request (m_input s') = Grammar.More).
Proof.
  intros Hw Ht Hi Hc Hd. unfold on_read. cbn [set_reading m_input].
  set (s0 := set_input (m_input s ++ data) (set_reading false s)).
  assert (Hv0 : client_view s0 = MkClient (m_input s ++ data) (m_version s) (transcript s) false)
    by (unfold client_view; simpl; by rewrite Hc).
  assert (Hrecv : ideal_step (MkIdeal clients (abs (m_store (database w).1)) (surroundings w))
    (MkIdeal (<[i := client_view s0]> clients) (abs (m_store (database w).1)) (surroundings w))).
  { rewrite Hv0. apply ideal_receive; [|done]. rewrite Hi. unfold client_view. by rewrite Hc. }
  destruct (kMaxBufferedInput <? zlen (m_input s0)) eqn:El; zify_bool.
  - destruct (Queue _ true s0) as [s2| |] eqn:Eq; [|done|done]. intros [= <- <-].
    split_and!; [done..| |].
    + eapply rtc_l; [exact Hrecv|]. apply rtc_once.
      rewrite <- (insert_insert_eq clients i (client_view s2) (client_view s0)).
      rewrite (queue_view _ _ _ _ Eq), orb_true_r, Hv0.
      apply ideal_refuse; [by rewrite lookup_insert_eq|]. by apply flooded.
    + left. rewrite queue_eq in Eq. injection Eq as <-. simpl. by rewrite orb_true_r.
  - destruct (process_run i s0 w (<[i := client_view s0]> clients) Hw Ht)
      as (s1 & w1 & -> & Hw1 & Ht1 & Hrun & Hend); [by rewrite lookup_insert_eq|].
    rewrite insert_insert_eq in Hrun. intros [= <- <-].
    assert (Hs1 : client_view (if negb (m_closeAfterWrite s1) then Read s1 else s1) = client_view s1)
      by by destruct (m_closeAfterWrite s1).
    rewrite Hs1. split_and!; [done..|by eapply rtc_l|].
    destruct Hend as [Hend|Hend]; [left; by rewrite Hend|right; by destruct (m_closeAfterWrite s1)].
Qed.

End ideal.

(** The other handlers change nothing an ideal client sees. *)
Lemma on_write_view response s s' :
  session_inv s -> response ∈ writing s -> on_write response s = Ok s' ->
  client_view s' = client_view s.
Proof.
  intros Hs Hw Ho. destruct (session_inv_on_write _ _ _ Hs Hw Ho) as (_ & Ht & _).
  unfold client_view. rewrite Ht. unfold on_write, Write in Ho.
  destruct (negb _); [|destruct (m_closeAfterWrite _) eqn:Ec].
  - apply rbind_ok in Ho as (x & _ & <-%Ok_inj). done.
  - by apply Ok_inj in Ho as <-.
  - by apply Ok_inj in Ho as <-.
Qed.

(** The refinement, and that no request is left waiting, at one state. *)
Record refined (ttl : Timestamp) (w0 : World) (x : gmap nat Session * World) : Prop := {
  refined_ready : world_ready x.2;
  refined_timed : timed ttl x.2;
  refined_run : rtc (ideal_step ttl) (service_view (∅, w0)) (service_view x);
  refined_quiet : forall i s, x.1 !! i = Some s ->
    m_closeAfterWrite s = true \/ Grammar.request (m_input s) = Grammar.More;
}.

(** A handler the ideal does not see. *)
Lemma refined_stutter ttl w0 clients w i s s' :
  refined ttl w0 (clients, w) -> clients !! i = Some s -> client_view s' = client_view s ->
  refined ttl w0 (<[i := s']> clients, w).
Proof.
  intros [Hw Ht Hrun Hq] Hi Hv. split; simpl; [done|done| |].
  - replace (service_view (<[i := s']> clients, w)) with (service_view (clients, w)); [done|].
    unfold service_view. simpl. by rewrite fmap_insert, Hv, insert_id by by rewrite lookup_fmap, Hi.
  - intros j t [[_ <-]|[_ Hj]]%lookup_insert_Some; [|by eapply Hq].
    injection Hv as -> _ _ ->. exact (Hq i s Hi).
Qed.

Lemma refined_step permitted ttl w0 x y :
  reachable_service permitted w0 x -> service_step permitted x y ->
  refined ttl w0 x -> refined ttl w0 y.
Proof.
  intros Hx Hstep Hr. destruct Hstep as [i clients w Hi|i s s' clients w w' Hi Hc].
  - destruct Hr as [Hw Ht Hrun Hq]. split; simpl; [done|done| |].
    + eapply rtc_r; [exact Hrun|]. unfold service_view. simpl. rewrite fmap_insert.
      apply ideal_accept. by rewrite lookup_fmap, Hi.
    + intros j s [[_ <-]|[_ Hj]]%lookup_insert_Some; [by right|by eapply Hq].
  - pose proof (reachable_session_inv _ _ (service_clients _ _ _ Hx i s Hi)) as Hs.
    inversion Hc as [data s1 w2 s2 w3 Hread Hlen Hper He|s1 w2 Hread
      |response s1 w2 s2 Hwr Ho|response s1 w2 Hwr]; subst.
    + destruct Hr as [Hw Ht Hrun Hq]. simpl in *.
      destruct (on_read_run ttl i data s w (client_view <$> clients) s' w' Hw Ht
        ltac:(by rewrite lookup_fmap, Hi) (proj1 (inv_reading _ Hs Hread)) Hlen He)
        as (Hw' & Ht' & Hrun' & Hend).
      split; simpl; [done|done| |].
      * etrans; [exact Hrun|]. unfold service_view at 2. simpl. by rewrite fmap_insert.
      * intros j t [[_ <-]|[_ Hj]]%lookup_insert_Some; [done|by eapply Hq].
    + by eapply refined_stutter.
    + eapply refined_stutter; [exact Hr|exact Hi|]. by eapply on_write_view.
    + eapply refined_stutter; [exact Hr|exact Hi|].
      unfold client_view, transcript. simpl. by rewrite app_nil_r.
Qed.

Lemma service_refined permitted w0 x :
  world_ready w0 -> reachable_service permitted w0 x ->
  refined (m_ttl (m_store (database w0).1)) w0 x.
Proof.
  intros Hw0. induction 1 as [|x y Hx IH Hstep]; [by split; [|done|apply rtc_refl|]|].
  by eapply refined_step.
Qed.

(** ** Properties *)

(** C3: whatever its clients send, however what they send is cut into reads and
    however their connections interleave, the server is the abstract service:
    each request that a client completes is one step on the one shared map,
    answered as the protocol says and in the order the client sent them, and
    nothing else changes the map or adds to a client's replies. No request is
    left waiting: a client that is not being turned away or disconnected has no
    whole request in its inbox. *)
Theorem service_refines_ideal permitted w0 clients w :
  world_ready w0 -> reachable_service permitted w0 (clients, w) ->
  rtc (ideal_step (m_ttl (m_store (database w0).1))) (service_view (∅, w0)) (service_view (clients, w))
  /\ forall i s, clients !! i = Some s ->
       m_closeAfterWrite s = true \/ Grammar.request (m_input s) = Grammar.More.
Proof.
  intros Hw0 Hr. by destruct (service_refined permitted w0 _ Hw0 Hr) as [_ _ Hrun Hq].
Qed.

(** ** Witnesses *)

Lemma service_refines_ideal_witness :
  replied (client_view session_example) = BulkString (Some (str "1")) Resp2
  /\ rtc (ideal_step (-1)) (service_view (∅, world_example))
       (service_view (<[0%nat := session_example]> (<[0%nat := StartSession NewSession]> ∅), after_read)).
Proof.
  split; [vm_compute; reflexivity|].
  apply (service_refines_ideal (fun _ => True) world_example _ after_read world_example_ready).
  eapply service_next; [eapply service_next; [apply service_start|]|].
  - apply service_accept. reflexivity.
  - apply (service_client _ 0 (StartSession NewSession)); [reflexivity|].
    exact (client_read _ _ (StartSession NewSession) _ _ _ eq_refl get_a_size
      (Forall_true _ _ (fun _ => I)) session_example_read).
Defined.
