(* ===== verification/Liveness.v ===== *)
(** The server over an infinite run: every reply is sent in the end.

    A run is a function from the moments to the states of [Service]; at each
    moment some handler runs, or none. It is fair when no write stays under way
    for ever: its handler runs in the end, with success or with an error. That
    is what the operating system owes the server; nothing is asked of the
    clients, which may go on sending for ever.

    No code is modelled here. *)

From S2P Require Import Prelude Streams RadishEvent RadishStore LogWriter PersistenceLog RadishDB.
From S2P Require Import RespCodec TcpServer Service IdealService.
Open Scope Z_scope.

Section liveness.
Context (permitted : list bytes -> Prop) (w0 : World) (trace : nat -> gmap nat Session * World).
Implicit Types (s : Session) (w : World) (n m i : nat).

(** The connection of the client [i] at the moment [n]. *)
Definition client_at n i s : Prop := (trace n).1 !! i = Some s.

(** The handler of a write of the client runs. *)
Definition write_handled n i : Prop :=
  exists s s' response, client_at n i s /\ response ∈ writing s
    /\ (on_write response s = Ok s' \/ s' = on_write_error response s) /\ client_at (S n) i s'.

Record fair_run : Prop := {
  run_start : trace 0 = (∅, w0);
  run_step : forall n, trace (S n) = trace n \/ service_step permitted (trace n) (trace (S n));
  run_fair : forall n i s, client_at n i s -> writing s <> [] ->
    exists m, (n <= m)%nat /\ write_handled m i;
}.

(** A write of the connection failed, and what is queued stays. *)
Definition write_failed s : Prop := writing s = [] /\ m_output s <> [].

Context (Hrun : fair_run).

Lemma run_reachable n : reachable_service permitted w0 (trace n).
Proof.
  induction n as [|n IH]; [rewrite (run_start Hrun); apply service_start|].
  destruct (run_step Hrun n) as [->|H]; [done|]. by eapply service_next.
Qed.

Lemma run_client_inv n i s : client_at n i s -> session_inv s.
Proof.
  intros Hs. eapply reachable_session_inv.
  exact (service_clients permitted w0 _ (run_reachable n) i s Hs).
Qed.

Lemma sending_or_failed s : session_inv s -> sending s \/ write_failed s.
Proof.
  intros Hs. destruct (inv_writing s Hs) as [Hw|Hw]; [|by left].
  destruct (m_output s) as [|r rs] eqn:E; [left; split; [done|by rewrite E]|right; by split; [|rewrite E]].
Qed.

(** What one moment does to a connection. *)
Lemma run_client_step n i s :
  client_at n i s ->
  exists s', client_at (S n) i s'
    /\ ((exists k, run k (s, (trace n).2) (s', (trace (S n)).2))
        \/ exists response, response ∈ writing s /\ s' = on_write_error response s).
Proof.
  unfold client_at. intros Hs. destruct (run_step Hrun n) as [->|Hstep].
  { exists s. split; [done|]. left. exists O. apply run_refl. }
  destruct (trace n) as [clients w], (trace (S n)) as [clients' w']. simpl in Hs |- *.
  inversion Hstep as [j ? ? Hj|j t t' ? ? ? Hj Hc]; subst.
  - exists s. split; [by rewrite lookup_insert_ne by congruence|]. left. exists O. apply run_refl.
  - destruct (decide (j = i)) as [->|Hne].
    2: { exists s. split; [by rewrite lookup_insert_ne|]. left. exists O. eapply run_others. apply run_refl. }
    rewrite Hs in Hj. injection Hj as <-. exists t'. rewrite lookup_insert_eq. split; [done|].
    inversion Hc as [data ? ? ? ? Hr Hd _ He|? ? Hr|response ? ? ? Hw Ho|response ? ? Hw]; subst.
    + left. exists O. by eapply run_read; [..|apply run_refl].
    + left. exists O. by eapply run_read_error; [|apply run_refl].
    + left. exists 1%nat. by eapply run_write; [..|apply run_refl].
    + right. by exists response.
Qed.

Lemma run_trans a b x y z : run a x y -> run b y z -> run (a + b) x z.
Proof.
  induction 1; intros Hz; simpl; [done|..].
  - by eapply run_read; eauto.
  - by eapply run_read_error; eauto.
  - by eapply run_write; eauto.
  - by eapply run_others; eauto.
Qed.

Lemma sending_fails response s :
  sending s -> response ∈ writing s -> write_failed (on_write_error response s).
Proof.
  intros [Hs _] Hw. destruct (writing_front response s Hs Hw) as [E [rest Hout]].
  unfold write_failed. simpl. by rewrite E, ended_only, Hout.
Qed.

(** From one moment to another the connection runs, or a write fails. *)
Lemma run_between d n i s :
  client_at n i s -> sending s ->
  (exists m s', (n <= m)%nat /\ client_at m i s' /\ write_failed s')
  \/ exists s' k, client_at (d + n) i s' /\ run k (s, (trace n).2) (s', (trace (d + n)).2).
Proof.
  intros Hs Hsend. induction d as [|d [IH|(s1 & k & H1 & H2)]]; [right; exists s, O; split; [done|apply run_refl]
    |by left|].
  destruct (run_client_step (d + n) i s1 H1) as (s2 & H3 & [[j H4]|(response & Hw & ->)]).
  - right. exists s2, (k + j)%nat. split; [done|]. by eapply run_trans.
  - left. exists (S (d + n)), (on_write_error response s1). split_and!; [lia|done|].
    apply sending_fails; [|done]. exact (proj1 (run_sends _ _ _ H2 Hsend)).
Qed.

(** In the end a write fails, or the queue is empty, or [k] writes complete. *)
Lemma writes_complete k n i s :
  client_at n i s -> sending s ->
  exists m s', (n <= m)%nat /\ client_at m i s'
    /\ (write_failed s'
        \/ exists j, run j (s, (trace n).2) (s', (trace m).2) /\ (m_output s' = [] \/ (k <= j)%nat)).
Proof.
  intros Hs Hsend. induction k as [|k IH].
  { exists n, s. split_and!; [done|done|]. right. exists O. split; [apply run_refl|]. right. lia. }
  destruct IH as (m & s1 & Hm & H1 & [Hf|(j & Hj & Hk)]); [by exists m, s1; auto|].
  destruct (run_sends _ _ _ Hj Hsend) as [Hsend1 _]. simpl in Hsend1.
  destruct (decide (writing s1 = [])) as [Hw|Hw].
  { exists m, s1. split_and!; [done|done|]. right. exists j. split; [done|]. left.
    destruct Hsend1 as [_ Hw1]. rewrite Hw in Hw1. by destruct (m_output s1). }
  destruct (run_fair Hrun m i s1 H1 Hw) as (m' & Hm' & s2 & s3 & response & H2 & Hw2 & Hdone & H3).
  destruct (run_between (m' - m) m i s1 H1 Hsend1) as [(m2 & s4 & Hm2 & H4 & Hf)|(s4 & j' & H4 & Hj')].
  { exists m2, s4. split_and!; [lia|done|by left]. }
  replace (m' - m + m)%nat with m' in * by lia. unfold client_at in H2, H4. rewrite H2 in H4. injection H4 as <-.
  destruct (run_sends _ _ _ Hj' Hsend1) as [Hsend2 _]. simpl in Hsend2.
  exists (S m'), s3. split_and!; [lia|done|]. destruct Hdone as [Ho| ->].
  - right. exists (j + (j' + 1))%nat. split.
    + eapply run_trans; [exact Hj|]. eapply run_trans; [exact Hj'|].
      eapply run_write; [exact Hw2|exact Ho|]. eapply run_others, run_refl.
    + destruct Hk as [Ho1|Hk]; [|right; lia]. destruct Hsend1 as [_ Hw1]. by rewrite Ho1 in Hw1.
  - left. by apply sending_fails.
Qed.

(** The replies queued at a moment are part of every later transcript. *)
Lemma run_transcript k x y :
  run k x y -> sending x.1 -> transcript x.1 `prefix_of` transcript y.1.
Proof.
  induction 1 as [x|data s w [s1 w1] k y Hr Hd He _ IH|s w k y Hr _ IH
    |response s w s1 k y Hw Ho _ IH|s w w' k y _ IH]; intros Hx; simpl in *; [done|..].
  - destruct (on_read_sending _ _ _ _ _ _ Hx Hr (proj2 Hd) He) as (H1 & Hsent & new & Hout).
    etrans; [|by apply IH]. unfold transcript. rewrite Hsent, Hout, concat_app, app_assoc. by apply prefix_app_r.
  - etrans; [|apply IH; by apply read_error_sending]. done.
  - destruct (session_inv_on_write _ _ _ (proj1 Hx) Hw Ho) as (_ & <- & _). apply IH.
    by destruct (on_write_sending _ _ _ Hx Hw Ho).
  - by apply IH.
Qed.

(** A connection that is to close takes no more requests. *)
Lemma run_closing k x y :
  run k x y -> sending x.1 -> m_closeAfterWrite x.1 = true ->
  m_closeAfterWrite y.1 = true /\ m_output y.1 = drop k (m_output x.1).
Proof.
  induction 1 as [x|data s w [s1 w1] k y Hr Hd He _ IH|s w k y Hr _ IH
    |response s w s1 k y Hw Ho _ IH|s w w' k y _ IH]; intros Hx Hc; simpl in *; [done|..].
  - pose proof (inv_reading _ (proj1 Hx) Hr) as [? _]. congruence.
  - apply IH; [by apply read_error_sending|done].
  - destruct (on_write_sending _ _ _ Hx Hw Ho) as (H1 & _ & Hout).
    destruct (on_write_next response s (proj1 Hx) Hw) as (s' & Ho' & _ & _ & Hc' & _).
    rewrite Ho in Ho'. injection Ho' as <-. rewrite Hout. apply IH; [done|congruence].
  - by apply IH.
Qed.

(** A connection that has sent everything before closing is closed. *)
Definition closes s : Prop := m_closeAfterWrite s = true -> m_output s = [] -> is_open s = false.

Lemma queue_closes response close s s' : Queue response close s = Ok s' -> closes s'.
Proof.
  rewrite queue_eq. intros [= <-] _ Ho. simpl in Ho. by destruct (m_output s).
Qed.

Lemma step_closes x y : step x y -> session_inv x.1 -> closes x.1 -> closes y.1.
Proof.
  destruct 1 as [data s w s' w' Hr Hd He|s w Hr|response s w s' Hw Ho|response s w Hw|s w w'];
    intros Hs Hx; simpl in *; [|done| |done|done].
  - unfold on_read in He. destruct (_ <? zlen _).
    + destruct (Queue _ _ _) as [s1| |] eqn:Eq; [|done|done]. injection He as <- <-. by eapply queue_closes.
    + destruct (Process _ w) as [[s1 w1] [[]| |]] eqn:Ep; [|done|done].
      assert (H1 : closes s1).
      { refine (process_inv closes _ _ _ _ _ _ _ _ Ep); [done| |exact Hx].
        intros s2 s3 response close _. apply queue_closes. }
      injection He as <- <-. by destruct (m_closeAfterWrite s1).
  - destruct (on_write_next response s Hs Hw) as (s1 & Ho1 & H1 & _ & H3 & H4).
    rewrite Ho in Ho1. injection Ho1 as <-. intros Hc Hout. rewrite H1 in Hout. rewrite H3 in Hc.
    destruct H4 as [H4|H4]; [done|]. by rewrite H4 in Hc.
Qed.

Lemma run_client_closes n i s : client_at n i s -> closes s.
Proof.
  intros Hs. pose proof (service_clients permitted w0 _ (run_reachable n) i s Hs) as H.
  remember (s, (trace n).2) as x eqn:E. assert (Hx : closes x.1); [|by subst x].
  clear E Hs. induction H as [w|[s1 w1] y Hs1 IH Hstep]; [done|].
  eapply step_closes; [exact Hstep| |exact IH]. by eapply reachable_session_inv.
Qed.

End liveness.

(** ** Property *)

(** C19: in every fair run of the server, whatever its clients do, at every
    moment each client's whole requests are answered, and what has been
    answered is sent to it at a later moment, after which the connection is
    closed if it was to close; the only way out is that a write of that
    connection fails. *)
Theorem answers_get_sent permitted w0 trace n i s :
  world_ready w0 -> fair_run permitted w0 trace -> client_at trace n i s ->
  (m_closeAfterWrite s = true \/ Grammar.request (m_input s) = Grammar.More)
  /\ exists m s', (n <= m)%nat /\ client_at trace m i s'
       /\ (write_failed s'
           \/ transcript s `prefix_of` sent s' /\ (m_closeAfterWrite s = true -> is_open s' = false)).
Proof.
  intros Hw0 Hrun Hs. split.
  { exact (refined_quiet _ _ _ (service_refined _ _ _ Hw0 (run_reachable _ _ _ Hrun n)) i s Hs). }
  destruct (sending_or_failed s (run_client_inv _ _ _ Hrun n i s Hs)) as [Hsend|Hf].
  2: { exists n, s. split_and!; [done|done|by left]. }
  destruct (writes_complete _ _ _ Hrun (length (m_output s)) n i s Hs Hsend)
    as (m & s' & Hm & H1 & [Hf|(j & Hj & Hk)]); [by exists m, s'; auto|].
  exists m, s'. split_and!; [done|done|]. right.
  assert (Hout : m_closeAfterWrite s = true -> m_output s' = []).
  { intros Hc. destruct Hk as [Hk|Hk]; [done|].
    destruct (run_closing _ _ _ Hj Hsend Hc) as [_ Ho]. simpl in Ho. rewrite Ho. by apply drop_ge. }
  split.
  - destruct Hk as [Ho|Hk].
    + etrans; [exact (run_transcript _ _ _ Hj Hsend)|]. unfold transcript. simpl. by rewrite Ho, app_nil_r.
    + pose proof (proj2 (run_sends _ _ _ Hj Hsend) (m_output s) []) as H. apply H; [by rewrite app_nil_r|done].
  - intros Hc. apply (run_client_closes _ _ _ Hrun m i s' H1); [|by apply Hout].
    exact (proj1 (run_closing _ _ _ Hj Hsend Hc)).
Qed.

(** ** Limits

    After a failed write nothing is sent any more, though the connection stays
    open, reads on and executes what it reads. *)

Lemma failed_write_is_silent s w s' w' :
  write_failed s -> step (s, w) (s', w') -> write_failed s' /\ sent s' = sent s /\ is_open s' = is_open s.
Proof.
  intros [Hw Ho] Hs. pose (P := fun u => (write_failed u /\ sent u = sent s /\ is_open u = is_open s)).
  assert (Hq : forall u u' response close, P u -> Queue response close u = Ok u' -> P u').
  { intros u u' response close ([Hw1 Ho1] & Hs1 & Ho2). rewrite queue_eq. intros [= <-].
    split_and!; [split; simpl|done|done]; [by rewrite decide_False|by destruct (m_output u)]. }
  inversion Hs as [data ? ? ? ? Hr Hd He|? ? Hr|response ? ? ? Hwr|response ? ? Hwr|]; subst;
    [|by split_and!|by rewrite Hw in Hwr; apply not_elem_of_nil in Hwr..|by split_and!].
  unfold on_read in He. destruct (_ <? zlen _).
  - destruct (Queue _ _ _) as [s1| |] eqn:Eq; [|done|done]. injection He as <- <-.
    eapply Hq; [|exact Eq]. by split_and!.
  - destruct (Process _ w) as [[s1 w1] [[]| |]] eqn:Ep; [|done|done].
    assert (H1 : P s1) by (refine (process_inv P _ _ _ _ _ _ Hq _ Ep); [done|by split_and!]).
    injection He as <- <-. by destruct (m_closeAfterWrite s1).
Qed.

(** ** Witness *)

(** One client asks for a key, gets the answer, and nothing more happens. *)
Definition session_answered : Session :=
  match on_write (BulkString (Some (str "1")) Resp2) session_example with
  | Ok s => s
  | _ => session_example
  end.

Definition example_trace (n : nat) : gmap nat Session * World :=
  match n with
  | 0 => (∅, world_example)
  | 1 => (<[0%nat := StartSession NewSession]> ∅, world_example)
  | 2 => (<[0%nat := session_example]> (<[0%nat := StartSession NewSession]> ∅), after_read)
  | _ => (<[0%nat := session_answered]> (<[0%nat := session_example]>
            (<[0%nat := StartSession NewSession]> ∅)), after_read)
  end%nat.

Lemma example_writing : BulkString (Some (str "1")) Resp2 ∈ writing session_example.
Proof.
  replace (writing session_example) with [BulkString (Some (str "1")) Resp2] by by vm_compute.
  apply list_elem_of_here.
Qed.

Lemma example_trace_fair : fair_run (fun _ => True) world_example example_trace.
Proof.
  split; [done| |].
  - intros [|[|[|n]]]; [right..|by left]; cbn [example_trace].
    + by apply service_accept.
    + apply (service_client _ 0 (StartSession NewSession)); [done|].
      exact (client_read _ _ (StartSession NewSession) _ _ _ eq_refl get_a_size
        (Forall_true _ _ (fun _ => I)) session_example_read).
    + apply (service_client _ 0 session_example); [done|].
      apply (client_write _ (BulkString (Some (str "1")) Resp2)); [apply example_writing|by vm_compute].
  - intros n i s Hs Hw. unfold client_at in Hs.
    assert (Hn : n = 2%nat /\ i = 0%nat /\ s = session_example).
    { destruct n as [|[|[|n]]]; cbn [example_trace fst] in Hs.
      all: repeat match goal with H : <[_ := _]> _ !! _ = Some _ |- _ =>
        apply lookup_insert_Some in H as [[<- <-]|[? H]] end; try done.
      all: by destruct Hw; vm_compute. }
    destruct Hn as (-> & -> & ->). exists 2%nat. split; [done|].
    exists session_example, session_answered, (BulkString (Some (str "1")) Resp2).
    split_and!; [done|apply example_writing|left; by vm_compute|done].
Qed.

Lemma answers_get_sent_witness :
  fair_run (fun _ => True) world_example example_trace
  /\ exists m s', client_at example_trace m 0 s'
       /\ (write_failed s' \/ BulkString (Some (str "1")) Resp2 `prefix_of` sent s').
Proof.
  split; [exact example_trace_fair|].
  destruct (answers_get_sent (fun _ => True) world_example example_trace 2 0 session_example
    world_example_ready example_trace_fair eq_refl) as (_ & m & s' & _ & Hm & [Hf|[Hp _]]).
  - exists m, s'. split; [exact Hm|left; exact Hf].
  - exists m, s'. split; [exact Hm|right; exact Hp].
Defined.
