(* ===== verification/Main.v ===== *)
(** src/main.cpp: the options of the server program and the life of its
    database, from the command line to the compaction at shutdown.

    The event loop ([asio::io_context::run] with the handlers of [TcpServer])
    is an argument of [main]: it takes the listening server and the open database
    with its disk and gives the database and disk it leaves, when a signal stops
    it or when a handler throws. Printing and the signal handler are not
    modelled. *)

From S2P Require Import Prelude Decimal Streams BinaryFile RadishEvent RadishStore.
From S2P Require Import PersistenceLog RadishDB Listener.

Record ServerOptions := MkOptions {
  bindAddress : bytes;
  dataFile : bytes;
  port : Z;
  ttl : option Timestamp;
  persistenceEnabled : bool;
}.

Definition default_options : ServerOptions :=
  MkOptions (str "127.0.0.1") (str "radish") 6379 None true.

Definition UINT16_MAX : Z := 65535.

Definition stoul : bytes -> result Z := sto_unsigned (str "stoul") 64.

(** One round of the loop, on an option and its value. *)
Definition parse_option (options : ServerOptions) (option value : bytes) : result ServerOptions :=
  let '(MkOptions bind file p t on) := options in
  if bool_decide (option = str "--bind") then Ok (MkOptions value file p t on)
  else if bool_decide (option = str "--port") then
    let! parsed := stoul value in
    throw! invalid_argument (str "Port must be between 0 and 65535") when UINT16_MAX <? parsed in
    Ok (MkOptions bind file parsed t on)
  else if bool_decide (option = str "--data-file") then Ok (MkOptions bind value p t on)
  else if bool_decide (option = str "--ttl-ms") then
    let! parsed := stoll value in
    throw! invalid_argument (str "TTL must be non-negative") when parsed <? 0 in
    Ok (MkOptions bind file p (Some parsed) on)
  else if bool_decide (option = str "--persistence") then
    if bool_decide (value = str "flush") then Ok (MkOptions bind file p t true)
    else if bool_decide (value = str "off") then Ok (MkOptions bind file p t false)
    else Throw (invalid_argument (str "Persistence must be 'flush' or 'off'"))
  else Throw (invalid_argument (str "Unknown option: " ++ option)).

Fixpoint parse_pairs (options : ServerOptions) (arguments : list bytes) : result ServerOptions :=
  match arguments with
  | [] => Ok options
  | [option] => Throw (invalid_argument (str "Missing value for " ++ option))
  | option :: value :: arguments =>
      let! options := parse_option options option value in
      parse_pairs options arguments
  end.

(** The first argument is the name of the program. *)
Definition ParseOptions (arguments : list bytes) : result ServerOptions :=
  parse_pairs default_options (tail arguments).

Definition persistence_mode (options : ServerOptions) : PersistenceMode :=
  if persistenceEnabled options then Flush else Disabled.

(** The database the options ask for. *)
Definition open_database (io : IoEnv) (now : nat -> Timestamp) (options : ServerOptions)
    (disk : Disk) : Disk * result (RadishDB bytes) :=
  match ttl options with
  | Some ttl => NewRadishDB_ttl io now (dataFile options) ttl (persistence_mode options) disk
  | None => NewRadishDB io now (dataFile options) (persistence_mode options) disk
  end.

(** What the program meets on its way: the device and the clock while the
    database is opened, the host it listens on, the event loop, and those of the compaction, with the
    order of its hash map. *)
Record Run := MkRun {
  run_io : IoEnv;
  run_now : nat -> Timestamp;
  run_host : Host;
  event_loop : Server -> RadishDB bytes * Disk -> (RadishDB bytes * Disk) * result unit;
  stop_io : IoEnv;
  stop_now : nat -> Timestamp;
  stop_write_now : bytes -> Timestamp;
  stop_order : gmap bytes (RadishEvent bytes) -> list (bytes * RadishEvent bytes);
}.

(** The body of the [try] block: [Throw] is what the [catch] receives. *)
Definition main_body (r : Run) (arguments : list bytes) (disk : Disk) : Disk * result unit :=
  match ParseOptions arguments with
  | Ok options =>
      match open_database (run_io r) (run_now r) options disk with
      | (disk, Ok db) =>
          match NewTcpServer (run_host r) (bindAddress options) (port options) with
          | Ok server =>
              match event_loop r (Start server) (db, disk) with
              | (st, Ok _) =>
                  if persistenceEnabled options then
                    let '(st, result) :=
                      RadishDB.Compact (stop_io r) (stop_now r) (stop_write_now r) (stop_order r) st in
                    (st.2, result)
                  else (st.2, Ok tt)
              | (st, Throw e) => (st.2, Throw e)
              | (st, Undefined) => (st.2, Undefined)
              end
          | Throw e => (disk, Throw e)
          | Undefined => (disk, Undefined)
          end
      | (disk, Throw e) => (disk, Throw e)
      | (disk, Undefined) => (disk, Undefined)
      end
  | Throw e => (disk, Throw e)
  | Undefined => (disk, Undefined)
  end.

(** The exit status: 0, or 1 after an exception. *)
Definition main (r : Run) (arguments : list bytes) (disk : Disk) : Disk * result Z :=
  match main_body r arguments disk with
  | (disk, Ok _) => (disk, Ok 0)
  | (disk, Throw _) => (disk, Ok 1)
  | (disk, Undefined) => (disk, Undefined)
  end.

(** ** The command line of a set of options *)

Definition render_options (o : ServerOptions) : list bytes :=
  [str "--bind"; bindAddress o; str "--data-file"; dataFile o;
   str "--port"; to_string (port o);
   str "--persistence"; if persistenceEnabled o then str "flush" else str "off"]
  ++ match ttl o with Some t => [str "--ttl-ms"; to_string t] | None => [] end.

Definition options_wf (o : ServerOptions) : Prop :=
  0 <= port o <= UINT16_MAX /\ (forall t, ttl o = Some t -> 0 <= t <= LLONG_MAX).

(** ** Lemmas *)

Lemma stoul_to_string n : 0 <= n < 2 ^ 64 -> stoul (to_string n) = Ok n.
Proof.
  intros Hn. unfold stoul, sto_unsigned. rewrite strto_to_string by lia.
  by rewrite (proj2 (Z.ltb_ge _ _)) by lia.
Qed.

Lemma stoul_range bs n : stoul bs = Ok n -> 0 <= n < 2 ^ 64.
Proof.
  unfold stoul, sto_unsigned. destruct (strto bs) as [[neg v]|] eqn:E; [|done].
  apply strto_nonneg in E. destruct (_ <? v) eqn:Ev; [done|]. zify_bool. intros <-%Ok_inj.
  destruct neg; [apply Z.mod_pos_bound|]; lia.
Qed.

Lemma stoll_range bs n : stoll bs = Ok n -> in_ll n.
Proof.
  unfold stoll. destruct (strto bs) as [[neg v]|]; [|done]. cbv zeta.
  destruct (_ || _) eqn:E; [done|]. zify_bool. intros <-%Ok_inj. by split.
Qed.

Lemma parse_option_wf o option value o' :
  options_wf o -> parse_option o option value = Ok o' -> options_wf o'.
Proof.
  destruct o as [bind file p t on]. intros [Hp Ht]. unfold parse_option. simpl in *.
  repeat case_match; intros Ho; inv_result; try (by split).
  - split; [|done]. simpl. zify_bool. match goal with H : stoul _ = Ok _ |- _ => apply stoul_range in H end. lia.
  - split; [done|]. simpl. intros u [= <-]. zify_bool.
    match goal with H : stoll _ = Ok _ |- _ => apply stoll_range in H; unfold in_ll in H end. lia.
Qed.

Lemma parse_pairs_wf args o o' :
  options_wf o -> parse_pairs o args = Ok o' -> options_wf o'.
Proof.
  remember (length args) as n eqn:En. revert args o En.
  induction (lt_wf n) as [n _ IH]. intros args o En Hw.
  destruct args as [|option [|value args]]; simpl; [by intros <-%Ok_inj|done|].
  intros Ho. inv_result. simpl in En. eapply (IH (length args)); [lia|done| |done].
  by eapply parse_option_wf.
Qed.

Lemma parse_pairs_odd args o o' :
  parse_pairs o args = Ok o' -> exists n, length args = (2 * n)%nat.
Proof.
  remember (length args) as n eqn:En. revert args o En.
  induction (lt_wf n) as [n _ IH]. intros args o En.
  destruct args as [|option [|value args]]; simpl in *; [by exists O|done|].
  intros Ho. inv_result. destruct (IH (length args) ltac:(lia) args _ eq_refl Ho) as [k Hk].
  exists (S k). lia.
Qed.

Lemma default_options_wf : options_wf default_options.
Proof. by split. Qed.

(** The signed and the unsigned conversions stop at the first character that is
    not a digit, and the unsigned one accepts a minus sign: this port is 81. *)
Lemma port_of_negative_text :
  ParseOptions [str "radish-server"; str "--port"; str " -18446744073709551535 or so"]
  = Ok (MkOptions (str "127.0.0.1") (str "radish") 81 None true).
Proof. vm_compute. reflexivity. Qed.

(** ** Properties *)

(** Every set of options in range can be given on the command line, and is
    read back exactly. *)
Theorem options_read_back name o :
  options_wf o -> ParseOptions (name :: render_options o) = Ok o.
Proof.
  destruct o as [bind file p t on]. intros [Hp Ht]. unfold UINT16_MAX in Hp. simpl in Hp, Ht.
  assert (Hport : parse_option (MkOptions bind file 6379 None true) (str "--port") (to_string p)
    = Ok (MkOptions bind file p None true)).
  { unfold parse_option. cbn [bool_decide decide_rel]. rewrite stoul_to_string by lia.
    cbn [rbind]. unfold throw_if, UINT16_MAX. by rewrite (proj2 (Z.ltb_ge _ _)) by lia. }
  unfold ParseOptions, render_options.
  cbn [tail app bindAddress dataFile port persistenceEnabled Main.ttl].
  cbn [parse_pairs]. change (parse_option default_options (str "--bind") bind)
    with (Ok (MkOptions bind (str "radish") 6379 None true)). cbn [rbind].
  change (parse_option (MkOptions bind (str "radish") 6379 None true) (str "--data-file") file)
    with (Ok (MkOptions bind file 6379 None true)). cbn [rbind].
  rewrite Hport. cbn [rbind].
  assert (Hon : parse_option (MkOptions bind file p None true) (str "--persistence")
    (if on then str "flush" else str "off") = Ok (MkOptions bind file p None on)) by by destruct on.
  rewrite Hon. cbn [rbind]. destruct t as [t|]; [|done]. specialize (Ht t eq_refl).
  cbn [parse_pairs]. unfold parse_option at 1. cbn [bool_decide decide_rel].
  rewrite stoll_to_string by lia. cbn [rbind]. unfold throw_if.
  by rewrite (proj2 (Z.ltb_ge _ _)) by lia.
Qed.

(** C39: whatever the command line, the options accepted have a port that fits
    16 bits and a time to live that is not negative and fits a [long long], and
    every option had a value. *)
Theorem accepted_options_in_range arguments o :
  ParseOptions arguments = Ok o ->
  options_wf o /\ exists n, length (tail arguments) = (2 * n)%nat.
Proof.
  intros H. split.
  - by eapply parse_pairs_wf; [apply default_options_wf|].
  - by eapply parse_pairs_odd.
Qed.

(** However the program ends once the event loop has left the database in
    a reachable state (stopped and compacted, failing while it compacts, or
    stopped by an exception), starting it again with the same arguments finds
    the same data. The database has no time to live and no key was renamed to
    itself. *)
Theorem restarted_program_finds_its_data r arguments o disk disk0 db0 server st res allowed
    disk' code now :
  ParseOptions arguments = Ok o -> persistenceEnabled o = true -> ttl o = None ->
  open_database (run_io r) (run_now r) o disk = (disk0, Ok db0) ->
  NewTcpServer (run_host r) (bindAddress o) (port o) = Ok server ->
  event_loop r (Start server) (db0, disk0) = (st, res) ->
  reachable (dataFile o) (-1) allowed st -> no_self_renames allowed ->
  map_iteration (stop_order r) ->
  main r arguments disk = (disk', code) ->
  open_database io_ok now o disk' = (disk', Ok st.1).
Proof.
  intros Ho Hon Httl Hopen Hserver Hloop Hst Hns Hord Hmain.
  destruct (reachable_inv _ _ _ _ Hst) as (nw & es & Hinv & Hes).
  assert (Hre : forall st' es', db_inv (dataFile o) (-1) nw es' st' ->
    Forall (event_allowed (-1) allowed) es' ->
    open_database io_ok now o st'.2 = (st'.2, Ok st'.1)).
  { intros st' es' Hi He. unfold open_database, persistence_mode. rewrite Httl, Hon.
    change (NewRadishDB (V := bytes) io_ok now (dataFile o) Flush st'.2)
      with (NewRadishDB_ttl (V := bytes) io_ok now (dataFile o) (-1) Flush st'.2).
    eapply reopen; [exact Hi|]. apply (allowed_clock (-1) allowed); [by left | exact He]. }
  unfold main, main_body in Hmain. rewrite Ho, Hopen, Hserver, Hloop, Hon in Hmain.
  destruct res as [[]|e|].
  - destruct (RadishDB.Compact _ _ _ _ st) as [st' rc] eqn:Ec.
    destruct (compact_inv _ _ _ _ _ _ _ _ _ _ _ Hinv Hes Hns Hord Ec) as (Hdb & es' & Hi & He).
    rewrite <- Hdb. replace disk' with st'.2; [by eapply Hre|]. destruct rc; congruence.
  - injection Hmain as <- <-. by eapply Hre.
  - injection Hmain as <- <-. by eapply Hre.
Qed.

(** ** Witnesses *)

Definition options_example : ServerOptions :=
  MkOptions (str "0.0.0.0") (str "data") 7000 (Some 60000) false.

Lemma options_read_back_witness :
  ParseOptions (str "radish-server" :: render_options options_example) = Ok options_example.
Proof.
  apply (options_read_back (str "radish-server") options_example).
  split; [split; discriminate|]. intros t [= <-]. split; discriminate.
Defined.

Lemma accepted_options_in_range_witness :
  options_wf (MkOptions (str "127.0.0.1") (str "radish") 80 None true).
Proof.
  apply (accepted_options_in_range [str "radish-server"; str "--port"; str "80"]).
  vm_compute. reflexivity.
Defined.

(** A program with the data file "d" whose event loop creates one key. *)
Definition program_arguments : list bytes := [str "radish-server"; str "--data-file"; str "d"].

Definition program_options : ServerOptions :=
  MkOptions (str "127.0.0.1") (str "d") 6379 None true.

Definition program_example : Run :=
  MkRun io_ok (fun _ => 0) host_example
    (fun _ st => ((mutate io_ok 0 (example_create "a" "1") st).1, Ok tt))
    io_ok (fun _ => 0) (fun _ => 0) (fun m => map_to_list m).

Lemma restarted_program_finds_its_data_witness :
  let disk' := (main program_example program_arguments ∅).1 in
  open_database io_ok (fun _ => 9) program_options disk' = (disk', Ok example_db.1).
Proof.
  intros disk'.
  apply (restarted_program_finds_its_data program_example program_arguments program_options
    ∅ (fresh_db (-1)).2 (fresh_db (-1)).1
    (MkServer (Some (MkEndpoint (str "127.0.0.1") 6379)) false false 0) example_db (Ok tt)
    (fun m => is_self_rename m = false) disk' (Ok 0)).
  - vm_compute. reflexivity.
  - reflexivity.
  - reflexivity.
  - vm_compute. reflexivity.
  - reflexivity.
  - reflexivity.
  - exact example_db_reachable.
  - intros m Hm. exact Hm.
  - intros events. reflexivity.
  - apply result_pair. vm_compute. reflexivity.
Defined.
