(* ===== verification/Program.v ===== *)
(** The whole program over time: the command line, the database behind the
    server with its clients, the compaction at shutdown, and the next start.

    No code is modelled here. The program is [Main.main], its event loop a run
    of [Service], and what its data file means is told by [Lifetime]. *)

From S2P Require Import Prelude Decimal Streams BinaryFile EventType RadishEvent LogReader.
From S2P Require Import RadishStore Clock LogWriter PersistenceLog RadishDB Lifetime RespCodec.
From S2P Require Import TcpServer Listener Service Main.
Open Scope Z_scope.

Section program.
Implicit Types (st : RadishDB bytes * Disk) (envs : nat -> Env) (m : Mutation bytes)
  (ideal : gmap bytes (@Spec.entry bytes)).

(** The mutations the theorems cover: without a time to live every one but a
    rename of a key to itself, with one every one but a rename. *)
Definition policy (ttl : Timestamp) m : Prop :=
  if ttl =? -1 then is_self_rename m = false else is_rename m = false.

Lemma policy_covered ttl : covered ttl (policy ttl).
Proof.
  unfold covered, policy. destruct (ttl =? -1) eqn:E; zify_bool; [left|right];
    (split; [done|]; intros m Hm; exact Hm).
Qed.

Lemma policy_plain ttl m : is_rename m = false -> policy ttl m.
Proof. unfold policy. intros Hm. destruct (ttl =? -1); [by destruct m|done]. Qed.

(** The requests of clients that stay within it. *)
Definition permits (ttl : Timestamp) (args : list bytes) : Prop :=
  forall c k k', args = [c; k; k'] -> Protocol.is_command c "RENAME" -> policy ttl (MutRename k k').

(** The clock does not go back while the commands are served, and the expiry
    of a value created at any of its readings fits a [long long]. *)
Record clock_runs (ttl : Timestamp) envs : Prop := {
  runs_within : forall i j j', (j <= j')%nat -> env_now (envs i) j <= env_now (envs i) j';
  runs_across : forall i i' j j', (i < i')%nat -> env_now (envs i) j <= env_now (envs i') j';
  runs_fits : forall i j, expiry_fits ttl (env_now (envs i) j);
}.

(** So does the clock of the system while its ticks do not go back. *)
Lemma system_clock_runs tpm ttl envs (clock : nat -> nat -> SystemClock) :
  0 < tpm -> (forall i j, env_now (envs i) j = SystemClock_Now tpm (clock i j)) ->
  (forall i j j', (j <= j')%nat -> time_since_epoch (clock i j) <= time_since_epoch (clock i j')) ->
  (forall i i' j j', (i < i')%nat -> time_since_epoch (clock i j) <= time_since_epoch (clock i' j')) ->
  (forall i j, expiry_fits ttl (SystemClock_Now tpm (clock i j))) -> clock_runs ttl envs.
Proof.
  intros Hp He H1 H2 H3. split; intros; rewrite ?He; [|  |done];
    apply (now_mono tpm Hp); auto.
Qed.

(** The database has lived until [t], before everything the [j]th call of the
    next command and the commands after it will read. *)
Definition alive_until (filename : bytes) (ttl t : Timestamp) ideal envs (j : nat) st : Prop :=
  lifetime filename ttl (policy ttl) t ideal st
  /\ (forall j', (j <= j')%nat -> t <= env_now (envs O) j')
  /\ (forall i j', t <= env_now (envs (S i)) j').

Definition lives (filename : bytes) (ttl : Timestamp) envs (j : nat) st : Prop :=
  (forall i j, env_io (envs i) j = io_ok) /\ clock_runs ttl envs
  /\ exists t ideal, alive_until filename ttl t ideal envs j st.

Lemma lives_call filename ttl envs j m st :
  lives filename ttl envs j st -> policy ttl m ->
  lives filename ttl envs (S j) (mutate (env_io (envs O) j) (env_now (envs O) j) m st).1.
Proof.
  intros (Hd & Hc & t & ideal & Hl & H0 & H1) Hm. split_and!; [done|done|].
  rewrite Hd. set (now := env_now (envs O) j).
  assert (Hle : t <= now) by (apply H0; lia).
  assert (Hlater : (forall j', (S j <= j')%nat -> now <= env_now (envs O) j')
    /\ (forall i j', now <= env_now (envs (S i)) j')).
  { split; [intros j' Hj; apply (runs_within _ _ Hc); lia|].
    intros i j'. apply (runs_across _ _ Hc). lia. }
  pose proof (runs_fits _ _ Hc O j) as Hf. fold now in Hf.
  assert (Hv : valid_mutation m) by by destruct m.
  destruct (lifetime_inv _ _ _ _ _ _ (policy_covered ttl) Hl) as [es Hi].
  destruct (mutate io_ok now m st) as [st' r] eqn:Em. simpl.
  pose proof (life_inv_mutate _ _ _ _ _ _ _ _ _ _ _ (policy_covered ttl) Hle Hf Hv Hm Hi Em) as Hr.
  destruct r as [b|x|]; [| |done]; exists now; (eexists; split; [|exact Hlater]).
  - by eapply life_mutate.
  - by eapply life_throw.
Qed.

Lemma lives_next filename ttl envs j st :
  lives filename ttl envs j st -> lives filename ttl (fun i => envs (S i)) O st.
Proof.
  intros (Hd & [Hc1 Hc2 Hc3] & t & ideal & Hl & H0 & H1). split_and!.
  - by intros i.
  - split; intros; [by apply Hc1|apply Hc2; lia|done].
  - exists t, ideal. split_and!; [done|by intros j' _|done].
Qed.

Lemma lives_kept filename ttl :
  kept_by_calls (permits ttl) (policy ttl) (lives filename ttl).
Proof.
  split.
  - intros envs j m st. apply lives_call.
  - intros envs j st. apply lives_next.
  - intros m. apply policy_plain.
  - intros c k k' Hp Hc. by apply (Hp c k k').
Qed.

(** ** The data file between two runs of the program *)

(** The file holds the data of [ideal], as of [t]: it does not exist yet, or a
    database has left it. *)
Inductive data_file (filename : bytes) (ttl t : Timestamp) : gmap bytes (@Spec.entry bytes) -> Disk -> Prop :=
  | no_file disk : disk !! db_file filename = None -> data_file filename ttl t ∅ disk
  | left_by ideal db disk :
      lifetime filename ttl (policy ttl) t ideal (db, disk) -> data_file filename ttl t ideal disk.

Lemma data_file_opened filename ttl t ideal io now disk disk' db :
  data_file filename ttl t ideal disk ->
  NewRadishDB_ttl io now filename ttl Flush disk = (disk', Ok db) ->
  lifetime filename ttl (policy ttl) t ideal (db, disk').
Proof.
  destruct 1 as [disk Hd|ideal db0 disk Hl]; intros Ho.
  - by eapply life_open.
  - by apply (life_restart _ _ _ t ideal io now (db0, disk)).
Qed.

(** A database opened on the file answers as the ideal. *)
Lemma data_file_answers filename ttl t ideal io now disk disk' db :
  data_file filename ttl t ideal disk ->
  NewRadishDB_ttl io now filename ttl Flush disk = (disk', Ok db) ->
  answers_as t ideal db.
Proof.
  intros Hf Ho. pose proof (data_file_opened _ _ _ _ _ _ _ _ _ Hf Ho) as Hl.
  destruct (lifetime_inv _ _ _ _ _ _ (policy_covered ttl) Hl) as [es Hi].
  apply agree_answers. apply (life_memory _ _ _ _ _ _ _ Hi).
Qed.

(** And it can be opened. *)
Lemma data_file_opens filename ttl t ideal now disk :
  data_file filename ttl t ideal disk ->
  exists disk' db, NewRadishDB_ttl (V := bytes) io_ok now filename ttl Flush disk = (disk', Ok db).
Proof.
  destruct 1 as [disk Hd|ideal db0 disk Hl].
  - rewrite open_fresh by done. by eexists _, _.
  - destruct (lifetime_inv _ _ _ _ _ _ (policy_covered ttl) Hl) as [es Hi].
    destruct (life_log _ _ _ _ _ _ _ Hi) as (content & Hd & Hlog). simpl in Hd.
    rewrite (open_existing now filename ttl disk content es [] Hd Hlog incomplete_nil).
    by eexists _, _.
Qed.

(** ** Shutdown *)

(** What the program leaves of the database its event loop has left. *)
Lemma shutdown_lives r arguments o ttl t t' ideal disk disk0 db0 server db diskw res disk' code :
  ParseOptions arguments = Ok o -> persistenceEnabled o = true ->
  open_database (run_io r) (run_now r) o disk = (disk0, Ok db0) ->
  NewTcpServer (run_host r) (bindAddress o) (port o) = Ok server ->
  event_loop r (Listener.Start server) (db0, disk0) = ((db, diskw), res) ->
  lifetime (dataFile o) ttl (policy ttl) t ideal (db, diskw) -> t <= t' ->
  (forall i, stop_now r i <= t') -> (forall k, stop_write_now r k <= t') ->
  map_iteration (stop_order r) -> main r arguments disk = (disk', code) ->
  lifetime (dataFile o) ttl (policy ttl) t' ideal (db, disk').
Proof.
  intros Ho Hon Hopen Hserver Hloop Hl Hle Hn Hn' Hord Hmain.
  unfold main, main_body in Hmain. rewrite Ho, Hopen, Hserver, Hloop, Hon in Hmain.
  destruct res as [[]|e|]; [|injection Hmain as <- <-; by eapply life_wait..].
  destruct (RadishDB.Compact _ _ _ _ (db, diskw)) as [st' rc] eqn:Ec.
  destruct (lifetime_inv _ _ _ _ _ _ (policy_covered ttl) Hl) as [es Hi].
  destruct (life_inv_compact _ _ _ _ _ _ _ _ _ _ _ _ _ _ (policy_covered ttl) Hle Hn Hn' Hord Hi Ec)
    as [Hdb' _].
  assert (Hl' : lifetime (dataFile o) ttl (policy ttl) t' ideal st') by by eapply life_compact.
  destruct st' as [db' d']. simpl in Hdb'. subst db'. replace disk' with d'; [done|].
  by destruct rc; injection Hmain as <- <-.
Qed.

End program.

(** ** Properties *)

(** C4: every run of the program takes the data file of one map to the data file
    of another: whatever its clients sent (no rename of a key to itself or, with
    a time to live, no rename), however they interleaved, whether the event loop
    was stopped or failed, and whatever the device did to the start and to the
    compaction at shutdown. The map is the one the database answered from when
    the event loop ended, and starting the program again finds a database that
    answers so too. *)
Theorem program_keeps_data r arguments o disk t ideal disk0 db0 server envs clients w res t'
    disk' code :
  ParseOptions arguments = Ok o -> persistenceEnabled o = true ->
  let ttl := default (-1) (Main.ttl o) in
  data_file (dataFile o) ttl t ideal disk ->
  open_database (run_io r) (run_now r) o disk = (disk0, Ok db0) ->
  reachable_service (permits ttl) (MkWorld (db0, disk0) envs) (clients, w) ->
  NewTcpServer (run_host r) (bindAddress o) (port o) = Ok server ->
  event_loop r (Listener.Start server) (db0, disk0) = (database w, res) ->
  (forall i j, env_io (envs i) j = io_ok) -> clock_runs ttl envs ->
  (forall i j, t <= env_now (envs i) j) -> env_now (surroundings w 0) 0 <= t' ->
  (forall i, stop_now r i <= t') -> (forall k, stop_write_now r k <= t') ->
  map_iteration (stop_order r) ->
  main r arguments disk = (disk', code) ->
  exists ideal', data_file (dataFile o) ttl t' ideal' disk'
    /\ answers_as t' ideal' (database w).1
    /\ forall now, exists db, open_database io_ok now o disk' = (disk', Ok db)
         /\ answers_as t' ideal' db.
Proof.
  intros Ho Hon ttl Hf Hopen Hr Hserver Hloop Hd Hc Ht Hw Hn Hn' Hord Hmain.
  assert (Hdb : forall io now d, open_database io now o d
    = NewRadishDB_ttl (V := bytes) io now (dataFile o) ttl Flush d).
  { intros. unfold open_database, persistence_mode, ttl. rewrite Hon. by destruct (Main.ttl o). }
  pose proof (data_file_opened _ _ _ _ _ _ _ _ _ Hf (eq_trans (eq_sym (Hdb _ _ _)) Hopen)) as Hl0.
  assert (Hs0 : served (lives (dataFile o) ttl) (MkWorld (db0, disk0) envs)).
  { split_and!; [done|done|]. exists t, ideal. split_and!; [done|by intros j _; apply Ht|by intros; apply Ht]. }
  destruct (served_service _ _ _ (lives_kept (dataFile o) ttl) _ _ Hs0 Hr)
    as (_ & _ & t1 & ideal1 & Hl1 & H1 & _). simpl in *.
  specialize (H1 0%nat ltac:(lia)). destruct (database w) as [dbw diskw] eqn:Ew.
  pose proof (shutdown_lives _ _ _ ttl t1 t' _ _ _ _ _ _ _ _ _ _ Ho Hon Hopen Hserver Hloop Hl1 ltac:(lia)
    Hn Hn' Hord Hmain) as Hl2.
  assert (Hfile : data_file (dataFile o) ttl t' ideal1 disk') by by eapply left_by.
  destruct (lifetime_inv _ _ _ _ _ _ (policy_covered ttl) Hl2) as [es Hi]. exists ideal1.
  split_and!; [done|apply agree_answers; apply (life_memory _ _ _ _ _ _ _ Hi)|].
  intros now. destruct (life_log _ _ _ _ _ _ _ Hi) as (content & Hd' & Hlog). simpl in Hd'.
  pose proof (open_existing now (dataFile o) ttl disk' content es [] Hd' Hlog incomplete_nil) as Hre.
  eexists. split; [rewrite Hdb; exact Hre|]. by eapply data_file_answers.
Qed.

(** C25: a start that fails (the file can not be opened, or the address can not be
    listened on) ends the program with status 1 and leaves an existing data file
    with the same data. *)
Theorem failed_start_keeps_data r arguments o disk t ideal disk' code :
  ParseOptions arguments = Ok o -> persistenceEnabled o = true ->
  let ttl := default (-1) (Main.ttl o) in
  is_Some (disk !! db_file (dataFile o)) -> data_file (dataFile o) ttl t ideal disk ->
  (forall db, (open_database (run_io r) (run_now r) o disk).2 <> Ok db)
  \/ (forall server, NewTcpServer (run_host r) (bindAddress o) (port o) <> Ok server) ->
  main r arguments disk = (disk', code) ->
  data_file (dataFile o) ttl t ideal disk' /\ (code <> Undefined -> code = Ok 1).
Proof.
  intros Ho Hon ttl [content Hd] Hf Hfail Hmain.
  assert (Hdb : forall io now d, open_database io now o d
    = NewRadishDB_ttl (V := bytes) io now (dataFile o) ttl Flush d).
  { intros. unfold open_database, persistence_mode, ttl. rewrite Hon. by destruct (Main.ttl o). }
  unfold main, main_body in Hmain. rewrite Ho in Hmain. rewrite Hdb in Hfail, Hmain.
  destruct (NewRadishDB_ttl _ _ _ _ _ disk) as [disk0 ro] eqn:Eo.
  destruct (open_any_io _ _ _ _ _ _ _ _ Hd Eo) as [-> _].
  destruct ro as [db|e|]; [|by injection Hmain as <- <-..].
  destruct Hfail as [Hfail|Hfail]; [by destruct (Hfail db)|].
  destruct (NewTcpServer _ _ _) as [server|e|]; [by destruct (Hfail server)|by injection Hmain as <- <-..].
Qed.

(** ** Witnesses *)

(** A program with the data file "d" and a time to live of one minute, whose
    only client stores one key. *)
Definition program_arguments : list bytes :=
  [str "radish-server"; str "--data-file"; str "d"; str "--ttl-ms"; str "60000"].

Definition program_options : ServerOptions :=
  MkOptions (str "127.0.0.1") (str "d") 6379 (Some 60000) true.

Definition set_a : list bytes := [str "SET"; str "a"; str "1"].

Definition program_read (st : RadishDB bytes * Disk) : Session * World * result unit :=
  on_read (EncodeCommand set_a) (StartSession NewSession) (MkWorld st (fun _ => env_example)).

Definition program_example : Run :=
  MkRun io_ok (fun _ => 0) host_example (fun _ st => (database (program_read st).1.2, Ok tt))
    io_ok (fun _ => 7) (fun _ => 7) (fun m => map_to_list m).

Lemma program_clock : clock_runs 60000 (fun _ => env_example).
Proof. split; intros; simpl; [lia|lia|right; by vm_compute]. Qed.

Lemma program_keeps_data_witness :
  let disk' := (main program_example program_arguments ∅).1 in
  exists db, open_database io_ok (fun _ => 9) program_options disk' = (disk', Ok db)
    /\ Get 60004 (str "a") db = Some (str "1") /\ Get 60005 (str "a") db = None.
Proof.
  intros disk'. pose (st0 := (fresh_db 60000)).
  destruct (program_keeps_data program_example program_arguments program_options ∅ 0 ∅ st0.2 st0.1
    (MkServer (Some (MkEndpoint (str "127.0.0.1") 6379)) false false 0)
    (fun _ => env_example) (<[0%nat := (program_read st0).1.1]>
      (<[0%nat := StartSession NewSession]> ∅)) (program_read st0).1.2 (Ok tt) 7 disk' (Ok 0))
    as (ideal & _ & Hnow & Hnext).
  - vm_compute. reflexivity.
  - reflexivity.
  - apply no_file. reflexivity.
  - vm_compute. reflexivity.
  - eapply service_next; [eapply service_next; [apply service_start|]|].
    + apply service_accept. reflexivity.
    + apply (service_client _ 0 (StartSession NewSession)); [reflexivity|].
      apply (client_read _ (EncodeCommand set_a)); [reflexivity|by vm_compute| |].
      * vm_compute. repeat constructor. intros c k k' [= <- <- <-] Hc. discriminate Hc.
      * vm_compute. reflexivity.
  - reflexivity.
  - reflexivity.
  - reflexivity.
  - exact program_clock.
  - intros i j. by vm_compute.
  - by vm_compute.
  - intros i. by vm_compute.
  - intros k. by vm_compute.
  - intros events. reflexivity.
  - apply result_pair. vm_compute. reflexivity.
  - destruct (Hnext (fun _ => 9)) as (db & Hdb & Hans). exists db. split; [exact Hdb|].
    assert (Hget : forall now, 7 <= now ->
      Get now (str "a") db = Get now (str "a") (database (program_read st0).1.2).1).
    { intros now Hle.
      destruct (Hans (fun _ => now) _ (fun _ => Hle) (reflexivity _)) as [Hk _].
      destruct (Hnow (fun _ => now) _ (fun _ => Hle) (reflexivity _)) as [Hk' _].
      destruct (Hk (str "a")) as [-> _]. destruct (Hk' (str "a")) as [-> _]. reflexivity. }
    split; (rewrite Hget; [vm_compute; reflexivity|discriminate]).
Defined.

Lemma failed_start_keeps_data_witness :
  let stopped := MkRun io_ok (fun _ => 8)
    (MkHost (fun text => Some text) true true (fun _ => None) true)
    (fun _ st => (st, Ok tt)) io_ok (fun _ => 8) (fun _ => 8) (fun m => map_to_list m) in
  exists ideal, data_file (str "d") 60000 25 ideal (fresh_db 60000).2
    /\ data_file (str "d") 60000 25 ideal (main stopped program_arguments (fresh_db 60000).2).1.
Proof.
  intros stopped. exists ∅.
  assert (Hf : data_file (str "d") 60000 25 ∅ (fresh_db 60000).2).
  { apply (left_by _ _ _ _ (fresh_db 60000).1).
    apply (life_open _ _ _ _ io_ok (fun _ => 0) ∅); [reflexivity|vm_compute; reflexivity]. }
  split; [exact Hf|].
  apply (failed_start_keeps_data stopped program_arguments program_options (fresh_db 60000).2 25 ∅ _
    (Ok 1)).
  - vm_compute. reflexivity.
  - reflexivity.
  - vm_compute. by eexists.
  - exact Hf.
  - right. intros server. discriminate.
  - apply result_pair. vm_compute. reflexivity.
Defined.
