(* ===== verification/BenchmarkStatistics.v ===== *)
(** include/benchmark/BenchmarkStatistics.h: the figures of a benchmark run.

    A [double] is a binary64 number of [SpecFloat], whose operations round to
    the nearest as IEEE 754 asks; nanoseconds are 64-bit integers. *)

From Stdlib Require Import Floats.SpecFloat.
From stdpp Require Import sorting.
From S2P Require Import Prelude.
Open Scope Z_scope.

Abbreviation double := spec_float.

Definition double_of_Z (n : Z) : double := binary_normalize 53 1024 n 0 false.

Definition double_mul : double -> double -> double := SFmul 53 1024.
Definition double_div : double -> double -> double := SFdiv 53 1024.

(** The literals [0.50], [0.99] and [0.995]. *)
Definition literal_50 : double := Eval vm_compute in double_div (double_of_Z 50) (double_of_Z 100).
Definition literal_99 : double := Eval vm_compute in double_div (double_of_Z 99) (double_of_Z 100).
Definition literal_995 : double := Eval vm_compute in double_div (double_of_Z 995) (double_of_Z 1000).

Record BenchmarkStatistics := MkStatistics {
  operations : Z;
  errors : Z;
  throughput : double;
  minimumMilliseconds : double;
  meanMilliseconds : double;
  p50Milliseconds : double;
  p99Milliseconds : double;
  p995Milliseconds : double;
  maximumMilliseconds : double;
}.

(** [duration<double, std::milli>(value).count()]. *)
Definition BenchmarkMilliseconds (value : Z) : double :=
  double_div (double_of_Z value) (double_of_Z 1000000).

(** [static_cast<std::size_t>(std::ceil(x))], undefined when the result does not
    fit. *)
Definition ceil_size (x : double) : result Z :=
  match x with
  | S754_zero _ => Ok 0
  | S754_finite s m e =>
      let m := if s then Z.neg m else Z.pos m in
      let n := if 0 <=? e then m * 2 ^ e else - ((- m) / 2 ^ (- e)) in
      if (0 <=? n) && (n <? 2 ^ 64) then Ok n else Undefined
  | _ => Undefined
  end.

Definition BenchmarkPercentile (samples : list Z) (percentile : double) : result Z :=
  let! rank := ceil_size (double_mul percentile (double_of_Z (zlen samples))) in
  deref (samples !! Z.to_nat (Z.max rank 1 - 1)).

Definition CalculateBenchmarkStatistics (samples : list Z) (errors : Z)
    (durationSeconds : double) : result BenchmarkStatistics :=
  throw! invalid_argument (str "Benchmark statistics require samples and positive duration")
    when bool_decide (samples = []) || SFleb durationSeconds (S754_zero false) in
  let samples := merge_sort Z.le samples in
  let total := fold_left add_ll samples 0 in
  let! front := deref (head samples) in
  let! p50 := BenchmarkPercentile samples literal_50 in
  let! p99 := BenchmarkPercentile samples literal_99 in
  let! p995 := BenchmarkPercentile samples literal_995 in
  let! back := deref (last samples) in
  Ok (MkStatistics (zlen samples) errors
        (double_div (double_of_Z (zlen samples)) durationSeconds)
        (BenchmarkMilliseconds front)
        (double_div (BenchmarkMilliseconds total) (double_of_Z (zlen samples)))
        (BenchmarkMilliseconds p50) (BenchmarkMilliseconds p99) (BenchmarkMilliseconds p995)
        (BenchmarkMilliseconds back)).

(** The unit test of the repository. *)
Example four_samples :
  CalculateBenchmarkStatistics [4000000; 1000000; 3000000; 2000000] 2 (double_of_Z 2)
  = Ok (MkStatistics 4 2 (double_of_Z 2) (double_of_Z 1)
      (double_div (double_of_Z 5) (double_of_Z 2)) (double_of_Z 2) (double_of_Z 4) (double_of_Z 4)
      (double_of_Z 4)).
Proof. vm_compute. reflexivity. Qed.

(** ** Rounding *)

Lemma digits_bounds (p : positive) :
  2 ^ (Z.pos (digits2_pos p) - 1) <= Z.pos p < 2 ^ Z.pos (digits2_pos p).
Proof.
  induction p as [p IH|p IH|]; cbn [digits2_pos]; [| |done].
  all: rewrite Pos2Z.inj_succ, Z.pow_succ_r by lia.
  all: replace (Z.succ (Z.pos (digits2_pos p)) - 1) with (Z.succ (Z.pos (digits2_pos p) - 1)) by lia.
  all: rewrite Z.pow_succ_r by lia; lia.
Qed.

Lemma digits_unique m d : 0 < d -> 2 ^ (d - 1) <= m < 2 ^ d -> Zdigits2 m = d.
Proof.
  intros Hd [Hl Hu]. assert (0 < 2 ^ (d - 1)) by (apply Z.pow_pos_nonneg; lia).
  destruct m as [|p|p]; [lia| |lia]. simpl. pose proof (digits_bounds p) as [H1 H2].
  assert (Z.pos (digits2_pos p) - 1 < d) by (apply (Z.pow_lt_mono_r_iff 2); lia).
  assert (d - 1 < Z.pos (digits2_pos p)) by (apply (Z.pow_lt_mono_r_iff 2); lia).
  lia.
Qed.

Lemma iter_pos_nat {A} (f : A -> A) p x : SpecFloat.iter_pos f p x = Nat.iter (Pos.to_nat p) f x.
Proof.
  revert x. induction p as [p IH|p IH|]; intros x; cbn [SpecFloat.iter_pos]; [| |done].
  - rewrite !IH, <- Nat.iter_add, <- Nat.iter_succ_r. f_equal. lia.
  - rewrite !IH, <- Nat.iter_add. f_equal. lia.
Qed.

Lemma shr_1_eq q r s :
  0 <= q -> shr_1 (Build_shr_record q r s) = Build_shr_record (q / 2) (Z.odd q) (r || s).
Proof. rewrite <- Z.div2_div. by destruct q as [|[p|p|]|]. Qed.

(** [k] steps of the shift divide by [2 ^ k]; the flags say whether a part was
    lost. *)
Lemma shr_steps n m :
  0 <= m ->
  let r := Nat.iter n shr_1 (Build_shr_record m false false) in
  shr_m r = m / 2 ^ Z.of_nat n
  /\ (m mod 2 ^ Z.of_nat n = 0 -> shr_r r = false /\ shr_s r = false).
Proof.
  intros Hm. induction n as [|n [IH1 IH2]]; [by rewrite Z.div_1_r|].
  cbn [Nat.iter nat_rect]. cbv zeta. change (nat_rect _ _ _ n) with (Nat.iter n shr_1 (Build_shr_record m false false)) in *.
  destruct (Nat.iter n shr_1 (Build_shr_record m false false)) as [q r s]. cbn [shr_m shr_r shr_s] in IH1, IH2.
  rewrite Nat2Z.inj_succ, Z.pow_succ_r by lia.
  assert (Hp : 0 < 2 ^ Z.of_nat n) by (apply Z.pow_pos_nonneg; lia).
  assert (Hq : 0 <= q) by (subst q; apply Z.div_pos; lia).
  rewrite (Z.mul_comm 2), <- Z.div_div, <- IH1 by lia.
  rewrite shr_1_eq by done. cbn [shr_m shr_r shr_s]. split; [done|].
  intros Hmod. rewrite Z.rem_mul_r in Hmod by lia. rewrite <- IH1 in Hmod.
  pose proof (Z.mod_pos_bound m (2 ^ Z.of_nat n) Hp). pose proof (Z.mod_pos_bound q 2 ltac:(lia)).
  destruct (IH2 ltac:(nia)) as [-> ->]. split; [|done].
  rewrite Zodd_mod. assert (q mod 2 = 0) as -> by nia. done.
Qed.

Lemma shr_fexp_shift m e k :
  0 < k -> 2 ^ (52 + k) <= m < 2 ^ (53 + k) -> -1074 <= e + k ->
  shr_fexp 53 1024 m e loc_Exact
  = (Nat.iter (Z.to_nat k) shr_1 (Build_shr_record m false false), e + k).
Proof.
  intros Hk Hm He. unfold shr_fexp.
  rewrite (digits_unique m (53 + k)) by (replace (53 + k - 1) with (52 + k) by lia; lia).
  assert (fexp 53 1024 (53 + k + e) - e = k) as -> by (unfold fexp, emin; lia).
  destruct k as [|p|p]; [lia| |lia]. unfold shr. rewrite iter_pos_nat, Z2Nat.inj_pos. done.
Qed.

Lemma shr_fexp_none m e :
  2 ^ 52 <= m < 2 ^ 53 -> -1074 <= e ->
  shr_fexp 53 1024 m e loc_Exact = (Build_shr_record m false false, e).
Proof.
  intros Hm He. unfold shr_fexp. rewrite (digits_unique m 53) by lia.
  assert (fexp 53 1024 (53 + e) - e = 0) as -> by (unfold fexp, emin; lia). done.
Qed.

(** A product is rounded to one of its neighbours, and to itself if it is
    representable. *)
Lemma round_neighbour m e k :
  0 < k -> 2 ^ (52 + k) <= m < 2 ^ (53 + k) -> -1074 <= e + k -> e + k <= 970 ->
  exists q m' c,
    (q = m / 2 ^ k \/ (q = m / 2 ^ k + 1 /\ m mod 2 ^ k <> 0))
    /\ 0 <= c <= 1 /\ Z.pos m' * 2 ^ c = q
    /\ binary_round_aux 53 1024 false m e loc_Exact = S754_finite false m' (e + k + c).
Proof.
  intros Hk Hm He He'. unfold binary_round_aux. rewrite (shr_fexp_shift m e k) by done.
  destruct (shr_steps (Z.to_nat k) m) as [H1 H2]; [lia|]. rewrite Z2Nat.id in H1, H2 by lia.
  set (r := Nat.iter _ _ _) in *.
  assert (Hp : 0 < 2 ^ k) by (apply Z.pow_pos_nonneg; lia).
  rewrite !Z.pow_add_r in Hm by lia.
  assert (Hf : 2 ^ 52 <= m / 2 ^ k < 2 ^ 53)
    by (split; [apply Z.div_le_lower_bound|apply Z.div_lt_upper_bound]; lia).
  set (q := round_nearest_even (shr_m r) (loc_of_shr_record r)).
  assert (Hq : q = m / 2 ^ k \/ (q = m / 2 ^ k + 1 /\ m mod 2 ^ k <> 0)).
  { subst q. destruct r as [rm rr rs]. cbn [shr_m shr_r shr_s] in *. subst rm.
    destruct rr, rs; simpl; auto; try case_match; auto; right; (split; [done|]);
      intros E; by destruct (H2 E). }
  exists q. assert (q < 2 ^ 53 \/ q = 2 ^ 53) as [Hlt|Heq] by lia.
  - exists (Z.to_pos q), 0. split; [done|]. split; [lia|]. split; [rewrite Z2Pos.id; lia|].
    rewrite shr_fexp_none by lia. cbn [shr_m]. destruct q as [|p|p]; [lia| |lia].
    rewrite (proj2 (Z.leb_le _ _)) by lia. by rewrite Z.add_0_r.
  - exists (2 ^ 52)%positive, 1. split; [done|]. split; [lia|]. split; [by rewrite Heq|].
    rewrite Heq, (shr_fexp_shift (2 ^ 53) (e + k) 1) by (simpl; lia).
    change (shr_m _) with (2 ^ 52). cbn [Z.pow Z.pow_pos]. change (2 ^ 52) with (Z.pos (2 ^ 52)).
    by rewrite (proj2 (Z.leb_le _ _)) by lia.
Qed.

Lemma iter_double p k : Z.pos (Pos.iter xO p k) = Z.pos p * 2 ^ Z.pos k.
Proof.
  induction k as [|k IH] using Pos.peano_ind; [simpl; lia|].
  rewrite Pos.iter_succ, Pos2Z.inj_succ, Z.pow_succ_r, Pos2Z.inj_xO, IH by lia. lia.
Qed.

Lemma double_of_Z_eq n d :
  0 < d < 53 -> 2 ^ (d - 1) <= n < 2 ^ d ->
  exists mn, Z.pos mn = n * 2 ^ (53 - d) /\ double_of_Z n = S754_finite false mn (d - 53).
Proof.
  intros Hd Hn. pose proof (digits_unique n d (proj1 Hd) Hn) as Hdig.
  assert (0 < 2 ^ (d - 1)) by (apply Z.pow_pos_nonneg; lia).
  destruct n as [|p|p]; [lia| |lia].
  unfold double_of_Z, binary_normalize, binary_round. change (Z.pos (digits2_pos p)) with (Zdigits2 (Z.pos p)).
  rewrite Hdig. assert (fexp 53 1024 (d + 0) = d - 53) as -> by (unfold fexp, emin; lia).
  unfold shl_align. destruct (d - 53 - 0) as [|k|k] eqn:Ek; [lia|lia|].
  exists (Pos.iter xO p k). replace (53 - d) with (Z.pos k) by lia. split; [apply iter_double|].
  assert (Hm : 2 ^ 52 <= Z.pos (Pos.iter xO p k) < 2 ^ 53).
  { rewrite iter_double. replace (Z.pos k) with (53 - d) by lia.
    assert (2 ^ 52 = 2 ^ (d - 1) * 2 ^ (53 - d)) by (rewrite <- Z.pow_add_r by lia; f_equal; lia).
    assert (2 ^ 53 = 2 ^ d * 2 ^ (53 - d)) by (rewrite <- Z.pow_add_r by lia; f_equal; lia).
    assert (0 < 2 ^ (53 - d)) by (apply Z.pow_pos_nonneg; lia). nia. }
  cbv beta iota. unfold binary_round_aux. rewrite shr_fexp_none by first [exact Hm|lia].
  cbn [shr_m loc_of_shr_record round_nearest_even shr_r shr_s].
  rewrite shr_fexp_none by first [exact Hm|lia]. cbn [shr_m]. by rewrite (proj2 (Z.leb_le _ _)) by lia.
Qed.

(** The 53 leading bits [mp] of the fraction [num / den]. *)
Definition fraction (num den : Z) (mp : positive) : Prop :=
  0 < num <= den /\ den <= 1000 /\ 2 ^ 52 <= Z.pos mp < 2 ^ 53
  /\ 0 <= num * 2 ^ 53 - den * Z.pos mp < den.

(** The nearest rank of the percentile [num / den] among [n] samples. *)
Definition nearest_rank (num den n : Z) : Z := - ((- (num * n)) / den).

Lemma nearest_rank_spec num den n :
  0 < den -> den * (nearest_rank num den n - 1) < num * n <= den * nearest_rank num den n.
Proof.
  intros Hd. unfold nearest_rank.
  pose proof (Z.div_mod (- (num * n)) den ltac:(lia)). pose proof (Z.mod_pos_bound (- (num * n)) den Hd).
  nia.
Qed.

Lemma ceil_between m e r :
  e <= 0 -> 0 <= r < 2 ^ 64 -> (r - 1) * 2 ^ (- e) < Z.pos m <= r * 2 ^ (- e) ->
  ceil_size (S754_finite false m e) = Ok r.
Proof.
  intros He Hr Hm. assert (Hp : 0 < 2 ^ (- e)) by (apply Z.pow_pos_nonneg; lia).
  assert (Hn : (if 0 <=? e then Z.pos m * 2 ^ e else - ((- Z.pos m) / 2 ^ (- e))) = r).
  { destruct (Z.leb_spec 0 e) as [H0|H0].
    - replace e with 0 in * by lia. change (2 ^ (- 0)) with 1 in Hm. lia.
    - assert ((- Z.pos m) / 2 ^ (- e) = - r); [|lia].
      symmetry. apply (Z.div_unique _ _ _ (r * 2 ^ (- e) - Z.pos m)); nia. }
  unfold ceil_size. cbv zeta. rewrite Hn.
  by rewrite (proj2 (Z.leb_le _ _)), (proj2 (Z.ltb_lt _ _)) by lia.
Qed.

(** What a neighbour of [m / P] lies between. *)
Lemma neighbour_between m P q lo hi :
  0 < P -> lo * P + P <= m <= hi * P ->
  q = m / P \/ (q = m / P + 1 /\ m mod P <> 0) -> lo < q <= hi.
Proof.
  intros HP Hm Hq. pose proof (Z.div_mod m P ltac:(lia)). pose proof (Z.mod_pos_bound m P HP).
  assert (lo + 1 <= m / P) by (apply Z.div_le_lower_bound; lia).
  assert (m / P <= hi) by nia. destruct Hq as [->|[-> Hne]]; [lia|].
  assert (m / P <> hi) by (intros E; rewrite E in *; nia). lia.
Qed.

(** The product of the literal and the size, and the neighbours of the rank. *)
Lemma product_bounds num den mp n d :
  fraction num den mp -> 1 <= n < 2 ^ 40 -> 0 < d <= 40 -> n < 2 ^ d -> 2 ^ (d - 1) <= n ->
  let r := nearest_rank num den n in
  (r - 1) * 2 ^ 53 + 2 ^ d <= Z.pos mp * n <= r * 2 ^ 53 /\ 0 <= r < 2 ^ 64.
Proof.
  intros (Hnum & Hden & _ & Hc) Hn Hd Hnd Hdn r.
  pose proof (nearest_rank_spec num den n ltac:(lia)) as Hr. fold r in Hr.
  assert (H2d : 2 ^ d <= 2 ^ 40) by (apply Z.pow_le_mono_r; lia).
  change (2 ^ 53) with 9007199254740992 in *. change (2 ^ 40) with 1099511627776 in *.
  change (2 ^ 64) with 18446744073709551616.
  assert (Hup : den * (Z.pos mp * n) <= den * (r * 9007199254740992)) by nia.
  assert (Hlo : den * ((r - 1) * 9007199254740992 + 2 ^ d) <= den * (Z.pos mp * n)).
  { assert (num * n * 9007199254740992 - (den - 1) * n <= den * (Z.pos mp * n)) by nia.
    assert (den * 2 ^ d <= 1000 * 1099511627776) by nia.
    assert ((den - 1) * n <= 999 * 1099511627776) by nia. lia. }
  split; [nia|]. nia.
Qed.

(** The rank computed in floating point is the exact one. *)
Lemma rank_exact num den mp n :
  fraction num den mp -> 1 <= n < 2 ^ 40 ->
  ceil_size (double_mul (S754_finite false mp (-53)) (double_of_Z n)) = Ok (nearest_rank num den n).
Proof.
  intros Hf Hn. pose (d := Z.log2 n + 1).
  assert (Hd : 2 ^ (d - 1) <= n < 2 ^ d).
  { unfold d. replace (Z.log2 n + 1 - 1) with (Z.log2 n) by lia. rewrite Z.add_1_r. apply Z.log2_spec. lia. }
  assert (Hd' : 0 < d <= 40).
  { unfold d. pose proof (Z.log2_nonneg n). pose proof (proj1 (Z.log2_lt_pow2 n 40 ltac:(lia)) ltac:(lia)). lia. }
  destruct (double_of_Z_eq n d ltac:(lia) Hd) as (mn & Hmn & ->).
  destruct (product_bounds num den mp n d Hf Hn Hd' ltac:(lia) ltac:(lia)) as [Hb Hr].
  set (r := nearest_rank num den n) in *. destruct Hf as (_ & _ & Hmp & _).
  assert (HW : 0 < 2 ^ (53 - d)) by (apply Z.pow_pos_nonneg; lia).
  assert (H53 : 2 ^ d * 2 ^ (53 - d) = 2 ^ 53) by (rewrite <- Z.pow_add_r by lia; f_equal; lia).
  assert (H52 : 2 ^ (d - 1) * 2 ^ (53 - d) = 2 ^ 52) by (rewrite <- Z.pow_add_r by lia; f_equal; lia).
  set (W := 2 ^ (53 - d)) in *.
  assert (Hmn' : 2 ^ 52 <= Z.pos mn < 2 ^ 53) by nia.
  set (m := Z.pos (mp * mn)). assert (Hm : m = Z.pos mp * n * W) by (unfold m; rewrite Pos2Z.inj_mul, Hmn; lia).
  assert (Hk : exists k, 52 <= k <= 53 /\ 2 ^ (52 + k) <= m < 2 ^ (53 + k)).
  { unfold m. rewrite Pos2Z.inj_mul. destruct (Z.lt_ge_cases (Z.pos mp * Z.pos mn) (2 ^ 105)).
    - exists 52. split; [lia|]. change (2 ^ (52 + 52)) with (2 ^ 52 * 2 ^ 52). change (2 ^ (53 + 52)) with (2 ^ 105). nia.
    - exists 53. split; [lia|]. change (2 ^ (52 + 53)) with (2 ^ 105). change (2 ^ (53 + 53)) with (2 ^ 53 * 2 ^ 53). nia. }
  destruct Hk as (k & Hk & Hmk). unfold double_mul, SFmul. cbn [xorb]. fold m.
  destruct (round_neighbour m (-53 + (d - 53)) k ltac:(lia) Hmk ltac:(lia) ltac:(lia))
    as (q & m' & c & Hq & Hc & Hm' & ->).
  assert (HP : 0 < 2 ^ k <= 2 ^ 53) by (split; [apply Z.pow_pos_nonneg|apply Z.pow_le_mono_r]; lia).
  set (T := 2 ^ (- (-53 + (d - 53) + k + c))).
  assert (HT : T * 2 ^ c * 2 ^ k = 2 ^ 53 * W).
  { unfold T, W. rewrite <- !Z.pow_add_r by lia. f_equal. lia. }
  assert (H2c : 0 < 2 ^ c) by (apply Z.pow_pos_nonneg; lia).
  assert (Hqr : (r - 1) * (T * 2 ^ c) < q <= r * (T * 2 ^ c)).
  { apply (neighbour_between m (2 ^ k)); [lia| |exact Hq]. rewrite <- !Z.mul_assoc, (Z.mul_assoc T), HT, Hm. nia. }
  apply ceil_between; [lia|exact Hr|]. fold T. rewrite <- Hm', !Z.mul_assoc in Hqr.
  split; [apply (Z.mul_lt_mono_pos_r (2 ^ c))|apply (Z.mul_le_mono_pos_r _ _ (2 ^ c))]; lia.
Qed.

Lemma fraction_50 : exists mp, literal_50 = S754_finite false mp (-53) /\ fraction 1 2 mp.
Proof. eexists. split; [reflexivity|]. by vm_compute. Qed.

Lemma fraction_99 : exists mp, literal_99 = S754_finite false mp (-53) /\ fraction 99 100 mp.
Proof. eexists. split; [reflexivity|]. by vm_compute. Qed.

Lemma fraction_995 : exists mp, literal_995 = S754_finite false mp (-53) /\ fraction 995 1000 mp.
Proof. eexists. split; [reflexivity|]. by vm_compute. Qed.

(** ** Percentiles *)

(** [a] is the percentile [num / den] of the samples: at least that part of them
    is at most [a], and less than that part is below [a]. *)
Definition is_percentile (num den : Z) (samples : list Z) (a : Z) : Prop :=
  a ∈ samples
  /\ num * zlen samples <= den * zlen (filter (fun x => x <= a) samples)
  /\ den * zlen (filter (fun x => x < a) samples) < num * zlen samples.

Lemma filter_all {A} (P : A -> Prop) `{forall x, Decision (P x)} l : Forall P l -> filter P l = l.
Proof.
  induction 1 as [|x l Hx _ IH]; [done|]. by rewrite filter_cons, decide_True, IH.
Qed.

Lemma filter_none {A} (P : A -> Prop) `{forall x, Decision (P x)} l :
  Forall (fun x => ~ P x) l -> filter P l = [].
Proof.
  induction 1 as [|x l Hx _ IH]; [done|]. by rewrite filter_cons, decide_False, IH.
Qed.

Lemma is_percentile_perm num den samples samples' a :
  samples ≡ₚ samples' -> is_percentile num den samples a -> is_percentile num den samples' a.
Proof.
  intros Hp. unfold is_percentile, zlen. by rewrite Hp.
Qed.

Lemma sorted_percentile num den samples a i :
  Sorted Z.le samples -> samples !! i = Some a ->
  den * Z.of_nat i < num * zlen samples <= den * (Z.of_nat i + 1) -> 0 < den ->
  is_percentile num den samples a.
Proof.
  intros Hs%Sorted_StronglySorted Hi Hr Hd; [|exact Z.le_trans].
  pose proof (list_elem_of_lookup_2 _ _ _ Hi) as Ha.
  rewrite <- (take_drop_middle _ _ _ Hi) in Hs. pose proof (take_drop_middle _ _ _ Hi) as E.
  assert (Hlen : length (take i samples) = i) by (apply length_take_le; apply lookup_lt_Some in Hi; lia).
  set (low := take i samples) in *. set (high := drop (S i) samples) in *.
  apply StronglySorted_app in Hs as (Hlow & _ & Hhigh).
  split; [done|]. rewrite <- E at 2 3. rewrite !filter_app, !filter_cons.
  rewrite decide_True, decide_False by lia.
  rewrite (filter_all (fun x => x <= a) low) by (apply Forall_forall; intros x Hx; apply (Hlow x a); [done|by left]).
  rewrite (filter_none (fun x => x < a) high).
  2: { apply StronglySorted_inv in Hhigh as [_ Hf]. eapply Forall_impl; [exact Hf|]. simpl. lia. }
  pose proof (length_filter (fun x => x < a) low). rewrite !zlen_app, zlen_cons, zlen_nil.
  unfold zlen at 2 4. rewrite Hlen. pose proof (zlen_nonneg (filter (fun x => x <= a) high)).
  split; [nia|].
  assert (Hle : Z.of_nat (length (filter (fun x => x < a) low)) <= Z.of_nat i) by lia. nia.
Qed.

Lemma percentile_ok num den mp samples :
  fraction num den mp -> Sorted Z.le samples -> samples <> [] -> zlen samples < 2 ^ 40 ->
  exists a, BenchmarkPercentile samples (S754_finite false mp (-53)) = Ok a
    /\ is_percentile num den samples a.
Proof.
  intros Hf Hs Hne Hl. assert (1 <= zlen samples) by (destruct samples; [done|zlen_solve]).
  unfold BenchmarkPercentile. rewrite (rank_exact num den) by (done || lia). cbn [rbind].
  destruct Hf as (Hnum & _). set (n := zlen samples) in *.
  pose proof (nearest_rank_spec num den n ltac:(lia)) as Hr. set (r := nearest_rank num den n) in *.
  assert (1 <= r <= n) by nia. rewrite Z.max_l by lia.
  destruct (lookup_lt_is_Some_2 samples (Z.to_nat (r - 1))) as [a Ha]; [unfold n, zlen in *; lia|].
  exists a. rewrite Ha. split; [done|]. eapply sorted_percentile; [done|exact Ha| |lia].
  fold n. rewrite Z2Nat.id by lia. replace (r - 1 + 1) with r by lia. exact Hr.
Qed.

(** ** The figures are finite *)

Lemma shr_1_m (r : shr_record) : 0 <= shr_m r -> shr_m (shr_1 r) = shr_m r / 2.
Proof. destruct r as [m b s]. rewrite <- Z.div2_div. intros Hm. by destruct m as [|[p|p|]|]. Qed.

Lemma shr_m_steps n (r : shr_record) :
  0 <= shr_m r -> shr_m (Nat.iter n shr_1 r) = shr_m r / 2 ^ Z.of_nat n.
Proof.
  intros Hm. induction n as [|n IH]; [by rewrite Z.div_1_r|].
  change (Nat.iter (S n) shr_1 r) with (shr_1 (Nat.iter n shr_1 r)).
  assert (Hp : 0 < 2 ^ Z.of_nat n) by (apply Z.pow_pos_nonneg; lia).
  rewrite shr_1_m by (rewrite IH; by apply Z.div_pos).
  rewrite IH, Nat2Z.inj_succ, Z.pow_succ_r, Z.div_div, Z.mul_comm by lia. done.
Qed.

Lemma shr_record_of_loc_m m l : shr_m (shr_record_of_loc m l) = m.
Proof. by destruct l as [|[]]. Qed.

Lemma digits_below m k : 0 <= m < 2 ^ k -> 0 <= k -> Zdigits2 m <= k.
Proof.
  intros Hm Hk. destruct m as [|p|p]; [done| |lia]. simpl.
  pose proof (digits_bounds p) as [H _].
  assert (Z.pos (digits2_pos p) - 1 < k) by (apply (Z.pow_lt_mono_r_iff 2); lia). lia.
Qed.

(** Shifting keeps a number below [2 ^ D]. *)
Lemma shr_fexp_below D m e l r e' :
  -1074 <= D -> e <= D -> 0 <= m < 2 ^ (D - e) -> shr_fexp 53 1024 m e l = (r, e') ->
  e <= e' <= D /\ 0 <= shr_m r < 2 ^ (D - e').
Proof.
  intros HD He Hm. pose proof (digits_below m (D - e) Hm ltac:(lia)) as Hdig.
  unfold shr_fexp. set (n := fexp _ _ _ - e).
  assert (Hn : n <= D - e) by (subst n; unfold fexp, emin; lia).
  unfold shr. destruct n as [|p|p] eqn:E; intros [= <- <-].
  - rewrite shr_record_of_loc_m. lia.
  - rewrite iter_pos_nat, shr_m_steps; rewrite shr_record_of_loc_m; [|lia].
    rewrite positive_nat_Z. assert (Hp : 0 < 2 ^ Z.pos p) by (apply Z.pow_pos_nonneg; lia).
    split; [lia|]. split; [by apply Z.div_pos; lia|]. apply Z.div_lt_upper_bound; [done|].
    rewrite <- Z.pow_add_r by lia. replace (Z.pos p + (D - (e + Z.pos p))) with (D - e) by lia. lia.
  - rewrite shr_record_of_loc_m. lia.
Qed.

(** A number below [2 ^ D] whose last bit is not below [2 ^ L]. *)
Definition within (L D : Z) (x : double) : Prop :=
  match x with
  | S754_zero _ => True
  | S754_finite _ m e => L <= e <= D /\ Z.pos m < 2 ^ (D - e)
  | _ => False
  end.

Lemma round_within L D s m e l :
  -1074 <= D <= 970 -> L <= e <= D -> 0 <= m < 2 ^ (D - e) ->
  within L (D + 1) (binary_round_aux 53 1024 s m e l).
Proof.
  intros HD He Hm. unfold binary_round_aux.
  destruct (shr_fexp 53 1024 m e l) as [r e1] eqn:E1.
  destruct (shr_fexp_below D m e l r e1 ltac:(lia) (proj2 He) Hm E1) as [He1 Hr].
  set (q := round_nearest_even _ _).
  assert (Hq : 0 <= q < 2 ^ (D + 1 - e1)).
  { assert (shr_m r <= q <= shr_m r + 1).
    { subst q. unfold round_nearest_even. repeat case_match; lia. }
    replace (D + 1 - e1) with (Z.succ (D - e1)) by lia. rewrite Z.pow_succ_r by lia. lia. }
  destruct (shr_fexp 53 1024 q e1 loc_Exact) as [r2 e2] eqn:E2.
  destruct (shr_fexp_below (D + 1) q e1 _ r2 e2 ltac:(lia) ltac:(lia) Hq E2) as [He2 Hr2].
  destruct (shr_m r2) as [|p|p]; [done| |lia].
  rewrite (proj2 (Z.leb_le _ _)) by lia. split; lia.
Qed.

Lemma div_within L D L' D' x y :
  within L D x -> within L' D' y -> SFeqb y (S754_zero false) = false ->
  -1074 <= D - L' <= 970 ->
  within (Z.min (-1074) (L - D')) (D - L' + 1) (double_div x y).
Proof.
  destruct y as [|?| |t m2 e2]; [done..|]. destruct x as [|?| |s m1 e1]; [done..|].
  cbn [within]. intros [He1 Hm1] [He2 _] _ HD. unfold double_div, SFdiv, SFdiv_core_binary.
  set (e' := Z.min _ (e1 - e2)). assert (He' : Z.min (-1074) (L - D') <= e' <= e1 - e2) by (subst e'; unfold fexp, emin; lia).
  set (m' := match e1 - e2 - e' with 0 => _ | Z.pos _ => _ | Z.neg _ => _ end).
  assert (Hm' : m' = Z.pos m1 * 2 ^ (e1 - e2 - e')).
  { subst m'. destruct (e1 - e2 - e') as [|p|p] eqn:E; [lia| |lia]. by rewrite Z.shiftl_mul_pow2. }
  pose proof (Z_div_mod m' (Z.pos m2) ltac:(lia)) as Hqr.
  destruct (Z.div_eucl m' (Z.pos m2)) as [q r]. destruct Hqr as [Hqr Hr].
  assert (Hp : 0 < 2 ^ (e1 - e2 - e')) by (apply Z.pow_pos_nonneg; lia).
  assert (Hpow : 2 ^ (D - e1) * 2 ^ (e1 - e2 - e') = 2 ^ (D - e2 - e'))
    by (rewrite <- Z.pow_add_r by lia; f_equal; lia).
  assert (Hle : 2 ^ (D - e2 - e') <= 2 ^ (D - L' - e')) by (apply Z.pow_le_mono_r; lia).
  apply round_within; [lia..|]. split; nia.
Qed.

Lemma double_of_Z_within n D : Z.abs n < 2 ^ D -> 0 <= D <= 970 -> within (-52) (D + 1) (double_of_Z n).
Proof.
  intros Hn HD. assert (Hround : forall s p, Z.pos p < 2 ^ D -> within (-52) (D + 1) (binary_round 53 1024 s p 0)).
  { intros s p Hp. unfold binary_round, shl_align.
    destruct (fexp 53 1024 _ - 0) as [|d|d] eqn:E; [apply round_within; rewrite ?Z.sub_0_r; lia..|].
    rewrite Z.sub_0_r in E. rewrite E. unfold fexp, emin in E. apply round_within; [lia..|].
    rewrite iter_double. replace (D - Z.neg d) with (D + Z.pos d) by lia. rewrite Z.pow_add_r by lia.
    assert (0 < 2 ^ Z.pos d) by (apply Z.pow_pos_nonneg; lia). nia. }
  unfold double_of_Z, binary_normalize. destruct n as [|p|p]; [done|apply Hround; lia|apply Hround; lia].
Qed.

Definition is_finite (x : double) : bool :=
  match x with S754_zero _ | S754_finite _ _ _ => true | _ => false end.

Lemma within_finite L D x : within L D x -> is_finite x = true.
Proof. by destruct x. Qed.

Lemma milliseconds_within n : in_ll n -> within (-1074) 118 (BenchmarkMilliseconds n).
Proof.
  intros Hn. unfold in_ll, LLONG_MIN, LLONG_MAX in Hn. unfold BenchmarkMilliseconds.
  exact (div_within _ _ _ _ _ _ (double_of_Z_within n 64 ltac:(change (2 ^ 64) with 18446744073709551616; lia)
    ltac:(lia)) (double_of_Z_within 1000000 64 eq_refl ltac:(lia)) eq_refl ltac:(lia)).
Qed.

Lemma add_ll_range a b : in_ll (add_ll a b).
Proof.
  pose proof (wrap_signed_range 8 (a + b) ltac:(lia)) as H.
  unfold in_ll, LLONG_MIN, LLONG_MAX, add_ll. cbn in H. lia.
Qed.

Lemma total_range samples acc : in_ll acc -> in_ll (fold_left add_ll samples acc).
Proof.
  revert acc. induction samples as [|x samples IH]; intros acc Ha; [done|]. apply IH, add_ll_range.
Qed.

(** All the figures of a run are finite numbers. *)
Definition figures (st : BenchmarkStatistics) : list double :=
  [throughput st; minimumMilliseconds st; meanMilliseconds st; p50Milliseconds st;
   p99Milliseconds st; p995Milliseconds st; maximumMilliseconds st].

Lemma percentile_in samples literal a : BenchmarkPercentile samples literal = Ok a -> a ∈ samples.
Proof.
  unfold BenchmarkPercentile. intros (r & _ & H)%rbind_ok.
  destruct (samples !! _) as [x|] eqn:E; [|done]. injection H as ->. by eapply list_elem_of_lookup_2.
Qed.

Lemma figures_finite samples errors_ seconds st :
  Forall in_ll samples -> zlen samples < 2 ^ 52 -> 0 <= seconds < 2 ^ 64 ->
  CalculateBenchmarkStatistics samples errors_ (double_of_Z seconds) = Ok st ->
  Forall (fun x => is_finite x = true) (figures st).
Proof.
  intros Hs Hl Hsec. unfold CalculateBenchmarkStatistics.
  set (sorted := merge_sort Z.le samples). intros [Hg H]%throw_ok. apply orb_false_elim in Hg as [Hne Hd].
  assert (Hin : forall x, x ∈ sorted -> in_ll x).
  { intros x Hx. unfold sorted in Hx. rewrite merge_sort_Permutation in Hx.
    by apply (proj1 (Forall_forall _ _) Hs). }
  assert (Hlen : 1 <= zlen sorted < 2 ^ 52).
  { assert (zlen sorted = zlen samples) as -> by (unfold zlen, sorted; by rewrite merge_sort_Permutation).
    destruct samples; [by rewrite bool_decide_eq_true_2 in Hne|]. zlen_solve. }
  assert (Hnz : SFeqb (double_of_Z (zlen sorted)) (S754_zero false) = false).
  { destruct (double_of_Z_eq (zlen sorted) (Z.log2 (zlen sorted) + 1)) as (m & _ & ->); [| |done].
    - pose proof (proj1 (Z.log2_lt_pow2 (zlen sorted) 52 ltac:(lia)) ltac:(lia)).
      pose proof (Z.log2_nonneg (zlen sorted)). lia.
    - rewrite Z.add_simpl_r, Z.add_1_r. apply Z.log2_spec. lia. }
  assert (Hn : within (-52) 65 (double_of_Z (zlen sorted)))
    by (apply (double_of_Z_within _ 64); [change (2 ^ 64) with (2 ^ 52 * 4096)|]; lia).
  inv_result. unfold figures. repeat apply Forall_cons_2; try apply Forall_nil_2.
  all: repeat match goal with
    | E : BenchmarkPercentile _ _ = Ok _ |- _ => apply percentile_in, Hin, milliseconds_within in E
    end.
  all: try by (eapply within_finite; eassumption).
  - eapply within_finite. eapply (div_within _ _ (-52) 65); [exact Hn| | |lia].
    + apply (double_of_Z_within _ 64); lia.
    + destruct (double_of_Z seconds) as [[]|[]| |[] m e] eqn:Ed; try done.
  - eapply within_finite, milliseconds_within, Hin.
    match goal with E : deref (head _) = Ok _ |- _ => destruct sorted; [done|injection E as <-; by left] end.
  - eapply within_finite. eapply (div_within _ _ (-52) 65); [|exact Hn|exact Hnz|].
    + by apply milliseconds_within, total_range.
    + lia.
  - eapply within_finite, milliseconds_within, Hin.
    match goal with E : deref (last _) = Ok _ |- _ =>
      destruct (last sorted) as [z|] eqn:El; [|done]; injection E as <-;
      apply last_Some in El as [l ->]; apply elem_of_app; right; by left end.
Qed.

Lemma statistics_counts samples errors_ duration st :
  CalculateBenchmarkStatistics samples errors_ duration = Ok st ->
  operations st = zlen samples /\ errors st = errors_.
Proof.
  unfold CalculateBenchmarkStatistics. intros [_ H]%throw_ok. inv_result.
  cbn [operations errors]. split; [|done]. unfold zlen. by rewrite merge_sort_Permutation.
Qed.

(** ** Property *)

(** C38: the statistics of a run are those of its samples, in whatever order
    they were taken: the smallest and the largest, and percentiles by nearest
    rank, which the rounding of the product in floating point never shifts (up
    to 2^40 samples); without samples or time there are none. *)
Theorem statistics_are_exact samples errors_ durationSeconds :
  (samples = [] \/ SFleb durationSeconds (S754_zero false) = true ->
   CalculateBenchmarkStatistics samples errors_ durationSeconds
   = Throw (invalid_argument (str "Benchmark statistics require samples and positive duration")))
  /\ (samples <> [] -> SFleb durationSeconds (S754_zero false) = false -> zlen samples < 2 ^ 40 ->
     exists st lo hi a b c,
       CalculateBenchmarkStatistics samples errors_ durationSeconds = Ok st
       /\ operations st = zlen samples /\ errors st = errors_
       /\ minimumMilliseconds st = BenchmarkMilliseconds lo
       /\ lo ∈ samples /\ Forall (fun x => lo <= x) samples
       /\ p50Milliseconds st = BenchmarkMilliseconds a /\ is_percentile 1 2 samples a
       /\ p99Milliseconds st = BenchmarkMilliseconds b /\ is_percentile 99 100 samples b
       /\ p995Milliseconds st = BenchmarkMilliseconds c /\ is_percentile 995 1000 samples c
       /\ maximumMilliseconds st = BenchmarkMilliseconds hi
       /\ hi ∈ samples /\ Forall (fun x => x <= hi) samples).
Proof.
  unfold CalculateBenchmarkStatistics. split.
  - intros [->| ->]; [done|]. by rewrite orb_true_r.
  - intros Hne Hd Hl. rewrite bool_decide_eq_false_2, Hd by done. cbn [orb throw_if rbind].
    pose proof (merge_sort_Permutation Z.le samples) as Hp.
    pose proof (Sorted_merge_sort Z.le samples) as Hs.
    set (sorted := merge_sort Z.le samples) in *.
    assert (Hne' : sorted <> []) by (intros E; rewrite E in Hp; by apply Permutation_nil_l in Hp).
    assert (Hl' : zlen sorted = zlen samples) by (unfold zlen; by rewrite Hp).
    rewrite <- Hl' in Hl |- *.
    destruct fraction_50 as (m1 & -> & F1), fraction_99 as (m2 & -> & F2), fraction_995 as (m3 & -> & F3).
    destruct (percentile_ok _ _ _ sorted F1 Hs Hne' Hl) as (a & -> & Ha).
    destruct (percentile_ok _ _ _ sorted F2 Hs Hne' Hl) as (b & -> & Hb).
    destruct (percentile_ok _ _ _ sorted F3 Hs Hne' Hl) as (c & -> & Hc).
    destruct sorted as [|lo rest] eqn:Es; [done|]. cbn [head deref rbind].
    destruct (last (lo :: rest)) as [hi|] eqn:Ehi; [|by rewrite last_None in Ehi].
    apply last_Some in Ehi as [init Ehi]. cbn [deref rbind].
    apply Sorted_StronglySorted in Hs; [|exact Z.le_trans].
    eexists _, lo, hi, a, b, c. split; [reflexivity|]. cbn [operations errors minimumMilliseconds
      p50Milliseconds p99Milliseconds p995Milliseconds maximumMilliseconds].
    split_and!; try done; try by (eapply is_percentile_perm; [exact Hp|]).
    + rewrite <- Hp. by left.
    + rewrite <- Hp. apply StronglySorted_inv in Hs as [_ Hs]. by constructor.
    + rewrite <- Hp, Ehi. apply elem_of_app. right. by left.
    + rewrite <- Hp, Ehi. rewrite Ehi in Hs. apply StronglySorted_app in Hs as (Hs & _).
      apply Forall_app. split; [|by repeat constructor]. apply Forall_forall. intros x Hx.
      apply Hs; [done|by left].
Qed.

(** ** Witness *)

Lemma statistics_are_exact_witness :
  exists st a, CalculateBenchmarkStatistics [4; 1; 3; 2] 2 (double_of_Z 2) = Ok st
    /\ p50Milliseconds st = BenchmarkMilliseconds a /\ is_percentile 1 2 [4; 1; 3; 2] a.
Proof.
  destruct (statistics_are_exact [4; 1; 3; 2] 2 (double_of_Z 2)) as [_ H].
  destruct H as (st & lo & hi & a & b & c & H1 & _ & _ & _ & _ & _ & H2 & H3 & _).
  - discriminate.
  - vm_compute. reflexivity.
  - vm_compute. reflexivity.
  - exists st, a. split; [exact H1|]. split; [exact H2|exact H3].
Defined.
