(* ===== verification/RadishBench.v ===== *)
(** benchmarks/RadishBench.cpp: the client of the benchmark, and what the server
    and its client make of each other.

    The bytes that will arrive on the socket are a list: reading takes from its
    front, and fails at its end as Asio does when the server closes the
    connection ([BenchRun.read] tells that from a server that stays silent, for
    which the read waits). The random draws of [BuildCommand] are arguments. A client's loop
    and what it measures are in [BenchRun], the threads in [BenchMain], the
    output files in [BenchReport]. *)

From S2P Require Import Prelude Decimal RespCodec TcpServer.

(** ** The options *)

Record Options := MkOptions {
  host : bytes;
  port : bytes;
  workload : bytes;
  outputPrefix : bytes;
  label : bytes;
  clients : Z;
  pipeline : Z;
  durationSeconds : Z;
  warmupSeconds : Z;
  keyCount : Z;
  keySize : Z;
  valueSize : Z;
  seed : Z;
  preload : bool;
}.

Definition default_options : Options :=
  MkOptions (str "127.0.0.1") (str "6379") (str "GET_HIT") (str "benchmark-result")
    (str "unspecified") 1 1 60 30 100000 32 128 1 true.

(** [static_cast<std::size_t>(std::stoull(value))]. *)
Definition stoull : bytes -> result Z := sto_unsigned (str "stoull") 64.

Definition parse_option (o : Options) (option value : bytes) : result Options :=
  let '(MkOptions h p wl out l c pi du wu kc ks vs se pre) := o in
  let named (name : string) := bool_decide (option = str name) in
  if named "--host" then Ok (MkOptions value p wl out l c pi du wu kc ks vs se pre)
  else if named "--port" then Ok (MkOptions h value wl out l c pi du wu kc ks vs se pre)
  else if named "--workload" then Ok (MkOptions h p value out l c pi du wu kc ks vs se pre)
  else if named "--clients" then
    let! n := stoull value in Ok (MkOptions h p wl out l n pi du wu kc ks vs se pre)
  else if named "--pipeline" then
    let! n := stoull value in Ok (MkOptions h p wl out l c n du wu kc ks vs se pre)
  else if named "--duration" then
    let! n := stoull value in Ok (MkOptions h p wl out l c pi n wu kc ks vs se pre)
  else if named "--warmup" then
    let! n := stoull value in Ok (MkOptions h p wl out l c pi du n kc ks vs se pre)
  else if named "--key-count" then
    let! n := stoull value in Ok (MkOptions h p wl out l c pi du wu n ks vs se pre)
  else if named "--key-size" then
    let! n := stoull value in Ok (MkOptions h p wl out l c pi du wu kc n vs se pre)
  else if named "--value-size" then
    let! n := stoull value in Ok (MkOptions h p wl out l c pi du wu kc ks n se pre)
  else if named "--seed" then
    let! n := stoull value in Ok (MkOptions h p wl out l c pi du wu kc ks vs n pre)
  else if named "--output" then Ok (MkOptions h p wl value l c pi du wu kc ks vs se pre)
  else if named "--label" then Ok (MkOptions h p wl out value c pi du wu kc ks vs se pre)
  else if named "--preload" then
    Ok (MkOptions h p wl out l c pi du wu kc ks vs se (negb (bool_decide (value = str "off"))))
  else Throw (invalid_argument (str "Unknown option: " ++ option)).

Fixpoint parse_pairs (o : Options) (arguments : list bytes) : result Options :=
  match arguments with
  | [] => Ok o
  | [option] => Throw (invalid_argument (str "Missing value for " ++ option))
  | option :: value :: arguments =>
      let! o := parse_option o option value in
      parse_pairs o arguments
  end.

Definition ParseOptions (arguments : list bytes) : result Options :=
  let! o := parse_pairs default_options (tail arguments) in
  throw! invalid_argument (str "clients, pipeline, key-count, and key-size must be positive")
    when (clients o =? 0) || (pipeline o =? 0) || (keyCount o =? 0) || (keySize o =? 0) in
  Ok o.

(** ** Keys and values *)

Definition MakeKey (index size : Z) : bytes :=
  let key := str "bench:" ++ to_string index in
  if size <=? zlen key then ztake size key
  else key ++ replicate (Z.to_nat (size - zlen key)) "k"%char.

Definition MakeValue (size : Z) : bytes := replicate (Z.to_nat size) "v"%char.

(** ** The connection *)

Definition end_of_file : Exn := system_error (str "End of file").

(** [std::getline]: the text before the first LF, which is consumed. *)
Fixpoint getline (input : bytes) : bytes * bytes :=
  match input with
  | [] => ([], [])
  | c :: input =>
      if decide (c = LF) then ([], input) else let '(line, rest) := getline input in (c :: line, rest)
  end.

(** [line.pop_back()], undefined on an empty line. *)
Definition pop_back (line : bytes) : result bytes :=
  match line with [] => Undefined | _ => Ok (removelast line) end.

Definition ReadLine (input : bytes) : result (bytes * bytes) :=
  match find_in crlf input with
  | None => Throw end_of_file
  | Some _ =>
      let '(line, input) := getline input in
      let! line := pop_back line in
      Ok (line, input)
  end.

Definition ConsumeBytes (size : Z) (input : bytes) : result bytes :=
  if zlen input <? size then Throw end_of_file else Ok (zdrop size input).

(** The loop over the elements of an array or a map. *)
Fixpoint read_elements (read : bytes -> result (bool * bytes)) (n : nat) (success : bool)
    (input : bytes) : result (bool * bytes) :=
  match n with
  | O => Ok (success, input)
  | S n =>
      let! (r, input) := read input in
      read_elements read n (r && success) input
  end.

(** [levels] is 33 less the depth of the call. *)
Fixpoint read_response (levels : nat) (input : bytes) : result (bool * bytes) :=
  match levels with
  | O => Throw (runtime_error (str "RESP response nesting limit exceeded"))
  | S levels =>
      let! (line, input) := ReadLine input in
      match line with
      | [] => Throw (runtime_error (str "Empty RESP response"))
      | front :: body =>
          if decide (front = "-"%char) then Ok (false, input)
          else if decide (front ∈ ["+"; ":"; "_"; "#"]%char) then Ok (true, input)
          else if decide (front = "$"%char) then
            let! length := stoll body in
            if 0 <=? length then
              let! input := ConsumeBytes (length + 2) input in Ok (true, input)
            else Ok (true, input)
          else if decide (front ∈ ["*"; "%"]%char) then
            let! count := stoll body in
            if count <? 0 then Ok (true, input)
            else
              let! elements :=
                if decide (front = "%"%char) then
                  if LLONG_MAX <? count * 2 then Undefined else Ok (count * 2)
                else Ok count in
              read_elements (read_response levels) (Z.to_nat elements) true input
          else Throw (runtime_error (str "Unsupported RESP response type"))
      end
  end.

Definition kNestingLimit : nat := 33.

Definition ReadResponse (input : bytes) : result (bool * bytes) := read_response kNestingLimit input.

(** The request of [ExecutePipeline], and the loop that reads its responses. *)
Definition pipeline_request (commands : list (list bytes)) : bytes :=
  fold_left (fun request command => request ++ EncodeCommand command) commands [].

Fixpoint read_responses (n : nat) (input : bytes) : result (list bool * bytes) :=
  match n with
  | O => Ok ([], input)
  | S n =>
      let! (r, input) := ReadResponse input in
      let! (rs, input) := read_responses n input in
      Ok (r :: rs, input)
  end.

(** ** The workload *)

(** A [std::size_t] wraps around. *)
Definition wrap_size (n : Z) : Z := n mod 2 ^ 64.

(** The draws of a command: the index of the key, the second index of GET_MISS
    and a percentage. *)
Record Draws := MkDraws { draw_key : Z; draw_miss : Z; draw_percentage : Z }.

Definition BuildCommand (options : Options) (draws : Draws) (sequence : Z) : result (list bytes) :=
  let key := MakeKey (draw_key draws) (keySize options) in
  let named (name : string) := bool_decide (workload options = str name) in
  if named "PING" then Ok [str "PING"]
  else if named "SET" then Ok [str "SET"; key; MakeValue (valueSize options)]
  else if named "GET_HIT" then Ok [str "GET"; key]
  else if named "GET_MISS" then
    Ok [str "GET"; MakeKey (wrap_size (keyCount options + draw_miss draws)) (keySize options)]
  else if named "DEL" then Ok [str "DEL"; key]
  else if named "EXISTS" then Ok [str "EXISTS"; key]
  else if named "DBSIZE" then Ok [str "DBSIZE"]
  else if named "KEYS" then Ok [str "KEYS"; str "*"]
  else if named "RENAME" then
    Ok [str "RENAME"; key;
        MakeKey (wrap_size (keyCount options * 2 + sequence)) (keySize options)]
  else if named "MIX50" || named "READ95" || named "WRITE95" then
    let writePercent := if named "MIX50" then 50 else if named "READ95" then 5 else 95 in
    if draw_percentage draws <=? writePercent
    then Ok [str "SET"; key; MakeValue (valueSize options)]
    else Ok [str "GET"; key]
  else Throw (invalid_argument (str "Unsupported workload: " ++ workload options)).

(** ** Lemmas *)

Lemma getline_line line rest :
  Forall (fun c => c <> LF) line -> getline (line ++ LF :: rest) = (line, rest).
Proof.
  induction 1 as [|c line Hc _ IH]; cbn [getline app]; [by rewrite decide_True|].
  by rewrite decide_False, IH by done.
Qed.

Lemma read_line line rest :
  Forall (fun c => c <> CR /\ c <> LF) line -> ReadLine (line ++ crlf ++ rest) = Ok (line, rest).
Proof.
  intros Hl. unfold ReadLine. rewrite find_in_crlf.
  2: { eapply Forall_impl; [exact Hl|]. by intros c []. }
  change (crlf ++ rest) with ([CR] ++ LF :: rest). rewrite app_assoc, getline_line.
  - destruct line as [|c line]; [done|].
    change (pop_back ((c :: line) ++ [CR])) with (Ok (removelast ((c :: line) ++ [CR]))).
    by rewrite removelast_last.
  - apply Forall_app. split; [|by repeat constructor].
    eapply Forall_impl; [exact Hl|]. by intros c' [].
Qed.

(** A reply the client takes whole, at any level with another one below it. *)
Definition reads (reply : bytes) (success : bool) : Prop :=
  forall levels rest, read_response (S (S levels)) (reply ++ rest) = Ok (success, rest).

(** One that holds no other reply is read at the last level too. *)
Definition reads_leaf (reply : bytes) (success : bool) : Prop :=
  forall levels rest, read_response (S levels) (reply ++ rest) = Ok (success, rest).

Lemma reads_of_leaf reply success : reads_leaf reply success -> reads reply success.
Proof. intros H levels rest. apply H. Qed.

Lemma leaf_line front body :
  Forall (fun c => c <> CR /\ c <> LF) (front :: body) ->
  front ∈ ["+"; ":"; "_"; "#"]%char -> reads_leaf (front :: body ++ crlf) true.
Proof.
  intros Hc Hf levels rest. cbn [read_response].
  replace ((front :: body ++ crlf) ++ rest) with ((front :: body) ++ crlf ++ rest)
    by (simpl; by rewrite <- app_assoc).
  rewrite read_line by done. cbn [rbind].
  rewrite decide_False by (intros ->; by apply (bool_decide_eq_true_2 _) in Hf).
  by rewrite decide_True.
Qed.

Lemma leaf_error message : reads_leaf (Error message) false.
Proof.
  intros levels rest. cbn [read_response]. unfold Error. rewrite <- !app_assoc.
  rewrite (app_assoc (str "-ERR ")). rewrite read_line.
  - reflexivity.
  - apply Forall_app. split; [by repeat constructor|apply sanitize_clean].
Qed.

Lemma leaf_simple value : reads_leaf (SimpleString value) true.
Proof.
  apply leaf_line; [|by apply (bool_decide_eq_true_1 _)].
  constructor; [done|apply sanitize_clean].
Qed.

Lemma leaf_integer value : reads_leaf (Integer value) true.
Proof.
  apply leaf_line; [|by apply (bool_decide_eq_true_1 _)].
  constructor; [done|apply to_string_no_cr].
Qed.

Lemma leaf_bulk value version :
  (forall v, value = Some v -> zlen v <= LLONG_MAX) -> reads_leaf (BulkString value version) true.
Proof.
  intros Hv. destruct value as [v|].
  - specialize (Hv v eq_refl). intros levels rest. cbn [read_response BulkString].
    rewrite <- !app_assoc, (app_assoc (str "$")), read_line.
    2: { apply Forall_app. split; [by repeat constructor|apply to_string_no_cr]. }
    cbn [rbind app str String.list_ascii_of_string]. cbn [decide].
    pose proof (zlen_nonneg v). rewrite stoll_to_string by lia. cbn [rbind].
    rewrite (proj2 (Z.leb_le 0 _)) by done. unfold ConsumeBytes.
    rewrite (proj2 (Z.ltb_ge _ _)) by (rewrite !zlen_app; change (zlen crlf) with 2; zlen_solve).
    by rewrite zdrop_app_add by lia.
  - destruct version; intros levels rest; reflexivity.
Qed.

Lemma read_leaves levels replies success rest :
  Forall (fun reply => reads_leaf reply true) replies ->
  read_elements (read_response (S levels)) (length replies) success (concat replies ++ rest)
  = Ok (success, rest).
Proof.
  intros Hr. revert success. induction Hr as [|reply replies H _ IH]; intros success; [done|].
  cbn [length read_elements concat]. rewrite <- app_assoc, H. cbn [rbind]. apply IH.
Qed.

(** An array or a map of leaves. *)
Lemma reads_aggregate (front : ascii) count replies :
  front ∈ ["*"; "%"]%char -> 0 <= count <= UINT32_MAX \/ front = "*"%char ->
  0 <= count <= LLONG_MAX ->
  Z.of_nat (length replies) = (if decide (front = "%"%char) then count * 2 else count) ->
  Forall (fun reply => reads_leaf reply true) replies ->
  reads (front :: to_string count ++ crlf ++ concat replies) true.
Proof.
  intros Hf Hsmall Hc Hn Hr levels rest. cbn [read_response].
  replace ((front :: to_string count ++ crlf ++ concat replies) ++ rest)
    with ((front :: to_string count) ++ crlf ++ concat replies ++ rest)
    by (simpl; by rewrite <- !app_assoc).
  assert (Hnot : forall c, bool_decide (c ∈ ["*"; "%"]%char) = false -> front <> c).
  { intros c Hb ->. by rewrite bool_decide_eq_true_2 in Hb. }
  assert (Hnot' : front ∉ ["+"; ":"; "_"; "#"]%char).
  { rewrite !not_elem_of_cons. split_and!; [by apply Hnot..|apply not_elem_of_nil]. }
  rewrite read_line by (constructor; [split; by apply Hnot|apply to_string_no_cr]). cbn [rbind].
  rewrite (decide_False (P := front = "-"%char)) by by apply Hnot.
  rewrite (decide_False (P := front ∈ ["+"; ":"; "_"; "#"]%char)) by done.
  rewrite (decide_False (P := front = "$"%char)) by by apply Hnot.
  rewrite (decide_True (P := front ∈ ["*"; "%"]%char)) by done.
  rewrite stoll_to_string by done. cbn [rbind]. rewrite (proj2 (Z.ltb_ge count 0)) by lia.
  assert (He : (if decide (front = "%"%char)
    then if LLONG_MAX <? count * 2 then Undefined else Ok (count * 2) else Ok count)
    = Ok (Z.of_nat (length replies))).
  { rewrite Hn. case_decide as E; [|done]. destruct Hsmall as [Hs|Hs]; [|by rewrite Hs in E].
    unfold UINT32_MAX, LLONG_MAX in *. by rewrite (proj2 (Z.ltb_ge _ _)) by lia. }
  rewrite He. cbn [rbind]. rewrite Nat2Z.id. by apply read_leaves.
Qed.

Lemma array_eq values version :
  Array values version
  = "*"%char :: to_string (zlen values)
      ++ crlf ++ concat (map (fun v => BulkString (Some v) Resp2) values).
Proof. unfold Array. rewrite (fold_append (fun v => BulkString (Some v) Resp2)). by rewrite <- !app_assoc. Qed.

Lemma concat_length_ge (replies : list bytes) reply :
  reply ∈ replies -> zlen reply <= zlen (concat replies).
Proof.
  intros (l1 & l2 & ->)%list_elem_of_split. rewrite concat_app. simpl. zlen_solve.
Qed.

Lemma bulk_eq v version :
  BulkString (Some v) version = "$"%char :: to_string (zlen v) ++ crlf ++ v ++ crlf.
Proof. done. Qed.

Lemma bulk_size v version : 1 + zlen v <= zlen (BulkString (Some v) version).
Proof. rewrite bulk_eq. zlen_solve. Qed.

Lemma concat_count (values : list bytes) version :
  zlen values <= zlen (concat (map (fun v => BulkString (Some v) version) values)).
Proof.
  induction values as [|v values IH]; [done|]. cbn [map concat].
  rewrite zlen_app, zlen_cons. pose proof (bulk_size v version). pose proof (zlen_nonneg v). lia.
Qed.

Lemma reads_array values version :
  zlen (Array values version) <= LLONG_MAX -> reads (Array values version) true.
Proof.
  rewrite array_eq. intros Hl. rewrite zlen_cons, !zlen_app in Hl.
  pose proof (concat_count values Resp2) as Hcount.
  pose proof (zlen_nonneg (to_string (zlen values))). change (zlen crlf) with 2 in Hl.
  apply reads_aggregate; [by apply (bool_decide_eq_true_1 _)|by right|zlen_solve| |].
  - by rewrite length_map.
  - apply Forall_map, Forall_forall. intros v Hv. apply leaf_bulk. intros v' [= <-].
    assert (Hin : BulkString (Some v) Resp2 ∈ map (fun v => BulkString (Some v) Resp2) values)
      by (apply list_elem_of_fmap; by exists v).
    pose proof (concat_length_ge _ _ Hin) as Hle.
    pose proof (bulk_size v Resp2). lia.
Qed.

Lemma reads_hello version : reads (Hello version) true.
Proof.
  destruct version; [apply reads_array; by vm_compute|].
  replace (Hello Resp3) with ("%"%char :: to_string 6 ++ crlf ++ concat
    (map (fun v => BulkString (Some v) Resp3) (take 11 (hello_values Resp3)) ++ [str "*0" ++ crlf]))
    by (vm_compute; reflexivity).
  apply reads_aggregate; [by apply (bool_decide_eq_true_1 _)|by left|done|done|].
  apply Forall_app. split.
  - apply Forall_map, Forall_forall. intros v Hv. apply leaf_bulk. intros v' [= <-].
    revert v Hv. apply Forall_forall. unfold hello_values. cbn [take].
    repeat (apply Forall_cons; split; [vm_compute; discriminate|]). by apply Forall_nil.
  - apply Forall_singleton. intros levels rest. reflexivity.
Qed.

(** What the client takes a reply for. *)
Definition is_error (reply : bytes) : bool := bool_decide (head reply = Some "-"%char).

Lemma answer_reads env ttl version m args reply close version' m' :
  Protocol.answer env ttl version m args reply close version' m' ->
  zlen reply <= LLONG_MAX -> reads reply (negb (is_error reply)).
Proof.
  intros Ha Hl. destruct Ha; unfold Protocol.OK.
  all: match goal with
  | |- reads (Error ?m) _ => exact (reads_of_leaf _ _ (leaf_error m))
  | |- reads (SimpleString ?v) _ => exact (reads_of_leaf _ _ (leaf_simple v))
  | |- reads (Integer ?n) _ => exact (reads_of_leaf _ _ (leaf_integer n))
  | |- _ => idtac
  end.
  - destruct v; exact (reads_hello _).
  - apply (reads_of_leaf (BulkString (Some a) version) true), leaf_bulk. intros v [= <-].
    pose proof (bulk_size a version). lia.
  - destruct (RadishStore.Spec.lookup_alive (env_now env 0) m k) as [v|].
    + apply (reads_of_leaf (BulkString (Some v) version) true), leaf_bulk. intros v' [= <-].
      pose proof (bulk_size v version). lia.
    + destruct version; exact (reads_of_leaf _ _ (leaf_bulk None _ ltac:(done))).
  - rewrite (array_eq keys version) at 2. exact (reads_array keys version Hl).
Qed.

Lemma conversation_reads ttl envs version m requests replies version' m' :
  Protocol.conversation ttl envs version m requests replies version' m' ->
  Forall (fun reply => zlen reply <= LLONG_MAX) replies ->
  forall later, read_responses (length requests) (concat replies ++ later)
    = Ok (map (fun reply => negb (is_error reply)) replies, later).
Proof.
  induction 1 as [|envs version m args requests reply replies v1 m1 v2 m2 Ha _ IH]; [done|].
  intros [Hl Hr]%Forall_cons later. cbn [length read_responses concat map].
  pose proof (answer_reads _ _ _ _ _ _ _ _ _ Ha Hl) as H.
  rewrite <- app_assoc. unfold ReadResponse, kNestingLimit. rewrite H. cbn [rbind].
  by rewrite IH.
Qed.

Lemma pipeline_request_eq commands : pipeline_request commands = concat (map EncodeCommand commands).
Proof. unfold pipeline_request. by rewrite (fold_append EncodeCommand). Qed.

(** *** Keys *)

Lemma make_key_eq index size :
  zlen (str "bench:" ++ to_string index) <= size ->
  MakeKey index size = str "bench:" ++ to_string index
    ++ replicate (Z.to_nat (size - zlen (str "bench:" ++ to_string index))) "k"%char.
Proof.
  intros Hs. unfold MakeKey. destruct (Z.leb_spec size (zlen (str "bench:" ++ to_string index))).
  - replace size with (zlen (str "bench:" ++ to_string index)) by lia.
    rewrite Z.sub_diag. simpl replicate. rewrite app_nil_r.
    rewrite <- (app_nil_r (str "bench:" ++ to_string index)) at 2. by rewrite ztake_app.
  - by rewrite <- app_assoc.
Qed.

Lemma span_digits_filler n : (span_digits (replicate n "k"%char)).1 = [].
Proof. by destruct n. Qed.

Lemma make_key_inj i j size :
  0 <= i -> 0 <= j -> zlen (str "bench:" ++ to_string i) <= size ->
  zlen (str "bench:" ++ to_string j) <= size ->
  MakeKey i size = MakeKey j size -> i = j.
Proof.
  intros Hi Hj Hli Hlj. rewrite !make_key_eq by done. intros E%app_inv_head.
  by apply to_string_app_inj in E; [..|apply span_digits_filler|apply span_digits_filler].
Qed.

Lemma make_key_size index size : 0 <= size -> zlen (MakeKey index size) = size.
Proof.
  intros Hs. unfold MakeKey.
  destruct (Z.leb_spec size (zlen (str "bench:" ++ to_string index))) as [Hle|Hgt].
  - rewrite zlen_ztake by done. lia.
  - rewrite zlen_app. unfold zlen at 2. rewrite length_replicate. lia.
Qed.

(** Indices below [10 ^ d] have keys of their own once [6 + d] bytes fit. *)
Lemma key_fits index d size :
  0 <= index < 10 ^ d -> 0 < d -> 6 + d <= size -> zlen (str "bench:" ++ to_string index) <= size.
Proof.
  intros Hi Hd Hs. pose proof (to_string_size index d Hi Hd). rewrite zlen_app.
  change (zlen (str "bench:")) with 6. lia.
Qed.

(** A key that is cut off loses digits of its index. *)
Example cut_keys_collide : MakeKey 10 7 = MakeKey 11 7.
Proof. vm_compute. reflexivity. Qed.

(** *** Commands *)

(** The options and draws of a run whose keys fit their size. *)
Record run_fits (options : Options) (draws : Draws) (sequence d : Z) : Prop := {
  fits_digits : 0 < d /\ 6 + d <= keySize options <= kMaxBulkLength;
  fits_keys : keyCount options * 2 + sequence < 10 ^ d;
  fits_size : keyCount options * 2 + sequence < 2 ^ 64;
  fits_sequence : 0 <= sequence;
  fits_value : 0 <= valueSize options <= kMaxBulkLength;
  fits_key : 0 <= draw_key draws < keyCount options;
  fits_miss : 0 <= draw_miss draws < keyCount options;
}.

Lemma valid_args args :
  args <> [] -> (length args <= 3)%nat -> Forall (fun a => zlen a <= kMaxBulkLength) args ->
  valid_command args.
Proof.
  intros Hn Hl Hf. split; [|done]. unfold zlen, kMaxArguments. destruct args; [done|]. simpl in *. lia.
Qed.

(** The requests of at most three words are plain when the first is not QUIT. *)
Lemma plain_words name args :
  Uppercase name <> str "QUIT" ->
  (length args <= 2)%nat -> Forall (fun a => zlen a <= kMaxBulkLength) (name :: args) ->
  plain_request (name :: args).
Proof.
  intros Hq Hl Hf. split; [apply valid_args; simpl; [done|lia|done]|].
  intros (c & [= <- ->] & Hc). by apply Hq.
Qed.

Lemma size_of_key index options draws sequence d :
  run_fits options draws sequence d -> zlen (MakeKey index (keySize options)) <= kMaxBulkLength.
Proof. intros [[? [? ?]] _ _ _ _ _ _]. rewrite make_key_size by lia. lia. Qed.

Lemma size_of_value options draws sequence d :
  run_fits options draws sequence d -> zlen (MakeValue (valueSize options)) <= kMaxBulkLength.
Proof. intros [_ _ _ _ ? _ _]. unfold MakeValue, zlen. rewrite length_replicate. lia. Qed.

Lemma fitting_keys_inj options draws sequence d i j :
  run_fits options draws sequence d ->
  0 <= i <= keyCount options * 2 + sequence -> 0 <= j <= keyCount options * 2 + sequence ->
  MakeKey i (keySize options) = MakeKey j (keySize options) -> i = j.
Proof.
  intros [[Hd [Hk _]] Hc _ _ _ _ _] Hi Hj. apply make_key_inj; [lia|lia| |]; eapply key_fits; eauto; lia.
Qed.

Definition workloads : list bytes :=
  map str ["PING"; "SET"; "GET_HIT"; "GET_MISS"; "DEL"; "EXISTS"; "DBSIZE"; "KEYS"; "RENAME";
           "MIX50"; "READ95"; "WRITE95"]%string.

Ltac plain_words :=
  intros; apply plain_words;
  [vm_compute; discriminate|simpl; lia
  |repeat (apply Forall_cons; split; [first [done|auto]|]); by apply Forall_nil].

Lemma build_command_plain options draws sequence d :
  run_fits options draws sequence d -> workload options ∈ workloads ->
  exists command, BuildCommand options draws sequence = Ok command /\ plain_request command.
Proof.
  intros Hf Hw. pose proof (fun i => size_of_key i _ _ _ _ Hf) as Hk.
  pose proof (size_of_value _ _ _ _ Hf) as Hv.
  assert (Hset : plain_request [str "SET"; MakeKey (draw_key draws) (keySize options);
    MakeValue (valueSize options)]) by plain_words.
  assert (Hget : forall i, plain_request [str "GET"; MakeKey i (keySize options)]) by plain_words.
  unfold BuildCommand. repeat (case_bool_decide; cbn [orb]); try case_match.
  all: try (eexists; split; [reflexivity|]; first [exact Hset|apply Hget|plain_words]).
  - exfalso. unfold workloads in Hw. repeat (apply elem_of_cons in Hw as [Hw|Hw]; [done|]).
    by apply not_elem_of_nil in Hw.
Qed.

(** The RENAME workload gives its keys new names. *)
Lemma renamed_key_changes options draws sequence d :
  run_fits options draws sequence d ->
  MakeKey (draw_key draws) (keySize options)
  <> MakeKey (wrap_size (keyCount options * 2 + sequence)) (keySize options).
Proof.
  intros Hf E. pose proof Hf as [_ _ ? ? _ ? _].
  unfold wrap_size in E. rewrite Z.mod_small in E by lia.
  assert (draw_key draws = keyCount options * 2 + sequence); [|lia].
  eapply fitting_keys_inj; [exact Hf|lia|lia|done].
Qed.

Lemma miss_is_no_key options draws sequence d i :
  run_fits options draws sequence d -> 0 <= i < keyCount options ->
  MakeKey (wrap_size (keyCount options + draw_miss draws)) (keySize options)
  <> MakeKey i (keySize options).
Proof.
  intros Hf Hi. pose proof Hf as [_ _ ? ? _ _ ?]. unfold wrap_size. rewrite Z.mod_small by lia. intros E.
  apply (fitting_keys_inj _ _ _ _ _ _ Hf) in E; lia.
Qed.

(** ** Properties *)

(** C17: requests a client sends together to a fresh connection are executed as
    the protocol says, and the client understands what comes back: it reads
    exactly one response for each request, in their order, a failure where the
    reply is an error and nowhere else, and takes nothing of what the server
    sends later. *)
Theorem client_and_server_agree requests s w :
  Forall plain_request requests -> zlen (pipeline_request requests) <= kMaxBufferedInput ->
  m_input s = [] -> m_closeAfterWrite s = false -> world_ready w ->
  exists s' w' replies,
    on_read (pipeline_request requests) s w = (s', w', Ok tt)
    /\ Protocol.conversation (RadishStore.m_ttl (RadishDB.m_store (database w).1)) (surroundings w)
         (m_version s) (RadishStore.abs (RadishDB.m_store (database w).1)) requests replies
         (m_version s') (RadishStore.abs (RadishDB.m_store (database w').1))
    /\ transcript s' = transcript s ++ concat replies
    /\ (Forall (fun reply => zlen reply <= LLONG_MAX) replies -> forall later,
         read_responses (length requests) (concat replies ++ later)
         = Ok (map (fun reply => negb (is_error reply)) replies, later)).
Proof.
  rewrite pipeline_request_eq. intros Hr Hl Hi Hc Hw.
  destruct (on_read_requests requests [] s w Hr eq_refl) as (s' & w' & replies & H1 & H2 & H3 & _);
    [by rewrite app_nil_r|done..|].
  rewrite app_nil_r in H1. exists s', w', replies. split_and!; [done..|].
  by eapply conversation_reads.
Qed.

(** When the digits of the largest index fit the size of the keys, every
    request of every workload is one the server answers without closing the
    connection, keys of different indices are different, a GET_MISS asks for
    none of the keys that were loaded, and a RENAME gives its key a new name. *)
Theorem workload_is_served options draws sequence d :
  run_fits options draws sequence d -> workload options ∈ workloads ->
  (exists command, BuildCommand options draws sequence = Ok command /\ plain_request command)
  /\ (forall i j, 0 <= i < keyCount options -> 0 <= j < keyCount options ->
        MakeKey i (keySize options) = MakeKey j (keySize options) -> i = j)
  /\ (workload options = str "GET_MISS" -> forall i, 0 <= i < keyCount options ->
        BuildCommand options draws sequence <> Ok [str "GET"; MakeKey i (keySize options)])
  /\ (workload options = str "RENAME" -> forall k,
        BuildCommand options draws sequence <> Ok [str "RENAME"; k; k]).
Proof.
  intros Hf Hw. pose proof Hf as [_ _ _ ? _ _ _]. split_and!.
  - by eapply build_command_plain.
  - intros i j Hi Hj. apply (fitting_keys_inj _ _ _ _ _ _ Hf); lia.
  - intros Hm i Hi. unfold BuildCommand. rewrite Hm. cbn [bool_decide decide_rel orb].
    intros [= E]. by eapply miss_is_no_key.
  - intros Hr k. unfold BuildCommand. rewrite Hr. cbn [bool_decide decide_rel orb].
    intros [= E1 E2]. eapply renamed_key_changes; [exact Hf|]. by rewrite E1, E2.
Qed.

(** ** Witnesses *)

Lemma client_and_server_agree_witness :
  exists replies,
    Forall (fun reply => zlen reply <= LLONG_MAX) replies -> forall later,
    read_responses 1 (concat replies ++ later)
    = Ok (map (fun reply => negb (is_error reply)) replies, later).
Proof.
  destruct (client_and_server_agree [get_a] NewSession world_example) as (s' & w' & replies & H).
  - apply Forall_cons. split; [exact get_a_plain|apply Forall_nil; exact I].
  - vm_compute. discriminate.
  - reflexivity.
  - reflexivity.
  - exact world_example_ready.
  - exists replies. apply H.
Defined.

Definition renaming_options : Options :=
  MkOptions (str "127.0.0.1") (str "6379") (str "RENAME") (str "r") (str "l") 1 1 60 30 100 32 128 1 true.

Lemma workload_is_served_witness :
  exists command, BuildCommand renaming_options (MkDraws 3 4 50) 7 = Ok command
    /\ plain_request command.
Proof.
  apply (workload_is_served renaming_options (MkDraws 3 4 50) 7 3).
  - split; vm_compute; repeat split; discriminate.
  - unfold workloads. repeat (first [apply list_elem_of_here | apply list_elem_of_further]).
Defined.
