(* ===== verification/DoubleText.v ===== *)
(** Numbers in the result files of the benchmark: how [ostream << double] prints
    a [double], and how such a text is read.

    A stream prints a [double] as "%.6g" does: with six significant digits,
    rounded correctly (ties to even), without the zeros at the end, and with an
    exponent when the number is below [10 ^ -4] or has more than six digits
    before the point. That is library code, defined here from its documented
    behaviour. [read_number] is the grammar of the numbers of JSON. *)

From Stdlib Require Import Floats.SpecFloat.
From S2P Require Import Prelude Decimal BenchmarkStatistics.
Open Scope Z_scope.

(** ** Printing *)

(** [n / d] rounded to an integer, ties to even. *)
Definition div_even (n d : Z) : Z :=
  let q := n / d in
  let r := n mod d in
  if (2 * r <? d) || ((2 * r =? d) && Z.even q) then q else q + 1.

(** [10 ^ k <= n / d]. *)
Definition reaches (n d k : Z) : bool :=
  if 0 <=? k then 10 ^ k * d <=? n else d <=? n * 10 ^ (- k).

(** The integer below the decimal logarithm of [n / d]: the numbers of digits
    leave two candidates. *)
Definition log10 (n d : Z) : Z :=
  let k := zlen (unsigned_to_string n) - zlen (unsigned_to_string d) in
  if reaches n d k then k else k - 1.

(** [m] and [x] with six digits in [m] and [n / d] rounded to [m * 10 ^ (x - 5)]. *)
Definition six_digits (n d : Z) : Z * Z :=
  let x := log10 n d in
  let m := if 5 <=? x then div_even n (d * 10 ^ (x - 5)) else div_even (n * 10 ^ (5 - x)) d in
  if m =? 1000000 then (100000, x + 1) else (m, x).

(** The digits without the zeros at their end. *)
Fixpoint strip_zeros (ds : bytes) : bytes :=
  match ds with
  | [] => []
  | c :: ds =>
      match strip_zeros ds with
      | [] => if decide (c = "0"%char) then [] else [c]
      | ds => c :: ds
      end
  end.

Definition with_point (whole frac : bytes) : bytes :=
  match strip_zeros frac with
  | [] => whole
  | frac => whole ++ "."%char :: frac
  end.

(** At least two digits. *)
Definition exponent_text (x : Z) : bytes :=
  let ds := unsigned_to_string (Z.abs x) in
  "e"%char :: (if x <? 0 then "-"%char else "+"%char) ::
    (if zlen ds <? 2 then "0"%char :: ds else ds).

(** The six digits [ds] of a number with the decimal exponent [x]. *)
Definition place_point (ds : bytes) (x : Z) : bytes :=
  if (-4 <=? x) && (x <? 6) then
    if 0 <=? x then with_point (ztake (x + 1) ds) (zdrop (x + 1) ds)
    else with_point (str "0") (replicate (Z.to_nat (- x - 1)) "0"%char ++ ds)
  else with_point (ztake 1 ds) (zdrop 1 ds) ++ exponent_text x.

Definition print_positive (n d : Z) : bytes :=
  let '(m, x) := six_digits n d in place_point (unsigned_to_string m) x.

(** [m * base ^ e] as a fraction. *)
Definition scaled (base m e : Z) : Z * Z :=
  if 0 <=? e then (m * base ^ e, 1) else (m, base ^ (- e)).

Definition sign_text (negative : bool) : bytes := if negative then str "-" else [].

Definition print_double (x : double) : bytes :=
  match x with
  | S754_zero s => sign_text s ++ str "0"
  | S754_infinity s => sign_text s ++ str "inf"
  | S754_nan => str "nan"
  | S754_finite s m e => let '(n, d) := scaled 2 (Z.pos m) e in sign_text s ++ print_positive n d
  end.

Example print_integer : print_double (double_of_Z 4) = str "4".
Proof. vm_compute. reflexivity. Qed.

Example print_fraction : print_double (double_div (double_of_Z 5) (double_of_Z 2)) = str "2.5".
Proof. vm_compute. reflexivity. Qed.

Example print_small : print_double (double_div (double_of_Z 1) (double_of_Z 3000)) = str "0.000333333".
Proof. vm_compute. reflexivity. Qed.

Example print_tiny : print_double (double_div (double_of_Z 2) (double_of_Z 30000)) = str "6.66667e-05".
Proof. vm_compute. reflexivity. Qed.

Example print_large : print_double (double_of_Z 9999996) = str "1e+07".
Proof. vm_compute. reflexivity. Qed.

Example print_even : print_double (double_of_Z 1234565) = str "1.23456e+06".
Proof. vm_compute. reflexivity. Qed.

(** ** Reading *)

(** [mantissa * 10 ^ exponent], or its opposite. *)
Record decimal := MkDecimal { negative : bool; mantissa : Z; exponent : Z }.

#[global] Instance decimal_eq_decision : EqDecision decimal.
Proof. solve_decision. Defined.

(** A digit, or digits of which the first is not 0. *)
Definition whole_part (ds : bytes) : bool :=
  match ds with
  | [] => false
  | [_] => true
  | c :: _ => bool_decide (c <> "0"%char)
  end.

(** The fraction, when there is one. *)
Definition read_fraction (input : bytes) : option (bytes * bytes) :=
  match input with
  | c :: input' =>
      if decide (c = "."%char) then
        match span_digits input' with ([], _) => None | (ds, rest) => Some (ds, rest) end
      else Some ([], input)
  | [] => Some ([], [])
  end.

Definition read_digits (input : bytes) : option (Z * bytes) :=
  match span_digits input with ([], _) => None | (ds, rest) => Some (dec_value ds, rest) end.

(** The exponent, when there is one. *)
Definition read_exponent (input : bytes) : option (Z * bytes) :=
  match input with
  | c :: input' =>
      if decide (c = "e"%char \/ c = "E"%char) then
        match input' with
        | s :: input'' =>
            if decide (s = "-"%char) then
              '(x, rest) ← read_digits input''; Some (- x, rest)
            else if decide (s = "+"%char) then read_digits input''
            else read_digits input'
        | [] => None
        end
      else Some (0, input)
  | [] => Some (0, [])
  end.

Definition read_unsigned (negative : bool) (input : bytes) : option (decimal * bytes) :=
  let '(ds, input) := span_digits input in
  if whole_part ds then
    '(frac, input) ← read_fraction input;
    '(x, input) ← read_exponent input;
    Some (MkDecimal negative (dec_value (ds ++ frac)) (x - zlen frac), input)
  else None.

Definition read_number (input : bytes) : option (decimal * bytes) :=
  match input with
  | c :: input' =>
      if decide (c = "-"%char) then read_unsigned true input' else read_unsigned false input
  | [] => None
  end.

Example read_integer : read_number (str "1050,") = Some (MkDecimal false 1050 0, str ",").
Proof. reflexivity. Qed.

Example read_scientific : read_number (str "-1.05e-07}") = Some (MkDecimal true 105 (-9), str "}").
Proof. reflexivity. Qed.

Example read_leading_zero : read_number (str "01") = None.
Proof. reflexivity. Qed.

(** ** What a printed number is worth *)

(** [m * 10 ^ k] is [n / d] up to half a unit of the sixth significant digit:
    the error is at most [n / d / 200000]. Both sides are scaled by a power of
    ten that makes the decimal an integer. *)
Definition close (n d m k : Z) : Prop :=
  exists s, 0 <= s /\ 0 <= k + s
    /\ 200000 * Z.abs (n * 10 ^ s - m * 10 ^ (k + s) * d) <= n * 10 ^ s.

(** The decimal that stands for a [double]. *)
Definition approximates (dec : decimal) (x : double) : Prop :=
  match x with
  | S754_zero s => dec = MkDecimal s 0 0
  | S754_finite s m e =>
      negative dec = s
      /\ let '(n, d) := scaled 2 (Z.pos m) e in close n d (mantissa dec) (exponent dec)
  | _ => False
  end.

Lemma pow10_pos k : 0 <= k -> 0 < 10 ^ k.
Proof. intros. by apply Z.pow_pos_nonneg. Qed.

Lemma div_even_spec n d : 0 < d -> 2 * Z.abs (n - d * div_even n d) <= d.
Proof.
  intros Hd. unfold div_even. pose proof (Z.div_mod n d ltac:(lia)).
  pose proof (Z.mod_pos_bound n d Hd).
  destruct (_ <? d) eqn:E1; zify_bool; cbn [orb]; [nia|].
  destruct (_ =? d) eqn:E2, (Z.even (n / d)); zify_bool; cbn [andb]; nia.
Qed.

(** The comparison may be made at any scale. *)
Lemma reaches_at n d k s :
  0 <= s -> 0 <= k + s -> reaches n d k = (10 ^ (k + s) * d <=? n * 10 ^ s).
Proof.
  intros Hs Hk. unfold reaches. destruct (Z.leb_spec 0 k) as [H|H].
  - rewrite Z.pow_add_r by lia. pose proof (pow10_pos s Hs).
    apply Bool.eq_iff_eq_true. rewrite !Z.leb_le. nia.
  - replace s with (- k + (k + s)) at 2 by lia. rewrite (Z.pow_add_r 10 (- k)) by lia.
    pose proof (pow10_pos (k + s) Hk). apply Bool.eq_iff_eq_true. rewrite !Z.leb_le. nia.
Qed.

Lemma dec_value_bound ds :
  Forall (fun c => is_digit c = true) ds -> 0 <= dec_value ds < 10 ^ zlen ds.
Proof.
  induction ds as [|c ds IH] using rev_ind; [done|]. intros [Hds Hc]%Forall_app.
  apply Forall_singleton, digit_val_range in Hc. specialize (IH Hds).
  rewrite dec_value_snoc, zlen_app, Z.pow_add_r by apply zlen_nonneg.
  change (10 ^ zlen [c]) with 10. lia.
Qed.

(** The number of digits. *)
Lemma unsigned_digits n :
  0 < n -> let l := zlen (unsigned_to_string n) in 0 < l /\ 10 ^ (l - 1) <= n < 10 ^ l.
Proof.
  intros Hn l. destruct (unsigned_to_string_spec n ltac:(lia)) as (Hd & Hv & Hne).
  assert (Hl : 0 < l) by (subst l; destruct (unsigned_to_string n); [done|zlen_solve]).
  split; [done|]. split; [|rewrite <- Hv at 1; by apply dec_value_bound].
  destruct (Z.le_gt_cases (10 ^ (l - 1)) n) as [|Hlt]; [done|exfalso].
  destruct (Z.eq_dec l 1) as [E|]; [rewrite E in Hlt; simpl in Hlt; lia|].
  pose proof (to_string_size n (l - 1) ltac:(lia) ltac:(lia)) as Hs.
  unfold to_string in Hs. rewrite (proj2 (Z.ltb_ge _ _)) in Hs by lia. fold l in Hs. lia.
Qed.

Lemma log10_spec n d :
  0 < n -> 0 < d -> reaches n d (log10 n d) = true /\ reaches n d (log10 n d + 1) = false.
Proof.
  intros Hn Hd. unfold log10.
  destruct (unsigned_digits n Hn) as (H1 & H2 & H3), (unsigned_digits d Hd) as (H4 & H5 & H6).
  set (a := zlen (unsigned_to_string n)) in *. set (b := zlen (unsigned_to_string d)) in *.
  assert (Hlo : reaches n d (a - b - 1) = true).
  { rewrite (reaches_at n d _ (b + 1)) by lia. apply Z.leb_le.
    replace (a - b - 1 + (b + 1)) with (Z.succ (a - 1)) by lia. rewrite <- Z.add_1_r.
    rewrite !Z.pow_add_r by lia. nia. }
  assert (Hhi : reaches n d (a - b + 1) = false).
  { rewrite (reaches_at n d _ b) by lia. apply Z.leb_gt.
    replace (a - b + 1 + b) with (a + 1) by lia. rewrite Z.pow_add_r by lia.
    replace b with (b - 1 + 1) at 1 by lia. rewrite Z.pow_add_r by lia.
    pose proof (pow10_pos a ltac:(lia)). pose proof (pow10_pos (b - 1) ltac:(lia)). nia. }
  destruct (reaches n d (a - b)) eqn:E; [done|]. split; [done|].
  by replace (a - b - 1 + 1) with (a - b) by lia.
Qed.

(** The six digits. *)
Lemma six_digits_spec n d m x :
  0 < n -> 0 < d -> six_digits n d = (m, x) -> 100000 <= m < 1000000 /\ close n d m (x - 5).
Proof.
  intros Hn Hd. unfold six_digits. destruct (log10_spec n d Hn Hd) as [Hlo Hhi].
  set (k := log10 n d) in *.
  set (r := if 5 <=? k then _ else _).
  assert (H : 100000 <= r <= 1000000 /\ exists s, 0 <= s /\ 0 <= k - 5 + s
    /\ 200000 * Z.abs (n * 10 ^ s - r * 10 ^ (k - 5 + s) * d) <= n * 10 ^ s).
  { subst r. destruct (Z.leb_spec 5 k) as [Hk|Hk].
    - rewrite (reaches_at n d k 0) in Hlo by lia. rewrite (reaches_at n d (k + 1) 0) in Hhi by lia.
      zify_bool. rewrite !Z.add_0_r in *.
      assert (Hp : 0 < d * 10 ^ (k - 5)) by (pose proof (pow10_pos (k - 5) ltac:(lia)); nia).
      pose proof (div_even_spec n _ Hp) as Hr. set (r := div_even _ _) in *.
      replace k with (5 + (k - 5)) in Hlo by lia. replace (k + 1) with (6 + (k - 5)) in Hhi by lia.
      rewrite Z.pow_add_r in Hlo, Hhi by lia. change (10 ^ 5) with 100000 in *.
      change (10 ^ 6) with 1000000 in *. change (10 ^ 0) with 1 in *.
      split; [nia|]. exists 0. split; [lia|]. split; [lia|]. rewrite !Z.add_0_r. change (10 ^ 0) with 1. nia.
    - rewrite (reaches_at n d k (5 - k)) in Hlo by lia.
      rewrite (reaches_at n d (k + 1) (5 - k)) in Hhi by lia. zify_bool.
      replace (k + (5 - k)) with 5 in Hlo by lia. replace (k + 1 + (5 - k)) with 6 in Hhi by lia.
      change (10 ^ 5) with 100000 in *. change (10 ^ 6) with 1000000 in *.
      pose proof (div_even_spec (n * 10 ^ (5 - k)) d Hd) as Hr. set (r := div_even _ _) in *.
      split; [nia|]. exists (5 - k). split; [lia|]. split; [lia|].
      replace (k - 5 + (5 - k)) with 0 by lia. change (10 ^ 0) with 1. nia. }
  destruct H as (Hr & s & Hs & Hs' & Hc). destruct (Z.eqb_spec r 1000000) as [E|E].
  - intros [= <- <-]. split; [lia|]. exists (s + 1). split; [lia|]. split; [lia|].
    replace (k + 1 - 5 + (s + 1)) with (2 + (k - 5 + s)) by lia. rewrite !Z.pow_add_r by lia.
    rewrite E in Hc. change (10 ^ 2) with 100. change (10 ^ 1) with 10.
    set (u := 10 ^ (k - 5 + s)) in *. set (v := 10 ^ s) in *. lia.
  - intros [= <- <-]. split; [lia|]. by exists s.
Qed.

(** ** Reading what was printed *)

Abbreviation digits ds := (Forall (fun c => is_digit c = true) ds).

(** What may follow a number: nothing that could belong to it. *)
Definition number_end (rest : bytes) : Prop :=
  match rest with
  | [] => True
  | c :: _ => is_digit c = false /\ c <> "."%char /\ c <> "e"%char /\ c <> "E"%char
  end.

(** What may follow the digits of a fraction. *)
Definition fraction_end (rest : bytes) : Prop :=
  match rest with [] => True | c :: _ => is_digit c = false /\ c <> "."%char end.

Lemma number_fraction_end rest : number_end rest -> fraction_end rest.
Proof. destruct rest; simpl; tauto. Qed.

Definition digits_end (rest : bytes) : Prop :=
  match rest with [] => True | c :: _ => is_digit c = false end.

Lemma fraction_digits_end rest : fraction_end rest -> digits_end rest.
Proof. destruct rest; simpl; tauto. Qed.

Lemma span_digits_end ds rest : digits ds -> digits_end rest -> span_digits (ds ++ rest) = (ds, rest).
Proof.
  intros Hd Hr. rewrite span_digits_app by done.
  destruct rest as [|c rest]; [by rewrite app_nil_r|]. simpl in *. rewrite Hr. by rewrite app_nil_r.
Qed.

Lemma strip_zeros_split ds : exists j, ds = strip_zeros ds ++ replicate j "0"%char.
Proof.
  induction ds as [|c ds [j IH]]; [by exists O|]. cbn [strip_zeros].
  destruct (strip_zeros ds) as [|d ds'] eqn:E.
  - simpl in IH. case_decide as Hc; [exists (S j); by rewrite Hc, IH|exists j; by rewrite IH].
  - exists j. by rewrite IH at 1.
Qed.

Lemma dec_value_zeros ds j : dec_value (ds ++ replicate j "0"%char) = dec_value ds * 10 ^ Z.of_nat j.
Proof.
  induction j as [|j IH]; [by rewrite app_nil_r, Z.mul_1_r|].
  rewrite Nat2Z.inj_succ, Z.pow_succ_r by lia. rewrite replicate_S_end, app_assoc, dec_value_snoc, IH.
  change (digit_val "0"%char) with 0. lia.
Qed.

Lemma strip_zeros_digits ds : digits ds -> digits (strip_zeros ds).
Proof.
  destruct (strip_zeros_split ds) as [j E]. intros H. rewrite E in H. by apply Forall_app in H as [H _].
Qed.

(** Zeros at the end of the fraction change nothing. *)
Lemma close_strip n d whole frac x :
  close n d (dec_value (whole ++ frac)) (x - zlen frac) ->
  close n d (dec_value (whole ++ strip_zeros frac)) (x - zlen (strip_zeros frac)).
Proof.
  destruct (strip_zeros_split frac) as [j E]. intros (s & Hs & Hk & Hc).
  set (f := strip_zeros frac) in *.
  assert (Hl : zlen frac = zlen f + Z.of_nat j)
    by (rewrite E, zlen_app; f_equal; unfold zlen; by rewrite length_replicate).
  exists s. split; [done|]. split; [lia|].
  rewrite Hl in Hc. rewrite E, app_assoc, dec_value_zeros in Hc.
  replace (x - zlen f + s) with (Z.of_nat j + (x - (zlen f + Z.of_nat j) + s)) by lia.
  rewrite Z.pow_add_r by lia. by rewrite Z.mul_assoc.
Qed.

Lemma read_with_point negative whole frac tail x rest :
  digits whole -> whole_part whole = true -> digits frac ->
  fraction_end tail -> read_exponent tail = Some (x, rest) ->
  read_unsigned negative (with_point whole frac ++ tail)
  = Some (MkDecimal negative (dec_value (whole ++ strip_zeros frac)) (x - zlen (strip_zeros frac)), rest).
Proof.
  intros Hw Hwp Hf%strip_zeros_digits Ht Hx. pose proof (fraction_digits_end _ Ht) as Ht'. unfold read_unsigned, with_point.
  destruct (strip_zeros frac) as [|c f].
  - rewrite span_digits_end, Hwp by done.
    assert (Hrf : read_fraction tail = Some ([], tail)).
    { destruct tail as [|c tail]; [done|]. unfold read_fraction. by rewrite decide_False by apply Ht. }
    rewrite Hrf. cbn [mbind option_bind]. by rewrite Hx.
  - rewrite <- app_assoc. rewrite span_digits_end, Hwp by done.
    change ((("."%char) :: c :: f) ++ tail) with ("."%char :: (c :: f) ++ tail).
    cbn [read_fraction]. rewrite decide_True by done.
    rewrite (span_digits_end (c :: f) tail) by done. cbn [mbind option_bind]. by rewrite Hx.
Qed.

Lemma read_exponent_end rest : number_end rest -> read_exponent rest = Some (0, rest).
Proof.
  destruct rest as [|c rest]; [done|]. intros (_ & _ & H1 & H2). unfold read_exponent.
  by rewrite decide_False by tauto.
Qed.

Lemma read_exponent_text x rest :
  number_end rest -> read_exponent (exponent_text x ++ rest) = Some (x, rest).
Proof.
  intros Hr. unfold exponent_text.
  destruct (unsigned_to_string_spec (Z.abs x) ltac:(lia)) as (Hd & Hv & Hne).
  set (u := unsigned_to_string (Z.abs x)) in *. set (ds := if zlen u <? 2 then _ else _).
  assert (Hds : digits ds /\ dec_value ds = Z.abs x /\ ds <> []).
  { subst ds. destruct (_ <? _); [|done]. split_and!; [by constructor| |done]. rewrite <- Hv. done. }
  destruct Hds as (Hds & Hval & Hnil).
  assert (Hrd : read_digits (ds ++ rest) = Some (Z.abs x, rest)).
  { unfold read_digits. rewrite span_digits_end by first [done|by apply fraction_digits_end, number_fraction_end].
    destruct ds; [done|]. by rewrite Hval. }
  cbn [app]. unfold read_exponent. rewrite decide_True by auto.
  destruct (Z.ltb_spec x 0); cbn [decide decide_rel]; rewrite Hrd; cbn; do 2 f_equal; lia.
Qed.

(** The text of six digits with their exponent, taken apart. *)
Lemma place_point_parts ds x :
  digits ds -> zlen ds = 6 -> (exists c ds', ds = c :: ds' /\ c <> "0"%char) ->
  exists whole frac tail x0,
    place_point ds x = with_point whole frac ++ tail
    /\ digits whole /\ whole_part whole = true /\ digits frac
    /\ (forall rest, number_end rest ->
          fraction_end (tail ++ rest) /\ read_exponent (tail ++ rest) = Some (x0, rest))
    /\ dec_value (whole ++ frac) = dec_value ds /\ x0 - zlen frac = x - 5.
Proof.
  intros Hd H6 (c & ds' & Eds & Hc). unfold place_point.
  assert (Hfirst : forall k, 1 <= k <= 6 -> whole_part (ztake k ds) = true).
  { intros k Hk. subst ds. unfold ztake. replace (Z.to_nat k) with (S (Z.to_nat (k - 1))) by lia.
    cbn [firstn]. destruct (take _ ds'); [done|]. simpl. by apply bool_decide_eq_true. }
  assert (Htd : forall k, digits (ztake k ds) /\ digits (zdrop k ds)).
  { intros k. split; [by apply Forall_take|by apply Forall_drop]. }
  assert (Htail : forall rest, number_end rest ->
    fraction_end ([] ++ rest) /\ read_exponent ([] ++ rest) = Some (0, rest)).
  { intros rest Hr. split; [by apply number_fraction_end|by apply read_exponent_end]. }
  destruct ((-4 <=? x) && (x <? 6)) eqn:E; [destruct (0 <=? x) eqn:E0|]; zify_bool.
  - exists (ztake (x + 1) ds), (zdrop (x + 1) ds), [], 0.
    rewrite app_nil_r, ztake_zdrop, zlen_zdrop by lia.
    split_and!; [done|by apply Htd|apply Hfirst; lia|by apply Htd|done|done|lia].
  - exists (str "0"), (replicate (Z.to_nat (- x - 1)) "0"%char ++ ds), [], 0.
    rewrite app_nil_r. split_and!; [done|by repeat constructor|done| |done| |].
    + apply Forall_app. split; [|done]. by apply Forall_replicate.
    + rewrite app_assoc. change (str "0" ++ replicate (Z.to_nat (- x - 1)) "0"%char)
        with (replicate (S (Z.to_nat (- x - 1))) "0"%char).
      generalize (S (Z.to_nat (- x - 1))) as j. clear. intros j.
      induction j as [|j IH]; [done|]. rewrite <- IH. done.
    + rewrite zlen_app, H6. unfold zlen. rewrite length_replicate. lia.
  - exists (ztake 1 ds), (zdrop 1 ds), (exponent_text x), x.
    rewrite ztake_zdrop, zlen_zdrop by lia.
    split_and!; [done|by apply Htd|apply Hfirst; lia|by apply Htd| |done|lia].
    intros rest Hr. split; [|by apply read_exponent_text]. done.
Qed.

Lemma read_print_positive negative n d :
  0 < n -> 0 < d ->
  exists m k, close n d m k
    /\ (exists c text, print_positive n d = c :: text /\ is_digit c = true)
    /\ forall rest, number_end rest ->
         read_unsigned negative (print_positive n d ++ rest) = Some (MkDecimal negative m k, rest).
Proof.
  intros Hn Hd. unfold print_positive. destruct (six_digits n d) as [m x] eqn:E.
  destruct (six_digits_spec _ _ _ _ Hn Hd E) as [Hm Hc].
  destruct (unsigned_to_string_spec m ltac:(lia)) as (Hds & Hv & _).
  destruct (unsigned_digits m ltac:(lia)) as (Hl0 & Hl1 & Hl2).
  set (ds := unsigned_to_string m) in *.
  assert (H6 : zlen ds = 6).
  { destruct (Z.lt_trichotomy (zlen ds) 6) as [H|[H|H]]; [|done|].
    - pose proof (Z.pow_le_mono_r 10 (zlen ds) 5 ltac:(lia) ltac:(lia)). lia.
    - pose proof (Z.pow_le_mono_r 10 6 (zlen ds - 1) ltac:(lia) ltac:(lia)). lia. }
  assert (Hhead : exists c ds', ds = c :: ds' /\ c <> "0"%char).
  { destruct ds as [|c ds'] eqn:Ed; [done|]. exists c, ds'. split; [done|]. intros ->.
    assert (Hv' : dec_value ds' = m) by (rewrite <- Hv; done).
    apply Forall_cons in Hds as [_ Hds'%dec_value_bound]. rewrite zlen_cons in H6.
    replace (zlen ds') with 5 in Hds' by lia. lia. }
  destruct (place_point_parts ds x Hds H6 Hhead)
    as (whole & frac & tail & x0 & Hp & Hw & Hwp & Hf & Ht & Hval & Hx).
  eexists _, _. split; [|split].
  - apply (close_strip n d whole frac x0). by rewrite Hval, Hv, Hx.
  - rewrite Hp. destruct whole as [|c w]; [done|]. apply Forall_cons in Hw as [Hc0 _].
    unfold with_point. by destruct (strip_zeros frac); eexists _, _.
  - intros rest Hr. destruct (Ht rest Hr) as [H1 H2]. rewrite Hp, <- app_assoc. by apply read_with_point.
Qed.

Lemma scaled_pos m e n d : scaled 2 (Z.pos m) e = (n, d) -> 0 < n /\ 0 < d.
Proof.
  unfold scaled. destruct (Z.leb_spec 0 e) as [He|He]; intros [= <- <-]; lia.
Qed.

Lemma read_sign negative c text :
  is_digit c = true ->
  read_number (sign_text negative ++ c :: text) = read_unsigned negative (c :: text).
Proof.
  intros Hc. destruct negative; [done|]. cbn [sign_text app read_number].
  by rewrite decide_False by by intros ->.
Qed.

(** The decimal a reader finds where [x] was printed. *)
Definition decimal_of (x : double) : decimal :=
  match read_number (print_double x) with Some (dec, _) => dec | None => MkDecimal false 0 0 end.

(** What is printed for a finite number is read as a decimal close to it. *)
Lemma read_print_double x :
  is_finite x = true ->
  approximates (decimal_of x) x
  /\ forall rest, number_end rest ->
       read_number (print_double x ++ rest) = Some (decimal_of x, rest).
Proof.
  intros Hx. assert (H : exists dec, approximates dec x /\ forall rest, number_end rest ->
    read_number (print_double x ++ rest) = Some (dec, rest)).
  { destruct x as [s|s| |s m e]; [|done|done|].
    - exists (MkDecimal s 0 0). split; [done|]. intros rest Hr. cbn [print_double].
      rewrite <- app_assoc. change (str "0" ++ rest) with ("0"%char :: rest). rewrite read_sign by done.
      pose proof (read_with_point s (str "0") [] rest 0 rest ltac:(by repeat constructor) eq_refl
        (Forall_nil_2 _) (number_fraction_end _ Hr) (read_exponent_end _ Hr)) as H. exact H.
    - cbn [print_double approximates].
      destruct (scaled 2 (Z.pos m) e) as [n d] eqn:E.
      destruct (scaled_pos _ _ _ _ E) as [Hn Hd].
      destruct (read_print_positive s n d Hn Hd) as (dm & k & Hc & (c & t & Hp & Hdig) & Hr).
      exists (MkDecimal s dm k). split; [done|]. intros rest Hrest.
      rewrite <- (Hr rest Hrest), Hp, <- app_assoc. by apply (read_sign s c (t ++ rest)). }
  destruct H as (dec & Ha & Hr).
  assert (decimal_of x = dec) as ->; [|done].
  unfold decimal_of. rewrite <- (app_nil_r (print_double x)). by rewrite (Hr [] I).
Qed.

Lemma print_double_head x :
  is_finite x = true ->
  exists c t, print_double x = c :: t /\ (is_digit c = true \/ c = "-"%char).
Proof.
  destruct x as [s|s| |s m e]; [|done|done|]; intros _; cbn [print_double].
  - destruct s; [by exists "-"%char, (str "0"); auto|by exists "0"%char, []; auto].
  - destruct (scaled 2 (Z.pos m) e) as [n d] eqn:E. destruct (scaled_pos _ _ _ _ E) as [Hn Hd].
    destruct (read_print_positive s n d Hn Hd) as (_ & _ & _ & (c & t & -> & Hc) & _).
    destruct s; [by exists "-"%char, (c :: t); auto|by exists c, t; auto].
Qed.
