(* ===== verification/BenchReport.v ===== *)
(** benchmarks/RadishBench.cpp: the result files of a run, and reading them.

    The code writes the JSON text and the line of the CSV file with stream
    insertions one after the other; what they put on the device is what one
    insertion of the whole text puts there. What [uname] reports is an argument.
    [read_json] is a reader of JSON objects, strings and numbers (it knows no
    arrays, no literals and no \u escapes), [split_on] takes a CSV file apart. *)

From S2P Require Import Prelude Decimal Streams RadishBench BenchmarkStatistics DoubleText.
Open Scope Z_scope.

(** ** Writing *)

Record utsname := MkUtsname { sysname : bytes; release : bytes; machine : bytes }.

(** [information] is [None] when [uname] fails. *)
Definition SystemMetadata (information : option utsname) : bytes :=
  match information with
  | None => str "unknown"
  | Some u => sysname u ++ str " " ++ release u ++ str " " ++ machine u
  end.

Definition QUOTE : ascii := "034".

Definition quoted (s : bytes) : bytes := QUOTE :: s ++ [QUOTE].

(** A name and a value, a line of the JSON text, and a latency in its last line. *)
Definition json_field (name : String.string) (value : bytes) : bytes :=
  quoted (str name) ++ str ": " ++ value.
Arguments json_field name%_string.

Definition json_line (name : String.string) (value : bytes) : bytes :=
  str "  " ++ json_field name value ++ str "," ++ [LF].
Arguments json_line name%_string.

Definition json_latencies (st : BenchmarkStatistics) : bytes :=
  str "{ " ++ json_field "min" (print_double (minimumMilliseconds st))
  ++ str ", " ++ json_field "mean" (print_double (meanMilliseconds st))
  ++ str ", " ++ json_field "p50" (print_double (p50Milliseconds st))
  ++ str ", " ++ json_field "p99" (print_double (p99Milliseconds st))
  ++ str ", " ++ json_field "p99_5" (print_double (p995Milliseconds st))
  ++ str ", " ++ json_field "max" (print_double (maximumMilliseconds st)) ++ str " }".

Definition json_text (options : Options) (environment : bytes) (st : BenchmarkStatistics) : bytes :=
  str "{" ++ [LF]
  ++ json_line "host" (quoted (host options))
  ++ json_line "port" (quoted (port options))
  ++ json_line "label" (quoted (label options))
  ++ json_line "workload" (quoted (workload options))
  ++ json_line "clients" (to_string (clients options))
  ++ json_line "pipeline" (to_string (pipeline options))
  ++ json_line "duration_seconds" (to_string (durationSeconds options))
  ++ json_line "warmup_seconds" (to_string (warmupSeconds options))
  ++ json_line "key_count" (to_string (keyCount options))
  ++ json_line "key_size" (to_string (keySize options))
  ++ json_line "value_size" (to_string (valueSize options))
  ++ json_line "seed" (to_string (seed options))
  ++ json_line "environment" (quoted environment)
  ++ json_line "operations" (to_string (operations st))
  ++ json_line "errors" (to_string (errors st))
  ++ json_line "throughput_ops_per_second" (print_double (throughput st))
  ++ str "  " ++ json_field "latency_ms" (json_latencies st) ++ [LF]
  ++ str "}" ++ [LF].

(** The insertion of values separated by commas. *)
Fixpoint comma_separated (values : list bytes) : bytes :=
  match values with
  | [] => []
  | [value] => value
  | value :: values => value ++ str "," ++ comma_separated values
  end.

Definition csv_header : list bytes :=
  [str "workload"; str "clients"; str "pipeline"; str "operations"; str "errors";
   str "throughput_ops_per_second"; str "min_ms"; str "mean_ms"; str "p50_ms"; str "p99_ms";
   str "p99_5_ms"; str "max_ms"].

Definition csv_values (options : Options) (st : BenchmarkStatistics) : list bytes :=
  [workload options; to_string (clients options); to_string (pipeline options);
   to_string (operations st); to_string (errors st); print_double (throughput st);
   print_double (minimumMilliseconds st); print_double (meanMilliseconds st);
   print_double (p50Milliseconds st); print_double (p99Milliseconds st);
   print_double (p995Milliseconds st); print_double (maximumMilliseconds st)].

Definition csv_text (options : Options) (st : BenchmarkStatistics) : bytes :=
  comma_separated csv_header ++ [LF] ++ comma_separated (csv_values options st) ++ [LF].

(** [std::ofstream file(path)] empties the file, when it can be opened. *)
Definition open_output (io : IoEnv) (path : bytes) (disk : Disk) : Disk :=
  if io_open_write io then <[path := []]> disk else disk.

Definition json_path (options : Options) : bytes := outputPrefix options ++ str ".json".
Definition csv_path (options : Options) : bytes := outputPrefix options ++ str ".csv".

(** The destructors close the files and report nothing. *)
Definition WriteResults (json_io csv_io : IoEnv) (information : option utsname) (options : Options)
    (st : BenchmarkStatistics) (disk : Disk) : Disk * result unit :=
  let disk := open_output csv_io (csv_path options) (open_output json_io (json_path options) disk) in
  if negb (io_open_write json_io) || negb (io_open_write csv_io)
  then (disk, Throw (runtime_error (str "Failed to create benchmark result files")))
  else
    let json := os_write (ofstream json_io) (json_text options (SystemMetadata information) st) in
    let csv := os_write (ofstream csv_io) (csv_text options st) in
    (<[csv_path options := os_data csv]> (<[json_path options := os_data json]> disk), Ok tt).

(** ** Reading *)

Inductive json :=
  | JString (s : bytes)
  | JNumber (d : decimal)
  | JObject (fields : list (bytes * json)).

Definition is_blank (c : ascii) : bool := bool_decide (c ∈ [" "%char; "009"%char; LF; CR]).

Fixpoint skip_blank (input : bytes) : bytes :=
  match input with
  | c :: input' => if is_blank c then skip_blank input' else input
  | [] => []
  end.

(** The character an escape stands for. *)
Definition unescape (c : ascii) : option ascii :=
  if bool_decide (c ∈ [QUOTE; "\"%char; "/"%char]) then Some c
  else if decide (c = "b"%char) then Some "008"%char
  else if decide (c = "f"%char) then Some "012"%char
  else if decide (c = "n"%char) then Some LF
  else if decide (c = "r"%char) then Some CR
  else if decide (c = "t"%char) then Some "009"%char
  else None.

(** A string, after its first quotation mark. *)
Fixpoint read_string (input : bytes) : option (bytes * bytes) :=
  match input with
  | [] => None
  | c :: input =>
      if decide (c = QUOTE) then Some ([], input)
      else if decide (c = "\"%char) then
        match input with
        | e :: input => c ← unescape e; '(s, rest) ← read_string input; Some (c :: s, rest)
        | [] => None
        end
      else if byte_val c <? 32 then None
      else '(s, rest) ← read_string input; Some (c :: s, rest)
  end.

Definition expect (c : ascii) (input : bytes) : option bytes :=
  match skip_blank input with
  | d :: rest => if decide (d = c) then Some rest else None
  | [] => None
  end.

(** A value, and the members of an object up to its closing brace. *)
Fixpoint read_value (fuel : nat) (input : bytes) : option (json * bytes) :=
  match fuel with
  | O => None
  | S fuel =>
      match skip_blank input with
      | [] => None
      | c :: rest =>
          if decide (c = QUOTE) then '(s, rest) ← read_string rest; Some (JString s, rest)
          else if decide (c = "{"%char) then
            match expect "}" rest with
            | Some rest => Some (JObject [], rest)
            | None => '(fields, rest) ← read_members fuel rest; Some (JObject fields, rest)
            end
          else '(d, rest) ← read_number (c :: rest); Some (JNumber d, rest)
      end
  end
with read_members (fuel : nat) (input : bytes) : option (list (bytes * json) * bytes) :=
  match fuel with
  | O => None
  | S fuel =>
      rest ← expect QUOTE input;
      '(name, rest) ← read_string rest;
      rest ← expect ":" rest;
      '(value, rest) ← read_value fuel rest;
      match expect "," rest with
      | Some rest => '(fields, rest) ← read_members fuel rest; Some ((name, value) :: fields, rest)
      | None => rest ← expect "}" rest; Some ([(name, value)], rest)
      end
  end.

Definition read_json (input : bytes) : option json :=
  '(value, rest) ← read_value (S (length input)) input;
  match skip_blank rest with [] => Some value | _ => None end.

(** The pieces between the separators. *)
Fixpoint split_on (c : ascii) (text : bytes) : list bytes :=
  match text with
  | [] => [[]]
  | d :: text =>
      if decide (d = c) then [] :: split_on c text
      else match split_on c text with
           | [] => [[d]]
           | piece :: pieces => (d :: piece) :: pieces
           end
  end.

(** ** Lemmas *)

(** A printable ASCII character that JSON does not escape. *)
Definition plain_char (c : ascii) : bool :=
  (32 <=? byte_val c) && (byte_val c <? 127) && negb (bool_decide (c = QUOTE))
  && negb (bool_decide (c = "\"%char)).

Definition plain (s : bytes) : Prop := forallb plain_char s = true.

Lemma read_string_plain s rest : plain s -> read_string (s ++ QUOTE :: rest) = Some (s, rest).
Proof.
  induction s as [|c s IH]; [done|]. unfold plain. cbn [forallb]. intros [Hc Hs]%andb_prop.
  unfold plain_char in Hc. zify_bool. repeat match goal with H : bool_decide _ = false |- _ =>
    apply bool_decide_eq_false in H end.
  cbn [app read_string]. rewrite !decide_False, (proj2 (Z.ltb_ge _ _)) by (done || lia).
  by rewrite IH.
Qed.

(** What follows a value in the text. *)
Definition value_end (rest : bytes) : Prop :=
  match rest with c :: _ => c ∈ [","%char; " "%char; "}"%char; LF] | [] => False end.

Lemma value_number_end rest : value_end rest -> number_end rest.
Proof.
  destruct rest as [|c rest]; [done|]. unfold value_end, number_end. rewrite !elem_of_cons, elem_of_nil.
  by intros [->|[->|[->|[->|[]]]]].
Qed.

(** Read with at least [n] units of fuel, the text is the value. *)
Definition denotes (n : nat) (text : bytes) (v : json) : Prop :=
  forall fuel rest, (n <= fuel)%nat -> value_end rest -> read_value fuel (text ++ rest) = Some (v, rest).

Lemma denotes_string s : plain s -> denotes 1 (quoted s) (JString s).
Proof.
  intros Hs [|fuel] rest Hf _; [lia|]. unfold quoted. cbn [app read_value skip_blank].
  rewrite <- app_assoc. change (is_blank QUOTE) with false. cbn iota. rewrite decide_True by done.
  cbn [app]. by rewrite (read_string_plain s rest Hs).
Qed.

(** A number starts with a digit or a minus sign. *)
Lemma denotes_number text d :
  (exists c text', text = c :: text' /\ (is_digit c = true \/ c = "-"%char)) ->
  (forall rest, number_end rest -> read_number (text ++ rest) = Some (d, rest)) ->
  denotes 1 text (JNumber d).
Proof.
  intros (c & text' & -> & Hc) Hd [|fuel] rest Hf Hr; [lia|]. cbn [app read_value skip_blank].
  assert (is_blank c = false /\ c <> QUOTE /\ c <> "{"%char) as (-> & H1 & H2).
  { destruct Hc as [Hc| ->]; [|done]. split; [|by split; intros ->].
    unfold is_blank. apply bool_decide_eq_false. rewrite !elem_of_cons, elem_of_nil.
    by intros [->|[->|[->|[->|[]]]]]. }
  rewrite !decide_False by done. change (c :: text' ++ rest) with ((c :: text') ++ rest).
  by rewrite (Hd rest (value_number_end _ Hr)).
Qed.

Lemma unsigned_head n : 0 < n -> exists c t, unsigned_to_string n = c :: t /\ is_digit c = true /\ c <> "0"%char.
Proof.
  intros Hn. destruct (unsigned_to_string_spec n ltac:(lia)) as (Hd & Hv & Hne).
  destruct (unsigned_digits n Hn) as (Hl & Hlo & _).
  destruct (unsigned_to_string n) as [|c t]; [done|]. exists c, t. apply Forall_cons in Hd as [Hc Ht].
  split_and!; [done|done|]. intros ->. apply dec_value_bound in Ht.
  change (dec_value ("0"%char :: t)) with (dec_value t) in Hv. rewrite zlen_cons in Hlo.
  replace (1 + zlen t - 1) with (zlen t) in Hlo by lia. lia.
Qed.

Lemma read_to_string n rest :
  0 <= n -> number_end rest -> read_number (to_string n ++ rest) = Some (MkDecimal false n 0, rest).
Proof.
  intros Hn Hr. destruct (to_string_digits n Hn) as (Hd & Hv & Hne).
  assert (Hwp : whole_part (to_string n) = true).
  { destruct (Z.eq_dec n 0) as [->|]; [done|]. unfold to_string. rewrite (proj2 (Z.ltb_ge _ _)) by lia.
    destruct (unsigned_head n ltac:(lia)) as (c & [|d t] & -> & _ & Hc); [done|].
    by apply bool_decide_eq_true. }
  destruct (to_string n) as [|c t]; [done|].
  change ((c :: t) ++ rest) with (sign_text false ++ c :: (t ++ rest)).
  rewrite read_sign by by apply Forall_cons in Hd as [Hc _].
  pose proof (read_with_point false (c :: t) [] rest 0 rest Hd Hwp (Forall_nil_2 _)
    (number_fraction_end _ Hr) (read_exponent_end _ Hr)) as H.
  unfold with_point in H. cbn [strip_zeros] in H. rewrite app_nil_r, Hv in H. exact H.
Qed.

Lemma denotes_integer n : 0 <= n -> denotes 1 (to_string n) (JNumber (MkDecimal false n 0)).
Proof.
  intros Hn. apply denotes_number; [|intros rest; by apply read_to_string].
  destruct (to_string_digits n Hn) as (Hd & _ & Hne). destruct (to_string n) as [|c t]; [done|].
  exists c, t. split; [done|]. left. by apply Forall_cons in Hd as [Hc _].
Qed.

Lemma denotes_double x : is_finite x = true -> denotes 1 (print_double x) (JNumber (decimal_of x)).
Proof.
  intros Hx. apply denotes_number; [|by apply read_print_double].
  destruct (print_double_head x Hx) as (c & t & -> & Hc). by exists c, t.
Qed.

Lemma read_members_blank fuel c t : is_blank c = true -> read_members fuel (c :: t) = read_members fuel t.
Proof. intros Hc. destruct fuel; [done|]. cbn [read_members]. unfold expect at 1 4. cbn [skip_blank]. by rewrite Hc. Qed.

Lemma expect_here c d rest :
  is_blank d = false -> expect c (d :: rest) = if decide (d = c) then Some rest else None.
Proof. intros Hd. unfold expect. cbn [skip_blank]. by rewrite Hd. Qed.

Lemma read_field fuel name text v rest n :
  plain (str name) -> denotes n text v -> (n <= fuel)%nat -> value_end rest ->
  read_members (S fuel) (json_field name text ++ rest)
  = match expect "," rest with
    | Some rest => '(fields, rest) ← read_members fuel rest; Some ((str name, v) :: fields, rest)
    | None => rest ← expect "}" rest; Some ([(str name, v)], rest)
    end.
Proof.
  intros Hn Hv Hf Hr. unfold json_field, quoted. cbn [app read_members].
  rewrite expect_here, decide_True by done. cbn [mbind option_bind].
  rewrite <- !app_assoc. cbn [app].
  rewrite (read_string_plain (str name) _ Hn). cbn [mbind option_bind].
  change (str ": " ++ text ++ rest) with (":"%char :: " "%char :: text ++ rest).
  rewrite expect_here, decide_True by done. cbn [mbind option_bind].
  assert (Hb : read_value fuel (" "%char :: text ++ rest) = read_value fuel (text ++ rest)) by by destruct fuel.
  by rewrite Hb, (Hv fuel rest Hf Hr).
Qed.

Lemma read_json_line fuel name text v rest :
  plain (str name) -> denotes 1 text v -> (1 <= fuel)%nat ->
  read_members (S fuel) (json_line name text ++ rest)
  = '(fields, rest) ← read_members fuel rest; Some ((str name, v) :: fields, rest).
Proof.
  intros Hn Hv Hf. unfold json_line. rewrite <- !app_assoc. cbn [str String.list_ascii_of_string app].
  rewrite !read_members_blank by done. rewrite (read_field fuel name text v _ 1) by (done || by left).
  rewrite expect_here, decide_True by done. by rewrite read_members_blank.
Qed.

Lemma read_latency fuel name text v rest :
  plain (str name) -> denotes 1 text v -> (1 <= fuel)%nat ->
  read_members (S fuel) (json_field name text ++ str ", " ++ rest)
  = '(fields, rest) ← read_members fuel rest; Some ((str name, v) :: fields, rest).
Proof.
  intros Hn Hv Hf. cbn [str String.list_ascii_of_string app].
  rewrite (read_field fuel name text v _ 1) by (done || by left).
  rewrite expect_here, decide_True by done. by rewrite read_members_blank.
Qed.

(** The member after which the object ends. *)
Lemma read_last fuel name text v rest n :
  plain (str name) -> denotes n text v -> (n <= fuel)%nat -> value_end rest ->
  expect "," rest = None ->
  read_members (S fuel) (json_field name text ++ rest)
  = rest ← expect "}" rest; Some ([(str name, v)], rest).
Proof. intros Hn Hv Hf Hr Hc. by rewrite (read_field fuel name text v rest n), Hc. Qed.

(** The values in the files. *)
Definition number (n : Z) : json := JNumber (MkDecimal false n 0).
Definition figure (x : double) : json := JNumber (decimal_of x).

Definition latency_object (st : BenchmarkStatistics) : json :=
  JObject [(str "min", figure (minimumMilliseconds st)); (str "mean", figure (meanMilliseconds st));
    (str "p50", figure (p50Milliseconds st)); (str "p99", figure (p99Milliseconds st));
    (str "p99_5", figure (p995Milliseconds st)); (str "max", figure (maximumMilliseconds st))].

Definition results_object (options : Options) (environment : bytes) (st : BenchmarkStatistics) : json :=
  JObject [(str "host", JString (host options)); (str "port", JString (port options));
    (str "label", JString (label options)); (str "workload", JString (workload options));
    (str "clients", number (clients options)); (str "pipeline", number (pipeline options));
    (str "duration_seconds", number (durationSeconds options));
    (str "warmup_seconds", number (warmupSeconds options));
    (str "key_count", number (keyCount options)); (str "key_size", number (keySize options));
    (str "value_size", number (valueSize options)); (str "seed", number (seed options));
    (str "environment", JString environment);
    (str "operations", number (operations st)); (str "errors", number (errors st));
    (str "throughput_ops_per_second", figure (throughput st));
    (str "latency_ms", latency_object st)].

Abbreviation finite_figures st := (Forall (fun x => is_finite x = true) (figures st)).

Lemma finite_figure st x : finite_figures st -> x ∈ figures st -> denotes 1 (print_double x) (figure x).
Proof. intros Hf Hx. apply denotes_double. by apply (proj1 (Forall_forall _ _) Hf). Qed.

(** The side conditions of reading a member. *)
Ltac read_member :=
  first [done | lia | right; by left
    | eapply finite_figure; [eassumption|unfold figures; repeat (first [left; reflexivity | right])]
    | by apply denotes_string | by apply denotes_integer].

Lemma denotes_latencies st : finite_figures st -> denotes 9 (json_latencies st) (latency_object st).
Proof.
  intros Hf fuel rest Hfuel _. unfold json_latencies.
  destruct (Nat.le_exists_sub 9 fuel Hfuel) as (f & -> & _). rewrite Nat.add_comm.
  rewrite <- !app_assoc. cbn [Nat.add]. 
  change (str "{ " ++ ?t) with ("{"%char :: " "%char :: t).
  cbn [read_value skip_blank]. change (is_blank "{"%char) with false. cbn iota.
  rewrite decide_False, decide_True by done.
  assert (He : forall name text t, expect "}" (" "%char :: json_field name text ++ t) = None).
  { intros name text t. unfold expect. cbn [skip_blank]. change (is_blank " "%char) with true. cbn iota.
    unfold json_field, quoted. cbn [app skip_blank]. by change (is_blank QUOTE) with false. }
  rewrite He, read_members_blank by done.
  rewrite (read_latency _ "min" _ (figure (minimumMilliseconds st))) by read_member.
  rewrite (read_latency _ "mean" _ (figure (meanMilliseconds st))) by read_member.
  rewrite (read_latency _ "p50" _ (figure (p50Milliseconds st))) by read_member.
  rewrite (read_latency _ "p99" _ (figure (p99Milliseconds st))) by read_member.
  rewrite (read_latency _ "p99_5" _ (figure (p995Milliseconds st))) by read_member.
  rewrite (read_last _ "max" _ (figure (maximumMilliseconds st)) _ 1) by read_member.
  done.
Qed.

(** The numbers of the options are unsigned. *)
Definition unsigned_options (options : Options) : Prop :=
  Forall (fun n => 0 <= n)
    [clients options; pipeline options; durationSeconds options; warmupSeconds options;
     keyCount options; keySize options; valueSize options; seed options].

Definition plain_options (options : Options) : Prop :=
  Forall plain [host options; port options; label options; workload options].

Lemma read_object fuel c t :
  is_blank c = true -> expect "}" t = None ->
  read_value (S fuel) ("{"%char :: c :: t)
  = '(fields, rest) ← read_members fuel t; Some (JObject fields, rest).
Proof.
  intros Hc Ht. cbn [read_value skip_blank]. change (is_blank "{"%char) with false. cbn iota.
  rewrite decide_False, decide_True by done.
  assert (expect "}" (c :: t) = expect "}" t) as -> by (unfold expect; cbn [skip_blank]; by rewrite Hc).
  by rewrite Ht, read_members_blank.
Qed.

(** The members of the whole text. *)
Lemma read_json_members f options environment st :
  plain_options options -> plain environment -> unsigned_options options ->
  0 <= operations st -> 0 <= errors st -> finite_figures st ->
  exists t, json_text options environment st = "{"%char :: LF :: t
    /\ expect "}" t = None /\ (26 <= length t)%nat
    /\ exists fields, results_object options environment st = JObject fields
       /\ read_members (26 + f) t = Some (fields, [LF]).
Proof.
  intros Hp He Hu Ho Hr Hf. eexists. split; [reflexivity|]. split; [reflexivity|].
  split; [unfold json_line, json_field, quoted; rewrite !length_app; simpl length; lia|].
  unfold plain_options, unsigned_options in *.
  repeat match goal with H : Forall _ (_ :: _) |- _ => apply Forall_cons in H as [? H] end.
  eexists. split; [reflexivity|]. cbn [Nat.add].
  rewrite (read_json_line _ "host" _ (JString (host options))) by read_member.
  rewrite (read_json_line _ "port" _ (JString (port options))) by read_member.
  rewrite (read_json_line _ "label" _ (JString (label options))) by read_member.
  rewrite (read_json_line _ "workload" _ (JString (workload options))) by read_member.
  rewrite (read_json_line _ "clients" _ (number (clients options))) by read_member.
  rewrite (read_json_line _ "pipeline" _ (number (pipeline options))) by read_member.
  rewrite (read_json_line _ "duration_seconds" _ (number (durationSeconds options))) by read_member.
  rewrite (read_json_line _ "warmup_seconds" _ (number (warmupSeconds options))) by read_member.
  rewrite (read_json_line _ "key_count" _ (number (keyCount options))) by read_member.
  rewrite (read_json_line _ "key_size" _ (number (keySize options))) by read_member.
  rewrite (read_json_line _ "value_size" _ (number (valueSize options))) by read_member.
  rewrite (read_json_line _ "seed" _ (number (seed options))) by read_member.
  rewrite (read_json_line _ "environment" _ (JString environment)) by read_member.
  rewrite (read_json_line _ "operations" _ (number (operations st))) by read_member.
  rewrite (read_json_line _ "errors" _ (number (errors st))) by read_member.
  rewrite (read_json_line _ "throughput_ops_per_second" _ (figure (throughput st))) by read_member.
  cbn [str String.list_ascii_of_string app]. rewrite !read_members_blank by done.
  rewrite (read_last _ "latency_ms" _ (latency_object st) _ 9)
    by (first [by apply denotes_latencies | done | lia | by do 3 right; left]).
  reflexivity.
Qed.

Lemma read_json_text options environment st :
  plain_options options -> plain environment -> unsigned_options options ->
  0 <= operations st -> 0 <= errors st -> finite_figures st ->
  read_json (json_text options environment st) = Some (results_object options environment st).
Proof.
  intros Hp He Hu Ho Hr Hf.
  pose (f := (length (json_text options environment st) - 26)%nat).
  destruct (read_json_members f _ _ _ Hp He Hu Ho Hr Hf) as (t & Ht & Hx & Hl & fields & Hj & Hm).
  assert (Hfuel : length (json_text options environment st) = (26 + f)%nat).
  { subst f. rewrite Ht. cbn [length]. lia. }
  unfold read_json. rewrite Hfuel, Hj. clearbody f. rewrite Ht, read_object, Hm by done. reflexivity.
Qed.

(** *** The CSV file *)

Lemma split_on_app c piece text :
  c ∉ piece ->
  split_on c (piece ++ text)
  = match split_on c text with [] => [piece] | p :: ps => (piece ++ p) :: ps end.
Proof.
  induction piece as [|d piece IH]; intros Hc; simpl.
  - destruct (split_on c text) eqn:E; [|done]. destruct text as [|d text]; simpl in E; [done|].
    case_decide; [done|]. by destruct (split_on c text).
  - apply not_elem_of_cons in Hc as [Hne Hc]. rewrite decide_False by congruence. rewrite IH by done.
    by destruct (split_on c text).
Qed.

Lemma split_on_piece c piece text : c ∉ piece -> split_on c (piece ++ c :: text) = piece :: split_on c text.
Proof.
  intros Hc. rewrite split_on_app by done. cbn [split_on]. rewrite decide_True by done. by rewrite app_nil_r.
Qed.

Lemma split_on_none c piece : c ∉ piece -> split_on c piece = [piece].
Proof. intros Hc. rewrite <- (app_nil_r piece) at 1. rewrite split_on_app by done. simpl. by rewrite app_nil_r. Qed.

(** Values with a separator between them. *)
Fixpoint join (c : ascii) (values : list bytes) : bytes :=
  match values with
  | [] => []
  | [value] => value
  | value :: values => value ++ c :: join c values
  end.

Lemma comma_separated_join values : comma_separated values = join "," values.
Proof.
  induction values as [|value [|v values] IH]; [done|done|].
  change (comma_separated (value :: v :: values)) with (value ++ ","%char :: comma_separated (v :: values)).
  by rewrite IH.
Qed.

Lemma split_join c values :
  values <> [] -> Forall (fun value => c ∉ value) values -> split_on c (join c values) = values.
Proof.
  intros Hne Hf. induction Hf as [|value values Hv Hf IH]; [done|].
  destruct values as [|v values]; [by apply split_on_none|].
  change (join c (value :: v :: values)) with (value ++ c :: join c (v :: values)).
  rewrite split_on_piece by done. by rewrite IH.
Qed.

Lemma join_not_in c d values :
  c <> d -> Forall (fun value => c ∉ value) values -> c ∉ join d values.
Proof.
  intros Hc. induction 1 as [|value values Hv Hf IH]; [apply not_elem_of_nil|].
  destruct values as [|v values]; [done|].
  change (join d (value :: v :: values)) with (value ++ d :: join d (v :: values)).
  by rewrite elem_of_app, elem_of_cons; intros [?|[?|?]].
Qed.

(** The characters of numbers. *)
Definition number_char (c : ascii) : bool :=
  is_digit c || bool_decide (c ∈ ["."%char; "e"%char; "+"%char; "-"%char]).

Definition rows (text : bytes) : list (list bytes) := split_on "," <$> split_on LF text.

Lemma rows_csv_text options st :
  Forall (fun value => forallb number_char value = true) (tail (csv_values options st)) ->
  ","%char ∉ workload options -> LF ∉ workload options ->
  rows (csv_text options st) = [csv_header; csv_values options st; [[]]].
Proof.
  intros Hnum Hc Hl.
  assert (Hnot : forall c, number_char c = false -> c ∉ workload options ->
    Forall (fun value => c ∉ value) (csv_values options st)).
  { intros c Hn Hw. unfold csv_values in *. cbn [tail] in Hnum. apply Forall_cons. split; [done|].
    eapply Forall_impl; [exact Hnum|]. intros value Hv Hin. rewrite forallb_forall in Hv.
    apply list_elem_of_In in Hin. specialize (Hv c Hin). congruence. }
  unfold rows, csv_text. rewrite !comma_separated_join. cbn [app]. rewrite (split_on_piece LF (join "," csv_header)).
  2: { apply (bool_decide_unpack _). by vm_compute. }
  rewrite (split_on_piece LF (join "," (csv_values options st))).
  2: { apply join_not_in; [done|]. by apply Hnot. }
  cbn [fmap list_fmap split_on].
  rewrite (split_join "," csv_header) by (first [done | apply (bool_decide_unpack _); by vm_compute]).
  rewrite split_join by (first [done | by apply Hnot]). done.
Qed.

Abbreviation number_chars text := (Forall (fun c => number_char c = true) text).

Lemma digits_number_chars ds : Forall (fun c => is_digit c = true) ds -> number_chars ds.
Proof. intros Hd. eapply Forall_impl; [exact Hd|]. intros c Hc. unfold number_char. by rewrite Hc. Qed.

Lemma place_point_chars ds x : Forall (fun c => is_digit c = true) ds -> number_chars (place_point ds x).
Proof.
  intros Hd. assert (Hwp : forall whole frac, Forall (fun c => is_digit c = true) whole ->
    Forall (fun c => is_digit c = true) frac -> number_chars (with_point whole frac)).
  { intros whole frac Hw%digits_number_chars Hf%strip_zeros_digits%digits_number_chars.
    unfold with_point. destruct (strip_zeros frac); [done|]. apply Forall_app. split; [done|].
    apply Forall_cons. by split. }
  unfold place_point. destruct (_ && _); [destruct (0 <=? x)|].
  - apply Hwp; [by apply Forall_take|by apply Forall_drop].
  - apply Hwp; [by repeat constructor|]. apply Forall_app. split; [by apply Forall_replicate|done].
  - apply Forall_app. split; [apply Hwp; [by apply Forall_take|by apply Forall_drop]|].
    unfold exponent_text.
    pose proof (digits_number_chars _ (proj1 (unsigned_to_string_spec (Z.abs x) ltac:(lia)))) as Hx.
    apply Forall_cons. split; [done|]. apply Forall_cons. split; [by destruct (x <? 0)|].
    destruct (_ <? 2); [by apply Forall_cons|done].
Qed.

Lemma print_double_chars x : is_finite x = true -> number_chars (print_double x).
Proof.
  destruct x as [s|s| |s m e]; [|done|done|]; intros _; cbn [print_double].
  - by destruct s; repeat constructor.
  - destruct (scaled 2 (Z.pos m) e) as [n d] eqn:E. destruct (scaled_pos _ _ _ _ E) as [Hn Hd].
    apply Forall_app. split; [by destruct s; repeat constructor|].
    unfold print_positive. destruct (six_digits n d) as [k x] eqn:E6.
    destruct (six_digits_spec _ _ _ _ Hn Hd E6) as [Hk _].
    apply place_point_chars, unsigned_to_string_spec. lia.
Qed.

Lemma csv_values_chars options st :
  unsigned_options options -> 0 <= operations st -> 0 <= errors st -> finite_figures st ->
  Forall (fun value => forallb number_char value = true) (tail (csv_values options st)).
Proof.
  intros Hu Ho Hr Hf. eapply Forall_impl with (P := fun value => number_chars value).
  2: { intros value Hv. apply forallb_forall. intros c Hc%list_elem_of_In.
       by apply (proj1 (Forall_forall _ _) Hv). }
  assert (Hint : forall n, 0 <= n -> number_chars (to_string n))
    by (intros n Hn; by apply digits_number_chars, to_string_digits).
  unfold unsigned_options, figures in *.
  repeat match goal with H : Forall _ (_ :: _) |- _ => apply Forall_cons in H as [? H] end.
  unfold csv_values. cbn [tail]. repeat (apply Forall_cons; split); try apply Forall_nil_2.
  all: first [by apply Hint | by apply print_double_chars].
Qed.

(** What stands in the column of that name. *)
Definition csv_cell (name text : bytes) : option bytes :=
  match rows text with
  | header :: values :: _ =>
      '(_, (_, cell)) ← list_find (fun x => x.1 = name) (zip header values); Some cell
  | _ => None
  end.

(** A text is read as a number, or as a decimal close to a [double]. *)
Definition says_integer (text : bytes) (n : Z) : Prop := read_number text = Some (MkDecimal false n 0, []).
Definition says_figure (text : bytes) (x : double) : Prop :=
  exists d, read_number text = Some (d, []) /\ approximates d x.

Lemma says_to_string n : 0 <= n -> says_integer (to_string n) n.
Proof. intros Hn. pose proof (read_to_string n [] Hn I) as H. by rewrite app_nil_r in H. Qed.

Lemma says_print_double x : is_finite x = true -> says_figure (print_double x) x.
Proof.
  intros Hx. destruct (read_print_double x Hx) as [Ha Hr]. exists (decimal_of x). split; [|done].
  pose proof (Hr [] I) as H. by rewrite app_nil_r in H.
Qed.

(** What a CSV file of one run says: two lines, with these columns. *)
Record csv_says (options : Options) (st : BenchmarkStatistics) (text : bytes) : Prop := {
  csv_lines : exists header values, rows text = [header; values; [[]]] /\ length header = length values;
  csv_workload : csv_cell (str "workload") text = Some (workload options);
  csv_integers : Forall (fun '(name, n) => exists cell, csv_cell name text = Some cell /\ says_integer cell n)
    [(str "clients", clients options); (str "pipeline", pipeline options);
     (str "operations", operations st); (str "errors", errors st)];
  csv_figures : Forall (fun '(name, x) => exists cell, csv_cell name text = Some cell /\ says_figure cell x)
    [(str "throughput_ops_per_second", throughput st); (str "min_ms", minimumMilliseconds st);
     (str "mean_ms", meanMilliseconds st); (str "p50_ms", p50Milliseconds st);
     (str "p99_ms", p99Milliseconds st); (str "p99_5_ms", p995Milliseconds st);
     (str "max_ms", maximumMilliseconds st)];
}.

Lemma rows_say options st text :
  rows text = [csv_header; csv_values options st; [[]]] ->
  unsigned_options options -> 0 <= operations st -> 0 <= errors st -> finite_figures st ->
  csv_says options st text.
Proof.
  intros Hr Hu Ho He Hf. unfold unsigned_options, figures in Hu, Hf.
  repeat match goal with H : Forall _ (_ :: _) |- _ => apply Forall_cons in H as [? H] end.
  split.
  - by exists csv_header, (csv_values options st).
  - unfold csv_cell. rewrite Hr. reflexivity.
  - repeat (apply Forall_cons; split); try apply Forall_nil_2.
    all: eexists; (split; [unfold csv_cell; rewrite Hr; reflexivity|by apply says_to_string]).
  - repeat (apply Forall_cons; split); try apply Forall_nil_2.
    all: eexists; (split; [unfold csv_cell; rewrite Hr; reflexivity|by apply says_print_double]).
Qed.

(** *** Both files *)

(** The names [BuildCommand] knows. *)
Definition known_workload (w : bytes) : Prop :=
  w ∈ map str ["PING"; "SET"; "GET_HIT"; "GET_MISS"; "DEL"; "EXISTS"; "DBSIZE"; "KEYS"; "RENAME";
    "MIX50"; "READ95"; "WRITE95"]%string.

Lemma known_workload_plain w :
  known_workload w -> plain w /\ Forall (fun c => c ∉ w) [","%char; LF; " "%char; "="%char].
Proof.
  intros Hw. assert (H : Forall (fun w => plain w /\ Forall (fun c => c ∉ w) [","%char; LF; " "%char; "="%char])
    (map str ["PING"; "SET"; "GET_HIT"; "GET_MISS"; "DEL"; "EXISTS"; "DBSIZE"; "KEYS"; "RENAME";
    "MIX50"; "READ95"; "WRITE95"]%string)) by (apply (bool_decide_unpack _); by vm_compute).
  by apply (proj1 (Forall_forall _ _) H).
Qed.

(** The files of a run can be read back: *)
Definition files_read_back (options : Options) (environment : bytes) (st : BenchmarkStatistics)
    (disk disk' : Disk) : Prop :=
  (exists text, disk' !! json_path options = Some text
     /\ read_json text = Some (results_object options environment st))
  /\ (exists text, disk' !! csv_path options = Some text
     /\ csv_says options st text)
  /\ Forall (fun x => approximates (decimal_of x) x) (figures st)
  /\ forall path, path <> json_path options -> path <> csv_path options -> disk' !! path = disk !! path.

Lemma paths_differ options : json_path options <> csv_path options.
Proof. unfold json_path, csv_path. by intros E%app_inv_head. Qed.

Lemma run_figures_finite options samples errors_ st :
  unsigned_options options -> durationSeconds options < 2 ^ 64 ->
  Forall in_ll samples -> zlen samples < 2 ^ 40 ->
  CalculateBenchmarkStatistics samples errors_ (double_of_Z (durationSeconds options)) = Ok st ->
  finite_figures st.
Proof.
  intros Hu Hd Hs Hl Hst. eapply (figures_finite samples); [done| | |exact Hst].
  - eapply Z.lt_trans; [exact Hl|done].
  - split; [|done]. unfold unsigned_options in Hu.
    by repeat match goal with H : Forall _ (_ :: _) |- _ => apply Forall_cons in H as [? H] end.
Qed.

Lemma write_results_ok information options samples errors_ st disk disk' r :
  unsigned_options options -> durationSeconds options < 2 ^ 64 ->
  Forall plain [host options; port options; label options; SystemMetadata information] ->
  known_workload (workload options) ->
  Forall in_ll samples -> zlen samples < 2 ^ 40 -> 0 <= errors_ ->
  CalculateBenchmarkStatistics samples errors_ (double_of_Z (durationSeconds options)) = Ok st ->
  WriteResults io_ok io_ok information options st disk = (disk', r) ->
  r = Ok tt /\ files_read_back options (SystemMetadata information) st disk disk'.
Proof.
  intros Hu Hd Hp Hw Hs Hl He Hst. unfold WriteResults. cbn [io_ok io_open_write negb orb].
  intros [= <- <-]. split; [done|].
  repeat match goal with H : Forall _ (_ :: _) |- _ => apply Forall_cons in H as [? H] end.
  destruct (known_workload_plain _ Hw) as [Hwp (Hwc & (Hwl & _)%Forall_cons)%Forall_cons].
  pose proof (run_figures_finite options samples errors_ st Hu Hd Hs Hl Hst) as Hf.
  destruct (statistics_counts _ _ _ _ Hst) as [Ho Hr].
  pose proof (zlen_nonneg samples). pose proof (paths_differ options) as Hne.
  split_and!.
  - eexists. split; [rewrite lookup_insert_ne by done; apply lookup_insert_eq|].
    apply read_json_text; [by repeat (apply Forall_cons; split)|done|done|lia|lia|done].
  - eexists. split; [apply lookup_insert_eq|]. apply rows_say; [|done|lia|lia|done].
    apply rows_csv_text; [apply csv_values_chars; [done|lia|lia|done]|done|done].
  - eapply Forall_impl; [exact Hf|]. intros x Hx. by apply read_print_double.
  - intros path Hpj Hpc. rewrite !lookup_insert_ne by done. unfold open_output.
    cbn [io_ok io_open_write]. by rewrite !lookup_insert_ne.
Qed.

(** ** Property *)

(** C23: the result files can be read back. The disk works, and the host, the
    port, the label and the environment are plain: printable ASCII with no
    quotation mark and no backslash. Then the JSON file is an object with the
    options, the environment and the figures of the run, the CSV file has two
    lines, with the value of each column under its name, every figure is
    written as a decimal that is exact to half a unit of its sixth digit, and no
    other file changes. *)
Theorem results_read_back information options samples errors_ st disk disk' r :
  unsigned_options options -> durationSeconds options < 2 ^ 64 ->
  Forall plain [host options; port options; label options; SystemMetadata information] ->
  known_workload (workload options) ->
  Forall in_ll samples -> zlen samples < 2 ^ 40 -> 0 <= errors_ ->
  CalculateBenchmarkStatistics samples errors_ (double_of_Z (durationSeconds options)) = Ok st ->
  WriteResults io_ok io_ok information options st disk = (disk', r) ->
  r = Ok tt /\ files_read_back options (SystemMetadata information) st disk disk'.
Proof. apply write_results_ok. Qed.

(** ** Limits *)

Definition report_options (label : bytes) : Options :=
  MkOptions (str "127.0.0.1") (str "6379") (str "PING") (str "result") label 1 2 10 0 100 32 4 1 true.

Definition report_statistics : BenchmarkStatistics :=
  MkStatistics 4 0 (double_of_Z 2) (double_of_Z 1) (double_of_Z 2) (double_of_Z 2) (double_of_Z 4)
    (double_of_Z 4) (double_of_Z 4).

(** A label with a quotation mark makes a file that is not JSON. *)
Lemma quoted_label_breaks_json :
  read_json (json_text (report_options (str "a" ++ [QUOTE] ++ str "b")) (str "unknown") report_statistics)
  = None.
Proof. vm_compute. reflexivity. Qed.

(** A device that takes only ten bytes: the file is cut and nobody is told. *)
Lemma full_disk_unnoticed :
  let io := MkIoEnv true None true (Some 10%nat) false true true true in
  let '(disk, r) := WriteResults io io None (report_options (str "l")) report_statistics ∅ in
  r = Ok tt /\ disk !! str "result.csv" = Some (str "workload,c")
  /\ (text ← disk !! str "result.json"; read_json text) = None.
Proof. vm_compute. by split_and!. Qed.

(** ** Witness *)

Lemma results_read_back_witness :
  exists st disk, CalculateBenchmarkStatistics [4; 1; 3; 2] 2 (double_of_Z 10) = Ok st
    /\ WriteResults io_ok io_ok None (report_options (str "l")) st ∅ = (disk, Ok tt)
    /\ files_read_back (report_options (str "l")) (str "unknown") st ∅ disk.
Proof.
  destruct (ok_pair (fun _ => true) (tt, CalculateBenchmarkStatistics [4; 1; 3; 2] 2 (double_of_Z 10)))
    as (st & Hs & _); [vm_compute; reflexivity|]. apply (f_equal snd) in Hs. cbn [snd] in Hs.
  destruct (WriteResults io_ok io_ok None (report_options (str "l")) st ∅) as [disk r] eqn:E.
  destruct (results_read_back None (report_options (str "l")) [4; 1; 3; 2] 2 st ∅ disk r) as [-> H].
  - apply (bool_decide_unpack _). vm_compute. exact I.
  - reflexivity.
  - repeat (apply Forall_cons; split; [reflexivity|]). apply Forall_nil_2.
  - apply (bool_decide_unpack _). vm_compute. exact I.
  - repeat (apply Forall_cons; split; [split; discriminate|]). apply Forall_nil_2.
  - reflexivity.
  - discriminate.
  - exact Hs.
  - exact E.
  - exists st, disk. split; [exact Hs|]. split; [exact E|exact H].
Defined.
