(* ===== verification/BenchRun.v ===== *)
(** benchmarks/RadishBench.cpp: a run of the benchmark, from loading the keys to
    the figures.

    What is at the other end of a connection is a parameter: a [Peer] with the
    bytes it sends in answer to what is written to it, and whether it then closes
    its end; a read that wants more from an end that stays open waits for ever.
    The clock of a worker is a sequence of readings in nanoseconds, its random
    draws are a sequence too. Threads only meet in the server: a worker is a
    function of its connection, its clock and its draws. The threads are in
    [BenchMain], the result files in [BenchReport]. *)

From stdpp Require Import sorting.
From S2P Require Import Prelude Decimal RespCodec TcpServer RadishBench BenchmarkStatistics.
Open Scope Z_scope.

Section connection.
Context {Peer : Type} (deliver : bytes -> Peer -> Peer * result bytes) (closed : Peer -> bool).

(** A connection: what has arrived and was not read yet, and its other end. *)
Record RespConnection := MkConnection { m_buffer : bytes; peer : Peer }.

(** [asio::write], after which the answer arrives. *)
Definition write (request : bytes) (c : RespConnection) : RespConnection * result unit :=
  match deliver request (peer c) with
  | (p, Ok arrived) => (MkConnection (m_buffer c ++ arrived) p, Ok tt)
  | (p, Throw e) => (MkConnection (m_buffer c) p, Throw e)
  | (p, Undefined) => (MkConnection (m_buffer c) p, Undefined)
  end.

(** A read, by one of the functions of [RadishBench]. One that wants more than
    has arrived fails when the other end has closed, and never returns ([None])
    when it has not. *)
Definition read {A} (f : bytes -> result (A * bytes)) (c : RespConnection) :
    RespConnection * option (result A) :=
  match f (m_buffer c) with
  | Ok (a, rest) => (MkConnection rest (peer c), Some (Ok a))
  | Throw e =>
      if bool_decide (e = end_of_file) && negb (closed (peer c)) then (c, None)
      else (c, Some (Throw e))
  | Undefined => (c, Some Undefined)
  end.

Definition Execute (command : list bytes) (c : RespConnection) :
    RespConnection * option (result bool) :=
  match write (EncodeCommand command) c with
  | (c, Ok _) => read ReadResponse c
  | (c, Throw e) => (c, Some (Throw e))
  | (c, Undefined) => (c, Some Undefined)
  end.

(** The responses; the clock is read after each of them. *)
Definition ExecutePipeline (commands : list (list bytes)) (c : RespConnection) :
    RespConnection * option (result (list bool)) :=
  match write (pipeline_request commands) c with
  | (c, Ok _) => read (read_responses (length commands)) c
  | (c, Throw e) => (c, Some (Throw e))
  | (c, Undefined) => (c, Some Undefined)
  end.

(** The loop of [Preload], over the indices from [index] on. *)
Fixpoint preload_keys (options : Options) (index : Z) (n : nat) (c : RespConnection) :
    RespConnection * option (result unit) :=
  match n with
  | O => (c, Some (Ok tt))
  | S n =>
      match Execute [str "SET"; MakeKey index (keySize options); MakeValue (valueSize options)] c with
      | (c, Some (Ok stored)) =>
          if negb stored then (c, Some (Throw (runtime_error (str "Preload SET failed"))))
          else preload_keys options (index + 1) n c
      | (c, Some (Throw e)) => (c, Some (Throw e))
      | (c, Some Undefined) => (c, Some Undefined)
      | (c, None) => (c, None)
      end
  end.

(** The connection is made, by [connect], when there is something to load. *)
Definition Preload (connect : Peer -> Peer * result unit) (options : Options) (p : Peer) :
    Peer * option (result unit) :=
  if negb (preload options) then (p, Some (Ok tt))
  else
    match connect p with
    | (p, Ok _) =>
        let '(c, r) := preload_keys options 0 (Z.to_nat (keyCount options)) (MkConnection [] p) in
        (peer c, r)
    | (p, Throw e) => (p, Some (Throw e))
    | (p, Undefined) => (p, Some Undefined)
    end.

(** ** A worker *)

Record WorkerResult := MkWorkerResult { latencies : list Z; errors : Z }.

(** The readings of one round: before the loop's test, at its start, and after
    each response. *)
Record Round := MkRound { round_now : Z; round_started : Z; round_completion : nat -> Z }.

(** The commands of a round, from the [sequence]th draw on. *)
Fixpoint build_commands (options : Options) (draws : Z -> Draws) (n : nat) (sequence : Z) :
    result (list (list bytes)) :=
  match n with
  | O => Ok []
  | S n =>
      let! command := BuildCommand options (draws sequence) sequence in
      let! commands := build_commands options draws n (sequence + 1) in
      Ok (command :: commands)
  end.

(** The responses of a round, from the [index]th on. *)
Fixpoint record_responses (round : Round) (index : nat) (responses : list bool)
    (r : WorkerResult) : WorkerResult :=
  match responses with
  | [] => r
  | response :: responses =>
      record_responses round (S index) responses
        (if response : bool
         then MkWorkerResult (latencies r ++ [round_completion round index - round_started round])
                (errors r)
         else MkWorkerResult (latencies r) (errors r + 1))
  end.

(** [runUntil]: [rounds] are the readings of the rounds to come; the loop needs
    one round more than it makes commands for. *)
Fixpoint run_until (options : Options) (draws : Z -> Draws) (until : Z) (measure : bool)
    (rounds : list Round) (sequence : Z) (r : WorkerResult) (c : RespConnection) :
    RespConnection * option (result (WorkerResult * Z * list Round)) :=
  match rounds with
  | [] => (c, None)
  | round :: rounds =>
      if round_now round <? until then
        match build_commands options draws (Z.to_nat (pipeline options)) sequence with
        | Ok commands =>
            match ExecutePipeline commands c with
            | (c, Some (Ok responses)) =>
                run_until options draws until measure rounds (sequence + pipeline options)
                  (if measure then record_responses round 0 responses r else r) c
            | (c, Some (Throw e)) => (c, Some (Throw e))
            | (c, Some Undefined) => (c, Some Undefined)
            | (c, None) => (c, None)
            end
        | Throw e => (c, Some (Throw e))
        | Undefined => (c, Some Undefined)
        end
      else (c, Some (Ok (r, sequence, rounds)))
  end.

(** The warm-up and the measurement. [None] when a read never returns, or the
    readings given were not enough. *)
Definition RunWorker (options : Options) (draws : Z -> Draws) (warmupEnd measurementEnd : Z)
    (rounds : list Round) (c : RespConnection) : RespConnection * option (result WorkerResult) :=
  let r := MkWorkerResult [] 0 in
  match run_until options draws warmupEnd false rounds 0 r c with
  | (c, Some (Ok (r, sequence, rounds))) =>
      match run_until options draws measurementEnd true rounds sequence r c with
      | (c, Some (Ok (r, _, _))) => (c, Some (Ok r))
      | (c, Some (Throw e)) => (c, Some (Throw e))
      | (c, Some Undefined) => (c, Some Undefined)
      | (c, None) => (c, None)
      end
  | (c, Some (Throw e)) => (c, Some (Throw e))
  | (c, Some Undefined) => (c, Some Undefined)
  | (c, None) => (c, None)
  end.

End connection.
Arguments MkConnection {Peer}.
Arguments m_buffer {Peer}.
Arguments peer {Peer}.

(** The end of [main]: the samples and errors of all workers. *)
Definition collect_results (results : list WorkerResult) : list Z * Z :=
  fold_left (fun '(samples, errs) result =>
    (samples ++ latencies result, errs + errors result)) results ([], 0).

Definition run_statistics (options : Options) (results : list WorkerResult) :
    result BenchmarkStatistics :=
  let '(samples, errors) := collect_results results in
  CalculateBenchmarkStatistics samples errors (double_of_Z (durationSeconds options)).

(** ** The server at the other end *)

(** What is written reaches the server in one read (the cutting into reads does
    not matter, [TcpServer.chunking_is_irrelevant]), and what it queues arrives
    ([Service.queued_replies_get_sent]). *)
Definition deliver_server (request : bytes) (p : Session * World) : (Session * World) * result bytes :=
  match on_read request p.1 p.2 with
  | (s, w, Ok _) => ((s, w), Ok (zdrop (zlen (transcript p.1)) (transcript s)))
  | (s, w, Throw _) => ((s, w), Throw end_of_file)
  | (s, w, Undefined) => ((s, w), Undefined)
  end.

(** It closes its end when its replies have been sent. *)
Definition server_closes (p : Session * World) : bool := m_closeAfterWrite p.1.

(** A new connection to the server. *)
Definition connect_server (p : Session * World) : (Session * World) * result unit :=
  ((StartSession NewSession, p.2), Ok tt).

(** A connection the server reads from, with nothing left to answer. *)
Record idle (p : Session * World) : Prop := {
  idle_input : m_input p.1 = [];
  idle_open : m_closeAfterWrite p.1 = false;
  idle_world : world_ready p.2;
}.

Abbreviation ttl_of p := (RadishStore.m_ttl (RadishDB.m_store (database p.2).1)).
Abbreviation map_in p := (RadishStore.abs (RadishDB.m_store (database p.2).1)).

(** The contract of SET, alone. *)
Lemma answer_set_inv env ttl version m c k v reply close version' m' :
  Protocol.is_command c "SET" ->
  Protocol.answer env ttl version m [c; k; v] reply close version' m' ->
  reply = Protocol.OK /\ m' = (RadishStore.spec_call ttl (env_now env 0) (RadishStore.CallCreate k v None) m).2.
Proof.
  unfold Protocol.is_command. intros Hc Ha.
  inversion Ha; subst; unfold Protocol.is_command in *;
    try (match goal with Hn : Uppercase c = _ |- _ => rewrite Hc in Hn; discriminate Hn end).
  - split; [done|by destruct (ttl =? -1)].
  - match goal with Hn : Uppercase c = str ?n, Ht : ~ Protocol.takes ?n _ |- _ =>
      rewrite Hc in Hn; apply (f_equal String.string_of_list_ascii) in Hn; unfold str in Hn;
      rewrite !String.string_of_list_ascii_of_string in Hn; subst n; destruct Ht; constructor end.
  - match goal with Hn : forall name, name ∈ Protocol.commands -> _ |- _ =>
      destruct (Hn "SET"%string); [apply (bool_decide_unpack _); vm_compute; exact I|done] end.
Qed.

Lemma bulk_request_size a : zlen a <= kMaxBulkLength -> zlen (encode_bulk a) <= zlen a + 13.
Proof.
  unfold kMaxBulkLength. intros Ha. pose proof (zlen_nonneg a).
  pose proof (to_string_size (zlen a) 8 ltac:(change (10 ^ 8) with 100000000; lia) eq_refl).
  unfold encode_bulk. rewrite !zlen_app. change (zlen crlf) with 2. change (zlen (str "$")) with 1. lia.
Qed.

Lemma set_request_size k v :
  zlen k <= kMaxBulkLength -> zlen v <= kMaxBulkLength ->
  zlen (EncodeCommand [str "SET"; k; v]) <= zlen k + zlen v + 40.
Proof.
  intros Hk%bulk_request_size Hv%bulk_request_size. rewrite encode_command_eq. cbn [map concat].
  change (to_string (zlen [str "SET"; k; v])) with (str "3").
  rewrite zlen_cons, !zlen_app. change (zlen (encode_bulk (str "SET"))) with 9.
  change (zlen crlf) with 2. change (zlen (str "3")) with 1. change (zlen (@nil ascii)) with 0. lia.
Qed.

(** One SET, from the request to the response. *)
Lemma execute_set k v (p : Session * World) :
  idle p -> zlen k <= kMaxBulkLength -> zlen v <= kMaxBulkLength ->
  zlen k + zlen v + 40 <= kMaxBufferedInput ->
  exists p', Execute deliver_server server_closes [str "SET"; k; v] (MkConnection [] p) = (MkConnection [] p', Some (Ok true))
    /\ idle p' /\ ttl_of p' = ttl_of p
    /\ exists now, map_in p' = (RadishStore.spec_call (ttl_of p) now (RadishStore.CallCreate k v None) (map_in p)).2.
Proof.
  intros [Hi Hc Hw] Hk Hv Hkv. destruct p as [s w]. simpl in Hi, Hc, Hw.
  assert (Hp : plain_request [str "SET"; k; v]).
  { apply plain_words; [by vm_compute|simpl; lia|]. by repeat (apply Forall_cons; split; [done|]). }
  destruct (on_read_requests [[str "SET"; k; v]] [] s w) as
    (s' & w' & replies & Hr & Hconv & Ht & Hi' & _ & Hc' & Hw' & Httl);
    [by apply Forall_singleton|done| |done|done|done|].
  { cbn [map concat]. rewrite !app_nil_r. pose proof (set_request_size k v Hk Hv). lia. }
  cbn [map concat] in Hr. rewrite !app_nil_r in Hr.
  inversion Hconv as [|? ? ? ? ? reply replies0 v1 m1 v2 m2 Ha Hrest]; subst.
  inversion Hrest; subst. apply answer_set_inv in Ha as [-> Hm]; [|done].
  exists (s', w'). unfold Execute, write, deliver_server. cbn [peer m_buffer fst snd]. rewrite Hr.
  cbn [concat] in Ht. rewrite app_nil_r in Ht. rewrite Ht, zdrop_app. cbn [app].
  unfold read. cbn [m_buffer].
  pose proof (leaf_simple (str "OK") 32%nat []) as Hl. rewrite app_nil_r in Hl.
  change (read_response (S 32)) with ReadResponse in Hl. fold Protocol.OK in Hl. rewrite Hl.
  split_and!; [done|by split|done|]. eexists. exact Hm.
Qed.

(** Sizes within the protocol: a key, a value and a whole SET. *)
Record loadable (options : Options) : Prop := {
  load_key : 0 <= keySize options <= kMaxBulkLength;
  load_value : 0 <= valueSize options <= kMaxBulkLength;
  load_request : keySize options + valueSize options + 40 <= kMaxBufferedInput;
}.

(** The key holds the value of the benchmark, for good. *)
Definition loaded (options : Options) (p : Session * World) (k : bytes) : Prop :=
  map_in p !! k = Some (MakeValue (valueSize options), None).

Lemma preload_keys_served options n index (p : Session * World) :
  loadable options -> idle p -> ttl_of p = -1 ->
  exists p', preload_keys deliver_server server_closes options index n (MkConnection [] p)
      = (MkConnection [] p', Some (Ok tt))
    /\ idle p' /\ ttl_of p' = -1
    /\ (forall k, loaded options p k -> loaded options p' k)
    /\ forall i, index <= i < index + Z.of_nat n -> loaded options p' (MakeKey i (keySize options)).
Proof.
  intros [Hk Hv Hr]. revert index p. induction n as [|n IH]; intros index p Hp Ht.
  { exists p. split_and!; try done. intros i Hi. lia. }
  assert (Hsv : zlen (MakeValue (valueSize options)) = valueSize options)
    by (unfold MakeValue, zlen; rewrite length_replicate; lia).
  pose proof (make_key_size index (keySize options) ltac:(lia)) as Hsk.
  destruct (execute_set (MakeKey index (keySize options)) (MakeValue (valueSize options)) p Hp)
    as (p1 & He & Hp1 & Ht1 & now & Hm); [lia..|].
  rewrite Ht in Ht1, Hm. cbn [RadishStore.spec_call] in Hm. simpl in Hm.
  unfold RadishStore.Spec.insert_entry in Hm.
  destruct (IH (index + 1) p1 Hp1 Ht1) as (p2 & Hl & Hp2 & Ht2 & Hkeep & Hnew).
  exists p2. cbn [preload_keys]. rewrite He. cbn [negb]. split_and!; [done..| |].
  - intros k Hlk. apply Hkeep. unfold loaded in *. rewrite Hm, lookup_insert. by case_decide.
  - intros i Hi. destruct (decide (i = index)) as [->|]; [|apply Hnew; lia].
    apply Hkeep. unfold loaded. by rewrite Hm, lookup_insert_eq.
Qed.

(** ** The figures of a worker *)

Lemma build_commands_length options draws n sequence commands :
  build_commands options draws n sequence = Ok commands -> length commands = n.
Proof.
  revert sequence commands. induction n as [|n IH]; intros sequence commands; simpl.
  - by intros <-%Ok_inj.
  - intros (command & _ & (rest & Hr & <-%Ok_inj)%rbind_ok)%rbind_ok. simpl. f_equal. by eapply IH.
Qed.

Lemma read_responses_length n input rs rest :
  read_responses n input = Ok (rs, rest) -> length rs = n.
Proof.
  revert input rs rest. induction n as [|n IH]; intros input rs rest; simpl.
  - by intros [= <- <-].
  - intros ([r i1] & _ & ([rs1 i2] & Hr & [= <- <-])%rbind_ok)%rbind_ok. simpl. f_equal. by eapply IH.
Qed.

(** Responses counted so far. *)
Definition counted (r : WorkerResult) : Z := zlen (latencies r) + errors r.

Lemma record_responses_counted round index responses r :
  0 <= errors r -> Forall (fun l => 0 <= l) (latencies r) ->
  (forall i, round_started round <= round_completion round i) ->
  let r' := record_responses round index responses r in
  counted r' = counted r + zlen responses /\ 0 <= errors r' /\ Forall (fun l => 0 <= l) (latencies r').
Proof.
  intros He Hl Hc. revert index r He Hl. induction responses as [|b responses IH]; intros index r He Hl.
  { cbn. unfold counted. rewrite zlen_nil. split_and!; [lia|done|done]. }
  cbn [record_responses]. destruct b.
  - destruct (IH (S index) (MkWorkerResult (latencies r ++ [round_completion round index - round_started round])
      (errors r))) as (H1 & H2 & H3); [done| |].
    { apply Forall_app. split; [done|]. apply Forall_singleton. specialize (Hc index). lia. }
    split_and!; [|done|done]. rewrite H1. unfold counted. cbn [latencies errors]. zlen_solve.
  - destruct (IH (S index) (MkWorkerResult (latencies r) (errors r + 1))) as (H1 & H2 & H3);
      [simpl; lia|done|].
    split_and!; [|done|done]. rewrite H1. unfold counted. cbn [latencies errors]. zlen_solve.
Qed.

Section worker.
Context {Peer : Type} (deliver : bytes -> Peer -> Peer * result bytes) (closed : Peer -> bool).
Context (options : Options) (Hpipeline : 0 <= pipeline options) (draws : Z -> Draws).
Implicit Types (c : RespConnection (Peer := Peer)) (r : WorkerResult) (rounds : list Round).

(** The clock of a worker does not go back within a round. *)
Definition steady (round : Round) : Prop :=
  forall i, round_started round <= round_completion round i.

Definition sound r : Prop := 0 <= errors r /\ Forall (fun l => 0 <= l) (latencies r).

Lemma pipeline_length commands c c' responses :
  ExecutePipeline deliver closed commands c = (c', Some (Ok responses)) -> length responses = length commands.
Proof.
  unfold ExecutePipeline, write, read. destruct (deliver _ _) as [p [arrived| |]]; [|done|done].
  destruct (read_responses _ _) as [[rs rest]| |] eqn:E; [|by case_match|done]. intros [= <- <-].
  by eapply read_responses_length.
Qed.

(** The rounds the loop makes: those before the first reading that is late
    enough. *)
Fixpoint leading (until : Z) rounds : nat :=
  match rounds with
  | round :: rounds => if round_now round <? until then S (leading until rounds) else O
  | [] => O
  end.

(** The rounds of the measurement, which starts after the reading that ended
    the warm-up. *)
Definition measured_rounds (warmupEnd measurementEnd : Z) rounds : nat :=
  leading measurementEnd (drop (S (leading warmupEnd rounds)) rounds).

(** Every round counts as many responses as the pipeline is long. *)
Lemma run_until_counted until measure rounds sequence r c c' r' sequence' rest :
  sound r -> Forall steady rounds ->
  run_until deliver closed options draws until measure rounds sequence r c
    = (c', Some (Ok (r', sequence', rest))) ->
  sound r' /\ rest = drop (S (leading until rounds)) rounds /\ (measure = false -> r' = r)
  /\ counted r' = counted r
       + (if measure then Z.of_nat (leading until rounds) * pipeline options else 0).
Proof.
  revert sequence r c. induction rounds as [|round rounds IH]; intros sequence r c Hr Hs; [done|].
  apply Forall_cons in Hs as [Hround Hs]. cbn [run_until leading]. destruct (round_now round <? until).
  2: { intros [= <- <- <- <-]. split_and!; [done|done|done|]. destruct measure; simpl; lia. }
  destruct (build_commands _ _ _ _) as [commands| |] eqn:Eb; [|done|done].
  destruct (ExecutePipeline _ _ _ c) as [c1 [[responses| |]|]] eqn:Ee; [|done..]. intros Hrun.
  pose proof (pipeline_length _ _ _ _ Ee) as Hl.
  rewrite (build_commands_length _ _ _ _ _ Eb) in Hl.
  set (r1 := if measure then record_responses round 0 responses r else r) in *.
  assert (H1 : sound r1 /\ counted r1 = counted r + (if measure then pipeline options else 0)).
  { unfold r1. destruct measure; [|split; [done|lia]].
    destruct (record_responses_counted round 0 responses r (proj1 Hr) (proj2 Hr) Hround) as (Hc & H).
    split; [exact H|]. rewrite Hc. unfold zlen. rewrite Hl. lia. }
  destruct H1 as [Hr1 Hc1].
  destruct (IH _ _ _ Hr1 Hs Hrun) as (H1 & H2 & H3 & H4).
  split_and!; [done|done| |].
  - intros ->. by apply H3.
  - rewrite H4, Hc1. destruct measure; lia.
Qed.

Lemma run_worker_counted warmupEnd measurementEnd rounds c c' r :
  Forall steady rounds ->
  RunWorker deliver closed options draws warmupEnd measurementEnd rounds c = (c', Some (Ok r)) ->
  sound r
  /\ counted r = Z.of_nat (measured_rounds warmupEnd measurementEnd rounds) * pipeline options.
Proof.
  intros Hs. unfold RunWorker, measured_rounds.
  destruct (run_until _ _ _ _ _ false _ _ _ c) as [c1 [[[[r1 s1] rest]| |]|]] eqn:E1; [|done..].
  assert (H0 : sound (MkWorkerResult [] 0)) by (split; [done|constructor]).
  destruct (run_until_counted _ _ _ _ _ _ _ _ _ _ H0 Hs E1) as (H1 & -> & H3 & _).
  destruct (run_until _ _ _ _ _ true _ _ _ c1) as [c2 [[[[r2 s2] rest2]| |]|]] eqn:E2; [|done..].
  intros [= <- <-].
  destruct (run_until_counted _ _ _ _ _ _ _ _ _ _ H1 (Forall_drop _ _ _ Hs) E2) as (H4 & _ & _ & H5).
  split; [done|]. rewrite H5, (H3 eq_refl). by change (counted (MkWorkerResult [] 0)) with 0.
Qed.

(** *** How a worker ends

    The other end never leaves it waiting: on the connections of [I] an
    exchange returns, with an error or not, and leads to such a connection. *)
Record responsive (I : RespConnection -> Prop) : Prop := {
  pipelines_return : forall commands c, I c ->
    exists c' x, ExecutePipeline deliver closed commands c = (c', Some x) /\ I c';
  commands_return : forall command c, I c ->
    exists c' x, Execute deliver closed command c = (c', Some x) /\ I c';
}.

Context (I : RespConnection -> Prop) (HI : responsive I).

(** The loop ends at the first reading that is late enough, and leaves what
    follows it. *)
Lemma run_until_ends until measure l round rest sequence r c :
  until <= round_now round -> I c ->
  exists c' x, run_until deliver closed options draws until measure (l ++ round :: rest) sequence r c
      = (c', Some x) /\ I c'
    /\ forall r' sequence' rest', x = Ok (r', sequence', rest') -> rest `suffix_of` rest'.
Proof.
  intros Hu. revert sequence r c. induction l as [|round0 l IH]; intros sequence r c Hc; cbn [app run_until].
  { rewrite (proj2 (Z.ltb_ge _ _)) by done. eexists _, _. split_and!; [done|done|].
    by intros r' s' rest' [= _ _ <-]. }
  destruct (round_now round0 <? until).
  2: { eexists _, _. split_and!; [done|done|]. intros r' s' rest' [= _ _ <-].
    apply suffix_app_r. by apply suffix_cons_r. }
  destruct (build_commands _ _ _ _) as [commands| |]; [|by eexists _, _..].
  destruct (pipelines_return I HI commands c Hc) as (c1 & [responses| |] & -> & Hc1); [by apply IH|by eexists _, _..].
Qed.

Lemma preload_keys_end index n c :
  I c -> exists c' x, preload_keys deliver closed options index n c = (c', Some x).
Proof.
  revert index c. induction n as [|n IH]; intros index c Hc; cbn [preload_keys]; [by eexists _, _|].
  destruct (commands_return I HI [str "SET"; MakeKey index (keySize options); MakeValue (valueSize options)] c Hc)
    as (c1 & [stored| |] & -> & Hc1); [|by eexists _, _..].
  destruct stored; cbn [negb]; [by apply IH|by eexists _, _].
Qed.

Lemma preload_ends connect p :
  (forall p', connect p = (p', Ok tt) -> I (MkConnection [] p')) ->
  exists p' x, Preload deliver closed connect options p = (p', Some x).
Proof.
  intros Hc. unfold Preload. destruct (preload options); cbn [negb]; [|by eexists _, _].
  destruct (connect p) as [p1 [[]| |]]; [|by eexists _, _..].
  destruct (preload_keys_end 0 (Z.to_nat (keyCount options)) (MkConnection [] p1) (Hc p1 eq_refl))
    as (c' & x & ->). by eexists _, _.
Qed.

(** A worker ends once its clock has passed both ends. *)
Lemma run_worker_ends warmupEnd measurementEnd l (a b : Round) c :
  I c -> warmupEnd <= round_now a -> measurementEnd <= round_now b ->
  exists c' x, RunWorker deliver closed options draws warmupEnd measurementEnd (l ++ [a; b]) c
    = (c', Some x).
Proof.
  intros Hc H1 H2. unfold RunWorker.
  destruct (run_until_ends warmupEnd false l a [b] 0 (MkWorkerResult [] 0) c H1 Hc)
    as (c1 & x & -> & Hc1 & Hx). destruct x as [[[ra sa] rest]| |]; [|by eexists _, _..].
  destruct (Hx _ _ _ eq_refl) as [l' ->].
  destruct (run_until_ends measurementEnd true l' b [] sa ra c1 H2 Hc1) as (c2 & y & -> & _).
  destruct y as [[[rb sb] rest]| |]; by eexists _, _.
Qed.

End worker.

(** The result of some worker, at the end of some connection. *)
Definition worker_result (options : Options) (r : WorkerResult) : Prop :=
  exists (Peer : Type) (deliver : bytes -> Peer -> Peer * result bytes) (closed : Peer -> bool) draws
    warmupEnd measurementEnd rounds c c',
    Forall steady rounds
    /\ RunWorker deliver closed options draws warmupEnd measurementEnd rounds c = (c', Some (Ok r)).

Lemma collect_from results samples errs :
  fold_left (fun '(samples, errs) result => (samples ++ latencies result, errs + errors result))
    results (samples, errs)
  = (samples ++ (collect_results results).1, errs + (collect_results results).2).
Proof.
  unfold collect_results. revert samples errs. induction results as [|r results IH]; intros samples errs.
  { simpl. by rewrite app_nil_r, Z.add_0_r. }
  cbn [fold_left]. rewrite IH. rewrite (IH ([] ++ latencies r) (0 + errors r)). simpl.
  f_equal; [by rewrite app_assoc|lia].
Qed.

(** The samples of all workers, and the sum of their errors. *)
Lemma collect_eq results :
  collect_results results = (concat (map latencies results), foldr Z.add 0 (map errors results)).
Proof.
  induction results as [|r results IH]; [done|]. unfold collect_results. cbn [fold_left].
  rewrite collect_from. rewrite IH. done.
Qed.

Lemma collect_counted options results :
  0 <= pipeline options -> Forall (worker_result options) results ->
  0 <= (collect_results results).2
  /\ exists n, 0 <= n /\ zlen (collect_results results).1 + (collect_results results).2
      = n * pipeline options.
Proof.
  intros Hp. induction 1 as [|r results Hr _ (IH1 & n & Hn & IH2)]; [split; [done|by exists 0]|].
  destruct Hr as (Peer & deliver & closed & draws & w & e & rounds & c & c' & Hs & Hrun).
  destruct (run_worker_counted deliver closed options Hp draws _ _ _ _ _ _ Hs Hrun)
    as ([He _] & Hc). set (n1 := Z.of_nat (measured_rounds w e rounds)) in Hc. unfold counted in Hc.
  unfold collect_results. cbn [fold_left]. rewrite collect_from. cbn [fst snd app].
  split; [lia|]. exists (n1 + n). split; [lia|]. rewrite zlen_app. lia.
Qed.

(** ** Properties *)

(** C27: loading the keys of a benchmark that fit the protocol into a database
    without a time to live succeeds, and from then on every key of the benchmark
    holds its value, so that every GET of the GET_HIT workload finds it. *)
Theorem preloaded_keys_are_found options (p : Session * World) :
  preload options = true -> loadable options -> world_ready p.2 -> ttl_of p = -1 ->
  exists p', Preload deliver_server server_closes connect_server options p = (p', Some (Ok tt)) /\ idle p'
    /\ forall draws sequence command, workload options = str "GET_HIT" ->
         0 <= draw_key draws < keyCount options ->
         BuildCommand options draws sequence = Ok command ->
         exists k, command = [str "GET"; k]
           /\ forall now, RadishDB.Get now k (database p'.2).1 = Some (MakeValue (valueSize options)).
Proof.
  intros Hpre Hl Hw Ht.
  destruct (preload_keys_served options (Z.to_nat (keyCount options)) 0 (StartSession NewSession, p.2) Hl)
    as (p' & Hk & Hp' & Ht' & _ & Hnew); [by split|done|].
  exists p'. split_and!; [|done|].
  { unfold Preload, connect_server. rewrite Hpre. cbn [negb]. by rewrite Hk. }
  intros draws sequence command Hwl Hd. unfold BuildCommand. rewrite Hwl. cbn [bool_decide decide_rel].
  intros <-%Ok_inj. eexists. split; [done|]. intros now.
  unfold RadishDB.Get. rewrite RadishStore.get_abs. unfold RadishStore.Spec.lookup_alive.
  by rewrite (Hnew (draw_key draws)) by lia.
Qed.

(** The figures of a run account for every response: the operations and the
    errors that are reported add up to the requests of the measured rounds, a
    whole number of pipelines; and a worker that its server does not leave
    waiting ends once its clock has passed the end of the warm-up and then that
    of the measurement. *)
Theorem figures_account_for_every_response options results stats :
  0 <= pipeline options -> Forall (worker_result options) results ->
  run_statistics options results = Ok stats ->
  (exists n, 0 <= n
     /\ operations stats + BenchmarkStatistics.errors stats = n * pipeline options)
  /\ 0 <= BenchmarkStatistics.errors stats
  /\ operations stats = zlen (concat (map latencies results))
  /\ forall (Peer : Type) (deliver : bytes -> Peer -> Peer * result bytes) closed draws warmupEnd
       measurementEnd l a b c I,
       responsive deliver closed I -> I c -> warmupEnd <= round_now a -> measurementEnd <= round_now b ->
       exists c' r, RunWorker deliver closed options draws warmupEnd measurementEnd (l ++ [a; b]) c = (c', Some r).
Proof.
  intros Hp Hr Hs. destruct (collect_counted options results Hp Hr) as (He & n & Hn & Hc).
  pose proof (f_equal fst (collect_eq results)) as Hcat. cbn [fst] in Hcat.
  unfold run_statistics in Hs. destruct (collect_results results) as [samples errs].
  simpl in He, Hc, Hcat. rewrite <- Hcat.
  destruct (statistics_counts _ _ _ _ Hs) as [-> ->].
  split_and!; [by exists n|done|done|]. intros. by eapply run_worker_ends.
Qed.

(** ** Witnesses *)

Definition loading_options : Options :=
  MkOptions (str "127.0.0.1") (str "6379") (str "GET_HIT") (str "r") (str "l") 1 2 60 30 3 32 4 1 true.

Definition loading_peer : Session * World :=
  (NewSession, MkWorld (RadishDB.fresh_db (-1)) (fun _ => env_example)).

Lemma preloaded_keys_are_found_witness :
  exists p', Preload deliver_server server_closes connect_server loading_options loading_peer = (p', Some (Ok tt))
    /\ RadishDB.Get 9 (MakeKey 2 32) (database p'.2).1 = Some (str "vvvv").
Proof.
  destruct (preloaded_keys_are_found loading_options loading_peer) as (p' & H1 & _ & H2).
  - reflexivity.
  - split; [split; discriminate|split; discriminate|discriminate].
  - split; [right; intros; reflexivity|intros; reflexivity].
  - vm_compute. reflexivity.
  - exists p'. split; [exact H1|].
    destruct (H2 (MkDraws 2 0 1) 0 _ eq_refl ltac:(split; [discriminate|reflexivity]) eq_refl)
      as (k & Hk & Hg).
    injection Hk as ->. apply Hg.
Defined.

(** A peer that answers every request PONG, and one worker with two rounds of
    measurement. *)
Definition pong_peer (request : bytes) (u : unit) : unit * result bytes :=
  (u, Ok (SimpleString (str "PONG") ++ SimpleString (str "PONG"))).

Definition pong_options : Options :=
  MkOptions (str "127.0.0.1") (str "6379") (str "PING") (str "r") (str "l") 1 2 1 1 3 32 4 1 true.

Definition pong_rounds : list Round :=
  map (fun t => MkRound t t (fun i => t + Z.of_nat i)) [5; 10; 12; 20].

Definition pong_result : WorkerResult := MkWorkerResult [0; 1] 0.

Lemma figures_account_for_every_response_witness :
  exists stats, run_statistics pong_options [pong_result] = Ok stats
    /\ operations stats = 2
    /\ exists n, operations stats + BenchmarkStatistics.errors stats = n * 2.
Proof.
  destruct (ok_pair (fun stats => operations stats =? 2) (tt, run_statistics pong_options [pong_result]))
    as (stats & Hs & Ho%Z.eqb_eq); [vm_compute; reflexivity|].
  apply (f_equal snd) in Hs. cbn [snd] in Hs. exists stats. split; [exact Hs|]. split; [exact Ho|].
  destruct (figures_account_for_every_response pong_options [pong_result] stats)
    as ((n & _ & H) & _).
  - discriminate.
  - apply Forall_singleton. exists unit, pong_peer, (fun _ => true), (fun _ => MkDraws 0 0 1), 10, 20, pong_rounds,
      (MkConnection [] tt), (MkConnection [] tt). split.
    + repeat apply Forall_cons_2; try apply Forall_nil_2; intros i; simpl; lia.
    + vm_compute. reflexivity.
  - exact Hs.
  - exists n. exact H.
Defined.
