(* ===== verification/BenchMain.v ===== *)
(** benchmarks/RadishBench.cpp: [main], from the command line to the exit status.

    What the program meets is the record [Surroundings]: the other ends of its
    connections ([closed] says whether an end has closed once it has sent what it
    had to send), the clock, the threads, the draws and readings of each worker,
    and the devices of the result files. A worker only sees its own connection,
    so what the other workers do to the server is part of what is at the other
    end of it. [std::terminate] and undefined behaviour are outcomes. *)

From stdpp Require Import sorting.
From S2P Require Import Prelude Decimal Streams RadishBench BenchmarkStatistics DoubleText.
From S2P Require Import BenchReport BenchRun.
Open Scope Z_scope.

(** [exception::what]. *)
Definition what (e : Exn) : bytes :=
  match e with
  | runtime_error w | length_error w | invalid_argument w | out_of_range w | ios_failure w
  | filesystem_error w | system_error w => w
  | bad_optional_access => str "bad optional access"
  end.

(** How the program ends: the exit status and what was printed. *)
Inductive Outcome :=
  | Exited (status : Z) (out err : bytes)
  | Terminated                               (* [std::terminate] *)
  | Unspecified.                             (* after undefined behaviour *)

Definition usage : bytes :=
  str "Usage: radish-bench [--host HOST] [--port PORT] [--workload NAME] [--clients N]"
  ++ str " [--pipeline N] [--duration SECONDS] [--warmup SECONDS] [--key-count N]"
  ++ str " [--key-size BYTES] [--value-size BYTES] [--seed N] [--output PREFIX]"
  ++ str " [--label NAME] [--preload off]" ++ [LF].

(** The line of figures on the standard output. *)
Definition report_line (options : Options) (st : BenchmarkStatistics) : bytes :=
  str "workload=" ++ workload options
  ++ str " throughput_ops_per_second=" ++ print_double (throughput st)
  ++ str " min_ms=" ++ print_double (minimumMilliseconds st)
  ++ str " p50_ms=" ++ print_double (p50Milliseconds st)
  ++ str " p99_ms=" ++ print_double (p99Milliseconds st)
  ++ str " p99_5_ms=" ++ print_double (p995Milliseconds st)
  ++ str " max_ms=" ++ print_double (maximumMilliseconds st)
  ++ str " errors=" ++ to_string (BenchmarkStatistics.errors st) ++ [LF].

(** [time + std::chrono::seconds(n)] in nanoseconds; [n] becomes a signed
    integer, and an overflow of the sum is undefined. *)
Definition time_after (time n : Z) : result Z :=
  let ns := wrap_signed 8 n * 1000000000 in
  if bool_decide (in_ll ns) && bool_decide (in_ll (time + ns)) then Ok (time + ns) else Undefined.

Section main.
Context {Peer : Type} (deliver : bytes -> Peer -> Peer * result bytes) (closed : Peer -> bool).

Record Surroundings := MkSurroundings {
  preload_peer : Peer;                          (* the connection of [Preload] *)
  preload_connect : Peer -> Peer * result unit;
  worker_peer : nat -> Peer;                    (* those of the workers *)
  worker_connect : nat -> Peer -> Peer * result unit;
  started_at : Z;                               (* [Clock::now()] in [main] *)
  start_thread : nat -> result unit;            (* the constructor of [std::thread] *)
  worker_draws : nat -> Z -> Draws;
  worker_rounds : nat -> list Round;
  json_device : IoEnv;
  csv_device : IoEnv;
  system : option utsname;
}.
Implicit Types (env : Surroundings) (options : Options).

(** The loop that makes the connections, from the [index]th on. *)
Fixpoint connect_all env (index n : nat) : result (list (RespConnection (Peer := Peer))) :=
  match n with
  | O => Ok []
  | S n =>
      match worker_connect env index (worker_peer env index) with
      | (p, Ok _) => let! connections := connect_all env (S index) n in Ok (MkConnection [] p :: connections)
      | (_, Throw e) => Throw e
      | (_, Undefined) => Undefined
      end
  end.

(** The first thread that can not be started, with the exception. *)
Fixpoint first_unstarted env (index n : nat) : option (nat * result unit) :=
  match n with
  | O => None
  | S n =>
      match start_thread env index with
      | Ok _ => first_unstarted env (S index) n
      | r => Some (index, r)
      end
  end.

(** The workers, each to its end. *)
Definition run_workers env options (warmupEnd measurementEnd : Z)
    (connections : list (RespConnection (Peer := Peer))) : list (option (result WorkerResult)) :=
  imap (fun index c =>
    (RunWorker deliver closed options (worker_draws env index) warmupEnd measurementEnd
       (worker_rounds env index) c).2) connections.

Definition is_undefined {X : Type} (r : result X) : bool := match r with Undefined => true | _ => false end.

(** The results when no worker failed; otherwise the first exception. *)
Fixpoint first_failure (outcomes : list (result WorkerResult)) : result (list WorkerResult) :=
  match outcomes with
  | [] => Ok []
  | outcome :: outcomes =>
      let! r := outcome in
      let! rs := first_failure outcomes in
      Ok (r :: rs)
  end.

Definition gather (outcomes : list (result WorkerResult)) : result (list WorkerResult) :=
  if existsb is_undefined outcomes then Undefined else first_failure outcomes.

(** The rest of [main] after a part of it; an exception ends in the [catch]. *)
Definition and_then {X : Type} (disk : Disk) (r : result X) (k : X -> Disk * option Outcome) :
    Disk * option Outcome :=
  match r with
  | Ok a => k a
  | Throw e => (disk, Some (Exited 1 [] (str "radish-bench: " ++ what e ++ [LF])))
  | Undefined => (disk, Some Unspecified)
  end.

(** From the collected results on. *)
Definition report env options (results : list WorkerResult) (disk : Disk) : Disk * option Outcome :=
  and_then disk (run_statistics options results) (fun st =>
    let '(disk, r) := WriteResults (json_device env) (csv_device env) (system env) options st disk in
    and_then disk r (fun _ => (disk, Some (Exited 0 (report_line options st) [])))).

(** The threads, joined when all of them could be started. A vector of threads
    that are still running must not be destroyed. *)
Definition measure env options (warmupEnd measurementEnd : Z)
    (connections : list (RespConnection (Peer := Peer))) (disk : Disk) : Disk * option Outcome :=
  match first_unstarted env 0 (length connections) with
  | Some (O, r) => and_then disk r (fun _ => (disk, Some Terminated))
  | Some (S _, _) => (disk, Some Terminated)
  | None =>
      match mapM id (run_workers env options warmupEnd measurementEnd connections) with
      | None => (disk, None)
      | Some outcomes => and_then disk (gather outcomes) (fun results => report env options results disk)
      end
  end.

Definition asks_help (arguments : list bytes) : bool :=
  match arguments with [_; argument] => bool_decide (argument = str "--help") | _ => false end.

(** [None] when the program does not end: a read never returns, or a worker does
    not end with the readings it was given. *)
Definition main env (arguments : list bytes) (disk : Disk) : Disk * option Outcome :=
  if asks_help arguments then (disk, Some (Exited 0 usage []))
  else
    and_then disk (ParseOptions arguments) (fun options =>
    match (Preload deliver closed (preload_connect env) options (preload_peer env)).2 with
    | None => (disk, None)
    | Some preloaded =>
        and_then disk preloaded (fun _ =>
        and_then disk (connect_all env 0 (Z.to_nat (clients options))) (fun connections =>
        and_then disk (time_after (started_at env) (warmupSeconds options)) (fun warmupEnd =>
        and_then disk (time_after warmupEnd (durationSeconds options)) (fun measurementEnd =>
        measure env options warmupEnd measurementEnd connections disk))))
    end).

End main.
Arguments MkSurroundings {Peer}.

(** ** Lemmas *)

Lemma stoull_range bs n : stoull bs = Ok n -> 0 <= n < 2 ^ 64.
Proof.
  unfold stoull, sto_unsigned. destruct (strto bs) as [[neg v]|] eqn:E; [|done].
  apply strto_nonneg in E. destruct (_ <? v) eqn:Ev; [done|]. zify_bool. intros <-%Ok_inj.
  destruct neg; [apply Z.mod_pos_bound|]; lia.
Qed.

Lemma parse_option_unsigned o option value o' :
  unsigned_options o -> durationSeconds o < 2 ^ 64 -> parse_option o option value = Ok o' ->
  unsigned_options o' /\ durationSeconds o' < 2 ^ 64.
Proof.
  destruct o as [h p wl out l c pi du wu kc ks vs se pre]. unfold unsigned_options, parse_option.
  cbn [clients pipeline durationSeconds warmupSeconds keyCount keySize valueSize seed].
  intros Hu Hd Ho. repeat match goal with H : Forall _ (_ :: _) |- _ => apply Forall_cons in H as [? H] end.
  repeat case_match; inv_result;
    repeat match goal with H : stoull _ = Ok _ |- _ => apply stoull_range in H end;
    cbn [clients pipeline durationSeconds warmupSeconds keyCount keySize valueSize seed];
    (split; [repeat (apply Forall_cons; split); try apply Forall_nil_2|]); lia.
Qed.

Lemma parse_pairs_unsigned args o o' :
  unsigned_options o -> durationSeconds o < 2 ^ 64 -> parse_pairs o args = Ok o' ->
  unsigned_options o' /\ durationSeconds o' < 2 ^ 64.
Proof.
  remember (length args) as n eqn:En. revert args o En.
  induction (lt_wf n) as [n _ IH]. intros args o En Hu Hd.
  destruct args as [|option [|value args]]; cbn [parse_pairs]; [by intros <-%Ok_inj|done|].
  intros (o1 & H1 & H2)%rbind_ok. destruct (parse_option_unsigned _ _ _ _ Hu Hd H1) as [Hu1 Hd1].
  simpl in En. by eapply (IH (length args)); [lia|done| | |exact H2].
Qed.

Lemma parsed_options args options :
  ParseOptions args = Ok options ->
  unsigned_options options /\ durationSeconds options < 2 ^ 64
  /\ 0 < clients options /\ 0 < pipeline options.
Proof.
  unfold ParseOptions. intros (o & Ho & [Hg <-%Ok_inj]%throw_ok)%rbind_ok. zify_bool.
  assert (Hdef : unsigned_options default_options)
    by (repeat (apply Forall_cons; split); try apply Forall_nil_2; done).
  destruct (parse_pairs_unsigned _ _ _ Hdef eq_refl Ho) as [Hu Hd].
  split_and!; [done|done|..]; unfold unsigned_options in Hu;
    repeat match goal with H : Forall _ (_ :: _) |- _ => apply Forall_cons in H as [? H] end; lia.
Qed.

Lemma build_known options draws sequence command :
  BuildCommand options draws sequence = Ok command -> known_workload (workload options).
Proof.
  unfold BuildCommand, known_workload. cbn [map].
  repeat (let E := fresh in case_bool_decide as E; [intros _; rewrite E; repeat (first [left; reflexivity|right])|cbn [orb]]).
  done.
Qed.

Section worker.
Context {Peer : Type} (deliver : bytes -> Peer -> Peer * result bytes) (closed : Peer -> bool).
Context (options : Options) (draws : Z -> Draws) (P : Z -> Prop).

(** The latencies of the rounds satisfy [P]. *)
Definition rounds_ok (rounds : list Round) : Prop :=
  Forall (fun round => forall i, P (round_completion round i - round_started round)) rounds.

Lemma record_responses_latencies round index responses r :
  (forall i, P (round_completion round i - round_started round)) -> Forall P (latencies r) ->
  Forall P (latencies (record_responses round index responses r)).
Proof.
  intros Hr. revert index r. induction responses as [|b responses IH]; intros index r Hl; [done|].
  cbn [record_responses]. apply IH. destruct b; cbn [latencies]; [|done].
  apply Forall_app. split; [done|]. by apply Forall_singleton.
Qed.

Lemma run_until_latencies until measure rounds sequence r c c' r' sequence' rest :
  rounds_ok rounds -> Forall P (latencies r) ->
  run_until deliver closed options draws until measure rounds sequence r c
    = (c', Some (Ok (r', sequence', rest))) ->
  rounds_ok rest /\ Forall P (latencies r')
  /\ (latencies r' = latencies r \/ known_workload (workload options)).
Proof.
  revert sequence r c. induction rounds as [|round rounds IH]; intros sequence r c Hok Hl; [done|].
  pose proof Hok as Hok0. apply Forall_cons in Hok as [Hround Hok]. cbn [run_until].
  destruct (round_now round <? until).
  2: { intros [= <- <- <- <-]. split; [by apply Forall_cons in Hok0|]. by split; [|left]. }
  destruct (build_commands _ _ _ _) as [commands| |] eqn:Eb; [|done|done].
  destruct (ExecutePipeline _ _ _ c) as [c1 [[responses| |]|]] eqn:Ee; [|done..]. intros Hrun.
  set (r1 := if measure then record_responses round 0 responses r else r) in *.
  assert (Hr1 : Forall P (latencies r1)) by (subst r1; destruct measure; [by apply record_responses_latencies|done]).
  destruct (IH _ _ _ Hok Hr1 Hrun) as (H1 & H2 & H3). split_and!; [done|done|].
  destruct H3 as [H3|H3]; [|by right]. rewrite H3.
  pose proof (pipeline_length _ _ _ _ _ _ Ee) as Hlen.
  rewrite (build_commands_length _ _ _ _ _ Eb) in Hlen.
  destruct (Z.to_nat (pipeline options)) as [|n].
  - left. subst r1. by destruct measure, responses.
  - right. cbn [build_commands] in Eb. apply rbind_ok in Eb as (command & Hc & _). by eapply build_known.
Qed.

Lemma run_worker_latencies warmupEnd measurementEnd rounds c c' r :
  rounds_ok rounds ->
  RunWorker deliver closed options draws warmupEnd measurementEnd rounds c = (c', Some (Ok r)) ->
  Forall P (latencies r) /\ (latencies r = [] \/ known_workload (workload options)).
Proof.
  intros Hs. unfold RunWorker.
  destruct (run_until _ _ _ _ _ false _ _ _ c) as [c1 [[[[r1 s1] rest]| |]|]] eqn:E1; [|done..].
  assert (H0 : Forall P (latencies (MkWorkerResult [] 0))) by apply Forall_nil_2.
  destruct (run_until_latencies _ _ _ _ _ _ _ _ _ _ Hs H0 E1) as (H1 & H2 & H3).
  destruct (run_until _ _ _ _ _ true _ _ _ c1) as [c2 [[[[r2 s2] rest2]| |]|]] eqn:E2; [|done..].
  intros [= <- <-]. destruct (run_until_latencies _ _ _ _ _ _ _ _ _ _ H1 H2 E2) as (_ & H5 & H6).
  split; [done|]. destruct H6 as [H6|]; [|by right]. destruct H3 as [H3|]; [left|by right]. by rewrite H6, H3.
Qed.

End worker.

(** The clock of a worker: within a round it does not go back, and it stays in
    its range. *)
Definition clock_ok (round : Round) : Prop :=
  forall i, 0 <= round_completion round i - round_started round <= LLONG_MAX.

Lemma gather_ok outcomes results : gather outcomes = Ok results -> outcomes = map Ok results.
Proof.
  unfold gather. destruct (existsb _ _); [done|]. revert results.
  induction outcomes as [|o outcomes IH]; intros results; cbn [first_failure]; [by intros <-%Ok_inj|].
  intros (r & -> & (rs & Hrs & <-%Ok_inj)%rbind_ok)%rbind_ok. simpl. f_equal. by apply IH.
Qed.

Section main.
Context {Peer : Type} (deliver : bytes -> Peer -> Peer * result bytes) (closed : Peer -> bool).
Implicit Types (env : Surroundings (Peer := Peer)) (options : Options).

Lemma connect_all_length env index n connections :
  connect_all env index n = Ok connections -> length connections = n.
Proof.
  revert index connections. induction n as [|n IH]; intros index connections; cbn [connect_all].
  { by intros <-%Ok_inj. }
  destruct (worker_connect env index _) as [p [[]| |]]; [|done|done].
  intros (rest & Hr & <-%Ok_inj)%rbind_ok. simpl. f_equal. by eapply IH.
Qed.

Lemma connect_all_all (I : RespConnection -> Prop) env index n connections :
  (forall i p, worker_connect env i (worker_peer env i) = (p, Ok tt) -> I (MkConnection [] p)) ->
  connect_all env index n = Ok connections -> Forall I connections.
Proof.
  intros HI. revert index connections. induction n as [|n IH]; intros index connections; cbn [connect_all].
  { intros <-%Ok_inj. apply Forall_nil_2. }
  destruct (worker_connect env index _) as [p [[]| |]] eqn:E; [|done|done].
  intros (rest & Hr & <-%Ok_inj)%rbind_ok. apply Forall_cons. split; [by eapply HI|by eapply IH].
Qed.

(** What a result of the workers is. *)
Lemma workers_results env options w e connections outcomes results :
  mapM id (run_workers deliver closed env options w e connections) = Some outcomes ->
  gather outcomes = Ok results ->
  length results = length connections
  /\ forall i r, results !! i = Some r -> exists c c',
       RunWorker deliver closed options (worker_draws env i) w e (worker_rounds env i) c = (c', Some (Ok r)).
Proof.
  intros Hm%mapM_Some Hg%gather_ok. subst outcomes.
  assert (Hw : run_workers deliver closed env options w e connections = map (fun r => Some (Ok r)) results).
  { revert Hm. generalize (run_workers deliver closed env options w e connections). clear.
    induction results as [|r results IH]; intros outs Hm; inversion Hm; subst; [done|].
    simpl. f_equal; [done|]. by apply IH. }
  split.
  - apply (f_equal length) in Hw. unfold run_workers in Hw. by rewrite length_imap, length_map in Hw.
  - intros i r Hi. apply (f_equal (fun l => l !! i)) in Hw. unfold run_workers in Hw.
    rewrite list_lookup_imap, list_lookup_fmap, Hi in Hw. cbn [fmap option_fmap option_map] in Hw.
    destruct (connections !! i) as [c|]; [|done]. injection Hw as Hw. exists c.
    destruct (RunWorker _ _ _ _ _ _ _ c) as [c' x]. simpl in Hw. subst x. by exists c'.
Qed.

Lemma collected_latencies (P : Z -> Prop) results :
  Forall (fun r => Forall P (latencies r)) results -> Forall P (collect_results results).1.
Proof.
  induction 1 as [|r results Hr _ IH]; [apply Forall_nil_2|]. unfold collect_results. cbn [fold_left].
  rewrite collect_from. cbn [fst snd app]. by apply Forall_app.
Qed.

Lemma collected_nil results :
  (forall r, r ∈ results -> latencies r = []) -> (collect_results results).1 = [].
Proof.
  intros H. cut (Forall (fun _ => False) (collect_results results).1).
  { by destruct (collect_results results).1; [|intros []%Forall_cons]. }
  apply collected_latencies, Forall_forall. intros r Hr. rewrite H by done. apply Forall_nil_2.
Qed.

(** A run that gets as far as its figures knew its workload. *)
Lemma measured_workload env options w e connections outcomes results st :
  mapM id (run_workers deliver closed env options w e connections) = Some outcomes ->
  gather outcomes = Ok results -> run_statistics options results = Ok st ->
  known_workload (workload options).
Proof.
  intros Hm Hg Hst. destruct (workers_results _ _ _ _ _ _ _ Hm Hg) as [_ Hrs].
  destruct (decide (Forall (fun r => latencies r = []) results)) as [Hall|Hn].
  - exfalso. unfold run_statistics in Hst.
    pose proof (collected_nil results (proj1 (Forall_forall _ _) Hall)) as Hnil.
    destruct (collect_results results) as [samples errs]. simpl in Hnil. subst samples.
    unfold CalculateBenchmarkStatistics in Hst. by apply throw_ok in Hst as [? _].
  - apply not_Forall_Exists, Exists_exists in Hn as (r & (i & Hi)%list_elem_of_lookup_1 & Hr); [|tc_solve].
    destruct (Hrs i r Hi) as (c & c' & Hrun).
    destruct (run_worker_latencies deliver closed options _ (fun _ => True) _ _ _ _ _ _ ltac:(by apply Forall_true) Hrun)
      as [_ [Hl|Hl]]; [by destruct Hr|done].
Qed.

Lemma and_then_exited0 {X : Type} disk (r : result X) k disk' out err :
  and_then disk r k = (disk', Some (Exited 0 out err)) ->
  exists x, r = Ok x /\ k x = (disk', Some (Exited 0 out err)).
Proof. destruct r as [x|x|]; simpl; [by exists x|done|done]. Qed.

(** What the results of the workers count, and what their sums are. *)
Lemma results_sound env options results w e :
  0 <= pipeline options -> (forall i, Forall clock_ok (worker_rounds env i)) ->
  (forall i r, results !! i = Some r -> exists c c',
     RunWorker deliver closed options (worker_draws env i) w e (worker_rounds env i) c = (c', Some (Ok r))) ->
  (forall i r, results !! i = Some r ->
     counted r = Z.of_nat (measured_rounds w e (worker_rounds env i)) * pipeline options)
  /\ Forall in_ll (concat (map latencies results))
  /\ 0 <= foldr Z.add 0 (map errors results).
Proof.
  intros Hp Hclock Hrs.
  assert (Hsteady : forall i, Forall steady (worker_rounds env i)).
  { intros i. eapply Forall_impl; [apply Hclock|]. intros round Hr j. specialize (Hr j). lia. }
  assert (Hall : forall i r, results !! i = Some r -> sound r
    /\ counted r = Z.of_nat (measured_rounds w e (worker_rounds env i)) * pipeline options).
  { intros i r Hi. destruct (Hrs i r Hi) as (c & c' & Hrun).
    by eapply (run_worker_counted deliver closed options Hp). }
  split_and!.
  - intros i r Hi. by apply Hall.
  - apply Forall_concat, Forall_map, Forall_lookup. intros i r Hi. destruct (Hrs i r Hi) as (c & c' & Hrun).
    eapply run_worker_latencies; [|exact Hrun]. eapply Forall_impl; [apply Hclock|].
    intros round Hr j. specialize (Hr j). unfold in_ll, LLONG_MIN in *. lia.
  - assert (Herr : Forall (fun r => 0 <= errors r) results)
      by (apply Forall_lookup; intros i r Hi; by apply (Hall i r Hi)).
    clear -Herr. induction Herr; simpl; lia.
Qed.

(** What the line on the standard output says: the value behind a name. *)
Definition line_value (name line : bytes) : option bytes :=
  head (omap (fun field => match split_on "=" field with
                           | [n; value] => if decide (n = name) then Some value else None
                           | _ => None
                           end) (split_on " " line)).

Record line_says options (st : BenchmarkStatistics) (line : bytes) : Prop := {
  line_workload : line_value (str "workload") line = Some (workload options);
  line_errors : exists value, line_value (str "errors") line = Some value
    /\ says_integer value (BenchmarkStatistics.errors st);
  line_figures : Forall (fun '(name, x) => exists value, line_value name line = Some value /\ says_figure value x)
    [(str "throughput_ops_per_second", throughput st); (str "min_ms", minimumMilliseconds st);
     (str "p50_ms", p50Milliseconds st); (str "p99_ms", p99Milliseconds st);
     (str "p99_5_ms", p995Milliseconds st); (str "max_ms", maximumMilliseconds st)];
}.

Definition field_text (field : bytes * bytes) : bytes := field.1 ++ "="%char :: field.2.

Lemma line_value_fields name fields :
  fields <> [] -> Forall (fun field => Forall (fun c => (c ∉ field.1) /\ (c ∉ field.2)) [" "%char; "="%char]) fields ->
  line_value name (join " " (map field_text fields))
  = head (omap (fun field => if decide (field.1 = name) then Some field.2 else None) fields).
Proof.
  intros Hne Hf. unfold line_value. rewrite split_join.
  - f_equal. clear Hne. induction Hf as [|[n v] fields (_ & [Hn Hv]%Forall_singleton)%Forall_cons _ IH]; [done|].
    cbn [map omap list_omap]. unfold field_text at 1. cbn [fst snd]. cbn [fst snd] in Hn, Hv.
    rewrite split_on_piece, split_on_none by done. by rewrite <- IH.
  - by destruct fields.
  - apply Forall_map. eapply Forall_impl; [exact Hf|]. intros [n v] [[H1 H2] _]%Forall_cons.
    unfold field_text. cbn [fst snd] in *. by rewrite elem_of_app, elem_of_cons; intros [?|[?|?]].
Qed.

Definition report_fields options (st : BenchmarkStatistics) : list (bytes * bytes) :=
  [(str "workload", workload options); (str "throughput_ops_per_second", print_double (throughput st));
   (str "min_ms", print_double (minimumMilliseconds st)); (str "p50_ms", print_double (p50Milliseconds st));
   (str "p99_ms", print_double (p99Milliseconds st)); (str "p99_5_ms", print_double (p995Milliseconds st));
   (str "max_ms", print_double (maximumMilliseconds st));
   (str "errors", to_string (BenchmarkStatistics.errors st))].

Lemma report_line_fields options st :
  report_line options st = join " " (map field_text (report_fields options st)) ++ [LF].
Proof.
  unfold report_line, report_fields. cbn [map join]. unfold field_text. cbn [fst snd].
  repeat first [rewrite <- app_assoc | rewrite <- app_comm_cons]. reflexivity.
Qed.

Abbreviation free_of_separators text := (Forall (fun c => c ∉ text) [" "%char; "="%char; LF]).

Lemma number_free text : number_chars text -> free_of_separators text.
Proof.
  intros Ht. assert (H : forall c, number_char c = false -> c ∉ text).
  { intros c Hc Hin. rewrite Forall_forall in Ht. specialize (Ht c Hin). congruence. }
  repeat (apply Forall_cons; split); try apply Forall_nil_2; by apply H.
Qed.

Lemma double_free x : is_finite x = true -> free_of_separators (print_double x).
Proof. intros Hx. by apply number_free, print_double_chars. Qed.

Lemma field_free (n v : bytes) :
  free_of_separators n -> free_of_separators v ->
  Forall (fun c => (c ∉ (n, v).1) /\ (c ∉ (n, v).2)) [" "%char; "="%char; LF].
Proof. intros Hn Hv. apply Forall_and. by split. Qed.

Lemma report_line_says options st :
  known_workload (workload options) -> 0 <= BenchmarkStatistics.errors st -> finite_figures st ->
  exists line, split_on LF (report_line options st) = [line; []] /\ line_says options st line.
Proof.
  intros [_ (_ & (? & (? & (? & _)%Forall_cons)%Forall_cons)%Forall_cons)%Forall_cons]%known_workload_plain He Hf. unfold figures in Hf.
  repeat match goal with H : Forall _ (_ :: _) |- _ => apply Forall_cons in H as [? H] end.
  assert (Hfields : Forall (fun field => Forall (fun c => (c ∉ field.1) /\ (c ∉ field.2)) [" "%char; "="%char; LF])
    (report_fields options st)).
  { unfold report_fields.
    pose proof (number_free _ (digits_number_chars _ (proj1 (to_string_digits _ He)))) as Herr.
    do 8 (apply Forall_cons; split;
      [apply field_free; [apply (bool_decide_unpack _); by vm_compute|];
       first [by apply double_free|exact Herr|by repeat (apply Forall_cons; split)]|]).
    apply Forall_nil_2. }
  assert (Hv : forall name, line_value name (join " " (map field_text (report_fields options st)))
    = head (omap (fun field => if decide (field.1 = name) then Some field.2 else None) (report_fields options st))).
  { intros name. apply line_value_fields; [done|]. eapply Forall_impl; [exact Hfields|].
    by intros field (? & (? & _)%Forall_cons)%Forall_cons; repeat (apply Forall_cons; split). }
  exists (join " " (map field_text (report_fields options st))). split; [|split].
  - rewrite report_line_fields, split_on_piece; [done|]. apply join_not_in; [done|].
    apply Forall_map. eapply Forall_impl; [exact Hfields|].
    intros field (_ & (_ & [[Hn1 Hv1] _]%Forall_cons)%Forall_cons)%Forall_cons.
    unfold field_text. by rewrite elem_of_app, elem_of_cons; intros [?|[?|?]].
  - by rewrite Hv.
  - rewrite Hv. eexists. split; [reflexivity|by apply says_to_string].
  - repeat (apply Forall_cons; split); try apply Forall_nil_2.
    all: rewrite Hv; eexists; (split; [reflexivity|by apply says_print_double]).
Qed.

(** ** Properties *)

(** C28: a benchmark that ends with status 0 has measured. Every worker has its
    result, which is what [RunWorker] gave it, and counts one response for each
    request of its rounds between the end of the warm-up and the end of the
    measurement. The operations are the latencies of all workers and the errors
    are the errors of all workers; the figures are computed from exactly these.
    Nothing is printed on the error stream. With fewer than [2 ^ 40] operations
    the line on the standard output says the figures, each under its name and
    exact to half a unit of its sixth digit, and the result files read back. The
    disk works, the inserted texts are plain and the clocks stay in range. *)
Theorem finished_run_reports env arguments options disk disk' out err :
  asks_help arguments = false -> ParseOptions arguments = Ok options ->
  Forall plain [host options; port options; label options; SystemMetadata (system env)] ->
  (forall i, Forall clock_ok (worker_rounds env i)) ->
  json_device env = io_ok -> csv_device env = io_ok ->
  main deliver closed env arguments disk = (disk', Some (Exited 0 out err)) ->
  exists results st w e,
    time_after (started_at env) (warmupSeconds options) = Ok w
    /\ time_after w (durationSeconds options) = Ok e
    /\ zlen results = clients options
    /\ (forall i r, results !! i = Some r ->
          (exists c c', RunWorker deliver closed options (worker_draws env i) w e (worker_rounds env i) c
             = (c', Some (Ok r)))
          /\ counted r = Z.of_nat (measured_rounds w e (worker_rounds env i)) * pipeline options)
    /\ operations st = zlen (concat (map latencies results))
    /\ BenchmarkStatistics.errors st = foldr Z.add 0 (map errors results)
    /\ CalculateBenchmarkStatistics (concat (map latencies results)) (foldr Z.add 0 (map errors results))
         (double_of_Z (durationSeconds options)) = Ok st
    /\ err = []
    /\ (operations st < 2 ^ 40 ->
          (exists line, split_on LF out = [line; []] /\ line_says options st line)
          /\ files_read_back options (SystemMetadata (system env)) st disk disk').
Proof.
  intros Hh Hp Hplain Hclock Hj Hc. unfold main. rewrite Hh, Hp. cbn [and_then].
  destruct (parsed_options _ _ Hp) as (Hu & Hd & Hcl & Hpipe).
  destruct (Preload _ _ _ _ _).2 as [preloaded|]; [|done].
  intros (_ & _ & H)%and_then_exited0. apply and_then_exited0 in H as (connections & Hconn & H).
  apply and_then_exited0 in H as (w & Hw & H). apply and_then_exited0 in H as (e & He & H).
  unfold measure in H. destruct (first_unstarted _ _ _) as [[[] r]|]; [|done|].
  { by apply and_then_exited0 in H as (? & _ & ?). }
  destruct (mapM id _) as [outcomes|] eqn:Em; [|done].
  apply and_then_exited0 in H as (results & Hg & H). unfold report in H.
  apply and_then_exited0 in H as (st & Hst & H). exists results, st, w, e.
  pose proof (measured_workload _ _ _ _ _ _ _ _ Em Hg Hst) as Hknown.
  destruct (workers_results _ _ _ _ _ _ _ Em Hg) as [Hlen Hrs].
  destruct (results_sound env options results w e ltac:(lia) Hclock Hrs) as (Hcount & Hsam & Herr).
  unfold run_statistics in Hst. rewrite collect_eq in Hst.
  destruct (statistics_counts _ _ _ _ Hst) as [Ho Her].
  destruct (WriteResults _ _ _ _ _ _) as [disk1 r] eqn:Ew. rewrite Hj, Hc in Ew.
  apply and_then_exited0 in H as (u & -> & [= <- <- <-]).
  split_and!; [done|done| |intros i r Hi; split; [by apply Hrs|by apply Hcount]|done|done|done|done|].
  - apply connect_all_length in Hconn. unfold zlen. rewrite Hlen, Hconn. lia.
  - intros Hop. rewrite Ho in Hop. split.
    + apply report_line_says; [done|lia|]. by eapply (run_figures_finite options).
    + by apply (write_results_ok (system env) options _ _ st disk disk1 (Ok u) Hu Hd Hplain Hknown
        Hsam Hop Herr Hst Ew).
Qed.

(** How a run ends that returns [x]. With status 0 it printed the usage, or
    changed nothing but the result files. With status 1 the files are as they
    were, or one result file was emptied because the other could not be opened. *)
Definition ends_well env (arguments : list bytes) (disk : Disk) (x : Disk * option Outcome) : Prop :=
  match x.2 with
  | None => True
  | Some (Exited status out err) =>
      status = 0 /\ err = []
        /\ (asks_help arguments = true /\ out = usage /\ x.1 = disk
            \/ exists options, ParseOptions arguments = Ok options
               /\ forall path, path <> json_path options -> path <> csv_path options -> x.1 !! path = disk !! path)
      \/ status = 1 /\ out = [] /\ (exists e, err = str "radish-bench: " ++ what e ++ [LF])
         /\ (x.1 = disk
             \/ exists options path, ParseOptions arguments = Ok options
                /\ (path = json_path options \/ path = csv_path options) /\ x.1 = <[path := []]> disk
                /\ io_open_write (json_device env) <> io_open_write (csv_device env))
  | Some Terminated => x.1 = disk /\ exists i, i <> O /\ start_thread env i <> Ok tt
  | Some Unspecified => x.1 = disk
  end.

Lemma and_then_well {X : Type} env arguments disk (r : result X) k :
  (forall a, r = Ok a -> ends_well env arguments disk (k a)) ->
  ends_well env arguments disk (and_then disk r k).
Proof.
  intros Hk. destruct r as [a|e|]; cbn [and_then]; [by apply Hk| |done].
  right. split_and!; [done|done|by exists e|by left].
Qed.

Lemma and_then_returns {X : Type} disk (r : result X) k :
  (forall a, r = Ok a -> exists d o, k a = (d, Some o)) ->
  exists d o, and_then disk r k = (d, Some o).
Proof. intros Hk. destruct r as [a|e|]; cbn [and_then]; [by apply Hk|by eexists _, _..]. Qed.

Lemma report_well env arguments options results disk :
  ParseOptions arguments = Ok options -> ends_well env arguments disk (report env options results disk).
Proof.
  intros Hp. apply and_then_well. intros st _. unfold WriteResults.
  destruct (io_open_write (json_device env)) eqn:Ej, (io_open_write (csv_device env)) eqn:Ec;
    unfold open_output; rewrite Ej, Ec; cbn [negb orb and_then]; [left|right..].
  { split_and!; [done|done|]. right. exists options. split; [done|]. intros path H1 H2.
    cbn [fst]. by rewrite !lookup_insert_ne by congruence. }
  all: split_and!; [done|done|by eexists|].
  - right. exists options, (json_path options). split_and!; [done|by left|done|congruence].
  - right. exists options, (csv_path options). split_and!; [done|by right|done|congruence].
  - by left.
Qed.

Lemma first_unstarted_spec env index n i r :
  first_unstarted env index n = Some (i, r) -> r <> Ok tt /\ start_thread env i = r.
Proof.
  revert index. induction n as [|n IH]; intros index; cbn [first_unstarted]; [done|].
  destruct (start_thread env index) as [[]| |] eqn:E; [by apply IH|by intros [= <- <-]..].
Qed.

Lemma main_well env arguments disk : ends_well env arguments disk (main deliver closed env arguments disk).
Proof.
  unfold main. destruct (asks_help arguments) eqn:Ehelp; [left; split_and!; [done|done|by left]|].
  apply and_then_well. intros options Hp. destruct (Preload _ _ _ _ _).2 as [preloaded|]; [|done].
  do 4 (apply and_then_well; intros ? _).
  unfold measure. destruct (first_unstarted _ _ _) as [[[|i] r]|] eqn:Es.
  - destruct (first_unstarted_spec _ _ _ _ _ Es) as [Hr _]. apply and_then_well. by intros [] ->.
  - destruct (first_unstarted_spec _ _ _ _ _ Es) as [Hr Hi]. split; [done|]. exists (S i).
    split; [done|]. by rewrite Hi.
  - destruct (mapM id _) as [outcomes|]; [|done]. apply and_then_well. intros results _.
    by apply report_well.
Qed.

(** C29: a benchmark that no server leaves waiting ends once the clock of every
    worker has passed the ends of the warm-up and of the measurement, and it says
    how. With status 0 it printed the usage, or it changed no file but the two
    result files, and has nothing to say on the error stream. With status 1 it
    printed one line with the exception there, nothing on the standard output,
    and left all files as they were, except that one result file is emptied when
    the other can not be opened. It is terminated only when a thread after the
    first can not be started. *)
Theorem benchmark_ends env arguments disk I :
  responsive deliver closed I ->
  (forall p, preload_connect env (preload_peer env) = (p, Ok tt) -> I (MkConnection [] p)) ->
  (forall i p, worker_connect env i (worker_peer env i) = (p, Ok tt) -> I (MkConnection [] p)) ->
  (forall options w e i, ParseOptions arguments = Ok options ->
     time_after (started_at env) (warmupSeconds options) = Ok w ->
     time_after w (durationSeconds options) = Ok e -> Z.of_nat i < clients options ->
     exists l a b, worker_rounds env i = l ++ [a; b] /\ w <= round_now a /\ e <= round_now b) ->
  exists disk' o, main deliver closed env arguments disk = (disk', Some o)
    /\ ends_well env arguments disk (disk', Some o).
Proof.
  intros HI Hpre Hwork Hend. cut (exists disk' o, main deliver closed env arguments disk = (disk', Some o)).
  { intros (disk' & o & E). exists disk', o. split; [done|]. rewrite <- E. apply main_well. }
  unfold main. destruct (asks_help arguments); [by eexists _, _|].
  apply and_then_returns. intros options Hp.
  destruct (preload_ends deliver closed options I HI (preload_connect env) (preload_peer env) Hpre)
    as (p' & preloaded & ->). cbn [snd].
  apply and_then_returns. intros _ _.
  apply and_then_returns. intros connections Hconn. apply and_then_returns. intros w Hw.
  apply and_then_returns. intros e He. unfold measure.
  destruct (first_unstarted _ _ _) as [[[|i] r]|] eqn:Es.
  - by apply and_then_returns; intros; eexists _, _.
  - by eexists _, _.
  - assert (is_Some (mapM id (run_workers deliver closed env options w e connections))) as [outcomes ->].
    { apply mapM_is_Some. apply Forall_lookup. intros i x Hx. unfold run_workers in Hx.
      rewrite list_lookup_imap in Hx. destruct (connections !! i) as [c|] eqn:Ei; [|done].
      injection Hx as <-. pose proof (connect_all_all I env _ _ _ Hwork Hconn) as HIc.
      apply connect_all_length in Hconn. pose proof (lookup_lt_Some _ _ _ Ei).
      destruct (Hend options w e i Hp Hw He ltac:(lia)) as (l & a & b & -> & Ha & Hb).
      destruct (run_worker_ends deliver closed options (worker_draws env i) I HI w e l a b c
        (proj1 (Forall_lookup _ _) HIc i c Ei) Ha Hb) as (c' & y & ->). by eexists. }
    apply and_then_returns. intros results _. apply and_then_returns. intros st _.
    destruct (WriteResults _ _ _ _ _ _) as [d r]. by apply and_then_returns; intros; eexists _, _.
Qed.

End main.

(** ** Limits *)

(** A peer that answers every request PONG twice. *)
Definition pong_surroundings (start : nat -> result unit) : Surroundings (Peer := unit) :=
  MkSurroundings tt (fun u => (u, Ok tt)) (fun _ => tt) (fun _ u => (u, Ok tt)) 0 start
    (fun _ _ => MkDraws 0 0 1)
    (fun _ => map (fun t => MkRound t t (fun i => t + Z.of_nat (Nat.min i 1000)))
       [500000000; 1000000000; 1200000000; 2000000000])
    io_ok io_ok None.

Definition pong_arguments (clients : String.string) : list bytes :=
  map str ["radish-bench"; "--workload"; "PING"; "--clients"; clients; "--pipeline"; "2";
    "--warmup"; "1"; "--duration"; "1"; "--preload"; "off"]%string.
Arguments pong_arguments clients%_string.

(** When the second thread can not be started the first is still running and
    the program does not get to its [catch]. *)
Lemma unstarted_thread_terminates :
  main pong_peer (fun _ => true) (pong_surroundings (fun i => if (i =? 0)%nat then Ok tt
    else Throw (system_error (str "Resource temporarily unavailable")))) (pong_arguments "2") ∅
  = (∅, Some Terminated).
Proof. vm_compute. reflexivity. Qed.

(** An unknown workload is only noticed after the keys were loaded and the
    threads started. *)
Lemma unknown_workload_reported :
  main pong_peer (fun _ => true) (pong_surroundings (fun _ => Ok tt))
    (map str ["radish-bench"; "--workload"; "FOO"; "--preload"; "off"; "--warmup"; "1"]%string) ∅
  = (∅, Some (Exited 1 [] (str "radish-bench: Unsupported workload: FOO" ++ [LF]))).
Proof. vm_compute. reflexivity. Qed.

(** A server that stays connected and says nothing: the client waits for ever. *)
Lemma silent_server_blocks command commands :
  (ExecutePipeline (fun _ (u : unit) => (u, Ok [])) (fun _ => false) (command :: commands)
     (MkConnection [] tt)).2 = None.
Proof. reflexivity. Qed.

(** ** Witnesses *)

Lemma pong_clock i : Forall clock_ok (worker_rounds (pong_surroundings (fun _ => Ok tt)) i).
Proof.
  repeat (apply Forall_cons; split); try apply Forall_nil_2; intros j; cbn [round_completion round_started];
    unfold LLONG_MAX; lia.
Qed.

Definition pong_report : bytes :=
  str "workload=PING throughput_ops_per_second=2 min_ms=0 p50_ms=0 p99_ms=1e-06 p99_5_ms=1e-06"
  ++ str " max_ms=1e-06 errors=0" ++ [LF].

(** One round of two requests is measured. *)
Lemma finished_run_reports_witness :
  exists disk st,
    main pong_peer (fun _ => true) (pong_surroundings (fun _ => Ok tt)) (pong_arguments "1") ∅
      = (disk, Some (Exited 0 pong_report []))
    /\ operations st + BenchmarkStatistics.errors st = 2.
Proof.
  destruct (main pong_peer (fun _ => true) (pong_surroundings (fun _ => Ok tt)) (pong_arguments "1") ∅)
    as [disk o] eqn:E.
  assert (Hout : o = Some (Exited 0 pong_report [])).
  { apply (f_equal snd) in E. cbn [snd] in E. rewrite <- E. vm_compute. reflexivity. }
  subst o. destruct (ok_pair (fun o => (clients o =? 1) && (pipeline o =? 2) && (warmupSeconds o =? 1)
      && (durationSeconds o =? 1) && forallb plain_char (label o)
      && forallb plain_char (host o) && forallb plain_char (port o))
    (tt, ParseOptions (pong_arguments "1"))) as (options & Hp & Ho); [vm_compute; reflexivity|].
  apply (f_equal snd) in Hp. cbn [snd] in Hp. zify_bool.
  destruct (finished_run_reports pong_peer (fun _ => true) (pong_surroundings (fun _ => Ok tt))
    (pong_arguments "1") options ∅ disk pong_report [] eq_refl Hp)
    as (results & st & w & e & Hw & He & Hl & Hr & Hop & Her & _).
  - repeat (apply Forall_cons; split; [first [assumption|reflexivity]|]). apply Forall_nil_2.
  - exact pong_clock.
  - reflexivity.
  - reflexivity.
  - exact E.
  - exists disk, st. split; [reflexivity|].
    assert (Hends : w = 1000000000 /\ e = 2000000000).
    { replace (warmupSeconds options) with 1 in Hw by lia. vm_compute in Hw. injection Hw as <-.
      replace (durationSeconds options) with 1 in He by lia. vm_compute in He. injection He as <-. split; reflexivity. }
    destruct Hends as [-> ->].
    destruct results as [|r [|r' results]]; [unfold zlen in Hl; simpl in Hl; lia| |
      unfold zlen in Hl; simpl in Hl; lia].
    destruct (Hr 0%nat r eq_refl) as [_ Hc]. rewrite Hop, Her. unfold counted in Hc.
    replace (pipeline options) with 2 in Hc by lia. cbn [map concat foldr]. rewrite app_nil_r.
    replace (measured_rounds 1000000000 2000000000 (worker_rounds (pong_surroundings (fun _ => Ok tt)) 0))
      with 1%nat in Hc by reflexivity. lia.
Defined.

Lemma pong_responsive : responsive pong_peer (fun _ => true) (fun _ => True).
Proof.
  split.
  - intros commands c _. unfold ExecutePipeline, write, pong_peer, read. cbn [m_buffer].
    destruct (read_responses _ _) as [[rs rest]| |]; [by eexists _, _| |by eexists _, _].
    cbn [negb peer]. rewrite andb_false_r. by eexists _, _.
  - intros command c _. unfold Execute, write, pong_peer, read. cbn [m_buffer].
    destruct (ReadResponse _) as [[b rest]| |]; [by eexists _, _| |by eexists _, _].
    cbn [negb peer]. rewrite andb_false_r. by eexists _, _.
Qed.

Lemma benchmark_ends_witness :
  exists disk o, main pong_peer (fun _ => true) (pong_surroundings (fun _ => Ok tt)) (pong_arguments "1") ∅
      = (disk, Some o)
    /\ ends_well (pong_surroundings (fun _ => Ok tt)) (pong_arguments "1") ∅ (disk, Some o).
Proof.
  apply (benchmark_ends pong_peer (fun _ => true) (pong_surroundings (fun _ => Ok tt)) (pong_arguments "1") ∅
    (fun _ => True) pong_responsive).
  - intros. exact I.
  - intros. exact I.
  - intros options w e i Hp Hw He _. vm_compute in Hp. injection Hp as <-.
    vm_compute in Hw. injection Hw as <-. vm_compute in He. injection He as <-.
    eexists [_; _], _, _. split; [reflexivity|]. split; discriminate.
Defined.
