(* ===== verification/UnitTests.v ===== *)
(** The unit tests of the repository (tests/), run on the model.

    Each example is one test case: the calls of the test on the definitions of
    the other files, computed, with the results the test requires. They say that
    the definitions behave as the authors expect of the code. A sleep is a later
    reading of the clock; the temporary file of a test is an empty [Disk]. *)

From S2P Require Import Prelude Decimal Streams EventType BinaryFile RadishEvent LogReader.
From S2P Require Import RadishStore LogWriter PersistenceLog RadishDB RespCodec TcpServer.
From S2P Require Import BenchmarkStatistics.
Open Scope Z_scope.

Ltac run_test := vm_compute; repeat (first [reflexivity | split]).

(** ** RadishStoreTests.cpp *)

Section store_tests.
Let keys (now : Timestamp) (s : RadishStore bytes) : list bytes :=
  RadishStore.Scan (fun _ => now) (map_to_list (RadishStore.m_data s)) s.
Let size (now : Timestamp) (s : RadishStore bytes) : Z :=
  RadishStore.Size (fun _ => now) (map_to_list (RadishStore.m_data s)) s.
Let create (now : Timestamp) (k v : String.string) (s : RadishStore bytes) : Timestamp * RadishStore bytes :=
  RadishStore.Create now s (str k) (str v) None.

Example store_creates_updates_renames :
  let '(t1, s) := create 0 "first" "one" (NewStore (-1)) in
  let '(t2, s) := create 0 "second" "two" s in
  let '(t3, s) := create 0 "first" "updated" s in
  let '(renamed, s) := RadishStore.Rename 0 s (str "second") (str "renamed") in
  t1 = -1 /\ t2 = -1 /\ t3 = -1 /\ renamed = true
  /\ RadishStore.Get 0 s (str "first") = Some (str "updated")
  /\ RadishStore.Get 0 s (str "renamed") = Some (str "two")
  /\ RadishStore.Exists 0 s (str "second") = false
  /\ size 0 s = 2.
Proof. run_test. Qed.

Example store_missing_mutations_are_no_ops :
  let s := (create 0 "key" "value" (NewStore (-1))).2 in
  let '(deleted, s) := RadishStore.Delete s (str "key") in
  let '(deleted_again, s) := RadishStore.Delete s (str "key") in
  let '(renamed, s) := RadishStore.Rename 0 s (str "missing") (str "new-key") in
  let '(cleared, s) := RadishStore.Clear s in
  let s := (create 0 "key" "value" s).2 in
  let '(cleared_again, s) := RadishStore.Clear s in
  deleted = true /\ deleted_again = false /\ renamed = false /\ cleared = false
  /\ cleared_again = true /\ size 0 s = 0 /\ keys 0 s = [].
Proof. run_test. Qed.

Example store_ttl_expires_entries :
  let s := (create 0 "session" "user" (NewStore 50)).2 in
  RadishStore.Exists 0 s (str "session") = true
  /\ RadishStore.IsExpired 100 s (str "session") = true
  /\ RadishStore.Exists 100 s (str "session") = false
  /\ RadishStore.Get 100 s (str "session") = None
  /\ size 100 s = 0 /\ keys 100 s = [].
Proof. run_test. Qed.

End store_tests.

(** ** RadishEventTests.cpp *)

(** What is written to a string stream and read back. *)
Definition reserialized {V} `{BinaryValue V} (e : RadishEvent V) : result (RadishEvent V) :=
  let! output := Serialize e ostringstream in
  let! (restored, _) := Deserialize (istringstream (os_data output)) in
  Ok restored.

Definition string_event (type : EventType) (key renameKey payload : option bytes) : RadishEvent bytes :=
  MkEvent type (-1) key renameKey payload.

Example event_create_round_trip :
  let event : RadishEvent bytes :=
    MkEvent CREATE 123 (Some (str "blob")) None (Some ["000"%char; "255"%char]) in
  reserialized event = Ok event.
Proof. run_test. Qed.

Example event_other_round_trips :
  Forall (fun e => reserialized e = Ok e)
    [string_event RENAME (Some (str "old")) (Some (str "new")) None;
     string_event DELETE (Some (str "key")) None None; string_event CLEAR None None None].
Proof. repeat (apply Forall_cons; split; [run_test|]). apply Forall_nil_2. Qed.

Example event_unsupported_type :
  exists e, Serialize (MkEvent (V := arithmetic 4 true) 255 (-1) None None None) ostringstream = Throw e.
Proof. eexists. run_test. Qed.

(** ** PersistenceLogTests.cpp *)

Abbreviation test_log := (NewPersistenceLog (V := bytes) io_ok (str "test.radish") (str "/tmp") ∅).

(** The disk after some appends to the log. *)
Fixpoint append_all (log : PersistenceLog bytes) (events : list (RadishEvent bytes)) (disk : Disk) :
    Disk * result unit :=
  match events with
  | [] => (disk, Ok tt)
  | event :: events =>
      match PersistenceLog.Append io_ok log event disk with
      | (disk, Ok _) => append_all log events disk
      | r => r
      end
  end.

Definition with_log (events : list (RadishEvent bytes)) (k : PersistenceLog bytes -> Disk -> Prop) : Prop :=
  match test_log with
  | (disk, Ok log) => match append_all log events disk with (disk, Ok _) => k log disk | _ => False end
  | _ => False
  end.

Definition replayed_store (log : PersistenceLog bytes) (disk : Disk) : result (RadishStore bytes) :=
  PersistenceLog.Replay io_ok (fun _ => 0) log (NewStore (-1)) disk.

Definition create_event_of (key value : String.string) : RadishEvent bytes :=
  string_event CREATE (Some (str key)) None (Some (str value)).

Example log_replays_all_mutations :
  with_log
    [create_event_of "old" "value"; string_event RENAME (Some (str "old")) (Some (str "new")) None;
     string_event DELETE (Some (str "new")) None None; create_event_of "discarded" "value";
     string_event CLEAR None None None; create_event_of "survives" "final"]
    (fun log disk =>
       match replayed_store log disk with
       | Ok store =>
           RadishStore.Size (fun _ => 0) (map_to_list (RadishStore.m_data store)) store = 1
           /\ RadishStore.Get 0 store (str "survives") = Some (str "final")
       | _ => False
       end).
Proof. run_test. Qed.

Definition raw_payload : bytes := ["000"%char; "001"%char; "254"%char; "255"%char].

Example log_keeps_raw_bytes :
  with_log [string_event CREATE (Some (str "blob")) None (Some raw_payload)]
    (fun log disk =>
       take 8 (default [] (disk !! str "/tmp/test.radish")) = str "RADISH" ++ ["000"%char; "001"%char]
       /\ match replayed_store log disk with
          | Ok store => RadishStore.Get 0 store (str "blob") = Some raw_payload
          | _ => False
          end).
Proof. run_test. Qed.

Example log_compaction_preserves_state :
  with_log [create_event_of "before" "value"; string_event RENAME (Some (str "before")) (Some (str "after")) None]
    (fun log disk =>
       match PersistenceLog.Compact io_ok (fun _ => 0) (fun _ => 0) (fun events => map_to_list events)
               log disk with
       | (disk, Ok _) =>
           match replayed_store log disk with
           | Ok store => RadishStore.Exists 0 store (str "before") = false
                         /\ RadishStore.Get 0 store (str "after") = Some (str "value")
           | _ => False
           end
       | _ => False
       end).
Proof. run_test. Qed.

Example log_rejects_invalid_header :
  exists e, GetEvents (V := bytes) io_ok (str "f") (<[str "f" := str "invalid!"]> ∅) = Throw e.
Proof. eexists. run_test. Qed.

Example log_rejects_inaccessible_path :
  let unwritable := MkIoEnv true None false None false true true true in
  exists disk e, NewPersistenceLog (V := bytes) unwritable (str "data.radish") (str "/missing") ∅
    = (disk, Throw e).
Proof. eexists _, _. run_test. Qed.

Example log_ignores_torn_write :
  with_log [create_event_of "key" "value"]
    (fun log disk =>
       let content := default [] (disk !! str "/tmp/test.radish") in
       GetEvents (V := bytes) io_ok (str "f") (<[str "f" := ztake (zlen content - 1) content]> ∅) = Ok []).
Proof. run_test. Qed.

(** ** RadishDBTests.cpp *)

Section database_tests.
Let step (now : Timestamp) (m : Mutation bytes) (st : RadishDB bytes * Disk) : RadishDB bytes * Disk :=
  (mutate io_ok now m st).1.
Let put (k v : String.string) : Mutation bytes := MutCreate (str k) (str v).
Let opened (ttl now : Timestamp) (disk : Disk) : RadishDB bytes * Disk :=
  match NewRadishDB_ttl io_ok (fun _ => now) (str "test") ttl Flush disk with
  | (disk, Ok db) => (db, disk)
  | (disk, _) => (MkRadishDB (NewStore 0) None, disk)
  end.
Let keys (now : Timestamp) (db : RadishDB bytes) : list bytes :=
  RadishDB.Scan (fun _ => now) (map_to_list (RadishStore.m_data (m_store db))) db.
Let size (now : Timestamp) (db : RadishDB bytes) : Z :=
  RadishDB.Size (fun _ => now) (map_to_list (RadishStore.m_data (m_store db))) db.

Example database_persists_mutations :
  let st := foldl (fun st m => step 0 m st) (opened (-1) 0 ∅)
    [put "first" "one"; put "second" "two"; put "first" "updated";
     MutRename (str "second") (str "renamed"); MutDelete (str "first")] in
  let reopened := (opened (-1) 0 st.2).1 in
  size 0 st.1 = 1 /\ RadishDB.Exists 0 (str "first") st.1 = false
  /\ RadishDB.Get 0 (str "renamed") st.1 = Some (str "two")
  /\ size 0 reopened = 1 /\ keys 0 reopened = [str "renamed"]
  /\ RadishDB.Get 0 (str "renamed") reopened = Some (str "two")
  /\ RadishDB.Exists 0 (str "first") reopened = false.
Proof. run_test. Qed.

Example database_persists_clear :
  let st := foldl (fun st m => step 0 m st) (opened (-1) 0 ∅)
    [put "one" "1"; put "two" "2"; MutClear; MutDelete (str "missing");
     MutRename (str "missing") (str "still-missing")] in
  let reopened := (opened (-1) 0 st.2).1 in
  size 0 reopened = 0 /\ keys 0 reopened = [] /\ RadishDB.Exists 0 (str "one") reopened = false
  /\ RadishDB.Exists 0 (str "still-missing") reopened = false.
Proof. run_test. Qed.

Example database_preserves_expiry :
  let st := step 0 (put "session" "user") (opened 50 0 ∅) in
  let reopened := (opened 50 100 st.2).1 in
  RadishDB.Exists 0 (str "session") st.1 = true
  /\ RadishDB.IsExpired 100 (str "session") st.1 = true
  /\ RadishDB.Exists 100 (str "session") st.1 = false /\ size 100 st.1 = 0
  /\ RadishDB.Exists 100 (str "session") reopened = false /\ size 100 reopened = 0.
Proof. run_test. Qed.

Example database_compaction_keeps_state :
  let st := foldl (fun st m => step 0 m st) (opened (-1) 0 ∅)
    [put "discarded" "old"; put "kept" "initial"; put "kept" "latest";
     MutRename (str "kept") (str "final"); MutDelete (str "discarded")] in
  let '(st, r) := RadishDB.Compact io_ok (fun _ => 0) (fun _ => 0) (fun events => map_to_list events) st in
  let reopened := (opened (-1) 0 st.2).1 in
  r = Ok tt /\ size 0 reopened = 1 /\ RadishDB.Get 0 (str "final") reopened = Some (str "latest")
  /\ RadishDB.Exists 0 (str "kept") reopened = false
  /\ RadishDB.Exists 0 (str "discarded") reopened = false.
Proof. run_test. Qed.

Example database_volatile_mode :
  match NewRadishDB (V := bytes) io_ok (fun _ => 0) (str "test") Disabled ∅ with
  | (disk, Ok db) =>
      let st := step 0 (put "ephemeral" "value") (db, disk) in
      RadishDB.Get 0 (str "ephemeral") st.1 = Some (str "value") /\ st.2 = ∅
  | _ => False
  end.
Proof. run_test. Qed.

End database_tests.

(** ** RespCodecTests.cpp *)

Definition line (s : String.string) : bytes := str s ++ crlf.
Arguments line s%_string.

Definition ping_hello : bytes := line "*2" ++ line "$4" ++ line "PING" ++ line "$5" ++ line "hello".
Definition ping_request : bytes := line "*1" ++ line "$4" ++ line "PING".

Definition parsed_as (r : result RespParseResult) (args : list bytes) (n : Z) : Prop :=
  match r with
  | Ok r => status r = Complete /\ arguments (command r) = args /\ consumed r = n
  | _ => False
  end.

Definition has_status (s : Status) (r : result RespParseResult) : Prop :=
  match r with Ok r => status r = s | _ => False end.

Example codec_fragments_and_pipelines :
  has_status Incomplete (ParseCommand (ztake 12 ping_hello))
  /\ parsed_as (ParseCommand (ping_hello ++ ping_request)) [str "PING"; str "hello"] (zlen ping_hello)
  /\ parsed_as (ParseCommand (zdrop (zlen ping_hello) (ping_hello ++ ping_request))) [str "PING"]
       (zlen ping_request).
Proof. run_test. Qed.

Definition with_nul : bytes := ["a"; "000"; "b"]%char.

Example codec_binary_safe :
  let request := line "*2" ++ line "$3" ++ line "SET" ++ line "$3" ++ with_nul ++ crlf in
  parsed_as (ParseCommand request) [str "SET"; with_nul] (zlen request).
Proof. run_test. Qed.

Example codec_encodes_binary_safe :
  EncodeCommand [str "SET"; str "key"; with_nul]
  = line "*3" ++ line "$3" ++ line "SET" ++ line "$3" ++ line "key" ++ line "$3" ++ with_nul ++ crlf.
Proof. run_test. Qed.

Example codec_rejects_malformed :
  Forall (fun input => has_status Error_ (ParseCommand input))
    [line "+PING"; line "*1" ++ line "+PING"; line "*1025"; line "*1" ++ line "$4194305"].
Proof. repeat (apply Forall_cons; split; [run_test|]). apply Forall_nil_2. Qed.

Example codec_replies :
  BulkString None Resp2 = line "$-1" /\ BulkString None Resp3 = line "_"
  /\ ztake 5 (Hello Resp2) = line "*12" /\ ztake 4 (Hello Resp3) = line "%6".
Proof. run_test. Qed.

(** ** TcpServerTests.cpp *)

(** A connection of a server on a new database: the replies to what it is
    sent, one read after the other. *)
Fixpoint conversation (requests : list bytes) (s : Session) (w : World) : list bytes * World :=
  match requests with
  | [] => ([], w)
  | request :: requests =>
      let '(s', w, _) := on_read request s w in
      let '(replies, w) := conversation requests s' w in
      (zdrop (zlen (transcript s)) (transcript s') :: replies, w)
  end.

Definition test_world (disk : Disk) : World :=
  match NewRadishDB (V := bytes) io_ok (fun _ => 0) (str "test") Flush disk with
  | (disk, Ok db) => MkWorld (db, disk) (fun _ => env_example)
  | (disk, _) => MkWorld (MkRadishDB (NewStore 0) None, disk) (fun _ => env_example)
  end.

Abbreviation new_connection := (StartSession NewSession).

Example server_dispatches_commands :
  (conversation
     [ping_request; EncodeCommand [str "SET"; str "key"; str "value"]; EncodeCommand [str "GET"; str "key"];
      EncodeCommand [str "EXISTS"; str "key"]; EncodeCommand [str "DEL"; str "key"]]
     new_connection (test_world ∅)).1
  = [line "+PONG"; line "+OK"; line "$5" ++ line "value"; line ":1"; line ":1"].
Proof. run_test. Qed.

Example server_pipelines_and_negotiates :
  let replies := (conversation [ping_request ++ ping_request; EncodeCommand [str "HELLO"; str "3"]]
    new_connection (test_world ∅)).1 in
  head replies = Some (line "+PONG" ++ line "+PONG") /\ ztake 4 <$> last replies = Some (line "%6").
Proof. run_test. Qed.

Example server_rejects_malformed :
  let '(first, w) := conversation [ping_request] new_connection (test_world ∅) in
  let '(second, w) := conversation [ping_request] new_connection w in
  let replies := (conversation [ping_request; line "+PING"] new_connection (test_world ∅)).1 in
  first = [line "+PONG"] /\ second = [line "+PONG"] /\ ztake 5 <$> last replies = Some (str "-ERR ").
Proof. run_test. Qed.

Example server_restores_values :
  let '(stored, w) :=
    conversation [EncodeCommand [str "SET"; str "persist"; str "value"]] new_connection (test_world ∅) in
  stored = [line "+OK"]
  /\ (conversation [EncodeCommand [str "GET"; str "persist"]] new_connection
        (test_world (database w).2)).1 = [line "$5" ++ line "value"].
Proof. run_test. Qed.

(** ** BenchmarkStatisticsTests.cpp; its first test is [four_samples]. *)

Example statistics_reject :
  (exists e, CalculateBenchmarkStatistics [] 0 (double_of_Z 1) = Throw e)
  /\ exists e, CalculateBenchmarkStatistics [1000000] 0 (double_of_Z 0) = Throw e.
Proof. split; eexists; run_test. Qed.
